(* ===== verification/_CoqProject ===== *)
-Q . S2P
Prelude.v
InlineQueue.v
WaitList.v
LocalMutex.v
LocalSemaphore.v
LocalRwLock.v
AlignedBuffer.v
BufferPool.v
Concurrency.v
Notify.v
RingBuffer.v
OneShot.v
Blocking.v
RingBlocking.v
Simulation.v
WeakMemory.v
WeakNotify.v
WeakRing.v
WeakOneShot.v
TripleBuffer.v
WeakTriple.v
BipBuffer.v
MpscLight.v
Text.v
Float64.v
Svg.v
Charts.v
ChartGen.v
