(* ===== verification/Prelude.v ===== *)
(** * Cynosure: concurrency primitives for thread-per-core executors

    A model of the primitives of the [cynosure] crate and the theorems that make
    them correct.

    ** The program

    The crate has two halves. [site_c] holds single-threaded primitives built on
    [Cell]s: an inline queue, and on top of it an async mutex, a reader-writer
    lock, a semaphore and a buffer pool. [site_d] holds cross-core primitives
    built on atomics: a flag-gated wakeup slot, and on top of it an SPSC ring
    buffer, a triple buffer, a contiguous byte buffer, a oneshot channel and a
    multi-producer channel. Beside the crate, [tools/chartgen] turns the tables
    the benchmarks write into SVG charts.

    ** The files

    - [Prelude.v]: outcomes (normal return, panic, undefined behaviour), [Poll]
      and [result], [usize] arithmetic, build modes, shared lemmas and tactics.
    - [InlineQueue.v], [Module Queue]: [src/src/site_c/queue.rs]. A queue is
      [Inline] (slots, head, tail, len) or [Heap]; each method is a function on
      it. A slot is an [option], so reading a slot twice is [Undefined].
    - [WaitList.v]: the interface ([WaitList], [WaitListLaws]) the locks use of
      the queue, its instance by [InlineQueue], and [Module Registration], the
      register and deregister protocol the three locks share.
    - [LocalMutex.v], [LocalRwLock.v], [LocalSemaphore.v]: [mutex.rs],
      [rwlock.rs] and [semaphore.rs] of [site_c]. One record per lock, one
      definition per method, future and guard operation; operations that wake
      return the wakers they fire. [sys] is a program using one lock (its live
      futures and guards, and the wakers fired for each future since its last
      poll) and [exec] one event of such a program.
    - [AlignedBuffer.v], [Module Buffer]: [src/src/site_d/buffer.rs] over an
      explicit heap, with the allocator as an interface that may fail.
    - [BufferPool.v], [Module Pool]: [src/src/site_c/pool.rs], over the
      semaphore and the buffer models.
    - [Concurrency.v]: programs of atomic accesses, threads under a schedule, and
      a rely-guarantee judgement [wp] with auxiliary state, sound for every
      schedule ([wp_sound]).
    - [Notify.v], [Module Notify]: [src/src/site_d/notify.rs], its slot protocol,
      and specifications of [arm], [disarm] and [signal] for any shared state
      that contains a slot ([SlotRef], [SlotIn]).
    - [RingBuffer.v], [OneShot.v], [TripleBuffer.v], [BipBuffer.v]:
      [ringbuf.rs], [oneshot.rs], [triplebuffer.rs] and [bipbuffer.rs] of
      [src/src/site_d]. Each has its shared state as a record, its operations
      and futures as programs with one step per access to the shared state, a
      client per side that performs any sequence of operations and notes what
      it sent and received, and a proof of both clients against the invariant.
    - [Blocking.v], [Module Blocking]: [src/src/blocking.rs], [block_on] over any
      future that implements the interface [Waits], and its composition with the
      receiver of [OneShot.v]. [RingBlocking.v]: the blocking operations of
      [ringbuf.rs], which are [block_on] of the async ones.
    - [MpscLight.v], [Module Mpsc]: [src/src/site_d/mpsc_light.rs], the same way
      with any number of sender threads. Data behind the spinlock may only be
      accessed by its holder; the wait list and the wakes passed between parked
      senders are related to the futures of the sender threads.
    - [Simulation.v]: refinement between threads ([sim]), which carries theorems
      about threads over one state to threads over a more detailed one ([sim_run]).
    - [WeakMemory.v]: a memory with the orderings of Rust's atomics, in which loads
      may return old stores and unordered plain accesses are undefined.
    - [WeakNotify.v], [WeakRing.v], [WeakOneShot.v], [WeakTriple.v]: [notify.rs],
      [ringbuf.rs], [oneshot.rs] and [triplebuffer.rs] over that memory, each access
      with the ordering of the source. The operations are those of [RingBuffer.v],
      [OneShot.v] and [TripleBuffer.v], written against the interfaces
      [Ring.Accesses], [OneShot.Accesses] and [Triple.Accesses], with other
      instances of them.
    - [Text.v], [Float64.v]: what the chart generator uses of Rust's strings,
      ordered maps, sorting and binary64 numbers, with their printing and parsing.
    - [Svg.v]: an XML reader and the grammar it reads ([Module Xml]), the theme
      and the SVG builder ([theme.rs] and [svg.rs] of [src/tools/chartgen/src]);
      [Charts.v]: the two chart forms ([charts.rs]); [ChartGen.v]: loading tables,
      grouping rows and writing files ([main.rs], [render.rs]).

    ** What the theorems show

    - Refinement: any sequence of calls on the inline queue answers and panics like
      a plain deque, with and without overflow checks ([queue_refines_deque]); panicking destructors, [iter_mut] and the
      round trips are separate theorems.
    - Exclusion and conservation: [mutex_mutual_exclusion], [rwlock_exclusion],
      [semaphore_conserves_permits], [pool_safe]: in every program using the
      primitive, no call panics or is undefined and the guards alive match the
      lock's state.
    - Transfer of data: [ring_fifo], [bip_fifo], [mpsc_fifo], [triple_lossless]
      and [oneshot_exactly_once]: under every interleaving nothing faults, and
      what was received is what was sent, once and in order.
    - Memory orderings: [weak_ring_refines], with the orderings of the source the
      ring buffer and its slots have no data race and behave as under sequential
      consistency; so [weak_ring_correct], it is a FIFO that loses no wakeup.
      [weak_oneshot_refines] and [weak_oneshot_correct], the same of the oneshot and
      of the [Arc] its handles share, where the sender's [Acquire] loads may miss
      what the receiver did.
    - No lost wakeup: the theorems named [*_no_lost_wakeup]. A parked future
      whose condition now holds has had its waker fired since its last poll; for
      the semaphore, provided each re-poll brings a waker that [will_wake]
      recognises ([waker_change_strands_front] shows why).
    - Backpressure and closing: [mpsc_no_stranded_sender], [mpsc_close_wakes],
      [bip_drained_accepts]: nobody waits for space that is there or for a peer
      that is gone.
    - Charts: [svg_reads_back], every document the builder can produce is
      well-formed and reads back as what was drawn; [bars_chart_shows],
      [latency_chart_names] and [latency_labels_apart], what the charts show and
      where the labels go; [csv_roundtrip], [rows_grouped], tables load as they
      were written and bad rows are refused; [chartgen_writes], the files written
      are the charts of the tables, inside the output directory.
    - Equivalence: [mpsc_batch_is_each], a batch is its items one by one.
    - Termination: [blocking_recv_returns], a thread that blocks on a oneshot
      returns once the sender is done; [ring_blocking_no_deadlock], two threads
      that block on a ring are never both parked without a wakeup due.
    - Memory: [buffer_life_safe], [pool_clears], [pool_drop_frees]: every
      allocation is freed once, with the layout it was made with.
    - Limits: constructors accept exactly the documented arguments, and overflow
      of the permit count panics.
    - Behaviour that falls short of the documentation is stated as it is:
      [waker_change_strands_front], [cancelled_writer_strands_reader],
      [ring_progress_stale], [bip_empty_wrap_waits].

    ** Assumptions and bounds

    The shared state of the primitives of [site_d] is sequentially consistent: the
    interleaving is at the level of atomic accesses, and accesses the code makes
    with weaker orderings are not distinguished. For the ring buffer, the
    oneshot, the triple buffer and the slot [WeakMemory.v] removes this assumption
    (it stands for the byte buffer and the multi-producer channel, whose slots have
    more than the one signaller [WeakNotify.v] is proved for), except that the
    counts of the ring ([free_count], [available_count], [is_empty], [is_full]),
    whose [Acquire] loads may be out of date, are left to the sequentially
    consistent theorems. That memory has no load buffering, stores reach a location
    in the order they are performed, and a [compare_exchange] that fails reads the
    newest store. A [Waker] is opaque; [will_wake] is arbitrary; firing one is
    recorded and does not re-enter the primitive. An executor is a client that
    may poll at any time, with any waker. [usize] is 64 bits wide and its
    arithmetic wraps where the code says so or in release builds. A request for
    capacity in the inline queue panics above [isize::MAX] bytes and else succeeds;
    what a [VecDeque] asks for on top is arbitrary ([slack]), and the deque grows
    for every element pushed, which exists in memory. Ids handed out
    by the locks do not wrap within one program (2^64 registrations); for the
    channel this is a hypothesis on the number of operations.

    Loops are structural where the source iterates over a list; the others have
    fuel that the theorems show to be enough: the queue's loops run [len] times,
    the readers' wake loop one more time than its queue is long, the ring's drop
    loop [capacity + 1] times. The loops that wait for another thread (the byte
    buffer's cursor loop, the channel's spinlock, the parked thread) have fuel too, and run out of it
    only in schedules longer than the fuel. A client performs a finite list of operations.

    In the chart generator a string is a list of code points; a number is a
    binary64 of [SpecFloat] (whose NaN has no sign), printed and parsed with exact
    rounding to even. The logarithm and powers of [f64], the rasteriser, the file
    system and the directory listing are parameters.

    ** What is not modelled

    [hints.rs] (compiler hints without effect on results), [padding.rs] (cache
    line alignment), the thread-local that keeps one waker per thread for
    [block_on], [Debug] formatting that does not touch the state, the chart
    generator's messages on the terminal, and the benchmarks and tests. *)
From stdpp Require Import base list gmap numbers relations strings.

(** ** Outcomes of a Rust computation

    [Done a] is a normal return, [Panicked msg] an unwinding panic and
    [Undefined] undefined behaviour (reading an uninitialised or already moved
    out slot, building a slice out of bounds). *)
Inductive outcome (A : Type) : Type :=
| Done (a : A)
| Panicked (msg : string)
| Undefined.
Arguments Done {A} a.
Arguments Panicked {A} msg.
Arguments Undefined {A}.

#[global] Instance outcome_ret : MRet outcome := fun A a => Done a.
#[global] Instance outcome_bind : MBind outcome := fun A B f m =>
  match m with
  | Done a => f a
  | Panicked msg => Panicked msg
  | Undefined => Undefined
  end.

(** Result of polling a future. *)
Inductive Poll (A : Type) : Type :=
| Ready (a : A)
| Pending.
Arguments Ready {A} a.
Arguments Pending {A}.

(** Rust's [Result]. *)
Inductive result (A E : Type) : Type :=
| ROk (a : A)
| RErr (e : E).
Arguments ROk {A E} a.
Arguments RErr {A E} e.

(** ** Machine integers

    A [usize]/[u64] is a [Z] in [[0, 2^64)]. Overflow of the plain [+] operator
    panics when overflow checks are on (debug builds) and wraps when they are
    off (release builds); [BuildMode] records which. *)
Definition word_modulus : Z := 2 ^ 64.
Definition usize_max : Z := word_modulus - 1.
Definition isize_max : Z := 2 ^ 63 - 1.

Class BuildMode : Type := { overflow_checks : bool }.
Definition debug_build : BuildMode := {| overflow_checks := true |}.
Definition release_build : BuildMode := {| overflow_checks := false |}.

Definition is_word (x : Z) : Prop := (0 <= x < word_modulus)%Z.
Definition wrap (x : Z) : Z := (x `mod` word_modulus)%Z.
Definition wrapping_add (a b : Z) : Z := wrap (a + b).
Definition wrapping_sub (a b : Z) : Z := wrap (a - b).
Definition saturating_sub (a b : Z) : Z := Z.max 0 (a - b).
Definition checked_add (a b : Z) : option Z :=
  if (a + b <=? usize_max)%Z then Some (a + b)%Z else None.
Definition add_usize `{BuildMode} (a b : Z) : outcome Z :=
  if (a + b <=? usize_max)%Z then Done (a + b)%Z
  else if overflow_checks then Panicked "attempt to add with overflow"
  else Done (wrap (a + b)).
Definition sub_usize `{BuildMode} (a b : Z) : outcome Z :=
  if (b <=? a)%Z then Done (a - b)%Z
  else if overflow_checks then Panicked "attempt to subtract with overflow"
  else Done (wrap (a - b)).

(** [assert!(b, msg)]. *)
Definition assert_or (b : bool) (msg : string) : outcome unit :=
  if b then Done tt else Panicked msg.

(** [debug_assert!(b, msg)]: compiled in exactly when overflow checks are. *)
Definition debug_assert `{BuildMode} (b : bool) (msg : string) : outcome unit :=
  if overflow_checks then assert_or b msg else Done tt.

(** ** Tactics *)
Create HintDb cyn.

(** Split the bindings of the outcome monad. *)
Ltac outcome_simpl := cbn [mbind mret outcome_bind outcome_ret] in *.

(** Turn boolean comparisons in the context and the goal into propositions. *)
Ltac bool_props :=
  repeat match goal with
  | H : (_ <? _) = true |- _ => apply Nat.ltb_lt in H
  | H : (_ <? _) = false |- _ => apply Nat.ltb_ge in H
  | H : (_ <=? _) = true |- _ => apply Nat.leb_le in H
  | H : (_ <=? _) = false |- _ => apply Nat.leb_gt in H
  | H : (_ =? _) = true |- _ => apply Nat.eqb_eq in H
  | H : (_ =? _) = false |- _ => apply Nat.eqb_neq in H
  | H : (_ <? _)%Z = true |- _ => apply Z.ltb_lt in H
  | H : (_ <? _)%Z = false |- _ => apply Z.ltb_ge in H
  | H : (_ <=? _)%Z = true |- _ => apply Z.leb_le in H
  | H : (_ <=? _)%Z = false |- _ => apply Z.leb_gt in H
  | H : (_ =? _)%Z = true |- _ => apply Z.eqb_eq in H
  | H : (_ =? _)%Z = false |- _ => apply Z.eqb_neq in H
  | H : negb _ = true |- _ => apply negb_true_iff in H
  | H : negb _ = false |- _ => apply negb_false_iff in H
  | H : (_ && _) = true |- _ => apply andb_true_iff in H as [? ?]
  | H : (_ || _) = false |- _ => apply orb_false_iff in H as [? ?]
  end.

(** Case on every boolean test of the goal, keeping the test as a proposition. *)
Ltac case_tests :=
  repeat match goal with
  | |- context [if ?b then _ else _] =>
      lazymatch type of b with bool => destruct b eqn:?; bool_props end
  end.

(** ** Circular indices

    Lemmas on [(head + i) mod n], the address of the [i]-th element of a ring of
    [n] slots starting at [head]. *)
Section ring.
Context (n : nat).

Lemma ring_lt h i : 0 < n -> (h + i) mod n < n.
Proof. intros. apply Nat.mod_upper_bound. lia. Qed.

Lemma ring_shift h k i : ((h + k) mod n + i) mod n = (h + (k + i)) mod n.
Proof. rewrite Nat.Div0.add_mod_idemp_l. f_equal. lia. Qed.

Lemma ring_inj h i j : i < n -> j < n -> (h + i) mod n = (h + j) mod n -> i = j.
Proof.
  intros Hi Hj Heq.
  pose proof (Nat.div_mod_eq (h + i) n). pose proof (Nat.div_mod_eq (h + j) n).
  rewrite Heq in *.
  assert ((h + i) / n = (h + j) / n \/ (h + i) / n <> (h + j) / n) as [E|E] by lia; [nia|].
  exfalso. nia.
Qed.

Lemma ring_small h : h < n -> h mod n = h.
Proof. apply Nat.mod_small. Qed.

Lemma ring_wrap h i : h < n -> i <= n -> n <= h + i -> (h + i) mod n = h + i - n.
Proof.
  intros. replace (h + i) with ((h + i - n) + 1 * n) at 1 by lia.
  rewrite Nat.Div0.mod_add. apply Nat.mod_small. lia.
Qed.

(** Every slot of the ring is the address of exactly one offset. *)
Lemma ring_surj h p : h < n -> p < n -> exists i, i < n /\ (h + i) mod n = p.
Proof.
  intros Hh Hp. destruct (decide (h <= p)).
  - exists (p - h). split; [lia|]. rewrite Nat.mod_small; lia.
  - exists (p + n - h). split; [lia|].
    replace (h + (p + n - h)) with (p + 1 * n) by lia.
    rewrite Nat.Div0.mod_add. apply Nat.mod_small. lia.
Qed.
End ring.

(** ** Wrapping arithmetic

    A counter that only grows is stored modulo [2^64]; differences that fit are
    exact. *)
Lemma wrapping_sub_wrap a b :
  (0 <= a - b < word_modulus)%Z -> wrapping_sub (wrap a) (wrap b) = (a - b)%Z.
Proof.
  intros Hd. unfold wrapping_sub, wrap. rewrite <-Zminus_mod. by apply Z.mod_small.
Qed.

Lemma wrapping_add_wrap a b : wrapping_add (wrap a) b = wrap (a + b).
Proof. unfold wrapping_add, wrap. by rewrite Z.add_mod_idemp_l by done. Qed.

Lemma wrap_inj a b : (0 <= b - a < word_modulus)%Z -> wrap a = wrap b -> a = b.
Proof.
  intros Hd Heq. assert (wrapping_sub (wrap b) (wrap a) = 0%Z) as H0.
  { rewrite Heq. unfold wrapping_sub, wrap. rewrite Z.sub_diag. done. }
  rewrite wrapping_sub_wrap in H0 by done. lia.
Qed.

(** Masking a wrapped counter with a power of two. *)
Lemma land_wrap_mask a e :
  (0 <= e <= 64)%Z -> Z.land (wrap a) (2 ^ e - 1) = (a `mod` 2 ^ e)%Z.
Proof.
  intros He. rewrite Z.sub_1_r, <-Z.ones_equiv, Z.land_ones by lia.
  unfold wrap, word_modulus. replace 64%Z with (e + (64 - e))%Z at 1 by lia.
  rewrite Z.pow_add_r by lia.
  rewrite Z.rem_mul_r by (apply Z.pow_nonzero || apply Z.pow_pos_nonneg; lia).
  rewrite Z.mul_comm, Z.mod_add by (apply Z.pow_nonzero; lia). apply Z.mod_mod, Z.pow_nonzero; lia.
Qed.

(** ** Lists *)
Lemma list_lookup_snoc {A} (xs : list A) (v : A) (i : nat) :
  (xs ++ [v]) !! i = if decide (i = length xs) then Some v else xs !! i.
Proof.
  case_decide; subst.
  - by rewrite lookup_app_r, Nat.sub_diag by lia.
  - destruct (decide (i < length xs)).
    + by rewrite lookup_app_l by lia.
    + rewrite lookup_app_r by lia.
      rewrite (lookup_ge_None_2 xs) by lia.
      apply lookup_ge_None_2. simpl. lia.
Qed.

Lemma lookup_tail_S {A} (x : A) (xs : list A) i : (x :: xs) !! S i = xs !! i.
Proof. done. Qed.

(** ** Invariants of transition systems *)
Lemma rtc_invariant {A} (R : relation A) (I : A -> Prop) x y :
  (forall a b, I a -> R a b -> I b) -> I x -> rtc R x y -> I y.
Proof. intros Hpres Hx Hr. induction Hr; eauto. Qed.

Lemma nsteps_invariant {A} (R : relation A) (I : nat -> A -> Prop) n x y :
  (forall k a b, k < n -> I k a -> R a b -> I (S k) b) ->
  I 0 x -> nsteps R n x y -> I n y.
Proof.
  intros Hpres Hx Hr.
  assert (forall k m a b, k + m = n -> I k a -> nsteps R m a b -> I n b) as Hgen.
  { intros k m. revert k. induction m as [|m IH]; intros k a b Hkm Ha Hab.
    - assert (k = n) as <- by lia. by inversion Hab; simplify_eq.
    - inversion Hab as [|? ? a' ? Hstep Hrest]; simplify_eq.
      apply (IH (S k) a' b); [lia| |done].
      eapply Hpres; [lia|done|done]. }
  by eapply (Hgen 0 n x y).
Qed.
