(* ===== verification/InlineQueue.v ===== *)
(** * The inline double-ended queue ([src/site_c/queue.rs])

    [Module Queue] models [Queue<T, N>]: a ring of [N] inline slots that spills
    to a [VecDeque] when it overflows. A [MaybeUninit<T>] slot is an
    [option T]; moving a value out ([assume_init_read], [assume_init_drop])
    leaves [None] behind, so a second read or drop of the same value is
    [Undefined]. A [VecDeque] is the list of its elements, front first. Requests
    for capacity ([with_capacity], [reserve]) panic when they exceed [isize::MAX]
    bytes and otherwise succeed: a process that runs out of memory aborts. The
    elements of a deque exist in memory, so growing to hold one more is never
    refused. *)
From stdpp Require Import base list gmap numbers relations strings.
From S2P Require Import Prelude.

Module Queue.
Section queue.
Context {T : Type}.

(** ** Data *)
Inductive QueueInternal : Type :=
| Inline (buf : list (option T)) (head tail len : nat)
| Heap (vec : list T).

Inductive IterInner : Type :=
| IterInline (buf : list (option T)) (head remaining : nat)
| IterHeap (rest : list T).

(** What an [&mut T] handed out by [IterMut] points to. *)
Inductive place : Type :=
| PSlot (i : nat)
| PHeap (i : nat).

Inductive IterMutInner : Type :=
| IterMutInline (buf : list (option T)) (head remaining : nat)
| IterMutHeap (next remaining : nat).

(** ** Slot primitives *)
Definition slot_write (buf : list (option T)) (i : nat) (v : T) : outcome (list (option T)) :=
  if i <? length buf then Done (<[i := Some v]> buf) else Panicked "index out of bounds".

Definition slot_take (buf : list (option T)) (i : nat) : outcome (T * list (option T)) :=
  match buf !! i with
  | Some (Some v) => Done (v, <[i := None]> buf)
  | Some None => Undefined
  | None => Panicked "index out of bounds"
  end.

Definition slot_ref (buf : list (option T)) (i : nat) : outcome T :=
  match buf !! i with
  | Some (Some v) => Done v
  | Some None => Undefined
  | None => Panicked "index out of bounds"
  end.

(** [slice::from_raw_parts_mut(buf.as_mut_ptr().add(start) as *mut T, len)]. *)
Fixpoint raw_slice (buf : list (option T)) (start len : nat) : outcome (list T) :=
  match len with
  | 0 => Done []
  | S len' =>
      match buf !! start with
      | Some (Some v) => rest ← raw_slice buf (S start) len'; Done (v :: rest)
      | _ => Undefined
      end
  end.

(** ** Operations *)
Section ops.
Context (N : nat).

Definition advance (idx : nat) : nat := if idx + 1 =? N then 0 else idx + 1.
Definition retreat (idx : nat) : nat := if idx =? 0 then N - 1 else idx - 1.

Definition new : QueueInternal := Inline (replicate N None) 0 0 0.

(** [size_of::<T>()]. *)
Context (size_of : Z).

(** A request of a [VecDeque] for space for [elements] elements. *)
Definition request (elements : Z) : outcome unit :=
  assert_or (elements * size_of <=? isize_max)%Z "capacity overflow".

(** [VecDeque::reserve]. It may ask for [slack] more than what is needed, an
    amount its documentation leaves open. *)
Definition deque_reserve (len additional slack : Z) : outcome unit :=
  match checked_add len additional with
  | Some required => request (required + slack)
  | None => Panicked "capacity overflow"
  end.

Definition with_capacity (capacity : Z) : outcome QueueInternal :=
  if (capacity <=? Z.of_nat N)%Z then Done new else _ ← request capacity; Done (Heap []).

(** [for _ in 0..len { val = buf[idx].assume_init_read(); out.push(val);
    idx = advance(idx) }], the loop shared by the spill paths and [into_vec]. *)
Fixpoint drain_loop (n idx : nat) (buf : list (option T)) (out : list T) :
    outcome (list T * list (option T)) :=
  match n with
  | 0 => Done (out, buf)
  | S n' =>
      '(v, buf) ← slot_take buf idx;
      drain_loop n' (advance idx) buf (out ++ [v])
  end.

Definition push_back (q : QueueInternal) (value : T) : outcome QueueInternal :=
  match q with
  | Inline buf head tail len =>
      if len <? N then
        buf ← slot_write buf tail value;
        Done (Inline buf head (advance tail) (len + 1))
      else
        '(heap, _) ← drain_loop len head buf [];
        Done (Heap (heap ++ [value]))
  | Heap vec => Done (Heap (vec ++ [value]))
  end.

Definition push_front (q : QueueInternal) (value : T) : outcome QueueInternal :=
  match q with
  | Inline buf head tail len =>
      if len <? N then
        let head := retreat head in
        buf ← slot_write buf head value;
        Done (Inline buf head tail (len + 1))
      else
        '(heap, _) ← drain_loop len head buf [value];
        Done (Heap heap)
  | Heap vec => Done (Heap (value :: vec))
  end.

Definition pop_front (q : QueueInternal) : outcome (option T * QueueInternal) :=
  match q with
  | Inline buf head tail len =>
      if len =? 0 then Done (None, q)
      else
        '(value, buf) ← slot_take buf head;
        Done (Some value, Inline buf (advance head) tail (len - 1))
  | Heap [] => Done (None, Heap [])
  | Heap (v :: vec) => Done (Some v, Heap vec)
  end.

Definition pop_back (q : QueueInternal) : outcome (option T * QueueInternal) :=
  match q with
  | Inline buf head tail len =>
      if len =? 0 then Done (None, q)
      else
        let tail := retreat tail in
        '(value, buf) ← slot_take buf tail;
        Done (Some value, Inline buf head tail (len - 1))
  | Heap vec => Done (last vec, Heap (take (length vec - 1) vec))
  end.

Definition into_vec (q : QueueInternal) : outcome (list T * QueueInternal) :=
  match q with
  | Inline buf head tail len =>
      '(result, buf) ← drain_loop len head buf [];
      Done (result, Inline buf 0 0 0)
  | Heap vec => Done (vec, Heap [])
  end.

Definition len (q : QueueInternal) : nat :=
  match q with
  | Inline _ _ _ len => len
  | Heap vec => length vec
  end.

Definition is_empty (q : QueueInternal) : bool := len q =? 0.

(** [slack] is what [VecDeque::reserve] asks for on top. *)
Definition reserve `{BuildMode} (q : QueueInternal) (additional slack : Z) : outcome QueueInternal :=
  required_capacity ← add_usize (Z.of_nat (len q)) additional;
  match q with
  | Inline buf head _ len =>
      if (Z.of_nat N <? required_capacity)%Z then
        _ ← request required_capacity;
        '(heap, _) ← drain_loop len head buf [];
        Done (Heap heap)
      else Done q
  | Heap vec => _ ← deque_reserve (Z.of_nat (length vec)) additional slack; Done q
  end.

(** [for (i, val) in temp.into_iter().enumerate() { buf[i] = MaybeUninit::new(val) }] *)
Fixpoint write_back (i : nat) (vals : list T) (buf : list (option T)) :
    outcome (list (option T)) :=
  match vals with
  | [] => Done buf
  | v :: vals => buf ← slot_write buf i v; write_back (S i) vals buf
  end.

(** Returns the queue and the slice it now exposes. *)
Definition make_contiguous (q : QueueInternal) : outcome (QueueInternal * list T) :=
  match q with
  | Inline buf head tail len =>
      if len =? 0 then Done (q, [])
      else if (head <? tail) || ((head =? tail) && (len =? 0)) then
        slice ← raw_slice buf head len;
        Done (q, slice)
      else
        '(temp, buf) ← drain_loop len head buf [];
        buf ← write_back 0 temp buf;
        let tail := if len =? N then 0 else len in
        slice ← raw_slice buf 0 len;
        Done (Inline buf 0 tail len, slice)
  | Heap vec => Done (q, vec)
  end.

(** [for item in items { self.push_back(item) }] *)
Fixpoint extend (q : QueueInternal) (items : list T) : outcome QueueInternal :=
  match items with
  | [] => Done q
  | item :: items => q ← push_back q item; extend q items
  end.

Definition from_vec (vec : list T) : outcome QueueInternal := extend new vec.
Definition from_iter (items : list T) : outcome QueueInternal := extend new items.

Fixpoint retain_loop (keep : T -> bool) (q : QueueInternal) (items : list T) :
    outcome QueueInternal :=
  match items with
  | [] => Done q
  | item :: items =>
      q ← (if keep item then push_back q item else Done q);
      retain_loop keep q items
  end.

Definition retain (q : QueueInternal) (keep : T -> bool) : outcome QueueInternal :=
  '(items, q) ← into_vec q;
  retain_loop keep q items.

Fixpoint take_where_loop (remove : T -> bool) (q : QueueInternal) (items removed : list T) :
    outcome (list T * QueueInternal) :=
  match items with
  | [] => Done (removed, q)
  | item :: items =>
      if remove item then take_where_loop remove q items (removed ++ [item])
      else q ← push_back q item; take_where_loop remove q items removed
  end.

Definition take_where (q : QueueInternal) (remove : T -> bool) :
    outcome (list T * QueueInternal) :=
  '(all, q) ← into_vec q;
  take_where_loop remove q all [].

(** [clear]: the queue is advanced past an element before its destructor runs.
    [drop_panics v] says whether [v]'s destructor unwinds; the result carries
    the queue as the unwinding leaves it, the elements dropped, and whether a
    destructor panicked. *)
Fixpoint clear_loop (drop_panics : T -> bool) (n head : nat) (buf : list (option T))
    (dropped : list T) : outcome (list (option T) * nat * nat * list T * bool) :=
  match n with
  | 0 => Done (buf, head, 0, dropped, false)
  | S n' =>
      '(v, buf) ← slot_take buf head;
      if drop_panics v then Done (buf, advance head, n', dropped ++ [v], true)
      else clear_loop drop_panics n' (advance head) buf (dropped ++ [v])
  end.

Definition clear (drop_panics : T -> bool) (q : QueueInternal) :
    outcome (QueueInternal * list T * bool) :=
  match q with
  | Inline buf head tail len =>
      '(buf, head, len, dropped, panicked) ← clear_loop drop_panics len head buf [];
      if (panicked : bool) then Done (Inline buf head tail len, dropped, true)
      else Done (Inline buf 0 0 len, dropped, false)
  | Heap vec => Done (Heap [], vec, existsb drop_panics vec)
  end.

Definition swap (q : QueueInternal) (a b : nat) : outcome QueueInternal :=
  let l := len q in
  _ ← assert_or (a <? l) "index out of bounds";
  _ ← assert_or (b <? l) "index out of bounds";
  if a =? b then Done q
  else
    match q with
    | Inline buf head tail len =>
        let idx_a := (head + a) mod N in
        let idx_b := (head + b) mod N in
        va ← slot_ref buf idx_a;
        vb ← slot_ref buf idx_b;
        Done (Inline (<[idx_b := Some va]> (<[idx_a := Some vb]> buf)) head tail len)
    | Heap vec =>
        match vec !! a, vec !! b with
        | Some va, Some vb => Done (Heap (<[b := va]> (<[a := vb]> vec)))
        | _, _ => Panicked "assertion failed"
        end
    end.

(** [Drop for Queue]: the elements whose destructors run. *)
Fixpoint drop_loop (n idx : nat) (buf : list (option T)) (dropped : list T) :
    outcome (list T) :=
  match n with
  | 0 => Done dropped
  | S n' =>
      '(v, buf) ← slot_take buf idx;
      drop_loop n' (advance idx) buf (dropped ++ [v])
  end.

Definition drop_queue (q : QueueInternal) : outcome (list T) :=
  match q with
  | Inline buf head _ len => drop_loop len head buf []
  | Heap vec => Done vec
  end.

(** ** Iterators *)
Definition iter (q : QueueInternal) : IterInner :=
  match q with
  | Inline buf head _ len => IterInline buf head len
  | Heap vec => IterHeap vec
  end.

Definition iter_next (it : IterInner) : outcome (option T * IterInner) :=
  match it with
  | IterInline buf head remaining =>
      if remaining =? 0 then Done (None, it)
      else
        item ← slot_ref buf head;
        Done (Some item, IterInline buf (advance head) (remaining - 1))
  | IterHeap [] => Done (None, IterHeap [])
  | IterHeap (v :: rest) => Done (Some v, IterHeap rest)
  end.

Definition iter_len (it : IterInner) : nat :=
  match it with
  | IterInline _ _ remaining => remaining
  | IterHeap rest => length rest
  end.

(** [for item in it { .. }]: [fuel] bounds the number of calls to [next]. *)
Fixpoint iter_collect (fuel : nat) (it : IterInner) : outcome (list T) :=
  match fuel with
  | 0 => Done []
  | S fuel =>
      '(item, it) ← iter_next it;
      match item with
      | None => Done []
      | Some v => rest ← iter_collect fuel it; Done (v :: rest)
      end
  end.

(** All the elements, by [iter()] driven to exhaustion. *)
Definition iter_all (q : QueueInternal) : outcome (list T) :=
  iter_collect (S (iter_len (iter q))) (iter q).

Definition iter_mut (q : QueueInternal) : IterMutInner :=
  match q with
  | Inline buf head _ len => IterMutInline buf head len
  | Heap vec => IterMutHeap 0 (length vec)
  end.

(** The slot index is the reference: a slot that is not initialised must not be
    handed out as [&mut T]. *)
Definition iter_mut_next (it : IterMutInner) : outcome (option place * IterMutInner) :=
  match it with
  | IterMutInline buf head remaining =>
      if remaining =? 0 then Done (None, it)
      else
        let idx := head in
        _ ← slot_ref buf idx;
        Done (Some (PSlot idx), IterMutInline buf (advance head) (remaining - 1))
  | IterMutHeap next remaining =>
      if remaining =? 0 then Done (None, it)
      else Done (Some (PHeap next), IterMutHeap (next + 1) (remaining - 1))
  end.

Definition iter_mut_len (it : IterMutInner) : nat :=
  match it with
  | IterMutInline _ _ remaining => remaining
  | IterMutHeap _ remaining => remaining
  end.

Fixpoint iter_mut_collect (fuel : nat) (it : IterMutInner) : outcome (list place) :=
  match fuel with
  | 0 => Done []
  | S fuel =>
      '(item, it) ← iter_mut_next it;
      match item with
      | None => Done []
      | Some p => rest ← iter_mut_collect fuel it; Done (p :: rest)
      end
  end.

Definition into_iter (q : QueueInternal) : outcome (list T) :=
  '(vec, _) ← into_vec q;
  Done vec.

(** [Clone]: [T]'s own [clone] is the parameter. *)
Definition clone (clone_item : T -> T) (q : QueueInternal) : outcome QueueInternal :=
  items ← iter_all q;
  extend new (map clone_item items).

Fixpoint zip_all (eq_item : T -> T -> bool) (xs ys : list T) : bool :=
  match xs, ys with
  | x :: xs, y :: ys => eq_item x y && zip_all eq_item xs ys
  | _, _ => true
  end.

Definition eq (eq_item : T -> T -> bool) (q1 q2 : QueueInternal) : outcome bool :=
  if negb (len q1 =? len q2) then Done false
  else
    xs ← iter_all q1;
    ys ← iter_all q2;
    Done (zip_all eq_item xs ys).

(** ** Representation

    [repr q xs]: the queue [q] holds the elements [xs], front first. In the
    inline form the ring has [N] slots, the [i]-th element sits [i] slots after
    [head] modulo [N], and every other slot is uninitialised. *)
Definition ring_repr (buf : list (option T)) (head : nat) (xs : list T) : Prop :=
  length buf = N /\ length xs <= N /\ head < N `max` 1 /\
  forall i, i < N -> buf !! ((head + i) mod N) = Some (xs !! i).

Definition repr (q : QueueInternal) (xs : list T) : Prop :=
  match q with
  | Inline buf head tail len =>
      ring_repr buf head xs /\ len = length xs /\ tail = (head + len) mod N
  | Heap vec => vec = xs
  end.

(** Whether the queue has left its inline slots, which it does to hold more than
    [N] elements and which cannot be undone. *)
Definition spilled (q : QueueInternal) : bool := match q with Inline _ _ _ _ => false | Heap _ => true end.

(** [q] has become [q'], which holds [ys]. *)
Definition becomes (q q' : QueueInternal) (ys : list T) : Prop :=
  repr q' ys /\ spilled q' = spilled q || (N <? length ys).

Definition wf (q : QueueInternal) : Prop := exists xs, repr q xs.

End ops.

(** ** The ring *)
Section ring_lemmas.
Context (N : nat).
Implicit Types (buf : list (option T)) (xs : list T).

Lemma advance_mod h : h < N -> advance N h = (h + 1) mod N.
Proof.
  intros. unfold advance. case_tests; [|by rewrite Nat.mod_small by lia].
  replace (h + 1) with N by lia. by rewrite Nat.Div0.mod_same.
Qed.

Lemma retreat_mod h : h < N -> retreat N h = (h + (N - 1)) mod N.
Proof.
  intros. unfold retreat. case_tests; [by subst; rewrite Nat.mod_small by lia|].
  rewrite ring_wrap by lia. lia.
Qed.

Lemma ring_repr_new : ring_repr N (replicate N None) 0 [].
Proof.
  split_and!; [by rewrite length_replicate|simpl; lia|lia|].
  intros i Hi. rewrite lookup_replicate_2; [done|]. apply ring_lt. lia.
Qed.

Lemma ring_lookup buf h xs i :
  ring_repr N buf h xs -> i < length xs ->
  exists v, xs !! i = Some v /\ buf !! ((h + i) mod N) = Some (Some v).
Proof.
  intros (_ & ? & _ & Hbuf) Hi. destruct (lookup_lt_is_Some_2 xs i Hi) as [v Hv].
  exists v. by rewrite Hbuf, Hv by lia.
Qed.

(** Overwriting the slot of offset [k] changes that offset only. *)
Lemma ring_insert buf h xs k (o : option T) i :
  ring_repr N buf h xs -> k < N -> i < N ->
  <[(h + k) mod N := o]> buf !! ((h + i) mod N) = Some (if decide (i = k) then o else xs !! i).
Proof.
  intros (Hlen & _ & _ & Hbuf) Hk Hi. case_decide as Hik.
  - rewrite Hik. apply list_lookup_insert_eq. rewrite Hlen. apply ring_lt. lia.
  - rewrite list_lookup_insert_ne; [by apply Hbuf|].
    intros Heq. apply Hik. symmetry. by eapply ring_inj.
Qed.

Lemma ring_push_back buf h xs v :
  ring_repr N buf h xs -> length xs < N ->
  ring_repr N (<[(h + length xs) mod N := Some v]> buf) h (xs ++ [v]).
Proof.
  intros Hr Hlt. pose proof Hr as (Hlen & _ & Hh & _).
  split_and!; [by rewrite length_insert|rewrite length_app; simpl; lia|done|].
  intros i Hi. rewrite ring_insert with (xs := xs) by done.
  by rewrite list_lookup_snoc.
Qed.

Lemma ring_take_back buf h xs x :
  ring_repr N buf h (xs ++ [x]) ->
  buf !! ((h + length xs) mod N) = Some (Some x) /\
  ring_repr N (<[(h + length xs) mod N := None]> buf) h xs.
Proof.
  intros Hr. pose proof Hr as (Hlen & Hxs & Hh & Hbuf). rewrite length_app in Hxs. simpl in Hxs.
  split; [by rewrite Hbuf, list_lookup_snoc, decide_True by lia|].
  split_and!; [by rewrite length_insert|lia|done|].
  intros i Hi. rewrite ring_insert with (xs := xs ++ [x]) by (done || lia).
  rewrite list_lookup_snoc. f_equal. case_decide as Hi'; [|done].
  symmetry. apply lookup_ge_None_2. lia.
Qed.

(** Rotating the origin by one: offset [i] after the rotation is offset
    [i + 1] before it, and the last offset is the old origin. *)
Lemma ring_take_front buf h x xs :
  ring_repr N buf h (x :: xs) ->
  buf !! h = Some (Some x) /\ ring_repr N (<[h := None]> buf) ((h + 1) mod N) xs.
Proof.
  intros Hr. pose proof Hr as (Hlen & Hxs & Hh & Hbuf). simpl in Hxs.
  assert (h < N) as HhN by lia.
  assert (h = (h + 0) mod N) as Hh0 by (rewrite Nat.add_0_r; by rewrite ring_small).
  split; [rewrite Hh0; by rewrite Hbuf by lia|].
  split_and!; [by rewrite length_insert|lia|pose proof (ring_lt N h 1); lia|].
  intros i Hi. rewrite ring_shift.
  replace (<[h := None]> buf) with (<[(h + 0) mod N := None]> buf) by by rewrite <-Hh0.
  destruct (decide (1 + i = N)) as [HN|HN].
  - replace (h + (1 + i)) with (h + 0 + 1 * N) by lia. rewrite Nat.Div0.mod_add.
    rewrite ring_insert with (xs := x :: xs), decide_True by (done || lia).
    f_equal. symmetry. apply lookup_ge_None_2. lia.
  - by rewrite ring_insert with (xs := x :: xs), decide_False by (done || lia).
Qed.

Lemma ring_push_front buf h xs v :
  ring_repr N buf h xs -> length xs < N ->
  ring_repr N (<[(h + (N - 1)) mod N := Some v]> buf) ((h + (N - 1)) mod N) (v :: xs).
Proof.
  intros Hr Hlt. pose proof Hr as (Hlen & _ & Hh & _).
  split_and!; [by rewrite length_insert|simpl; lia|pose proof (ring_lt N h (N - 1)); lia|].
  intros i Hi. rewrite ring_shift. destruct i as [|i].
  - rewrite Nat.add_0_r, ring_insert with (xs := xs), decide_True by (done || lia). done.
  - replace (h + (N - 1 + S i)) with (h + i + 1 * N) by lia. rewrite Nat.Div0.mod_add.
    by rewrite ring_insert with (xs := xs), decide_False by (done || lia).
Qed.

(** An empty ring is empty from every origin. *)
Lemma ring_empty_any buf h h' : ring_repr N buf h [] -> h' < N `max` 1 -> ring_repr N buf h' [].
Proof.
  intros (Hlen & _ & Hh & Hbuf) Hh'. split_and!; [done|simpl; lia|done|].
  intros i Hi. destruct (ring_surj N h ((h' + i) mod N)) as (j & Hj & <-);
    [lia|apply ring_lt; lia|]. by rewrite Hbuf.
Qed.

Lemma slot_take_front buf h x xs :
  ring_repr N buf h (x :: xs) ->
  slot_take buf h = Done (x, <[h := None]> buf) /\
  ring_repr N (<[h := None]> buf) (advance N h) xs.
Proof.
  intros Hr. pose proof Hr as (_ & Hxs & Hh & _). simpl in Hxs.
  apply ring_take_front in Hr as [Hx Hr].
  rewrite advance_mod by lia. split; [|done]. unfold slot_take. by rewrite Hx.
Qed.

Lemma drain_loop_repr xs buf h out :
  ring_repr N buf h xs ->
  exists buf' h', drain_loop N (length xs) h buf out = Done (out ++ xs, buf') /\
    ring_repr N buf' h' [].
Proof.
  revert buf h out. induction xs as [|x xs IH]; intros buf h out Hr; simpl.
  - exists buf, h. by rewrite app_nil_r.
  - apply slot_take_front in Hr as [-> Hr]. outcome_simpl.
    destruct (IH _ _ (out ++ [x]) Hr) as (buf' & h' & -> & Hr').
    exists buf', h'. by rewrite <-app_assoc.
Qed.

Lemma raw_slice_repr buf h xs k :
  ring_repr N buf h xs -> h + length xs <= N -> k <= length xs ->
  raw_slice buf (h + k) (length xs - k) = Done (drop k xs).
Proof.
  intros Hr Hfit Hk. remember (length xs - k) as n eqn:Hn.
  revert k Hk Hn. induction n as [|n IH]; intros k Hk Hn; simpl.
  - rewrite drop_ge by lia. done.
  - destruct (ring_lookup buf h xs k Hr) as (v & Hv & Hbuf); [lia|].
    rewrite Nat.mod_small in Hbuf by lia. rewrite Hbuf.
    replace (S (h + k)) with (h + S k) by lia. rewrite IH by lia. outcome_simpl.
    by rewrite (drop_S xs v k).
Qed.

Lemma write_back_repr vals buf xs :
  ring_repr N buf 0 xs -> length xs + length vals <= N ->
  exists buf', write_back (length xs) vals buf = Done buf' /\ ring_repr N buf' 0 (xs ++ vals).
Proof.
  revert buf xs. induction vals as [|v vals IH]; intros buf xs Hr Hlen; simpl in *.
  - exists buf. by rewrite app_nil_r.
  - pose proof Hr as (Hbuf & _). unfold slot_write. rewrite (proj2 (Nat.ltb_lt _ _)) by lia.
    outcome_simpl. apply (ring_push_back _ _ _ v) in Hr; [|lia].
    rewrite Nat.mod_small in Hr by lia.
    destruct (IH _ _ Hr) as (buf' & Hw & Hr'); [rewrite length_app; simpl; lia|].
    rewrite length_app, Nat.add_1_r in Hw. exists buf'.
    by rewrite <-app_assoc in Hr'.
Qed.

(** ** Functional behaviour of every operation *)
Lemma new_repr : repr N (new N) [].
Proof.
  split_and!; [apply ring_repr_new|done|]. simpl. by rewrite Nat.Div0.mod_0_l.
Qed.

Lemma with_capacity_repr size_of c :
  (c <= Z.of_nat N \/ c * size_of <= isize_max)%Z ->
  exists q, with_capacity N size_of c = Done q /\ repr N q [].
Proof.
  intros Hc. unfold with_capacity. destruct (c <=? Z.of_nat N)%Z eqn:Hle; [eexists; split; [done|apply new_repr]|].
  apply Z.leb_gt in Hle. unfold request. rewrite (proj2 (Z.leb_le _ _)) by lia. by exists (Heap []).
Qed.

Lemma spilled_fits q xs : repr N q xs -> (N <? length xs) = true -> spilled q = true.
Proof. destruct q as [buf h t l|vec]; [|done]. intros ((_ & Hle & _) & _) Hlt. bool_props. lia. Qed.

Lemma becomes_kept q q' ys : repr N q' ys -> spilled q' = spilled q -> becomes N q q' ys.
Proof.
  intros Hr Hs. split; [done|]. rewrite Hs. destruct (N <? length ys) eqn:Hlt; [|by rewrite orb_false_r].
  by rewrite <-Hs, (spilled_fits q' ys).
Qed.

Lemma becomes_refl q xs : repr N q xs -> becomes N q q xs.
Proof. intros Hr. by apply becomes_kept. Qed.

Lemma becomes_trans q1 q2 q3 ys zs :
  becomes N q1 q2 ys -> becomes N q2 q3 zs -> length ys <= length zs -> becomes N q1 q3 zs.
Proof.
  intros [_ H12] [Hr H23] Hle. split; [done|]. rewrite H23, H12, <-orb_assoc. f_equal.
  destruct (N <? length ys) eqn:Hy; [|done]. bool_props. symmetry. apply Nat.ltb_lt. lia.
Qed.

Lemma push_back_becomes q xs v :
  repr N q xs -> exists q', push_back N q v = Done q' /\ becomes N q q' (xs ++ [v]).
Proof.
  destruct q as [buf h t l|vec]; simpl.
  - intros (Hr & -> & ->). pose proof Hr as (Hbuf & Hle & Hh & _). case_tests.
    + unfold slot_write. rewrite (proj2 (Nat.ltb_lt _ _)) by (rewrite Hbuf; apply ring_lt; lia).
      eexists. split; [done|]. apply becomes_kept; [|done]. split; [by apply ring_push_back|]. split.
      * rewrite length_app. done.
      * rewrite advance_mod, ring_shift; [done|]. apply ring_lt. lia.
    + destruct (drain_loop_repr xs buf h [] Hr) as (? & ? & -> & _). eexists. split; [done|]. split; [done|].
      rewrite length_app. symmetry. apply Nat.ltb_lt. simpl. lia.
  - intros ->. eexists. split; [done|]. by apply becomes_kept.
Qed.

Lemma push_back_repr q xs v :
  repr N q xs -> exists q', push_back N q v = Done q' /\ repr N q' (xs ++ [v]).
Proof. intros Hr. destruct (push_back_becomes q xs v Hr) as (q' & ? & ? & _). by exists q'. Qed.

Lemma push_front_becomes q xs v :
  repr N q xs -> exists q', push_front N q v = Done q' /\ becomes N q q' (v :: xs).
Proof.
  destruct q as [buf h t l|vec]; simpl.
  - intros (Hr & -> & ->). pose proof Hr as (Hbuf & Hle & Hh & _). case_tests.
    + rewrite retreat_mod by lia. unfold slot_write.
      rewrite (proj2 (Nat.ltb_lt _ _)) by (rewrite Hbuf; apply ring_lt; lia).
      eexists. split; [done|]. apply becomes_kept; [|done]. split; [by apply ring_push_front|].
      split; [simpl; lia|]. rewrite ring_shift.
      replace (h + (N - 1 + (length xs + 1))) with (h + length xs + 1 * N) by lia.
      by rewrite Nat.Div0.mod_add.
    + destruct (drain_loop_repr xs buf h [v] Hr) as (? & ? & -> & _). eexists. split; [done|]. split; [done|].
      symmetry. apply Nat.ltb_lt. simpl. lia.
  - intros ->. eexists. split; [done|]. by apply becomes_kept.
Qed.

Lemma pop_front_repr q xs :
  repr N q xs ->
  exists q', pop_front N q = Done (head xs, q') /\ repr N q' (tail xs).
Proof.
  destruct q as [buf h t l|vec]; simpl.
  - intros (Hr & -> & ->). destruct xs as [|x xs]; simpl; [by eexists|].
    pose proof Hr as (_ & Hle & Hh & _). simpl in Hle.
    apply slot_take_front in Hr as [-> Hr]. outcome_simpl. eexists. split; [done|].
    split; [done|]. split; [lia|]. rewrite advance_mod, ring_shift by lia. f_equal. lia.
  - intros ->. destruct xs; by eexists.
Qed.

Lemma pop_back_repr q xs :
  repr N q xs ->
  exists q', pop_back N q = Done (last xs, q') /\ repr N q' (take (length xs - 1) xs).
Proof.
  destruct q as [buf h t l|vec]; simpl; [|intros ->; by eexists].
  intros (Hr & -> & ->). destruct xs as [|x xs _] using rev_ind; simpl; [by eexists|].
  pose proof Hr as (_ & Hle & Hh & _). rewrite length_app in *. simpl in *.
  rewrite (proj2 (Nat.eqb_neq _ _)) by lia.
  rewrite retreat_mod, ring_shift by (apply ring_lt; lia).
  replace (h + (length xs + 1 + (N - 1))) with (h + length xs + 1 * N) by lia.
  rewrite Nat.Div0.mod_add. apply ring_take_back in Hr as [Hx Hr].
  unfold slot_take. rewrite Hx. outcome_simpl. rewrite last_snoc.
  eexists. split; [done|]. rewrite take_app_length' by lia.
  split; [done|]. split; [lia|]. f_equal. lia.
Qed.

Lemma into_vec_repr q xs :
  repr N q xs -> exists q', into_vec N q = Done (xs, q') /\ repr N q' [].
Proof.
  destruct q as [buf h t l|vec]; simpl; [|intros ->; by eexists].
  intros (Hr & -> & ->). destruct (drain_loop_repr xs buf h [] Hr) as (buf' & h' & -> & Hr').
  outcome_simpl. eexists. split; [done|]. split; [by eapply ring_empty_any; [|lia]|].
  split; [done|]. by rewrite Nat.Div0.mod_0_l.
Qed.

Lemma len_repr q xs : repr N q xs -> len q = length xs.
Proof. destruct q; simpl; [by intros (_ & -> & _)|by intros ->]. Qed.

Lemma is_empty_repr q xs : repr N q xs -> is_empty q = bool_decide (xs = []).
Proof.
  intros Hr. unfold is_empty. rewrite (len_repr q xs Hr). by destruct xs.
Qed.

Lemma extend_becomes items q xs :
  repr N q xs -> exists q', extend N q items = Done q' /\ becomes N q q' (xs ++ items).
Proof.
  revert q xs. induction items as [|x items IH]; intros q xs Hr; simpl.
  - exists q. rewrite app_nil_r. split; [done|]. by apply becomes_refl.
  - destruct (push_back_becomes q xs x Hr) as (q1 & -> & Hb1). outcome_simpl.
    destruct (IH _ _ (proj1 Hb1)) as (q2 & -> & Hb2). exists q2. split; [done|].
    rewrite <-app_assoc in Hb2. eapply becomes_trans; [exact Hb1|exact Hb2|]. rewrite !length_app. simpl. lia.
Qed.

Lemma extend_repr items q xs :
  repr N q xs -> exists q', extend N q items = Done q' /\ repr N q' (xs ++ items).
Proof. intros Hr. destruct (extend_becomes items q xs Hr) as (q' & ? & ? & _). by exists q'. Qed.

(** Pushing back onto what [into_vec] leaves. *)
Lemma into_vec_becomes q xs :
  repr N q xs -> exists q', into_vec N q = Done (xs, q') /\ becomes N q q' [].
Proof.
  intros Hr. destruct (into_vec_repr q xs Hr) as (q' & Hq & Hr'). exists q'. split; [done|].
  apply becomes_kept; [done|]. destruct q as [buf h t l|vec]; cbn in Hq; [|by injection Hq as _ <-].
  destruct (drain_loop N l h buf []) as [[]| |]; outcome_simpl; try done. by injection Hq as _ <-.
Qed.

Lemma push_back_again q0 q ys x :
  becomes N q0 q ys -> exists q', push_back N q x = Done q' /\ becomes N q0 q' (ys ++ [x]).
Proof.
  intros Hb. destruct (push_back_becomes q ys x (proj1 Hb)) as (q' & Hq & Hb'). exists q'. split; [done|].
  eapply becomes_trans; [exact Hb|exact Hb'|]. rewrite length_app. lia.
Qed.

Lemma retain_becomes q xs keep :
  repr N q xs ->
  exists q', retain N q keep = Done q' /\ becomes N q q' (List.filter keep xs).
Proof.
  intros Hr. unfold retain. destruct (into_vec_becomes q xs Hr) as (q0 & -> & Hb0). outcome_simpl.
  assert (forall items q1 ys, becomes N q q1 ys -> exists q',
    retain_loop N keep q1 items = Done q' /\ becomes N q q' (ys ++ List.filter keep items)) as Hloop.
  { induction items as [|x items IH]; intros q1 ys Hb1; simpl.
    - exists q1. by rewrite app_nil_r.
    - destruct (keep x); simpl.
      + destruct (push_back_again q q1 ys x Hb1) as (q2 & -> & Hb2). outcome_simpl.
        destruct (IH _ _ Hb2) as (q3 & -> & Hb3). exists q3. by rewrite <-app_assoc in Hb3.
      + by apply IH. }
  by destruct (Hloop xs q0 [] Hb0) as (q' & -> & Hb'); exists q'.
Qed.

Lemma take_where_becomes q xs remove :
  repr N q xs ->
  exists q', take_where N q remove = Done (List.filter remove xs, q') /\
    becomes N q q' (List.filter (fun x => negb (remove x)) xs).
Proof.
  intros Hr. unfold take_where. destruct (into_vec_becomes q xs Hr) as (q0 & -> & Hb0). outcome_simpl.
  assert (forall items q1 ys rs, becomes N q q1 ys -> exists q',
    take_where_loop N remove q1 items rs = Done (rs ++ List.filter remove items, q') /\
    becomes N q q' (ys ++ List.filter (fun x => negb (remove x)) items)) as Hloop.
  { induction items as [|x items IH]; intros q1 ys rs Hb1; simpl.
    - exists q1. by rewrite !app_nil_r.
    - destruct (remove x); simpl.
      + destruct (IH q1 ys (rs ++ [x]) Hb1) as (q2 & -> & Hb2). exists q2.
        by rewrite <-app_assoc.
      + destruct (push_back_again q q1 ys x Hb1) as (q2 & -> & Hb2). outcome_simpl.
        destruct (IH _ _ rs Hb2) as (q3 & -> & Hb3). exists q3. by rewrite <-app_assoc in Hb3. }
  by destruct (Hloop xs q0 [] [] Hb0) as (q' & -> & Hb'); exists q'.
Qed.

Lemma take_where_repr q xs remove :
  repr N q xs ->
  exists q', take_where N q remove = Done (List.filter remove xs, q') /\
    repr N q' (List.filter (fun x => negb (remove x)) xs).
Proof. intros Hr. destruct (take_where_becomes q xs remove Hr) as (q' & ? & ? & _). by exists q'. Qed.

(** The elements that [clear] drops before it stops: all of them, or the prefix
    that ends with the first one whose destructor panics. *)
Fixpoint dropped_prefix (drop_panics : T -> bool) (xs : list T) : list T * list T * bool :=
  match xs with
  | [] => ([], [], false)
  | x :: xs =>
      if drop_panics x then ([x], xs, true)
      else let '(d, rest, p) := dropped_prefix drop_panics xs in (x :: d, rest, p)
  end.

Lemma dropped_prefix_app dp xs d rest p :
  dropped_prefix dp xs = (d, rest, p) -> xs = d ++ rest /\ (p = false -> rest = []).
Proof.
  revert d rest p. induction xs as [|x xs IH]; intros d rest p; simpl; [by intros [= <- <- <-]|].
  destruct (dp x); [by intros [= <- <- <-]|].
  destruct (dropped_prefix dp xs) as [[d' rest'] p'] eqn:E. intros [= <- <- <-].
  destruct (IH _ _ _ eq_refl) as [-> ?]. done.
Qed.

Lemma clear_loop_repr dp xs buf h out :
  ring_repr N buf h xs ->
  let '(d, rest, p) := dropped_prefix dp xs in
  exists buf' h', clear_loop N dp (length xs) h buf out =
      Done (buf', h', length rest, out ++ d, p) /\
    ring_repr N buf' h' rest /\ (h' + length rest) mod N = (h + length xs) mod N.
Proof.
  revert buf h out. induction xs as [|x xs IH]; intros buf h out Hr; simpl.
  - exists buf, h. by rewrite app_nil_r.
  - pose proof Hr as (_ & Hle & Hh & _). simpl in Hle.
    apply slot_take_front in Hr as [-> Hr]. outcome_simpl. destruct (dp x).
    + eexists _, _. split; [done|]. split; [done|].
      rewrite advance_mod, ring_shift by lia. by rewrite Nat.add_succ_comm.
    + specialize (IH _ _ (out ++ [x]) Hr).
      destruct (dropped_prefix dp xs) as [[d rest] p].
      destruct IH as (buf' & h' & -> & Hr' & Htail). exists buf', h'.
      rewrite <-app_assoc. split; [done|]. split; [done|]. rewrite Htail.
      rewrite advance_mod, ring_shift by lia. by rewrite Nat.add_succ_comm.
Qed.

Lemma clear_inline_repr dp buf h t l xs :
  repr N (Inline buf h t l) xs ->
  let '(d, rest, p) := dropped_prefix dp xs in
  exists q', clear N dp (Inline buf h t l) = Done (q', d, p) /\ repr N q' rest.
Proof.
  intros (Hr & -> & ->). pose proof (clear_loop_repr dp xs buf h [] Hr) as Hc.
  destruct (dropped_prefix dp xs) as [[d rest] p] eqn:Hd.
  destruct Hc as (buf' & h' & Hc & Hr' & Htail). simpl. rewrite Hc. outcome_simpl.
  destruct (dropped_prefix_app _ _ _ _ _ Hd) as [_ Hp]. destruct p; (eexists; split; [done|]).
  - by split_and!.
  - rewrite Hp in * by done. split; [by eapply ring_empty_any; [|lia]|].
    by rewrite Nat.Div0.mod_0_l.
Qed.

Lemma drop_queue_repr q xs : repr N q xs -> drop_queue N q = Done xs.
Proof.
  destruct q as [buf h t l|vec]; simpl; [|by intros ->].
  intros (Hr & -> & _).
  assert (forall out, drop_loop N (length xs) h buf out = Done (out ++ xs)) as Hloop; [|by apply Hloop].
  clear t. revert buf h Hr. induction xs as [|x xs IH]; intros buf h Hr out; simpl.
  - by rewrite app_nil_r.
  - apply slot_take_front in Hr as [-> Hr]. outcome_simpl. by rewrite IH, <-app_assoc.
Qed.

Lemma make_contiguous_repr q xs :
  repr N q xs -> exists q', make_contiguous N q = Done (q', xs) /\ repr N q' xs.
Proof.
  destruct q as [buf h t l|vec]; simpl; [|intros ->; by eexists].
  intros (Hr & -> & ->). pose proof Hr as (Hbuf & Hle & Hh & _).
  destruct xs as [|x xs']; [by eexists|]. remember (x :: xs') as xs eqn:Hxs.
  assert (0 < length xs) as Hpos by (rewrite Hxs; simpl; lia). clear Hxs x xs'.
  rewrite (proj2 (Nat.eqb_neq (length xs) 0)), andb_false_r, orb_false_r by lia.
  destruct (h <? _) eqn:Hlt; bool_props.
  - assert (h + length xs <= N) as Hfit.
    { destruct (decide (h + length xs <= N)); [done|].
      rewrite ring_wrap in Hlt by lia. lia. }
    pose proof (raw_slice_repr buf h xs 0 Hr Hfit) as Hs.
    rewrite Nat.add_0_r, Nat.sub_0_r in Hs. rewrite Hs by lia. by eexists.
  - destruct (drain_loop_repr xs buf h [] Hr) as (buf1 & h1 & -> & Hr1). cbn [app]. outcome_simpl.
    destruct (write_back_repr xs buf1 []) as (buf2 & Hw & Hr2);
      [by eapply ring_empty_any; [|lia]|simpl; lia|]. simpl in Hw, Hr2. rewrite Hw. outcome_simpl.
    pose proof (raw_slice_repr buf2 0 xs 0 Hr2) as Hs.
    rewrite Nat.add_0_r, Nat.sub_0_r in Hs. rewrite Hs by lia. outcome_simpl. eexists. split; [done|]. split; [done|]. split; [done|].
    case_tests; simpl.
    + replace (length xs) with N by lia. by rewrite Nat.Div0.mod_same.
    + by rewrite Nat.mod_small by lia.
Qed.

(** Exchanging two elements of a list. *)
Definition list_swap (xs : list T) (a b : nat) : list T :=
  match xs !! a, xs !! b with
  | Some va, Some vb => <[b := va]> (<[a := vb]> xs)
  | _, _ => xs
  end.

Lemma list_swap_same xs a : list_swap xs a a = xs.
Proof.
  unfold list_swap. destruct (xs !! a) eqn:E; [|done].
  by rewrite list_insert_insert_eq, list_insert_id.
Qed.

Lemma swap_repr q xs a b :
  repr N q xs -> a < length xs -> b < length xs ->
  exists q', swap N q a b = Done q' /\ repr N q' (list_swap xs a b).
Proof.
  intros Hr Ha Hb. unfold swap. rewrite (len_repr q xs Hr).
  rewrite !(proj2 (Nat.ltb_lt _ _)) by done. cbn [assert_or]. outcome_simpl.
  destruct (a =? b) eqn:Hab; bool_props; [exists q; by rewrite Hab, list_swap_same|].
  destruct q as [buf h t l|vec]; simpl in *.
  - destruct Hr as (Hr & -> & ->). pose proof Hr as (Hbuf & Hle & Hh & _).
    destruct (ring_lookup buf h xs a Hr Ha) as (va & Hva & HA).
    destruct (ring_lookup buf h xs b Hr Hb) as (vb & Hvb & HB).
    unfold slot_ref. rewrite HA, HB. outcome_simpl. eexists. split; [done|].
    unfold list_swap. rewrite Hva, Hvb.
    assert (ring_repr N (<[(h + a) mod N := Some vb]> buf) h (<[a := vb]> xs)) as Hr1.
    { split_and!; rewrite ?length_insert; try done. intros i Hi.
      rewrite ring_insert with (xs := xs) by (done || lia). rewrite list_lookup_insert.
      repeat case_decide; first [done|exfalso; lia|congruence]. }
    split; [|by rewrite !length_insert].
    split_and!; rewrite ?length_insert; try done. intros i Hi.
    rewrite ring_insert with (xs := <[a := vb]> xs) by (done || lia).
    rewrite !list_lookup_insert, ?length_insert. repeat case_decide; first [done|exfalso; lia|congruence].
  - rewrite Hr. unfold list_swap.
    destruct (lookup_lt_is_Some_2 xs a Ha) as [va ->], (lookup_lt_is_Some_2 xs b Hb) as [vb ->].
    by eexists.
Qed.

Lemma swap_out_of_bounds q xs a b :
  repr N q xs -> length xs <= a \/ length xs <= b ->
  swap N q a b = Panicked "index out of bounds".
Proof.
  intros Hr Hab. unfold swap. rewrite (len_repr q xs Hr).
  destruct (a <? length xs) eqn:Ha; [|done]. bool_props. cbn [assert_or]. outcome_simpl.
  rewrite (proj2 (Nat.ltb_ge b _)) by lia. done.
Qed.

(** [iter_repr it ys]: [it] has the elements [ys] still to yield. *)
Definition iter_repr (it : IterInner) (ys : list T) : Prop :=
  match it with
  | IterInline buf head remaining =>
      remaining = length ys /\ length ys <= N /\ head < N `max` 1 /\
      forall i, i < length ys -> buf !! ((head + i) mod N) = Some (ys !! i)
  | IterHeap rest => rest = ys
  end.

Lemma iter_iter_repr q xs : repr N q xs -> iter_repr (iter q) xs.
Proof.
  destruct q as [buf h t l|vec]; simpl; [|done]. intros ((? & ? & ? & Hbuf) & -> & _).
  split_and!; try done. intros i Hi. apply Hbuf. lia.
Qed.

Lemma iter_next_repr it ys :
  iter_repr it ys ->
  exists it', iter_next N it = Done (head ys, it') /\ iter_repr it' (tail ys).
Proof.
  destruct it as [buf h r|rest]; simpl; [|intros ->; destruct ys; by eexists].
  intros (-> & Hle & Hh & Hbuf). destruct ys as [|y ys]; simpl; [by eexists|]. simpl in Hle.
  pose proof (Hbuf 0) as H0. rewrite Nat.add_0_r, ring_small in H0 by lia.
  unfold slot_ref. rewrite H0 by (simpl; lia). simpl. eexists. split; [done|].
  split_and!; [lia|lia|rewrite advance_mod by lia; pose proof (ring_lt N h 1); lia|].
  intros i Hi. rewrite advance_mod, ring_shift by lia.
  change (1 + i) with (S i). rewrite Hbuf by (simpl; lia). done.
Qed.

Lemma iter_collect_repr ys fuel it :
  iter_repr it ys -> length ys < fuel -> iter_collect N fuel it = Done ys.
Proof.
  revert fuel it. induction ys as [|y ys IH]; intros [|fuel] it Hit Hf; simpl in *; try lia.
  - by destruct (iter_next_repr it [] Hit) as (it' & -> & _).
  - destruct (iter_next_repr it (y :: ys) Hit) as (it' & -> & Hit'). outcome_simpl.
    rewrite IH by (done || lia). done.
Qed.

Lemma iter_len_repr it ys : iter_repr it ys -> iter_len it = length ys.
Proof. destruct it; simpl; [by intros (-> & _)|by intros ->]. Qed.

Lemma iter_all_repr q xs : repr N q xs -> iter_all N q = Done xs.
Proof.
  intros Hr%iter_iter_repr. unfold iter_all. apply iter_collect_repr; [done|].
  rewrite (iter_len_repr _ xs) by done. lia.
Qed.

Lemma iter_mut_collect_inline buf xs fuel h r k :
  ring_repr N buf h xs -> k + r = length xs -> r < fuel ->
  iter_mut_collect N fuel (IterMutInline buf ((h + k) mod N) r) =
    Done ((fun i => PSlot ((h + i) mod N)) <$> seq k r).
Proof.
  intros Hr. revert fuel k. induction r as [|r IH]; intros [|fuel] k Hk Hf; try lia; [done|].
  pose proof Hr as (_ & Hle & Hh & _).
  destruct (ring_lookup buf h xs k Hr) as (v & _ & Hv); [lia|].
  simpl. unfold slot_ref. rewrite Hv. outcome_simpl.
  rewrite advance_mod, ring_shift by (apply ring_lt; lia).
  rewrite Nat.add_1_r, Nat.sub_0_r, IH by lia. done.
Qed.

Lemma iter_mut_collect_heap fuel r k :
  r < fuel -> iter_mut_collect N fuel (IterMutHeap k r) = Done (PHeap <$> seq k r).
Proof.
  revert fuel k. induction r as [|r IH]; intros [|fuel] k Hf; try lia; [done|].
  simpl. rewrite Nat.sub_0_r, Nat.add_1_r, IH by lia. done.
Qed.

Lemma clone_repr clone_item q xs :
  repr N q xs ->
  exists q', clone N clone_item q = Done q' /\ repr N q' (map clone_item xs).
Proof.
  intros Hr. unfold clone. rewrite (iter_all_repr q xs Hr). outcome_simpl.
  by apply (extend_repr _ _ []), new_repr.
Qed.

Lemma zip_all_Forall2 eq_item xs ys :
  length xs = length ys ->
  zip_all eq_item xs ys = true <-> Forall2 (fun x y => eq_item x y = true) xs ys.
Proof.
  revert ys. induction xs as [|x xs IH]; intros [|y ys] Hlen; simplify_eq/=; [done|].
  rewrite andb_true_iff, IH, Forall2_cons by done. done.
Qed.

Lemma eq_repr eq_item q1 q2 xs ys :
  repr N q1 xs -> repr N q2 ys ->
  exists b, eq N eq_item q1 q2 = Done b /\
    (b = true <-> Forall2 (fun x y => eq_item x y = true) xs ys).
Proof.
  intros H1 H2. unfold eq. rewrite (len_repr q1 xs H1), (len_repr q2 ys H2).
  destruct (length xs =? length ys) eqn:Hlen; bool_props; simpl.
  - rewrite (iter_all_repr q1 xs H1), (iter_all_repr q2 ys H2). outcome_simpl.
    eexists. split; [done|]. by apply zip_all_Forall2.
  - eexists. split; [done|]. split; [done|]. by intros ?%Forall2_length.
Qed.

End ring_lemmas.
End queue.
Arguments QueueInternal : clear implicits.
Arguments IterInner : clear implicits.
Arguments IterMutInner : clear implicits.

(** ** The queue as an abstract deque

    Sequences of public operations, what each returns to its caller, and the
    same operations on a plain list, with a flag that tells whether it has held
    more than [N] elements or reserved room for more; only [reserve] looks at it.
    The [slack] of a [reserve] is what [VecDeque] asks for on top. *)
Section trace.
Context {T : Type}.

Inductive op : Type :=
| OpPushBack (v : T)
| OpPushFront (v : T)
| OpPopFront
| OpPopBack
| OpIntoVec
| OpReserve (additional slack : N)
| OpMakeContiguous
| OpExtend (items : list T)
| OpRetain (keep : T -> bool)
| OpTakeWhere (remove : T -> bool)
| OpClear
| OpSwap (a b : nat)
| OpLen
| OpIter.

Inductive obs : Type :=
| ObsUnit
| ObsItem (o : option T)
| ObsList (xs : list T)
| ObsLen (n : nat).

Definition run_op (N : nat) (size_of : Z) `{BuildMode} (q : QueueInternal T) (o : op) :
    outcome (obs * QueueInternal T) :=
  match o with
  | OpPushBack v => q ← push_back N q v; Done (ObsUnit, q)
  | OpPushFront v => q ← push_front N q v; Done (ObsUnit, q)
  | OpPopFront => '(x, q) ← pop_front N q; Done (ObsItem x, q)
  | OpPopBack => '(x, q) ← pop_back N q; Done (ObsItem x, q)
  | OpIntoVec => '(xs, q) ← into_vec N q; Done (ObsList xs, q)
  | OpReserve n slack => q ← reserve N size_of q (Z.of_N n) (Z.of_N slack); Done (ObsUnit, q)
  | OpMakeContiguous => '(q, slice) ← make_contiguous N q; Done (ObsList slice, q)
  | OpExtend items => q ← extend N q items; Done (ObsUnit, q)
  | OpRetain keep => q ← retain N q keep; Done (ObsUnit, q)
  | OpTakeWhere remove => '(xs, q) ← take_where N q remove; Done (ObsList xs, q)
  | OpClear => '(q, dropped, _) ← clear N (fun _ => false) q; Done (ObsList dropped, q)
  | OpSwap a b => q ← swap N q a b; Done (ObsUnit, q)
  | OpLen => Done (ObsLen (len q), q)
  | OpIter => xs ← iter_all N q; Done (ObsList xs, q)
  end.

Abbreviation deque := (list T * bool)%type.

Definition holding (N : nat) (d : deque) (ys : list T) : deque := (ys, d.2 || (N <? length ys)).

Definition spec_reserve (N : nat) (size_of : Z) `{BuildMode} (d : deque) (n slack : Z) : outcome deque :=
  let needed := (Z.of_nat (length d.1) + n)%Z in
  if overflow_checks && (usize_max <? needed)%Z then Panicked "attempt to add with overflow"
  else if d.2 then
    if ((needed <=? usize_max) && ((needed + slack) * size_of <=? isize_max))%Z then Done d
    else Panicked "capacity overflow"
  else
    let needed := wrap needed in
    if (needed <=? Z.of_nat N)%Z then Done d
    else if (needed * size_of <=? isize_max)%Z then Done (d.1, true) else Panicked "capacity overflow".

Definition spec_op (N : nat) (size_of : Z) `{BuildMode} (d : deque) (o : op) : outcome (obs * deque) :=
  let xs := d.1 in
  match o with
  | OpPushBack v => Done (ObsUnit, holding N d (xs ++ [v]))
  | OpPushFront v => Done (ObsUnit, holding N d (v :: xs))
  | OpPopFront => Done (ObsItem (head xs), holding N d (tail xs))
  | OpPopBack => Done (ObsItem (last xs), holding N d (take (length xs - 1) xs))
  | OpIntoVec => Done (ObsList xs, holding N d [])
  | OpReserve n slack => d ← spec_reserve N size_of d (Z.of_N n) (Z.of_N slack); Done (ObsUnit, d)
  | OpMakeContiguous => Done (ObsList xs, d)
  | OpExtend items => Done (ObsUnit, holding N d (xs ++ items))
  | OpRetain keep => Done (ObsUnit, holding N d (List.filter keep xs))
  | OpTakeWhere remove =>
      Done (ObsList (List.filter remove xs), holding N d (List.filter (fun x => negb (remove x)) xs))
  | OpClear => Done (ObsList xs, holding N d [])
  | OpSwap a b =>
      if (a <? length xs) && (b <? length xs) then Done (ObsUnit, holding N d (list_swap xs a b))
      else Panicked "index out of bounds"
  | OpLen => Done (ObsLen (length xs), d)
  | OpIter => Done (ObsList xs, d)
  end.

(** Run a sequence of operations, collecting what they return. *)
Fixpoint run_all {S : Type} (step : S -> op -> outcome (obs * S)) (s : S) (ops : list op) :
    outcome (list obs * S) :=
  match ops with
  | [] => Done ([], s)
  | o :: ops =>
      '(b, s) ← step s o;
      '(bs, s) ← run_all step s ops;
      Done (b :: bs, s)
  end.

Definition denotes (N : nat) (q : QueueInternal T) (d : deque) : Prop := repr N q d.1 /\ spilled q = d.2.

(** Same outcome, same observations, related final states. *)
Definition refines {B : Type} (N : nat)
    (r : outcome (B * QueueInternal T)) (s : outcome (B * deque)) : Prop :=
  match s with
  | Done (b, d) => exists q, r = Done (b, q) /\ denotes N q d
  | Panicked msg => r = Panicked msg
  | Undefined => False
  end.

Lemma refines_done {B} N q q' d ys (b : B) r :
  denotes N q d -> becomes N q q' ys -> r = Done (b, q') -> refines N r (Done (b, holding N d ys)).
Proof. intros [_ Hs] [Hr Hs'] ->. exists q'. split; [done|]. split; [done|]. by rewrite Hs', Hs. Qed.

(** Operations that do not touch the kind of storage. *)
Lemma refines_kept {B} N q q' d ys (b : B) r :
  denotes N q d -> r = Done (b, q') -> repr N q' ys -> spilled q' = spilled q -> refines N r (Done (b, holding N d ys)).
Proof. intros Hd Hq Hr Hs. eapply refines_done; [exact Hd|by apply becomes_kept|exact Hq]. Qed.

Ltac same_storage := unfold mbind, outcome_bind; repeat (case_match; try done); intros; by simplify_eq.

Lemma pop_front_storage N (q q' : QueueInternal T) x : pop_front N q = Done (x, q') -> spilled q' = spilled q.
Proof. destruct q as [|[]]; cbn; same_storage. Qed.
Lemma pop_back_storage N (q q' : QueueInternal T) x : pop_back N q = Done (x, q') -> spilled q' = spilled q.
Proof. destruct q; cbn; same_storage. Qed.
Lemma make_contiguous_storage N (q q' : QueueInternal T) xs : make_contiguous N q = Done (q', xs) -> spilled q' = spilled q.
Proof. destruct q; cbn; same_storage. Qed.
Lemma clear_storage N dp (q q' : QueueInternal T) xs p : clear N dp q = Done (q', xs, p) -> spilled q' = spilled q.
Proof. destruct q; cbn; same_storage. Qed.
Lemma swap_storage N (q q' : QueueInternal T) a b : swap N q a b = Done q' -> spilled q' = spilled q.
Proof. unfold swap, assert_or. destruct q; same_storage. Qed.

Lemma dropped_prefix_total (xs : list T) : dropped_prefix (fun _ => false) xs = (xs, [], false).
Proof. induction xs as [|x xs IH]; [done|]. simpl. by rewrite IH. Qed.

Lemma clear_repr N (q : QueueInternal T) xs :
  repr N q xs -> exists q', clear N (fun _ => false) q = Done (q', xs, false) /\ repr N q' [].
Proof.
  destruct q as [buf h t l|vec].
  - intros Hr%(clear_inline_repr N (fun _ => false)). by rewrite dropped_prefix_total in Hr.
  - intros ->. exists (Heap []). split; [|done]. cbn [clear].
    assert (existsb (fun _ => false) xs = false) as ->; [|done]. by induction xs.
Qed.

Lemma reserve_refines N size_of `{BuildMode} (q : QueueInternal T) d (n slack : Z) :
  denotes N q d -> (0 <= n)%Z ->
  refines N (q ← reserve N size_of q n slack; Done (ObsUnit, q))
    (d ← spec_reserve N size_of d n slack; Done (ObsUnit, d)).
Proof.
  intros [Hr Hs] Hn. destruct d as [xs sp]. cbn [fst snd] in *. subst sp.
  unfold reserve, spec_reserve, add_usize. cbn [fst snd]. rewrite (len_repr N q xs Hr).
  set (needed := (Z.of_nat (length xs) + n)%Z).
  assert (forall k, (k <=? Z.of_nat N)%Z = negb (Z.of_nat N <? k)%Z) as Hneg by (intros k; apply Z.leb_antisym).
  assert (forall k, refines N
      (q ← (match q with
            | Inline buf head _ len =>
                if (Z.of_nat N <? k)%Z then
                  _ ← request size_of k; '(heap, _) ← drain_loop N len head buf []; Done (Heap heap)
                else Done q
            | Heap vec => _ ← deque_reserve size_of (Z.of_nat (length vec)) n slack; Done q
            end); Done (ObsUnit, q))
      (d ← (if spilled q then
              if ((needed <=? usize_max) && ((needed + slack) * size_of <=? isize_max))%Z then Done (xs, spilled q)
              else Panicked "capacity overflow"
            else if (k <=? Z.of_nat N)%Z then Done (xs, spilled q)
            else if (k * size_of <=? isize_max)%Z then Done (xs, true) else Panicked "capacity overflow");
       Done (ObsUnit, d))) as Hgo.
  { intros k. rewrite Hneg. destruct q as [buf h t l|vec]; cbn [spilled].
    - destruct (Z.of_nat N <? k)%Z; cbn [negb]; [|by exists (Inline buf h t l)]. unfold request, assert_or.
      destruct (k * size_of <=? isize_max)%Z; outcome_simpl; [|done]. destruct Hr as (Hr & -> & _).
      destruct (drain_loop_repr N xs buf h [] Hr) as (? & ? & -> & _). by eexists.
    - cbn in Hr. subst vec. unfold deque_reserve, checked_add, request, assert_or. fold needed.
      destruct (needed <=? usize_max)%Z; cbn [andb]; [|done].
      destruct ((needed + slack) * size_of <=? isize_max)%Z; outcome_simpl; [|done]. by exists (Heap xs). }
  destruct (needed <=? usize_max)%Z eqn:Hle.
  - apply Z.leb_le in Hle. rewrite (proj2 (Z.ltb_ge _ _)), andb_false_r by done. outcome_simpl.
    specialize (Hgo needed). unfold wrap. rewrite Z.mod_small by (unfold usize_max in Hle; lia). exact Hgo.
  - apply Z.leb_gt in Hle. rewrite (proj2 (Z.ltb_lt _ _)), andb_true_r by done.
    destruct overflow_checks; [done|]. outcome_simpl. apply Hgo.
Qed.

Lemma run_op_refines N size_of `{BuildMode} (q : QueueInternal T) d o :
  denotes N q d -> refines N (run_op N size_of q o) (spec_op N size_of d o).
Proof.
  intros Hd. pose proof Hd as [Hr Hs]. destruct o; cbn [run_op spec_op].
  - destruct (push_back_becomes N q _ v Hr) as (q' & -> & ?). by eapply refines_done.
  - destruct (push_front_becomes N q _ v Hr) as (q' & -> & ?). by eapply refines_done.
  - destruct (pop_front_repr N q _ Hr) as (q' & Hq & ?). rewrite Hq. eapply refines_kept; [done..|by eapply pop_front_storage].
  - destruct (pop_back_repr N q _ Hr) as (q' & Hq & ?). rewrite Hq. eapply refines_kept; [done..|by eapply pop_back_storage].
  - destruct (into_vec_becomes N q _ Hr) as (q' & -> & ?). by eapply refines_done.
  - apply reserve_refines; [done|lia].
  - destruct (make_contiguous_repr N q _ Hr) as (q' & Hq & ?). rewrite Hq. exists q'. split; [done|]. split; [done|].
    by rewrite (make_contiguous_storage _ _ _ _ Hq).
  - destruct (extend_becomes N items q _ Hr) as (q' & -> & ?). by eapply refines_done.
  - destruct (retain_becomes N q _ keep Hr) as (q' & -> & ?). by eapply refines_done.
  - destruct (take_where_becomes N q _ remove Hr) as (q' & -> & ?). by eapply refines_done.
  - destruct (clear_repr N q _ Hr) as (q' & Hq & ?). rewrite Hq. eapply refines_kept; [done..|by eapply clear_storage].
  - destruct (a <? length d.1) eqn:Ha, (b <? length d.1) eqn:Hb; bool_props; simpl;
      try (by rewrite (swap_out_of_bounds N q _ a b Hr) by lia).
    destruct (swap_repr N q _ a b Hr Ha Hb) as (q' & Hq & ?). rewrite Hq. eapply refines_kept; [done..|by eapply swap_storage].
  - rewrite (len_repr N q _ Hr). by exists q.
  - rewrite (iter_all_repr N q _ Hr). by exists q.
Qed.

Lemma run_all_refines N size_of `{BuildMode} ops (q : QueueInternal T) d :
  denotes N q d ->
  refines N (run_all (run_op N size_of) q ops) (run_all (spec_op N size_of) d ops).
Proof.
  revert q d. induction ops as [|o ops IH]; intros q d Hd; simpl; [by exists q|].
  pose proof (run_op_refines N size_of q d o Hd) as Ho.
  destruct (spec_op N size_of d o) as [[b d1]|msg|]; simpl in *; [|by rewrite Ho|done].
  destruct Ho as (q1 & -> & Hd1). outcome_simpl. specialize (IH q1 d1 Hd1).
  destruct (run_all (spec_op N size_of) d1 ops) as [[bs d2]|msg|]; simpl in *; [|by rewrite IH|done].
  destruct IH as (q2 & -> & Hd2). by exists q2.
Qed.
End trace.
Arguments op : clear implicits.

(** ** Properties *)

(** C21: every sequence of public operations on a queue created with any inline
    capacity [N], for elements of any size and with or without overflow checks,
    behaves exactly as the same sequence on a plain double-ended list: same returned
    values, same panics, and never undefined behaviour, across the wrap-around of
    the ring and the spill to the heap. The panics are an index out of bounds in
    [swap]; in [reserve] an overflow of the length where overflows are checked, and
    a capacity overflow if the room requested exceeds [isize::MAX] bytes, or
    [usize::MAX] elements once the queue has spilled. With overflow checks off an
    inline queue takes the wrapped sum for its request. *)
Theorem queue_refines_deque `{BuildMode} (T : Type) (N : nat) (size_of : Z) (ops : list (op T)) :
  refines N (run_all (run_op N size_of) (new N) ops) (run_all (spec_op N size_of) ([], false) ops).
Proof. apply run_all_refines. split; [apply new_repr|done]. Qed.

(** C40: [clear] stays consistent when an element's destructor panics: the
    elements up to and including the panicking one are dropped exactly once,
    and the queue still represents exactly the others. *)
Theorem clear_panic_safe (T : Type) (N : nat) (dp : T -> bool) buf h t l xs :
  repr N (Inline buf h t l) xs ->
  exists q' dropped rest panicked,
    clear N dp (Inline buf h t l) = Done (q', dropped, panicked) /\
    xs = dropped ++ rest /\ repr N q' rest /\ (panicked = false -> rest = []).
Proof.
  intros Hr%(clear_inline_repr N dp). destruct (dropped_prefix dp xs) as [[d rest] p] eqn:E.
  destruct Hr as (q' & Hc & Hr'). destruct (dropped_prefix_app _ _ _ _ _ E) as [Hx Hp].
  by exists q', d, rest, p.
Qed.

Lemma clear_panic_safe_witness :
  exists q' dropped rest panicked,
    clear 3 (Nat.eqb 2) (Inline [Some 3; Some 1; Some 2] 1 1 3) = Done (q', dropped, panicked) /\
    [1; 2; 3] = dropped ++ rest /\ repr 3 q' rest /\ (panicked = false -> rest = []).
Proof.
  apply clear_panic_safe. split; [|done]. split_and!; simpl; try lia.
  intros [|[|[|i]]] Hi; try lia; done.
Defined.

(** The references handed out by [iter_mut] never alias: driven to
    exhaustion it yields one place per element, all of them distinct, and only
    initialised slots. *)
Theorem iter_mut_no_alias (T : Type) (N : nat) (q : QueueInternal T) xs :
  repr N q xs ->
  exists ps, iter_mut_collect N (S (len q)) (iter_mut q) = Done ps /\
    NoDup ps /\ length ps = length xs.
Proof.
  intros Hr. rewrite (len_repr N q xs Hr). destruct q as [buf h t l|vec]; simpl iter_mut.
  - destruct Hr as (Hr & -> & _). pose proof Hr as (_ & Hle & Hh & _).
    destruct xs as [|x xs]; [by exists []; split_and!; [..|constructor|]|].
    pose proof (iter_mut_collect_inline N buf (x :: xs) (S (length (x :: xs))) h
      (length (x :: xs)) 0 Hr) as Hc. rewrite Nat.add_0_r, ring_small in Hc by (simpl in *; lia).
    rewrite Hc by lia. eexists. split; [done|]. rewrite length_fmap, length_seq.
    split; [|done]. apply NoDup_fmap_2_strong; [|apply NoDup_seq].
    intros i j Hi%elem_of_seq Hj%elem_of_seq [= Heq]. by eapply ring_inj; [| |done]; lia.
  - simpl in Hr. rewrite Hr, iter_mut_collect_heap by lia. eexists. split; [done|].
    rewrite length_fmap, length_seq. split; [|done].
    apply NoDup_fmap_2; [by intros ? ? [= ->]|apply NoDup_seq].
Qed.

Lemma iter_mut_no_alias_witness :
  exists ps, iter_mut_collect 3 3 (iter_mut (Inline [Some 8; None; Some 7] 2 1 2)) = Done ps /\
    NoDup ps /\ length ps = 2.
Proof.
  apply (iter_mut_no_alias nat 3 (Inline [Some 8; None; Some 7] 2 1 2) [7; 8]).
  split; [|done]. split_and!; simpl; try lia. intros [|[|[|i]]] Hi; try lia; done.
Defined.

(** Converting a vector to a queue and back is the identity, whether or not
    it fits inline, and a clone compares equal to its original for every
    reflexive element equality. *)
Theorem queue_roundtrip (T : Type) (N : nat) (eq_item : T -> T -> bool) (vec : list T) :
  (forall x, eq_item x x = true) ->
  exists q q', from_vec N vec = Done q /\ into_iter N q = Done vec /\
    clone N id q = Done q' /\ eq N eq_item q' q = Done true /\ drop_queue N q' = Done vec.
Proof.
  intros Hrefl. destruct (extend_repr N vec (new N) [] (new_repr N)) as (q & Hq & Hr).
  destruct (clone_repr N id q vec Hr) as (q' & Hq' & Hr'). rewrite map_id in Hr'.
  exists q, q'. unfold from_vec, into_iter. rewrite Hq.
  destruct (into_vec_repr N q vec Hr) as (q0 & -> & _).
  destruct (eq_repr N eq_item q' q vec vec Hr' Hr) as (b & -> & Hb).
  rewrite (drop_queue_repr N q' vec Hr'). split_and!; try done. f_equal. apply Hb.
  by apply Forall_Forall2_diag, Forall_true.
Qed.

Lemma queue_roundtrip_witness :
  exists q q', from_vec 2 [1; 2; 3] = Done q /\ into_iter 2 q = Done [1; 2; 3] /\
    clone 2 id q = Done q' /\ eq 2 Nat.eqb q' q = Done true /\ drop_queue 2 q' = Done [1; 2; 3].
Proof. apply queue_roundtrip. apply Nat.eqb_refl. Defined.

(** With overflow checks off, [reserve] on an inline queue wraps its required
    capacity and returns without reserving anything. *)
Lemma reserve_release_wraps :
  reserve 4 1 (H := release_build) (Inline [Some 7; None; None; None] 0 1 1) usize_max 0 =
    Done (Inline [Some 7; None; None; None] 0 1 1).
Proof. vm_compute. done. Qed.
End Queue.
