(* ===== verification/WaitList.v ===== *)
(** * Wait lists: the interface between the queue and the local locks

    The single-threaded locks keep their waiters in a [Queue<_, 8>]. [WaitList]
    is the part of the queue they use, [WaitListLaws] what it promises, and the
    instance below discharges the promise with the inline queue. The second half
    models the registration protocol the locks share ([register], [deregister]
    of [src/site_c/mutex.rs], [rwlock.rs] and [semaphore.rs]) and proves, once
    for all of them, that wait list entries and the futures that own them stay
    in correspondence. *)
From stdpp Require Import base list gmap numbers relations strings.
From S2P Require Import Prelude InlineQueue.

(** ** Wakers

    A [Waker] is opaque; [will_wake] is the runtime's own test of whether two
    wakers wake the same task, about which nothing is assumed. *)
Class Wakers : Type := {
  waker : Type;
  will_wake : waker -> waker -> bool
}.

Class WaitList (Q E : Type) : Type := {
  wl_new : Q;
  wl_push_back : Q -> E -> outcome Q;
  wl_pop_front : Q -> outcome (option E * Q);
  wl_take_where : Q -> (E -> bool) -> outcome (list E * Q);
  wl_iter : Q -> outcome (list E);
  wl_front : Q -> outcome (option E);
  wl_is_empty : Q -> bool;
  wl_len : Q -> nat
}.

Class WaitListLaws (Q E : Type) `{WaitList Q E} : Type := {
  wl_repr : Q -> list E -> Prop;
  wl_new_repr : wl_repr wl_new [];
  wl_push_back_repr q es e : wl_repr q es ->
    exists q', wl_push_back q e = Done q' /\ wl_repr q' (es ++ [e]);
  wl_pop_front_repr q es : wl_repr q es ->
    exists q', wl_pop_front q = Done (head es, q') /\ wl_repr q' (tail es);
  wl_take_where_repr q es remove : wl_repr q es ->
    exists q', wl_take_where q remove = Done (List.filter remove es, q') /\
      wl_repr q' (List.filter (fun e => negb (remove e)) es);
  wl_iter_repr q es : wl_repr q es -> wl_iter q = Done es;
  wl_front_repr q es : wl_repr q es -> wl_front q = Done (head es);
  wl_is_empty_repr q es : wl_repr q es -> wl_is_empty q = bool_decide (es = []);
  wl_len_repr q es : wl_repr q es -> wl_len q = length es
}.

(** The inline capacity of the locks' wait lists. *)
Definition WAITERS_INLINE : nat := 8.

#[export] Instance queue_wait_list (E : Type) : WaitList (Queue.QueueInternal E) E := {
  wl_new := Queue.new WAITERS_INLINE;
  wl_push_back := Queue.push_back WAITERS_INLINE;
  wl_pop_front := Queue.pop_front WAITERS_INLINE;
  wl_take_where := Queue.take_where WAITERS_INLINE;
  wl_iter := Queue.iter_all WAITERS_INLINE;
  wl_front q := '(item, _) ← Queue.iter_next WAITERS_INLINE (Queue.iter q); Done item;
  wl_is_empty := Queue.is_empty;
  wl_len := Queue.len
}.

#[export] Program Instance queue_wait_list_laws (E : Type) :
  WaitListLaws (Queue.QueueInternal E) E := {
  wl_repr := Queue.repr WAITERS_INLINE;
  wl_new_repr := Queue.new_repr WAITERS_INLINE;
  wl_push_back_repr := Queue.push_back_repr WAITERS_INLINE;
  wl_pop_front_repr := Queue.pop_front_repr WAITERS_INLINE;
  wl_take_where_repr := Queue.take_where_repr WAITERS_INLINE;
  wl_iter_repr := Queue.iter_all_repr WAITERS_INLINE;
  wl_is_empty_repr := Queue.is_empty_repr WAITERS_INLINE;
  wl_len_repr := Queue.len_repr WAITERS_INLINE
}.
Next Obligation.
  intros E q es Hr. simpl.
  by destruct (Queue.iter_next_repr _ _ _ (Queue.iter_iter_repr _ q es Hr)) as (it & -> & _).
Qed.

(** ** Registration *)
Module Registration.
Section registration.
Context `{Wakers} {Q E : Type} `{WaitList Q E} (id_of : E -> Z) (waker_of : E -> waker).

(** [register]: keep at most one entry per live future. [mk id] is the entry
    built for this registration. *)
Definition register_in (q : Q) (next_id : Z) (slot : option E) (mk : Z -> E) (w : waker) :
    outcome (Q * Z * option E) :=
  stale ← match slot with
          | Some e =>
              if will_wake (waker_of e) w then
                items ← wl_iter q;
                Done (negb (existsb (fun qe => (id_of qe =? id_of e)%Z) items))
              else Done true
          | None => Done true
          end;
  if negb stale then Done (q, next_id, slot)
  else
    let '(id, next_id) :=
      match slot with
      | Some e => (id_of e, next_id)
      | None => (next_id, wrapping_add next_id 1)
      end in
    '(_, q) ← wl_take_where q (fun qe => (id_of qe =? id)%Z);
    q ← wl_push_back q (mk id);
    Done (q, next_id, Some (mk id)).

(** [deregister]: remove exactly this future's entry and clear its slot. *)
Definition deregister_in (q : Q) (slot : option E) : outcome (Q * option E) :=
  match slot with
  | Some e =>
      '(_, q) ← wl_take_where q (fun qe => (id_of qe =? id_of e)%Z);
      Done (q, None)
  | None => Done (q, None)
  end.

(** The same two operations on the list of entries. *)
Definition remove_id (id : Z) (es : list E) : list E :=
  List.filter (fun e => negb (id_of e =? id)%Z) es.

Definition still_queued (es : list E) (slot : option E) (w : waker) : bool :=
  match slot with
  | Some e => will_wake (waker_of e) w && existsb (fun qe => (id_of qe =? id_of e)%Z) es
  | None => false
  end.

Definition register_abs (es : list E) (next_id : Z) (slot : option E) (mk : Z -> E) (w : waker) :
    list E * Z * option E :=
  if still_queued es slot w then (es, next_id, slot)
  else
    let '(id, next_id) :=
      match slot with
      | Some e => (id_of e, next_id)
      | None => (next_id, wrapping_add next_id 1)
      end in
    (remove_id id es ++ [mk id], next_id, Some (mk id)).

Definition deregister_abs (es : list E) (slot : option E) : list E :=
  match slot with
  | Some e => remove_id (id_of e) es
  | None => es
  end.

(** [linked es slots next]: the entries [es] of a wait list belong to distinct
    live futures, whose [registered] slots are [slots]; every identifier in use
    is below [next]. *)
Record linked (es : list E) (slots : gmap nat (option E)) (next : Z) : Prop := {
  linked_nodup : NoDup (id_of <$> es);
  linked_owner e : e ∈ es -> exists f, slots !! f = Some (Some e);
  linked_inj f1 f2 e1 e2 :
    slots !! f1 = Some (Some e1) -> slots !! f2 = Some (Some e2) ->
    id_of e1 = id_of e2 -> f1 = f2;
  linked_bound f e : slots !! f = Some (Some e) -> (0 <= id_of e < next)%Z
}.

(** A registered future whose entry has been popped: it holds the turn. *)
Definition popped (es : list E) (e : E) : Prop := id_of e ∉ id_of <$> es.

(** [since !! f] is the history of the wakers fired since future [f] was last
    polled. Firing a waker appends it to the history of every live future. *)
Definition fire (w : waker) (since : gmap nat (list waker)) : gmap nat (list waker) :=
  (fun ws => ws ++ [w]) <$> since.

Definition fire_opt (o : option waker) (since : gmap nat (list waker)) : gmap nat (list waker) :=
  match o with Some w => fire w since | None => since end.

Definition fire_all (ws : list waker) (since : gmap nat (list waker)) : gmap nat (list waker) :=
  foldl (fun m w => fire w m) since ws.

(** Every registered future is either still queued, or was popped and its
    current waker has been fired since its last poll. *)
Definition told (es : list E) (slots : gmap nat (option E)) (since : gmap nat (list waker)) : Prop :=
  dom since = dom slots /\
  forall f e, slots !! f = Some (Some e) ->
    e ∈ es \/ popped es e /\ exists ws, since !! f = Some ws /\ waker_of e ∈ ws.

(** *** Lemmas *)
Context `{!WaitListLaws Q E}.

Lemma register_in_repr q es next slot mk w :
  wl_repr q es ->
  exists q', register_in q next slot mk w =
      Done (q', (register_abs es next slot mk w).1.2, (register_abs es next slot mk w).2) /\
    wl_repr q' (register_abs es next slot mk w).1.1.
Proof.
  intros Hr. unfold register_in, register_abs, still_queued.
  assert (forall id nx : Z, exists q', ('(_, q0) ← wl_take_where q (fun qe => (id_of qe =? id)%Z);
     q1 ← wl_push_back q0 (mk id); Done (q1, nx, Some (mk id))) = Done (q', nx, Some (mk id)) /\
     wl_repr q' (remove_id id es ++ [mk id])) as Hadd.
  { intros id nx. destruct (wl_take_where_repr q es (fun qe => (id_of qe =? id)%Z) Hr)
      as (q1 & -> & Hr1). outcome_simpl.
    destruct (wl_push_back_repr q1 _ (mk id) Hr1) as (q2 & -> & Hr2). by exists q2. }
  destruct slot as [e|]; outcome_simpl; [|by apply Hadd].
  destruct (will_wake (waker_of e) w); simpl; [|by apply Hadd].
  rewrite (wl_iter_repr q es Hr). outcome_simpl. rewrite negb_involutive.
  destruct (existsb _ es); simpl; [by exists q|by apply Hadd].
Qed.

Lemma deregister_in_repr q es slot :
  wl_repr q es ->
  exists q', deregister_in q slot = Done (q', None) /\ wl_repr q' (deregister_abs es slot).
Proof.
  intros Hr. destruct slot as [e|]; simpl; [|by exists q].
  destruct (wl_take_where_repr q es (fun qe => (id_of qe =? id_of e)%Z) Hr) as (q' & -> & Hr').
  by exists q'.
Qed.

Lemma elem_of_remove_id id es e : e ∈ remove_id id es <-> e ∈ es /\ id_of e <> id.
Proof.
  unfold remove_id. rewrite !list_elem_of_In, filter_In, negb_true_iff, Z.eqb_neq. done.
Qed.

Lemma remove_id_notin id es : id ∉ id_of <$> es -> remove_id id es = es.
Proof.
  unfold remove_id. induction es as [|e es IH]; simpl; [done|].
  rewrite not_elem_of_cons. intros [Hne Hni]. rewrite (proj2 (Z.eqb_neq _ _)) by done. simpl.
  by rewrite IH.
Qed.

Lemma NoDup_remove_id id es : NoDup (id_of <$> es) -> NoDup (id_of <$> remove_id id es).
Proof.
  unfold remove_id. induction es as [|e es IH]; simpl; [done|].
  intros [Hni Hnd]%NoDup_cons. destruct (negb _); [|by apply IH].
  simpl. apply NoDup_cons. split; [|by apply IH]. contradict Hni.
  apply list_elem_of_fmap in Hni as (e' & -> & He'). apply list_elem_of_fmap. exists e'.
  split; [done|]. by apply (elem_of_remove_id id es).
Qed.

Lemma existsb_id es id : existsb (fun qe => (id_of qe =? id)%Z) es = true <-> id ∈ id_of <$> es.
Proof.
  rewrite existsb_exists, list_elem_of_fmap. split.
  - intros (e & He & <-%Z.eqb_eq). exists e. by rewrite list_elem_of_In.
  - intros (e & -> & He). exists e. by rewrite <-list_elem_of_In, Z.eqb_refl.
Qed.

(** Registered futures are determined by their identifier. *)
Lemma linked_entry es slots next f e e' :
  linked es slots next -> slots !! f = Some (Some e) -> e' ∈ es -> id_of e' = id_of e -> e' = e.
Proof.
  intros Hl Hf He' Hid. destruct (linked_owner _ _ _ Hl e' He') as [f' Hf'].
  assert (f' = f) as -> by (by eapply linked_inj). by simplify_eq.
Qed.

Lemma linked_new next : linked [] ∅ next.
Proof. split; [constructor|by intros ? ?%elem_of_nil|set_solver..]. Qed.

Lemma linked_weaken es slots next next' :
  linked es slots next -> (next <= next')%Z -> linked es slots next'.
Proof.
  intros [Hnd Ho Hi Hb] Hle. split; [done..|]. intros f e Hf. specialize (Hb f e Hf). lia.
Qed.

Lemma linked_fresh es slots next : linked es slots next -> next ∉ id_of <$> es.
Proof.
  intros Hl Hin. apply list_elem_of_fmap in Hin as (e & Heq & He).
  destruct (linked_owner _ _ _ Hl e He) as [f Hf].
  pose proof (linked_bound _ _ _ Hl f e Hf). lia.
Qed.

(** A first registration appends. *)
Lemma register_abs_fresh es slots next mk w :
  linked es slots next -> register_abs es next None mk w = (es ++ [mk next], wrapping_add next 1, Some (mk next)).
Proof. intros Hl. unfold register_abs. simpl. by rewrite remove_id_notin by by eapply linked_fresh. Qed.

(** A fresh, unregistered future. *)
Lemma linked_add es slots next f :
  linked es slots next -> slots !! f = None -> linked es (<[f := None]> slots) next.
Proof.
  intros [Hnd Ho Hi Hb] Hf. split; [done| | |].
  - intros e He. destruct (Ho e He) as [f' Hf']. exists f'.
    rewrite lookup_insert_ne; [done|]. intros <-. by rewrite Hf in Hf'.
  - intros f1 f2 e1 e2 [[??]|[? Hs1]]%lookup_insert_Some [[??]|[? Hs2]]%lookup_insert_Some; simplify_eq; eauto.
  - intros f' e [[??]|[? Hf']]%lookup_insert_Some; simplify_eq; eauto.
Qed.

Lemma linked_pop e es slots next : linked (e :: es) slots next -> linked es slots next.
Proof.
  intros [Hnd Ho Hi Hb]. split; [by apply NoDup_cons in Hnd as [? ?]| |done|done].
  intros e' He'. apply Ho. by right.
Qed.

Lemma linked_nil es slots next : linked es slots next -> linked [] slots next.
Proof. intros [Hnd Ho Hi Hb]. split; [constructor|by intros ? ?%elem_of_nil|done|done]. Qed.

(** Clearing the slot of a future together with its entry. *)
Lemma linked_deregister es slots next f slot :
  linked es slots next -> slots !! f = Some slot ->
  linked (deregister_abs es slot) (<[f := None]> slots) next.
Proof.
  intros Hl Hf. pose proof Hl as [Hnd Ho Hi Hb]. split.
  - destruct slot; simpl; [by apply NoDup_remove_id|done].
  - intros e He. assert (e ∈ es /\ slot <> Some e) as [He' Hne].
    { destruct slot as [e0|]; simpl in He; [|done].
      apply elem_of_remove_id in He as [? ?]. split; congruence. }
    destruct (Ho e He') as [f' Hf']. exists f'. rewrite lookup_insert_ne; [done|].
    intros <-. simplify_eq.
  - intros f1 f2 e1 e2 [[??]|[? Hs1]]%lookup_insert_Some [[??]|[? Hs2]]%lookup_insert_Some; simplify_eq; eauto.
  - intros f' e [[??]|[? Hf']]%lookup_insert_Some; simplify_eq; eauto.
Qed.

Lemma linked_delete es slots next f :
  linked es slots next -> slots !! f = Some None -> linked es (delete f slots) next.
Proof.
  intros [Hnd Ho Hi Hb] Hf. split; [done| | |].
  - intros e He. destruct (Ho e He) as [f' Hf']. exists f'.
    rewrite lookup_delete_ne; [done|]. intros <-. by rewrite Hf in Hf'.
  - intros f1 f2 e1 e2 [? Hs1]%lookup_delete_Some [? Hs2]%lookup_delete_Some; eauto.
  - intros f' e [? Hf']%lookup_delete_Some; eauto.
Qed.

(** Registration keeps the correspondence, as long as identifiers do not wrap. *)
Lemma linked_register es slots next f slot mk w :
  (forall id, id_of (mk id) = id) -> (0 <= next < usize_max)%Z ->
  linked es slots next -> slots !! f = Some slot ->
  let '(es', next', slot') := register_abs es next slot mk w in
  linked es' (<[f := slot']> slots) next' /\ (next <= next' <= next + 1)%Z.
Proof.
  intros Hmk Hnext Hl Hf. pose proof Hl as [Hnd Ho Hi Hb]. unfold register_abs.
  destruct (still_queued es slot w) eqn:Hq; [rewrite insert_id by done; split; [done|lia]|].
  assert (exists id next', match slot with Some e => (id_of e, next)
    | None => (next, wrapping_add next 1) end = (id, next') /\ (next <= next' <= next + 1)%Z /\
    (0 <= id < next')%Z /\ (forall f' e', slots !! f' = Some (Some e') -> id_of e' = id -> f' = f) /\
    forall e, slot = Some e -> id_of e = id)
    as (id & next' & -> & Hn' & Hid & Hown & Hslot).
  { destruct slot as [e|].
    - exists (id_of e), next. pose proof (Hb f e Hf). split_and!; [done|lia..| |by intros ? [= ->]].
      intros f' e' Hf' Heq. by eapply Hi.
    - exists next, (next + 1)%Z. unfold wrapping_add, wrap, usize_max, word_modulus in *.
      rewrite Z.mod_small by lia. split_and!; [done|lia..| |done].
      intros f' e' Hf' Heq. specialize (Hb f' e' Hf'). lia. }
  split; [|done]. split.
  - rewrite fmap_app. apply NoDup_app. split; [by apply NoDup_remove_id|].
    split; [|apply NoDup_singleton]. intros x Hx1 Hx2. simpl in Hx2.
    apply list_elem_of_singleton in Hx2 as ->. apply list_elem_of_fmap in Hx1 as (e & He1 & He2).
    apply elem_of_remove_id in He2 as [_ Hne]. apply Hne. by rewrite <-He1, Hmk.
  - intros e [He|He]%elem_of_app;
      [|apply list_elem_of_singleton in He as ->; exists f; apply lookup_insert_eq].
    apply elem_of_remove_id in He as [He Hne]. destruct (Ho e He) as [f' Hf']. exists f'.
    rewrite lookup_insert_ne; [done|]. intros <-. apply Hne, Hslot. congruence.
  - intros f1 f2 e1 e2 [[??]|[? Hs1]]%lookup_insert_Some [[??]|[? Hs2]]%lookup_insert_Some Heq;
      simplify_eq; [done| | |by eapply Hi].
    + symmetry. eapply Hown; [done|]. by rewrite <-Heq, Hmk.
    + eapply Hown; [done|]. by rewrite Heq, Hmk.
  - intros f' e [[??]|[? Hf']]%lookup_insert_Some; simplify_eq; [by rewrite Hmk|].
    specialize (Hb f' e Hf'). lia.
Qed.

(** What one future's registration or deregistration does to the others. *)
Lemma register_keeps es slots next f slot mk w g e :
  linked es slots next -> slots !! f = Some slot -> g <> f ->
  slots !! g = Some (Some e) -> e ∈ es -> e ∈ (register_abs es next slot mk w).1.1.
Proof.
  intros Hl Hf Hne Hg He. unfold register_abs. destruct (still_queued es slot w); [done|].
  assert (exists id next', match slot with Some e => (id_of e, next)
    | None => (next, wrapping_add next 1) end = (id, next') /\ id_of e <> id) as (id & next' & -> & Hid).
  { destruct slot as [e0|]; eexists _, _; (split; [done|]).
    - intros Heq. apply Hne. by eapply linked_inj.
    - pose proof (linked_bound _ _ _ Hl g e Hg). lia. }
  apply elem_of_app. left. by apply elem_of_remove_id.
Qed.

Lemma deregister_keeps es slots next f slot g e :
  linked es slots next -> slots !! f = Some slot -> g <> f ->
  slots !! g = Some (Some e) -> e ∈ es -> e ∈ deregister_abs es slot.
Proof.
  intros Hl Hf Hne Hg He. destruct slot as [e0|]; simpl; [|done].
  apply elem_of_remove_id. split; [done|]. intros Heq. apply Hne. by eapply linked_inj.
Qed.

(** A future that is already queued and is polled with a waker its runtime
    recognises keeps its place. *)
Lemma register_abs_queued es next e mk w :
  e ∈ es -> will_wake (waker_of e) w = true ->
  register_abs es next (Some e) mk w = (es, next, Some e).
Proof.
  intros He Hw. unfold register_abs, still_queued. rewrite Hw.
  rewrite (proj2 (existsb_id es (id_of e))); [done|]. apply list_elem_of_fmap. by exists e.
Qed.

Lemma register_abs_slot es slots next f slot mk w :
  linked es slots next -> slots !! f = Some slot ->
  (forall id, id_of (mk id) = id) ->
  exists e, (register_abs es next slot mk w).2 = Some e /\ e ∈ (register_abs es next slot mk w).1.1 /\
    (slot = Some e \/ exists id, e = mk id).
Proof.
  intros Hl Hf Hmk. unfold register_abs. destruct (still_queued es slot w) eqn:Hq.
  - destruct slot as [e|]; [|done]. exists e. split; [done|]. split; [|by left].
    simpl in Hq. apply andb_true_iff in Hq as [_ Hq].
    apply existsb_id, list_elem_of_fmap in Hq as (e' & Hid & He').
    by assert (e' = e) as <- by (by eapply linked_entry).
  - destruct (match slot with Some e => _ | None => _ end) as [id next']. simpl.
    eexists. split; [done|]. split; [|by right; exists id].
    apply elem_of_app. right. by apply list_elem_of_singleton.
Qed.

Lemma lookup_since es slots since f slot :
  told es slots since -> slots !! f = Some slot -> exists ws, since !! f = Some ws.
Proof. intros [Hd _] Hf%elem_of_dom_2. rewrite <-Hd in Hf. by apply elem_of_dom. Qed.

Lemma told_add es slots since f :
  told es slots since -> slots !! f = None -> told es (<[f := None]> slots) (<[f := []]> since).
Proof.
  intros [Hd Ht] Hf. split; [by rewrite !dom_insert_L, Hd|].
  intros f' e [[??]|[? Hf']]%lookup_insert_Some; [done|].
  destruct (Ht f' e Hf') as [?|[? (ws & Hws & ?)]]; [by left|right].
  split; [done|]. exists ws. by rewrite lookup_insert_ne.
Qed.

Lemma told_delete es slots since f :
  told es slots since -> told es (delete f slots) (delete f since).
Proof.
  intros [Hd Ht]. split; [by rewrite !dom_delete_L, Hd|].
  intros f' e [? Hf']%lookup_delete_Some.
  destruct (Ht f' e Hf') as [?|[? (ws & Hws & ?)]]; [by left|right].
  split; [done|]. exists ws. by rewrite lookup_delete_ne.
Qed.

Lemma popped_remove_id id es e : popped es e -> popped (remove_id id es) e.
Proof.
  intros Hp Hin. apply Hp. apply list_elem_of_fmap in Hin as (e' & -> & He').
  apply elem_of_remove_id in He' as [He' _]. apply list_elem_of_fmap. by exists e'.
Qed.

(** A polled future that registers is queued; the others are unaffected. *)
Lemma told_register es slots since next f slot mk w :
  (forall id, id_of (mk id) = id) -> (0 <= next < usize_max)%Z ->
  linked es slots next -> slots !! f = Some slot -> told es slots since ->
  let '(es', next', slot') := register_abs es next slot mk w in
  told es' (<[f := slot']> slots) (<[f := []]> since) /\
  (forall g e, g <> f -> slots !! g = Some (Some e) -> popped es e -> popped es' e) /\
  exists e', slot' = Some e' /\ e' ∈ es'.
Proof.
  intros Hmk Hnext Hl Hf [Hd Ht]. unfold register_abs.
  destruct (still_queued es slot w) eqn:Hq.
  { destruct slot as [e|]; [|done]. simpl in Hq. apply andb_true_iff in Hq as [_ Hq].
    apply existsb_id, list_elem_of_fmap in Hq as (e' & Hid & He').
    assert (e' = e) as -> by (by eapply linked_entry). split; [split|split; [done|by exists e]].
    - by rewrite !dom_insert_L, Hd.
    - intros g eg [[??]|[? Hg]]%lookup_insert_Some; simplify_eq; [by left|].
      destruct (Ht g eg Hg) as [?|[? (ws & Hws & ?)]]; [by left|right].
      split; [done|]. exists ws. by rewrite lookup_insert_ne. }
  set (idn := match slot with Some e => (id_of e, next) | None => (next, wrapping_add next 1) end).
  assert (forall g e, g <> f -> slots !! g = Some (Some e) -> id_of e <> idn.1) as Hother.
  { intros g eg Hne Hg Heq. subst idn. destruct slot as [e|]; simpl in Heq.
    - apply Hne. by eapply linked_inj.
    - pose proof (linked_bound _ _ _ Hl g eg Hg). lia. }
  destruct idn as [id next']. simpl in Hother.
  assert (forall g e, g <> f -> slots !! g = Some (Some e) -> popped es e ->
    popped (remove_id id es ++ [mk id]) e) as Hpop.
  { intros g eg Hne Hg Hp. unfold popped. rewrite fmap_app, elem_of_app.
    intros [Hin|Hin]; [by eapply popped_remove_id|].
    apply list_elem_of_singleton in Hin. rewrite Hmk in Hin. by eapply Hother. }
  split; [split|split; [done|]].
  - by rewrite !dom_insert_L, Hd.
  - intros g eg [[??]|[? Hg]]%lookup_insert_Some; simplify_eq.
    { left. apply elem_of_app. right. by apply list_elem_of_singleton. }
    destruct (Ht g eg Hg) as [?|[? (ws & Hws & ?)]].
    + left. apply elem_of_app. left. apply elem_of_remove_id. split; [done|]. by eapply Hother.
    + right. split; [by eapply Hpop|]. exists ws. by rewrite lookup_insert_ne.
  - eexists. split; [done|]. apply elem_of_app. right. by apply list_elem_of_singleton.
Qed.

Lemma told_deregister es slots since next f slot :
  linked es slots next -> slots !! f = Some slot -> told es slots since ->
  told (deregister_abs es slot) (<[f := None]> slots) (<[f := []]> since).
Proof.
  intros Hl Hf [Hd Ht]. split; [by rewrite !dom_insert_L, Hd|].
  intros g eg [[??]|[? Hg]]%lookup_insert_Some; [done|].
  destruct (Ht g eg Hg) as [He|[Hp (ws & Hws & ?)]].
  - left. destruct slot as [e|]; simpl; [|done]. apply elem_of_remove_id. split; [done|].
    intros Heq. assert (g = f); [by eapply linked_inj|done].
  - right. split; [destruct slot; [by apply popped_remove_id|done]|].
    exists ws. by rewrite lookup_insert_ne.
Qed.

(** Popping the front entry and firing its waker. *)
Lemma told_pop e es slots since next :
  linked (e :: es) slots next -> told (e :: es) slots since ->
  told es slots (fire (waker_of e) since) /\
  exists f, slots !! f = Some (Some e) /\ popped es e.
Proof.
  intros Hl [Hd Ht]. pose proof Hl as [Hnd Ho _ _].
  apply NoDup_cons in Hnd as [Hni Hnd]. fold (popped es e) in Hni.
  destruct (Ho e) as [f0 Hf0]; [by left|]. split; [split|by exists f0].
  - unfold fire. by rewrite dom_fmap_L.
  - intros f e' Hf. destruct (lookup_since (e :: es) slots since f (Some e')) as [ws Hws]; [done..|].
    unfold fire. rewrite lookup_fmap, Hws. simpl.
    destruct (Ht f e' Hf) as [[->|He]%elem_of_cons|[Hp (ws' & ? & ?)]].
    + right. split; [done|]. eexists. split; [done|]. apply elem_of_app. right.
      by apply list_elem_of_singleton.
    + by left.
    + right. simplify_eq. split; [intros Hin; apply Hp; by right|].
      eexists. split; [done|]. apply elem_of_app. by left.
Qed.

(** [wake_next]'s pop, on whatever the list holds. *)
Lemma told_pop_front es slots since next :
  linked es slots next -> told es slots since ->
  linked (tail es) slots next /\ told (tail es) slots (fire_opt (waker_of <$> head es) since) /\
  (es <> [] -> exists f e, slots !! f = Some (Some e) /\ popped (tail es) e).
Proof.
  intros Hl Ht. destruct es as [|e es]; simpl; [done|].
  destruct (told_pop e es slots since next Hl Ht) as [? (f & ?)].
  split_and!; [by eapply linked_pop|done|]. intros _. by exists f, e.
Qed.

(** Firing any waker keeps what was told. *)
Lemma told_fire w es slots since : told es slots since -> told es slots (fire w since).
Proof.
  intros [Hd Ht]. unfold fire. split; [by rewrite dom_fmap_L|]. intros f e Hf.
  destruct (Ht f e Hf) as [?|[? (ws & Hws & ?)]]; [by left|right; split; [done|]].
  rewrite lookup_fmap, Hws. simpl. eexists. split; [done|]. apply elem_of_app. by left.
Qed.

Lemma told_fire_all ws es slots since : told es slots since -> told es slots (fire_all ws since).
Proof. revert since. induction ws as [|w ws IH]; intros since Ht; [done|]. apply IH. by apply told_fire. Qed.

(** Popping every entry and firing all their wakers. *)
Lemma told_drain es slots since next :
  linked es slots next -> told es slots since -> told [] slots (fire_all (waker_of <$> es) since).
Proof.
  revert since. induction es as [|e es IH]; intros since Hl Ht; simpl; [done|].
  destruct (told_pop e es slots since next Hl Ht) as [Ht' _].
  apply IH; [by eapply linked_pop|done].
Qed.

Lemma linked_length es slots next : linked es slots next -> length es <= size slots.
Proof.
  intros [Hnd Ho Hi _].
  assert (exists fs : list nat, length fs = length es /\ NoDup fs /\
    Forall2 (fun f e => slots !! f = Some (Some e)) fs es) as (fs & Hlen & Hfs & Hall).
  { induction es as [|e es IH]; [by exists []; split_and!; [|constructor|]|].
    simpl in Hnd. apply NoDup_cons in Hnd as [Hni Hnd].
    destruct IH as (fs & Hlen & Hfs & Hall); [done|by intros; apply Ho; right|].
    destruct (Ho e) as [f Hf]; [by left|]. exists (f :: fs). split_and!; [by simpl; f_equal| |by constructor].
    apply NoDup_cons. split; [|done]. intros Hin. apply list_elem_of_lookup in Hin as [i Hi'].
    destruct (Forall2_lookup_l _ _ _ _ _ Hall Hi') as (e' & He' & Hf').
    assert (e' = e) as -> by congruence.
    apply Hni, list_elem_of_fmap. exists e. split; [done|]. by eapply list_elem_of_lookup_2. }
  rewrite <-Hlen, <-size_dom. rewrite <-(size_list_to_set (C := gset nat) fs) by done.
  apply subseteq_size. intros f [i Hi']%elem_of_list_to_set%list_elem_of_lookup.
  destruct (Forall2_lookup_l _ _ _ _ _ Hall Hi') as (e' & _ & Hf'). by eapply elem_of_dom_2.
Qed.

End registration.
End Registration.
