(* ===== verification/LocalMutex.v ===== *)
(** * [LocalMutex] ([src/site_c/mutex.rs])

    [Module Mutex]: the lock, its futures and its guard, over any wait list that
    satisfies [WaitListLaws]. Operations that wake return the waker they fire.
    [sys] puts one mutex together with its live futures and guards; [exec] runs
    one event of the program that uses it. *)
From stdpp Require Import base list gmap numbers relations strings.
From S2P Require Import Prelude InlineQueue WaitList.

Module Mutex.
Section mutex.
Context `{Wakers} {T Q : Type} `{WaitList Q (Z * waker)}.

Abbreviation entry := (Z * waker)%type.

Record LocalMutex : Type := mkLocalMutex {
  locked : bool;
  waiters : Q;
  next_id : Z;
  value : T
}.

(** The [registered] field of a [LocalMutexLockFuture]. *)
Abbreviation LocalMutexLockFuture := (option entry).

(** ** Operations *)
Definition new (v : T) : LocalMutex := mkLocalMutex false wl_new 0 v.

Definition lock (m : LocalMutex) : LocalMutexLockFuture := None.

(** [true] stands for the guard. *)
Definition try_lock (m : LocalMutex) : bool * LocalMutex :=
  if negb (locked m) then (true, mkLocalMutex true (waiters m) (next_id m) (value m))
  else (false, mkLocalMutex true (waiters m) (next_id m) (value m)).

Definition is_locked (m : LocalMutex) : bool := locked m.

Definition into_inner (m : LocalMutex) : T := value m.

Definition wake_next (m : LocalMutex) : outcome (option waker * LocalMutex) :=
  if locked m then Done (None, m)
  else
    '(next, ws) ← wl_pop_front (waiters m);
    let m := mkLocalMutex (locked m) ws (next_id m) (value m) in
    match next with
    | Some (_, w) => Done (Some w, m)
    | None => Done (None, m)
    end.

Definition unlock (m : LocalMutex) : outcome (option waker * LocalMutex) :=
  wake_next (mkLocalMutex false (waiters m) (next_id m) (value m)).

Definition register (m : LocalMutex) (slot : option entry) (w : waker) :
    outcome (LocalMutex * option entry) :=
  '(ws, next, slot) ←
    Registration.register_in fst snd (waiters m) (next_id m) slot (fun id => (id, w)) w;
  Done (mkLocalMutex (locked m) ws next (value m), slot).

Definition deregister (m : LocalMutex) (slot : option entry) :
    outcome (LocalMutex * option entry) :=
  '(ws, slot) ← Registration.deregister_in fst (waiters m) slot;
  Done (mkLocalMutex (locked m) ws (next_id m) (value m), slot).

Definition poll (m : LocalMutex) (registered : LocalMutexLockFuture) (w : waker) :
    outcome (LocalMutex * LocalMutexLockFuture * Poll unit) :=
  let '(guard, m) := try_lock m in
  if (guard : bool) then
    '(m, registered) ← deregister m registered;
    Done (m, registered, Ready tt)
  else
    '(m, registered) ← register m registered w;
    let '(guard, m) := try_lock m in
    if (guard : bool) then
      '(m, registered) ← deregister m registered;
      Done (m, registered, Ready tt)
    else Done (m, registered, Pending).

Definition drop_future (m : LocalMutex) (registered : LocalMutexLockFuture) :
    outcome (option waker * LocalMutex) :=
  match registered with
  | Some _ => '(m, _) ← deregister m registered; wake_next m
  | None => Done (None, m)
  end.

(** [Deref], [DerefMut] and [Drop] of the guard. *)
Definition deref (m : LocalMutex) : T := value m.
Definition deref_mut (m : LocalMutex) (v : T) : LocalMutex :=
  mkLocalMutex (locked m) (waiters m) (next_id m) v.
Definition drop_guard (m : LocalMutex) : outcome (option waker * LocalMutex) := unlock m.

(** [Debug::fmt] reads the value under a guard it drops again. *)
Definition fmt (m : LocalMutex) : outcome (option waker * LocalMutex) :=
  let '(guard, m) := try_lock m in
  if (guard : bool) then drop_guard m else Done (None, m).

(** ** A program using the mutex *)
Record sys : Type := mkSys {
  mx : LocalMutex;
  futures : gmap nat LocalMutexLockFuture;
  since : gmap nat (list waker);
  guards : nat
}.

Inductive event : Type :=
| EvLock (f : nat)                 (* create a lock future *)
| EvPoll (f : nat) (w : waker)     (* poll it *)
| EvDropFuture (f : nat)           (* drop (cancel or discard) it *)
| EvTryLock
| EvWrite (v : T)                  (* store through a guard *)
| EvDropGuard
| EvFmt.

Definition init (v : T) : sys := mkSys (new v) ∅ ∅ 0.

(** Events that name no live future or guard are ignored. *)
Definition exec (s : sys) (ev : event) : outcome sys :=
  match ev with
  | EvLock f =>
      match futures s !! f with
      | Some _ => Done s
      | None =>
          Done (mkSys (mx s) (<[f := lock (mx s)]> (futures s)) (<[f := []]> (since s)) (guards s))
      end
  | EvPoll f w =>
      match futures s !! f with
      | None => Done s
      | Some slot =>
          '(m, slot, r) ← poll (mx s) slot w;
          Done (mkSys m (<[f := slot]> (futures s)) (<[f := []]> (since s))
                  (match r with Ready _ => S (guards s) | Pending => guards s end))
      end
  | EvDropFuture f =>
      match futures s !! f with
      | None => Done s
      | Some slot =>
          '(fired, m) ← drop_future (mx s) slot;
          Done (mkSys m (delete f (futures s))
                  (Registration.fire_opt fired (delete f (since s))) (guards s))
      end
  | EvTryLock =>
      let '(guard, m) := try_lock (mx s) in
      Done (mkSys m (futures s) (since s) (if (guard : bool) then S (guards s) else guards s))
  | EvWrite v =>
      match guards s with
      | 0 => Done s
      | _ => Done (mkSys (deref_mut (mx s) v) (futures s) (since s) (guards s))
      end
  | EvDropGuard =>
      match guards s with
      | 0 => Done s
      | S g =>
          '(fired, m) ← drop_guard (mx s);
          Done (mkSys m (futures s) (Registration.fire_opt fired (since s)) g)
      end
  | EvFmt =>
      '(fired, m) ← fmt (mx s);
      Done (mkSys m (futures s) (Registration.fire_opt fired (since s)) (guards s))
  end.

Fixpoint run (s : sys) (evs : list event) : outcome sys :=
  match evs with
  | [] => Done s
  | ev :: evs => s ← exec s ev; run s evs
  end.

(** ** Invariant *)
Context `{!WaitListLaws Q (Z * waker)}.

(** The wait list holds [es], in correspondence with the futures; at most [k]
    identifiers were handed out; one guard exists exactly when the lock is
    taken; and when the lock is free, a non-empty wait list implies that some
    live future has been popped and told. *)
Record inv (k : Z) (es : list entry) (s : sys) : Prop := {
  inv_repr : wl_repr (waiters (mx s)) es;
  inv_linked : Registration.linked fst es (futures s) (next_id (mx s));
  inv_told : Registration.told fst snd es (futures s) (since s);
  inv_next : (0 <= next_id (mx s) <= k)%Z;
  inv_guard : guards s = if locked (mx s) then 1 else 0;
  inv_turn : locked (mx s) = false -> es <> [] ->
    exists f e, futures s !! f = Some (Some e) /\ Registration.popped fst es e
}.

Lemma mutex_inv_init v : inv 0 [] (init v).
Proof.
  split; simpl; [apply wl_new_repr|apply Registration.linked_new|done|lia|done|done].
Qed.

(** [wake_next] on a free lock pops one waiter and tells it. *)
Lemma wake_next_spec m es slots since next :
  locked m = false -> wl_repr (waiters m) es ->
  Registration.linked fst es slots next -> Registration.told fst snd es slots since ->
  exists fired ws, wake_next m = Done (fired, mkLocalMutex false ws (next_id m) (value m)) /\
    wl_repr ws (tail es) /\
    Registration.linked fst (tail es) slots next /\
    Registration.told fst snd (tail es) slots (Registration.fire_opt fired since) /\
    (tail es <> [] -> exists f e, slots !! f = Some (Some e) /\
       Registration.popped fst (tail es) e).
Proof.
  intros Hl Hr Hlk Ht. unfold wake_next. rewrite Hl.
  destruct (wl_pop_front_repr _ es Hr) as (ws & -> & Hr'). outcome_simpl.
  destruct (Registration.told_pop_front fst snd es slots since next Hlk Ht) as (Hlk' & Ht' & Hturn).
  exists (snd <$> head es), ws. destruct es as [|[id w] es]; (split; [done|]); split_and!; try done.
  intros _. by apply Hturn.
Qed.

Lemma mutex_inv_poll k es s f w slot :
  inv k es s -> (k < usize_max)%Z -> futures s !! f = Some slot ->
  exists m slot' r es',
    poll (mx s) slot w = Done (m, slot', r) /\
    inv (k + 1) es' (mkSys m (<[f := slot']> (futures s)) (<[f := []]> (since s))
      (match r with Ready _ => S (guards s) | Pending => guards s end)) /\
    (locked (mx s) = false <-> r = Ready tt).
Proof.
  intros [Hr Hl Ht Hn Hg Hturn] Hk Hf. unfold poll, try_lock. destruct (locked (mx s)) eqn:Elk.
  - unfold register. cbn [negb waiters next_id].
    destruct (Registration.register_in_repr fst snd _ es (next_id (mx s)) slot (fun id => (id, w)) w Hr)
      as (ws & -> & Hr'). outcome_simpl. cbn [locked negb].
    pose proof (Registration.linked_register fst snd es (futures s) (next_id (mx s)) f slot
      (fun id => (id, w)) w (fun _ => eq_refl)) as Hl'.
    pose proof (Registration.told_register fst snd es (futures s) (since s) (next_id (mx s)) f slot
      (fun id => (id, w)) w (fun _ => eq_refl)) as Ht'.
    destruct (Registration.register_abs fst snd es (next_id (mx s)) slot (fun id => (id, w)) w)
      as [[es' nx'] slot'].
    destruct Hl' as [Hl' Hn']; [lia|done|done|]. destruct Ht' as [Ht' _]; [lia|done..|].
    eexists _, slot', Pending, es'. split; [done|].
    split; [|by split]. split; simpl in *; try done. lia.
  - cbn [negb]. unfold deregister. cbn [waiters].
    destruct (Registration.deregister_in_repr fst _ es slot Hr) as (ws & -> & Hr'). outcome_simpl.
    eexists _, None, (Ready tt), _. split; [done|]. split; [|done]. split; simpl.
    + done.
    + by eapply Registration.linked_deregister.
    + by eapply Registration.told_deregister.
    + lia.
    + by rewrite Hg.
    + done.
Qed.

Lemma mutex_inv_drop_future k es s f slot :
  inv k es s -> futures s !! f = Some slot ->
  exists fired m es', drop_future (mx s) slot = Done (fired, m) /\
    inv k es' (mkSys m (delete f (futures s))
      (Registration.fire_opt fired (delete f (since s))) (guards s)).
Proof.
  intros [Hr Hl Ht Hn Hg Hturn] Hf. unfold drop_future, deregister.
  pose proof (Registration.linked_deregister fst es _ _ f slot Hl Hf) as Hl'.
  pose proof (Registration.told_deregister fst snd es _ _ _ f slot Hl Hf Ht) as Ht'.
  apply (Registration.linked_delete _ _ _ _ f) in Hl'; [|apply lookup_insert_eq].
  apply (Registration.told_delete _ _ _ _ _ f) in Ht'.
  rewrite delete_insert_eq in Hl'. rewrite !delete_insert_eq in Ht'.
  destruct slot as [e|].
  - destruct (Registration.deregister_in_repr fst _ es (Some e) Hr) as (ws & -> & Hr'). outcome_simpl.
    destruct (locked (mx s)) eqn:Elk.
    + unfold wake_next. cbn [locked]. eexists None, _, _. split; [done|]. by split; simpl.
    + destruct (wake_next_spec (mkLocalMutex false ws (next_id (mx s)) (value (mx s))) _ _ _ _
        eq_refl Hr' Hl' Ht') as (fired & ws' & -> & Hr2 & Hl2 & Ht2 & Hturn2).
      eexists fired, _, _. split; [done|]. by split; simpl.
  - eexists None, _, es. split; [done|]. split; simpl in *; try done.
    intros Hlk Hes. destruct (Hturn Hlk Hes) as (g & e & Hg' & Hp). exists g, e.
    rewrite lookup_delete_ne; [done|]. intros <-. simplify_eq.
Qed.

Lemma mutex_inv_exec k es s ev :
  inv k es s -> (k < usize_max)%Z -> exists s' es', exec s ev = Done s' /\ inv (k + 1) es' s'.
Proof.
  intros Hinv Hk. assert (inv (k + 1) es s) as Hinv' by (destruct Hinv; split; try done; lia).
  destruct ev as [f|f w|f| |v| |]; cbn [exec].
  - destruct (futures s !! f) eqn:Hf; [by exists s, es|]. eexists _, es. split; [done|].
    destruct Hinv' as [Hr Hl Ht Hn Hg Hturn]. split; simpl; try done.
    + by apply Registration.linked_add.
    + by apply Registration.told_add.
    + intros Hlk Hes. destruct (Hturn Hlk Hes) as (g & e & Hg' & Hp). exists g, e.
      rewrite lookup_insert_ne; [done|]. intros <-. simplify_eq.
  - destruct (futures s !! f) as [slot|] eqn:Hf; [|by exists s, es].
    destruct (mutex_inv_poll k es s f w slot Hinv Hk Hf) as (m & slot' & r & es' & -> & ? & _).
    by eexists _, es'.
  - destruct (futures s !! f) as [slot|] eqn:Hf; [|by exists s, es].
    destruct (mutex_inv_drop_future _ es s f slot Hinv' Hf) as (fired & m & es' & -> & ?).
    by eexists _, es'.
  - destruct Hinv' as [Hr Hl Ht Hn Hg Hturn]. unfold try_lock.
    destruct (locked (mx s)) eqn:Elk; cbn [negb]; (eexists _, es; split; [done|]); split; simpl; try done.
    by rewrite Hg.
  - pose proof Hinv' as [Hr Hl Ht Hn Hg Hturn]. destruct (guards s) eqn:Eg; [by exists s, es|].
    eexists _, es. split; [done|]. by split.
  - pose proof Hinv' as [Hr Hl Ht Hn Hg Hturn]. destruct (guards s) eqn:Eg; [by exists s, es|].
    destruct (wake_next_spec (mkLocalMutex false (waiters (mx s)) (next_id (mx s)) (value (mx s)))
      es _ _ _ eq_refl Hr Hl Ht) as (fired & ws & Hw & Hr2 & Hl2 & Ht2 & Hturn2).
    unfold drop_guard, unlock. rewrite Hw. outcome_simpl. eexists _, _. split; [done|].
    split; simpl; try done. destruct (locked (mx s)); lia.
  - destruct Hinv' as [Hr Hl Ht Hn Hg Hturn]. unfold fmt, try_lock.
    destruct (locked (mx s)) eqn:Elk; cbn [negb].
    + eexists _, es. split; [done|]. by split.
    + destruct (wake_next_spec (mkLocalMutex false (waiters (mx s)) (next_id (mx s)) (value (mx s)))
        es _ _ _ eq_refl Hr Hl Ht) as (fired & ws & Hw & Hr2 & Hl2 & Ht2 & Hturn2).
      unfold drop_guard, unlock. cbn [waiters next_id value]. rewrite Hw. outcome_simpl. eexists _, _. split; [done|].
      by split.
Qed.

Lemma mutex_run_inv evs k es s :
  inv k es s -> (k + Z.of_nat (length evs) <= usize_max)%Z ->
  exists s' es', run s evs = Done s' /\ inv (k + Z.of_nat (length evs)) es' s'.
Proof.
  revert k es s. induction evs as [|ev evs IH]; intros k es s Hinv Hk; cbn [run length] in *.
  - exists s, es. split; [done|]. by rewrite Z.add_0_r.
  - destruct (mutex_inv_exec k es s ev Hinv) as (s1 & es1 & -> & Hinv1); [lia|]. outcome_simpl.
    destruct (IH (k + 1)%Z es1 s1 Hinv1) as (s2 & es2 & -> & Hinv2); [lia|].
    exists s2, es2. split; [done|]. by replace (k + Z.of_nat (S (length evs)))%Z with (k + 1 + Z.of_nat (length evs))%Z by lia.
Qed.

End mutex.
Arguments sys {_} T Q.
Arguments event {_} T.
Arguments LocalMutex T Q : clear implicits.

(** ** Properties *)
Section properties.
Context `{Wakers} {T Q : Type} `{WaitList Q (Z * waker), !WaitListLaws Q (Z * waker)}.

(** C22: mutual exclusion. Whatever fewer than [2^64] calls the program makes
    (creating, polling and cancelling futures in any order and with any wakers,
    [try_lock], guard drops), no call panics or hits undefined behaviour, at
    most one guard is alive, and one is alive exactly when the mutex is locked. *)
Theorem mutex_mutual_exclusion (v : T) (evs : list (event T)) :
  (Z.of_nat (length evs) <= usize_max)%Z ->
  exists s : sys T Q, run (init v) evs = Done s /\ guards s <= 1 /\
    (guards s = 1 <-> is_locked (mx s) = true).
Proof.
  intros Hlen. destruct (mutex_run_inv evs 0 [] (init v) (mutex_inv_init v) Hlen) as (s & es & -> & Hinv).
  exists s. split; [done|]. pose proof (inv_guard _ _ _ Hinv) as Hg. unfold is_locked.
  destruct (locked (mx s)); rewrite Hg; split; lia || done.
Qed.

(** C23: no wakeup is lost, under cancellation and barging. Whenever the mutex is
    free while a future is queued, there is a live registered future, not in
    the queue, whose most recent waker has been fired since its last poll, and
    polling that future acquires the lock. *)
Theorem mutex_no_lost_wakeup (v : T) (evs : list (event T)) (s : sys T Q) (es : list (Z * waker))
    (w : waker) :
  (Z.of_nat (length evs) < usize_max)%Z ->
  run (init v) evs = Done s -> wl_iter (waiters (mx s)) = Done es ->
  is_locked (mx s) = false -> es <> [] ->
  exists f e ws, futures s !! f = Some (Some e) /\ (e.1 ∉ es.*1) /\
    since s !! f = Some ws /\ e.2 ∈ ws /\
    exists m slot, poll (mx s) (Some e) w = Done (m, slot, Ready tt).
Proof.
  intros Hlen Hrun Hiter Hfree Hne.
  destruct (mutex_run_inv evs 0 [] (init v) (mutex_inv_init v)) as (s' & es' & Hrun' & Hinv); [lia|].
  rewrite Hrun in Hrun'. injection Hrun' as <-.
  pose proof (wl_iter_repr _ _ (inv_repr _ _ _ Hinv)) as Hit. rewrite Hiter in Hit.
  injection Hit as <-. destruct (inv_turn _ _ _ Hinv Hfree Hne) as (f & e & Hf & Hp).
  destruct (inv_told _ _ _ Hinv) as [_ Ht]. destruct (Ht f e Hf) as [He|[_ (ws & Hws & Hw)]].
  { exfalso. apply Hp, list_elem_of_fmap. by exists e. }
  exists f, e, ws. split_and!; try done.
  destruct (mutex_inv_poll _ es s f w (Some e) Hinv) as (m & slot & r & _ & Hpoll & _ & Hr); [lia|done|].
  exists m, slot. by rewrite Hpoll, (proj1 Hr Hfree).
Qed.

(** Registrations do not accumulate. The queue never holds more entries than
    there are live futures, however often each is polled, and dropping every
    future leaves it empty: a cancelled future leaves no waker behind. *)
Theorem mutex_waiters_bounded (v : T) (evs : list (event T)) (s : sys T Q) (es : list (Z * waker)) :
  (Z.of_nat (length evs) <= usize_max)%Z ->
  run (init v) evs = Done s -> wl_iter (waiters (mx s)) = Done es ->
  NoDup (es.*1) /\ length es <= size (futures s).
Proof.
  intros Hlen Hrun Hiter.
  destruct (mutex_run_inv evs 0 [] (init v) (mutex_inv_init v) Hlen) as (s' & es' & Hrun' & Hinv).
  rewrite Hrun in Hrun'. injection Hrun' as <-.
  pose proof (wl_iter_repr _ _ (inv_repr _ _ _ Hinv)) as Hit. rewrite Hiter in Hit.
  injection Hit as <-. pose proof (inv_linked _ _ _ Hinv) as Hl.
  split; [by apply (Registration.linked_nodup _ _ _ _ Hl)|by eapply Registration.linked_length].
Qed.
End properties.

(** Two tasks contend, the woken one is cancelled, and the turn passes on. *)
#[local] Instance nat_wakers : Wakers := {| waker := nat; will_wake := Nat.eqb |}.

Definition demo_events : list (event nat) :=
  [EvTryLock; EvLock 0; EvLock 1; EvLock 2; EvPoll 0 10; EvPoll 1 11; EvPoll 2 12;
   EvDropGuard; EvDropFuture 0].

Lemma mutex_mutual_exclusion_witness :
  exists s : sys nat (Queue.QueueInternal (Z * nat)),
    run (init 5) demo_events = Done s /\ guards s <= 1 /\
    (guards s = 1 <-> is_locked (mx s) = true).
Proof. apply mutex_mutual_exclusion. vm_compute. discriminate. Defined.

Definition demo_final : sys nat (Queue.QueueInternal (Z * nat)) :=
  Eval vm_compute in
    match run (init 5) demo_events with Done s => s | _ => init 5 end.

Lemma mutex_no_lost_wakeup_witness :
  exists f e ws, futures demo_final !! f = Some (Some e) /\ (e.1 ∉ [2%Z]) /\
    since demo_final !! f = Some ws /\ e.2 ∈ ws /\
    exists m slot, poll (mx demo_final) (Some e) 3 = Done (m, slot, Ready tt).
Proof.
  apply (mutex_no_lost_wakeup (Q := Queue.QueueInternal (Z * nat)) 5 demo_events demo_final
    [(2%Z, 12)] 3); by vm_compute.
Defined.

Lemma mutex_waiters_bounded_witness :
  NoDup ([(2%Z, 12)].*1) /\ length [(2%Z, 12)] <= size (futures demo_final).
Proof.
  apply (mutex_waiters_bounded (Q := Queue.QueueInternal (Z * nat)) 5 demo_events demo_final);
    by vm_compute.
Defined.
End Mutex.
