(* ===== verification/LocalSemaphore.v ===== *)
(** * [LocalSemaphore] ([src/site_c/semaphore.rs])

    [Module Semaphore]: the counting semaphore, its [Acquire] future and its
    [Permit], over any wait list that satisfies [WaitListLaws]. An entry of the
    wait list is [(token, n, waker)]. [sys] is a program using one semaphore;
    [total] tracks the permits ever put into it, less the forgotten ones. *)
From stdpp Require Import base list gmap numbers relations strings.
From S2P Require Import Prelude InlineQueue WaitList.

Module Semaphore.
Section semaphore.
Context `{Wakers} {Q : Type} `{WaitList Q (Z * Z * waker)}.

Abbreviation entry := (Z * Z * waker)%type.

Definition entry_id (e : entry) : Z := e.1.1.
Definition entry_n (e : entry) : Z := e.1.2.
Definition entry_waker (e : entry) : waker := e.2.

Record LocalSemaphore : Type := mkSem {
  permits : Z;
  waiters : Q;
  next_id : Z
}.

Record Acquire : Type := mkAcquire {
  acq_n : Z;
  registered : option entry
}.

(** ** Operations *)
Definition new (n : Z) : LocalSemaphore := mkSem n wl_new 0.

Definition available (s : LocalSemaphore) : Z := permits s.

(** [Some n] is a [Permit] for [n]. *)
Definition try_acquire_many (s : LocalSemaphore) (n : Z) : option Z * LocalSemaphore :=
  let p := permits s in
  if (n <=? p)%Z then (Some n, mkSem (p - n) (waiters s) (next_id s)) else (None, s).

Definition try_acquire (s : LocalSemaphore) : option Z * LocalSemaphore := try_acquire_many s 1.

Definition acquire_many (s : LocalSemaphore) (n : Z) : Acquire := mkAcquire n None.

Definition acquire (s : LocalSemaphore) : Acquire := acquire_many s 1.

Definition bump_permits (s : LocalSemaphore) (n : Z) : outcome LocalSemaphore :=
  match checked_add (permits s) n with
  | Some p => Done (mkSem p (waiters s) (next_id s))
  | None => Panicked "LocalSemaphore permit count overflow"
  end.

Definition can_acquire_fair (s : LocalSemaphore) (n : Z) (id : option Z) : outcome bool :=
  if (permits s <? n)%Z then Done false
  else
    front ← wl_front (waiters s);
    match front with
    | None => Done true
    | Some e => Done (bool_decide (Some (entry_id e) = id))
    end.

(** The waker fired, if any; the front entry stays queued. *)
Definition wake_next (s : LocalSemaphore) : outcome (option waker) :=
  front ← wl_front (waiters s);
  match front with
  | None => Done None
  | Some e => if (permits s <? entry_n e)%Z then Done None else Done (Some (entry_waker e))
  end.

Definition add_permits (s : LocalSemaphore) (n : Z) : outcome (option waker * LocalSemaphore) :=
  s ← bump_permits s n;
  if negb (wl_is_empty (waiters s)) then w ← wake_next s; Done (w, s) else Done (None, s).

Definition release (s : LocalSemaphore) (n : Z) : outcome (option waker * LocalSemaphore) :=
  s ← bump_permits s n;
  if negb (wl_is_empty (waiters s)) then w ← wake_next s; Done (w, s) else Done (None, s).

Definition register (s : LocalSemaphore) (slot : option entry) (n : Z) (w : waker) :
    outcome (LocalSemaphore * option entry) :=
  '(ws, next, slot) ←
    Registration.register_in entry_id entry_waker (waiters s) (next_id s) slot
      (fun id => (id, n, w)) w;
  Done (mkSem (permits s) ws next, slot).

Definition deregister (s : LocalSemaphore) (slot : option entry) :
    outcome (LocalSemaphore * option entry) :=
  '(ws, slot) ← Registration.deregister_in entry_id (waiters s) slot;
  Done (mkSem (permits s) ws (next_id s), slot).

(** The successful end of [poll]: take the permits, deregister, cascade. *)
Definition grant (s : LocalSemaphore) (a : Acquire) :
    outcome (LocalSemaphore * Acquire * option waker * Poll Z) :=
  let s := mkSem (permits s - acq_n a) (waiters s) (next_id s) in
  '(s, slot) ← deregister s (registered a);
  w ← wake_next s;
  Done (s, mkAcquire (acq_n a) slot, w, Ready (acq_n a)).

Definition poll (s : LocalSemaphore) (a : Acquire) (w : waker) :
    outcome (LocalSemaphore * Acquire * option waker * Poll Z) :=
  let id := entry_id <$> registered a in
  ok ← can_acquire_fair s (acq_n a) id;
  if (ok : bool) then grant s a
  else
    '(s, slot) ← register s (registered a) (acq_n a) w;
    let a := mkAcquire (acq_n a) slot in
    let id := entry_id <$> registered a in
    ok ← can_acquire_fair s (acq_n a) id;
    if (ok : bool) then grant s a
    else Done (s, a, None, Pending).

Definition drop_future (s : LocalSemaphore) (a : Acquire) :
    outcome (option waker * LocalSemaphore) :=
  match registered a with
  | Some _ => '(s, _) ← deregister s (registered a); w ← wake_next s; Done (w, s)
  | None => Done (None, s)
  end.

Definition count (permit : Z) : Z := permit.
Definition drop_permit (s : LocalSemaphore) (permit : Z) : outcome (option waker * LocalSemaphore) :=
  release s permit.

(** ** A program using the semaphore *)
Record sys : Type := mkSys {
  sem : LocalSemaphore;
  futures : gmap nat Acquire;
  since : gmap nat (list waker);
  held : list Z;                 (* the live [Permit]s *)
  total : Z
}.

Inductive event : Type :=
| EvAcquire (f : nat) (n : N)      (* create an [acquire_many(n)] future *)
| EvPoll (f : nat) (w : waker)
| EvDropFuture (f : nat)
| EvTryAcquire (n : N)
| EvAddPermits (n : N)
| EvDropPermit (i : nat)
| EvForget (i : nat).

Definition init (n : Z) : sys := mkSys (new n) ∅ ∅ [] n.

Definition exec (s : sys) (ev : event) : outcome sys :=
  match ev with
  | EvAcquire f n =>
      match futures s !! f with
      | Some _ => Done s
      | None =>
          Done (mkSys (sem s) (<[f := acquire_many (sem s) (Z.of_N n)]> (futures s))
                  (<[f := []]> (since s)) (held s) (total s))
      end
  | EvPoll f w =>
      match futures s !! f with
      | None => Done s
      | Some a =>
          '(se, a, fired, r) ← poll (sem s) a w;
          Done (mkSys se (<[f := a]> (futures s))
                  (Registration.fire_opt fired (<[f := []]> (since s)))
                  (match r with Ready n => n :: held s | Pending => held s end) (total s))
      end
  | EvDropFuture f =>
      match futures s !! f with
      | None => Done s
      | Some a =>
          '(fired, se) ← drop_future (sem s) a;
          Done (mkSys se (delete f (futures s))
                  (Registration.fire_opt fired (delete f (since s))) (held s) (total s))
      end
  | EvTryAcquire n =>
      let '(permit, se) := try_acquire_many (sem s) (Z.of_N n) in
      Done (mkSys se (futures s) (since s)
              (match permit with Some n => n :: held s | None => held s end) (total s))
  | EvAddPermits n =>
      '(fired, se) ← add_permits (sem s) (Z.of_N n);
      Done (mkSys se (futures s) (Registration.fire_opt fired (since s)) (held s)
              (total s + Z.of_N n))
  | EvDropPermit i =>
      match held s !! i with
      | None => Done s
      | Some n =>
          '(fired, se) ← drop_permit (sem s) n;
          Done (mkSys se (futures s) (Registration.fire_opt fired (since s))
                  (delete i (held s)) (total s))
      end
  | EvForget i =>
      match held s !! i with
      | None => Done s
      | Some n =>
          Done (mkSys (sem s) (futures s) (since s) (delete i (held s)) (total s - count n))
      end
  end.

Fixpoint run (s : sys) (evs : list event) : outcome sys :=
  match evs with
  | [] => Done s
  | ev :: evs => s ← exec s ev; run s evs
  end.

(** The permits a program adds. *)
Fixpoint added (evs : list event) : Z :=
  match evs with
  | [] => 0
  | EvAddPermits n :: evs => Z.of_N n + added evs
  | _ :: evs => added evs
  end.

Definition zsum (l : list Z) : Z := foldr Z.add 0%Z l.

(** ** On the list of entries *)
Definition fair_abs (es : list entry) (p n : Z) (id : option Z) : bool :=
  (n <=? p)%Z && match es with [] => true | e :: _ => bool_decide (Some (entry_id e) = id) end.

Definition wake_abs (es : list entry) (p : Z) : option waker :=
  match es with
  | [] => None
  | e :: _ => if (p <? entry_n e)%Z then None else Some (entry_waker e)
  end.

Abbreviation slots_of s := (registered <$> futures s).

Context `{!WaitListLaws Q (Z * Z * waker)}.

Record inv (k : Z) (es : list entry) (s : sys) : Prop := {
  inv_repr : wl_repr (waiters (sem s)) es;
  inv_linked : Registration.linked entry_id es (slots_of s) (next_id (sem s));
  inv_queued f e : slots_of s !! f = Some (Some e) -> e ∈ es;
  inv_since : dom (since s) = dom (futures s);
  inv_next : (0 <= next_id (sem s) <= k)%Z;
  inv_n f a e : futures s !! f = Some a -> registered a = Some e -> entry_n e = acq_n a;
  inv_n_pos f a : futures s !! f = Some a -> (0 <= acq_n a)%Z;
  inv_held : Forall (fun n => 0 <= n)%Z (held s);
  inv_sum : (permits (sem s) + zsum (held s))%Z = total s;
  inv_permits : (0 <= permits (sem s))%Z
}.

(** The front waiter is told as soon as it can be satisfied. *)
Definition front_told (es : list entry) (s : sys) : Prop :=
  forall e es', es = e :: es' -> (entry_n e <= permits (sem s))%Z ->
    exists f ws, slots_of s !! f = Some (Some e) /\ since s !! f = Some ws /\ entry_waker e ∈ ws.

(** The runtime recognises the waker a registered future is re-polled with. *)
Definition recognised (s : sys) (ev : event) : Prop :=
  match ev with
  | EvPoll f w =>
      match futures s !! f ≫= registered with
      | Some e => will_wake (entry_waker e) w = true
      | None => True
      end
  | _ => True
  end.

(** ** Lemmas *)
Lemma recognised_poll s f w a e :
  recognised s (EvPoll f w) -> futures s !! f = Some a -> registered a = Some e ->
  will_wake (entry_waker e) w = true.
Proof. simpl. intros Hrec Hf Ha. rewrite Hf in Hrec. simpl in Hrec. by rewrite Ha in Hrec. Qed.

Lemma can_acquire_fair_repr s es n id :
  wl_repr (waiters s) es -> can_acquire_fair s n id = Done (fair_abs es (permits s) n id).
Proof.
  intros Hr. unfold can_acquire_fair, fair_abs. rewrite (wl_front_repr _ es Hr).
  destruct (permits s <? n)%Z eqn:E, (n <=? permits s)%Z eqn:E'; bool_props; try lia; try done.
  by destruct es.
Qed.

Lemma semaphore_wake_next_repr s es :
  wl_repr (waiters s) es -> wake_next s = Done (wake_abs es (permits s)).
Proof.
  intros Hr. unfold wake_next, wake_abs. rewrite (wl_front_repr _ es Hr).
  destruct es as [|e es]; outcome_simpl; [done|]. simpl. by case_tests.
Qed.

Lemma release_repr s es n :
  wl_repr (waiters s) es -> (permits s + n <= usize_max)%Z ->
  release s n = Done (wake_abs es (permits s + n), mkSem (permits s + n) (waiters s) (next_id s)).
Proof.
  intros Hr Hle. unfold release, bump_permits, checked_add.
  rewrite (proj2 (Z.leb_le _ _)) by done. outcome_simpl. cbn [waiters].
  rewrite (wl_is_empty_repr _ es Hr). destruct es as [|e es]; simpl negb; cbn iota; [done|].
  by erewrite semaphore_wake_next_repr by exact Hr.
Qed.

Lemma add_permits_release s n : add_permits s n = release s n.
Proof. done. Qed.

Lemma front_of_fair es p n id e :
  fair_abs es p n id = false -> (n <= p)%Z -> head es = Some e -> Some (entry_id e) <> id.
Proof.
  unfold fair_abs. intros Hf Hp Hh. rewrite (proj2 (Z.leb_le _ _)) in Hf by done.
  destruct es; simplify_eq/=. by apply bool_decide_eq_false in Hf.
Qed.

(** Registering does not make an unfair request fair: the re-check after
    [register] fails whenever the first check failed. *)
Lemma fair_after_register es slots next f a w :
  Registration.linked entry_id es slots next -> slots !! f = Some (registered a) ->
  forall p, fair_abs es p (acq_n a) (entry_id <$> registered a) = false ->
  let r := Registration.register_abs entry_id entry_waker es next (registered a)
             (fun id => (id, acq_n a, w)) w in
  fair_abs r.1.1 p (acq_n a) (entry_id <$> r.2) = false.
Proof.
  intros Hl Hf p Hfair. destruct (decide (acq_n a <= p)%Z) as [Hle|Hgt]; cycle 1.
  { unfold fair_abs. simpl. by rewrite (proj2 (Z.leb_gt _ _)) by lia. }
  destruct es as [|e0 es0].
  { unfold fair_abs in Hfair. by rewrite (proj2 (Z.leb_le _ _)) in Hfair by done. }
  pose proof (front_of_fair _ _ _ _ e0 Hfair Hle eq_refl) as Hne.
  unfold Registration.register_abs.
  destruct (Registration.still_queued _ _ _ _ _); [done|].
  assert (exists id next', match registered a with Some e => (entry_id e, next)
    | None => (next, wrapping_add next 1) end = (id, next') /\ entry_id e0 <> id)
    as (id & next' & -> & Hid).
  { destruct (registered a) as [e|]; eexists _, _; (split; [done|]).
    - simpl in Hne. congruence.
    - intros Heq. apply (Registration.linked_fresh entry_id _ _ _ Hl). rewrite <-Heq. by left. }
  unfold Registration.remove_id. simpl. rewrite (proj2 (Z.eqb_neq _ _)) by done.
  unfold fair_abs. simpl. rewrite bool_decide_eq_false_2; [by rewrite andb_false_r|].
  cbn. congruence.
Qed.

Lemma grant_repr s es a :
  wl_repr (waiters s) es ->
  exists ws, grant s a = Done (mkSem (permits s - acq_n a) ws (next_id s), mkAcquire (acq_n a) None,
      wake_abs (Registration.deregister_abs entry_id es (registered a)) (permits s - acq_n a),
      Ready (acq_n a)) /\
    wl_repr ws (Registration.deregister_abs entry_id es (registered a)).
Proof.
  intros Hr. unfold grant, deregister. cbn [waiters permits next_id].
  destruct (Registration.deregister_in_repr entry_id _ es (registered a) Hr) as (ws & -> & Hr').
  outcome_simpl. exists ws. split; [|done].
  by erewrite semaphore_wake_next_repr by exact Hr'.
Qed.

Lemma poll_repr s es slots f a w :
  wl_repr (waiters s) es -> Registration.linked entry_id es slots (next_id s) ->
  slots !! f = Some (registered a) ->
  if fair_abs es (permits s) (acq_n a) (entry_id <$> registered a) then
    poll s a w = grant s a
  else
    let r := Registration.register_abs entry_id entry_waker es (next_id s) (registered a)
               (fun id => (id, acq_n a, w)) w in
    exists ws, wl_repr ws r.1.1 /\
      poll s a w = Done (mkSem (permits s) ws r.1.2, mkAcquire (acq_n a) r.2, None, Pending).
Proof.
  intros Hr Hl Hf. unfold poll. rewrite (can_acquire_fair_repr s es) by done. outcome_simpl.
  destruct (fair_abs es _ _ _) eqn:Hfair; [done|]. unfold register.
  destruct (Registration.register_in_repr entry_id entry_waker _ es (next_id s) (registered a)
    (fun id => (id, acq_n a, w)) w Hr) as (ws & -> & Hr'). outcome_simpl.
  erewrite can_acquire_fair_repr by exact Hr'. outcome_simpl. cbn [permits acq_n registered].
  rewrite (fair_after_register es slots (next_id s) f a w Hl Hf _ Hfair). by exists ws.
Qed.

(** Firing [wake_next] establishes [front_told]. *)
Lemma wake_front_told es s since0 :
  Registration.linked entry_id es (slots_of s) (next_id (sem s)) ->
  dom since0 = dom (futures s) ->
  since s = Registration.fire_opt (wake_abs es (permits (sem s))) since0 -> front_told es s.
Proof.
  intros Hl Hd Hs e es' -> Hn. simpl in Hs. rewrite (proj2 (Z.ltb_ge _ _)) in Hs by done.
  destruct (Registration.linked_owner _ _ _ _ Hl e) as [f Hf]; [by left|].
  rewrite lookup_fmap in Hf. destruct (futures s !! f) as [a|] eqn:Hfa; simplify_eq/=.
  assert (is_Some (since0 !! f)) as [ws Hws].
  { apply elem_of_dom. rewrite Hd. by eapply elem_of_dom_2. }
  exists f, (ws ++ [entry_waker e]). rewrite lookup_fmap, Hfa. simpl. split; [by f_equal|].
  rewrite Hs. unfold Registration.fire_opt, Registration.fire. rewrite lookup_fmap, Hws.
  split; [done|]. apply elem_of_app. right. by apply list_elem_of_singleton.
Qed.

Lemma dom_fire_opt o (m : gmap nat (list waker)) : dom (Registration.fire_opt o m) = dom m.
Proof. destruct o; [|done]. unfold Registration.fire_opt, Registration.fire. by rewrite dom_fmap_L. Qed.

Lemma zsum_delete l i n : l !! i = Some n -> zsum l = (n + zsum (delete i l))%Z.
Proof.
  revert i. induction l as [|x l IH]; intros [|i] Hi; simplify_eq/=; [done|].
  rewrite (IH i Hi). lia.
Qed.

Lemma zsum_nonneg l : Forall (fun n => 0 <= n)%Z l -> (0 <= zsum l)%Z.
Proof. induction 1; simpl; lia. Qed.

Lemma Forall_delete_Z (P : Z -> Prop) l i : Forall P l -> Forall P (delete i l).
Proof. intros Hl. rewrite delete_take_drop. apply Forall_app. split; [by apply Forall_take|by apply Forall_drop]. Qed.

Lemma semaphore_inv_init n : (0 <= n)%Z -> inv 0 [] (init n).
Proof.
  intros Hn. split; simpl; rewrite ?fmap_empty; try done; try lia.
  - apply wl_new_repr.
  - apply Registration.linked_new.
Qed.

(** One event: it does not fault, keeps the invariant, and keeps [front_told]
    when wakers are recognised. *)
Definition step_ok (k : Z) (es : list entry) (s : sys) (ev : event) : Prop :=
  exists s' es', exec s ev = Done s' /\ inv (k + 1) es' s' /\
    (total s' <= total s + added [ev])%Z /\
    (recognised s ev -> front_told es s -> front_told es' s').

Lemma semaphore_inv_weaken k es s : inv k es s -> inv (k + 1) es s.
Proof. intros []. split; try done. lia. Qed.

Lemma step_ignored k es s ev :
  inv k es s -> exec s ev = Done s -> (0 <= added [ev])%Z -> step_ok k es s ev.
Proof. intros Hinv He Ha. exists s, es. split; [done|]. split; [by apply semaphore_inv_weaken|]. split; [lia|done]. Qed.

Lemma slots_lookup s f a : futures s !! f = Some a -> slots_of s !! f = Some (registered a).
Proof. intros Hf. by rewrite lookup_fmap, Hf. Qed.

Lemma step_acquire k es s f n : inv k es s -> step_ok k es s (EvAcquire f n).
Proof.
  intros Hinv. destruct (futures s !! f) as [a|] eqn:Hf.
  { apply step_ignored; [done| |done]. simpl. by rewrite Hf. }
  pose proof (semaphore_inv_weaken _ _ _ Hinv) as [Hr Hl Hq Hd Hn Hen Hnp Hh Hs Hp].
  eexists _, es. cbn [exec]. rewrite Hf. split; [done|].
  assert (slots_of s !! f = None) as Hf' by by rewrite lookup_fmap, Hf.
  split; [|split; [simpl; lia|]].
  - split; simpl; rewrite ?fmap_insert; try done.
    + by apply Registration.linked_add.
    + intros f' e [[??]|[? Hf1]]%lookup_insert_Some; [done|by eapply Hq].
    + by rewrite !dom_insert_L, Hd.
    + intros f' a e [[? <-]|[? Hf1]]%lookup_insert_Some; [done|by eapply Hen].
    + intros f' a [[? <-]|[? Hf1]]%lookup_insert_Some; [simpl; lia|by eapply Hnp].
  - intros _ Hft e es' He Hle. destruct (Hft e es' He Hle) as (f' & ws & Hf1 & Hws & Hin).
    assert (f' <> f) by congruence. exists f', ws. simpl.
    by rewrite fmap_insert, !lookup_insert_ne.
Qed.

Lemma step_poll_ready k es s f a w :
  inv k es s -> futures s !! f = Some a ->
  fair_abs es (permits (sem s)) (acq_n a) (entry_id <$> registered a) = true ->
  step_ok k es s (EvPoll f w).
Proof.
  intros Hinv Hf Hfair. pose proof (semaphore_inv_weaken _ _ _ Hinv) as [Hr Hl Hq Hd Hn Hen Hnp Hh Hs Hp].
  pose proof (slots_lookup s f a Hf) as Hsf.
  pose proof (poll_repr (sem s) es _ f a w Hr Hl Hsf) as Hpoll. rewrite Hfair in Hpoll.
  destruct (grant_repr (sem s) es a Hr) as (ws & Hgrant & Hr').
  assert (acq_n a <= permits (sem s))%Z as Hle.
  { unfold fair_abs in Hfair. apply andb_true_iff in Hfair as [? _]. by bool_props. }
  eexists _, _. cbn [exec]. rewrite Hf, Hpoll, Hgrant. split; [done|].
  pose proof (Registration.linked_deregister entry_id es _ _ f (registered a) Hl Hsf) as Hl'.
  assert (inv (k + 1) (Registration.deregister_abs entry_id es (registered a))
    (mkSys (mkSem (permits (sem s) - acq_n a) ws (next_id (sem s)))
       (<[f := mkAcquire (acq_n a) None]> (futures s))
       (Registration.fire_opt (wake_abs (Registration.deregister_abs entry_id es (registered a))
          (permits (sem s) - acq_n a)) (<[f := []]> (since s)))
       (acq_n a :: held s) (total s))) as Hinv'.
  { split; simpl; rewrite ?fmap_insert, ?dom_fire_opt; try done.
    - intros g e [[??]|[? Hg]]%lookup_insert_Some; [done|].
      by eapply Registration.deregister_keeps; eauto.
    - by rewrite !dom_insert_L, Hd.
    - intros g b e [[? <-]|[? Hg]]%lookup_insert_Some; [done|by eapply Hen].
    - intros g b [[? <-]|[? Hg]]%lookup_insert_Some; [simpl; by eapply Hnp|by eapply Hnp].
    - constructor; [by eapply Hnp|done].
    - lia.
    - lia. }
  split; [done|]. split; [simpl; lia|]. intros _ _.
  eapply wake_front_told; [exact (inv_linked _ _ _ Hinv')| |done].
  simpl. by rewrite !dom_insert_L, Hd.
Qed.

(** When a poll that stays pending leaves a front that could be satisfied, that
    front was there before and is not the poller. *)
Lemma register_front k es s f a w e0 es0 :
  inv k es s -> futures s !! f = Some a -> recognised s (EvPoll f w) ->
  fair_abs es (permits (sem s)) (acq_n a) (entry_id <$> registered a) = false ->
  (Registration.register_abs entry_id entry_waker es (next_id (sem s)) (registered a)
    (fun id => (id, acq_n a, w)) w).1.1 = e0 :: es0 -> (entry_n e0 <= permits (sem s))%Z ->
  head es = Some e0 /\ registered a <> Some e0.
Proof.
  intros [Hr Hl Hq Hd Hn Hen Hnp Hh Hs Hp] Hf Hrec Hfair Hes Hle. destruct (registered a) as [e|] eqn:Hreg.
  - rewrite Registration.register_abs_queued in Hes; [|eapply Hq; by rewrite (slots_lookup s f a Hf), Hreg|by eapply recognised_poll].
    cbn [fst] in Hes. subst es. split; [done|]. intros [= <-].
    eapply (front_of_fair _ _ _ _ e Hfair); [|done|done]. by rewrite <-(Hen f a e Hf Hreg).
  - erewrite Registration.register_abs_fresh in Hes by exact Hl. cbn [fst] in Hes.
    destruct es as [|e1 es1]; simplify_eq/=; [|done].
    unfold fair_abs in Hfair. by rewrite (proj2 (Z.leb_le _ _)) in Hfair by exact Hle.
Qed.

Lemma step_poll_pending k es s f a w :
  inv k es s -> (k < usize_max)%Z -> futures s !! f = Some a ->
  fair_abs es (permits (sem s)) (acq_n a) (entry_id <$> registered a) = false ->
  step_ok k es s (EvPoll f w).
Proof.
  intros Hinv Hk Hf Hfair. pose proof Hinv as [Hr Hl Hq Hd Hn Hen Hnp Hh Hs Hp].
  pose proof (slots_lookup s f a Hf) as Hsf.
  pose proof (poll_repr (sem s) es _ f a w Hr Hl Hsf) as Hpoll. rewrite Hfair in Hpoll.
  destruct Hpoll as (ws & Hr' & Hpoll).
  set (mk := fun id => (id, acq_n a, w)) in *.
  eexists _, (Registration.register_abs entry_id entry_waker es (next_id (sem s))
    (registered a) mk w).1.1.
  cbn [exec]. rewrite Hf, Hpoll. split; [done|].
  pose proof (Registration.linked_register entry_id entry_waker es (slots_of s) (next_id (sem s)) f
    (registered a) mk w (fun _ => eq_refl)) as Hl'.
  pose proof (fun g e => Registration.register_keeps entry_id entry_waker es (slots_of s) (next_id (sem s)) f
    (registered a) mk w g e Hl Hsf) as Hkeep.
  destruct (Registration.register_abs_slot entry_id entry_waker es (slots_of s) (next_id (sem s)) f
    (registered a) mk w Hl Hsf (fun _ => eq_refl)) as (e' & Hslot' & He' & Horig).
  pose proof (register_front k es s f a w) as Hfront. specialize (fun e0 es0 => Hfront e0 es0 Hinv Hf).
  fold mk in Hfront.
  destruct (Registration.register_abs _ _ _ _ _ _ _) as [[es' nx'] slot']. simpl in *.
  destruct Hl' as [Hl' Hn']; [lia|done|done|].
  split; [|split; [lia|]].
  - split; simpl; rewrite ?fmap_insert; simpl; try done.
    + intros g e [[??]|[? Hg]]%lookup_insert_Some; [simplify_eq; congruence|]. by eapply Hkeep; eauto.
    + by rewrite !dom_insert_L, Hd.
    + lia.
    + intros g b e [[? <-]|[? Hg]]%lookup_insert_Some; [|by eapply Hen].
      simpl. intros Hslot. assert (e = e') as -> by congruence.
      destruct Horig as [Horig|[id ->]]; [by eapply Hen|done].
    + intros g b [[? <-]|[? Hg]]%lookup_insert_Some; [simpl; by eapply Hnp|by eapply Hnp].
  - intros Hrec Hft e0 es0 Hes Hle. simpl in Hle.
    destruct (Hfront e0 es0 Hrec Hfair Hes Hle) as [Hhead Hna].
    destruct es as [|e1 es1]; simplify_eq/=.
    destruct (Hft e0 es1 eq_refl Hle) as (g & ws' & Hg & Hws & Hin).
    assert (g <> f) by (intros ->; congruence).
    exists g, ws'. simpl. by rewrite fmap_insert, !lookup_insert_ne.
Qed.

Lemma step_drop_future k es s f : inv k es s -> step_ok k es s (EvDropFuture f).
Proof.
  intros Hinv. destruct (futures s !! f) as [a|] eqn:Hf; cycle 1.
  { apply step_ignored; [done| |done]. simpl. by rewrite Hf. }
  pose proof (semaphore_inv_weaken _ _ _ Hinv) as [Hr Hl Hq Hd Hn Hen Hnp Hh Hs Hp].
  pose proof (slots_lookup s f a Hf) as Hsf.
  pose proof (Registration.linked_deregister entry_id es _ _ f (registered a) Hl Hsf) as Hl'.
  apply (Registration.linked_delete _ _ _ _ f) in Hl'; [|apply lookup_insert_eq].
  rewrite delete_insert_eq in Hl'. unfold step_ok. cbn [exec]. rewrite Hf. unfold drop_future.
  assert (forall ws fired, wl_repr ws (Registration.deregister_abs entry_id es (registered a)) ->
    inv (k + 1) (Registration.deregister_abs entry_id es (registered a))
      (mkSys (mkSem (permits (sem s)) ws (next_id (sem s))) (delete f (futures s))
        (Registration.fire_opt fired (delete f (since s))) (held s) (total s))) as Hinv'.
  { intros ws fired Hr'. split; simpl; rewrite ?fmap_delete, ?dom_fire_opt; try done.
    - intros g e [? Hg]%lookup_delete_Some. by eapply Registration.deregister_keeps; eauto.
    - by rewrite !dom_delete_L, Hd.
    - intros g b e [? Hg]%lookup_delete_Some. by eapply Hen.
    - intros g b [? Hg]%lookup_delete_Some. by eapply Hnp. }
  destruct (registered a) as [e|] eqn:Hreg.
  - unfold deregister.
    destruct (Registration.deregister_in_repr entry_id _ es (Some e) Hr) as (ws & -> & Hr').
    outcome_simpl. erewrite semaphore_wake_next_repr by exact Hr'. outcome_simpl.
    eexists _, _. split; [done|]. split; [by apply Hinv'|]. split; [simpl; lia|]. intros _ _.
    eapply wake_front_told; [exact (inv_linked _ _ _ (Hinv' ws _ Hr'))| |done].
    simpl. by rewrite !dom_delete_L, Hd.
  - eexists _, _. split; [done|]. specialize (Hinv' (waiters (sem s)) None Hr).
    assert (mkSem (permits (sem s)) (waiters (sem s)) (next_id (sem s)) = sem s) as Heta
      by by destruct (sem s).
    rewrite Heta in Hinv'. split; [exact Hinv'|]. split; [simpl; lia|].
    intros _ Hft e0 es0 He0 Hle. destruct (Hft e0 es0 He0 Hle) as (g & ws & Hg & Hws & Hin).
    assert (g <> f) by (intros ->; congruence). exists g, ws. simpl.
    by rewrite fmap_delete, !lookup_delete_ne.
Qed.

Lemma step_try_acquire k es s n : inv k es s -> step_ok k es s (EvTryAcquire n).
Proof.
  intros Hinv. pose proof (semaphore_inv_weaken _ _ _ Hinv) as [Hr Hl Hq Hd Hn Hen Hnp Hh Hs Hp].
  unfold step_ok. cbn [exec]. unfold try_acquire_many.
  destruct (Z.of_N n <=? permits (sem s))%Z eqn:E; bool_props.
  - eexists _, es. split; [done|]. split; [|split; [simpl; lia|]].
    + split; simpl; try done; [by constructor; [lia|]|lia|lia].
    + intros _ Hft e0 es0 He0 Hle. simpl in *. apply (Hft e0 es0 He0). lia.
  - eexists _, es. split; [done|]. split; [by split|]. split; [simpl; lia|done].
Qed.

(** [release] of [n] permits, from a dropped permit or from [add_permits]. *)
Lemma inv_release k es s n held' total' :
  inv (k + 1) es s -> (0 <= n)%Z -> (permits (sem s) + n <= usize_max)%Z ->
  Forall (fun n => 0 <= n)%Z held' -> (permits (sem s) + n + zsum held' = total')%Z ->
  exists fired se, release (sem s) n = Done (fired, se) /\
    inv (k + 1) es (mkSys se (futures s) (Registration.fire_opt fired (since s)) held' total') /\
    front_told es (mkSys se (futures s) (Registration.fire_opt fired (since s)) held' total').
Proof.
  intros [Hr Hl Hq Hd Hn Hen Hnp Hh Hs Hp] Hn0 Hle Hheld Htot.
  rewrite (release_repr _ es) by done. eexists _, _. split; [done|]. split.
  - split; simpl; rewrite ?dom_fire_opt; try done; lia.
  - by eapply wake_front_told.
Qed.

Lemma step_add_permits k es s n :
  inv k es s -> (total s + Z.of_N n <= usize_max)%Z -> step_ok k es s (EvAddPermits n).
Proof.
  intros Hinv Hle. pose proof (semaphore_inv_weaken _ _ _ Hinv) as Hinv'.
  pose proof (zsum_nonneg _ (inv_held _ _ _ Hinv)). pose proof (inv_sum _ _ _ Hinv).
  destruct (inv_release k es s (Z.of_N n) (held s) (total s + Z.of_N n) Hinv')
    as (fired & se & Hrel & Hi & Hft); [lia|lia|apply Hinv|lia|].
  eexists _, es. cbn [exec]. rewrite add_permits_release, Hrel. split; [done|].
  split; [done|]. split; [simpl; lia|done].
Qed.

Lemma step_drop_permit k es s i :
  inv k es s -> (total s <= usize_max)%Z -> step_ok k es s (EvDropPermit i).
Proof.
  intros Hinv Hle. destruct (held s !! i) as [n|] eqn:Hi; cycle 1.
  { apply step_ignored; [done| |done]. simpl. by rewrite Hi. }
  pose proof (semaphore_inv_weaken _ _ _ Hinv) as Hinv'. pose proof (inv_sum _ _ _ Hinv) as Hsum.
  rewrite (zsum_delete _ _ _ Hi) in Hsum. pose proof (inv_held _ _ _ Hinv) as Hh.
  assert (0 <= n)%Z by (by eapply (Forall_lookup_1 _ _ _ _ Hh)).
  pose proof (Forall_delete_Z _ _ i Hh) as Hh'. pose proof (zsum_nonneg _ Hh').
  destruct (inv_release k es s n (delete i (held s)) (total s) Hinv')
    as (fired & se & Hrel & Hiv & Hft); [lia|lia|done|lia|].
  eexists _, es. cbn [exec]. unfold drop_permit. rewrite Hi, Hrel. split; [done|].
  split; [done|]. split; [simpl; lia|done].
Qed.

Lemma step_forget k es s i : inv k es s -> step_ok k es s (EvForget i).
Proof.
  intros Hinv. destruct (held s !! i) as [n|] eqn:Hi; cycle 1.
  { apply step_ignored; [done| |done]. simpl. by rewrite Hi. }
  pose proof (semaphore_inv_weaken _ _ _ Hinv) as [Hr Hl Hq Hd Hn Hen Hnp Hh Hs Hp].
  pose proof (Forall_delete_Z _ _ i Hh) as Hh'.
  assert (0 <= n)%Z by (by eapply (Forall_lookup_1 _ _ _ _ Hh)).
  rewrite (zsum_delete _ _ _ Hi) in Hs.
  eexists _, es. cbn [exec]. rewrite Hi. split; [done|]. unfold count.
  split; [split; simpl; try done; lia|]. split; [simpl; lia|done].
Qed.

Lemma step_all k es s ev :
  inv k es s -> (k < usize_max)%Z -> (total s + added [ev] <= usize_max)%Z -> step_ok k es s ev.
Proof.
  intros Hinv Hk Ht. destruct ev as [f n|f w|f|n|n|i|i].
  - by apply step_acquire.
  - destruct (futures s !! f) as [a|] eqn:Hf; cycle 1.
    { apply step_ignored; [done| |done]. simpl. by rewrite Hf. }
    destruct (fair_abs es (permits (sem s)) (acq_n a) (entry_id <$> registered a)) eqn:Hfair.
    + by eapply step_poll_ready.
    + by eapply step_poll_pending.
  - by apply step_drop_future.
  - by apply step_try_acquire.
  - apply step_add_permits; [done|]. simpl in Ht. lia.
  - apply step_drop_permit; [done|]. simpl in Ht. lia.
  - by apply step_forget.
Qed.

(** Every re-poll of a registered future in the run uses a recognised waker. *)
Fixpoint run_recognised (s : sys) (evs : list event) : Prop :=
  match evs with
  | [] => True
  | ev :: evs =>
      recognised s ev /\
      match exec s ev with Done s' => run_recognised s' evs | _ => True end
  end.

Lemma added_cons ev evs : added (ev :: evs) = (added [ev] + added evs)%Z.
Proof. destruct ev; simpl; lia. Qed.

Lemma added_nonneg evs : (0 <= added evs)%Z.
Proof. induction evs as [|[] evs IH]; simpl; lia. Qed.

Lemma semaphore_run_inv evs k es s :
  inv k es s -> (k + Z.of_nat (length evs) <= usize_max)%Z ->
  (total s + added evs <= usize_max)%Z ->
  exists s' es', run s evs = Done s' /\ inv (k + Z.of_nat (length evs)) es' s' /\
    (total s' <= total s + added evs)%Z /\
    (run_recognised s evs -> front_told es s -> front_told es' s').
Proof.
  revert k es s. induction evs as [|ev evs IH]; intros k es s Hinv Hk Ht.
  - exists s, es. cbn. rewrite !Z.add_0_r. done.
  - rewrite added_cons in *. cbn [length run run_recognised] in *.
    pose proof (added_nonneg evs).
    destruct (step_all k es s ev Hinv) as (s1 & es1 & He & Hinv1 & Ht1 & Hft1); [lia..|].
    rewrite He. outcome_simpl.
    destruct (IH (k + 1)%Z es1 s1 Hinv1) as (s2 & es2 & Hrun & Hinv2 & Ht2 & Hft2); [lia..|].
    exists s2, es2. replace (k + Z.of_nat (S (length evs)))%Z with (k + 1 + Z.of_nat (length evs))%Z by lia.
    split_and!; [done|done|lia|]. intros [Hrec Hrun'] Hft. apply Hft2; [done|by apply Hft1].
Qed.

(** A run from [init] and the wait list it ends with. *)
Lemma semaphore_run_init n evs s es :
  (0 <= n)%Z -> (Z.of_nat (length evs) <= usize_max)%Z -> (n + added evs <= usize_max)%Z ->
  run (init n) evs = Done s -> wl_iter (waiters (sem s)) = Done es ->
  inv (Z.of_nat (length evs)) es s /\ (run_recognised (init n) evs -> front_told es s).
Proof.
  intros Hn Hlen Ha Hrun Hit.
  destruct (semaphore_run_inv evs 0 [] (init n) (semaphore_inv_init n Hn)) as (s' & es' & Hrun' & Hinv & _ & Hft);
    [done|done|]. rewrite Hrun in Hrun'. injection Hrun' as <-.
  pose proof (wl_iter_repr _ _ (inv_repr _ _ _ Hinv)) as Hit'. rewrite Hit in Hit'.
  injection Hit' as <-. split; [done|]. intros Hrec. by apply Hft.
Qed.

End semaphore.
Arguments sys {_} Q.
Arguments event {_}.

(** ** Properties *)
Section properties.
Context `{Wakers} {Q : Type} `{WaitList Q (Z * Z * waker), !WaitListLaws Q (Z * Z * waker)}.

(** C26: permits are conserved. As long as the permits ever added fit in a
    [usize] (and fewer than [2^64] calls are made), no call panics or wraps,
    the available permits plus the held ones always equal the permits put in
    less the forgotten ones, and none is negative. *)
Theorem semaphore_conserves_permits (n : Z) (evs : list event) :
  (0 <= n)%Z -> (Z.of_nat (length evs) <= usize_max)%Z -> (n + added evs <= usize_max)%Z ->
  exists s : sys Q, run (init n) evs = Done s /\
    (available (sem s) + zsum (held s) = total s)%Z /\ (0 <= available (sem s) <= usize_max)%Z /\
    (total s <= n + added evs)%Z.
Proof.
  intros Hn Hlen Ha.
  destruct (semaphore_run_inv evs 0 [] (init n) (semaphore_inv_init n Hn)) as (s & es & -> & Hinv & Ht & _); [done|done|].
  exists s. split; [done|]. unfold available. simpl in Ht.
  pose proof (inv_sum _ _ _ Hinv). pose proof (inv_permits _ _ _ Hinv).
  pose proof (zsum_nonneg _ (inv_held _ _ _ Hinv)). split_and!; lia.
Qed.

(** FIFO fairness. In every reachable state, [acquire] succeeds only when
    enough permits are available and nobody is queued ahead: either the queue
    is empty or the future is its front. *)
Theorem semaphore_fifo (n : Z) (evs : list event) (s : sys Q) (es : list (Z * Z * waker))
    f a w s' a' fired got :
  (0 <= n)%Z -> (Z.of_nat (length evs) <= usize_max)%Z -> (n + added evs <= usize_max)%Z ->
  run (init n) evs = Done s -> wl_iter (waiters (sem s)) = Done es ->
  futures s !! f = Some a -> poll (sem s) a w = Done (s', a', fired, Ready got) ->
  got = acq_n a /\ (acq_n a <= available (sem s))%Z /\
  available s' = (available (sem s) - acq_n a)%Z /\
  (es = [] \/ exists e es', es = e :: es' /\ registered a = Some e).
Proof.
  intros Hn Hlen Ha Hrun Hit Hf Hpoll.
  destruct (semaphore_run_init n evs s es Hn Hlen Ha Hrun Hit) as [Hinv _].
  pose proof Hinv as [Hr Hl _ _ _ _ _ _ _ _]. pose proof (slots_lookup s f a Hf) as Hsf.
  pose proof (poll_repr (sem s) es _ f a w Hr Hl Hsf) as Hp.
  destruct (fair_abs es _ _ _) eqn:Hfair; cycle 1.
  { destruct Hp as (ws & _ & Hp). congruence. }
  destruct (grant_repr (sem s) es a Hr) as (ws & Hg & _). rewrite Hp, Hg in Hpoll.
  injection Hpoll as <- <- <- <-. unfold fair_abs in Hfair.
  apply andb_true_iff in Hfair as [Hle Hfront]. bool_props. split_and!; try done.
  destruct es as [|e es']; [by left|right]. exists e, es'. split; [done|].
  apply bool_decide_eq_true in Hfront. destruct (registered a) as [e'|]; [|done]. simpl in Hfront.
  f_equal. symmetry. eapply (Registration.linked_entry entry_id); [done|done|by left|congruence].
Qed.

(** C27: no wakeup is lost, provided the runtime recognises the waker each queued
    future is re-polled with: whenever the front waiter can be satisfied, its
    future is alive, its current waker has been fired since it was last polled,
    and polling it acquires the permits. *)
Theorem semaphore_no_lost_wakeup (n : Z) (evs : list event) (s : sys Q)
    (e : Z * Z * waker) (es : list (Z * Z * waker)) (w : waker) :
  (0 <= n)%Z -> (Z.of_nat (length evs) <= usize_max)%Z -> (n + added evs <= usize_max)%Z ->
  run (init n) evs = Done s -> run_recognised (Q := Q) (init n) evs ->
  wl_iter (waiters (sem s)) = Done (e :: es) -> (entry_n e <= available (sem s))%Z ->
  exists f a ws, futures s !! f = Some a /\ registered a = Some e /\
    since s !! f = Some ws /\ entry_waker e ∈ ws /\
    exists s' a' fired, poll (sem s) a w = Done (s', a', fired, Ready (acq_n a)).
Proof.
  intros Hn Hlen Ha Hrun Hrec Hit Hle.
  destruct (semaphore_run_init n evs s _ Hn Hlen Ha Hrun Hit) as [Hinv Hft].
  destruct (Hft Hrec e es eq_refl Hle) as (f & ws & Hf & Hws & Hin).
  rewrite lookup_fmap in Hf. destruct (futures s !! f) as [a|] eqn:Hfa; [|done].
  injection Hf as Hreg. exists f, a, ws. split_and!; try done.
  pose proof (poll_repr (sem s) _ _ f a w (inv_repr _ _ _ Hinv) (inv_linked _ _ _ Hinv)
    (slots_lookup s f a Hfa)) as Hp.
  unfold available in Hle. rewrite (inv_n _ _ _ Hinv f a e Hfa Hreg) in Hle.
  unfold fair_abs in Hp. rewrite (proj2 (Z.leb_le _ _)) in Hp by done.
  rewrite Hreg, bool_decide_eq_true_2 in Hp by done. simpl in Hp.
  destruct (grant_repr (sem s) _ a (inv_repr _ _ _ Hinv)) as (ws' & Hg & _).
  rewrite Hp, Hg. eauto.
Qed.

(** Overflow is an error, never a silent wrap: [add_permits] panics exactly
    when the permit count would exceed [usize::MAX]. *)
Theorem add_permits_overflow (se : LocalSemaphore (Q := Q)) (es : list (Z * Z * waker)) (n : Z) :
  wl_repr (waiters se) es ->
  (add_permits se n = Panicked "LocalSemaphore permit count overflow" <->
   (usize_max < available se + n)%Z) /\
  ((available se + n <= usize_max)%Z ->
   exists fired se', add_permits se n = Done (fired, se') /\ available se' = (available se + n)%Z).
Proof.
  intros Hr. unfold available. split.
  - destruct (decide (permits se + n <= usize_max)%Z) as [Hle|Hgt].
    + rewrite add_permits_release, (release_repr _ es) by done. split; [done|lia].
    + unfold add_permits, bump_permits, checked_add. rewrite (proj2 (Z.leb_gt _ _)) by lia.
      split; [lia|done].
  - intros Hle. rewrite add_permits_release, (release_repr _ es) by done. by eexists _, _.
Qed.
End properties.

#[local] Instance nat_wakers : Wakers := {| waker := nat; will_wake := Nat.eqb |}.
Abbreviation nat_queue := (Queue.QueueInternal (Z * Z * nat)).

(** One permit; a request for two queues first, a request for one behind it. *)
Definition demo_events : list event :=
  [EvAcquire 0 2; EvAcquire 1 1; EvPoll 0 10; EvPoll 1 11; EvAddPermits 1].

Definition demo_final : sys nat_queue :=
  Eval vm_compute in match run (init 1) demo_events with Done s => s | _ => init 1 end.

Lemma semaphore_conserves_permits_witness :
  exists s : sys nat_queue, run (init 1) demo_events = Done s /\
    (available (sem s) + zsum (held s) = total s)%Z /\ (0 <= available (sem s) <= usize_max)%Z /\
    (total s <= 1 + added demo_events)%Z.
Proof. apply semaphore_conserves_permits; vm_compute; discriminate. Defined.

Lemma semaphore_fifo_witness :
  2%Z = 2%Z /\ (2 <= available (sem demo_final))%Z /\
  available (mkSem 0 (Queue.Inline [Some (1%Z, 1%Z, 11); None; None; None; None; None; None; None] 0 1 1) 2%Z)
    = (available (sem demo_final) - 2)%Z /\
  ([(0%Z, 2%Z, 10); (1%Z, 1%Z, 11)] = [] \/ exists e es',
     [(0%Z, 2%Z, 10); (1%Z, 1%Z, 11)] = e :: es' /\ Some (0%Z, 2%Z, 10) = Some e).
Proof.
  apply (semaphore_fifo (Q := nat_queue) 1 demo_events demo_final _ 0
    (mkAcquire (H := nat_wakers) 2 (Some (0%Z, 2%Z, 10))) 10 _ (mkAcquire 2 None) None 2); by vm_compute.
Defined.

Lemma semaphore_no_lost_wakeup_witness :
  exists f a ws, futures demo_final !! f = Some a /\ registered a = Some (0%Z, 2%Z, 10) /\
    since demo_final !! f = Some ws /\ 10 ∈ ws /\
    exists s' a' fired, poll (sem demo_final) a 10 = Done (s', a', fired, Ready (acq_n a)).
Proof.
  apply (semaphore_no_lost_wakeup (Q := nat_queue) 1 demo_events demo_final
    (0%Z, 2%Z, 10) [(1%Z, 1%Z, 11)] 10); [by vm_compute..| |by vm_compute|by vm_compute].
  vm_compute. split_and!; exact I.
Defined.

Lemma add_permits_overflow_witness :
  let se := mkSem 5 (Queue.new 8) 0 in
  (add_permits se usize_max = Panicked "LocalSemaphore permit count overflow" <->
   (usize_max < available se + usize_max)%Z) /\
  ((available se + usize_max <= usize_max)%Z ->
   exists fired se', add_permits se usize_max = Done (fired, se') /\
     available se' = (available se + usize_max)%Z).
Proof. apply (add_permits_overflow (Q := nat_queue) _ []). apply Queue.new_repr. Defined.

(** Re-polling the front waiter with a waker its runtime does not recognise
    moves it to the back of the queue and wakes nobody: the new front can be
    satisfied at once, but no waker has been fired, so it sleeps on although
    the permit it waits for is available. *)
Theorem waker_change_strands_front :
  exists (s : sys (H := nat_wakers) nat_queue) (e : Z * Z * nat),
    run (init 1) [EvAcquire 0 2; EvAcquire 1 1; EvPoll 0 10; EvPoll 1 11; EvPoll 0 20] = Done s /\
    wl_front (waiters (sem s)) = Done (Some e) /\ entry_id (H := nat_wakers) e = 1%Z /\
    (entry_n (H := nat_wakers) e <= available (sem s))%Z /\
    since s !! 0 = Some [] /\ since s !! 1 = Some [].
Proof. eexists _, _. split; [vm_compute; reflexivity|]. by vm_compute. Qed.
End Semaphore.
