(* ===== verification/LocalRwLock.v ===== *)
(** * [LocalRwLock] ([src/site_c/rwlock.rs])

    [Module RwLock]: the write-preferring reader-writer lock, its two kinds of
    futures and guards. Operations that wake return the list of wakers they
    fire, in order. [sys] puts one lock together with its live futures and
    guards; [exec] runs one event of the program that uses it. *)
From stdpp Require Import base list gmap numbers relations strings.
From S2P Require Import Prelude InlineQueue WaitList.

Module RwLock.
Section rwlock.
Context `{BuildMode} `{Wakers} {T Q : Type} `{WaitList Q (Z * waker)}.

Abbreviation entry := (Z * waker)%type.

Record LocalRwLock : Type := mkRwLock {
  readers : Z;
  writer : bool;
  read_waiters : Q;
  write_waiters : Q;
  next_id : Z;
  value : T
}.

(** The [registered] fields of the two futures. *)
Abbreviation LocalRwLockReadFuture := (option entry).
Abbreviation LocalRwLockWriteFuture := (option entry).

(** ** Operations *)
Definition new (v : T) : LocalRwLock := mkRwLock 0 false wl_new wl_new 0 v.

Definition read (l : LocalRwLock) : LocalRwLockReadFuture := None.
Definition write (l : LocalRwLock) : LocalRwLockWriteFuture := None.

Definition set_readers (l : LocalRwLock) (n : Z) : LocalRwLock :=
  mkRwLock n (writer l) (read_waiters l) (write_waiters l) (next_id l) (value l).
Definition set_writer (l : LocalRwLock) (b : bool) : LocalRwLock :=
  mkRwLock (readers l) b (read_waiters l) (write_waiters l) (next_id l) (value l).
Definition set_read_waiters (l : LocalRwLock) (q : Q) (next : Z) : LocalRwLock :=
  mkRwLock (readers l) (writer l) q (write_waiters l) next (value l).
Definition set_write_waiters (l : LocalRwLock) (q : Q) (next : Z) : LocalRwLock :=
  mkRwLock (readers l) (writer l) (read_waiters l) q next (value l).

(** [self.readers.set(self.readers.get().checked_add(1).expect(..))]. *)
Definition add_reader (l : LocalRwLock) : outcome LocalRwLock :=
  match checked_add (readers l) 1 with
  | Some n => Done (set_readers l n)
  | None => Panicked "reader count overflow"
  end.

(** [true] stands for the guard. *)
Definition try_read (l : LocalRwLock) : outcome (bool * LocalRwLock) :=
  if negb (writer l) then l ← add_reader l; Done (true, l) else Done (false, l).

Definition try_read_fair (l : LocalRwLock) : outcome (bool * LocalRwLock) :=
  let no_writer_queued := wl_is_empty (write_waiters l) in
  if negb (writer l) && no_writer_queued then l ← add_reader l; Done (true, l)
  else Done (false, l).

Definition try_write (l : LocalRwLock) : bool * LocalRwLock :=
  if (readers l =? 0)%Z && negb (writer l) then (true, set_writer l true) else (false, l).

Definition is_write_locked (l : LocalRwLock) : bool := writer l.
Definition reader_count (l : LocalRwLock) : Z := readers l.
Definition is_locked (l : LocalRwLock) : bool := (0 <? readers l)%Z || writer l.
Definition into_inner (l : LocalRwLock) : T := value l.

(** The loop that wakes every queued reader. The fuel is one more than the
    queue's length; a wake does not re-enter the lock. *)
Fixpoint wake_readers (fuel : nat) (l : LocalRwLock) : outcome (list waker * LocalRwLock) :=
  match fuel with
  | 0 => Undefined
  | S fuel =>
      '(next, q) ← wl_pop_front (read_waiters l);
      let l := set_read_waiters l q (next_id l) in
      match next with
      | None => Done ([], l)
      | Some (_, w) => '(ws, l) ← wake_readers fuel l; Done (w :: ws, l)
      end
  end.

Definition wake_next (l : LocalRwLock) : outcome (list waker * LocalRwLock) :=
  if writer l || (0 <? readers l)%Z then Done ([], l)
  else
    '(next_writer, q) ← wl_pop_front (write_waiters l);
    let l := set_write_waiters l q (next_id l) in
    match next_writer with
    | Some (_, w) => Done ([w], l)
    | None => wake_readers (S (wl_len (read_waiters l))) l
    end.

Definition release_read (l : LocalRwLock) : outcome (list waker * LocalRwLock) :=
  _ ← debug_assert (0 <? readers l)%Z "release_read called with no readers";
  n ← sub_usize (readers l) 1;
  wake_next (set_readers l n).

Definition release_write (l : LocalRwLock) : outcome (list waker * LocalRwLock) :=
  _ ← debug_assert (writer l) "release_write called without write lock";
  wake_next (set_writer l false).

Definition poll_read (l : LocalRwLock) (registered : LocalRwLockReadFuture) (w : waker) :
    outcome (LocalRwLock * LocalRwLockReadFuture * Poll unit) :=
  '(guard, l) ← try_read_fair l;
  if (guard : bool) then
    '(q, registered) ← Registration.deregister_in fst (read_waiters l) registered;
    Done (set_read_waiters l q (next_id l), registered, Ready tt)
  else
    '(q, next, registered) ←
      Registration.register_in fst snd (read_waiters l) (next_id l) registered (fun id => (id, w)) w;
    '(guard, l) ← try_read_fair (set_read_waiters l q next);
    if (guard : bool) then
      '(q, registered) ← Registration.deregister_in fst (read_waiters l) registered;
      Done (set_read_waiters l q (next_id l), registered, Ready tt)
    else Done (l, registered, Pending).

Definition drop_read_future (l : LocalRwLock) (registered : LocalRwLockReadFuture) :
    outcome (list waker * LocalRwLock) :=
  match registered with
  | Some _ =>
      '(q, _) ← Registration.deregister_in fst (read_waiters l) registered;
      wake_next (set_read_waiters l q (next_id l))
  | None => Done ([], l)
  end.

Definition poll_write (l : LocalRwLock) (registered : LocalRwLockWriteFuture) (w : waker) :
    outcome (LocalRwLock * LocalRwLockWriteFuture * Poll unit) :=
  let '(guard, l) := try_write l in
  if (guard : bool) then
    '(q, registered) ← Registration.deregister_in fst (write_waiters l) registered;
    Done (set_write_waiters l q (next_id l), registered, Ready tt)
  else
    '(q, next, registered) ←
      Registration.register_in fst snd (write_waiters l) (next_id l) registered (fun id => (id, w)) w;
    let '(guard, l) := try_write (set_write_waiters l q next) in
    if (guard : bool) then
      '(q, registered) ← Registration.deregister_in fst (write_waiters l) registered;
      Done (set_write_waiters l q (next_id l), registered, Ready tt)
    else Done (l, registered, Pending).

Definition drop_write_future (l : LocalRwLock) (registered : LocalRwLockWriteFuture) :
    outcome (list waker * LocalRwLock) :=
  match registered with
  | Some _ =>
      '(q, _) ← Registration.deregister_in fst (write_waiters l) registered;
      wake_next (set_write_waiters l q (next_id l))
  | None => Done ([], l)
  end.

(** [Deref], [DerefMut] and [Drop] of the guards. *)
Definition deref (l : LocalRwLock) : T := value l.
Definition deref_mut (l : LocalRwLock) (v : T) : LocalRwLock :=
  mkRwLock (readers l) (writer l) (read_waiters l) (write_waiters l) (next_id l) v.
Definition drop_read_guard (l : LocalRwLock) : outcome (list waker * LocalRwLock) := release_read l.
Definition drop_write_guard (l : LocalRwLock) : outcome (list waker * LocalRwLock) := release_write l.

(** [Debug::fmt] reads the value under a read guard it drops again. *)
Definition fmt (l : LocalRwLock) : outcome (list waker * LocalRwLock) :=
  '(guard, l) ← try_read l;
  if (guard : bool) then drop_read_guard l else Done ([], l).

(** ** A program using the lock *)
Record sys : Type := mkSys {
  rw : LocalRwLock;
  rfutures : gmap nat LocalRwLockReadFuture;
  wfutures : gmap nat LocalRwLockWriteFuture;
  rsince : gmap nat (list waker);
  wsince : gmap nat (list waker);
  rguards : nat;
  wguards : nat
}.

Inductive event : Type :=
| EvRead (f : nat)
| EvPollRead (f : nat) (w : waker)
| EvDropRead (f : nat)
| EvWrite (f : nat)
| EvPollWrite (f : nat) (w : waker)
| EvDropWrite (f : nat)
| EvTryRead
| EvTryWrite
| EvStore (v : T)                  (* store through a write guard *)
| EvDropReadGuard
| EvDropWriteGuard
| EvFmt.

Definition init (v : T) : sys := mkSys (new v) ∅ ∅ ∅ ∅ 0 0.

Definition fired (ws : list waker) (s : sys) : sys :=
  mkSys (rw s) (rfutures s) (wfutures s) (Registration.fire_all ws (rsince s))
    (Registration.fire_all ws (wsince s)) (rguards s) (wguards s).

(** Events that name no live future or guard are ignored. *)
Definition exec (s : sys) (ev : event) : outcome sys :=
  match ev with
  | EvRead f =>
      match rfutures s !! f with
      | Some _ => Done s
      | None => Done (mkSys (rw s) (<[f := read (rw s)]> (rfutures s)) (wfutures s)
                  (<[f := []]> (rsince s)) (wsince s) (rguards s) (wguards s))
      end
  | EvPollRead f w =>
      match rfutures s !! f with
      | None => Done s
      | Some slot =>
          '(l, slot, r) ← poll_read (rw s) slot w;
          Done (mkSys l (<[f := slot]> (rfutures s)) (wfutures s) (<[f := []]> (rsince s)) (wsince s)
                  (match r with Ready _ => S (rguards s) | Pending => rguards s end) (wguards s))
      end
  | EvDropRead f =>
      match rfutures s !! f with
      | None => Done s
      | Some slot =>
          '(ws, l) ← drop_read_future (rw s) slot;
          Done (fired ws (mkSys l (delete f (rfutures s)) (wfutures s) (delete f (rsince s))
                  (wsince s) (rguards s) (wguards s)))
      end
  | EvWrite f =>
      match wfutures s !! f with
      | Some _ => Done s
      | None => Done (mkSys (rw s) (rfutures s) (<[f := write (rw s)]> (wfutures s))
                  (rsince s) (<[f := []]> (wsince s)) (rguards s) (wguards s))
      end
  | EvPollWrite f w =>
      match wfutures s !! f with
      | None => Done s
      | Some slot =>
          '(l, slot, r) ← poll_write (rw s) slot w;
          Done (mkSys l (rfutures s) (<[f := slot]> (wfutures s)) (rsince s) (<[f := []]> (wsince s))
                  (rguards s) (match r with Ready _ => S (wguards s) | Pending => wguards s end))
      end
  | EvDropWrite f =>
      match wfutures s !! f with
      | None => Done s
      | Some slot =>
          '(ws, l) ← drop_write_future (rw s) slot;
          Done (fired ws (mkSys l (rfutures s) (delete f (wfutures s)) (rsince s)
                  (delete f (wsince s)) (rguards s) (wguards s)))
      end
  | EvTryRead =>
      '(guard, l) ← try_read (rw s);
      Done (mkSys l (rfutures s) (wfutures s) (rsince s) (wsince s)
              (if (guard : bool) then S (rguards s) else rguards s) (wguards s))
  | EvTryWrite =>
      let '(guard, l) := try_write (rw s) in
      Done (mkSys l (rfutures s) (wfutures s) (rsince s) (wsince s) (rguards s)
              (if (guard : bool) then S (wguards s) else wguards s))
  | EvStore v =>
      match wguards s with
      | 0 => Done s
      | _ => Done (mkSys (deref_mut (rw s) v) (rfutures s) (wfutures s) (rsince s) (wsince s)
                (rguards s) (wguards s))
      end
  | EvDropReadGuard =>
      match rguards s with
      | 0 => Done s
      | S g =>
          '(ws, l) ← drop_read_guard (rw s);
          Done (fired ws (mkSys l (rfutures s) (wfutures s) (rsince s) (wsince s) g (wguards s)))
      end
  | EvDropWriteGuard =>
      match wguards s with
      | 0 => Done s
      | S g =>
          '(ws, l) ← drop_write_guard (rw s);
          Done (fired ws (mkSys l (rfutures s) (wfutures s) (rsince s) (wsince s) (rguards s) g))
      end
  | EvFmt =>
      '(ws, l) ← fmt (rw s);
      Done (fired ws (mkSys l (rfutures s) (wfutures s) (rsince s) (wsince s) (rguards s) (wguards s)))
  end.

Fixpoint run (s : sys) (evs : list event) : outcome sys :=
  match evs with
  | [] => Done s
  | ev :: evs => s ← exec s ev; run s evs
  end.

(** ** Invariant *)
Context `{!WaitListLaws Q (Z * waker)}.

(** The waiting side of the lock: both wait lists hold [wes] and [res], in
    correspondence with the futures, and every registered future is queued or
    told. *)
Record waiting (k : Z) (wes res : list entry) (s : sys) : Prop := {
  w_wrepr : wl_repr (write_waiters (rw s)) wes;
  w_rrepr : wl_repr (read_waiters (rw s)) res;
  w_wlinked : Registration.linked fst wes (wfutures s) (next_id (rw s));
  w_rlinked : Registration.linked fst res (rfutures s) (next_id (rw s));
  w_wtold : Registration.told fst snd wes (wfutures s) (wsince s);
  w_rtold : Registration.told fst snd res (rfutures s) (rsince s);
  w_next : (0 <= next_id (rw s) <= k)%Z
}.

(** The lock and its guards: as many readers as read guards, one write guard
    exactly when the writer flag is set, and never both. *)
Record holding (k : Z) (s : sys) : Prop := {
  h_readers : readers (rw s) = Z.of_nat (rguards s);
  h_bound : (readers (rw s) <= k)%Z;
  h_writer : wguards s = if writer (rw s) then 1 else 0;
  h_excl : writer (rw s) = true -> rguards s = 0
}.

(** A free lock with any waiter has a live writer future that was popped. *)
Definition turn (wes res : list entry) (s : sys) : Prop :=
  is_locked (rw s) = false -> wes <> [] \/ res <> [] ->
  exists f e, wfutures s !! f = Some (Some e) /\ Registration.popped fst wes e.

Definition inv (k : Z) (wes res : list entry) (s : sys) : Prop :=
  waiting k wes res s /\ holding k s /\ turn wes res s.

Lemma rwlock_inv_init v : inv 0 [] [] (init v).
Proof.
  split_and!.
  - split; simpl; try apply wl_new_repr; try apply Registration.linked_new; try done; lia.
  - by split.
  - by intros _ [].
Qed.

Lemma rwlock_inv_weaken k k' wes res s : inv k wes res s -> (k <= k')%Z -> inv k' wes res s.
Proof.
  intros (Hw & Hh & Ht) Hk. split_and!; [|by destruct Hh; split; try done; lia|done].
  destruct Hw. split; try done. lia.
Qed.

Lemma wake_readers_repr fuel l res :
  wl_repr (read_waiters l) res -> length res < fuel ->
  exists q, wake_readers fuel l = Done (snd <$> res, set_read_waiters l q (next_id l)) /\ wl_repr q [].
Proof.
  revert l res. induction fuel as [|fuel IH]; intros l res Hr Hlt; [lia|]. simpl.
  destruct (wl_pop_front_repr _ res Hr) as (q & -> & Hq). outcome_simpl.
  destruct res as [|[id w] res]; simpl in *; [by exists q|].
  destruct (IH (set_read_waiters l q (next_id l)) res) as (q' & -> & Hq'); [done|lia|].
  outcome_simpl. by exists q'.
Qed.

(** What [wake_next] does on a free lock. *)
Lemma rwlock_wake_next_repr l wes res :
  is_locked l = false -> wl_repr (write_waiters l) wes -> wl_repr (read_waiters l) res ->
  exists wq rq, wake_next l =
      Done (match wes with e :: _ => [e.2] | [] => snd <$> res end,
            mkRwLock (readers l) (writer l) rq wq (next_id l) (value l)) /\
    wl_repr wq (tail wes) /\ wl_repr rq (match wes with _ :: _ => res | [] => [] end).
Proof.
  intros [Hrd Hwr]%orb_false_iff Hw Hr. unfold wake_next. rewrite Hwr, Hrd. cbn [orb].
  destruct (wl_pop_front_repr _ wes Hw) as (wq & -> & Hwq). outcome_simpl.
  destruct wes as [|[id w] wes]; cbn [head].
  - destruct (wake_readers_repr (S (wl_len (read_waiters (set_write_waiters l wq (next_id l)))))
      (set_write_waiters l wq (next_id l)) res) as (rq & -> & Hrq); [done|simpl; rewrite (wl_len_repr _ res Hr); lia|].
    exists wq, rq. by rewrite <-Hwr.
  - rewrite <-Hwr. by exists wq, (read_waiters l).
Qed.

Lemma wake_next_held l : is_locked l = true -> wake_next l = Done ([], l).
Proof.
  unfold is_locked, wake_next. rewrite orb_comm. by intros ->.
Qed.

(** Every release and cancellation ends with [wake_next], which establishes
    [turn] whatever held before. *)
Lemma wake_next_inv k wes res l rf wf rs wsn rg wg :
  waiting k wes res (mkSys l rf wf rs wsn rg wg) -> holding k (mkSys l rf wf rs wsn rg wg) ->
  exists ws l' wes' res', wake_next l = Done (ws, l') /\
    inv k wes' res' (fired ws (mkSys l' rf wf rs wsn rg wg)).
Proof.
  set (s := mkSys l rf wf rs wsn rg wg). change l with (rw s) at 1.
  intros [Hw Hr Hwl Hrl Hwt Hrt Hn] Hh. destruct (is_locked (rw s)) eqn:El.
  - rewrite (wake_next_held _ El). eexists _, _, wes, res. split; [done|].
    split_and!; [by split|by destruct Hh; split|]. intros El'. change (is_locked (rw s) = false) in El'. congruence.
  - destruct (rwlock_wake_next_repr (rw s) wes res El Hw Hr) as (wq & rq & -> & Hwq & Hrq).
    eexists _, _, (tail wes), (match wes with _ :: _ => res | [] => [] end). split; [done|].
    destruct (Registration.told_pop_front fst snd wes _ _ _ Hwl Hwt) as (Hwl' & Hwt' & Hturn).
    destruct wes as [|e wes].
    + split_and!; [split; simpl; try done|by destruct Hh; split|by intros _ []].
      * by eapply Registration.linked_nil.
      * by apply Registration.told_fire_all.
      * by eapply Registration.told_drain.
    + split_and!; [split; simpl in *; try done|by destruct Hh; split|].
      * by apply Registration.told_fire.
      * intros _ _. by apply Hturn.
Qed.

(** The two polls: what they return and the invariant they keep. *)
Lemma try_read_fair_repr k wes res s :
  inv k wes res s -> (k < usize_max)%Z ->
  try_read_fair (rw s) =
    if negb (writer (rw s)) && bool_decide (wes = [])
    then Done (true, set_readers (rw s) (readers (rw s) + 1)) else Done (false, rw s).
Proof.
  intros ([Hw _ _ _ _ _ _] & [_ Hb _ _] & _) Hk. unfold try_read_fair, add_reader, checked_add.
  rewrite (wl_is_empty_repr _ wes Hw), (proj2 (Z.leb_le _ _)) by lia.
  by destruct (_ && _).
Qed.

Lemma inv_poll_read k wes res s f w slot :
  inv k wes res s -> (k < usize_max)%Z -> rfutures s !! f = Some slot ->
  exists l slot' r res',
    poll_read (rw s) slot w = Done (l, slot', r) /\
    inv (k + 1) wes res' (mkSys l (<[f := slot']> (rfutures s)) (wfutures s) (<[f := []]> (rsince s))
      (wsince s) (match r with Ready _ => S (rguards s) | Pending => rguards s end) (wguards s)) /\
    (r = Ready tt <-> writer (rw s) = false /\ wes = []).
Proof.
  intros Hinv Hk Hf. unfold poll_read. rewrite (try_read_fair_repr k wes res s Hinv Hk).
  pose proof Hinv as ([Hw Hr Hwl Hrl Hwt Hrt Hn] & [Hrd Hb Hwr Hex] & Ht).
  destruct (negb (writer (rw s)) && bool_decide (wes = [])) eqn:Etest; outcome_simpl.
  - apply andb_true_iff in Etest as [Ewr ->%bool_decide_eq_true]. bool_props. cbn [read_waiters set_readers].
    destruct (Registration.deregister_in_repr fst _ res slot Hr) as (q & -> & Hq). outcome_simpl.
    eexists _, None, (Ready tt), _. split; [done|]. split; [|done]. split_and!.
    + split; simpl; try done; [by eapply Registration.linked_deregister
        |by eapply Registration.told_deregister|lia].
    + split; simpl; try done; [lia..|by rewrite Ewr].
    + unfold turn, is_locked. simpl. rewrite (proj2 (Z.ltb_lt _ _)) by lia. done.
  - destruct (Registration.register_in_repr fst snd _ res (next_id (rw s)) slot (fun id => (id, w)) w Hr)
      as (q & -> & Hq). outcome_simpl.
    pose proof (Registration.linked_register fst snd res (rfutures s) (next_id (rw s)) f slot
      (fun id => (id, w)) w (fun _ => eq_refl)) as Hl'.
    pose proof (Registration.told_register fst snd res (rfutures s) (rsince s) (next_id (rw s)) f slot
      (fun id => (id, w)) w (fun _ => eq_refl)) as Ht'.
    destruct (Registration.register_abs fst snd res (next_id (rw s)) slot (fun id => (id, w)) w)
      as [[res' nx'] slot'].
    destruct Hl' as [Hl' Hn']; [lia|done..|]. destruct Ht' as [Ht' _]; [lia|done..|].
    unfold try_read_fair. cbn [writer write_waiters set_read_waiters fst snd].
    rewrite (wl_is_empty_repr _ wes Hw), Etest. outcome_simpl.
    eexists _, slot', Pending, res'. split; [done|]. split; [split_and!|].
    + split; simpl; try done; [eapply Registration.linked_weaken; [done|lia]|lia].
    + split; simpl; try done. lia.
    + intros Hfree Hne. apply Ht; [done|]. left. intros ->.
      apply orb_false_iff in Hfree as [_ Hfree]. simpl in Hfree. by rewrite Hfree in Etest.
    + split; [done|]. intros [Ewr ->]. by rewrite Ewr in Etest.
Qed.

Lemma inv_poll_write k wes res s f w slot :
  inv k wes res s -> (k < usize_max)%Z -> wfutures s !! f = Some slot ->
  exists l slot' r wes',
    poll_write (rw s) slot w = Done (l, slot', r) /\
    inv (k + 1) wes' res (mkSys l (rfutures s) (<[f := slot']> (wfutures s)) (rsince s)
      (<[f := []]> (wsince s)) (rguards s) (match r with Ready _ => S (wguards s) | Pending => wguards s end)) /\
    (r = Ready tt <-> is_locked (rw s) = false).
Proof.
  intros Hinv Hk Hf. unfold poll_write, try_write.
  pose proof Hinv as ([Hw Hr Hwl Hrl Hwt Hrt Hn] & [Hrd Hb Hwr Hex] & Ht).
  destruct ((readers (rw s) =? 0)%Z && negb (writer (rw s))) eqn:Etest.
  - bool_props. cbn [write_waiters set_writer].
    destruct (Registration.deregister_in_repr fst _ wes slot Hw) as (q & -> & Hq). outcome_simpl.
    eexists _, None, (Ready tt), _. split; [done|]. split; [split_and!|].
    + split; simpl; try done; [by eapply Registration.linked_deregister
        |by eapply Registration.told_deregister|lia].
    + split; simpl; try done; [lia|by rewrite Hwr; case_match|lia].
    + intros Hfree. apply orb_false_iff in Hfree as [_ Hfree]. done.
    + split; [|done]. intros _. unfold is_locked. apply orb_false_iff.
      split; [apply Z.ltb_ge; lia|done].
  - destruct (Registration.register_in_repr fst snd _ wes (next_id (rw s)) slot (fun id => (id, w)) w Hw)
      as (q & -> & Hq). outcome_simpl.
    pose proof (Registration.linked_register fst snd wes (wfutures s) (next_id (rw s)) f slot
      (fun id => (id, w)) w (fun _ => eq_refl)) as Hl'.
    pose proof (Registration.told_register fst snd wes (wfutures s) (wsince s) (next_id (rw s)) f slot
      (fun id => (id, w)) w (fun _ => eq_refl)) as Ht'.
    destruct (Registration.register_abs fst snd wes (next_id (rw s)) slot (fun id => (id, w)) w)
      as [[wes' nx'] slot'].
    destruct Hl' as [Hl' Hn']; [lia|done..|]. destruct Ht' as [Ht' _]; [lia|done..|].
    cbn [readers writer set_write_waiters fst snd]. rewrite Etest.
    assert (is_locked (rw s) = true) as Elk.
    { unfold is_locked. apply orb_true_iff. destruct (writer (rw s)); [by right|left].
      rewrite andb_true_r in Etest. bool_props. apply Z.ltb_lt. lia. }
    eexists _, slot', Pending, wes'. split; [done|]. split; [split_and!|].
    + split; simpl; try done; [eapply Registration.linked_weaken; [done|lia]|lia].
    + split; simpl; try done. lia.
    + intros Hfree. unfold is_locked in *. simpl in Hfree. congruence.
    + split; [done|congruence].
Qed.

(** Removing a future: its entry and slot go together. *)
Lemma linked_told_remove es slots since next f slot :
  Registration.linked fst es slots next -> Registration.told fst snd es slots since ->
  slots !! f = Some slot ->
  Registration.linked fst (Registration.deregister_abs fst es slot) (delete f slots) next /\
  Registration.told fst snd (Registration.deregister_abs fst es slot) (delete f slots) (delete f since).
Proof.
  intros Hl Ht Hf.
  pose proof (Registration.linked_deregister fst es _ _ f slot Hl Hf) as Hl'.
  pose proof (Registration.told_deregister fst snd es _ _ _ f slot Hl Hf Ht) as Ht'.
  apply (Registration.linked_delete _ _ _ _ f) in Hl'; [|apply lookup_insert_eq].
  apply (Registration.told_delete _ _ _ _ _ f) in Ht'.
  rewrite delete_insert_eq in Hl'. by rewrite !delete_insert_eq in Ht'.
Qed.

Lemma inv_drop_read k wes res s f slot :
  inv k wes res s -> rfutures s !! f = Some slot ->
  exists ws l wes' res', drop_read_future (rw s) slot = Done (ws, l) /\
    inv k wes' res' (fired ws (mkSys l (delete f (rfutures s)) (wfutures s) (delete f (rsince s))
      (wsince s) (rguards s) (wguards s))).
Proof.
  intros ([Hw Hr Hwl Hrl Hwt Hrt Hn] & Hh & Ht) Hf. unfold drop_read_future.
  destruct (linked_told_remove res _ _ _ f slot Hrl Hrt Hf) as [Hrl' Hrt'].
  destruct slot as [e|].
  - destruct (Registration.deregister_in_repr fst _ res (Some e) Hr) as (q & -> & Hq). outcome_simpl.
    apply (wake_next_inv k wes (Registration.deregister_abs fst res (Some e))); [by split|by destruct Hh; split].
  - eexists [], _, wes, res. split; [done|]. split_and!; [by split|by destruct Hh; split|done].
Qed.

Lemma inv_drop_write k wes res s f slot :
  inv k wes res s -> wfutures s !! f = Some slot ->
  exists ws l wes' res', drop_write_future (rw s) slot = Done (ws, l) /\
    inv k wes' res' (fired ws (mkSys l (rfutures s) (delete f (wfutures s)) (rsince s)
      (delete f (wsince s)) (rguards s) (wguards s))).
Proof.
  intros ([Hw Hr Hwl Hrl Hwt Hrt Hn] & Hh & Ht) Hf. unfold drop_write_future.
  destruct (linked_told_remove wes _ _ _ f slot Hwl Hwt Hf) as [Hwl' Hwt'].
  destruct slot as [e|].
  - destruct (Registration.deregister_in_repr fst _ wes (Some e) Hw) as (q & -> & Hq). outcome_simpl.
    apply (wake_next_inv k (Registration.deregister_abs fst wes (Some e)) res); [by split|by destruct Hh; split].
  - eexists [], _, wes, res. split; [done|]. split_and!; [by split|by destruct Hh; split|].
    intros Hfree Hne. destruct (Ht Hfree Hne) as (g & e & Hg & Hp). exists g, e. simpl.
    rewrite lookup_delete_ne; [done|]. intros <-. congruence.
Qed.

Lemma inv_create k wes res s f :
  inv k wes res s ->
  (rfutures s !! f = None -> inv k wes res (mkSys (rw s) (<[f := None]> (rfutures s)) (wfutures s)
     (<[f := []]> (rsince s)) (wsince s) (rguards s) (wguards s))) /\
  (wfutures s !! f = None -> inv k wes res (mkSys (rw s) (rfutures s) (<[f := None]> (wfutures s))
     (rsince s) (<[f := []]> (wsince s)) (rguards s) (wguards s))).
Proof.
  intros ([Hw Hr Hwl Hrl Hwt Hrt Hn] & Hh & Ht).
  split; intros Hf; split_and!; try (by destruct Hh; split); try done.
  - split; simpl; try done; [by apply Registration.linked_add|by apply Registration.told_add].
  - split; simpl; try done; [by apply Registration.linked_add|by apply Registration.told_add].
  - intros Hfree Hne. destruct (Ht Hfree Hne) as (g & e & Hg & Hp). exists g, e. simpl.
    rewrite lookup_insert_ne; [done|]. intros <-. congruence.
Qed.

Lemma try_read_repr k s :
  holding k s -> (k < usize_max)%Z ->
  try_read (rw s) = if negb (writer (rw s)) then Done (true, set_readers (rw s) (readers (rw s) + 1))
    else Done (false, rw s).
Proof.
  intros [_ Hb _ _] Hk. unfold try_read, add_reader, checked_add.
  rewrite (proj2 (Z.leb_le _ _)) by lia. by destruct (writer (rw s)).
Qed.

(** Releasing one of the readers. *)
Lemma release_read_inv k wes res s g :
  waiting k wes res s -> holding k s -> rguards s = S g ->
  exists ws l wes' res', release_read (rw s) = Done (ws, l) /\
    inv k wes' res' (fired ws (mkSys l (rfutures s) (wfutures s) (rsince s) (wsince s) g (wguards s))).
Proof.
  intros [Hw Hr Hwl Hrl Hwt Hrt Hn] [Hrd Hb Hwr Hex] Hg. unfold release_read, debug_assert, assert_or, sub_usize.
  rewrite (proj2 (Z.ltb_lt _ _)), (proj2 (Z.leb_le _ _)) by lia.
  assert (forall c : bool, (if c then Done tt else Done tt) = Done tt) as -> by (by intros []).
  outcome_simpl.
  apply (wake_next_inv k wes res); [by split|]. split; simpl; try done; try lia.
  intros Hex'. apply Hex in Hex'. lia.
Qed.

Lemma release_write_inv k wes res s g :
  waiting k wes res s -> holding k s -> wguards s = S g ->
  exists ws l wes' res', release_write (rw s) = Done (ws, l) /\
    inv k wes' res' (fired ws (mkSys l (rfutures s) (wfutures s) (rsince s) (wsince s) (rguards s) g)).
Proof.
  intros [Hw Hr Hwl Hrl Hwt Hrt Hn] [Hrd Hb Hwr Hex] Hg. unfold release_write, debug_assert, assert_or.
  destruct (writer (rw s)) eqn:Ewr; [|lia].
  assert (forall c : bool, (if c then Done tt else Done tt) = Done tt) as -> by (by intros []).
  outcome_simpl.
  apply (wake_next_inv k wes res); [by split|]. split; simpl; try done; lia.
Qed.

Lemma rwlock_inv_exec k wes res s ev :
  inv k wes res s -> (k < usize_max)%Z ->
  exists s' wes' res', exec s ev = Done s' /\ inv (k + 1) wes' res' s'.
Proof.
  intros Hinv Hk. assert (inv (k + 1) wes res s) as Hinv' by (eapply rwlock_inv_weaken; [done|lia]).
  pose proof Hinv' as (Hw' & Hh' & Ht'). pose proof Hinv as (Hw & Hh & Ht).
  destruct ev as [f|f w|f|f|f w|f| | |v| | |]; cbn [exec].
  - destruct (rfutures s !! f) eqn:Hf; [by eexists _, _, _|].
    eexists _, _, _. split; [done|]. by apply inv_create.
  - destruct (rfutures s !! f) as [slot|] eqn:Hf; [|by eexists _, _, _].
    destruct (inv_poll_read k wes res s f w slot Hinv Hk Hf) as (l & sl & r & res' & -> & Hi & _).
    by eexists _, _, _.
  - destruct (rfutures s !! f) as [slot|] eqn:Hf; [|by eexists _, _, _].
    destruct (inv_drop_read _ wes res s f slot Hinv' Hf) as (ws & l & wes' & res' & -> & Hi).
    by eexists _, _, _.
  - destruct (wfutures s !! f) eqn:Hf; [by eexists _, _, _|].
    eexists _, _, _. split; [done|]. by apply inv_create.
  - destruct (wfutures s !! f) as [slot|] eqn:Hf; [|by eexists _, _, _].
    destruct (inv_poll_write k wes res s f w slot Hinv Hk Hf) as (l & sl & r & wes' & -> & Hi & _).
    by eexists _, _, _.
  - destruct (wfutures s !! f) as [slot|] eqn:Hf; [|by eexists _, _, _].
    destruct (inv_drop_write _ wes res s f slot Hinv' Hf) as (ws & l & wes' & res' & -> & Hi).
    by eexists _, _, _.
  - rewrite (try_read_repr k) by done. destruct (writer (rw s)) eqn:Ewr; cbn [negb]; outcome_simpl.
    { eexists _, wes, res. split; [done|]. split_and!; [by destruct Hw'; split|by destruct Hh'; split|done]. }
    eexists _, wes, res. split; [done|]. destruct Hh as [Hrd Hb Hwr Hex].
    split_and!; [by destruct Hw'; split|split; simpl; rewrite ?Hwr, ?Ewr; try done; lia|].
    unfold turn, is_locked. simpl. rewrite (proj2 (Z.ltb_lt _ _)) by lia. done.
  - unfold try_write. destruct (_ && _) eqn:Etest.
    + bool_props. eexists _, wes, res. split; [done|]. destruct Hh' as [Hrd Hb Hwr Hex].
      split_and!; [by destruct Hw'; split|split; simpl; try done; [by rewrite Hwr; case_match|lia]|].
      intros Hfree. apply orb_false_iff in Hfree as [_ Hfree]. done.
    + eexists _, wes, res. split; [done|]. split_and!; [by destruct Hw'; split|by destruct Hh'; split|done].
  - destruct (wguards s) eqn:Hg; [by eexists _, _, _|]. eexists _, wes, res. split; [done|].
    split_and!; [by destruct Hw'; split|by destruct Hh'; split; rewrite <-?Hg|done].
  - destruct (rguards s) eqn:Hg; [by eexists _, _, _|].
    destruct (release_read_inv _ wes res s _ Hw' Hh' Hg) as (ws & l & wes' & res' & Hrel & Hi).
    unfold drop_read_guard. rewrite Hrel. by eexists _, _, _.
  - destruct (wguards s) eqn:Hg; [by eexists _, _, _|].
    destruct (release_write_inv _ wes res s _ Hw' Hh' Hg) as (ws & l & wes' & res' & Hrel & Hi).
    unfold drop_write_guard. rewrite Hrel. by eexists _, _, _.
  - unfold fmt. rewrite (try_read_repr k) by done. destruct (writer (rw s)) eqn:Ewr; cbn [negb]; outcome_simpl.
    { eexists _, wes, res. split; [done|]. split_and!; [by destruct Hw'; split|by destruct Hh'; split|done]. }
    destruct Hh as [Hrd Hb Hwr Hex].
    destruct (release_read_inv (k + 1) wes res (mkSys (set_readers (rw s) (readers (rw s) + 1))
      (rfutures s) (wfutures s) (rsince s) (wsince s) (S (rguards s)) (wguards s)) (rguards s))
      as (ws & l & wes' & res' & Hrel & Hi); [by destruct Hw'; split|split; simpl; rewrite ?Hwr, ?Ewr; done || lia|done|].
    unfold drop_read_guard. simpl in Hrel. rewrite Hrel. by eexists _, _, _.
Qed.

Lemma rwlock_run_inv evs k wes res s :
  inv k wes res s -> (k + Z.of_nat (length evs) <= usize_max)%Z ->
  exists s' wes' res', run s evs = Done s' /\ inv (k + Z.of_nat (length evs)) wes' res' s'.
Proof.
  revert k wes res s. induction evs as [|ev evs IH]; intros k wes res s Hinv Hk; cbn [run length] in *.
  - eexists _, _, _. split; [done|]. rewrite Z.add_0_r. done.
  - destruct (rwlock_inv_exec k wes res s ev Hinv) as (s1 & wes1 & res1 & -> & Hinv1); [lia|]. outcome_simpl.
    destruct (IH (k + 1)%Z wes1 res1 s1 Hinv1) as (s2 & wes2 & res2 & -> & Hinv2); [lia|].
    eexists _, _, _. split; [done|].
    by replace (k + Z.of_nat (S (length evs)))%Z with (k + 1 + Z.of_nat (length evs))%Z by lia.
Qed.

(** A run from [init] and the wait lists it ends with. *)
Lemma rwlock_run_init v evs s wes res :
  (Z.of_nat (length evs) <= usize_max)%Z -> run (init v) evs = Done s ->
  wl_iter (write_waiters (rw s)) = Done wes -> wl_iter (read_waiters (rw s)) = Done res ->
  inv (Z.of_nat (length evs)) wes res s.
Proof.
  intros Hlen Hrun Hwi Hri.
  destruct (rwlock_run_inv evs 0 [] [] (init v) (rwlock_inv_init v) Hlen) as (s' & wes' & res' & Hrun' & Hinv).
  rewrite Hrun in Hrun'. injection Hrun' as <-.
  pose proof Hinv as ([Hw Hr _ _ _ _ _] & _ & _).
  rewrite (wl_iter_repr _ _ Hw) in Hwi. rewrite (wl_iter_repr _ _ Hr) in Hri.
  injection Hwi as <-. by injection Hri as <-.
Qed.
End rwlock.
Arguments sys {_} T Q.
Arguments event {_} T.
Arguments LocalRwLock T Q : clear implicits.

(** ** Properties *)
Section properties.
Context `{BuildMode} `{Wakers} {T Q : Type} `{WaitList Q (Z * waker), !WaitListLaws Q (Z * waker)}.

(** C24: readers and writers exclude each other. Whatever fewer than [2^64] calls
    the program makes, in any order and with any wakers, none panics or hits
    undefined behaviour; at most one write guard is alive, and none while a read
    guard is; and the counters the lock keeps agree with the guards alive. *)
Theorem rwlock_exclusion (v : T) (evs : list (event T)) :
  (Z.of_nat (length evs) <= usize_max)%Z ->
  exists s : sys T Q, run (init v) evs = Done s /\
    wguards s <= 1 /\ (wguards s = 1 -> rguards s = 0) /\
    reader_count (rw s) = Z.of_nat (rguards s) /\
    (is_write_locked (rw s) = true <-> wguards s = 1).
Proof.
  intros Hlen. destruct (rwlock_run_inv evs 0 [] [] (init v) (rwlock_inv_init v) Hlen) as (s & wes & res & -> & Hinv).
  exists s. split; [done|]. destruct Hinv as (_ & [Hrd Hb Hwr Hex] & _).
  unfold reader_count, is_write_locked.
  destruct (writer (rw s)); rewrite Hwr; split_and!; done || lia || (by intros; apply Hex).
Qed.

(** C25: no wakeup is lost. Whenever the lock is free while any future is queued,
    a live write future outside the queue has been told (its most recent waker
    was fired since its last poll) and polling it takes the lock; and a queued
    or popped future of either kind is never forgotten: every registered future
    is queued, or its current waker has been fired since its last poll. *)
Theorem rwlock_no_lost_wakeup (v : T) (evs : list (event T)) (s : sys T Q)
    (wes res : list (Z * waker)) (w : waker) :
  (Z.of_nat (length evs) < usize_max)%Z ->
  run (init v) evs = Done s ->
  wl_iter (write_waiters (rw s)) = Done wes -> wl_iter (read_waiters (rw s)) = Done res ->
  (is_locked (rw s) = false -> wes ++ res <> [] ->
    exists f e ws, wfutures s !! f = Some (Some e) /\ (e.1 ∉ wes.*1) /\
      wsince s !! f = Some ws /\ e.2 ∈ ws /\
      exists l slot, poll_write (rw s) (Some e) w = Done (l, slot, Ready tt)) /\
  (forall f e, rfutures s !! f = Some (Some e) ->
    e ∈ res \/ exists ws, rsince s !! f = Some ws /\ e.2 ∈ ws) /\
  (forall f e, wfutures s !! f = Some (Some e) ->
    e ∈ wes \/ exists ws, wsince s !! f = Some ws /\ e.2 ∈ ws).
Proof.
  intros Hlen Hrun Hwi Hri.
  pose proof (rwlock_run_init v evs s wes res ltac:(lia) Hrun Hwi Hri) as Hinv.
  pose proof Hinv as ([_ _ _ _ [_ Hwt] [_ Hrt] _] & _ & Ht). split_and!.
  - intros Hfree Hne. destruct (Ht Hfree) as (f & e & Hf & Hp).
    { destruct wes; [right; by intros ->|by left]. }
    destruct (Hwt f e Hf) as [He|[_ (ws & Hws & Hin)]].
    { exfalso. apply Hp, list_elem_of_fmap. by exists e. }
    exists f, e, ws. split_and!; try done.
    destruct (inv_poll_write _ wes res s f w (Some e) Hinv) as (l & slot & r & _ & Hpoll & _ & Hr);
      [lia|done|]. exists l, slot. by rewrite Hpoll, (proj2 Hr Hfree).
  - intros f e Hf. destruct (Hrt f e Hf) as [?|[_ ?]]; [by left|by right].
  - intros f e Hf. destruct (Hwt f e Hf) as [?|[_ ?]]; [by left|by right].
Qed.

(** C39: write preference. A [read()] future is granted exactly when no writer is
    active and none is queued; a [write()] future exactly when the lock is free;
    and the turn passed on by a free lock goes to the longest waiting writer
    alone, or, only if no writer waits, to every waiting reader in arrival
    order. *)
Theorem rwlock_write_preferring (v : T) (evs : list (event T)) (s : sys T Q)
    (wes res : list (Z * waker)) :
  (Z.of_nat (length evs) < usize_max)%Z ->
  run (init v) evs = Done s ->
  wl_iter (write_waiters (rw s)) = Done wes -> wl_iter (read_waiters (rw s)) = Done res ->
  (forall f slot w, rfutures s !! f = Some slot ->
    exists l slot' r, poll_read (rw s) slot w = Done (l, slot', r) /\
      (r = Ready tt <-> is_write_locked (rw s) = false /\ wes = [])) /\
  (forall f slot w, wfutures s !! f = Some slot ->
    exists l slot' r, poll_write (rw s) slot w = Done (l, slot', r) /\
      (r = Ready tt <-> is_locked (rw s) = false)) /\
  (is_locked (rw s) = false ->
    exists l, wake_next (rw s) = Done (match wes with e :: _ => [e.2] | [] => res.*2 end, l)).
Proof.
  intros Hlen Hrun Hwi Hri.
  pose proof (rwlock_run_init v evs s wes res ltac:(lia) Hrun Hwi Hri) as Hinv. split_and!.
  - intros f slot w Hf. destruct (inv_poll_read _ _ _ s f w slot Hinv) as (l & sl & r & _ & Hp & _ & Hr);
      [lia|done|]. by exists l, sl, r.
  - intros f slot w Hf. destruct (inv_poll_write _ _ _ s f w slot Hinv) as (l & sl & r & _ & Hp & _ & Hr);
      [lia|done|]. by exists l, sl, r.
  - intros Hfree. destruct Hinv as ([Hw Hr _ _ _ _ _] & _).
    destruct (rwlock_wake_next_repr _ wes res Hfree Hw Hr) as (wq & rq & -> & _). by eexists.
Qed.
End properties.

#[local] Instance nat_wakers : Wakers := {| waker := nat; will_wake := Nat.eqb |}.
#[local] Existing Instance debug_build.
Abbreviation nat_queue := (Queue.QueueInternal (Z * nat)).

(** A writer and a reader queue behind a writer; the release tells the writer. *)
Definition demo_events : list (event nat) :=
  [EvTryWrite; EvStore 7; EvWrite 0; EvRead 0; EvPollRead 0 11; EvPollWrite 0 10; EvDropWriteGuard].

Definition demo_final : sys nat nat_queue :=
  Eval vm_compute in match run (init 5) demo_events with Done s => s | _ => init 5 end.

Lemma rwlock_exclusion_witness :
  exists s : sys nat nat_queue, run (init 5) demo_events = Done s /\
    wguards s <= 1 /\ (wguards s = 1 -> rguards s = 0) /\
    reader_count (rw s) = Z.of_nat (rguards s) /\
    (is_write_locked (rw s) = true <-> wguards s = 1).
Proof. apply rwlock_exclusion. vm_compute. discriminate. Defined.

Lemma rwlock_no_lost_wakeup_witness :
  exists f e ws, wfutures demo_final !! f = Some (Some e) /\ (e.1 ∉ ([] : list (Z * nat)).*1) /\
      wsince demo_final !! f = Some ws /\ e.2 ∈ ws /\
      exists l slot, poll_write (rw demo_final) (Some e) 3 = Done (l, slot, Ready tt).
Proof.
  refine (proj1 (rwlock_no_lost_wakeup (Q := nat_queue) 5 demo_events demo_final
    [] [(0%Z, 11)] 3 _ _ _ _) _ _); by vm_compute.
Defined.

Lemma rwlock_write_preferring_witness :
  exists l, wake_next (rw demo_final) = Done ([11], l).
Proof.
  refine (proj2 (proj2 (rwlock_write_preferring (Q := nat_queue) 5 demo_events demo_final
    [] [(0%Z, 11)] _ _ _ _)) _); by vm_compute.
Defined.

(** Cancelling the last queued writer while the lock is read-locked wakes
    nobody: a reader that had deferred to that writer stays asleep although a
    poll would now grant it the lock. *)
Theorem cancelled_writer_strands_reader :
  exists s : sys nat nat_queue,
    run (init 5) [EvTryRead; EvWrite 0; EvPollWrite 0 10; EvRead 0; EvPollRead 0 11; EvDropWrite 0] = Done s /\
    rsince s !! 0 = Some [] /\
    exists slot, rfutures s !! 0 = Some slot /\
    exists l slot', poll_read (rw s) slot 11 = Done (l, slot', Ready tt).
Proof.
  eexists. split; [vm_compute; reflexivity|]. split; [by vm_compute|].
  eexists. split; [vm_compute; reflexivity|]. eexists _, _. by vm_compute.
Qed.
End RwLock.
