(* ===== verification/AlignedBuffer.v ===== *)
(** * [AlignedBuffer] ([src/site_d/buffer.rs])

    [Module Buffer]: the owning aligned heap buffer. The heap maps the base
    address of each live allocation to the layout it was made with and its
    elements; the allocator is an interface ([Allocator]) that may pick any free
    suitably aligned address, or fail. *)
From stdpp Require Import base list gmap numbers strings.
From S2P Require Import Prelude.

(** A type whose all-zero bit pattern is a value. *)
Class Zeroable (T : Type) : Type := {
  zeroed : T;
  size_of : Z;
  align_of : Z
}.

Module Buffer.
Record Layout : Type := mkLayout { l_size : Z; l_align : Z }.

#[global] Instance layout_eq_dec : EqDecision Layout.
Proof. solve_decision. Defined.

Section buffer.
Context {T : Type} `{Zeroable T} `{BuildMode}.

Abbreviation heap := (gmap Z (Layout * list T)).

(** [alloc_zeroed]: the address it returns, [0] for null. *)
Class Allocator : Type := {
  alloc_addr : heap -> Layout -> Z;
  alloc_fresh h l : alloc_addr h l <> 0%Z -> h !! alloc_addr h l = None;
  alloc_aligned h l : alloc_addr h l <> 0%Z -> (alloc_addr h l `mod` l_align l)%Z = 0%Z
}.
Context `{Allocator}.

Record AlignedBuffer : Type := mkBuf { ptr : Z; len : Z; cap : Z; align : Z }.

Definition is_power_of_two (n : Z) : bool := (0 <? n)%Z && (Z.land n (n - 1) =? 0)%Z.

(** [Layout::array] then [align_to]: both fail when the size, rounded up to the
    alignment, would exceed [isize::MAX]. *)
Definition layout_for (capacity al : Z) : outcome Layout :=
  let size := (size_of * capacity)%Z in
  if (size <=? isize_max - (align_of - 1))%Z && is_power_of_two al
     && (size <=? isize_max - (Z.max al align_of - 1))%Z
  then Done (mkLayout size (Z.max al align_of))
  else Panicked "invalid buffer layout (capacity overflow)".

Definition with_alignment (h : heap) (capacity al : Z) : outcome (AlignedBuffer * heap) :=
  _ ← assert_or (0 <? capacity)%Z "capacity must be greater than 0";
  _ ← assert_or (negb (size_of =? 0)%Z) "zero-sized element types are not supported";
  _ ← assert_or (is_power_of_two al) "alignment must be a power of two";
  _ ← assert_or (align_of <=? al)%Z "alignment must be >= align_of::<T>()";
  layout ← layout_for capacity al;
  let raw := alloc_addr h layout in
  if (raw =? 0)%Z then Panicked "memory allocation failed"
  else
    _ ← debug_assert (raw `mod` al =? 0)%Z "assertion failed: ptr % align == 0";
    Done (mkBuf raw 0 capacity al,
          <[raw := (layout, replicate (Z.to_nat capacity) zeroed)]> h).

Definition new (h : heap) (capacity : Z) : outcome (AlignedBuffer * heap) :=
  with_alignment h capacity align_of.

Definition capacity (b : AlignedBuffer) : Z := cap b.
Definition alignment (b : AlignedBuffer) : Z := align b.
Definition is_empty (b : AlignedBuffer) : bool := (len b =? 0)%Z.

Definition set_len (b : AlignedBuffer) (new_len : Z) : outcome AlignedBuffer :=
  _ ← assert_or (new_len <=? cap b)%Z "len exceeds capacity";
  Done (mkBuf (ptr b) new_len (cap b) (align b)).

(** [slice::from_raw_parts(p, n)]: the first [n] elements of an allocation. *)
Definition from_raw_parts (h : heap) (p n : Z) : outcome (list T) :=
  match h !! p with
  | Some (_, data) => if (n <=? Z.of_nat (length data))%Z then Done (take (Z.to_nat n) data) else Undefined
  | None => Undefined
  end.

(** A store of [xs] over the first elements of an allocation. *)
Definition store (h : heap) (p : Z) (xs : list T) : outcome heap :=
  match h !! p with
  | Some (l, data) =>
      if length xs <=? length data then Done (<[p := (l, xs ++ drop (length xs) data)]> h) else Undefined
  | None => Undefined
  end.

(** [capacity_mut] is a mutable slice of the whole capacity, [deref] and
    [deref_mut] slices of the logical length. What the holder of a mutable
    slice does with it is a function on its elements that keeps their number. *)
Definition capacity_mut (h : heap) (b : AlignedBuffer) (f : list T -> list T) : outcome heap :=
  xs ← from_raw_parts h (ptr b) (cap b); store h (ptr b) (f xs).
Definition deref (h : heap) (b : AlignedBuffer) : outcome (list T) := from_raw_parts h (ptr b) (len b).
Definition deref_mut (h : heap) (b : AlignedBuffer) (f : list T -> list T) : outcome heap :=
  xs ← from_raw_parts h (ptr b) (len b); store h (ptr b) (f xs).

Definition into_raw (b : AlignedBuffer) : Z * Z := (ptr b, len b).

Definition from_raw_with_len (p n c al : Z) : outcome AlignedBuffer :=
  _ ← debug_assert (negb (p =? 0)%Z) "assertion failed: !ptr.is_null()";
  _ ← debug_assert (n <=? c)%Z "assertion failed: len <= cap";
  _ ← debug_assert (p `mod` al =? 0)%Z "assertion failed: ptr % align == 0";
  Done (mkBuf p n c al).

(** Freeing with another layout than the allocation's, or twice, is undefined. *)
Definition dealloc (h : heap) (p : Z) (l : Layout) : outcome heap :=
  match h !! p with
  | Some (l', _) => if decide (l' = l) then Done (delete p h) else Undefined
  | None => Undefined
  end.

Definition drop_buffer (h : heap) (b : AlignedBuffer) : outcome heap :=
  l ← layout_for (cap b) (align b); dealloc h (ptr b) l.

(** [IoBuf], [IoBufMut]. *)
Definition bytes_init (b : AlignedBuffer) : Z := len b.
Definition bytes_total (b : AlignedBuffer) : Z := cap b.
Definition set_init (b : AlignedBuffer) (pos : Z) : AlignedBuffer := mkBuf (ptr b) pos (cap b) (align b).

(** ** Well-formedness: the buffer owns a live allocation of its capacity. *)
Record owns (h : heap) (b : AlignedBuffer) (data : list T) : Prop := {
  owns_layout : exists l, layout_for (cap b) (align b) = Done l /\ h !! ptr b = Some (l, data);
  owns_cap : Z.of_nat (length data) = cap b;
  owns_len : (0 <= len b <= cap b)%Z;
  owns_ptr : ptr b <> 0%Z /\ (ptr b `mod` align b = 0)%Z
}.

Lemma debug_assert_true msg : debug_assert true msg = Done tt.
Proof. unfold debug_assert. by destruct overflow_checks. Qed.

Lemma is_power_of_two_pos n : is_power_of_two n = true -> (0 < n)%Z.
Proof. unfold is_power_of_two. intros. bool_props. lia. Qed.

Lemma layout_for_done c al l :
  layout_for c al = Done l ->
  l = mkLayout (size_of * c) (Z.max al align_of) /\ is_power_of_two al = true.
Proof. unfold layout_for. case_tests; [|done]. intros [= <-]. bool_props. done. Qed.

(** A fresh allocation. *)
Lemma with_alignment_spec h c al l :
  (0 < c)%Z -> size_of <> 0%Z -> (align_of <= al)%Z -> layout_for c al = Done l ->
  alloc_addr h l <> 0%Z ->
  with_alignment h c al = Done (mkBuf (alloc_addr h l) 0 c al,
    <[alloc_addr h l := (l, replicate (Z.to_nat c) zeroed)]> h).
Proof.
  intros Hc Hs Ha Hl Hnn. destruct (layout_for_done c al l Hl) as [Heq Hp].
  unfold with_alignment, assert_or.
  rewrite (proj2 (Z.ltb_lt _ _)), (proj2 (Z.eqb_neq _ _) Hs), Hp, (proj2 (Z.leb_le _ _)) by done.
  cbn [negb]. outcome_simpl. rewrite Hl. outcome_simpl. rewrite (proj2 (Z.eqb_neq _ _) Hnn).
  pose proof (alloc_aligned h l Hnn) as Hal. rewrite Heq in Hal at 2. cbn [l_align] in Hal.
  rewrite Z.max_l in Hal by done. rewrite Hal. by rewrite debug_assert_true.
Qed.

Lemma owns_insert h b data p x :
  owns h b data -> ptr b <> p -> owns (<[p := x]> h) b data.
Proof.
  intros [(l & Hl & Hh) Hc Hn Hp] Hne. split; try done. exists l.
  split; [done|]. by rewrite lookup_insert_ne.
Qed.

Lemma with_alignment_owns h c al l :
  (0 < c)%Z -> layout_for c al = Done l -> (align_of <= al)%Z -> alloc_addr h l <> 0%Z ->
  owns (<[alloc_addr h l := (l, replicate (Z.to_nat c) zeroed)]> h) (mkBuf (alloc_addr h l) 0 c al)
    (replicate (Z.to_nat c) zeroed).
Proof.
  intros Hc Hl Ha Hnn. destruct (layout_for_done c al l Hl) as [Heq _]. split; simpl.
  - exists l. split; [done|]. apply lookup_insert_eq.
  - rewrite length_replicate. lia.
  - lia.
  - split; [done|]. pose proof (alloc_aligned h l Hnn) as Hal. rewrite Heq in Hal at 2.
    cbn [l_align] in Hal. by rewrite Z.max_l in Hal.
Qed.

Lemma from_raw_parts_owns h b data n :
  owns h b data -> (n <= cap b)%Z -> from_raw_parts h (ptr b) n = Done (take (Z.to_nat n) data).
Proof.
  intros [(l & _ & Hh) Hc Hn Hp] Hle. unfold from_raw_parts. rewrite Hh.
  by rewrite (proj2 (Z.leb_le _ _)) by lia.
Qed.

Lemma owns_all h b data : owns h b data -> take (Z.to_nat (cap b)) data = data.
Proof. intros [_ Hc _ _]. apply take_ge. lia. Qed.

(** Storing through a buffer's pointer: the buffer owns the new contents. *)
Lemma store_owns h b data xs :
  owns h b data -> length xs <= length data ->
  exists l h', store h (ptr b) xs = Done h' /\
    h' = <[ptr b := (l, xs ++ drop (length xs) data)]> h /\
    owns h' b (xs ++ drop (length xs) data).
Proof.
  intros [(l & Hl & Hh) Hc Hn Hp] Hle. unfold store. rewrite Hh, (proj2 (Nat.leb_le _ _)) by done.
  exists l. eexists. split; [done|]. split; [done|]. split; try done.
  - exists l. split; [done|]. apply lookup_insert_eq.
  - rewrite length_app, length_drop. lia.
Qed.

Lemma set_len_spec b n :
  (n <= cap b)%Z -> set_len b n = Done (mkBuf (ptr b) n (cap b) (align b)).
Proof. intros. unfold set_len, assert_or. by rewrite (proj2 (Z.leb_le _ _)). Qed.

Lemma owns_set_len h b data n :
  owns h b data -> (0 <= n <= cap b)%Z -> owns h (mkBuf (ptr b) n (cap b) (align b)) data.
Proof. intros [Hl Hc Hn Hp] Hle. by split. Qed.

Lemma drop_buffer_owns h b data : owns h b data -> drop_buffer h b = Done (delete (ptr b) h).
Proof.
  intros [(l & Hl & Hh) Hc Hn Hp]. unfold drop_buffer. rewrite Hl. outcome_simpl.
  unfold dealloc. rewrite Hh. by rewrite decide_True.
Qed.

Lemma from_raw_owns h b data :
  owns h b data -> from_raw_with_len (into_raw b).1 (into_raw b).2 (cap b) (align b) = Done b.
Proof.
  intros [_ _ Hn [Hp Ha]]. unfold from_raw_with_len. simpl.
  rewrite (proj2 (Z.eqb_neq _ _) Hp), (proj2 (Z.leb_le _ _)) by lia. rewrite Ha. cbn [negb].
  rewrite !debug_assert_true. by destruct b.
Qed.

(** Every branch of [with_alignment]. *)
Ltac with_alignment_cases :=
  unfold with_alignment, layout_for, debug_assert, assert_or; cbn zeta;
  repeat (progress (case_tests; outcome_simpl; unfold assert_or)).

Lemma with_alignment_inv h c al b h1 :
  with_alignment h c al = Done (b, h1) ->
  exists l, layout_for c al = Done l /\ (0 < c)%Z /\ size_of <> 0%Z /\ (align_of <= al)%Z /\
    alloc_addr h l <> 0%Z.
Proof. with_alignment_cases; try done; intros _; by eexists. Qed.

Lemma with_alignment_done h c al b h' :
  with_alignment h c al = Done (b, h') ->
  exists l, layout_for c al = Done l /\ alloc_addr h l <> 0%Z /\ b = mkBuf (alloc_addr h l) 0 c al /\
    h' = <[alloc_addr h l := (l, replicate (Z.to_nat c) zeroed)]> h /\
    owns h' b (replicate (Z.to_nat c) zeroed).
Proof.
  intros Hnew.
  destruct (with_alignment_inv h c al b h' Hnew) as (l & Hl & Hc & Hs & Ha & Hnn).
  rewrite (with_alignment_spec h c al l) in Hnew by done. injection Hnew as <- <-.
  exists l. split_and!; try done. by apply with_alignment_owns.
Qed.

(** ** Uses of one buffer *)
Inductive buffer_op : Type :=
| OpSetLen (n : N)
| OpCapacityMut (f : list T -> list T)
| OpDerefMut (f : list T -> list T)
| OpRoundTrip.                     (* [into_raw], then [from_raw_with_len] *)

Definition apply_op (h : heap) (b : AlignedBuffer) (op : buffer_op) : outcome (AlignedBuffer * heap) :=
  match op with
  | OpSetLen n => b ← set_len b (Z.of_N n); Done (b, h)
  | OpCapacityMut f => h ← capacity_mut h b f; Done (b, h)
  | OpDerefMut f => h ← deref_mut h b f; Done (b, h)
  | OpRoundTrip =>
      let '(p, n) := into_raw b in b ← from_raw_with_len p n (cap b) (align b); Done (b, h)
  end.

Fixpoint apply_ops (h : heap) (b : AlignedBuffer) (ops : list buffer_op) : outcome (AlignedBuffer * heap) :=
  match ops with
  | [] => Done (b, h)
  | op :: ops => '(b, h) ← apply_op h b op; apply_ops h b ops
  end.

(** A slice cannot be resized through a mutable reference. *)
Definition keeps_length (op : buffer_op) : Prop :=
  match op with
  | OpCapacityMut f | OpDerefMut f => forall xs, length (f xs) = length xs
  | _ => True
  end.

Definition fits (c : Z) (op : buffer_op) : Prop :=
  match op with OpSetLen n => (Z.of_N n <= c)%Z | _ => True end.

Lemma apply_op_owns h b data op :
  owns h b data -> keeps_length op -> fits (cap b) op ->
  exists b' h' data', apply_op h b op = Done (b', h') /\ owns h' b' data' /\
    ptr b' = ptr b /\ cap b' = cap b /\ delete (ptr b) h' = delete (ptr b) h.
Proof.
  intros Ho Hk Hf. destruct op as [n|f|f|]; cbn [apply_op keeps_length fits] in *.
  - rewrite set_len_spec by done. eexists _, h, data. split; [done|].
    split; [apply owns_set_len; [done|lia]|done].
  - unfold capacity_mut. rewrite (from_raw_parts_owns h b data), (owns_all h b data) by done. outcome_simpl.
    destruct (store_owns h b data (f data)) as (l & h' & -> & -> & Ho'); [done|by rewrite Hk|].
    eexists b, _, _. split; [done|]. split; [done|]. split_and!; [done..|]. apply delete_insert_eq.
  - unfold deref_mut. rewrite (from_raw_parts_owns h b data) by (done || apply Ho). outcome_simpl.
    destruct (store_owns h b data (f (take (Z.to_nat (len b)) data))) as (l & h' & -> & -> & Ho');
      [done|rewrite Hk, length_take; lia|].
    eexists b, _, _. split; [done|]. split; [done|]. split_and!; [done..|]. apply delete_insert_eq.
  - pose proof (from_raw_owns h b data Ho) as Hr. simpl in Hr. unfold into_raw. rewrite Hr. by exists b, h, data.
Qed.

Lemma apply_ops_owns ops h b data :
  owns h b data -> Forall keeps_length ops -> Forall (fits (cap b)) ops ->
  exists b' h' data', apply_ops h b ops = Done (b', h') /\ owns h' b' data' /\
    ptr b' = ptr b /\ cap b' = cap b /\ delete (ptr b) h' = delete (ptr b) h.
Proof.
  revert h b data. induction ops as [|op ops IH]; intros h b data Ho Hk Hf; cbn [apply_ops].
  { by exists b, h, data. }
  apply Forall_cons in Hk as [Hk1 Hk]. apply Forall_cons in Hf as [Hf1 Hf].
  destruct (apply_op_owns h b data op Ho Hk1 Hf1) as (b1 & h1 & d1 & -> & Ho1 & Hp1 & Hc1 & Hd1).
  outcome_simpl. destruct (IH h1 b1 d1) as (b2 & h2 & d2 & Hrun & Ho2 & Hp2 & Hc2 & Hd2); [done|done|by rewrite Hc1|].
  exists b2, h2, d2. rewrite Hp1 in *. split; [done|]. split_and!; [done|congruence..].
Qed.

(** ** Properties *)

(** [with_alignment] panics, with its documented message, exactly on the
    arguments its documentation forbids (and on layouts above [isize::MAX]);
    otherwise, if the allocator returns memory, the result is an empty, zeroed,
    aligned buffer of the requested capacity on a fresh allocation. *)
Theorem with_alignment_total (h : heap) (c al : Z) :
  (with_alignment h c al = Panicked "capacity must be greater than 0" <-> (c <= 0)%Z) /\
  ((0 < c)%Z -> size_of <> 0%Z ->
   (with_alignment h c al = Panicked "alignment must be a power of two" <-> is_power_of_two al = false)) /\
  ((0 < c)%Z -> size_of <> 0%Z -> is_power_of_two al = true ->
   (with_alignment h c al = Panicked "alignment must be >= align_of::<T>()" <-> (al < align_of)%Z)) /\
  (forall l, (0 < c)%Z -> size_of <> 0%Z -> (align_of <= al)%Z -> layout_for c al = Done l ->
    alloc_addr h l <> 0%Z ->
    exists b h', with_alignment h c al = Done (b, h') /\ h !! ptr b = None /\
      delete (ptr b) h' = h /\ owns h' b (replicate (Z.to_nat c) zeroed) /\
      capacity b = c /\ alignment b = al /\ is_empty b = true).
Proof.
  split_and!.
  - with_alignment_cases; split; done || lia.
  - intros Hc Hs. with_alignment_cases; split; done || lia || congruence.
  - intros Hc Hs Hp. with_alignment_cases; split; done || lia || congruence.
  - intros l Hc Hs Ha Hl Hnn. eexists _, _. rewrite (with_alignment_spec h c al l) by done.
    split; [done|]. simpl. split; [by apply alloc_fresh|].
    split; [by apply delete_insert_id, alloc_fresh|]. by split_and!; try apply with_alignment_owns.
Qed.

(** C37: a buffer's life is memory safe. From allocation, through any uses that
    do not exceed its capacity (logical length changes, writes through either
    slice, raw round trips), no use panics or is undefined, each keeps the
    buffer's pointer and capacity and touches no other allocation, and dropping
    the buffer frees exactly its allocation, with the layout it was made with. *)
Theorem buffer_life_safe (h h1 : heap) (c al : Z) (b : AlignedBuffer) (ops : list buffer_op) :
  with_alignment h c al = Done (b, h1) ->
  Forall keeps_length ops -> Forall (fits c) ops ->
  exists b' h', apply_ops h1 b ops = Done (b', h') /\ ptr b' = ptr b /\ capacity b' = c /\
    (exists xs, deref h' b' = Done xs /\ Z.of_nat (length xs) = len b') /\
    drop_buffer h' b' = Done h.
Proof.
  intros Hnew Hk Hf.
  destruct (with_alignment_inv h c al b h1 Hnew) as (l & Hl & Hc & Hs & Ha & Hnn).
  rewrite (with_alignment_spec h c al l) in Hnew by done. injection Hnew as <- <-.
  pose proof (with_alignment_owns h c al l Hc Hl Ha Hnn) as Ho.
  destruct (apply_ops_owns ops _ _ _ Ho Hk) as (b' & h' & d' & -> & Ho' & Hp' & Hc' & Hd'); [done|].
  exists b', h'. split; [done|]. split_and!; [done|done| |].
  - unfold deref. rewrite (from_raw_parts_owns h' b' d') by (done || apply Ho').
    eexists. split; [done|]. rewrite length_take. destruct Ho' as [_ Hcap Hlen _]. lia.
  - rewrite (drop_buffer_owns h' b' d') by done. rewrite Hp', Hd'. simpl.
    f_equal. by apply delete_insert_id, alloc_fresh.
Qed.
End buffer.
Arguments Allocator T : clear implicits.
Arguments buffer_op T : clear implicits.

(** ** A concrete allocator *)
Section bump.
Context {T : Type}.

Definition top (h : gmap Z (Layout * list T)) : Z :=
  map_fold (fun k _ m => Z.max k m) 0%Z h.

Lemma top_ge h k x : h !! k = Some x -> (k <= top h)%Z.
Proof.
  unfold top. revert k x. induction h as [|i y m Hi Hfirst IH] using map_first_key_ind; intros k x Hk; [done|].
  rewrite map_fold_insert_first_key by done.
  apply lookup_insert_Some in Hk as [[-> ->]|[_ Hk]]; [lia|]. pose proof (IH _ _ Hk). lia.
Qed.

(** The first multiple of the alignment above every live address. *)
Definition bump_addr (h : gmap Z (Layout * list T)) (l : Layout) : Z :=
  if (0 <? l_align l)%Z then (Z.max 0 (top h) + 1) * l_align l else 0.

#[export] Program Instance bump_allocator : Allocator T := {| alloc_addr := bump_addr |}.
Next Obligation.
  intros h l. unfold bump_addr. case_tests; [|done]. intros _.
  destruct (h !! _) eqn:Hk; [|done]. apply top_ge in Hk. nia.
Qed.
Next Obligation.
  intros h l. unfold bump_addr. case_tests; [|done]. intros _. apply Z.mod_mul. lia.
Qed.
End bump.

#[local] Instance byte_zeroable : Zeroable Z := {| zeroed := 0%Z; size_of := 1; align_of := 1 |}.
#[local] Existing Instance debug_build.

(** A page-aligned buffer of four bytes: fill it, raise its length, hand it over
    as a raw pointer and take it back. *)
Definition demo_ops : list (buffer_op Z) :=
  [OpCapacityMut (fmap (Z.add 7)); OpSetLen 3; OpDerefMut (fmap (Z.mul 2)); OpRoundTrip].

Lemma with_alignment_total_witness :
  exists b h', with_alignment ∅ 4 4096 = Done (b, h') /\ (∅ : gmap Z (Layout * list Z)) !! ptr b = None /\
    delete (ptr b) h' = ∅ /\ owns h' b [0; 0; 0; 0]%Z /\
    capacity b = 4%Z /\ alignment b = 4096%Z /\ is_empty b = true.
Proof.
  refine (proj2 (proj2 (proj2 (with_alignment_total ∅ 4 4096))) (mkLayout 4 4096) _ _ _ _ _);
    by vm_compute.
Defined.

Lemma buffer_life_safe_witness :
  exists b' h', apply_ops (<[4096 := (mkLayout 4 4096, [0; 0; 0; 0])]> ∅)%Z (mkBuf 4096 0 4 4096) demo_ops
      = Done (b', h') /\ ptr b' = 4096%Z /\ capacity b' = 4%Z /\
    (exists xs, deref h' b' = Done xs /\ Z.of_nat (length xs) = len b') /\
    drop_buffer h' b' = Done ∅.
Proof.
  apply (buffer_life_safe ∅ _ 4 4096 (mkBuf 4096 0 4 4096) demo_ops).
  - by vm_compute.
  - repeat constructor; simpl; intros; by rewrite ?length_fmap.
  - by repeat constructor.
Defined.
End Buffer.
