(* ===== verification/BufferPool.v ===== *)
(** * [LocalBufferPool] ([src/site_c/pool.rs])

    [Module Pool]: a pool of aligned buffers is a semaphore whose permits are
    buffers. The pool's operations call those of [LocalSemaphore] and
    [AlignedBuffer]; [sys] is a program using one pool, [sem_sys] what that
    program is to the semaphore, so that the semaphore's invariant carries over. *)
From stdpp Require Import base list gmap numbers relations strings.
From S2P Require Import Prelude InlineQueue WaitList LocalSemaphore AlignedBuffer.
Import Buffer.

Module Pool.
Section pool.
Context {T : Type} `{Zeroable T} `{BuildMode} `{!Allocator T}.
Context `{Wakers} {Q : Type} `{WaitList Q (Z * Z * waker)}.

Abbreviation heap := (gmap Z (Layout * list T)).
Abbreviation LocalSemaphore := (@Semaphore.LocalSemaphore Q).

Record PoolInner : Type := mkPool {
  free : list AlignedBuffer;      (* the top of the [Vec] is the head *)
  sem : LocalSemaphore;
  clear_on_checkout : bool
}.

(** ** Operations *)
Fixpoint alloc_all (h : heap) (count : nat) (buf_size al : Z) (acc : list AlignedBuffer) :
    outcome (list AlignedBuffer * heap) :=
  match count with
  | 0 => Done (acc, h)
  | S n => '(b, h) ← with_alignment h buf_size al; alloc_all h n buf_size al (b :: acc)
  end.

Definition build (h : heap) (count : nat) (buf_size al : Z) (clear : bool) : outcome (PoolInner * heap) :=
  '(bufs, h) ← alloc_all h count buf_size al [];
  Done (mkPool bufs (Semaphore.new (Z.of_nat count)) clear, h).

Definition with_alignment (h : heap) (count : nat) (buf_size al : Z) : outcome (PoolInner * heap) :=
  build h count buf_size al true.
Definition new (h : heap) (count : nat) (buf_size : Z) : outcome (PoolInner * heap) :=
  with_alignment h count buf_size align_of.
Definition with_alignment_uncleared (h : heap) (count : nat) (buf_size al : Z) : outcome (PoolInner * heap) :=
  build h count buf_size al false.

Definition available (p : PoolInner) : Z := Semaphore.available (sem p).

(** Pop a buffer for an acquired permit; [write_bytes(ptr, 0, capacity)]. *)
Definition check_out (h : heap) (p : PoolInner) : outcome (AlignedBuffer * PoolInner * heap) :=
  match free p with
  | [] => Panicked "permit implies a free buffer"
  | b :: rest =>
      let p := mkPool rest (sem p) (clear_on_checkout p) in
      b ← set_len b 0;
      if clear_on_checkout p then
        h ← store h (ptr b) (replicate (Z.to_nat (capacity b)) zeroed); Done (b, p, h)
      else Done (b, p, h)
  end.

(** [permit.forget()] drops nothing, so the permit simply disappears. *)
Definition try_acquire (h : heap) (p : PoolInner) : outcome (option AlignedBuffer * PoolInner * heap) :=
  let '(permit, se) := Semaphore.try_acquire (sem p) in
  let p := mkPool (free p) se (clear_on_checkout p) in
  match permit with
  | None => Done (None, p, h)
  | Some _ => '(b, p, h) ← check_out h p; Done (Some b, p, h)
  end.

(** The states of the [acquire] async function. *)
Inductive AcquireFuture : Type :=
| Unresumed
| Suspended (a : Semaphore.Acquire)
| Returned.

(** Resuming [acquire]: poll the semaphore's future; once it is ready, that
    future is dropped, the permit forgotten and a buffer checked out. *)
Definition poll_acquire (h : heap) (p : PoolInner) (fut : AcquireFuture) (w : waker) :
    outcome (heap * PoolInner * AcquireFuture * option waker * Poll AlignedBuffer) :=
  let resume a :=
    '(se, a, fired, r) ← Semaphore.poll (sem p) a w;
    let p := mkPool (free p) se (clear_on_checkout p) in
    match r with
    | Pending => Done (h, p, Suspended a, fired, Pending)
    | Ready _ =>
        '(_, se) ← Semaphore.drop_future (sem p) a;
        '(b, p, h) ← check_out h (mkPool (free p) se (clear_on_checkout p));
        Done (h, p, Returned, fired, Ready b)
    end in
  match fut with
  | Unresumed => resume (Semaphore.acquire (sem p))
  | Suspended a => resume a
  | Returned => Panicked "`async fn` resumed after completion"
  end.

Definition drop_acquire (p : PoolInner) (fut : AcquireFuture) : outcome (option waker * PoolInner) :=
  match fut with
  | Suspended a =>
      '(fired, se) ← Semaphore.drop_future (sem p) a;
      Done (fired, mkPool (free p) se (clear_on_checkout p))
  | _ => Done (None, p)
  end.

(** [Drop] of a [PooledBuffer]: push the buffer first, then release. *)
Definition drop_pooled (p : PoolInner) (b : AlignedBuffer) : outcome (option waker * PoolInner) :=
  let p := mkPool (b :: free p) (sem p) (clear_on_checkout p) in
  '(fired, se) ← Semaphore.add_permits (sem p) 1;
  Done (fired, mkPool (free p) se (clear_on_checkout p)).

(** The last handle goes: the free list drops its buffers. *)
Fixpoint drop_all (h : heap) (bufs : list AlignedBuffer) : outcome heap :=
  match bufs with
  | [] => Done h
  | b :: bufs => h ← drop_buffer h b; drop_all h bufs
  end.
Definition drop_pool (h : heap) (p : PoolInner) : outcome heap := drop_all h (free p).

(** ** A program using the pool *)
Record sys : Type := mkSys {
  mem : heap;
  pool : PoolInner;
  acquires : gmap nat AcquireFuture;
  since : gmap nat (list waker);
  out : list AlignedBuffer        (* the live [PooledBuffer]s *)
}.

Inductive event : Type :=
| EvAcquire (f : nat)
| EvPoll (f : nat) (w : waker)
| EvDropFuture (f : nat)
| EvTryAcquire
| EvUse (i : nat) (op : buffer_op T)  (* use a checked out buffer *)
| EvDropBuffer (i : nat).

(** A panic raised by the caller's own misuse of a buffer (a length above its
    capacity) or of a finished future unwinds into the caller; the program goes
    on. *)
Definition exec (s : sys) (ev : event) : outcome sys :=
  match ev with
  | EvAcquire f =>
      match acquires s !! f with
      | Some _ => Done s
      | None => Done (mkSys (mem s) (pool s) (<[f := Unresumed]> (acquires s)) (since s) (out s))
      end
  | EvPoll f w =>
      match acquires s !! f with
      | None | Some Returned => Done s
      | Some fut =>
          '(h, p, fut, fired, r) ← poll_acquire (mem s) (pool s) fut w;
          Done (mkSys h p (<[f := fut]> (acquires s))
                  (match r with
                   | Ready _ => delete f (Registration.fire_opt fired (<[f := []]> (since s)))
                   | Pending => Registration.fire_opt fired (<[f := []]> (since s))
                   end)
                  (match r with Ready b => b :: out s | Pending => out s end))
      end
  | EvDropFuture f =>
      match acquires s !! f with
      | None => Done s
      | Some fut =>
          '(fired, p) ← drop_acquire (pool s) fut;
          Done (mkSys (mem s) p (delete f (acquires s))
                  (Registration.fire_opt fired (delete f (since s))) (out s))
      end
  | EvTryAcquire =>
      '(b, p, h) ← try_acquire (mem s) (pool s);
      Done (mkSys h p (acquires s) (since s) (match b with Some b => b :: out s | None => out s end))
  | EvUse i op =>
      match out s !! i with
      | None => Done s
      | Some b =>
          match apply_op (mem s) b op with
          | Done (b, h) => Done (mkSys h (pool s) (acquires s) (since s) (<[i := b]> (out s)))
          | Panicked _ => Done s
          | Undefined => Undefined
          end
      end
  | EvDropBuffer i =>
      match out s !! i with
      | None => Done s
      | Some b =>
          '(fired, p) ← drop_pooled (pool s) b;
          Done (mkSys (mem s) p (acquires s) (Registration.fire_opt fired (since s)) (delete i (out s)))
      end
  end.

Fixpoint run (s : sys) (evs : list event) : outcome sys :=
  match evs with
  | [] => Done s
  | ev :: evs => s ← exec s ev; run s evs
  end.

Definition start (h : heap) (p : PoolInner) : sys := mkSys h p ∅ ∅ [].

(** The semaphore's view of the program. *)
Definition suspended (fut : AcquireFuture) : option Semaphore.Acquire :=
  match fut with Suspended a => Some a | _ => None end.

Definition sem_sys (s : sys) : Semaphore.sys Q :=
  Semaphore.mkSys (sem (pool s)) (omap suspended (acquires s)) (since s) []
    (Semaphore.permits (sem (pool s))).

(** ** Memory *)

(** A set of buffers owned by the pool: each owns a live allocation, no two the
    same one. *)
Definition owned (h : heap) (bufs : list AlignedBuffer) : Prop :=
  Forall (fun b => exists data, owns h b data) bufs /\ NoDup (ptr <$> bufs).

(** The heap without the allocations of [bufs]. *)
Definition scrub (h : heap) (bufs : list AlignedBuffer) : heap :=
  foldr (fun b h => delete (ptr b) h) h bufs.

Lemma scrub_lookup h bufs a :
  scrub h bufs !! a = if decide (a ∈ ptr <$> bufs) then None else h !! a.
Proof.
  induction bufs as [|b bufs IH]; cbn [scrub foldr fmap list_fmap]; [done|].
  destruct (decide (ptr b = a)) as [<-|Hne].
  - rewrite lookup_delete_eq, decide_True by by left. done.
  - rewrite lookup_delete_ne by done. fold (scrub h bufs). rewrite IH.
    destruct (decide (a ∈ ptr <$> bufs)); [by rewrite decide_True by by right|].
    rewrite decide_False; [done|]. by intros [?|?]%elem_of_cons.
Qed.

Lemma scrub_perm h bufs bufs' : bufs ≡ₚ bufs' -> scrub h bufs = scrub h bufs'.
Proof.
  intros Hp. apply map_eq. intros a. rewrite !scrub_lookup.
  assert (a ∈ ptr <$> bufs <-> a ∈ ptr <$> bufs') as Heq by (by rewrite Hp).
  by destruct (decide (a ∈ ptr <$> bufs)), (decide (a ∈ ptr <$> bufs')); try tauto.
Qed.

Lemma owned_perm h bufs bufs' : bufs ≡ₚ bufs' -> owned h bufs -> owned h bufs'.
Proof. intros Hp [Ho Hn]. split; by rewrite <-Hp. Qed.

Lemma owned_free h b bufs : owned h bufs -> h !! ptr b = None -> ptr b ∉ ptr <$> bufs.
Proof.
  intros [Ho _] Hb Hin. apply list_elem_of_fmap in Hin as (b' & Heq & Hin).
  rewrite Forall_forall in Ho. destruct (Ho b' Hin) as (d & [(l & _ & Hl) _ _ _]). congruence.
Qed.

(** One owned buffer and its contents change; the others are untouched. *)
Lemma owned_update h h' b b' data' bufs :
  owned h (b :: bufs) -> owns h' b' data' -> ptr b' = ptr b ->
  delete (ptr b) h' = delete (ptr b) h ->
  owned h' (b' :: bufs) /\ scrub h' (b' :: bufs) = scrub h (b :: bufs).
Proof.
  intros [Ho Hn] Hb' Hp Hd. apply Forall_cons in Ho as [_ Ho]. simpl in Hn.
  assert (forall a, a <> ptr b -> h' !! a = h !! a) as Heq.
  { intros a Ha. by rewrite <-(lookup_delete_ne h' (ptr b)), Hd, lookup_delete_ne. }
  split; [split|].
  - constructor; [by exists data'|]. apply NoDup_cons in Hn as [Hni _]. rewrite Forall_forall in *.
    intros c Hc. destruct (Ho c Hc) as (d & [(l & Hl & Hh) Hca Hle Hpt]). exists d. split; try done.
    exists l. split; [done|]. rewrite Heq; [done|]. intros Hpc. apply Hni, list_elem_of_fmap. by exists c.
  - simpl. by rewrite Hp.
  - apply map_eq. intros a. rewrite !scrub_lookup. simpl. rewrite Hp.
    case_decide as Ha; [done|]. apply Heq. intros ->. apply Ha. by left.
Qed.

Lemma drop_all_owned h bufs : owned h bufs -> drop_all h bufs = Done (scrub h bufs).
Proof.
  revert h. induction bufs as [|b bufs IH]; intros h [Ho Hn]; [done|]. cbn [drop_all].
  apply Forall_cons in Ho as [(d & Hb) Ho]. simpl in Hn. apply NoDup_cons in Hn as [Hni Hn].
  rewrite (drop_buffer_owns h b d Hb). outcome_simpl. rewrite IH.
  - f_equal. apply map_eq. intros a. cbn [scrub foldr]. fold (scrub h bufs).
    rewrite scrub_lookup. destruct (decide (ptr b = a)) as [<-|Hne].
    + rewrite !lookup_delete_eq. by case_decide.
    + rewrite !lookup_delete_ne by done. by rewrite scrub_lookup.
  - split; [|done]. rewrite Forall_forall in *. intros c Hc.
    destruct (Ho c Hc) as (d' & [(l & Hl & Hh) Hca Hle Hpt]). exists d'. split; try done.
    exists l. split; [done|]. rewrite lookup_delete_ne; [done|]. intros Heq.
    apply Hni, list_elem_of_fmap. by exists c.
Qed.

Lemma alloc_all_owned n h0 h c al acc bufs h' :
  owned h acc -> scrub h acc = h0 ->
  alloc_all h n c al acc = Done (bufs, h') ->
  owned h' bufs /\ scrub h' bufs = h0 /\ length bufs = n + length acc.
Proof.
  revert h acc. induction n as [|n IH]; intros h acc Ho Hs Hall; cbn [alloc_all] in Hall.
  { by injection Hall as <- <-. }
  destruct (Buffer.with_alignment h c al) as [[b h1]| |] eqn:Hb; outcome_simpl; [|done|done].
  apply with_alignment_done in Hb as (l & Hl & Hnn & -> & -> & Hb).
  pose proof (alloc_fresh h l Hnn) as Hfr.
  pose proof (owned_free h (mkBuf (alloc_addr h l) 0 c al) acc Ho Hfr) as Hni.
  apply IH in Hall as (Ho' & Hs' & Hlen); [split_and!; [done|done|simpl in Hlen; lia]| |].
  - destruct Ho as [Ho Hn]. split; [|by apply NoDup_cons]. constructor; [by eexists|].
    eapply Forall_impl; [exact Ho|]. intros b (d & Hd). exists d. apply owns_insert; [done|].
    intros Heq. destruct Hd as [(l' & _ & Hh) _ _ _]. congruence.
  - rewrite <-Hs. apply map_eq. intros a. cbn [scrub foldr ptr]. fold (scrub (<[alloc_addr h l:=(l, replicate (Z.to_nat c) zeroed)]> h) acc).
    destruct (decide (alloc_addr h l = a)) as [<-|Hne].
    + rewrite lookup_delete_eq, scrub_lookup. by case_decide.
    + by rewrite lookup_delete_ne, !scrub_lookup, lookup_insert_ne by done.
Qed.

(** ** Invariant *)
Context `{!WaitListLaws Q (Z * Z * waker)}.

(** One poll of a semaphore future of one permit, and what follows when it is
    granted: the future is dropped and the permit forgotten. *)
Lemma sem_resume k es se futs sn f a w :
  Semaphore.inv k es (Semaphore.mkSys se futs sn [] (Semaphore.permits se)) ->
  (k < usize_max)%Z -> futs !! f = Some a -> Semaphore.acq_n a = 1%Z ->
  exists se' a' fired r es', Semaphore.poll se a w = Done (se', a', fired, r) /\
    match r with
    | Pending =>
        Semaphore.permits se' = Semaphore.permits se /\ Semaphore.acq_n a' = 1%Z /\
        Semaphore.inv (k + 1) es' (Semaphore.mkSys se' (<[f := a']> futs)
          (Registration.fire_opt fired (<[f := []]> sn)) [] (Semaphore.permits se'))
    | Ready _ =>
        (Semaphore.permits se' = Semaphore.permits se - 1)%Z /\ (1 <= Semaphore.permits se)%Z /\
        Semaphore.drop_future se' a' = Done (None, se') /\
        Semaphore.inv (k + 3) es' (Semaphore.mkSys se' (delete f futs)
          (delete f (Registration.fire_opt fired (<[f := []]> sn))) [] (Semaphore.permits se'))
    end.
Proof.
  set (S0 := Semaphore.mkSys se futs sn [] (Semaphore.permits se)). intros Hinv Hk Hf Hn.
  pose proof (Semaphore.poll_repr se es _ f a w (Semaphore.inv_repr _ _ _ Hinv)
    (Semaphore.inv_linked _ _ _ Hinv) (Semaphore.slots_lookup S0 f a Hf)) as Hpoll.
  destruct (Semaphore.fair_abs es (Semaphore.permits se) _ _) eqn:Hfair.
  - destruct (Semaphore.grant_repr se es a (Semaphore.inv_repr _ _ _ Hinv)) as (ws & Hg & _).
    destruct (Semaphore.step_poll_ready k es S0 f a w Hinv Hf Hfair) as (s1 & es1 & He1 & Hi1 & _ & _).
    cbn [Semaphore.exec Semaphore.futures S0 Semaphore.sem] in He1. rewrite Hf, Hpoll, Hg in He1.
    outcome_simpl. injection He1 as <-.
    destruct (Semaphore.step_drop_future _ _ _ f Hi1) as (s2 & es2 & He2 & Hi2 & _ & _).
    cbn [Semaphore.exec Semaphore.futures Semaphore.sem] in He2. rewrite lookup_insert_eq in He2.
    cbn in He2. injection He2 as <-.
    destruct (Semaphore.step_forget _ _ _ 0 Hi2) as (s3 & es3 & He3 & Hi3 & _ & _).
    cbn in He3. injection He3 as <-. eexists _, _, _, _, es3. rewrite Hpoll, Hg. split; [done|].
    unfold Semaphore.fair_abs in Hfair. bool_props. rewrite Hn in *. simpl. split_and!; [done|done|done|].
    rewrite delete_insert_eq in Hi3. replace (k + 3)%Z with (k + 1 + 1 + 1)%Z by lia. exact Hi3.
  - destruct Hpoll as (ws & _ & Hpoll).
    destruct (Semaphore.step_poll_pending k es S0 f a w Hinv Hk Hf Hfair) as (s1 & es1 & He1 & Hi1 & _ & _).
    cbn [Semaphore.exec Semaphore.futures S0 Semaphore.sem] in He1. rewrite Hf, Hpoll in He1.
    outcome_simpl. injection He1 as <-. eexists _, _, _, _, es1. rewrite Hpoll. split; [done|].
    simpl. split_and!; done.
Qed.

Record inv (k : Z) (es : list (Z * Z * waker)) (h0 : heap) (count : nat) (s : sys) : Prop := {
  inv_sem : Semaphore.inv k es (sem_sys s);
  inv_one f a : acquires s !! f = Some (Suspended a) -> Semaphore.acq_n a = 1%Z;
  inv_available : available (pool s) = Z.of_nat (length (free (pool s)));
  inv_count : length (free (pool s)) + length (out s) = count;
  inv_owned : owned (mem s) (free (pool s) ++ out s);
  inv_frame : scrub (mem s) (free (pool s) ++ out s) = h0
}.

(** The pool hands out its top buffer, emptied, and zeroed if it clears. *)
Lemma check_out_spec h p b rest others :
  free p = b :: rest -> owned h ((b :: rest) ++ others) ->
  exists b' h' data', check_out h p = Done (b', mkPool rest (sem p) (clear_on_checkout p), h') /\
    owned h' (rest ++ b' :: others) /\ scrub h' (rest ++ b' :: others) = scrub h ((b :: rest) ++ others) /\
    owns h' b' data' /\ len b' = 0%Z /\ ptr b' = ptr b /\
    (clear_on_checkout p = true -> data' = replicate (Z.to_nat (capacity b')) zeroed).
Proof.
  intros Hfree Ho. pose proof Ho as [Hall _]. apply Forall_cons in Hall as [(data & Hb) _].
  unfold check_out. rewrite Hfree. pose proof (owns_len _ _ _ Hb) as Hl.
  rewrite set_len_spec by lia. outcome_simpl. cbn [clear_on_checkout ptr capacity cap].
  pose proof (owns_set_len h b data 0 Hb ltac:(lia)) as Hb0.
  assert (forall h' data', owns h' (mkBuf (ptr b) 0 (cap b) (align b)) data' ->
    delete (ptr b) h' = delete (ptr b) h ->
    owned h' (rest ++ mkBuf (ptr b) 0 (cap b) (align b) :: others) /\
    scrub h' (rest ++ mkBuf (ptr b) 0 (cap b) (align b) :: others) = scrub h ((b :: rest) ++ others))
    as Hupd.
  { intros h' data' Hb' Hd. destruct (owned_update h h' b _ data' (rest ++ others) Ho Hb' eq_refl Hd) as [Ho' Hs'].
    split; [by eapply owned_perm; [|exact Ho']; rewrite Permutation_middle|].
    etrans; [|exact Hs']. apply scrub_perm. by rewrite Permutation_middle. }
  destruct (clear_on_checkout p) eqn:Hc.
  - destruct (store_owns h _ data (replicate (Z.to_nat (cap b)) zeroed) Hb0) as (l & h' & Hst & Hh' & Hb');
      [rewrite length_replicate; pose proof (owns_cap _ _ _ Hb); lia|].
    simpl in Hst. rewrite Hst. outcome_simpl. rewrite drop_ge, app_nil_r in Hb'
      by (rewrite length_replicate; pose proof (owns_cap _ _ _ Hb); lia).
    eexists _, h', _. split; [done|]. destruct (Hupd h' _ Hb') as [??]; [|by split_and!].
    rewrite Hh'. simpl. apply delete_insert_eq.
  - eexists _, h, data. split; [done|]. destruct (Hupd h _ Hb0) as [??]; [done|by split_and!].
Qed.

Lemma sem_inv_weaken k k' es s : (k <= k')%Z -> Semaphore.inv k es s -> Semaphore.inv k' es s.
Proof. intros Hk []. split; try done. lia. Qed.

Lemma pool_inv_weaken k k' es h0 n s : (k <= k')%Z -> inv k es h0 n s -> inv k' es h0 n s.
Proof. intros Hk []. split; try done. by eapply sem_inv_weaken. Qed.

(** Resuming an [acquire] whose semaphore future is [a]. [S0] is the semaphore's
    view at that point. *)
Lemma resume_inv k k0 es es0 h0 n s f a w futs sn :
  inv k0 es0 h0 n s -> (k < usize_max)%Z -> Semaphore.acq_n a = 1%Z ->
  Semaphore.inv k es (Semaphore.mkSys (sem (pool s)) futs sn [] (Semaphore.permits (sem (pool s)))) ->
  futs !! f = Some a -> delete f futs = delete f (omap suspended (acquires s)) ->
  <[f := []]> sn = <[f := []]> (since s) ->
  exists h p fut fired r es',
    ('(se, a, fired, r) ← Semaphore.poll (sem (pool s)) a w;
     let p := mkPool (free (pool s)) se (clear_on_checkout (pool s)) in
     match r with
     | Pending => Done (mem s, p, Suspended a, fired, Pending)
     | Ready _ =>
         '(_, se) ← Semaphore.drop_future (sem p) a;
         '(b, p, h) ← check_out (mem s) (mkPool (free p) se (clear_on_checkout p));
         Done (h, p, Returned, fired, Ready b)
     end) = Done (h, p, fut, fired, r) /\
    inv (k + 3) es' h0 n (mkSys h p (<[f := fut]> (acquires s))
      (match r with
       | Ready _ => delete f (Registration.fire_opt fired (<[f := []]> (since s)))
       | Pending => Registration.fire_opt fired (<[f := []]> (since s))
       end)
      (match r with Ready b => b :: out s | Pending => out s end)) /\
    (forall b, r = Ready b -> len b = 0%Z /\ (clear_on_checkout (pool s) = true ->
       owns h b (replicate (Z.to_nat (capacity b)) zeroed))).
Proof.
  intros [Hs Hone Hav Hct How Hfr] Hk Ha HS0 Hf Hdel Hsn.
  destruct (sem_resume k es _ futs sn f a w HS0 Hk Hf Ha) as (se & a' & fired & r & es' & -> & Hr).
  outcome_simpl. destruct r as [x|].
  - destruct Hr as (Hp & Hp1 & Hd & Hi). cbn [sem free clear_on_checkout]. rewrite Hd. outcome_simpl.
    unfold available, Semaphore.available in Hav.
    destruct (free (pool s)) as [|b rest] eqn:Hfree; [simpl in Hav; lia|].
    destruct (check_out_spec (mem s) (mkPool (b :: rest) se (clear_on_checkout (pool s))) b rest (out s)
      eq_refl How) as (b' & h' & data' & -> & Ho' & Hs' & Hb' & Hlen & Hptr & Hz). outcome_simpl.
    eexists _, _, _, _, _, es'. split; [done|]. split.
    + split; cbn [pool free acquires out mem sem].
      * unfold sem_sys. cbn [pool sem acquires since].
        rewrite omap_insert_None by done. by rewrite <-Hdel, <-Hsn.
      * intros g c [[_ ?]|[_ Hg]]%lookup_insert_Some; [done|by eapply Hone].
      * unfold available, Semaphore.available. simpl in *. lia.
      * simpl in *. lia.
      * done.
      * by rewrite Hs'.
    + intros ? [= <-]. split; [done|]. intros Hc. by rewrite <-(Hz Hc).
  - destruct Hr as (Hp & Ha' & Hi). eexists _, _, _, _, _, es'. split; [done|]. split; [|done].
    split; cbn [pool free acquires out mem sem]; try done.
    + unfold sem_sys. cbn [pool sem acquires since].
      rewrite (omap_insert_Some _ _ _ _ a') by done. rewrite <-Hsn, <-insert_delete_eq, <-Hdel, insert_delete_eq.
      by eapply sem_inv_weaken; [|exact Hi]; lia.
    + intros g c [[_ ?]|[_ Hg]]%lookup_insert_Some; [by simplify_eq|by eapply Hone].
    + unfold available, Semaphore.available. simpl. by rewrite Hp.
Qed.

Lemma pool_inv_poll k es h0 n s f fut w :
  inv k es h0 n s -> (k + 4 <= usize_max)%Z -> acquires s !! f = Some fut -> fut <> Returned ->
  exists h p fut' fired r es',
    poll_acquire (mem s) (pool s) fut w = Done (h, p, fut', fired, r) /\
    inv (k + 4) es' h0 n (mkSys h p (<[f := fut']> (acquires s))
      (match r with
       | Ready _ => delete f (Registration.fire_opt fired (<[f := []]> (since s)))
       | Pending => Registration.fire_opt fired (<[f := []]> (since s))
       end)
      (match r with Ready b => b :: out s | Pending => out s end)) /\
    (forall b, r = Ready b -> len b = 0%Z /\ (clear_on_checkout (pool s) = true ->
       owns h b (replicate (Z.to_nat (capacity b)) zeroed))).
Proof.
  intros Hinv Hk Hf Hne. pose proof Hinv as [Hs Hone _ _ _ _].
  destruct fut as [|a|]; [| |done]; cbn [poll_acquire].
  - assert (omap suspended (acquires s) !! f = None) as Hv by by rewrite lookup_omap, Hf.
    destruct (Semaphore.step_acquire k es (sem_sys s) f 1 Hs) as (s1 & es1 & He & Hi & _ & _).
    cbn [Semaphore.exec] in He. unfold sem_sys in He at 1. cbn [Semaphore.futures] in He. rewrite Hv in He.
    injection He as <-.
    destruct (resume_inv (k + 1) k es1 es h0 n s f (Semaphore.acquire (sem (pool s))) w
      (<[f := Semaphore.acquire (sem (pool s))]> (omap suspended (acquires s))) (<[f := []]> (since s)))
      as (h & p & fut & fired & r & es' & Hp & Hi' & Hz); try done.
    + lia.
    + apply lookup_insert_eq.
    + apply delete_insert_eq.
    + apply insert_insert_eq.
    + exists h, p, fut, fired, r, es'. split; [exact Hp|]. split; [|done].
      by replace (k + 4)%Z with (k + 1 + 3)%Z by lia.
  - destruct (resume_inv k k es es h0 n s f a w (omap suspended (acquires s)) (since s))
      as (h & p & fut & fired & r & es' & Hp & Hi' & Hz); try done; [lia|by eapply Hone|by rewrite lookup_omap, Hf|].
    exists h, p, fut, fired, r, es'. split; [exact Hp|]. split; [|done].
    by eapply pool_inv_weaken; [|exact Hi']; lia.
Qed.

Lemma since_idle k es s f fut :
  Semaphore.inv k es (sem_sys s) -> acquires s !! f = Some fut -> suspended fut = None -> since s !! f = None.
Proof.
  intros Hs Hf Hi. pose proof (Semaphore.inv_since _ _ _ Hs) as Hd. simpl in Hd.
  apply not_elem_of_dom. rewrite Hd. apply not_elem_of_dom. by rewrite lookup_omap, Hf.
Qed.

Lemma pool_inv_drop_future k es h0 n s f fut :
  inv k es h0 n s -> acquires s !! f = Some fut ->
  exists fired p es', drop_acquire (pool s) fut = Done (fired, p) /\
    inv (k + 1) es' h0 n (mkSys (mem s) p (delete f (acquires s))
      (Registration.fire_opt fired (delete f (since s))) (out s)).
Proof.
  intros [Hs Hone Hav Hct How Hfr] Hf.
  destruct (Semaphore.step_drop_future k es (sem_sys s) f Hs) as (s1 & es1 & He & Hi & _ & _).
  cbn [Semaphore.exec sem_sys Semaphore.futures] in He. rewrite lookup_omap, Hf in He.
  assert (forall g c, delete f (acquires s) !! g = Some (Suspended c) -> Semaphore.acq_n c = 1%Z) as Hone'.
  { intros g c [_ Hg]%lookup_delete_Some. by eapply Hone. }
  destruct fut as [|a|]; cbn [suspended mbind option_bind drop_acquire] in *.
  - injection He as <-. eexists None, _, es. split; [done|]. split; try done.
    unfold sem_sys. cbn [pool acquires since]. rewrite omap_delete, (delete_id (omap _ _)) by by rewrite lookup_omap, Hf.
    rewrite (delete_id (since s)) by (eapply since_idle; [exact Hs|exact Hf|done]). eapply sem_inv_weaken; [|exact Hs]; lia.
  - cbn [sem_sys Semaphore.sem] in He.
    destruct (Semaphore.drop_future (sem (pool s)) a) as [[fired se]| |] eqn:Hd; outcome_simpl; [|done|done].
    injection He as <-. eexists _, _, es1. split; [done|].
    assert (Semaphore.permits se = Semaphore.permits (sem (pool s))) as Hp.
    { pose proof (Semaphore.inv_sum _ _ _ Hi) as Hsum. simpl in Hsum. lia. }
    split; try done.
    + unfold sem_sys. cbn [pool sem acquires since]. rewrite omap_delete, Hp. exact Hi.
    + unfold available, Semaphore.available in *. simpl. by rewrite Hp.
  - injection He as <-. eexists None, _, es. split; [done|]. split; try done.
    unfold sem_sys. cbn [pool acquires since]. rewrite omap_delete, (delete_id (omap _ _)) by by rewrite lookup_omap, Hf.
    rewrite (delete_id (since s)) by (eapply since_idle; [exact Hs|exact Hf|done]). eapply sem_inv_weaken; [|exact Hs]; lia.
Qed.

Lemma inv_try_acquire k es h0 n s :
  inv k es h0 n s ->
  exists o p h es', try_acquire (mem s) (pool s) = Done (o, p, h) /\
    inv (k + 2) es' h0 n (mkSys h p (acquires s) (since s)
      (match o with Some b => b :: out s | None => out s end)) /\
    (o = None <-> free (pool s) = []) /\
    (forall b, o = Some b -> len b = 0%Z /\ (clear_on_checkout (pool s) = true ->
       owns h b (replicate (Z.to_nat (capacity b)) zeroed))).
Proof.
  intros [Hs Hone Hav Hct How Hfr]. unfold try_acquire, Semaphore.try_acquire, Semaphore.try_acquire_many.
  unfold available, Semaphore.available in Hav. rewrite Hav.
  destruct (free (pool s)) as [|b rest] eqn:Hfree.
  - eexists None, _, _, es. split; [done|]. split; [|done]. split; try done.
    + eapply sem_inv_weaken; [|exact Hs]. lia.
  - rewrite (proj2 (Z.leb_le _ _)) by (simpl; lia). cbn [free clear_on_checkout].
    set (se := Semaphore.mkSem _ _ _).
    destruct (check_out_spec (mem s) (mkPool (b :: rest) se (clear_on_checkout (pool s))) b rest (out s)
      eq_refl How) as (b' & h' & data' & -> & Ho' & Hs' & Hb' & Hlen & Hptr & Hz). outcome_simpl.
    destruct (Semaphore.step_try_acquire k es (sem_sys s) 1 Hs) as (s1 & es1 & He1 & Hi1 & _ & _).
    cbn [Semaphore.exec sem_sys Semaphore.sem Semaphore.futures Semaphore.since Semaphore.held
      Semaphore.total] in He1. unfold Semaphore.try_acquire_many in He1. rewrite Hav in He1.
    rewrite (proj2 (Z.leb_le _ _)) in He1 by (simpl; lia). injection He1 as <-.
    destruct (Semaphore.step_forget _ _ _ 0 Hi1) as (s2 & es2 & He2 & Hi2 & _ & _).
    cbn in He2. injection He2 as <-.
    eexists (Some b'), _, h', es2. split; [done|]. split; [split|split; [done|]].
    + unfold sem_sys. cbn [pool sem acquires since]. replace (k + 2)%Z with (k + 1 + 1)%Z by lia. exact Hi2.
    + done.
    + unfold available, Semaphore.available. simpl. lia.
    + simpl in *. lia.
    + done.
    + cbn [mem pool free out sem]. by rewrite Hs'.
    + intros ? [= <-]. split; [done|]. intros Hc. by rewrite <-(Hz Hc).
Qed.

Lemma lookup_perm (l : list AlignedBuffer) i b : l !! i = Some b -> l ≡ₚ b :: delete i l.
Proof. apply delete_Permutation. Qed.

Lemma insert_perm (l : list AlignedBuffer) i b b' : l !! i = Some b -> <[i := b']> l ≡ₚ b' :: delete i l.
Proof.
  intros Hi. rewrite (delete_Permutation (<[i := b']> l) i b')
    by (apply list_lookup_insert_eq; by eapply lookup_lt_Some).
  f_equiv. revert i Hi. induction l as [|x l IH]; intros [|i] Hi; simplify_eq/=; [done|].
  by rewrite IH.
Qed.

Lemma inv_use k es h0 n s i b op b' h' :
  inv k es h0 n s -> out s !! i = Some b -> keeps_length op ->
  apply_op (mem s) b op = Done (b', h') ->
  inv k es h0 n (mkSys h' (pool s) (acquires s) (since s) (<[i := b']> (out s))).
Proof.
  intros [Hs Hone Hav Hct How Hfr] Hi Hk Hop.
  assert (free (pool s) ++ out s ≡ₚ b :: free (pool s) ++ delete i (out s)) as Hp1.
  { rewrite (lookup_perm _ _ _ Hi) at 1. by rewrite Permutation_middle. }
  assert (free (pool s) ++ <[i := b']> (out s) ≡ₚ b' :: free (pool s) ++ delete i (out s)) as Hp2.
  { rewrite (insert_perm _ _ _ b' Hi). by rewrite Permutation_middle. }
  pose proof (owned_perm _ _ _ Hp1 How) as How'. pose proof How' as [Hall _].
  apply Forall_cons in Hall as [(data & Hb) _].
  assert (fits (cap b) op) as Hfit.
  { destruct op as [m| | |]; try done. simpl. cbn [apply_op] in Hop. unfold set_len, assert_or in Hop.
    destruct (Z.of_N m <=? cap b)%Z eqn:E; [by bool_props|done]. }
  destruct (apply_op_owns (mem s) b data op Hb Hk Hfit) as (b1 & h1 & data1 & Hop' & Hb1 & Hpt & Hc & Hd).
  rewrite Hop in Hop'. injection Hop' as <- <-.
  destruct (owned_update (mem s) h' b b' data1 _ How' Hb1 Hpt Hd) as [Ho2 Hs2].
  split; try done; cbn [pool free out mem].
  - by rewrite length_insert.
  - by eapply owned_perm; [symmetry; exact Hp2|].
  - rewrite (scrub_perm _ _ _ Hp2), Hs2. by rewrite <-(scrub_perm _ _ _ Hp1).
Qed.

(** A use of a checked out buffer may panic, but is never undefined. *)
Lemma use_defined k es h0 n s i b op :
  inv k es h0 n s -> out s !! i = Some b -> keeps_length op -> apply_op (mem s) b op <> Undefined.
Proof.
  intros [_ _ _ _ [Hall _] _] Hi Hk. rewrite Forall_app in Hall. destruct Hall as [_ Hall].
  destruct (Forall_lookup_1 _ _ _ _ Hall Hi) as (data & Hb).
  destruct op as [m|g|g|] eqn:Hop; [cbn; unfold set_len, assert_or; by case_tests|..];
    destruct (apply_op_owns (mem s) b data op Hb) as (? & ? & ? & He & _); subst op; try done; by rewrite He.
Qed.

Lemma inv_drop_buffer k es h0 n s i b :
  inv k es h0 n s -> (Z.of_nat n <= usize_max)%Z -> out s !! i = Some b ->
  exists fired p es', drop_pooled (pool s) b = Done (fired, p) /\
    inv (k + 1) es' h0 n (mkSys (mem s) p (acquires s) (Registration.fire_opt fired (since s))
      (delete i (out s))).
Proof.
  intros [Hs Hone Hav Hct How Hfr] Hn Hi.
  assert (length (out s) = S (length (delete i (out s)))) as Hlen
    by (by rewrite (lookup_perm _ _ _ Hi) at 1).
  unfold available, Semaphore.available in Hav.
  destruct (Semaphore.step_add_permits k es (sem_sys s) 1 Hs) as (s1 & es1 & He & Hi1 & _ & _);
    [simpl; lia|].
  cbn [Semaphore.exec sem_sys Semaphore.sem Semaphore.futures Semaphore.since Semaphore.held
    Semaphore.total] in He. change (Z.of_N 1) with 1%Z in He.
  unfold drop_pooled. cbn [sem].
  destruct (Semaphore.add_permits (sem (pool s)) 1) as [[fired se]| |] eqn:Ha; outcome_simpl; [|done|done].
  injection He as <-. eexists _, _, es1. split; [done|].
  assert (Semaphore.permits se = Semaphore.permits (sem (pool s)) + 1)%Z as Hp.
  { pose proof (Semaphore.inv_sum _ _ _ Hi1) as Hsum. simpl in Hsum. lia. }
  assert (free (pool s) ++ out s ≡ₚ (b :: free (pool s)) ++ delete i (out s)) as Hp1.
  { rewrite (lookup_perm _ _ _ Hi) at 1. by rewrite <-Permutation_middle. }
  split; cbn [pool sem free acquires since out mem]; try done.
  - unfold sem_sys. cbn [pool sem acquires since]. rewrite Hp. exact Hi1.
  - unfold available, Semaphore.available. simpl. lia.
  - simpl. lia.
  - by eapply owned_perm; [exact Hp1|].
  - by rewrite <-(scrub_perm _ _ _ Hp1).
Qed.

(** Slices cannot be resized by their users. *)
Definition event_ok (ev : event) : Prop :=
  match ev with EvUse _ op => keeps_length op | _ => True end.

Lemma pool_inv_exec k es h0 n s ev :
  inv k es h0 n s -> (k + 4 <= usize_max)%Z -> (Z.of_nat n <= usize_max)%Z -> event_ok ev ->
  exists s' es', exec s ev = Done s' /\ inv (k + 4) es' h0 n s'.
Proof.
  intros Hinv Hk Hn Hok. assert (inv (k + 4) es h0 n s) as Hinv' by (by eapply pool_inv_weaken; [|done]; lia).
  destruct ev as [f|f w|f| |i op|i]; cbn [exec event_ok] in *.
  - destruct (acquires s !! f) eqn:Hf; [by exists s, es|]. eexists _, es. split; [done|].
    destruct Hinv' as [Hs Hone Hav Hct How Hfr]. split; try done.
    + unfold sem_sys. cbn [pool acquires since].
      rewrite omap_insert_None, delete_id by (done || by rewrite lookup_omap, Hf). done.
    + intros g c Hg. cbn [acquires] in Hg. apply lookup_insert_Some in Hg as [[_ ?]|[_ Hg]]; [done|by eapply Hone].
  - destruct (acquires s !! f) as [fut|] eqn:Hf; [|by exists s, es].
    assert (fut = Returned \/ fut <> Returned) as [->|Hne] by (by destruct fut; auto); [by exists s, es|].
    destruct (pool_inv_poll k es h0 n s f fut w Hinv Hk Hf Hne) as (h & p & fut' & fired & r & es' & Hp & Hi & _).
    eexists _, es'. split; [|exact Hi]. rewrite Hp. by destruct fut.
  - destruct (acquires s !! f) as [fut|] eqn:Hf; [|by exists s, es].
    destruct (pool_inv_drop_future k es h0 n s f fut Hinv Hf) as (fired & p & es' & -> & Hi).
    eexists _, es'. split; [done|]. by eapply pool_inv_weaken; [|exact Hi]; lia.
  - destruct (inv_try_acquire k es h0 n s Hinv) as (o & p & h & es' & -> & Hi & _).
    eexists _, es'. split; [done|]. by eapply pool_inv_weaken; [|exact Hi]; lia.
  - destruct (out s !! i) as [b|] eqn:Hi; [|by exists s, es].
    destruct (apply_op (mem s) b op) as [[b' h']| |] eqn:Hop.
    + eexists _, es. split; [done|]. by eapply inv_use.
    + by exists s, es.
    + exfalso. eapply use_defined; [exact Hinv|exact Hi|exact Hok|exact Hop].
  - destruct (out s !! i) as [b|] eqn:Hi; [|by exists s, es].
    destruct (inv_drop_buffer k es h0 n s i b Hinv Hn Hi) as (fired & p & es' & -> & Hi').
    eexists _, es'. split; [done|]. by eapply pool_inv_weaken; [|exact Hi']; lia.
Qed.

Lemma pool_run_inv evs k es h0 n s :
  inv k es h0 n s -> (k + 4 * Z.of_nat (length evs) <= usize_max)%Z -> (Z.of_nat n <= usize_max)%Z ->
  Forall event_ok evs ->
  exists s' es', run s evs = Done s' /\ inv (k + 4 * Z.of_nat (length evs)) es' h0 n s'.
Proof.
  revert k es s. induction evs as [|ev evs IH]; intros k es s Hinv Hk Hn Hok; cbn [run length] in *.
  - exists s, es. split; [done|]. by rewrite Z.add_0_r.
  - apply Forall_cons in Hok as [Hok1 Hok].
    destruct (pool_inv_exec k es h0 n s ev Hinv) as (s1 & es1 & -> & Hinv1); [lia|done|done|]. outcome_simpl.
    destruct (IH (k + 4)%Z es1 s1 Hinv1) as (s2 & es2 & -> & Hinv2); [lia|done|done|].
    exists s2, es2. split; [done|].
    by replace (k + 4 * Z.of_nat (S (length evs)))%Z with (k + 4 + 4 * Z.of_nat (length evs))%Z by lia.
Qed.

(** The clearing policy is fixed at construction. *)
Lemma check_out_clear h p b p' h' :
  check_out h p = Done (b, p', h') -> clear_on_checkout p' = clear_on_checkout p.
Proof.
  unfold check_out, set_len, assert_or. destruct (free p) as [|b0 rest]; [done|]. outcome_simpl.
  case_tests; outcome_simpl; try done; [|by intros [= <- <- <-]].
  destruct (store _ _ _); outcome_simpl; [|done|done]. by intros [= <- <- <-].
Qed.

Lemma poll_acquire_clear h p fut w h' p' fut' fired r :
  poll_acquire h p fut w = Done (h', p', fut', fired, r) -> clear_on_checkout p' = clear_on_checkout p.
Proof.
  assert (forall a, ('(se, a, fired, r) ← Semaphore.poll (sem p) a w;
     let p := mkPool (free p) se (clear_on_checkout p) in
     match r with
     | Pending => Done (h, p, Suspended a, fired, Pending)
     | Ready _ =>
         '(_, se) ← Semaphore.drop_future (sem p) a;
         '(b, p, h) ← check_out h (mkPool (free p) se (clear_on_checkout p));
         Done (h, p, Returned, fired, Ready b)
     end) = Done (h', p', fut', fired, r) -> clear_on_checkout p' = clear_on_checkout p) as Hres.
  { intros a. destruct (Semaphore.poll _ _ _) as [[[[se a'] fd] [x|]]| |]; outcome_simpl; try done;
      [|by intros [= _ <- _ _ _]].
    destruct (Semaphore.drop_future _ _) as [[? se']| |]; outcome_simpl; try done.
    destruct (check_out _ _) as [[[b p1] h1]| |] eqn:Hc; outcome_simpl; try done.
    intros [= _ <- _ _ _]. by apply check_out_clear in Hc. }
  destruct fut as [|a|]; cbn [poll_acquire]; [apply Hres..|done].
Qed.

Lemma exec_clear s ev s' :
  exec s ev = Done s' -> clear_on_checkout (pool s') = clear_on_checkout (pool s).
Proof.
  destruct ev as [f|f w|f| |i op|i]; cbn [exec].
  - destruct (acquires s !! f); by intros [= <-].
  - destruct (acquires s !! f) as [fut|]; [|by intros [= <-]].
    destruct (poll_acquire _ _ _ _) as [[[[[h p] fut'] fired] r]| |] eqn:Hp.
    + apply poll_acquire_clear in Hp. destruct fut; intros [= <-]; done.
    + by destruct fut; intros [= <-].
    + by destruct fut; intros [= <-].
  - destruct (acquires s !! f) as [[|a|]|]; cbn [drop_acquire]; try by intros [= <-].
    destruct (Semaphore.drop_future _ _) as [[fired se]| |]; outcome_simpl; try done. by intros [= <-].
  - unfold try_acquire. destruct (Semaphore.try_acquire _) as [[x|] se]; [|by intros [= <-]].
    destruct (check_out _ _) as [[[b p1] h1]| |] eqn:Hc; outcome_simpl; try done.
    intros [= <-]. by apply check_out_clear in Hc.
  - destruct (out s !! i) as [b|]; [|by intros [= <-]].
    destruct (apply_op _ _ _) as [[? ?]| |]; by intros [= <-].
  - destruct (out s !! i) as [b|]; [|by intros [= <-]]. unfold drop_pooled.
    destruct (Semaphore.add_permits _ _) as [[fired se]| |]; outcome_simpl; try done. by intros [= <-].
Qed.

Lemma run_clear evs s s' :
  run s evs = Done s' -> clear_on_checkout (pool s') = clear_on_checkout (pool s).
Proof.
  revert s. induction evs as [|ev evs IH]; intros s; cbn [run]; [by intros [= <-]|].
  destruct (exec s ev) as [s1| |] eqn:He; outcome_simpl; try done.
  intros Hr. rewrite (IH _ Hr). by eapply exec_clear.
Qed.

Lemma inv_build h0 n c al clear p h :
  build h0 n c al clear = Done (p, h) -> inv 0 [] h0 n (start h p) /\ clear_on_checkout p = clear.
Proof.
  unfold build. destruct (alloc_all h0 n c al []) as [[bufs h1]| |] eqn:Ha; outcome_simpl; [|done|done].
  intros [= <- <-]. split; [|done].
  destruct (alloc_all_owned n h0 h0 c al [] bufs h1) as (Ho & Hs & Hlen); [by split; constructor|done|done|].
  simpl in Hlen. split; cbn [start pool free out mem acquires].
  - pose proof (Semaphore.semaphore_inv_init (Q := Q) (Z.of_nat n) ltac:(lia)) as Hi.
    unfold sem_sys, start. simpl. by rewrite omap_empty.
  - done.
  - simpl. unfold available, Semaphore.available. simpl. lia.
  - simpl. lia.
  - by rewrite app_nil_r.
  - by rewrite app_nil_r.
Qed.
End pool.
Arguments event T {_}.
Arguments sys T {_} Q.

(** ** Properties *)
Section properties.
Context {T : Type} `{Zeroable T} `{BuildMode} `{!Allocator T}.
Context `{Wakers} {Q : Type} `{WaitList Q (Z * Z * waker), !WaitListLaws Q (Z * Z * waker)}.

(** C28: the pool is safe and never runs dry behind a permit. Whatever fewer than
    [2^62] calls the program makes on a freshly built pool, none panics inside
    the pool (in particular a granted permit always finds a buffer) or is
    undefined; free and checked out buffers always add up to the pool's size,
    [available] counts the free ones, and all of them are distinct live
    allocations, so no two borrowers ever share memory. *)
Theorem pool_safe (h0 h : gmap Z (Layout * list T)) (n : nat) (c al : Z) (clear : bool)
    (p : PoolInner (Q := Q)) (evs : list (event T)) :
  build h0 n c al clear = Done (p, h) ->
  (Z.of_nat n <= usize_max)%Z -> (4 * Z.of_nat (length evs) <= usize_max)%Z -> Forall event_ok evs ->
  exists s, run (start h p) evs = Done s /\
    available (pool s) = Z.of_nat (length (free (pool s))) /\
    length (free (pool s)) + length (out s) = n /\
    NoDup (ptr <$> free (pool s) ++ out s) /\
    Forall (fun b => exists data, owns (mem s) b data) (free (pool s) ++ out s).
Proof.
  intros Hb Hn Hlen Hok. destruct (inv_build h0 n c al clear p h Hb) as [Hinv _].
  destruct (pool_run_inv evs 0 [] h0 n _ Hinv Hlen Hn Hok) as (s & es & -> & [_ _ Hav Hct [Ho Hnd] _]).
  by exists s.
Qed.

(** No information leaks through a clearing pool. In any reachable state of a
    pool that clears on checkout, the buffer handed out by [try_acquire], or by
    polling a live [acquire], is empty and zero over its whole capacity,
    whatever its previous borrowers wrote. *)
Theorem pool_clears (h0 h : gmap Z (Layout * list T)) (n : nat) (c al : Z)
    (p : PoolInner (Q := Q)) (evs : list (event T)) (s : sys T Q) :
  with_alignment h0 n c al = Done (p, h) ->
  (Z.of_nat n <= usize_max)%Z -> (4 * Z.of_nat (length evs) + 4 <= usize_max)%Z -> Forall event_ok evs ->
  run (start h p) evs = Done s ->
  (forall b p' h', try_acquire (mem s) (pool s) = Done (Some b, p', h') ->
    len b = 0%Z /\ owns h' b (replicate (Z.to_nat (capacity b)) zeroed)) /\
  (forall f fut w h' p' fut' fired b, acquires s !! f = Some fut ->
    poll_acquire (mem s) (pool s) fut w = Done (h', p', fut', fired, Ready b) ->
    len b = 0%Z /\ owns h' b (replicate (Z.to_nat (capacity b)) zeroed)).
Proof.
  intros Hb Hn Hlen Hok Hrun. destruct (inv_build h0 n c al true p h Hb) as [Hinv Hc].
  pose proof (run_clear _ _ _ Hrun) as Hc'. cbn [start pool] in Hc'. rewrite Hc in Hc'.
  destruct (pool_run_inv evs 0 [] h0 n _ Hinv ltac:(lia) Hn Hok) as (s' & es & Hrun' & Hi).
  rewrite Hrun in Hrun'. injection Hrun' as <-. split.
  - intros b p' h' Ht. destruct (inv_try_acquire _ es h0 n s Hi) as (o & p1 & h1 & es' & Ht' & _ & _ & Hz).
    rewrite Ht in Ht'. injection Ht' as <- <- <-. destruct (Hz b eq_refl) as [? Hz']. auto.
  - intros f fut w h' p' fut' fired b Hf Hp.
    destruct (pool_inv_poll _ es h0 n s f fut w Hi) as (h1 & p1 & fut1 & fired1 & r & es' & Hp' & _ & Hz);
      [lia|done|by intros ->|].
    rewrite Hp in Hp'. injection Hp' as <- <- <- <- <-. destruct (Hz b eq_refl) as [? Hz']. auto.
Qed.

(** No memory is lost. Once every checked out buffer has been returned,
    dropping the pool frees every buffer it allocated, with the right layout,
    and restores the heap it was built on. *)
Theorem pool_drop_frees (h0 h : gmap Z (Layout * list T)) (n : nat) (c al : Z) (clear : bool)
    (p : PoolInner (Q := Q)) (evs : list (event T)) (s : sys T Q) :
  build h0 n c al clear = Done (p, h) ->
  (Z.of_nat n <= usize_max)%Z -> (4 * Z.of_nat (length evs) <= usize_max)%Z -> Forall event_ok evs ->
  run (start h p) evs = Done s -> out s = [] ->
  drop_pool (mem s) (pool s) = Done h0.
Proof.
  intros Hb Hn Hlen Hok Hrun Hout. destruct (inv_build h0 n c al clear p h Hb) as [Hinv _].
  destruct (pool_run_inv evs 0 [] h0 n _ Hinv Hlen Hn Hok) as (s' & es & Hrun' & [_ _ _ _ Ho Hfr]).
  rewrite Hrun in Hrun'. injection Hrun' as <-. rewrite Hout, app_nil_r in *.
  unfold drop_pool. by rewrite drop_all_owned, Hfr.
Qed.
End properties.

#[local] Instance byte_zeroable : Zeroable Z := {| zeroed := 0%Z; size_of := 1; align_of := 1 |}.
#[local] Existing Instance debug_build.
#[local] Instance nat_wakers : Wakers := {| waker := nat; will_wake := Nat.eqb |}.
Abbreviation nat_queue := (Queue.QueueInternal (Z * Z * nat)).

(** A pool of one buffer: written by a first borrower, waited for by a second. *)
Definition demo_pool : PoolInner (Q := nat_queue) * gmap Z (Layout * list Z) :=
  Eval vm_compute in
    match build ∅ 1 4 16 true with
    | Done r => r
    | _ => (mkPool [] (Semaphore.new 0) true, ∅)
    end.

Definition demo_events : list (event Z) :=
  [EvTryAcquire; EvUse 0 (OpCapacityMut (fmap (Z.add 7))); EvUse 0 (OpSetLen 9); EvAcquire 0;
   EvPoll 0 5; EvDropBuffer 0].

Definition demo_final : sys Z nat_queue :=
  Eval vm_compute in
    match run (start demo_pool.2 demo_pool.1) demo_events with
    | Done s => s
    | _ => start ∅ demo_pool.1
    end.

Lemma pool_safe_witness :
  exists s, run (start demo_pool.2 demo_pool.1) demo_events = Done s /\
    available (pool s) = Z.of_nat (length (free (pool s))) /\
    length (free (pool s)) + length (out s) = 1 /\
    NoDup (ptr <$> free (pool s) ++ out s) /\
    Forall (fun b => exists data, owns (mem s) b data) (free (pool s) ++ out s).
Proof.
  apply (pool_safe ∅ demo_pool.2 1 4 16 true demo_pool.1 demo_events); [by vm_compute|by vm_compute..|].
  repeat constructor. simpl. intros. by rewrite length_fmap.
Defined.

Definition demo_heap : gmap Z (Layout * list Z) :=
  Eval vm_compute in
    match try_acquire (mem demo_final) (pool demo_final) with Done (_, _, h) => h | _ => ∅ end.

Lemma pool_clears_witness :
  len (mkBuf 16 0 4 16) = 0%Z /\ owns demo_heap (mkBuf 16 0 4 16) [0; 0; 0; 0]%Z.
Proof.
  refine (proj1 (pool_clears ∅ demo_pool.2 1 4 16 demo_pool.1 demo_events demo_final _ _ _ _ _)
    (mkBuf 16 0 4 16) _ demo_heap _); [by vm_compute..| |by vm_compute|by vm_compute].
  repeat constructor. simpl. intros. by rewrite length_fmap.
Defined.

Lemma pool_drop_frees_witness : drop_pool (mem demo_final) (pool demo_final) = Done ∅.
Proof.
  refine (pool_drop_frees ∅ demo_pool.2 1 4 16 true demo_pool.1 demo_events demo_final _ _ _ _ _ _);
    [by vm_compute..| |by vm_compute|by vm_compute].
  repeat constructor. simpl. intros. by rewrite length_fmap.
Defined.
End Pool.
