(* ===== verification/Concurrency.v ===== *)
(** * Threads over shared state

    The cross-core primitives of [src/site_d] are modelled as programs whose
    steps are atomic accesses to a shared state. [prog] is the program type,
    [run_sched] executes a list of threads under a schedule (the list of thread
    indices that take the next step), and [wp] is a rely-guarantee judgement with
    auxiliary state, sound for every schedule ([wp_sound]). Interleaving at the
    level of atomic accesses is sequential consistency when the state is the
    current value of everything shared; orderings weaker than [SeqCst] are told
    apart when it is the memory of [WeakMemory.v]. *)
From stdpp Require Import base list relations.
From S2P Require Import Prelude.

(** [std::sync::atomic::Ordering]. *)
Module Ordering.
Inductive ordering : Type := Relaxed | Acquire | Release | AcqRel | SeqCst.

Definition acquires (o : ordering) : bool :=
  match o with Acquire | AcqRel | SeqCst => true | _ => false end.
Definition releases (o : ordering) : bool :=
  match o with Release | AcqRel | SeqCst => true | _ => false end.
Definition is_seqcst (o : ordering) : bool := match o with SeqCst => true | _ => false end.
End Ordering.

(** A program: return, or one atomic access followed by the rest. *)
Inductive prog (S A : Type) : Type :=
| Ret (a : A)
| Act (B : Type) (f : S -> outcome (S * B)) (k : B -> prog S A).
Arguments Ret {S A} a.
Arguments Act {S A B} f k.

Section prog.
Context {S : Type}.

Fixpoint prog_bind_fix {A B} (k : A -> prog S B) (p : prog S A) : prog S B :=
  match p with
  | Ret a => k a
  | Act f h => Act f (fun b => prog_bind_fix k (h b))
  end.

#[global] Instance prog_ret : MRet (prog S) := fun A a => Ret a.
#[global] Instance prog_bind : MBind (prog S) := fun A B k p => prog_bind_fix k p.

Definition act {B} (f : S -> outcome (S * B)) : prog S B := Act f Ret.
(** A load. *)
Definition load {B} (f : S -> B) : prog S B := act (fun s => Done (s, f s)).
(** A store. *)
Definition store (f : S -> S) : prog S unit := act (fun s => Done (f s, tt)).
(** An assertion of a local value. *)
Definition check (o : outcome unit) : prog S unit := act (fun s => _ ← o; Done (s, tt)).

(** Running a program alone. *)
Fixpoint run_alone {A} (p : prog S A) (s : S) : outcome (S * A) :=
  match p with
  | Ret a => Done (s, a)
  | Act f k => '(s, b) ← f s; run_alone (k b) s
  end.

Lemma run_alone_bind {A B} (p : prog S A) (k : A -> prog S B) s :
  run_alone (p ≫= k) s = '(s, a) ← run_alone p s; run_alone (k a) s.
Proof.
  revert s. induction p as [a|C f h IH]; intros s; [done|]. cbn [mbind prog_bind prog_bind_fix run_alone].
  destruct (f s) as [[s' b]| |]; [|done..]. outcome_simpl. apply IH.
Qed.

(** One step of thread [i]; a finished or missing thread does nothing. *)
Definition step_thread {A} (i : nat) (s : S) (ps : list (prog S A)) : outcome (S * list (prog S A)) :=
  match ps !! i with
  | Some (Act f k) => '(s, b) ← f s; Done (s, <[i := k b]> ps)
  | _ => Done (s, ps)
  end.

Fixpoint run_sched {A} (sch : list nat) (s : S) (ps : list (prog S A)) :
    outcome (S * list (prog S A)) :=
  match sch with
  | [] => Done (s, ps)
  | i :: sch => '(s, ps) ← step_thread i s ps; run_sched sch s ps
  end.
End prog.

(** ** Counting steps

    [far X n p]: program [p] takes at least [n] steps before it returns a result
    in [X]. A loop with fuel [n] is far from running out of it. *)
Section far.
Context {S : Type}.

Fixpoint far {A} (X : A -> Prop) (n : nat) (p : prog S A) : Prop :=
  match p with
  | Ret a => X a -> n = 0
  | Act f k => forall b, far X (pred n) (k b)
  end.

Lemma far_le {A} (X : A -> Prop) n m (p : prog S A) : m <= n -> far X n p -> far X m p.
Proof.
  revert n m. induction p as [a|B f k IH]; intros n m Hle; simpl.
  - intros Hn HX. specialize (Hn HX). lia.
  - intros Hk b. eapply IH; [|apply Hk]. lia.
Qed.

Lemma far_zero {A} (X : A -> Prop) (p : prog S A) : far X 0 p.
Proof. induction p; simpl; auto. Qed.

Lemma far_never {A} (X : A -> Prop) n (p : prog S A) : (forall a, ~ X a) -> far X n p.
Proof. intros HX. revert n. induction p as [a|B f k IH]; intros n; simpl; [by intros ?%HX|auto]. Qed.

Lemma far_bind {A B} (E : A -> Prop) (X : B -> Prop) n (p : prog S A) (k : A -> prog S B) :
  (forall a, E a \/ ~ E a) -> far E n p -> (forall a, ~ E a -> far X n (k a)) -> far X n (p ≫= k).
Proof.
  intros Hdec. revert n. induction p as [a|C f h IH]; intros n; simpl.
  - intros Hn Hk. destruct (Hdec a) as [Ha|Ha]; [|by apply Hk]. rewrite (Hn Ha). apply far_zero.
  - intros Hf Hk b. apply IH; [done|]. intros a Ha. eapply far_le; [|by apply Hk]. lia.
Qed.

Lemma far_after {A B} (X : B -> Prop) n (p : prog S A) (k : A -> prog S B) :
  (forall a, far X n (k a)) -> far X n (p ≫= k).
Proof. intros Hk. apply (far_bind (fun _ => False)); [intros; right; tauto|apply far_never; tauto|by auto]. Qed.

(** Programs that answer [None] when they run out of fuel. *)
Lemma none_dec {A} (o : option A) : o = None \/ o <> None.
Proof. destruct o; [by right|by left]. Qed.

(** Under a schedule shorter than [n] such a result is not reached. *)
Lemma run_far {A} (X : A -> Prop) n sch s s' (ps ps' : list (prog S A)) i p :
  run_sched sch s ps = Done (s', ps') -> ps !! i = Some p -> far X n p ->
  exists p', ps' !! i = Some p' /\ far X (n - length sch) p'.
Proof.
  revert n s ps p. induction sch as [|j sch IH]; intros n s ps p; cbn [run_sched length].
  { intros [= <- <-] Hi Hf. exists p. split; [done|]. by rewrite Nat.sub_0_r. }
  destruct (step_thread j s ps) as [[s1 ps1]| |] eqn:Hst; outcome_simpl; try done. intros Hrun Hi Hf.
  assert (exists p1, ps1 !! i = Some p1 /\ far X (pred n) p1) as (p1 & Hi1 & Hf1).
  { unfold step_thread in Hst. destruct (ps !! j) as [[a|B f k]|] eqn:Hj.
    - injection Hst as <- <-. exists p. split; [done|]. eapply far_le; [|exact Hf]. lia.
    - destruct (f s) as [[s2 b]| |]; outcome_simpl; try done. injection Hst as <- <-.
      destruct (decide (j = i)) as [->|Hne].
      + rewrite Hi in Hj. injection Hj as ->. exists (k b).
        rewrite list_lookup_insert_eq by by eapply lookup_lt_Some. split; [done|apply Hf].
      + exists p. rewrite list_lookup_insert_ne by done. split; [done|]. eapply far_le; [|exact Hf]. lia.
    - injection Hst as <- <-. exists p. split; [done|]. eapply far_le; [|exact Hf]. lia. }
  destruct (IH _ _ _ _ Hrun Hi1 Hf1) as (p' & ? & Hf'). exists p'. split; [done|].
  eapply far_le; [|exact Hf']. lia.
Qed.
End far.

(** ** Rely-guarantee *)
Section wp.
Context {S Gh : Type}.
Implicit Types (R G : relation (S * Gh)).

(** [wp R G p Q x]: from state and auxiliary state [x], in an environment whose
    steps are in [R], program [p] never panics and never is undefined, each of
    its steps is in [G] for some update of the auxiliary state, and when it
    returns [a] the state satisfies [Q a] from then on. *)
Fixpoint wp R G {A} (p : prog S A) (Q : A -> S * Gh -> Prop) (x : S * Gh) : Prop :=
  match p with
  | Ret a => forall x', rtc R x x' -> Q a x'
  | Act f k => forall s g, rtc R x (s, g) ->
      exists s' b g', f s = Done (s', b) /\ G (s, g) (s', g') /\ wp R G (k b) Q (s', g')
  end.

Definition stable R (P : S * Gh -> Prop) : Prop := forall x x', P x -> R x x' -> P x'.

Lemma stable_rtc R P x x' : stable R P -> P x -> rtc R x x' -> P x'.
Proof. intros Hs Hp Hr. induction Hr; eauto. Qed.

Lemma wp_ret R G {A} (a : A) (P : S * Gh -> Prop) (Q : A -> S * Gh -> Prop) x :
  stable R P -> P x -> (forall x', P x' -> Q a x') -> wp R G (Ret a) Q x.
Proof. intros Hs Hp HQ x' Hr. apply HQ. by eapply stable_rtc. Qed.

Lemma wp_act R G {A B} (f : S -> outcome (S * B)) (k : B -> prog S A) (P : S * Gh -> Prop) Q x :
  stable R P -> P x ->
  (forall s g, P (s, g) ->
    exists s' b g', f s = Done (s', b) /\ G (s, g) (s', g') /\ wp R G (k b) Q (s', g')) ->
  wp R G (Act f k) Q x.
Proof. intros Hs Hp Hk s g Hr. apply Hk. by eapply stable_rtc. Qed.

Lemma wp_rely R G {A} (p : prog S A) Q x x' : wp R G p Q x -> rtc R x x' -> wp R G p Q x'.
Proof.
  destruct p as [a|B f k]; simpl.
  - intros HQ Hr x'' Hr'. apply HQ. by etrans.
  - intros Hk Hr s g Hr'. apply Hk. by etrans.
Qed.

Lemma wp_mono R G {A} (p : prog S A) (Q Q' : A -> S * Gh -> Prop) x :
  (forall a x, Q a x -> Q' a x) -> wp R G p Q x -> wp R G p Q' x.
Proof.
  intros HQ. revert x. induction p as [a|B f k IH]; intros x; simpl; [by eauto|].
  intros Hk s g Hr. destruct (Hk s g Hr) as (s' & b & g' & Hf & Hg & Hw).
  exists s', b, g'. eauto.
Qed.

Lemma wp_bind R G {A B} (p : prog S A) (k : A -> prog S B) Q x :
  wp R G p (fun a x' => wp R G (k a) Q x') x -> wp R G (p ≫= k) Q x.
Proof.
  revert x. induction p as [a|C f h IH]; intros x; simpl.
  - intros HQ. by apply HQ.
  - intros Hk s g Hr. destruct (Hk s g Hr) as (s' & b & g' & Hf & Hg & Hw).
    exists s', b, g'. split_and!; [done..|]. by apply IH.
Qed.

Lemma wp_weaken R R' G G' {A} (p : prog S A) Q x :
  (forall y y', R' y y' -> R y y') -> (forall y y', G y y' -> G' y y') ->
  wp R G p Q x -> wp R' G' p Q x.
Proof.
  intros HR HG. assert (forall y y', rtc R' y y' -> rtc R y y') as HR'.
  { intros y y' Hr. induction Hr; [done|]. eapply rtc_l; eauto. }
  revert x. induction p as [a|C f h IH]; intros x; simpl; [by eauto|].
  intros Hk s g Hr. destruct (Hk s g) as (s' & b & g' & Hf & Hg & Hw); [by apply HR'|].
  exists s', b, g'. eauto.
Qed.

(** Soundness: threads that pairwise tolerate each other's guarantees run
    without fault under every schedule, and each one that has returned satisfies
    its postcondition. *)
Section sound.
Context {A : Type} (R G : nat -> relation (S * Gh)) (Q : nat -> A -> S * Gh -> Prop).

Definition all_wp (ps : list (prog S A)) (x : S * Gh) : Prop :=
  forall i p, ps !! i = Some p -> wp (R i) (G i) p (Q i) x.

(** A step keeps what every guarantee keeps. *)
Lemma all_wp_step (J : S * Gh -> Prop) i s g ps :
  (forall i j y y', i <> j -> G i y y' -> R j y y') -> (forall i y y', G i y y' -> J y -> J y') ->
  all_wp ps (s, g) -> J (s, g) ->
  exists s' ps' g', step_thread i s ps = Done (s', ps') /\ all_wp ps' (s', g') /\
    length ps' = length ps /\ J (s', g').
Proof.
  intros Hcomp HJ Hall Hj. unfold step_thread.
  destruct (ps !! i) as [[a|B f k]|] eqn:Hi; [by eexists _, _, g| |by eexists _, _, g].
  destruct (Hall i _ Hi s g) as (s' & b & g' & -> & Hg & Hw); [done|]. outcome_simpl.
  exists s', (<[i := k b]> ps), g'. split_and!; [done| |by rewrite length_insert|by eapply HJ].
  intros j p Hp. destruct (decide (i = j)) as [<-|Hne].
  - rewrite list_lookup_insert_eq in Hp by by eapply lookup_lt_Some. by simplify_eq.
  - rewrite list_lookup_insert_ne in Hp by done. eapply wp_rely; [by apply Hall|].
    apply rtc_once. by eapply Hcomp.
Qed.

Lemma wp_sound_inv (J : S * Gh -> Prop) sch s g ps :
  (forall i j y y', i <> j -> G i y y' -> R j y y') -> (forall i y y', G i y y' -> J y -> J y') ->
  all_wp ps (s, g) -> J (s, g) ->
  exists s' ps' g', run_sched sch s ps = Done (s', ps') /\ all_wp ps' (s', g') /\
    length ps' = length ps /\ J (s', g').
Proof.
  intros Hcomp HJ. revert s g ps. induction sch as [|i sch IH]; intros s g ps Hall Hj; cbn [run_sched].
  { by eexists _, _, g. }
  destruct (all_wp_step J i s g ps Hcomp HJ Hall Hj) as (s1 & ps1 & g1 & -> & Hall1 & Hlen & Hj1). outcome_simpl.
  destruct (IH s1 g1 ps1 Hall1 Hj1) as (s2 & ps2 & g2 & -> & Hall2 & Hlen2 & Hj2).
  eexists _, _, g2. split_and!; [done|done|congruence|done].
Qed.

Lemma wp_sound sch s g ps :
  (forall i j y y', i <> j -> G i y y' -> R j y y') -> all_wp ps (s, g) ->
  exists s' ps' g', run_sched sch s ps = Done (s', ps') /\ all_wp ps' (s', g') /\
    length ps' = length ps.
Proof.
  intros Hcomp Hall. destruct (wp_sound_inv (fun _ => True) sch s g ps) as (s' & ps' & g' & ? & ? & ? & _); try done.
  by exists s', ps', g'.
Qed.

Lemma all_wp_returned ps x i a : all_wp ps x -> ps !! i = Some (Ret a) -> Q i a x.
Proof. intros Hall Hi. by apply (Hall i _ Hi). Qed.
End sound.
End wp.
