(* ===== verification/Notify.v ===== *)
(** * Wakeup signalling ([src/site_d/notify.rs])

    [Module Notify]: the three-state [AtomicWaker] and the flag-gated
    [WaiterSlot], as programs over any shared state that contains a slot
    ([SlotRef]). The second half is the protocol between one waiter and any
    number of signallers: its auxiliary state, the invariant of a slot, and
    rely-guarantee specifications of [arm], [disarm] and [signal] from which the
    primitives built on the slot derive that no wakeup is lost. *)
From stdpp Require Import base list gmap numbers relations strings.
From S2P Require Import Prelude WaitList Concurrency.

Module Notify.
Definition WAITING : Z := 0.
Definition REGISTERING : Z := 1.
Definition WAKING : Z := 2.

Section notify.
Context `{BuildMode} `{Wakers}.

Record AtomicWaker : Type := mkAtomicWaker { state : Z; cell : option waker }.

Record WaiterSlot : Type := mkSlot { aw : AtomicWaker; armed : bool }.

Definition new_waker : AtomicWaker := mkAtomicWaker WAITING None.
Definition new : WaiterSlot := mkSlot new_waker false.

Definition set_state (st : Z) (sl : WaiterSlot) : WaiterSlot :=
  mkSlot (mkAtomicWaker st (cell (aw sl))) (armed sl).
Definition set_cell (c : option waker) (sl : WaiterSlot) : WaiterSlot :=
  mkSlot (mkAtomicWaker (state (aw sl)) c) (armed sl).
Definition set_armed (b : bool) (sl : WaiterSlot) : WaiterSlot := mkSlot (aw sl) b.

(** Where a slot lives in a shared state, and the log of the wakers fired. *)
Record SlotRef (S : Type) : Type := mkSlotRef {
  get_slot : S -> WaiterSlot;
  put_slot : WaiterSlot -> S -> S;
  get_log : S -> list waker;
  put_log : list waker -> S -> S
}.

Section programs.
Context {S : Type} (r : SlotRef S).

Definition on_slot (f : WaiterSlot -> WaiterSlot) (s : S) : S := put_slot _ r (f (get_slot _ r s)) s.

(** [waker.wake()], [waker.wake_by_ref()]. *)
Definition fire (w : waker) : prog S unit :=
  store (fun s => put_log _ r (get_log _ r s ++ [w]) s).

(** [state.compare_exchange(old, new)]: the value found, and whether it was
    exchanged. *)
Definition compare_exchange (old new : Z) : prog S (bool * Z) :=
  act (fun s =>
    let st := state (aw (get_slot _ r s)) in
    if (st =? old)%Z then Done (on_slot (set_state new) s, (true, st)) else Done (s, (false, st))).

Definition fetch_or (bit : Z) : prog S Z :=
  act (fun s =>
    let st := state (aw (get_slot _ r s)) in Done (on_slot (set_state (Z.lor st bit)) s, st)).

Definition fetch_and_not (bit : Z) : prog S Z :=
  act (fun s =>
    let st := state (aw (get_slot _ r s)) in Done (on_slot (set_state (Z.ldiff st bit)) s, st)).

(** Replace the stored waker unless it already wakes the same task. *)
Definition store_waker (w : waker) : prog S unit :=
  store (fun s =>
    match cell (aw (get_slot _ r s)) with
    | Some w0 => if will_wake w0 w then s else on_slot (set_cell (Some w)) s
    | None => on_slot (set_cell (Some w)) s
    end).

(** Take the stored waker out of the cell. *)
Definition take_cell : prog S (option waker) :=
  act (fun s => Done (on_slot (set_cell None) s, cell (aw (get_slot _ r s)))).

Definition register (w : waker) : prog S unit :=
  '(_, found) ← compare_exchange WAITING REGISTERING;
  if (found =? WAITING)%Z then
    _ ← store_waker w;
    '(ok, actual) ← compare_exchange REGISTERING WAITING;
    if (ok : bool) then Ret tt
    else
      _ ← check (debug_assert (actual =? Z.lor REGISTERING WAKING)%Z "assertion failed: actual == REGISTERING | WAKING");
      o ← take_cell;
      match o with
      | None => check (Panicked "called `Option::unwrap()` on a `None` value")
      | Some wk => _ ← store (on_slot (set_state WAITING)); fire wk
      end
  else fire w.

Definition take : prog S (option waker) :=
  st ← fetch_or WAKING;
  if (st =? WAITING)%Z then
    w ← take_cell;
    _ ← fetch_and_not WAKING;
    Ret w
  else Ret None.

Definition wake : prog S unit :=
  o ← take;
  match o with Some w => fire w | None => Ret tt end.

Definition arm (w : waker) : prog S unit :=
  _ ← register w;
  store (on_slot (set_armed true)).

Definition disarm : prog S unit := store (on_slot (set_armed false)).

Definition signal_slow : prog S unit :=
  was ← act (fun s => Done (on_slot (set_armed false) s, armed (get_slot _ r s)));
  if (was : bool) then wake else Ret tt.

Definition signal : prog S unit :=
  a ← load (fun s => armed (get_slot _ r s));
  if (a : bool) then signal_slow else Ret tt.
End programs.

(** ** The protocol

    Auxiliary state of a slot. The waiter is outside [register]; holds the
    [REGISTERING] bit before or after storing its waker; has taken its waker
    back after a racing wake; or is parked, with waker [w] and [k] wakers fired
    before it armed. *)
Inductive WaiterPhase : Type :=
| Idle
| Registering
| Stored
| TookBack
| Parked (w : waker) (k : nat).

(** A signaller has published and not yet looked at the flag; has claimed the
    flag; holds the [WAKING] bit before or after taking the cell; or has a waker
    in hand to fire. Signallers with no entry are done. *)
Inductive SignalPhase : Type :=
| Owes
| Claimed
| Taking
| Holding (o : option waker)
| Firing (w : waker).

Record SlotGhost : Type := mkGhost {
  waiter : WaiterPhase;
  signallers : gmap nat SignalPhase;
  holder : option nat                (* who holds the [WAKING] bit *)
}.

Definition ghost0 : SlotGhost := mkGhost Idle ∅ None.

(** Firing [x] wakes a task that registered with [w]. *)
Definition wakes (x w : waker) : Prop := x = w \/ will_wake x w = true.

Definition fired_since (w : waker) (k : nat) (log : list waker) : Prop :=
  exists x, x ∈ drop k log /\ wakes x w.

(** A signaller has, or is about to have, a waker for [w] in hand. *)
Definition in_hand (w : waker) (g : SlotGhost) : Prop :=
  exists i x, (signallers g !! i = Some (Holding (Some x)) \/ signallers g !! i = Some (Firing x)) /\
    wakes x w.

Definition claimed (g : SlotGhost) : Prop :=
  exists i, signallers g !! i = Some Claimed \/ signallers g !! i = Some Taking.

Definition in_cell (w : waker) (sl : WaiterSlot) : Prop :=
  exists x, cell (aw sl) = Some x /\ wakes x w.

(** What a waiter that has armed with [w] may rely on until it polls again. *)
Definition armed_ok (w : waker) (k : nat) (sl : WaiterSlot) (log : list waker) (g : SlotGhost) : Prop :=
  fired_since w k log \/
  in_cell w sl /\ (armed sl = true \/ claimed g) \/
  in_hand w g.

(** The same before the flag is raised. *)
Definition covered (w : waker) (k : nat) (sl : WaiterSlot) (log : list waker) (g : SlotGhost) : Prop :=
  fired_since w k log \/ in_cell w sl \/ in_hand w g.

(** Somebody will fire a waker for [w], or has yet to look at the flag. *)
Definition helped (w : waker) (sl : WaiterSlot) (g : SlotGhost) : Prop :=
  (exists i, signallers g !! i = Some Owes) \/ (in_cell w sl /\ claimed g) \/ in_hand w g.

(** The invariant of a slot; [c] says that what the waiter waits for holds. *)
Record slot_inv (c : Prop) (sl : WaiterSlot) (log : list waker) (g : SlotGhost) : Prop := {
  si_state :
    match waiter g with
    | Registering | Stored | TookBack =>
        (state (aw sl) = 1%Z \/ state (aw sl) = 3%Z) /\ holder g = None
    | Idle | Parked _ _ =>
        state (aw sl) = 0%Z /\ holder g = None \/ state (aw sl) = 2%Z /\ is_Some (holder g)
    end;
  si_stored : waiter g = Stored -> is_Some (cell (aw sl));
  si_holder i : (signallers g !! i = Some Taking \/ exists o, signallers g !! i = Some (Holding o)) <->
    holder g = Some i;
  si_empty i o : signallers g !! i = Some (Holding o) -> cell (aw sl) = None;
  si_parked w k : waiter g = Parked w k -> k <= length log /\ armed_ok w k sl log g;
  si_told w k : waiter g = Parked w k -> c -> fired_since w k log \/ helped w sl g
}.

Definition outside (p : WaiterPhase) : Prop := p = Idle \/ exists w k, p = Parked w k.

(** Steps of signaller [i]. *)
Record signal_step (i : nat) (sl : WaiterSlot) (log : list waker) (g : SlotGhost)
    (sl' : WaiterSlot) (log' : list waker) (g' : SlotGhost) : Prop := {
  ss_waiter : waiter g' = waiter g;
  ss_others j : j <> i -> signallers g' !! j = signallers g !! j;
  ss_log : log `prefix_of` log';
  ss_inv c : slot_inv c sl log g -> slot_inv c sl' log' g';
  ss_ok c w k : slot_inv c sl log g -> outside (waiter g) -> k <= length log ->
    armed_ok w k sl log g -> armed_ok w k sl' log' g';
  ss_covered c w k : slot_inv c sl log g -> outside (waiter g) -> k <= length log ->
    covered w k sl log g -> covered w k sl' log' g';
  ss_cell c : slot_inv c sl log g -> ~ outside (waiter g) -> cell (aw sl') = cell (aw sl)
}.

(** Steps of the waiter. *)
Record waiter_step (sl : WaiterSlot) (log : list waker) (g : SlotGhost)
    (sl' : WaiterSlot) (log' : list waker) (g' : SlotGhost) : Prop := {
  ws_signallers : signallers g' = signallers g;
  ws_log : log `prefix_of` log';
  ws_inv c : slot_inv c sl log g -> slot_inv c sl' log' g'
}.

Lemma slot_inv_new c : slot_inv c new [] ghost0.
Proof.
  split; simpl; try done; [by left|].
  intros i. split; [|done]. by intros [Hi|[o Hi]]; rewrite lookup_empty in Hi.
Qed.

Lemma fired_since_mono w k log log' :
  log `prefix_of` log' -> fired_since w k log -> fired_since w k log'.
Proof.
  intros [l ->] (x & Hx & Hw). exists x. split; [|done]. rewrite drop_app. apply elem_of_app. by left.
Qed.

Lemma fired_since_snoc w k log x :
  k <= length log -> wakes x w -> fired_since w k (log ++ [x]).
Proof.
  intros Hk Hw. exists x. split; [|done]. rewrite drop_app. apply elem_of_app. right.
  replace (k - length log) with 0 by lia. by left.
Qed.

(** *** Signaller transitions *)
Definition set_phase (i : nat) (o : option SignalPhase) (h : option nat) (g : SlotGhost) : SlotGhost :=
  mkGhost (waiter g) (partial_alter (fun _ => o) i (signallers g)) h.

Lemma phase_eq i o h g : signallers (set_phase i o h g) !! i = o.
Proof. apply lookup_partial_alter_eq. Qed.

Lemma phase_ne i j o h g : j <> i -> signallers (set_phase i o h g) !! j = signallers g !! j.
Proof. intros. by apply lookup_partial_alter_ne. Qed.

Lemma phase_keep i j p o h g :
  signallers g !! j = Some p -> signallers g !! i <> Some p ->
  signallers (set_phase i o h g) !! j = Some p.
Proof. intros Hj Hi. rewrite phase_ne; [done|]. intros ->. done. Qed.

Lemma claimed_keep i o h g :
  signallers g !! i <> Some Claimed -> signallers g !! i <> Some Taking ->
  claimed g -> claimed (set_phase i o h g).
Proof. intros H1 H2 (j & [Hj|Hj]); exists j; [left|right]; by apply phase_keep. Qed.

Lemma claimed_new i o h g : o = Some Claimed \/ o = Some Taking -> claimed (set_phase i o h g).
Proof. intros Ho. exists i. by rewrite phase_eq. Qed.

Lemma in_hand_keep w i o h g :
  (forall x, signallers g !! i <> Some (Holding (Some x)) /\ signallers g !! i <> Some (Firing x)) ->
  in_hand w g -> in_hand w (set_phase i o h g).
Proof.
  intros Hi (j & x & Hj & Hw). exists j, x. split; [|done]. destruct (Hi x).
  destruct Hj as [Hj|Hj]; [left|right]; by apply phase_keep.
Qed.

Lemma in_hand_new w i x o h g :
  o = Some (Holding (Some x)) \/ o = Some (Firing x) -> wakes x w -> in_hand w (set_phase i o h g).
Proof. intros Ho Hw. exists i, x. by rewrite phase_eq. Qed.

Lemma owes_keep i j o h g :
  signallers g !! j = Some Owes -> j <> i -> exists j', signallers (set_phase i o h g) !! j' = Some Owes.
Proof. intros Hj Hne. exists j. by rewrite phase_ne. Qed.

(** Whether signaller [i] holds the [WAKING] bit. *)
Definition holds (o : option SignalPhase) : Prop := o = Some Taking \/ exists x, o = Some (Holding x).

Lemma si_holder_set i o h g :
  (forall j, (signallers g !! j = Some Taking \/ exists x, signallers g !! j = Some (Holding x)) <->
    holder g = Some j) ->
  (holds o -> h = Some i) -> (~ holds o -> h = if decide (holder g = Some i) then None else holder g) ->
  (holds o -> holder g = None \/ holder g = Some i) ->
  forall j, (signallers (set_phase i o h g) !! j = Some Taking \/
    exists x, signallers (set_phase i o h g) !! j = Some (Holding x)) <-> h = Some j.
Proof.
  intros Hh Hy Hn Hfree j. destruct (decide (j = i)) as [->|Hne].
  - rewrite phase_eq. fold (holds o). split; [by apply Hy|]. intros ->.
    assert (holds o \/ ~ holds o) as [?|Hno]; [|done|].
    { unfold holds. destruct o as [[]|]; try (right; by intros [?|[? ?]]); left; [by left|right; by eexists]. }
    specialize (Hn Hno). case_decide; congruence.
  - rewrite phase_ne by done. rewrite (Hh j).
    assert (holds o \/ ~ holds o) as [Ho|Hno].
    { unfold holds. destruct o as [[]|]; try (right; by intros [?|[? ?]]); left; [by left|right; by eexists]. }
    + rewrite (Hy Ho). destruct (Hfree Ho) as [->| ->]; split; congruence.
    + rewrite (Hn Hno). case_decide as Hd; [|done]. rewrite Hd. split; congruence.
Qed.

Lemma armed_ok_lowered w k sl log g :
  armed sl = false -> armed_ok w k sl log g -> fired_since w k log \/ helped w sl g.
Proof. intros Ha [?|[[? [?|?]]|?]]; [by left|congruence|right; by right; left|right; by right; right]. Qed.

Lemma not_holder c sl log g i :
  slot_inv c sl log g -> ~ holds (signallers g !! i) -> holder g <> Some i.
Proof. intros Hi Hn Hh. apply Hn. by apply (si_holder _ _ _ _ Hi). Qed.

Lemma free_state c sl log g :
  slot_inv c sl log g -> state (aw sl) = 0%Z -> outside (waiter g) /\ holder g = None.
Proof.
  intros Hi Hs. pose proof (si_state _ _ _ _ Hi) as Hst. rewrite Hs in Hst.
  destruct (waiter g); try (by destruct Hst as [[?|?] _]).
  - destruct Hst as [[_ ?]|[? _]]; [|done]. split; [by left|done].
  - destruct Hst as [[_ ?]|[? _]]; [|done]. split; [right; by eexists _, _|done].
Qed.

Lemma held_state c sl log g i :
  slot_inv c sl log g -> holder g = Some i -> outside (waiter g) /\ state (aw sl) = 2%Z.
Proof.
  intros Hi Hh. pose proof (si_state _ _ _ _ Hi) as Hst. rewrite Hh in Hst.
  destruct (waiter g); try (by destruct Hst as [_ ?]); destruct Hst as [[_ ?]|[? _]]; try done.
  - split; [by left|done].
  - split; [right; by eexists _, _|done].
Qed.

(** Before looking at the flag, and lowering nothing. *)
Definition undecided (o : option SignalPhase) : Prop := o = None \/ o = Some Owes.

Lemma undecided_not o : undecided o ->
  (forall p, o = Some p -> p = Owes) /\ ~ holds o.
Proof. intros [->| ->]; split; try congruence; by intros [?|[? ?]]. Qed.

Lemma look_false i sl log g :
  armed sl = false -> undecided (signallers g !! i) ->
  signal_step i sl log g sl log (set_phase i None (holder g) g).
Proof.
  intros Ha Hu. destruct (undecided_not _ Hu) as [Hp Hnh].
  assert (forall w k, armed_ok w k sl log g -> armed_ok w k sl log (set_phase i None (holder g) g)) as Hok.
  { intros w k [?|[[? [?|?]]|?]]; [by left|congruence|right; left|right; right].
    - split; [done|]. right. apply claimed_keep; [..|done]; intros Hq; by specialize (Hp _ Hq).
    - apply in_hand_keep; [|done]. intros x. split; intros Hq; by specialize (Hp _ Hq). }
  split; try done; [by intros; rewrite phase_ne| | |].
  - intros c Hi. pose proof Hi as [Hst Hsd Hh He Hpk Ht]. split; try done.
    + apply si_holder_set; [done|by intros [?|[? ?]]| |by intros [?|[? ?]]].
      intros _. rewrite decide_False; [done|]. by eapply not_holder.
    + intros j o Hj. destruct (decide (j = i)) as [->|Hne]; [by rewrite phase_eq in Hj|].
      rewrite phase_ne in Hj by done. by eapply He.
    + intros w k Hw. destruct (Hpk w k Hw). split; [done|by apply Hok].
    + intros w k Hw _. apply armed_ok_lowered with (k := k); [done|]. apply Hok. by apply Hpk.
  - intros c w k _ _ _. apply Hok.
  - intros c w k _ _ _ [?|[?|?]]; [by left|right; by left|right; right].
    apply in_hand_keep; [|done]. intros x. split; intros Hq; by specialize (Hp _ Hq).
Qed.

Lemma look_true i sl log g :
  undecided (signallers g !! i) ->
  signal_step i sl log g sl log (set_phase i (Some Owes) (holder g) g).
Proof.
  intros Hu. destruct (undecided_not _ Hu) as [Hp Hnh].
  assert (forall w, in_hand w g -> in_hand w (set_phase i (Some Owes) (holder g) g)) as Hhand.
  { intros w. apply in_hand_keep. intros x. split; intros Hq; by specialize (Hp _ Hq). }
  assert (forall w k, armed_ok w k sl log g -> armed_ok w k sl log (set_phase i (Some Owes) (holder g) g)) as Hok.
  { intros w k [?|[[? [?|?]]|?]]; [by left|right; left; split; [done|by left]|right; left|right; right; by apply Hhand].
    split; [done|]. right. apply claimed_keep; [..|done]; intros Hq; by specialize (Hp _ Hq). }
  split; try done; [by intros; rewrite phase_ne| | |].
  - intros c Hi. pose proof Hi as [Hst Hsd Hh He Hpk Ht]. split; try done.
    + apply si_holder_set; [done|by intros [?|[? ?]]| |by intros [?|[? ?]]].
      intros _. rewrite decide_False; [done|]. by eapply not_holder.
    + intros j o Hj. destruct (decide (j = i)) as [->|Hne]; [by rewrite phase_eq in Hj|].
      rewrite phase_ne in Hj by done. by eapply He.
    + intros w k Hw. destruct (Hpk w k Hw). split; [done|by apply Hok].
    + intros w k Hw _. right. left. exists i. apply phase_eq.
  - intros c w k _ _ _. apply Hok.
  - intros c w k _ _ _ [?|[?|?]]; [by left|right; by left|right; right; by apply Hhand].
Qed.

(** Claiming the raised flag. *)
Lemma claim i sl log g :
  signallers g !! i = Some Owes ->
  signal_step i sl log g (set_armed false sl) log (set_phase i (Some Claimed) (holder g) g).
Proof.
  intros Hp.
  assert (forall w, in_hand w g -> in_hand w (set_phase i (Some Claimed) (holder g) g)) as Hhand.
  { intros w. apply in_hand_keep. intros x. split; congruence. }
  assert (forall w k, armed_ok w k sl log g ->
    armed_ok w k (set_armed false sl) log (set_phase i (Some Claimed) (holder g) g)) as Hok.
  { intros w k [?|[[? _]|?]]; [by left|right; left|right; right; by apply Hhand].
    split; [done|]. right. apply claimed_new. by left. }
  split; try done; [by intros; rewrite phase_ne| | |].
  - intros c Hi. pose proof Hi as [Hst Hsd Hh He Hpk Ht]. split; try done.
    + apply si_holder_set; [done|by intros [?|[? ?]]| |by intros [?|[? ?]]].
      intros _. rewrite decide_False; [done|]. eapply not_holder; [done|]. rewrite Hp. by intros [?|[? ?]].
    + intros j o Hj. destruct (decide (j = i)) as [->|Hne]; [by rewrite phase_eq in Hj|].
      rewrite phase_ne in Hj by done. by eapply He.
    + intros w k Hw. destruct (Hpk w k Hw). split; [done|by apply Hok].
    + intros w k Hw _. apply armed_ok_lowered with (k := k); [done|]. apply Hok. by apply Hpk.
  - intros c w k _ _ _. apply Hok.
  - intros c w k _ _ _ [?|[?|?]]; [by left|right; by left|right; right; by apply Hhand].
Qed.

(** [fetch_or(WAKING)] on a waiting slot takes the lock. *)
Lemma lock_waking i sl log g :
  state (aw sl) = 0%Z -> signallers g !! i = Some Claimed ->
  signal_step i sl log g (set_state 2 sl) log (set_phase i (Some Taking) (Some i) g).
Proof.
  intros Hs Hp.
  assert (forall w, in_hand w g -> in_hand w (set_phase i (Some Taking) (Some i) g)) as Hhand.
  { intros w. apply in_hand_keep. intros x. split; congruence. }
  assert (claimed (set_phase i (Some Taking) (Some i) g)) as Hcl by (apply claimed_new; by right).
  assert (forall w k, armed_ok w k sl log g ->
    armed_ok w k (set_state 2 sl) log (set_phase i (Some Taking) (Some i) g)) as Hok.
  { intros w k [?|[[? _]|?]]; [by left|right; left; split; [done|by right]|right; right; by apply Hhand]. }
  split; try done; [by intros; rewrite phase_ne| | |].
  - intros c Hi. pose proof Hi as [Hst Hsd Hh He Hpk Ht]. destruct (free_state _ _ _ _ Hi Hs) as [Hout Hnone].
    split; try done.
    + simpl. destruct Hout as [->|(w & k & ->)]; right; by split; [|eexists].
    + apply si_holder_set; [done|done| |rewrite Hnone; by left]. intros Hno. exfalso. apply Hno. by left.
    + intros j o Hj. destruct (decide (j = i)) as [->|Hne]; [by rewrite phase_eq in Hj|].
      rewrite phase_ne in Hj by done. by eapply He.
    + intros w k Hw. destruct (Hpk w k Hw). split; [done|by apply Hok].
    + intros w k Hw Hc. destruct (Ht w k Hw Hc) as [?|[[j Hj]|[[? _]|?]]]; [by left|right..].
      * left. apply (owes_keep i j); [done|]. intros ->. congruence.
      * right. by left.
      * right. right. by apply Hhand.
  - intros c w k _ _ _. apply Hok.
  - intros c w k _ _ _ [?|[?|?]]; [by left|right; by left|right; right; by apply Hhand].
Qed.

(** [fetch_or(WAKING)] on a busy slot: whoever holds it will fire. *)
Lemma miss_waking i sl log g :
  state (aw sl) <> 0%Z -> signallers g !! i = Some Claimed ->
  signal_step i sl log g (set_state (Z.lor (state (aw sl)) 2) sl) log (set_phase i None (holder g) g).
Proof.
  intros Hs Hp.
  assert (forall w, in_hand w g -> in_hand w (set_phase i None (holder g) g)) as Hhand.
  { intros w. apply in_hand_keep. intros x. split; congruence. }
  assert (forall c w, slot_inv c sl log g -> outside (waiter g) -> in_cell w sl ->
    claimed (set_phase i None (holder g) g)) as Hcl.
  { intros c w Hi Hout (x & Hx & _).
    assert (is_Some (holder g)) as [j Hj].
    { pose proof (si_state _ _ _ _ Hi) as Hst. by destruct Hout as [Hw|(? & ? & Hw)]; rewrite Hw in Hst; destruct Hst as [[??]|[??]]. }
    pose proof Hj as Hj'. apply (si_holder _ _ _ _ Hi) in Hj' as [Hj'|[o Hj']].
    - exists j. right. apply phase_keep; [done|congruence].
    - apply (si_empty _ _ _ _ Hi) in Hj'. congruence. }
  assert (forall c w k, slot_inv c sl log g -> outside (waiter g) -> armed_ok w k sl log g ->
    armed_ok w k (set_state (Z.lor (state (aw sl)) 2) sl) log (set_phase i None (holder g) g)) as Hok.
  { intros c w k Hi Hout [?|[[? _]|?]]; [by left|right; left; split; [done|right; by eapply Hcl]|right; right; by apply Hhand]. }
  split; try done; [by intros; rewrite phase_ne| | |].
  - intros c Hi. pose proof Hi as [Hst Hsd Hh He Hpk Ht]. split; try done.
    + simpl. destruct (waiter g).
      * destruct Hst as [[??]|[-> ?]]; [done|by right].
      * destruct Hst as [[->| ->] ?]; split; auto.
      * destruct Hst as [[->| ->] ?]; split; auto.
      * destruct Hst as [[->| ->] ?]; split; auto.
      * destruct Hst as [[??]|[-> ?]]; [done|by right].
    + apply si_holder_set; [done|by intros [?|[? ?]]| |by intros [?|[? ?]]].
      intros _. rewrite decide_False; [done|]. eapply not_holder; [done|]. rewrite Hp. by intros [?|[? ?]].
    + intros j o Hj. destruct (decide (j = i)) as [->|Hne]; [by rewrite phase_eq in Hj|].
      rewrite phase_ne in Hj by done. by eapply He.
    + intros w k Hw. destruct (Hpk w k Hw). split; [done|]. eapply Hok; [done| |done].
      right. by eexists _, _.
    + intros w k Hw Hc. destruct (Ht w k Hw Hc) as [?|[[j Hj]|[[? _]|?]]]; [by left|right..].
      * left. apply (owes_keep i j); [done|]. intros ->. congruence.
      * right. left. split; [done|]. eapply Hcl; [done| |done]. right. by eexists _, _.
      * right. right. by apply Hhand.
  - intros c w k Hi Hout _. by eapply Hok.
  - intros c w k _ _ _ [?|[?|?]]; [by left|right; by left|right; right; by apply Hhand].
Qed.

(** Taking the cell under the [WAKING] lock. *)
Lemma take_waker i sl log g :
  signallers g !! i = Some Taking ->
  signal_step i sl log g (set_cell None sl) log (set_phase i (Some (Holding (cell (aw sl)))) (holder g) g).
Proof.
  intros Hp. set (g' := set_phase i (Some (Holding (cell (aw sl)))) (holder g) g).
  assert (forall w, in_hand w g -> in_hand w g') as Hhand.
  { intros w. apply in_hand_keep. intros x. split; congruence. }
  assert (forall w, in_cell w sl -> in_hand w g') as Hcell.
  { intros w (x & Hx & Hw). apply (in_hand_new w i x); [|done]. left. by rewrite Hx. }
  assert (forall w k, armed_ok w k sl log g -> armed_ok w k (set_cell None sl) log g') as Hok.
  { intros w k [?|[[? _]|?]]; [by left|right; right; by apply Hcell|right; right; by apply Hhand]. }
  split; try done; [by intros; apply phase_ne| | | |].
  - intros c Hi. pose proof Hi as [Hst Hsd Hh He Hpk Ht].
    assert (holder g = Some i) as Hhold by (apply Hh; by left).
    destruct (held_state _ _ _ _ _ Hi Hhold) as [Hout _]. split; try done.
    + intros Hw. cbn in Hw. rewrite Hw in Hout. by destruct Hout as [?|(?&?&?)].
    + apply si_holder_set; [done|done| |rewrite Hhold; by right]. intros Hno. exfalso. apply Hno. right. by eexists.
    + intros w k Hw. destruct (Hpk w k Hw). split; [done|by apply Hok].
    + intros w k Hw Hc. destruct (Ht w k Hw Hc) as [?|[[j Hj]|[[? _]|?]]]; [by left|right..].
      * left. apply (owes_keep i j); [done|]. intros ->. congruence.
      * right. right. by apply Hcell.
      * right. right. by apply Hhand.
  - intros c w k _ _ _. apply Hok.
  - intros c w k _ _ _ [?|[?|?]]; [by left|right; right; by apply Hcell|right; right; by apply Hhand].
  - intros c Hi Hno. exfalso. apply Hno. eapply held_state; [done|]. apply (si_holder _ _ _ _ Hi). by left.
Qed.

(** Releasing the [WAKING] lock. *)
Lemma unlock_waking i o sl log g :
  signallers g !! i = Some (Holding o) ->
  signal_step i sl log g (set_state (Z.ldiff (state (aw sl)) 2) sl) log
    (set_phase i (Firing <$> o) None g).
Proof.
  intros Hp. set (g' := set_phase i (Firing <$> o) None g).
  assert (forall w, in_hand w g -> in_hand w g') as Hhand.
  { intros w (j & x & Hj & Hw). destruct (decide (j = i)) as [->|Hne].
    - destruct Hj as [Hj|Hj]; [|congruence]. apply (in_hand_new w i x); [|done].
      right. rewrite Hp in Hj. by injection Hj as ->.
    - exists j, x. split; [|done]. unfold g'. by rewrite phase_ne. }
  assert (forall c w, slot_inv c sl log g -> ~ in_cell w sl) as Hcell.
  { intros c w Hi (x & Hx & _). apply (si_empty _ _ _ _ Hi) in Hp. congruence. }
  assert (forall c w k, slot_inv c sl log g -> armed_ok w k sl log g ->
    armed_ok w k (set_state (Z.ldiff (state (aw sl)) 2) sl) log g') as Hok.
  { intros c w k Hi [?|[[Hc _]|?]]; [by left|by eapply Hcell in Hc|right; right; by apply Hhand]. }
  split; try done; [by intros; apply phase_ne| | |].
  - intros c Hi. pose proof Hi as [Hst Hsd Hh He Hpk Ht].
    assert (holder g = Some i) as Hhold by (apply Hh; right; by eexists).
    destruct (held_state _ _ _ _ _ Hi Hhold) as [Hout Hs2]. split; try done.
    + simpl. rewrite Hs2. by destruct Hout as [->|(w & k & ->)]; left.
    + apply si_holder_set; [done|by destruct o; intros [?|[? ?]]| |by destruct o; intros [?|[? ?]]].
      intros _. by rewrite decide_True.
    + intros j p Hj. destruct (decide (j = i)) as [->|Hne]; [unfold g' in Hj; rewrite phase_eq in Hj; by destruct o|].
      unfold g' in Hj. rewrite phase_ne in Hj by done. by eapply He.
    + intros w k Hw. destruct (Hpk w k Hw). split; [done|by eapply Hok].
    + intros w k Hw Hc. destruct (Ht w k Hw Hc) as [?|[[j Hj]|[[Hc' _]|?]]]; [by left|right..].
      * left. apply (owes_keep i j); [done|]. intros ->. congruence.
      * by eapply Hcell in Hc'.
      * right. right. by apply Hhand.
  - intros c w k Hi _ _. by eapply Hok.
  - intros c w k Hi _ _ [?|[Hc|?]]; [by left|by eapply Hcell in Hc|right; right; by apply Hhand].
Qed.

(** Firing the waker in hand. *)
Lemma fire_waker i x sl log g :
  signallers g !! i = Some (Firing x) ->
  signal_step i sl log g sl (log ++ [x]) (set_phase i None (holder g) g).
Proof.
  intros Hp. set (g' := set_phase i None (holder g) g).
  assert (log `prefix_of` log ++ [x]) as Hpre by by eexists.
  assert (forall w k, k <= length log -> in_hand w g -> fired_since w k (log ++ [x]) \/ in_hand w g') as Hhand.
  { intros w k Hk (j & y & Hj & Hw). destruct (decide (j = i)) as [->|Hne].
    - left. apply fired_since_snoc; [done|]. destruct Hj as [Hj|Hj]; [congruence|]. congruence.
    - right. exists j, y. split; [|done]. unfold g'. by rewrite phase_ne. }
  assert (claimed g -> claimed g') as Hcl by (apply claimed_keep; congruence).
  assert (forall w k, k <= length log -> armed_ok w k sl log g -> armed_ok w k sl (log ++ [x]) g') as Hok.
  { intros w k Hk [?|[[? [?|?]]|Hh]].
    - left. by eapply fired_since_mono.
    - right. left. split; [done|by left].
    - right. left. split; [done|right; by apply Hcl].
    - destruct (Hhand w k Hk Hh); [by left|right; by right]. }
  split; try done; [by intros; apply phase_ne| | |].
  - intros c Hi. pose proof Hi as [Hst Hsd Hh He Hpk Ht]. split; try done.
    + apply si_holder_set; [done|by intros [?|[? ?]]| |by intros [?|[? ?]]].
      intros _. rewrite decide_False; [done|]. eapply not_holder; [done|]. rewrite Hp. by intros [?|[? ?]].
    + intros j p Hj. destruct (decide (j = i)) as [->|Hne]; [by unfold g' in Hj; rewrite phase_eq in Hj|].
      unfold g' in Hj. rewrite phase_ne in Hj by done. by eapply He.
    + intros w k Hw. destruct (Hpk w k Hw). split; [rewrite length_app; lia|by apply Hok].
    + intros w k Hw Hc. destruct (Hpk w k Hw) as [Hk _].
      destruct (Ht w k Hw Hc) as [?|[[j Hj]|[[? ?]|Hh']]].
      * left. by eapply fired_since_mono.
      * right. left. apply (owes_keep i j); [done|]. intros ->. congruence.
      * right. right. left. split; [done|by apply Hcl].
      * destruct (Hhand w k Hk Hh'); [by left|right; right; by right].
  - intros c w k _ _ Hk. by apply Hok.
  - intros c w k _ _ Hk [?|[?|Hh]]; [left; by eapply fired_since_mono|right; by left|].
    destruct (Hhand w k Hk Hh); [by left|right; by right].
Qed.

(** *** Waiter transitions *)
Definition set_waiter (p : WaiterPhase) (g : SlotGhost) : SlotGhost :=
  mkGhost p (signallers g) (holder g).

(** Entering and leaving [register]'s critical section, and what it does there. *)
Lemma lock_registering sl log g :
  state (aw sl) = 0%Z ->
  waiter_step sl log g (set_state 1 sl) log (set_waiter Registering g).
Proof.
  intros Hs. split; try done. intros c Hi. pose proof Hi as [Hst Hsd Hh He Hpk Ht].
  destruct (free_state _ _ _ _ Hi Hs) as [_ Hnone]. split; simpl; try done. auto.
Qed.

Lemma store_step sl sl' log g :
  state (aw sl') = state (aw sl) -> is_Some (cell (aw sl')) -> waiter g = Registering ->
  waiter_step sl log g sl' log (set_waiter Stored g).
Proof.
  intros Hs Hc Hw. split; try done. intros c Hi. pose proof Hi as [Hst Hsd Hh He Hpk Ht].
  rewrite Hw in Hst. split; simpl; try done; [by rewrite Hs|].
  intros i o Hj. assert (holder g = Some i); [|destruct Hst; congruence]. apply Hh. right. by eexists.
Qed.

Lemma unlock_registering sl log g :
  waiter g = Stored \/ waiter g = TookBack ->
  waiter_step sl log g (set_state 0 sl) log (set_waiter Idle g).
Proof.
  intros Hw. split; try done. intros c Hi. pose proof Hi as [Hst Hsd Hh He Hpk Ht].
  assert (holder g = None) by (destruct Hw as [Hw|Hw]; rewrite Hw in Hst; by destruct Hst).
  split; simpl; try done. by left.
Qed.

Lemma take_back sl log g :
  waiter g = Stored -> waiter_step sl log g (set_cell None sl) log (set_waiter TookBack g).
Proof.
  intros Hw. split; try done. intros c Hi. pose proof Hi as [Hst Hsd Hh He Hpk Ht].
  rewrite Hw in Hst. by split.
Qed.

Lemma waiter_fire w sl log g : waiter_step sl log g sl (log ++ [w]) g.
Proof.
  split; try done; [by eexists|]. intros c Hi. pose proof Hi as [Hst Hsd Hh He Hpk Ht].
  assert (log `prefix_of` log ++ [w]) as Hpre by by eexists.
  split; try done.
  - intros w' k Hw. destruct (Hpk w' k Hw) as [Hk [?|Hok]].
    + split; [rewrite length_app; lia|]. left. by eapply fired_since_mono.
    + split; [rewrite length_app; lia|]. by right.
  - intros w' k Hw Hc. destruct (Ht w' k Hw Hc); [left; by eapply fired_since_mono|by right].
Qed.

Lemma raise_flag b sl log g :
  waiter g = Idle -> waiter_step sl log g (set_armed b sl) log (set_waiter Idle g).
Proof.
  intros Hw. split; try done. intros c Hi. pose proof Hi as [Hst Hsd Hh He Hpk Ht].
  rewrite Hw in Hst. by split.
Qed.

(** Parking: the condition was seen not to hold after arming. *)
Lemma park c w k sl log g :
  slot_inv c sl log g -> outside (waiter g) -> ~ c -> k <= length log -> armed_ok w k sl log g ->
  slot_inv c sl log (set_waiter (Parked w k) g).
Proof.
  intros Hi Hout Hc Hk Hok. pose proof Hi as [Hst Hsd Hh He Hpk Ht]. split; simpl; try done.
  - by destruct Hout as [Hw|(?&?&Hw)]; rewrite Hw in Hst.
  - by intros w' k' [= <- <-].
Qed.

(** Leaving the parked state. *)
Lemma unpark c sl log g :
  slot_inv c sl log g -> outside (waiter g) -> slot_inv c sl log (set_waiter Idle g).
Proof.
  intros Hi Hout. pose proof Hi as [Hst Hsd Hh He Hpk Ht]. split; simpl; try done.
  by destruct Hout as [Hw|(?&?&Hw)]; rewrite Hw in Hst.
Qed.

(** Publishing: the condition may change; signaller [i] owes a look at the flag. *)
Lemma publish c c' i sl log g :
  slot_inv c sl log g -> undecided (signallers g !! i) ->
  slot_inv c' sl log (set_phase i (Some Owes) (holder g) g).
Proof.
  intros Hi Hu. pose proof (ss_inv _ _ _ _ _ _ _ (look_true i sl log g Hu) c Hi) as [Hst Hsd Hh He Hpk Ht].
  split; try done. intros w k Hw _. right. left. exists i. apply phase_eq.
Qed.

(** Lowering the condition needs nothing. *)
Lemma slot_inv_mono (c c' : Prop) sl log g : (c' -> c) -> slot_inv c sl log g -> slot_inv c' sl log g.
Proof. intros Hc []. split; eauto. Qed.

(** A waiter that is not parked has no claim on its condition. *)
Lemma slot_inv_idle (c c' : Prop) sl log g : waiter g = Idle -> slot_inv c sl log g -> slot_inv c' sl log g.
Proof. intros Hw []. split; try done. intros w k Hp. by rewrite Hw in Hp. Qed.

(** A step of signaller [i] outside [signal]: it leaves the slot alone, and the
    condition does not become true behind a parked waiter; or it publishes. *)
Definition changes (i : nat) (c c' : Prop) (g g' : SlotGhost) : Prop :=
  g' = g /\ (waiter g = Idle \/ (c' -> c)) \/
  g' = set_phase i (Some Owes) (holder g) g /\ undecided (signallers g !! i).

Lemma changes_inv i c c' sl log g g' : changes i c c' g g' -> slot_inv c sl log g -> slot_inv c' sl log g'.
Proof.
  intros [[-> [Hw|Hc]]|[-> Hu]] Hi; [by eapply slot_inv_idle|by eapply slot_inv_mono|by eapply publish].
Qed.

Lemma changes_others i j c c' g g' : changes i c c' g g' -> j <> i -> signallers g' !! j = signallers g !! j.
Proof. intros [[-> _]|[-> _]] Hj; [done|by apply phase_ne]. Qed.

Lemma changes_waiter i c c' g g' : changes i c c' g g' -> waiter g' = waiter g.
Proof. by intros [[-> _]|[-> _]]. Qed.

(** Once every signaller is done, a parked waiter whose condition holds has been
    woken since it armed. *)
Lemma parked_told c sl log g w k :
  slot_inv c sl log g -> signallers g = ∅ -> waiter g = Parked w k -> c -> fired_since w k log.
Proof.
  intros Hi Hs Hw Hc. destruct (si_told _ _ _ _ Hi w k Hw Hc) as [?|Hh]; [done|].
  unfold helped, in_hand, claimed in Hh. rewrite Hs in Hh.
  destruct Hh as [[? Hj]|[[_ [? [Hj|Hj]]]|(?&?&[Hj|Hj]&_)]]; by rewrite lookup_empty in Hj.
Qed.

(** ** Specifications

    A slot inside a larger shared state: [same] relates states that differ only
    in this slot, its auxiliary state and the log, and the awaited condition [c]
    does not depend on those. *)
Record SlotIn {S Gh : Type} (r : SlotRef S) (gget : Gh -> SlotGhost) (gput : SlotGhost -> Gh -> Gh)
    (same : relation (S * Gh)) (c : S * Gh -> Prop) : Prop := {
  si_get_put sl s : get_slot _ r (put_slot _ r sl s) = sl;
  si_put_get s : put_slot _ r (get_slot _ r s) s = s;
  si_log_put sl s : get_log _ r (put_slot _ r sl s) = get_log _ r s;
  si_get_log l s : get_slot _ r (put_log _ r l s) = get_slot _ r s;
  si_log_log l s : get_log _ r (put_log _ r l s) = l;
  si_ghost g x : gget (gput g x) = g;
  si_same_slot s g sl g' : same (s, g) (put_slot _ r sl s, gput g' g);
  si_same_log s g l g' : same (s, g) (put_log _ r l s, gput g' g);
  si_same_ghost s g g' : same (s, g) (s, gput g' g);
  si_same_refl x : same x x;
  si_same_c x x' : same x x' -> (c x' <-> c x)
}.

Section specs.
Context {S Gh : Type} (r : SlotRef S) (gget : Gh -> SlotGhost) (gput : SlotGhost -> Gh -> Gh).
Context (same : relation (S * Gh)) (c : S * Gh -> Prop) (Hin : SlotIn r gget gput same c).

Definition islot (x : S * Gh) : Prop :=
  slot_inv (c x) (get_slot _ r x.1) (get_log _ r x.1) (gget x.2).

(** A step of signaller [i], or of the waiter, on this slot alone. *)
Definition signaller_move (i : nat) (x x' : S * Gh) : Prop :=
  same x x' /\ signal_step i (get_slot _ r x.1) (get_log _ r x.1) (gget x.2)
    (get_slot _ r x'.1) (get_log _ r x'.1) (gget x'.2).
Definition waiter_move (x x' : S * Gh) : Prop :=
  same x x' /\ waiter_step (get_slot _ r x.1) (get_log _ r x.1) (gget x.2)
    (get_slot _ r x'.1) (get_log _ r x'.1) (gget x'.2).

Lemma signaller_move_inv i x x' : signaller_move i x x' -> islot x -> islot x'.
Proof.
  intros [Hs Hst] Hi. eapply (slot_inv_mono (c x)); [apply (si_same_c _ _ _ _ _ Hin _ _ Hs)|].
  by eapply (ss_inv _ _ _ _ _ _ _ Hst).
Qed.

Lemma waiter_move_inv x x' : waiter_move x x' -> islot x -> islot x'.
Proof.
  intros [Hs Hst] Hi. eapply (slot_inv_mono (c x)); [apply (si_same_c _ _ _ _ _ Hin _ _ Hs)|].
  by eapply (ws_inv _ _ _ _ _ _ Hst).
Qed.

(** Forget how a state was reached. *)
Ltac forget_state Ha :=
  match type of Ha with ?A ?y => let z := fresh in generalize dependent y; intros z Ha end.

(** Signaller [i]: the environment keeps its phase and the invariant; [P] is the
    client's own assertion. *)
Section signaller.
Context (i : nat) (R G : relation (S * Gh)) (P : S * Gh -> Prop).
Hypothesis HR : forall x x', R x x' -> islot x -> P x ->
  islot x' /\ P x' /\ signallers (gget x'.2) !! i = signallers (gget x.2) !! i.
Hypothesis HG : forall x x', signaller_move i x x' -> islot x -> P x -> G x x'.
Hypothesis HP : forall x x', signaller_move i x x' -> islot x -> P x -> P x'.

Definition at_phase (o : option SignalPhase) (x : S * Gh) : Prop :=
  islot x /\ P x /\ signallers (gget x.2) !! i = o.

Lemma at_phase_stable o : stable R (at_phase o).
Proof.
  intros x x' (Hi & Hp & Ho) Hr. destruct (HR x x' Hr Hi Hp) as (? & ? & Heq).
  split_and!; [done|done|by rewrite Heq].
Qed.

(** Any step that follows the protocol, changing the slot or the log. *)
Lemma at_phase_move o o' x x' :
  at_phase o x -> signaller_move i x x' -> signallers (gget x'.2) !! i = o' ->
  G x x' /\ at_phase o' x'.
Proof.
  intros (Hi & Hp & _) Hm Ho. split; [by apply HG|].
  split_and!; [by eapply signaller_move_inv|by eapply HP|done].
Qed.

Lemma slot_move s g sl o h :
  signal_step i (get_slot _ r s) (get_log _ r s) (gget g) sl (get_log _ r s) (set_phase i o h (gget g)) ->
  signaller_move i (s, g) (put_slot _ r sl s, gput (set_phase i o h (gget g)) g).
Proof.
  intros Hs. split; [apply (si_same_slot _ _ _ _ _ Hin)|]. simpl.
  by rewrite (si_get_put _ _ _ _ _ Hin), (si_log_put _ _ _ _ _ Hin), (si_ghost _ _ _ _ _ Hin).
Qed.

Lemma phase_put (s : S) g o h : signallers (gget (s, gput (set_phase i o h (gget g)) g).2) !! i = o.
Proof. simpl. rewrite (si_ghost _ _ _ _ _ Hin). apply phase_eq. Qed.

Lemma wp_fire_in_hand w Q x :
  at_phase (Some (Firing w)) x -> (forall x', at_phase None x' -> Q tt x') -> wp R G (fire r w) Q x.
Proof.
  intros Hx HQ. eapply wp_act; [apply at_phase_stable|exact Hx|].
  intros s g Ha. eexists _, tt, (gput (set_phase i None (holder (gget g)) (gget g)) g). split; [done|].
  pose proof Ha as (_ & _ & Hph).
  destruct (at_phase_move (Some (Firing w)) None (s, g) (put_log _ r (get_log _ r s ++ [w]) s,
    gput (set_phase i None (holder (gget g)) (gget g)) g) Ha) as [Hg Ha'].
  - split; [apply (si_same_log _ _ _ _ _ Hin)|]. simpl.
    rewrite (si_get_log _ _ _ _ _ Hin), (si_log_log _ _ _ _ _ Hin), (si_ghost _ _ _ _ _ Hin).
    by apply fire_waker.
  - apply phase_put.
  - split; [done|]. eapply wp_ret; [apply (at_phase_stable None)|done|done].
Qed.

Lemma wp_wake Q x :
  at_phase (Some Claimed) x -> (forall x', at_phase None x' -> Q tt x') -> wp R G (wake r) Q x.
Proof.
  intros Hx HQ. eapply wp_act; [apply at_phase_stable|exact Hx|]. intros s g Ha.
  pose proof Ha as (_ & _ & Hph). simpl in Hph.
  destruct (state (aw (get_slot _ r s)) =? 0)%Z eqn:Hst; bool_props.
  - eexists _, _, (gput (set_phase i (Some Taking) (Some i) (gget g)) g). split; [done|].
    unfold on_slot, WAKING. rewrite Hst. change (Z.lor 0 2) with 2%Z.
    destruct (at_phase_move _ (Some Taking) _ _ Ha (slot_move s g _ _ _
      (lock_waking i _ (get_log _ r s) _ Hst Hph)) (phase_put _ _ _ _)) as [Hg1 Ha1]. split; [exact Hg1|].
    change (0 =? WAITING)%Z with true. cbn iota. clear Ha Hg1 Hph Hst. forget_state Ha1. clear s g.
    eapply wp_act; [apply at_phase_stable|exact Ha1|]. intros s g Ha. pose proof Ha as (_ & _ & Hph). simpl in Hph.
    eexists _, _, (gput (set_phase i (Some (Holding (cell (aw (get_slot _ r s))))) (holder (gget g)) (gget g)) g).
    split; [done|]. unfold on_slot.
    destruct (at_phase_move _ _ _ _ Ha (slot_move s g _ _ _ (take_waker i _ (get_log _ r s) _ Hph))
      (phase_put _ _ _ _)) as [Hg2 Ha2]. split; [exact Hg2|].
    generalize dependent (cell (aw (get_slot _ r s))). intros o Hg2 Ha2. clear Ha Hg2 Hph Ha1. forget_state Ha2. clear s g.
    eapply wp_act; [apply at_phase_stable|exact Ha2|]. intros s g Ha. pose proof Ha as (_ & _ & Hph). simpl in Hph.
    eexists _, _, (gput (set_phase i (Firing <$> o) None (gget g)) g). split; [done|].
    destruct (at_phase_move _ _ _ _ Ha (slot_move s g _ _ _ (unlock_waking i o _ (get_log _ r s) _ Hph))
      (phase_put _ _ _ _)) as [Hg3 Ha3]. split; [exact Hg3|].
    destruct o as [w|]; simpl in Ha3.
    + by apply wp_fire_in_hand.
    + eapply wp_ret; [apply (at_phase_stable None)|done|done].
  - eexists _, _, (gput (set_phase i None (holder (gget g)) (gget g)) g). split; [done|].
    destruct (at_phase_move _ None _ _ Ha (slot_move s g _ _ _
      (miss_waking i _ (get_log _ r s) _ Hst Hph)) (phase_put _ _ _ _)) as [Hg1 Ha1]. split; [exact Hg1|].
    unfold WAITING. rewrite (proj2 (Z.eqb_neq _ _) Hst).
    eapply wp_ret; [apply (at_phase_stable None)|done|done].
Qed.

(** [signal]: afterwards this signaller owes nothing. *)
Lemma wp_signal Q x :
  islot x -> P x -> undecided (signallers (gget x.2) !! i) ->
  (forall x', at_phase None x' -> Q tt x') -> wp R G (signal r) Q x.
Proof.
  intros Hi Hp Hu HQ.
  eapply (wp_act _ _ _ _ (fun x => islot x /\ P x /\ undecided (signallers (gget x.2) !! i))); [|done|].
  { intros y y' (? & ? & Hu') Hr. destruct (HR y y' Hr) as (? & ? & Heq); [done..|]. rewrite Heq. done. }
  intros s g (Hi' & Hp' & Hu'). simpl in Hu'. exists s, (armed (get_slot _ r s)).
  destruct (armed (get_slot _ r s)) eqn:Ha.
  - exists (gput (set_phase i (Some Owes) (holder (gget g)) (gget g)) g). split; [done|].
    destruct (at_phase_move _ (Some Owes) (s, g) (s, gput (set_phase i (Some Owes) (holder (gget g)) (gget g)) g)
      (conj Hi' (conj Hp' eq_refl))) as [Hg Ha1]; [|apply phase_put|].
    { split; [apply (si_same_ghost _ _ _ _ _ Hin)|]. simpl. rewrite (si_ghost _ _ _ _ _ Hin). by apply look_true. }
    split; [exact Hg|]. clear Hg Ha Hi' Hp' Hu'. forget_state Ha1. clear s g.
    eapply wp_act; [apply at_phase_stable|exact Ha1|]. clear Ha1. intros s g Ha1. pose proof Ha1 as (_ & _ & Hph). simpl in Hph.
    exists (on_slot r (set_armed false) s), (armed (get_slot _ r s)). destruct (armed (get_slot _ r s)) eqn:Ha.
    + exists (gput (set_phase i (Some Claimed) (holder (gget g)) (gget g)) g). split; [done|].
      destruct (at_phase_move _ _ _ _ Ha1 (slot_move s g _ _ _ (claim i _ (get_log _ r s) _ Hph))
        (phase_put _ _ _ _)) as [Hg Ha2]. split; [exact Hg|]. by apply wp_wake.
    + exists (gput (set_phase i None (holder (gget g)) (gget g)) g). split; [done|].
      assert (set_armed false (get_slot _ r s) = get_slot _ r s) as Hsame
        by (destruct (get_slot _ r s); simpl in *; by subst).
      pose proof (look_false i (get_slot _ r s) (get_log _ r s) (gget g) Ha (or_intror Hph)) as Hlf.
      rewrite <-Hsame in Hlf at 2.
      destruct (at_phase_move _ _ _ _ Ha1 (slot_move s g _ _ _ Hlf) (phase_put _ _ _ _)) as [Hg Ha2].
      split; [exact Hg|]. eapply wp_ret; [apply (at_phase_stable None)|done|done].
  - exists (gput (set_phase i None (holder (gget g)) (gget g)) g). split; [done|].
    destruct (at_phase_move _ None (s, g) (s, gput (set_phase i None (holder (gget g)) (gget g)) g)
      (conj Hi' (conj Hp' eq_refl))) as [Hg Ha1]; [|apply phase_put|].
    { split; [apply (si_same_ghost _ _ _ _ _ Hin)|]. simpl. rewrite (si_ghost _ _ _ _ _ Hin). by apply look_false. }
    split; [exact Hg|]. eapply wp_ret; [apply (at_phase_stable None)|done|done].
Qed.
End signaller.

(** What the waiter sees of a step of its environment. *)
Record waiter_env (x x' : S * Gh) : Prop := {
  we_waiter : waiter (gget x'.2) = waiter (gget x.2);
  we_log : get_log _ r x.1 `prefix_of` get_log _ r x'.1;
  we_ok w k : outside (waiter (gget x.2)) -> k <= length (get_log _ r x.1) ->
    armed_ok w k (get_slot _ r x.1) (get_log _ r x.1) (gget x.2) ->
    armed_ok w k (get_slot _ r x'.1) (get_log _ r x'.1) (gget x'.2);
  we_covered w k : outside (waiter (gget x.2)) -> k <= length (get_log _ r x.1) ->
    covered w k (get_slot _ r x.1) (get_log _ r x.1) (gget x.2) ->
    covered w k (get_slot _ r x'.1) (get_log _ r x'.1) (gget x'.2);
  we_cell : ~ outside (waiter (gget x.2)) ->
    cell (aw (get_slot _ r x'.1)) = cell (aw (get_slot _ r x.1))
}.

Lemma signaller_move_env i x x' : signaller_move i x x' -> islot x -> waiter_env x x'.
Proof.
  intros [_ Hst] Hi. split.
  - apply Hst.
  - apply Hst.
  - intros w k. by eapply (ss_ok _ _ _ _ _ _ _ Hst).
  - intros w k. by eapply (ss_covered _ _ _ _ _ _ _ Hst).
  - by eapply (ss_cell _ _ _ _ _ _ _ Hst).
Qed.

(** A step that leaves the slot alone, or publishes. *)
Lemma still_env x x' :
  get_slot _ r x'.1 = get_slot _ r x.1 -> get_log _ r x'.1 = get_log _ r x.1 ->
  gget x'.2 = gget x.2 -> waiter_env x x'.
Proof. intros Hs Hl Hg. split; rewrite ?Hs, ?Hl, ?Hg; done. Qed.

Lemma publish_env i x x' :
  get_slot _ r x'.1 = get_slot _ r x.1 -> get_log _ r x'.1 = get_log _ r x.1 ->
  undecided (signallers (gget x.2) !! i) ->
  gget x'.2 = set_phase i (Some Owes) (holder (gget x.2)) (gget x.2) -> waiter_env x x'.
Proof.
  intros Hs Hl Hu Hg. destruct (undecided_not _ Hu) as [Hp _].
  assert (forall w, in_hand w (gget x.2) -> in_hand w (gget x'.2)) as Hhand.
  { intros w. rewrite Hg. apply in_hand_keep. intros y. split; intros Hq; by specialize (Hp _ Hq). }
  assert (claimed (gget x.2) -> claimed (gget x'.2)) as Hcl.
  { rewrite Hg. apply claimed_keep; intros Hq; by specialize (Hp _ Hq). }
  split; rewrite ?Hs, ?Hl; try done; [by rewrite Hg|..].
  - intros w k _ _ [?|[[? [?|?]]|?]]; [by left|right; left; by split; [|left]
      |right; left; split; [done|right; by apply Hcl]|right; right; by apply Hhand].
  - intros w k _ _ [?|[?|?]]; [by left|right; by left|right; right; by apply Hhand].
Qed.

Lemma changes_env i c1 c2 x x' :
  get_slot _ r x'.1 = get_slot _ r x.1 -> get_log _ r x'.1 = get_log _ r x.1 ->
  changes i c1 c2 (gget x.2) (gget x'.2) -> waiter_env x x'.
Proof. intros Hs Hl [[Hg _]|[Hg Hu]]; [by apply still_env|by eapply publish_env]. Qed.

Lemma parking_env x x' :
  waiter_env x x' -> forall w k, outside (waiter (gget x.2)) -> k <= length (get_log _ r x.1) ->
  armed_ok w k (get_slot _ r x.1) (get_log _ r x.1) (gget x.2) ->
  armed_ok w k (get_slot _ r x'.1) (get_log _ r x'.1) (gget x'.2) /\ k <= length (get_log _ r x'.1).
Proof.
  intros He w k Hout Hk Hok. split; [by apply (we_ok _ _ He)|].
  etrans; [exact Hk|]. apply prefix_length, He.
Qed.

(** The waiter: the environment keeps its phase and the invariant. *)
Section waiter.
Context (R G : relation (S * Gh)) (P : S * Gh -> Prop).
Hypothesis HR : forall x x', R x x' -> islot x -> P x -> islot x' /\ P x' /\ waiter_env x x'.
Hypothesis HG : forall x x', waiter_move x x' -> islot x -> P x -> G x x'.
Hypothesis HP : forall x x', waiter_move x x' -> islot x -> P x -> P x'.

(** The waiter is in phase [p], and [k] wakers had been fired when it started. *)
Definition at_wait (k : nat) (p : WaiterPhase) (x : S * Gh) : Prop :=
  islot x /\ P x /\ waiter (gget x.2) = p /\ k <= length (get_log _ r x.1).

Definition at_stored (k : nat) (w : waker) (x : S * Gh) : Prop :=
  at_wait k Stored x /\ in_cell w (get_slot _ r x.1).
Definition at_took (k : nat) (x : S * Gh) : Prop := at_wait k TookBack x.
Definition at_covered (k : nat) (w : waker) (x : S * Gh) : Prop :=
  at_wait k Idle x /\ covered w k (get_slot _ r x.1) (get_log _ r x.1) (gget x.2).
Definition at_armed (k : nat) (w : waker) (x : S * Gh) : Prop :=
  at_wait k Idle x /\ armed_ok w k (get_slot _ r x.1) (get_log _ r x.1) (gget x.2).

Lemma at_wait_stable k p : stable R (at_wait k p).
Proof.
  intros x x' (Hi & Hp & Hw & Hk) Hr. destruct (HR x x' Hr Hi Hp) as (? & ? & He).
  split_and!; [done|done|by rewrite (we_waiter _ _ He)|].
  etrans; [exact Hk|]. apply prefix_length, He.
Qed.

Lemma at_stored_stable k w : stable R (at_stored k w).
Proof.
  intros x x' [Ha (y & Hy & Hw)] Hr. split; [by eapply at_wait_stable|].
  destruct Ha as (Hi & Hp & Hph & Hk). destruct (HR x x' Hr Hi Hp) as (_ & _ & He).
  exists y. split; [|done]. rewrite (we_cell _ _ He); [done|]. rewrite Hph. by intros [?|(?&?&?)].
Qed.

Lemma at_covered_stable k w : stable R (at_covered k w).
Proof.
  intros x x' [Ha Hc] Hr. split; [by eapply at_wait_stable|].
  destruct Ha as (Hi & Hp & Hph & Hk). destruct (HR x x' Hr Hi Hp) as (_ & _ & He).
  apply (we_covered _ _ He); [by left|done|done].
Qed.

Lemma at_armed_stable k w : stable R (at_armed k w).
Proof.
  intros x x' [Ha Hc] Hr. split; [by eapply at_wait_stable|].
  destruct Ha as (Hi & Hp & Hph & Hk). destruct (HR x x' Hr Hi Hp) as (_ & _ & He).
  apply (we_ok _ _ He); [by left|done|done].
Qed.

Lemma at_wait_move k p p' x x' :
  at_wait k p x -> waiter_move x x' -> waiter (gget x'.2) = p' -> G x x' /\ at_wait k p' x'.
Proof.
  intros (Hi & Hp & _ & Hk) Hm Ho. split; [by apply HG|].
  split_and!; [by eapply waiter_move_inv|by eapply HP|done|].
  etrans; [exact Hk|]. apply prefix_length, Hm.
Qed.

Lemma at_wait_still k p x : at_wait k p x -> G x x.
Proof.
  intros Ha. eapply (at_wait_move k p (waiter (gget x.2))); [done| |done].
  split; [apply (si_same_refl _ _ _ _ _ Hin)|by split].
Qed.

Lemma wslot_move s g sl p :
  waiter_step (get_slot _ r s) (get_log _ r s) (gget g) sl (get_log _ r s) (set_waiter p (gget g)) ->
  waiter_move (s, g) (put_slot _ r sl s, gput (set_waiter p (gget g)) g).
Proof.
  intros Hs. split; [apply (si_same_slot _ _ _ _ _ Hin)|]. simpl.
  by rewrite (si_get_put _ _ _ _ _ Hin), (si_log_put _ _ _ _ _ Hin), (si_ghost _ _ _ _ _ Hin).
Qed.

Lemma wphase_put (s : S) g p : waiter (gget (s, gput (set_waiter p (gget g)) g).2) = p.
Proof. simpl. by rewrite (si_ghost _ _ _ _ _ Hin). Qed.

(** Firing a waker that wakes [w]. *)
Lemma wp_fire_waiter k w y Q x :
  at_wait k Idle x -> wakes y w -> (forall x', at_covered k w x' -> Q tt x') -> wp R G (fire r y) Q x.
Proof.
  intros Hx Hyw HQ. eapply wp_act; [apply at_wait_stable|exact Hx|]. intros s g Ha.
  eexists _, tt, (gput (gget g) g). split; [done|]. pose proof Ha as (_ & _ & Hph & Hk). simpl in Hph, Hk.
  destruct (at_wait_move k _ Idle (s, g) (put_log _ r (get_log _ r s ++ [y]) s, gput (gget g) g) Ha) as [Hg Ha'].
  - split; [apply (si_same_log _ _ _ _ _ Hin)|]. simpl.
    rewrite (si_get_log _ _ _ _ _ Hin), (si_log_log _ _ _ _ _ Hin), (si_ghost _ _ _ _ _ Hin).
    apply waiter_fire.
  - simpl. by rewrite (si_ghost _ _ _ _ _ Hin).
  - split; [exact Hg|]. eapply wp_ret; [apply (at_covered_stable k w)| |done]. split; [done|].
    left. simpl. rewrite (si_log_log _ _ _ _ _ Hin). by apply fired_since_snoc.
Qed.

(** The end of [register]'s critical section. *)
Lemma wp_finish_register k w Q x :
  at_stored k w x -> (forall x', at_covered k w x' -> Q tt x') ->
  wp R G ('(ok, actual) ← compare_exchange r REGISTERING WAITING;
    if (ok : bool) then Ret tt
    else
      _ ← check (debug_assert (actual =? Z.lor REGISTERING WAKING)%Z "assertion failed: actual == REGISTERING | WAKING");
      o ← take_cell r;
      match o with
      | None => check (Panicked "called `Option::unwrap()` on a `None` value")
      | Some wk => _ ← store (on_slot r (set_state WAITING)); fire r wk
      end) Q x.
Proof.
  intros Hx HQ. eapply wp_act; [apply at_stored_stable|exact Hx|]. intros s g Ha.
  pose proof Ha as [Haw (y & Hy & Hyw)]. pose proof Haw as (Hi & _ & Hph & _). simpl in Hy, Hph.
  pose proof (si_state _ _ _ _ Hi) as Hst. simpl in Hst. rewrite Hph in Hst. destruct Hst as [[Hst|Hst] _].
  - eexists _, _, (gput (set_waiter Idle (gget g)) g). rewrite Hst. split; [done|]. unfold on_slot, WAITING.
    destruct (at_wait_move k _ Idle _ _ Haw (wslot_move s g _ _
      (unlock_registering _ (get_log _ r s) _ (or_introl Hph))) (wphase_put _ _ _)) as [Hg Ha'].
    split; [exact Hg|]. eapply wp_ret; [apply (at_covered_stable k w)| |done]. split; [done|].
    right. left. exists y. simpl. rewrite (si_get_put _ _ _ _ _ Hin). done.
  - exists s, (false, 3%Z), g. rewrite Hst. split; [done|]. split; [by eapply at_wait_still|].
    clear Hst Haw Hy Hyw y Hi Hph. forget_state Ha. clear s g.
    eapply wp_act; [apply at_stored_stable|exact Ha|]. clear Ha. intros s g Ha.
    exists s, tt, g. split; [unfold debug_assert; by destruct overflow_checks|].
    split; [eapply at_wait_still; by destruct Ha|]. forget_state Ha. clear s g.
    eapply wp_act; [apply at_stored_stable|exact Ha|]. clear Ha. intros s g Ha.
    pose proof Ha as [Haw (y & Hy & Hyw)]. pose proof Haw as (Hi & _ & Hph & _). simpl in Hy, Hph.
    eexists _, (Some y), (gput (set_waiter TookBack (gget g)) g). rewrite Hy. split; [done|]. unfold on_slot.
    destruct (at_wait_move k _ TookBack _ _ Haw (wslot_move s g _ _ (take_back _ (get_log _ r s) _ Hph))
      (wphase_put _ _ _)) as [Hg Ha'].
    split; [exact Hg|]. clear Hg Hy Haw Hi Hph Ha. forget_state Ha'. clear s g.
    eapply wp_act; [apply (at_wait_stable k TookBack)|exact Ha'|]. clear Ha'. intros s g Ha.
    pose proof Ha as (_ & _ & Hph & _). simpl in Hph.
    eexists _, tt, (gput (set_waiter Idle (gget g)) g). split; [done|]. unfold on_slot, WAITING.
    destruct (at_wait_move k _ Idle _ _ Ha (wslot_move s g _ _
      (unlock_registering _ (get_log _ r s) _ (or_intror Hph))) (wphase_put _ _ _)) as [Hg Ha'].
    split; [exact Hg|]. by apply (wp_fire_waiter k w).
Qed.

(** [register]: afterwards the waker is stored, in hand or fired. *)
Lemma wp_register k w Q x :
  islot x -> P x -> outside (waiter (gget x.2)) -> k <= length (get_log _ r x.1) ->
  (forall x', at_covered k w x' -> Q tt x') -> wp R G (register r w) Q x.
Proof.
  intros Hi Hp Hout Hk HQ.
  eapply wp_act; [apply (at_wait_stable k (waiter (gget x.2)))|by split_and!|]. intros s g Ha.
  pose proof Ha as (Hi' & _ & Hph & _). simpl in Hph. rewrite <-Hph in Hout.
  destruct (state (aw (get_slot _ r s)) =? 0)%Z eqn:Hst.
  - eexists _, (true, 0%Z), (gput (set_waiter Registering (gget g)) g). unfold WAITING. rewrite Hst.
    bool_props. rewrite Hst. split; [done|]. unfold on_slot, REGISTERING.
    destruct (at_wait_move k _ Registering _ _ Ha (wslot_move s g _ _
      (lock_registering _ (get_log _ r s) _ Hst)) (wphase_put _ _ _)) as [Hg Ha'].
    split; [exact Hg|]. change (0 =? 0)%Z with true. cbn iota.
    clear Hg Hst Ha Hi' Hph Hout. forget_state Ha'. clear s g.
    eapply wp_act; [apply (at_wait_stable k Registering)|exact Ha'|]. clear Ha'. intros s g Ha.
    pose proof Ha as (_ & _ & Hph & _). simpl in Hph.
    assert (exists sl y, (match cell (aw (get_slot _ r s)) with
        | Some w0 => if will_wake w0 w then s else on_slot r (set_cell (Some w)) s
        | None => on_slot r (set_cell (Some w)) s end) = put_slot _ r sl s /\
        state (aw sl) = state (aw (get_slot _ r s)) /\ cell (aw sl) = Some y /\ wakes y w)
      as (sl & y & Hput & Hsl & Hc & Hy).
    { destruct (cell (aw (get_slot _ r s))) as [w0|] eqn:Hcell.
      - destruct (will_wake w0 w) eqn:Hww.
        + exists (get_slot _ r s), w0. rewrite (si_put_get _ _ _ _ _ Hin). split_and!; try done. by right.
        + by exists (set_cell (Some w) (get_slot _ r s)), w; split_and!; [..|left].
      - by exists (set_cell (Some w) (get_slot _ r s)), w; split_and!; [..|left]. }
    eexists _, tt, (gput (set_waiter Stored (gget g)) g). rewrite Hput. split; [done|].
    destruct (at_wait_move k _ Stored _ _ Ha (wslot_move s g sl _
      (store_step _ sl (get_log _ r s) _ Hsl (mk_is_Some _ _ Hc) Hph)) (wphase_put _ _ _)) as [Hg Ha'].
    split; [exact Hg|]. apply (wp_finish_register k w); [|done]. split; [done|].
    exists y. simpl. by rewrite (si_get_put _ _ _ _ _ Hin).
  - exists s, (false, state (aw (get_slot _ r s))), (gput (set_waiter Idle (gget g)) g).
    unfold WAITING. rewrite Hst. split; [done|].
    destruct (at_wait_move k _ Idle (s, g) (s, gput (set_waiter Idle (gget g)) g) Ha) as [Hg Ha'];
      [|apply wphase_put|].
    { split; [apply (si_same_ghost _ _ _ _ _ Hin)|]. simpl. rewrite (si_ghost _ _ _ _ _ Hin).
      split; try done. intros c' Hc'. by apply unpark. }
    split; [exact Hg|]. apply (wp_fire_waiter k w); [done|by left|done].
Qed.

(** [arm]: afterwards the waiter may look at its condition and park. *)
Lemma wp_arm k w Q x :
  islot x -> P x -> outside (waiter (gget x.2)) -> k <= length (get_log _ r x.1) ->
  (forall x', at_armed k w x' -> Q tt x') -> wp R G (arm r w) Q x.
Proof.
  intros Hi Hp Hout Hk HQ. apply wp_bind. apply (wp_register k w); try done. clear x Hi Hp Hout Hk. intros x Hx.
  eapply wp_act; [apply (at_covered_stable k w)|exact Hx|]. intros s g [Ha Hcov].
  pose proof Ha as (_ & _ & Hph & _). simpl in Hph.
  eexists _, tt, (gput (set_waiter Idle (gget g)) g). split; [done|]. unfold on_slot.
  pose proof (raise_flag true (get_slot _ r s) (get_log _ r s) (gget g) Hph) as Hrf.
  destruct (at_wait_move k _ Idle _ _ Ha (wslot_move s g _ _ Hrf) (wphase_put _ _ _)) as [Hg Ha'].
  split; [exact Hg|]. eapply wp_ret; [apply (at_armed_stable k w)| |done]. split; [done|].
  simpl. rewrite (si_get_put _ _ _ _ _ Hin), (si_log_put _ _ _ _ _ Hin), (si_ghost _ _ _ _ _ Hin).
  destruct Hcov as [?|[?|?]]; [by left|right; left; by split; [|left]|right; by right].
Qed.

(** [disarm], by a waiter that is not parking. *)
Lemma wp_disarm k Q x :
  at_wait k Idle x -> (forall x', at_wait k Idle x' -> Q tt x') -> wp R G (disarm r) Q x.
Proof.
  intros Hx HQ. eapply wp_act; [apply at_wait_stable|exact Hx|]. intros s g Ha.
  pose proof Ha as (_ & _ & Hph & _). simpl in Hph.
  eexists _, tt, (gput (set_waiter Idle (gget g)) g). split; [done|]. unfold on_slot.
  pose proof (raise_flag false (get_slot _ r s) (get_log _ r s) (gget g) Hph) as Hrf.
  destruct (at_wait_move k _ Idle _ _ Ha (wslot_move s g _ _ Hrf) (wphase_put _ _ _)) as [Hg Ha'].
  split; [exact Hg|]. eapply wp_ret; [apply (at_wait_stable k Idle)|done|done].
Qed.
End waiter.

(** *** What a waiter knows between its operations

    [k] wakers had been fired through the slot when the current poll started. *)
Inductive Waiting : Type :=
| Out (k : nat)
| Armed (w : waker) (k : nat)
| Resting (w : waker) (k : nat).

Definition waiting (st : Waiting) (x : S * Gh) : Prop :=
  match st with
  | Out k => outside (waiter (gget x.2)) /\ k <= length (get_log _ r x.1)
  | Armed w k => waiter (gget x.2) = Idle /\ k <= length (get_log _ r x.1) /\
      armed_ok w k (get_slot _ r x.1) (get_log _ r x.1) (gget x.2)
  | Resting w k => waiter (gget x.2) = Parked w k
  end.

(** After finding its condition not to hold, an armed waiter rests. *)
Definition rest (st : Waiting) : Waiting :=
  match st with Armed w k => Resting w k | Out k | Resting _ k => Out k end.
Definition rest_ghost (st : Waiting) (g : Gh) : Gh :=
  match st with Armed w k => gput (set_waiter (Parked w k) (gget g)) g | _ => g end.

Lemma waiting_env st x x' : waiting st x -> waiter_env x x' -> waiting st x'.
Proof.
  intros Hw He. pose proof (we_waiter _ _ He) as Hwt. pose proof (prefix_length _ _ (we_log _ _ He)) as Hlen.
  destruct st as [k|w k|w k]; cbn [waiting] in *; rewrite Hwt; [destruct Hw; split; [done|lia]| |done].
  destruct Hw as (Hi & Hk & Hok). destruct (parking_env x x' He w k) as [Hok' Hk']; [by left|done|done|done].
Qed.

Lemma waiting_same st x x' :
  waiting st x -> get_slot _ r x'.1 = get_slot _ r x.1 -> get_log _ r x'.1 = get_log _ r x.1 ->
  gget x'.2 = gget x.2 -> waiting st x'.
Proof. intros Hw Hs Hl Hg. destruct st; cbn [waiting] in *; rewrite ?Hs, ?Hl, ?Hg; done. Qed.

Lemma waiting_out st k x : islot x -> waiting st x -> k <= length (get_log _ r x.1) -> waiting (Out k) x.
Proof.
  intros Hi Hw Hk. split; [|done]. destruct st as [k0|w k0|w k0]; cbn [waiting] in Hw.
  - apply Hw.
  - left. apply Hw.
  - right. by eexists _, _.
Qed.

(** An armed waiter that sees its condition not to hold parks. *)
Lemma waiting_park w k s g :
  islot (s, g) -> waiting (Armed w k) (s, g) -> ~ c (s, gput (set_waiter (Parked w k) (gget g)) g) ->
  islot (s, gput (set_waiter (Parked w k) (gget g)) g) /\
  waiting (Resting w k) (s, gput (set_waiter (Parked w k) (gget g)) g).
Proof.
  intros Hi (Hid & Hk & Hok) Hc. unfold islot, waiting in *. cbn [fst snd] in *. rewrite (si_ghost _ _ _ _ _ Hin).
  split; [|done]. apply park; try done; [|by left].
  eapply slot_inv_mono; [|exact Hi]. tauto.
Qed.

Lemma waiting_rest st s g :
  islot (s, g) -> waiting st (s, g) -> (forall g', ~ c (s, gput g' g)) ->
  (islot (s, rest_ghost st g) /\ waiting (rest st) (s, rest_ghost st g)) /\
  (rest_ghost st g = g \/ exists p, rest_ghost st g = gput (set_waiter p (gget g)) g).
Proof.
  intros Hi Hw Hc. destruct st as [k|w k|w k]; cbn [rest rest_ghost].
  - split; [done|by left].
  - split; [by apply waiting_park|]. right. by eexists.
  - split; [|by left]. split; [done|]. eapply waiting_out; [done|exact Hw|]. by apply (si_parked _ _ _ _ Hi w).
Qed.

(** Looking again: a waiter leaves its parked state and keeps what it may rely
    on. While it is up, its condition may change without a signal. *)
Definition up (st : Waiting) : Waiting :=
  match st with Resting w k => Armed w k | _ => st end.
Definition up_ghost (g : Gh) : Gh := gput (set_waiter Idle (gget g)) g.
Definition awake (st : Waiting) (x : S * Gh) : Prop := waiting st x /\ waiter (gget x.2) = Idle.

Lemma waiting_up st s g :
  islot (s, g) -> waiting st (s, g) -> islot (s, up_ghost g) /\ awake (up st) (s, up_ghost g).
Proof.
  intros Hi Hw. unfold awake, up_ghost. assert (outside (waiter (gget g))) as Hout.
  { destruct st; cbn [waiting snd] in Hw; [apply Hw|left; apply Hw|right; by eexists _, _]. }
  split.
  - unfold islot in *. cbn [fst snd] in *. rewrite (si_ghost _ _ _ _ _ Hin).
    eapply slot_inv_mono; [apply (si_same_c _ _ _ _ _ Hin _ _ (si_same_ghost _ _ _ _ _ Hin s g _))|].
    by apply unpark.
  - cbn [fst snd] in *. rewrite (si_ghost _ _ _ _ _ Hin). split; [|done].
    destruct st as [k|w k|w k]; cbn [up waiting fst snd] in *; rewrite (si_ghost _ _ _ _ _ Hin); simpl.
    + split; [by left|apply Hw].
    + by split_and!; [|apply Hw..].
    + split; [done|]. apply (si_parked _ _ _ _ Hi w k Hw).
Qed.

Lemma awake_env st x x' : awake st x -> waiter_env x x' -> awake st x'.
Proof. intros [Hw Hid] He. split; [by eapply waiting_env|]. by rewrite (we_waiter _ _ He). Qed.

Section waits.
Context (R G : relation (S * Gh)) (P : S * Gh -> Prop).
Hypothesis HR : forall x x', R x x' -> islot x -> P x -> islot x' /\ P x' /\ waiter_env x x'.
Hypothesis HG : forall x x', waiter_move x x' -> islot x -> P x -> G x x'.
Hypothesis HP : forall x x', waiter_move x x' -> islot x -> P x -> P x'.

Lemma wp_arm_waiting k w Q x :
  islot x -> P x -> waiting (Out k) x ->
  (forall x', islot x' -> P x' -> waiting (Armed w k) x' -> Q tt x') -> wp R G (arm r w) Q x.
Proof.
  intros Hi Hp [Hout Hk] HQ. apply (wp_arm R G P HR HG HP k w); try done.
  intros x' [(? & ? & ? & ?) ?]. by apply HQ.
Qed.

Lemma wp_disarm_waiting k w Q x :
  islot x -> P x -> waiting (Armed w k) x ->
  (forall x', islot x' -> P x' -> waiting (Out k) x' -> Q tt x') -> wp R G (disarm r) Q x.
Proof.
  intros Hi Hp (Hid & Hk & _) HQ. apply (wp_disarm R G P HR HG HP k); [done|].
  intros x' (? & ? & ? & ?). apply HQ; [done|done|]. split; [by left|done].
Qed.
End waits.
End specs.

(** ** The handshake of the [WaiterSlot] contract

    One waiter and [n] signallers around one condition flag: the signallers
    publish and then signal; the waiter arms, then looks again, then parks. *)
Record Handshake : Type := mkHandshake {
  h_slot : WaiterSlot;
  h_log : list waker;
  h_flag : bool
}.

Definition h_ref : SlotRef Handshake :=
  mkSlotRef _ h_slot (fun sl s => mkHandshake sl (h_log s) (h_flag s))
    h_log (fun l s => mkHandshake (h_slot s) l (h_flag s)).

Definition h_init : Handshake := mkHandshake new [] false.

(** [true]: the condition was seen to hold; [false]: parked. *)
Definition wait_side (w : waker) : prog Handshake bool :=
  _ ← arm h_ref w;
  b ← load h_flag;
  if (b : bool) then _ ← disarm h_ref; Ret true else Ret false.

Definition signal_side : prog Handshake bool :=
  _ ← store (fun s => mkHandshake (h_slot s) (h_log s) true);
  _ ← signal h_ref;
  Ret true.

Definition h_same (x x' : Handshake * SlotGhost) : Prop := h_flag x'.1 = h_flag x.1.
Definition h_cond (x : Handshake * SlotGhost) : Prop := h_flag x.1 = true.

Lemma h_in : SlotIn h_ref (fun g => g) (fun g _ => g) h_same h_cond.
Proof. split; try done; [by intros []|]. intros x x' Hs. unfold h_cond. by rewrite Hs. Qed.

Abbreviation h_inv := (islot h_ref (fun g => g) h_cond).

Section handshake.
Context (n : nat) (w : waker).

(** Only the signallers [1 .. n] have a phase. *)
Definition h_ids (x : Handshake * SlotGhost) : Prop :=
  forall j, j = 0 \/ n < j -> signallers x.2 !! j = None.

Definition h_guar (i : nat) (x x' : Handshake * SlotGhost) : Prop :=
  h_inv x /\ h_inv x' /\ h_ids x /\ h_ids x' /\ (h_flag x.1 = true -> h_flag x'.1 = true) /\
  match i with
  | 0 => signallers x'.2 = signallers x.2
  | _ => waiter_env h_ref (fun g => g) x x' /\ forall j, j <> i -> signallers x'.2 !! j = signallers x.2 !! j
  end.

Definition h_rely (i : nat) (x x' : Handshake * SlotGhost) : Prop := exists j, j <> i /\ h_guar j x x'.

Definition h_post (i : nat) (b : bool) (x : Handshake * SlotGhost) : Prop :=
  h_inv x /\ h_ids x /\
  match i with
  | 0 => b = false -> waiter x.2 = Parked w 0
  | _ => h_flag x.1 = true /\ signallers x.2 !! i = None
  end.

Lemma h_rely_waiter x x' : h_rely 0 x x' -> h_inv x -> h_ids x ->
  h_inv x' /\ h_ids x' /\ waiter_env h_ref (fun g => g) x x'.
Proof. intros ([|j] & Hj & _ & ? & _ & ? & _ & Hm) _ _; [done|]. by destruct Hm. Qed.

Lemma h_waiter_guar x x' : waiter_move h_ref (fun g => g) h_same x x' -> h_inv x -> h_ids x -> h_guar 0 x x'.
Proof.
  intros Hm Hi Hd. pose proof Hm as [Hs Hst]. split_and!; try done.
  - by eapply (waiter_move_inv _ _ _ _ _ h_in).
  - intros j Hj. rewrite (ws_signallers _ _ _ _ _ _ Hst). by apply Hd.
  - by rewrite Hs.
  - apply Hst.
Qed.

Lemma h_waiter_ids x x' : waiter_move h_ref (fun g => g) h_same x x' -> h_inv x -> h_ids x -> h_ids x'.
Proof. intros Hm Hi Hd. by apply (h_waiter_guar x x' Hm Hi Hd). Qed.

Lemma h_rely_signaller i x x' : i <> 0 -> h_rely i x x' -> h_inv x -> h_ids x ->
  h_inv x' /\ h_ids x' /\ signallers x'.2 !! i = signallers x.2 !! i.
Proof.
  intros Hi0 ([|j] & Hj & _ & ? & _ & ? & _ & Hm) _ _; [by rewrite Hm|].
  destruct Hm as [_ Hm]. split_and!; [done..|]. by apply Hm.
Qed.

Lemma h_signaller_guar i x x' : 1 <= i <= n ->
  signaller_move h_ref (fun g => g) h_same i x x' -> h_inv x -> h_ids x -> h_guar i x x'.
Proof.
  intros Hi Hm Hv Hd. pose proof Hm as [Hs Hst]. destruct i as [|i]; [lia|]. split_and!; try done.
  - by eapply (signaller_move_inv _ _ _ _ _ h_in).
  - intros j Hj. rewrite (ss_others _ _ _ _ _ _ _ Hst) by lia. by apply Hd.
  - by rewrite Hs.
  - by eapply signaller_move_env.
  - apply Hst.
Qed.

Lemma h_signaller_ids i x x' : 1 <= i <= n ->
  signaller_move h_ref (fun g => g) h_same i x x' -> h_inv x -> h_ids x -> h_ids x'.
Proof. intros Hi Hm Hv Hd. by apply (h_signaller_guar i x x' Hi Hm Hv Hd). Qed.

Lemma wp_wait_side x :
  h_inv x -> h_ids x -> waiter x.2 = Idle -> h_log x.1 = [] ->
  wp (h_rely 0) (h_guar 0) (wait_side w) (h_post 0) x.
Proof.
  intros Hi Hd Hw Hl. apply wp_bind.
  apply (wp_arm _ _ _ _ _ h_in (h_rely 0) (h_guar 0) h_ids h_rely_waiter h_waiter_guar h_waiter_ids 0 w);
    [done|done|by left|lia|]. clear x Hi Hd Hw Hl. intros x Hx.
  eapply wp_act; [by eapply at_armed_stable, h_rely_waiter|exact Hx|]. intros s g [Ha Hok].
  pose proof Ha as (Hi & Hd & Hph & Hk). simpl in Hph.
  destruct (h_flag s) eqn:Hf.
  - exists s, true, g. split; [done|]. split; [by split_and!|]. cbn iota. apply wp_bind.
    apply (wp_disarm _ _ _ _ _ h_in (h_rely 0) (h_guar 0) h_ids h_rely_waiter h_waiter_guar h_waiter_ids 0);
      [done|]. intros x' Hx'.
    eapply wp_ret; [by apply (at_wait_stable _ _ _ (h_rely 0) h_ids h_rely_waiter 0 Idle)|exact Hx'|]. intros y (? & ? & _). done.
  - exists s, false, (set_waiter (Parked w 0) g). split; [done|].
    assert (h_inv (s, set_waiter (Parked w 0) g)) as Hi'.
    { apply park; try done; [by left|]. unfold h_cond. simpl. by rewrite Hf. }
    split; [by split_and!|].
    eapply wp_ret; [by apply (at_wait_stable _ _ _ (h_rely 0) h_ids h_rely_waiter 0 (Parked w 0))|by split_and!|].
    intros y (? & ? & ? & _). done.
Qed.

Lemma wp_signal_side i x :
  1 <= i <= n -> h_inv x -> h_ids x -> signallers x.2 !! i = None ->
  wp (h_rely i) (h_guar i) signal_side (h_post i) x.
Proof.
  intros Hin Hi Hd Hs.
  eapply (wp_act _ _ _ _ (at_phase _ _ _ i h_ids None)); [|by split_and!|].
  { apply at_phase_stable. intros y y' Hr. by apply h_rely_signaller; [lia|]. }
  clear x Hi Hd Hs. intros s g (Hi & Hd & Hph). simpl in Hph.
  eexists _, tt, (set_phase i (Some Owes) (holder g) g). split; [done|].
  set (x' := (mkHandshake (h_slot s) (h_log s) true, set_phase i (Some Owes) (holder g) g)).
  assert (h_inv x') as Hi' by (eapply publish; [exact Hi|by left]).
  assert (h_ids x') as Hd' by (intros j Hj; cbn [x' snd]; rewrite phase_ne by lia; by apply Hd).
  split.
  { destruct i as [|i]; [lia|]. split_and!; try done; [|by intros; apply phase_ne].
    eapply publish_env; [done|done|by left|done]. }
  apply wp_bind.
  apply (wp_signal _ _ _ _ _ h_in i (h_rely i) (h_guar i) (fun x => h_ids x /\ h_flag x.1 = true)).
  - intros y y' Hr Hiy [Hdy Hfy]. destruct (h_rely_signaller i y y') as (? & ? & ?); [lia|done..|].
    split_and!; try done. destruct Hr as (j & _ & _ & _ & _ & _ & Hf & _). by apply Hf.
  - intros y y' Hm Hiy [Hdy _]. by apply h_signaller_guar.
  - intros y y' Hm Hiy [Hdy Hfy]. split; [by eapply h_signaller_ids|]. destruct Hm as [Hsm _]. by rewrite Hsm.
  - done.
  - done.
  - right. apply phase_eq.
  - intros y Hy. eapply wp_ret; [|exact Hy|].
    + apply at_phase_stable. intros z z' Hr Hiz [Hdz Hfz].
      destruct (h_rely_signaller i z z') as (? & ? & ?); [lia|done..|].
      split_and!; try done. destruct Hr as (j & _ & _ & _ & _ & _ & Hf & _). by apply Hf.
    + intros z (? & [? ?] & ?). destruct i; [lia|]. done.
Qed.

(** The threads: the waiter, then the signallers. *)
Definition handshake : list (prog Handshake bool) := wait_side w :: replicate n signal_side.

Lemma handshake_wp : all_wp h_rely h_guar h_post handshake (h_init, ghost0).
Proof.
  assert (h_inv (h_init, ghost0)) as Hi by apply slot_inv_new.
  assert (h_ids (h_init, ghost0)) as Hd by done.
  intros [|i] p Hp; simpl in Hp.
  - injection Hp as <-. by apply wp_wait_side.
  - apply lookup_replicate in Hp as [-> Hlt]. apply wp_signal_side; [lia|done..].
Qed.
End handshake.

(** C20: the [WaiterSlot] contract loses no wakeup. A waiter that arms, looks at
    its condition and parks, against any number of signallers that publish and
    signal, under any interleaving of their atomic accesses: nothing panics, and
    once all of them are done with the waiter parked, a waker of its task has
    been fired. *)
Theorem handshake_no_lost_wakeup (n : nat) (w : waker) (sch : list nat) :
  exists s ps, run_sched sch h_init (handshake n w) = Done (s, ps) /\
    (0 < n -> ps = Ret false :: replicate n (Ret true) -> exists x, x ∈ h_log s /\ wakes x w).
Proof.
  destruct (wp_sound (h_rely n) (h_guar n) (h_post n w) sch h_init ghost0 (handshake n w))
    as (s & ps & g & Hrun & Hall & _); [by intros i j y y' Hne Hg; exists i|apply handshake_wp|].
  exists s, ps. split; [done|]. intros Hn ->.
  assert (forall i, 1 <= i <= n -> h_post n w i true (s, g)) as Hsig.
  { intros i Hin. apply (all_wp_returned _ _ _ _ _ _ _ Hall). destruct i as [|i]; [lia|]. simpl.
    apply lookup_replicate. split; [done|lia]. }
  pose proof (all_wp_returned _ _ _ _ _ 0 false Hall eq_refl) as (Hi & Hd & Hpark).
  destruct (Hsig 1) as (_ & _ & Hf & _); [lia|].
  destruct (parked_told _ _ _ _ w 0 Hi) as (x & Hx & Hxw); [|by apply Hpark|done|by exists x].
  apply map_eq. intros j. rewrite lookup_empty.
  destruct (decide (1 <= j <= n)) as [Hj|Hj]; [|apply Hd; lia].
  destruct (Hsig j Hj) as (_ & _ & Hp). destruct j; [lia|]. apply Hp.
Qed.
End notify.

#[local] Instance nat_wakers : Wakers := {| waker := nat; will_wake := Nat.eqb |}.
#[local] Existing Instance debug_build.

(** Two signallers race a waiter that parks; the second one finds the slot
    locked by the first. *)
Definition demo_schedule : list nat :=
  [0; 0; 0; 0; 0] ++ [1; 1; 1; 1] ++ [2; 2; 2; 2; 2; 2] ++ [1; 1; 1; 1; 1] ++ [0; 0].

Lemma handshake_no_lost_wakeup_witness : exists x : nat, x ∈ [7] /\ wakes (H0 := nat_wakers) x 7.
Proof.
  destruct (handshake_no_lost_wakeup (H0 := nat_wakers) 2 7 demo_schedule) as (s & ps & Hrun & Hw).
  vm_compute in Hrun. injection Hrun as <- <-. apply Hw; [lia|reflexivity].
Defined.
End Notify.
