(* ===== verification/RingBuffer.v ===== *)
(** * [RingBuf] ([src/site_d/ringbuf.rs])

    [Module Ring]: the lock-free single-producer single-consumer ring buffer.
    Each operation is a program, one step per atomic access or bulk copy, over any
    state that offers the accesses of [Accesses]; the handles' cached indices are
    passed along. The proofs are about the sequentially consistent accesses. [T] is
    the element type, [capacity] the (power of two) capacity. *)
From stdpp Require Import base list gmap numbers relations strings.
From S2P Require Import Prelude WaitList Concurrency Notify.

Module Ring.
Section ring.
Context `{BuildMode} `{Wakers} {T : Type} (capacity : Z).

Definition mask : Z := capacity - 1.

(** The shared state, with the wakers fired through each slot. *)
Record RingBufferShared : Type := mkRing {
  buffer : list (option T);
  write_index : Z;
  read_index : Z;
  producer_slot : Notify.WaiterSlot;
  consumer_slot : Notify.WaiterSlot;
  producer_log : list waker;
  consumer_log : list waker
}.

Record Producer : Type := mkProducer { p_cached_read : Z; p_cached_write : Z }.
Record Consumer : Type := mkConsumer { c_cached_read : Z; c_cached_write : Z }.

Definition set_buffer (b : list (option T)) (s : RingBufferShared) : RingBufferShared :=
  mkRing b (write_index s) (read_index s) (producer_slot s) (consumer_slot s) (producer_log s) (consumer_log s).
Definition set_write_index (w : Z) (s : RingBufferShared) : RingBufferShared :=
  mkRing (buffer s) w (read_index s) (producer_slot s) (consumer_slot s) (producer_log s) (consumer_log s).
Definition set_read_index (i : Z) (s : RingBufferShared) : RingBufferShared :=
  mkRing (buffer s) (write_index s) i (producer_slot s) (consumer_slot s) (producer_log s) (consumer_log s).

Definition producer_ref : Notify.SlotRef RingBufferShared :=
  Notify.mkSlotRef _ producer_slot
    (fun sl s => mkRing (buffer s) (write_index s) (read_index s) sl (consumer_slot s) (producer_log s) (consumer_log s))
    producer_log
    (fun l s => mkRing (buffer s) (write_index s) (read_index s) (producer_slot s) (consumer_slot s) l (consumer_log s)).
Definition consumer_ref : Notify.SlotRef RingBufferShared :=
  Notify.mkSlotRef _ consumer_slot
    (fun sl s => mkRing (buffer s) (write_index s) (read_index s) (producer_slot s) sl (producer_log s) (consumer_log s))
    consumer_log
    (fun l s => mkRing (buffer s) (write_index s) (read_index s) (producer_slot s) (consumer_slot s) (producer_log s) l).

(** [RingBuf::new]; [size_of] is the size of an element. The allocation is
    uninitialised. *)
Definition new (size_of : Z) : outcome RingBufferShared :=
  _ ← assert_or (0 <? capacity)%Z "capacity must be greater than 0";
  _ ← assert_or (Z.land capacity (capacity - 1) =? 0)%Z "capacity must be a power of 2";
  _ ← assert_or (negb (size_of =? 0)%Z) "RingBuf does not support zero-sized types";
  _ ← assert_or (size_of * capacity <=? 2 ^ 63 - 1)%Z "capacity overflow";
  Done (mkRing (replicate (Z.to_nat capacity) None) 0 0 Notify.new Notify.new [] []).

Definition split : Producer * Consumer := (mkProducer 0 0, mkConsumer 0 0).

(** ** Slots *)

(** Write elements at consecutive positions from [i]; past the end is undefined. *)
Definition write_at (i : Z) (vs : list T) : prog RingBufferShared unit :=
  act (fun s =>
    if (i + Z.of_nat (length vs) <=? Z.of_nat (length (buffer s)))%Z
    then Done (set_buffer (list_inserts (Z.to_nat i) (Some <$> vs) (buffer s)) s, tt)
    else Undefined).

(** Read [n] elements from [i]; reading an uninitialised slot is undefined. *)
Definition read_at (i : Z) (n : nat) : prog RingBufferShared (list T) :=
  act (fun s =>
    match mapM id (take n (drop (Z.to_nat i) (buffer s))) with
    | Some vs => if length vs =? n then Done (s, vs) else Undefined
    | None => Undefined
    end).

(** ** Accesses

    What the operations do to the shared state. [sequential] does it to the
    record above, which always holds the latest values; [WeakRing.v] has an
    instance that uses the memory orderings of the source. The counts load the
    other side's index with [Acquire], the other loads and the stores are [SeqCst]. *)
Class Accesses (S : Type) : Type := {
  write_slots : Z -> list T -> prog S unit;
  read_slots : Z -> nat -> prog S (list T);
  load_write_index : prog S Z;
  load_read_index : prog S Z;
  count_write_index : prog S Z;
  count_read_index : prog S Z;
  store_write_index : Z -> prog S unit;
  store_read_index : Z -> prog S unit;
  arm_producer : waker -> prog S unit;
  arm_consumer : waker -> prog S unit;
  disarm_producer : prog S unit;
  disarm_consumer : prog S unit;
  signal_producer : prog S unit;
  signal_consumer : prog S unit;
  producer_fired : prog S nat;         (* wakers fired so far through a slot *)
  consumer_fired : prog S nat
}.

#[global] Instance sequential : Accesses RingBufferShared := {
  write_slots := write_at;
  read_slots := read_at;
  load_write_index := load write_index;
  load_read_index := load read_index;
  count_write_index := load write_index;
  count_read_index := load read_index;
  store_write_index i := store (set_write_index i);
  store_read_index i := store (set_read_index i);
  arm_producer := Notify.arm producer_ref;
  arm_consumer := Notify.arm consumer_ref;
  disarm_producer := Notify.disarm producer_ref;
  disarm_consumer := Notify.disarm consumer_ref;
  signal_producer := Notify.signal producer_ref;
  signal_consumer := Notify.signal consumer_ref;
  producer_fired := load (fun s => length (producer_log s));
  consumer_fired := load (fun s => length (consumer_log s))
}.

(** The waker a task is parked with, and how many wakers had been fired through its
    slot before the poll that parked it; the elements a thread has moved through
    the buffer, and its parking if its last operation is pending. *)
Abbreviation parking := (option (waker * nat)).
Abbreviation thread_result := (list T * parking)%type.

Section operations.
Context {M : Type} `{Accesses M}.

(** ** Producer *)
Definition publish_push (p : Producer) (write : Z) : prog M unit :=
  _ ← store_write_index write;
  signal_consumer.

Definition try_push (p : Producer) (value : T) : prog M (Producer * result unit T) :=
  let write := p_cached_write p in
  let go p :=
    _ ← write_slots (Z.land write mask) [value];
    let p := mkProducer (p_cached_read p) (wrapping_add write 1) in
    _ ← publish_push p (p_cached_write p);
    Ret (p, ROk tt) in
  if (capacity <=? wrapping_sub write (p_cached_read p))%Z then
    r ← load_read_index;
    let p := mkProducer r write in
    if (capacity <=? wrapping_sub write r)%Z then Ret (p, RErr value) else go p
  else go p.

(** The copies and the publication, once [available] slots are known free. *)
Definition push_slice_go (p : Producer) (items : list T) (available : Z) : prog M (Producer * nat) :=
  let write := p_cached_write p in
  let to_push := Z.min (Z.of_nat (length items)) available in
  let write_idx := Z.land write mask in
  let contiguous := Z.min (capacity - write_idx) to_push in
  _ ← write_slots write_idx (take (Z.to_nat contiguous) items);
  _ ← (if (contiguous <? to_push)%Z
       then write_slots 0 (take (Z.to_nat (to_push - contiguous)) (drop (Z.to_nat contiguous) items))
       else Ret tt);
  let p := mkProducer (p_cached_read p) (wrapping_add write to_push) in
  _ ← publish_push p (p_cached_write p);
  Ret (p, Z.to_nat to_push).

Definition try_push_slice (p : Producer) (items : list T) : prog M (Producer * nat) :=
  match items with
  | [] => Ret (p, 0)
  | _ =>
      let write := p_cached_write p in
      let available := saturating_sub capacity (wrapping_sub write (p_cached_read p)) in
      if (available =? 0)%Z then
        r ← load_read_index;
        let p := mkProducer r write in
        let available := saturating_sub capacity (wrapping_sub write r) in
        if (available =? 0)%Z then Ret (p, 0) else push_slice_go p items available
      else push_slice_go p items available
  end.

(** [PushFuture::poll]; [value] is the future's field. *)
Definition poll_push (p : Producer) (value : option T) (w : waker) :
    prog M (Producer * option T * Poll unit) :=
  match value with
  | None => Ret (p, None, Ready tt)
  | Some v =>
      '(p, r) ← try_push p v;
      match r with
      | ROk _ => Ret (p, None, Ready tt)
      | RErr v =>
          _ ← arm_producer w;
          '(p, r) ← try_push p v;
          match r with
          | ROk _ => _ ← disarm_producer; Ret (p, None, Ready tt)
          | RErr v => Ret (p, Some v, Pending)
          end
      end
  end.

(** [PushSliceFuture]: its fields, and the progress it reports. *)
Record PushSliceFuture : Type := mkPushSlice { ps_items : list T; pushed_so_far : nat; ps_progress : nat }.

Definition poll_push_slice (p : Producer) (f : PushSliceFuture) (w : waker) :
    prog M (Producer * PushSliceFuture * Poll unit) :=
  '(p, pushed) ← try_push_slice p (drop (pushed_so_far f) (ps_items f));
  let so_far := pushed_so_far f + pushed in
  if (0 <? pushed) && (so_far =? length (ps_items f)) then
    Ret (p, mkPushSlice (ps_items f) so_far (ps_progress f), Ready tt)
  else
    _ ← arm_producer w;
    '(p, pushed) ← try_push_slice p (drop so_far (ps_items f));
    let so_far' := so_far + pushed in
    if (0 <? pushed) && (so_far' =? length (ps_items f)) then
      _ ← disarm_producer;
      Ret (p, mkPushSlice (ps_items f) so_far' so_far, Ready tt)
    else Ret (p, mkPushSlice (ps_items f) so_far' so_far', Pending).

Definition free_count (p : Producer) : prog M (Producer * Z) :=
  r ← count_read_index;
  let p := mkProducer r (p_cached_write p) in
  n ← act (fun s => d ← sub_usize capacity (wrapping_sub (p_cached_write p) r); Done (s, d));
  Ret (p, n).

Definition producer_is_empty (p : Producer) : prog M (Producer * bool) :=
  r ← count_read_index;
  let p := mkProducer r (p_cached_write p) in
  Ret (p, (p_cached_write p =? r)%Z).

Definition producer_is_full (p : Producer) : prog M (Producer * bool) :=
  '(p, n) ← free_count p; Ret (p, (n =? 0)%Z).

(** ** Consumer *)
Definition try_pop_inner (c : Consumer) (sig : bool) : prog M (Consumer * option T) :=
  let read := c_cached_read c in
  let go c :=
    vs ← read_slots (Z.land read mask) 1;
    let c := mkConsumer (wrapping_add read 1) (c_cached_write c) in
    _ ← store_read_index (c_cached_read c);
    _ ← (if (sig : bool) then signal_producer else Ret tt);
    Ret (c, head vs) in
  if (read =? c_cached_write c)%Z then
    w ← load_write_index;
    let c := mkConsumer read w in
    if (read =? w)%Z then Ret (c, None) else go c
  else go c.

Definition try_pop (c : Consumer) : prog M (Consumer * option T) := try_pop_inner c true.

(** The copies and the publication, once [available] elements are known present;
    the slice to fill has room for [n] elements. *)
Definition pop_slice_go (c : Consumer) (n : nat) (available : Z) : prog M (Consumer * list T) :=
  let read := c_cached_read c in
  let to_pop := Z.min (Z.of_nat n) available in
  let read_idx := Z.land read mask in
  let contiguous := Z.min (capacity - read_idx) to_pop in
  vs1 ← read_slots read_idx (Z.to_nat contiguous);
  vs2 ← (if (contiguous <? to_pop)%Z then read_slots 0 (Z.to_nat (to_pop - contiguous)) else Ret []);
  let c := mkConsumer (wrapping_add read to_pop) (c_cached_write c) in
  _ ← store_read_index (c_cached_read c);
  _ ← signal_producer;
  Ret (c, vs1 ++ vs2).

(** The result is what was copied into the slice. *)
Definition try_pop_slice (c : Consumer) (n : nat) : prog M (Consumer * list T) :=
  match n with
  | 0 => Ret (c, [])
  | _ =>
      let read := c_cached_read c in
      let available := wrapping_sub (c_cached_write c) read in
      if (available =? 0)%Z then
        w ← load_write_index;
        let c := mkConsumer read w in
        let available := wrapping_sub w read in
        if (available =? 0)%Z then Ret (c, []) else pop_slice_go c n available
      else pop_slice_go c n available
  end.

Definition poll_pop (c : Consumer) (w : waker) : prog M (Consumer * Poll T) :=
  '(c, r) ← try_pop c;
  match r with
  | Some v => Ret (c, Ready v)
  | None =>
      _ ← arm_consumer w;
      '(c, r) ← try_pop c;
      match r with
      | Some v => _ ← disarm_consumer; Ret (c, Ready v)
      | None => Ret (c, Pending)
      end
  end.

(** [PopSliceFuture]: the length of the slice, what was copied into it so far,
    and the progress it reports. *)
Record PopSliceFuture : Type := mkPopSlice { qs_len : nat; qs_items : list T; qs_progress : nat }.

Definition poll_pop_slice (c : Consumer) (f : PopSliceFuture) (w : waker) :
    prog M (Consumer * PopSliceFuture * Poll unit) :=
  '(c, vs) ← try_pop_slice c (qs_len f - length (qs_items f));
  let got := qs_items f ++ vs in
  if (0 <? length vs) && (length got =? qs_len f) then
    Ret (c, mkPopSlice (qs_len f) got (qs_progress f), Ready tt)
  else
    _ ← arm_consumer w;
    '(c, vs) ← try_pop_slice c (qs_len f - length got);
    let got' := got ++ vs in
    if (0 <? length vs) && (length got' =? qs_len f) then
      _ ← disarm_consumer;
      Ret (c, mkPopSlice (qs_len f) got' (length got), Ready tt)
    else Ret (c, mkPopSlice (qs_len f) got' (length got'), Pending).

Definition available_count (c : Consumer) : prog M (Consumer * Z) :=
  w ← count_write_index;
  let c := mkConsumer (c_cached_read c) w in
  Ret (c, wrapping_sub w (c_cached_read c)).

Definition consumer_is_empty (c : Consumer) : prog M (Consumer * bool) :=
  '(c, n) ← available_count c; Ret (c, (n =? 0)%Z).

Definition consumer_is_full (c : Consumer) : prog M (Consumer * bool) :=
  w ← count_write_index;
  let c := mkConsumer (c_cached_read c) w in
  Ret (c, (capacity <=? wrapping_sub w (c_cached_read c))%Z).

(** ** Using the futures

    The async functions, driven by an executor: [ws] are the wakers of the
    successive polls, which stop when the future is ready. The last component
    says whether the last poll left the task parked: with which waker, and how
    many wakers had been fired through its slot before that poll. *)
Fixpoint drive_push (p : Producer) (value : option T) (ws : list waker) (parked : parking) :
    prog M (Producer * option T * parking) :=
  match ws with
  | [] => Ret (p, value, parked)
  | w :: ws =>
      k ← producer_fired;
      '(p, value, r) ← poll_push p value w;
      match r with
      | Ready _ => Ret (p, value, None)
      | Pending => drive_push p value ws (Some (w, k))
      end
  end.

Definition push (p : Producer) (value : T) (ws : list waker) :
    prog M (Producer * option T * parking) :=
  '(p, r) ← try_push p value;
  match r with
  | ROk _ => Ret (p, None, None)
  | RErr v => drive_push p (Some v) ws None
  end.

Fixpoint drive_push_slice (p : Producer) (f : PushSliceFuture) (ws : list waker) (parked : parking) :
    prog M (Producer * PushSliceFuture * parking) :=
  match ws with
  | [] => Ret (p, f, parked)
  | w :: ws =>
      k ← producer_fired;
      '(p, f, r) ← poll_push_slice p f w;
      match r with
      | Ready _ => Ret (p, f, None)
      | Pending => drive_push_slice p f ws (Some (w, k))
      end
  end.

Definition push_slice_counted (p : Producer) (items : list T) (ws : list waker) :
    prog M (Producer * PushSliceFuture * parking) :=
  match items with
  | [] => Ret (p, mkPushSlice [] 0 0, None)
  | _ =>
      '(p, n) ← try_push_slice p items;
      if n =? length items then Ret (p, mkPushSlice items n n, None)
      else drive_push_slice p (mkPushSlice items n n) ws None
  end.

Fixpoint drive_pop (c : Consumer) (ws : list waker) (parked : parking) :
    prog M (Consumer * option T * parking) :=
  match ws with
  | [] => Ret (c, None, parked)
  | w :: ws =>
      k ← consumer_fired;
      '(c, r) ← poll_pop c w;
      match r with
      | Ready v => Ret (c, Some v, None)
      | Pending => drive_pop c ws (Some (w, k))
      end
  end.

Definition pop (c : Consumer) (ws : list waker) : prog M (Consumer * option T * parking) :=
  '(c, r) ← try_pop c;
  match r with
  | Some v => Ret (c, Some v, None)
  | None => drive_pop c ws None
  end.

Fixpoint drive_pop_slice (c : Consumer) (f : PopSliceFuture) (ws : list waker) (parked : parking) :
    prog M (Consumer * PopSliceFuture * parking) :=
  match ws with
  | [] => Ret (c, f, parked)
  | w :: ws =>
      k ← consumer_fired;
      '(c, f, r) ← poll_pop_slice c f w;
      match r with
      | Ready _ => Ret (c, f, None)
      | Pending => drive_pop_slice c f ws (Some (w, k))
      end
  end.

Definition pop_slice_counted (c : Consumer) (n : nat) (ws : list waker) :
    prog M (Consumer * PopSliceFuture * parking) :=
  match n with
  | 0 => Ret (c, mkPopSlice 0 [] 0, None)
  | _ =>
      '(c, vs) ← try_pop_slice c n;
      if length vs =? n then Ret (c, mkPopSlice n vs n, None)
      else drive_pop_slice c (mkPopSlice n vs (length vs)) ws None
  end.

(** [io::Write] and [io::Read] on bytes: as much as fits now, else block for one
    element and then add what fits; [None] while still blocked. The slice to read
    into has room for [n] elements. *)
Definition io_write (p : Producer) (buf : list T) (ws : list waker) :
    prog M (Producer * option nat * parking) :=
  match buf with
  | [] => Ret (p, Some 0, None)
  | v :: rest =>
      '(p, n) ← try_push_slice p buf;
      if 0 <? n then Ret (p, Some n, None)
      else
        '(p, o, pk) ← push p v ws;
        match o with
        | Some _ => Ret (p, None, pk)
        | None => '(p, additional) ← try_push_slice p rest; Ret (p, Some (1 + additional), None)
        end
  end.

Definition io_read (c : Consumer) (n : nat) (ws : list waker) :
    prog M (Consumer * list T * parking) :=
  match n with
  | 0 => Ret (c, [], None)
  | S rest =>
      '(c, vs) ← try_pop_slice c n;
      if 0 <? length vs then Ret (c, vs, None)
      else
        '(c, o, pk) ← pop c ws;
        match o with
        | None => Ret (c, [], pk)
        | Some v => '(c, vs) ← try_pop_slice c rest; Ret (c, v :: vs, None)
        end
  end.

(** ** Two threads *)
Inductive producer_op : Type :=
| TryPush (v : T)
| TryPushSlice (vs : list T)
| Push (v : T) (ws : list waker)
| PushSlice (vs : list T) (ws : list waker)
| FreeCount
| ProducerIsEmpty
| ProducerIsFull
| Write (vs : list T) (ws : list waker).

Inductive consumer_op : Type :=
| TryPop
| TryPopSlice (n : nat)
| Pop (ws : list waker)
| PopSlice (n : nat) (ws : list waker)
| AvailableCount
| ConsumerIsEmpty
| ConsumerIsFull
| Read (n : nat) (ws : list waker).

Definition producer_step (p : Producer) (op : producer_op) :
    prog M (Producer * list T * parking) :=
  match op with
  | TryPush v => '(p, r) ← try_push p v; Ret (p, match r with ROk _ => [v] | RErr _ => [] end, None)
  | TryPushSlice vs => '(p, n) ← try_push_slice p vs; Ret (p, take n vs, None)
  | Push v ws => '(p, o, w) ← push p v ws; Ret (p, match o with None => [v] | Some _ => [] end, w)
  | PushSlice vs ws => '(p, f, w) ← push_slice_counted p vs ws; Ret (p, take (pushed_so_far f) vs, w)
  | FreeCount => '(p, _) ← free_count p; Ret (p, [], None)
  | ProducerIsEmpty => '(p, _) ← producer_is_empty p; Ret (p, [], None)
  | ProducerIsFull => '(p, _) ← producer_is_full p; Ret (p, [], None)
  | Write vs ws => '(p, o, w) ← io_write p vs ws; Ret (p, take (default 0 o) vs, w)
  end.

Fixpoint producer_thread (p : Producer) (ops : list producer_op) (acc : thread_result) :
    prog M thread_result :=
  match ops with
  | [] => Ret acc
  | op :: ops => '(p, vs, w) ← producer_step p op; producer_thread p ops (acc.1 ++ vs, w)
  end.

Definition consumer_step (c : Consumer) (op : consumer_op) :
    prog M (Consumer * list T * parking) :=
  match op with
  | TryPop => '(c, o) ← try_pop c; Ret (c, option_list o, None)
  | TryPopSlice n => '(c, vs) ← try_pop_slice c n; Ret (c, vs, None)
  | Pop ws => '(c, o, w) ← pop c ws; Ret (c, option_list o, w)
  | PopSlice n ws => '(c, f, w) ← pop_slice_counted c n ws; Ret (c, qs_items f, w)
  | AvailableCount => '(c, _) ← available_count c; Ret (c, [], None)
  | ConsumerIsEmpty => '(c, _) ← consumer_is_empty c; Ret (c, [], None)
  | ConsumerIsFull => '(c, _) ← consumer_is_full c; Ret (c, [], None)
  | Read n ws => io_read c n ws
  end.

Fixpoint consumer_thread (c : Consumer) (ops : list consumer_op) (acc : thread_result) :
    prog M thread_result :=
  match ops with
  | [] => Ret acc
  | op :: ops => '(c, vs, w) ← consumer_step c op; consumer_thread c ops (acc.1 ++ vs, w)
  end.
End operations.

(** [Drop for RingBufferShared]: the elements dropped, in order. The fuel is the
    capacity plus one. *)
Fixpoint drop_loop (fuel : nat) (s : RingBufferShared) (current : Z) : outcome (list T) :=
  match fuel with
  | 0 => Undefined
  | S fuel =>
      if (current =? write_index s)%Z then Done []
      else
        match buffer s !! Z.to_nat (Z.land current mask) with
        | Some (Some v) => vs ← drop_loop fuel s (wrapping_add current 1); Done (v :: vs)
        | _ => Undefined
        end
  end.
Definition drop_shared (s : RingBufferShared) : outcome (list T) :=
  drop_loop (S (Z.to_nat capacity)) s (read_index s).

(** ** Invariant

    Auxiliary state: every element ever published, how many of them were
    consumed, the state of the two wakeup protocols, and the index of the other
    side that each parked side is waiting to see exceeded. *)
Record ring_ghost : Type := mkRG {
  hist : list T;
  got : nat;
  cg : Notify.SlotGhost;
  pg : Notify.SlotGhost;
  c_thr : nat;
  p_thr : nat
}.

Context (e : nat) (He : e <= 62) (Hcap : capacity = (2 ^ Z.of_nat e)%Z).
Abbreviation N := (Z.to_nat capacity).
Abbreviation config := (RingBufferShared * ring_ghost)%type.

Lemma N_pos : 0 < N.
Proof. rewrite Hcap. pose proof (Z.pow_pos_nonneg 2 (Z.of_nat e)). lia. Qed.

Lemma N_capacity : Z.of_nat N = capacity.
Proof. rewrite Z2Nat.id; [done|]. rewrite Hcap. apply Z.pow_nonneg. lia. Qed.

Lemma N_small : (Z.of_nat N < word_modulus)%Z.
Proof.
  rewrite N_capacity, Hcap. unfold word_modulus. apply Z.pow_lt_mono_r; lia.
Qed.

Lemma slot_index (i : nat) : Z.to_nat (Z.land (wrap (Z.of_nat i)) mask) = i mod N.
Proof.
  unfold mask. replace (capacity - 1)%Z with (2 ^ Z.of_nat e - 1)%Z by by rewrite Hcap.
  rewrite land_wrap_mask, <-Hcap by lia. pose proof N_capacity. rewrite Z2Nat.inj_mod by lia.
  by rewrite Nat2Z.id.
Qed.

Lemma index_bound (i : nat) : (0 <= Z.land (wrap (Z.of_nat i)) mask < capacity)%Z.
Proof.
  unfold mask. rewrite Hcap, land_wrap_mask by lia. apply Z.mod_pos_bound. apply Z.pow_pos_nonneg; lia.
Qed.

(** Two counters less than a lap apart use different slots. *)
Lemma lap_ne i j : i < j -> j < i + N -> i mod N <> j mod N.
Proof.
  intros Hij Hlap Heq. replace i with (i + 0) in Heq by lia. replace j with (i + (j - i)) in Heq by lia.
  apply ring_inj in Heq; lia.
Qed.

Record ring_ok (x : config) : Prop := {
  ro_len : length (buffer x.1) = N;
  ro_write : write_index x.1 = wrap (Z.of_nat (length (hist x.2)));
  ro_read : read_index x.1 = wrap (Z.of_nat (got x.2));
  ro_got : got x.2 <= length (hist x.2) <= got x.2 + N;
  ro_data i : got x.2 <= i < length (hist x.2) -> buffer x.1 !! (i mod N) = Some (hist x.2 !! i)
}.

(** What the parked sides wait for. *)
Definition c_cond (x : config) : Prop := c_thr x.2 < length (hist x.2).
Definition p_cond (x : config) : Prop := p_thr x.2 < got x.2.

Definition put_cg (g : Notify.SlotGhost) (r : ring_ghost) : ring_ghost :=
  mkRG (hist r) (got r) g (pg r) (c_thr r) (p_thr r).
Definition put_pg (g : Notify.SlotGhost) (r : ring_ghost) : ring_ghost :=
  mkRG (hist r) (got r) (cg r) g (c_thr r) (p_thr r).

Abbreviation c_slot := (Notify.islot consumer_ref cg c_cond).
Abbreviation p_slot := (Notify.islot producer_ref pg p_cond).

Record inv (x : config) : Prop := {
  inv_ring : ring_ok x;
  inv_c : c_slot x;
  inv_p : p_slot x;
  inv_c_ids j : j <> 0 -> Notify.signallers (cg x.2) !! j = None;
  inv_p_ids j : j <> 1 -> Notify.signallers (pg x.2) !! j = None
}.

(** Two configurations that differ only in one slot. *)
Definition c_same (x x' : config) : Prop :=
  buffer x'.1 = buffer x.1 /\ write_index x'.1 = write_index x.1 /\ read_index x'.1 = read_index x.1 /\
  producer_slot x'.1 = producer_slot x.1 /\ producer_log x'.1 = producer_log x.1 /\
  hist x'.2 = hist x.2 /\ got x'.2 = got x.2 /\ pg x'.2 = pg x.2 /\ c_thr x'.2 = c_thr x.2 /\ p_thr x'.2 = p_thr x.2.
Definition p_same (x x' : config) : Prop :=
  buffer x'.1 = buffer x.1 /\ write_index x'.1 = write_index x.1 /\ read_index x'.1 = read_index x.1 /\
  consumer_slot x'.1 = consumer_slot x.1 /\ consumer_log x'.1 = consumer_log x.1 /\
  hist x'.2 = hist x.2 /\ got x'.2 = got x.2 /\ cg x'.2 = cg x.2 /\ c_thr x'.2 = c_thr x.2 /\ p_thr x'.2 = p_thr x.2.

Lemma c_in : Notify.SlotIn consumer_ref cg put_cg c_same c_cond.
Proof.
  split; try done; [by intros []|]. intros x x' (_ & _ & _ & _ & _ & Hh & _ & _ & Ht & _).
  unfold c_cond. by rewrite Hh, Ht.
Qed.

Lemma p_in : Notify.SlotIn producer_ref pg put_pg p_same p_cond.
Proof.
  split; try done; [by intros []|]. intros x x' (_ & _ & _ & _ & _ & _ & Hg & _ & _ & Ht).
  unfold p_cond. by rewrite Hg, Ht.
Qed.

(** The steps of the two threads, as the other one sees them. *)
Record producer_move (x x' : config) : Prop := {
  pm_inv : inv x';
  pm_got : got x'.2 = got x.2;
  pm_hist : hist x.2 `prefix_of` hist x'.2;
  pm_env : Notify.waiter_env consumer_ref cg x x';
  pm_p_sig : Notify.signallers (pg x'.2) = Notify.signallers (pg x.2);
  pm_thr : c_thr x'.2 = c_thr x.2
}.
Record consumer_move (x x' : config) : Prop := {
  cm_inv : inv x';
  cm_hist : hist x'.2 = hist x.2;
  cm_got : got x.2 <= got x'.2;
  cm_buffer : buffer x'.1 = buffer x.1;
  cm_env : Notify.waiter_env producer_ref pg x x';
  cm_c_sig : Notify.signallers (cg x'.2) = Notify.signallers (cg x.2);
  cm_thr : p_thr x'.2 = p_thr x.2
}.

Definition guar (i : nat) (x x' : config) : Prop :=
  match i with
  | 0 => inv x -> producer_move x x'
  | 1 => inv x -> consumer_move x x'
  | _ => False
  end.
Definition rely (i : nat) (x x' : config) : Prop :=
  match i with 0 => guar 1 x x' | 1 => guar 0 x x' | _ => True end.

Lemma guar_rely i j x x' : i <> j -> guar i x x' -> rely j x x'.
Proof. destruct i as [|[|i]], j as [|[|j]]; simpl; try done; lia. Qed.

(** What a thread knows about its own parking: [k] wakers had been fired through
    its slot when the poll started. *)
Inductive wait_state : Type :=
| NotArmed (k : nat)
| Armed (w : waker) (k : nat)
| IsParked (w : waker) (k : nat) (thr : nat).

Definition wait_at (r : Notify.SlotRef RingBufferShared) (gg : ring_ghost -> Notify.SlotGhost)
    (thr : ring_ghost -> nat) (st : wait_state) (x : config) : Prop :=
  match st with
  | NotArmed k => Notify.outside (Notify.waiter (gg x.2)) /\ k <= length (Notify.get_log _ r x.1)
  | Armed w k => Notify.waiter (gg x.2) = Notify.Idle /\ k <= length (Notify.get_log _ r x.1) /\
      Notify.armed_ok w k (Notify.get_slot _ r x.1) (Notify.get_log _ r x.1) (gg x.2)
  | IsParked w k t => Notify.waiter (gg x.2) = Notify.Parked w k /\ thr x.2 = t
  end.
Abbreviation p_wait := (wait_at producer_ref pg p_thr).
Abbreviation c_wait := (wait_at consumer_ref cg c_thr).

(** After a failed attempt, an armed side is parked until the other side's index
    exceeds the [thr] it saw. *)
Definition yielded (st : wait_state) (thr : nat) : wait_state :=
  match st with
  | Armed w k => IsParked w k thr
  | NotArmed k | IsParked _ k _ => NotArmed k
  end.

(** The producer between operations: it has published exactly [h]. *)
Record producing (p : Producer) (h : list T) (st : wait_state) (x : config) : Prop := {
  pr_inv : inv x;
  pr_hist : hist x.2 = h;
  pr_write : p_cached_write p = wrap (Z.of_nat (length h));
  pr_read : exists r, p_cached_read p = wrap (Z.of_nat r) /\ r <= got x.2 /\ length h <= r + N;
  pr_sig : Notify.signallers (cg x.2) !! 0 = None;
  pr_wait : p_wait st x
}.

Lemma wait_env r gg thr st x x' :
  wait_at r gg thr st x -> Notify.waiter_env r gg x x' -> thr x'.2 = thr x.2 -> wait_at r gg thr st x'.
Proof.
  intros Hw Henv Ht. pose proof (Notify.we_waiter _ _ _ _ Henv) as Hwt.
  pose proof (prefix_length _ _ (Notify.we_log _ _ _ _ Henv)) as Hlen.
  destruct st as [k|w k|w k t]; cbn [wait_at] in *; rewrite Hwt; [destruct Hw; split; [done|lia]| |by rewrite Ht].
  destruct Hw as (Hi & Hk & Hok).
  destruct (Notify.parking_env _ _ x x' Henv w k) as [Hok' Hk']; [by left|done|done|]. done.
Qed.

Lemma wait_same r gg thr st x x' :
  wait_at r gg thr st x -> Notify.get_slot _ r x'.1 = Notify.get_slot _ r x.1 ->
  Notify.get_log _ r x'.1 = Notify.get_log _ r x.1 -> gg x'.2 = gg x.2 -> thr x'.2 = thr x.2 ->
  wait_at r gg thr st x'.
Proof. intros Hw Hs Hl Hg Ht. destruct st; cbn [wait_at] in *; rewrite ?Hs, ?Hl, ?Hg, ?Ht; done. Qed.

(** The number of fired wakers a waiter has noted. *)
Definition noted (st : wait_state) : nat :=
  match st with NotArmed k | Armed _ k | IsParked _ k _ => k end.

Lemma wait_log r gg thr c st x :
  Notify.islot r gg c x -> wait_at r gg thr st x ->
  Notify.outside (Notify.waiter (gg x.2)) /\ noted st <= length (Notify.get_log _ r x.1).
Proof.
  intros Hi Hw. destruct st as [k|w k|w k t]; cbn [wait_at noted] in *; [done|destruct Hw as (? & ? & _); split; [by left|done]|].
  destruct Hw as [Hw _]. split; [right; by eexists _, _|]. by apply (Notify.si_parked _ _ _ _ Hi w).
Qed.

Lemma producing_stable p h st : stable (rely 0) (producing p h st).
Proof.
  intros x x' [Hi Hh Hw (r & Hr & Hle & Hful) Hs Hwt] Hm. simpl in Hm.
  destruct (Hm Hi) as [Hi' Hh' Hg' Hb' He' Hs' Ht']. split; try done.
  - congruence.
  - exists r. split_and!; [done|lia|done].
  - by rewrite Hs'.
  - by eapply wait_env.
Qed.

(** ** Producer operations *)

(** Elements written past the published ones, not yet published. *)
Definition staged (h vs : list T) (x : config) : Prop :=
  forall k v, vs !! k = Some v -> buffer x.1 !! ((length h + k) mod N) = Some (Some v).

Definition staging (p : Producer) (h vs : list T) (n : nat) (st : wait_state) (x : config) : Prop :=
  producing p h st x /\ staged h vs x /\
  exists r, p_cached_read p = wrap (Z.of_nat r) /\ r <= got x.2 /\ length h + n <= r + N.

Lemma staging_stable p h vs n st : stable (rely 0) (staging p h vs n st).
Proof.
  intros x x' (Hp & Hs & r & Hr & Hg & Hn) Hm. split_and!.
  - by eapply producing_stable.
  - simpl in Hm. intros k v Hk. rewrite (cm_buffer _ _ (Hm (pr_inv _ _ _ _ Hp))). by apply Hs.
  - simpl in Hm. pose proof (cm_got _ _ (Hm (pr_inv _ _ _ _ Hp))). exists r. split_and!; [done|lia..].
Qed.

(** Writing into the free region keeps the invariant. *)
Lemma inv_set_buffer s g b :
  inv (s, g) -> length b = length (buffer s) ->
  (forall i, got g <= i < length (hist g) -> b !! (i mod N) = buffer s !! (i mod N)) ->
  inv (set_buffer b s, g).
Proof.
  intros [[Hl Hw Hr Hg Hd] Hc Hp Hci Hpi] Hlen Hsame. split; try done.
  split; simpl in *; [congruence|done|done|done|]. intros i Hi. rewrite Hsame by done. by apply Hd.
Qed.

Lemma producer_move_buffer s g b : inv (set_buffer b s, g) -> producer_move (s, g) (set_buffer b s, g).
Proof. intros Hi. by split. Qed.

Lemma inserts_far (b : list (option T)) i (vs : list (option T)) j :
  j < i \/ i + length vs <= j -> list_inserts i vs b !! j = b !! j.
Proof. intros [?|?]; [by apply list_lookup_inserts_lt|by apply list_lookup_inserts_ge]. Qed.

Lemma write_window a n k :
  a mod N + n <= N -> k < n -> (a + k) mod N = a mod N + k.
Proof.
  intros Hn Hk. pose proof N_pos. rewrite <-Nat.Div0.add_mod_idemp_l. apply Nat.mod_small. lia.
Qed.

Lemma wp_write_at p h vs1 vs2 n st Q x :
  staging p h vs1 n st x -> length vs1 + length vs2 <= n -> n <= N ->
  (length h + length vs1) mod N + length vs2 <= N ->
  (forall x', staging p h (vs1 ++ vs2) n st x' -> Q tt x') ->
  wp (rely 0) (guar 0) (write_at (Z.of_nat ((length h + length vs1) mod N)) vs2) Q x.
Proof.
  intros Hx Hlen Hn Hfit HQ. set (a := length h + length vs1) in *.
  eapply wp_act; [apply staging_stable|exact Hx|]. clear x Hx. intros s g Hx.
  pose proof Hx as (Hp & Hst & r0 & Hr0 & Hg0 & Hroom). pose proof Hp as [Hi Hh Hw Hr Hsg Hwt]. cbn [fst snd] in *.
  pose proof (inv_ring _ Hi) as [Hbl _ _ Hgot _]. cbn [fst snd] in *.
  rewrite Hbl, (proj2 (Z.leb_le _ _)) by lia. rewrite Nat2Z.id.
  set (b := list_inserts (a mod N) (Some <$> vs2) (buffer s)).
  assert (forall j, j < a -> a + length vs2 <= j + N -> b !! (j mod N) = buffer s !! (j mod N)) as Hfar.
  { intros j Hj1 Hj2. apply inserts_far. rewrite length_fmap.
    destruct (decide (j mod N < a mod N)) as [|Hge]; [by left|right].
    destruct (decide (j mod N < a mod N + length vs2)) as [Hlt|]; [exfalso|lia].
    apply (lap_ne j (a + (j mod N - a mod N))); [lia..|].
    rewrite (write_window a (length vs2)) by lia. lia. }
  assert (inv (set_buffer b s, g)) as Hi'.
  { apply inv_set_buffer; [done|apply length_inserts|]. intros i Hig. apply Hfar; subst a; rewrite <-Hh in *; lia. }
  eexists _, tt, g. split; [done|]. split; [intros _; by apply producer_move_buffer|].
  eapply wp_ret; [apply staging_stable| |exact HQ]. split_and!; [by destruct Hp; split| |by exists r0].
  intros k v [Hk|[Hk1 Hk2]]%lookup_app_Some; simpl.
  - rewrite Hfar; [by apply Hst| |]; apply lookup_lt_Some in Hk; subst a; lia.
  - pose proof (lookup_lt_Some _ _ _ Hk2) as Hk3.
    replace (length h + k) with (a + (k - length vs1)) by (subst a; lia).
    rewrite (write_window a (length vs2)) by lia.
    unfold b. rewrite list_lookup_inserts by (rewrite ?length_fmap, ?Hbl; lia).
    rewrite list_lookup_fmap. replace (a mod N + (k - length vs1) - a mod N) with (k - length vs1) by lia.
    by rewrite Hk2.
Qed.

(** Signalling the consumer, with nothing else in flight. *)
Lemma producer_signaller_move x x' :
  Notify.signaller_move consumer_ref cg c_same 0 x x' -> inv x -> producer_move x x'.
Proof.
  intros Hm Hi. pose proof Hm as [(Hb & Hwi & Hri & Hps & Hpl & Hh & Hg & Hpg & Hct & Hpt) Hst].
  split; try congruence; [| |by eapply Notify.signaller_move_env; [|apply Hi]].
  - destruct Hi as [[Hl Hw Hr Hgt Hd] Hc Hp Hci Hpi]. split.
    + split; try congruence. intros i. rewrite Hg, Hh, Hb. apply Hd.
    + by eapply (Notify.signaller_move_inv _ _ _ _ _ c_in).
    + unfold Notify.islot, p_cond. simpl in *. rewrite Hps, Hpl, Hpg, Hpt, Hg. exact Hp.
    + intros j Hj. rewrite (Notify.ss_others _ _ _ _ _ _ _ Hst) by done. by apply Hci.
    + intros j Hj. rewrite Hpg. by apply Hpi.
  - by rewrite Hh.
Qed.

(** Everything the producer knows except that it owes no signal. *)
Definition signalling (p : Producer) (h : list T) (st : wait_state) (x : config) : Prop :=
  inv x /\ hist x.2 = h /\ p_cached_write p = wrap (Z.of_nat (length h)) /\
  (exists r, p_cached_read p = wrap (Z.of_nat r) /\ r <= got x.2 /\ length h <= r + N) /\ p_wait st x.

Lemma wp_signal_consumer p h st Q x :
  signalling p h st x -> Notify.undecided (Notify.signallers (cg x.2) !! 0) ->
  (forall x', producing p h st x' -> Q tt x') ->
  wp (rely 0) (guar 0) (Notify.signal consumer_ref) Q x.
Proof.
  intros Hx Hu HQ. pose proof Hx as (Hi & _).
  apply (Notify.wp_signal _ _ _ _ _ c_in 0 (rely 0) (guar 0) (signalling p h st)); try done.
  - intros y y' Hm _ (Hiy & Hh & Hw & (r & Hr & Hg & Hl) & Hwt). simpl in Hm.
    destruct (Hm Hiy) as [Hi' Hh' Hg' Hb' He' Hs' Ht']. split; [apply Hi'|]. split; [|by rewrite Hs'].
    split_and!; [done|congruence|done| |by eapply wait_env]. exists r. split_and!; [done|lia|done].
  - intros y y' Hm _ (Hiy & _) _. by apply producer_signaller_move.
  - intros y y' Hm _ (Hiy & Hh & Hw & (r & Hr & Hg & Hl) & Hwt).
    pose proof (producer_signaller_move y y' Hm Hiy) as [Hi' Hg' _ _ _ _].
    destruct Hm as [(_ & _ & _ & Hps & Hpl & Hh' & _ & Hpg & _ & Hpt) _].
    split_and!; [done|congruence|done| |]. { exists r. split_and!; [done|lia|done]. }
    by eapply wait_same.
  - apply Hi.
  - intros x' (_ & (? & ? & ? & ? & ?) & ?). by apply HQ.
Qed.

Lemma wp_publish_push p h vs st Q x :
  staging p h vs (length vs) st x ->
  (forall x', producing (mkProducer (p_cached_read p) (wrap (Z.of_nat (length h + length vs)))) (h ++ vs) st x' ->
    Q tt x') ->
  wp (rely 0) (guar 0) (publish_push p (wrap (Z.of_nat (length h + length vs)))) Q x.
Proof.
  intros Hx HQ. eapply wp_act; [apply staging_stable|exact Hx|]. clear x Hx. intros s g Hx.
  pose proof Hx as ([Hi Hh Hw _ Hsg Hwt] & Hst & r & Hr & Hrg & Hroom). cbn [fst snd] in *.
  eexists _, tt, (mkRG (h ++ vs) (got g) (Notify.set_phase 0 (Some Notify.Owes) (Notify.holder (cg g)) (cg g))
    (pg g) (c_thr g) (p_thr g)). split; [done|].
  match goal with |- guar 0 _ ?y /\ _ => set (x' := y) end. assert (inv x') as Hi'.
  { pose proof Hi as [[Hl Hwx Hrx Hgt Hd] Hc Hp Hci Hpi]. split; try done.
    - split; cbn [x' fst snd set_write_index buffer write_index read_index hist got] in *;
        rewrite ?length_app; try done; [rewrite Hh in *; lia|].
      intros i Hig. destruct (decide (i < length h)) as [Hlt|Hge].
      + rewrite lookup_app_l by done. rewrite <-Hh. apply Hd. rewrite Hh. lia.
      + rewrite lookup_app_r by lia. destruct (lookup_lt_is_Some_2 vs (i - length h)) as [v Hv]; [lia|].
        rewrite Hv. replace i with (length h + (i - length h)) at 1 by lia. by apply Hst.
    - eapply Notify.publish; [exact Hc|by left].
    - intros j Hj. cbn [x' snd cg]. rewrite Notify.phase_ne by done. by apply Hci. }
  split.
  - intros _. split; try done; [exists vs; simpl; by rewrite Hh|].
    eapply Notify.publish_env; [done|done|by left|done].
  - apply (wp_signal_consumer (mkProducer (p_cached_read p) (wrap (Z.of_nat (length h + length vs)))) (h ++ vs) st);
      [|right; apply Notify.phase_eq|done].
    split_and!; [done|done|by rewrite length_app| |done]. exists r. rewrite length_app. by split_and!.
Qed.

(** Giving up when the buffer is seen to be full: an armed producer parks. *)
Definition park_ghost (st : wait_state) (g : ring_ghost) : ring_ghost :=
  match st with
  | Armed w k => mkRG (hist g) (got g) (cg g) (Notify.set_waiter (Notify.Parked w k) (pg g)) (c_thr g) (got g)
  | _ => g
  end.

Lemma park_producer p h st s g :
  producing p h st (s, g) ->
  producer_move (s, g) (s, park_ghost st g) /\
  (forall p', p_cached_write p' = p_cached_write p -> p_cached_read p' = wrap (Z.of_nat (got g)) ->
    producing p' h (yielded st (got g)) (s, park_ghost st g)).
Proof.
  intros [Hi Hh Hw Hr Hsg Hwt]. pose proof (ro_got _ (inv_ring _ Hi)) as Hgot. cbn [fst snd] in *.
  assert (inv (s, park_ghost st g)) as Hi'.
  { destruct st as [k|w k|w k thr]; try done. destruct Hi as [[] Hc Hp Hci Hpi]. split; try done.
    cbn [wait_at fst snd] in Hwt. destruct Hwt as (Hid & Hk & Hok). apply Notify.park; try done.
    - eapply Notify.slot_inv_mono; [|exact Hp]. unfold p_cond. simpl. lia.
    - by left.
    - unfold p_cond. simpl. lia. }
  split.
  - destruct st; by split.
  - intros p' Hpw Hpr. split; try done.
    + by destruct st.
    + congruence.
    + exists (got g). split_and!; [done|by destruct st|rewrite Hh in Hgot; lia].
    + by destruct st.
    + pose proof (wait_log _ _ _ _ _ _ (inv_p _ Hi) Hwt). by destruct st.
Qed.

Lemma producing_sub p h st x r :
  producing p h st x -> p_cached_read p = wrap (Z.of_nat r) -> r <= got x.2 -> length h <= r + N ->
  wrapping_sub (p_cached_write p) (p_cached_read p) = (Z.of_nat (length h) - Z.of_nat r)%Z.
Proof.
  intros [Hi Hh Hw _ _ _] Hr Hle Hful. rewrite Hw, Hr. apply wrapping_sub_wrap.
  pose proof (ro_got _ (inv_ring _ Hi)) as Hg. rewrite Hh in Hg. pose proof N_small. lia.
Qed.

(** Reading the consumer's index: nothing changes but what the producer caches. *)
Lemma producing_refresh p h st s g :
  producing p h st (s, g) ->
  producing (mkProducer (wrap (Z.of_nat (got g))) (p_cached_write p)) h st (s, g) /\
  read_index s = wrap (Z.of_nat (got g)) /\ length h <= got g + N.
Proof.
  intros [Hi Hh Hw Hr Hsg Hwt]. pose proof (ro_got _ (inv_ring _ Hi)) as Hg. cbn [fst snd] in *. rewrite Hh in Hg.
  split_and!; [|apply (ro_read _ (inv_ring _ Hi))|lia]. split; try done. exists (got g). split_and!; [done..|lia].
Qed.

Lemma inv_still x : inv x -> producer_move x x.
Proof. intros Hi. by split. Qed.

(** The successful end of [try_push]. *)
Lemma wp_push_go p h st v Q x :
  staging p h [] 1 st x ->
  (forall p' x', producing p' (h ++ [v]) st x' -> Q (p', @ROk unit T tt) x') ->
  wp (rely 0) (guar 0)
    (_ ← write_at (Z.land (p_cached_write p) mask) [v];
     let p := mkProducer (p_cached_read p) (wrapping_add (p_cached_write p) 1) in
     _ ← publish_push p (p_cached_write p);
     Ret (p, @ROk unit T tt)) Q x.
Proof.
  intros Hx HQ. pose proof Hx as ([_ _ Hw _ _ _] & _ & _). rewrite Hw. apply wp_bind.
  pose proof (slot_index (length h)) as Hidx. pose proof (index_bound (length h)). pose proof N_pos.
  assert (Z.land (wrap (Z.of_nat (length h))) mask = Z.of_nat ((length h + length ([] : list T)) mod N)) as ->.
  { simpl. rewrite Nat.add_0_r, <-Hidx, Z2Nat.id by lia. done. }
  apply (wp_write_at p h [] [v] 1 st); [done|simpl; lia|lia| |].
  { simpl. pose proof (Nat.mod_upper_bound (length h + 0) N). lia. }
  simpl app. clear x Hx. intros x Hx. cbn zeta. cbn [p_cached_write]. rewrite wrapping_add_wrap.
  replace (Z.of_nat (length h) + 1)%Z with (Z.of_nat (length h + length [v])) by (simpl; lia). apply wp_bind.
  eapply (wp_publish_push p h [v]); [exact Hx|]. intros x' Hx'.
  eapply wp_ret; [apply producing_stable|exact Hx'|]. intros y Hy. by apply HQ.
Qed.

Lemma wp_try_push p h st v Q x :
  producing p h st x ->
  (forall p' x', producing p' (h ++ [v]) st x' -> Q (p', ROk tt) x') ->
  (forall p' r x', producing p' h (yielded st r) x' -> p_cached_read p' = wrap (Z.of_nat r) ->
    length h = r + N -> Q (p', RErr v) x') ->
  wp (rely 0) (guar 0) (try_push p v) Q x.
Proof.
  intros Hx Hok Herr. pose proof (pr_read _ _ _ _ Hx) as (r & Hr & Hrg & Hful).
  unfold try_push. rewrite (producing_sub p h st x r) by done. pose proof N_capacity.
  case_tests; cycle 1.
  { apply (wp_push_go p h st v); [|done]. split_and!; [done|by intros ? ? ?|]. exists r. split_and!; [done..|lia]. }
  eapply wp_act; [apply producing_stable|exact Hx|]. clear x Hx Hrg. intros s g Hx.
  destruct (producing_refresh p h st s g Hx) as (Hx' & Hrd & Hle).
  destruct (park_producer p h st s g Hx) as (Hmv & Hpark).
  pose proof (producing_sub _ _ _ _ (got g) Hx' eq_refl (le_n _) Hle) as Hsub.
  cbn [p_cached_write p_cached_read] in Hsub.
  exists s, (read_index s). destruct (decide (length h = got g + N)) as [Heq|Hne].
  - exists (park_ghost st g). split; [done|]. split; [by intros _|]. rewrite Hrd, Hsub.
    rewrite (proj2 (Z.leb_le _ _)) by lia.
    eapply wp_ret; [apply producing_stable|by apply (Hpark (mkProducer (wrap (Z.of_nat (got g))) (p_cached_write p)))|]. intros y Hy. by eapply Herr.
  - exists g. split; [done|]. split; [intros _; apply inv_still, Hx|]. rewrite Hrd, Hsub.
    rewrite (proj2 (Z.leb_gt _ _)) by lia. apply (wp_push_go (mkProducer _ _) h st v); [|done].
    split_and!; [done|by intros ? ? ?|]. exists (got g). split_and!; [done..|lia].
Qed.

Lemma land_slot (i : nat) : Z.land (wrap (Z.of_nat i)) mask = Z.of_nat (i mod N).
Proof. pose proof (index_bound i). rewrite <-slot_index, Z2Nat.id by lia. done. Qed.

(** The part of a slice before the end of the storage, and the rest. *)
Lemma wrap_around a n :
  n <= N -> let c := Nat.min (N - a mod N) n in
  a mod N + c <= N /\ (c < n -> (a + c) mod N = 0 /\ n - c <= N).
Proof.
  intros Hn c. pose proof N_pos. pose proof (Nat.mod_upper_bound a N). split; [lia|]. intros Hc. split; [|lia].
  rewrite <-Nat.Div0.add_mod_idemp_l. replace (a mod N + c) with N by lia. apply Nat.Div0.mod_same.
Qed.

Lemma wp_push_slice_go p h st items a r Q x :
  producing p h st x -> p_cached_read p = wrap (Z.of_nat r) -> r <= got x.2 -> length h + a <= r + N ->
  let n := Nat.min (length items) a in
  (forall p' x', producing p' (h ++ take n items) st x' -> p_cached_read p' = wrap (Z.of_nat r) -> Q (p', n) x') ->
  wp (rely 0) (guar 0) (push_slice_go p items (Z.of_nat a)) Q x.
Proof.
  intros Hx Hr Hrg Ha n HQ. pose proof (pr_write _ _ _ _ Hx) as Hw. unfold push_slice_go.
  pose proof (ro_got _ (inv_ring _ (pr_inv _ _ _ _ Hx))) as Hgt. rewrite (pr_hist _ _ _ _ Hx) in Hgt.
  replace (Z.min (Z.of_nat (length items)) (Z.of_nat a)) with (Z.of_nat n) by lia.
  rewrite Hw, land_slot. pose proof N_capacity. pose proof (Nat.mod_upper_bound (length h) N).
  assert (n <= N) as HnN by lia. destruct (wrap_around (length h) n HnN) as [Hfit Hrest]. pose proof N_pos.
  set (c := Nat.min (N - length h mod N) n) in *.
  replace (Z.min (capacity - Z.of_nat (length h mod N)) (Z.of_nat n)) with (Z.of_nat c) by lia.
  assert (staging p h [] n st x) as Hs.
  { split_and!; [done|by intros ? ? ?|]. exists r. split_and!; [done..|lia]. }
  assert (length (take c items) = c) as Hlc by (rewrite length_take; lia).
  rewrite !Nat2Z.id. apply wp_bind. replace (length h mod N) with ((length h + length ([] : list T)) mod N)
    by (simpl; by rewrite Nat.add_0_r).
  apply (wp_write_at p h [] (take c items) n st); [done|simpl; lia|lia|simpl; rewrite Nat.add_0_r; lia|].
  clear x Hx Hs Hrg Hgt. simpl app. intros x Hx. apply wp_bind.
  assert (forall x', staging p h (take n items) n st x' ->
    wp (rely 0) (guar 0)
      (_ ← publish_push (mkProducer (p_cached_read p) (wrapping_add (wrap (Z.of_nat (length h))) (Z.of_nat n)))
           (wrapping_add (wrap (Z.of_nat (length h))) (Z.of_nat n));
       Ret (mkProducer (p_cached_read p) (wrapping_add (wrap (Z.of_nat (length h))) (Z.of_nat n)), n)) Q x') as Hpub.
  { clear x Hx. intros x Hx. rewrite wrapping_add_wrap, <-Nat2Z.inj_add.
    assert (length (take n items) = n) as Hln by (rewrite length_take; lia).
    rewrite <-Hln in Hx at 2. rewrite <-Hln at 2. apply wp_bind.
    eapply (wp_publish_push p h (take n items)); [exact Hx|]. intros x' Hx'. rewrite Hln in *.
    eapply wp_ret; [apply producing_stable|exact Hx'|]. intros y Hy. by apply HQ. }
  destruct (Z.of_nat c <? Z.of_nat n)%Z eqn:Hcn; bool_props.
  - destruct Hrest as [Hz Hle]; [lia|]. replace (Z.to_nat (Z.of_nat n - Z.of_nat c)) with (n - c) by lia.
    replace 0%Z with (Z.of_nat ((length h + length (take c items)) mod N)) by (rewrite Hlc; lia).
    assert (length (take (n - c) (drop c items)) = n - c) as Hl2 by (rewrite length_take, length_drop; lia).
    apply (wp_write_at p h (take c items) (take (n - c) (drop c items)) n st); [done|lia|lia|rewrite Hlc; lia|].
    intros x' Hx'. rewrite take_take_drop in Hx'. replace (c + (n - c)) with n in Hx' by lia. by apply Hpub.
  - eapply wp_ret; [apply staging_stable|exact Hx|]. intros y Hy. replace c with n in Hy by lia. by apply Hpub.
Qed.

Lemma producing_unpark p h st k x :
  producing p h st x -> k <= length (producer_log x.1) -> producing p h (NotArmed k) x.
Proof. intros [Hi Hh Hw Hr Hs Hwt] Hk. split; try done. split; [|done]. by eapply wait_log; [apply Hi|]. Qed.

Lemma producing_available p h st x r :
  producing p h st x -> p_cached_read p = wrap (Z.of_nat r) -> r <= got x.2 -> length h <= r + N ->
  saturating_sub capacity (wrapping_sub (p_cached_write p) (p_cached_read p)) = Z.of_nat (r + N - length h).
Proof.
  intros Hx Hr Hg Hl. rewrite (producing_sub p h st x r) by done. unfold saturating_sub. pose proof N_capacity. lia.
Qed.

(** The producer's view is full: it will look at the consumer's index next. *)
Definition sees_full (p : Producer) (h : list T) (r : nat) : Prop :=
  p_cached_read p = wrap (Z.of_nat r) /\ length h = r + N.

(** Before the attempt of [try_push_slice]: an armed producer sees the buffer full. *)
Definition slice_ready (p : Producer) (h : list T) (st : wait_state) : Prop :=
  match st with
  | NotArmed _ => True
  | Armed _ _ => exists r, sees_full p h r
  | IsParked _ _ _ => False
  end.

Lemma wp_try_push_slice p h st items Q x :
  producing p h st x -> items <> [] -> slice_ready p h st ->
  (forall p' x', producing p' (h ++ items) st x' -> Q (p', length items) x') ->
  (forall p' n r x', producing p' (h ++ take n items) (yielded st r) x' -> n < length items ->
    sees_full p' (h ++ take n items) r -> Q (p', n) x') ->
  wp (rely 0) (guar 0) (try_push_slice p items) Q x.
Proof.
  intros Hx Hne Hready Hall Hpart.
  assert (forall p st' r x, producing p h st' x -> p_cached_read p = wrap (Z.of_nat r) -> r <= got x.2 ->
    length h <= r + N -> st' = (if decide (length items <= r + N - length h) then st else yielded st r) ->
    wp (rely 0) (guar 0) (push_slice_go p items (Z.of_nat (r + N - length h))) Q x) as Hgo.
  { clear p x Hx Hready. intros p st' r x Hx Hr Hrg Hful Hst.
    apply (wp_push_slice_go p h st' items (r + N - length h) r); [done|done|done|lia|].
    intros p' x' Hx' Hr'. case_decide as Hd; subst st'.
    - replace (Nat.min _ _) with (length items) in * by lia. rewrite firstn_all in Hx'. by apply Hall.
    - apply (Hpart p' _ r); [done|lia|]. split; [done|]. rewrite length_app, length_take. lia. }
  pose proof (pr_read _ _ _ _ Hx) as (r & Hr & Hrg & Hful).
  unfold try_push_slice. destruct items as [|v0 items0] eqn:Hitems; [done|]. rewrite <-Hitems in *.
  rewrite (producing_available p h st x r) by done.
  destruct (Z.of_nat (r + N - length h) =? 0)%Z eqn:Hz; bool_props; cycle 1.
  { apply (Hgo p st); try done. case_decide as Hd; [done|]. destruct st as [k|w k|w k thr]; [done| |done].
    destruct Hready as (r' & Hr' & Hl'). exfalso. destruct Hx as [Hi Hh Hw _ _ _].
    pose proof (ro_got _ (inv_ring _ Hi)) as Hg. rewrite Hh in Hg. rewrite Hr in Hr'.
    symmetry in Hr'. apply wrap_inj in Hr'; [lia|]. pose proof N_small. lia. }
  eapply wp_act; [apply producing_stable|exact Hx|]. clear x Hx Hrg. intros s g Hx.
  destruct (producing_refresh p h st s g Hx) as (Hx' & Hrd & Hle).
  destruct (park_producer p h st s g Hx) as (Hmv & Hpark).
  pose proof (producing_available _ _ _ _ (got g) Hx' eq_refl (le_n _) Hle) as Hav.
  cbn [p_cached_write p_cached_read] in Hav. rewrite Hrd.
  set (p1 := mkProducer (wrap (Z.of_nat (got g))) (p_cached_write p)) in *.
  set (a := got g + N - length h) in *.
  exists s, (wrap (Z.of_nat (got g))). destruct (decide (length items <= a)) as [Hfit|Hfit].
  - exists g. split; [done|]. split; [intros _; apply inv_still, Hx|]. rewrite Hav.
    rewrite (proj2 (Z.eqb_neq _ _)) by (destruct items; simpl in *; [done|lia]).
    apply (Hgo p1 st (got g)); try done. by rewrite decide_True.
  - exists (park_ghost st g). split; [done|]. split; [intros _; exact Hmv|]. rewrite Hav.
    specialize (Hpark p1 eq_refl eq_refl). destruct (Z.of_nat a =? 0)%Z eqn:Ha; bool_props.
    + eapply wp_ret; [apply producing_stable|exact Hpark|]. intros y Hy.
      apply (Hpart _ 0 (got g)); rewrite ?take_0, ?app_nil_r; [done|lia|]. split; [done|lia].
    + apply (Hgo p1 (yielded st (got g)) (got g)); try done; [by destruct st|by rewrite decide_False].
Qed.
(** Arming and disarming the producer's slot. *)
Lemma producer_waiter_move x x' :
  Notify.waiter_move producer_ref pg p_same x x' -> inv x -> producer_move x x'.
Proof.
  intros Hm Hi. pose proof Hm as [(Hb & Hwi & Hri & Hcs & Hcl & Hh & Hg & Hcg & Hct & Hpt) Hst].
  split; try congruence; [|by rewrite Hh|by apply Notify.still_env|apply Hst].
  destruct Hi as [[Hl Hw Hr Hgt Hd] Hc Hp Hci Hpi]. split.
  - split; try congruence. intros i. rewrite Hg, Hh, Hb. apply Hd.
  - unfold Notify.islot, c_cond. simpl in *. rewrite Hcs, Hcl, Hcg, Hct, Hh. exact Hc.
  - by eapply (Notify.waiter_move_inv _ _ _ _ _ p_in).
  - intros j Hj. rewrite Hcg. by apply Hci.
  - intros j Hj. rewrite (Notify.ws_signallers _ _ _ _ _ _ Hst). by apply Hpi.
Qed.

(** Everything the producer knows except how it waits. *)
Definition owning (p : Producer) (h : list T) (x : config) : Prop :=
  inv x /\ hist x.2 = h /\ p_cached_write p = wrap (Z.of_nat (length h)) /\
  (exists r, p_cached_read p = wrap (Z.of_nat r) /\ r <= got x.2 /\ length h <= r + N) /\
  Notify.signallers (cg x.2) !! 0 = None.

Lemma producing_owning p h st x : producing p h st x <-> owning p h x /\ p_wait st x.
Proof. split; [intros []; by split_and!|intros [(? & ? & ? & ? & ?) ?]; by split]. Qed.

Lemma owning_env p h x x' :
  rely 0 x x' -> p_slot x -> owning p h x ->
  p_slot x' /\ owning p h x' /\ Notify.waiter_env producer_ref pg x x'.
Proof.
  intros Hm _ (Hi & Hh & Hw & (r & Hr & Hrg & Hl) & Hs). simpl in Hm.
  destruct (Hm Hi) as [Hi' Hh' Hg' Hb' He' Hs' Ht']. split_and!; [apply Hi'| |done].
  split_and!; [done|congruence|done| |by rewrite Hs']. exists r. split_and!; [done|lia|done].
Qed.

Lemma owning_move p h x x' :
  Notify.waiter_move producer_ref pg p_same x x' -> p_slot x -> owning p h x -> owning p h x'.
Proof.
  intros Hm _ (Hi & Hh & Hw & (r & Hr & Hrg & Hl) & Hs).
  pose proof (producer_waiter_move x x' Hm Hi) as [Hi' Hg' _ _ _ _].
  destruct Hm as [(_ & _ & _ & _ & _ & Hh' & _ & Hcg & _ & _) _].
  split_and!; [done|congruence|done| |by rewrite Hcg]. exists r. split_and!; [done|lia|done].
Qed.

Lemma owning_guar p h x x' :
  Notify.waiter_move producer_ref pg p_same x x' -> p_slot x -> owning p h x -> guar 0 x x'.
Proof. intros Hm _ _ Hi. by apply producer_waiter_move. Qed.

Lemma wp_arm_producer p h k w Q x :
  producing p h (NotArmed k) x -> (forall x', producing p h (Armed w k) x' -> Q tt x') ->
  wp (rely 0) (guar 0) (Notify.arm producer_ref w) Q x.
Proof.
  intros [Hx [Hout Hk]]%producing_owning HQ.
  apply (Notify.wp_arm _ _ _ _ _ p_in _ _ (owning p h) (owning_env p h) (owning_guar p h) (owning_move p h) k);
    [apply Hx|done..|].
  intros x' [(_ & ? & ? & ?) ?]. apply HQ, producing_owning. by split_and!.
Qed.

Lemma wp_disarm_producer p h w k Q x :
  producing p h (Armed w k) x -> (forall x', producing p h (NotArmed k) x' -> Q tt x') ->
  wp (rely 0) (guar 0) (Notify.disarm producer_ref) Q x.
Proof.
  intros [Hx (Hid & Hk & _)]%producing_owning HQ.
  apply (Notify.wp_disarm _ _ _ _ _ p_in _ _ (owning p h) (owning_env p h) (owning_guar p h) (owning_move p h) k).
  - split_and!; [apply Hx|done..].
  - intros x' (_ & ? & Hi & ?). apply HQ, producing_owning. split; [done|]. split; [by left|done].
Qed.

(** *** Futures *)
Lemma wp_poll_push p h k v w Q x :
  producing p h (NotArmed k) x ->
  (forall p' x', producing p' (h ++ [v]) (NotArmed k) x' -> Q (p', None, Ready tt) x') ->
  (forall p' r x', producing p' h (IsParked w k r) x' -> length h = r + N -> Q (p', Some v, Pending) x') ->
  wp (rely 0) (guar 0) (poll_push p (Some v) w) Q x.
Proof.
  intros Hx Hready Hpend. apply wp_bind. apply (wp_try_push p h (NotArmed k)); [done|..].
  { intros p' x' Hx'. eapply wp_ret; [apply producing_stable|exact Hx'|]. intros y Hy. by apply Hready. }
  clear p x Hx. intros p r x Hx _ _. simpl in Hx. clear r. apply wp_bind. apply (wp_arm_producer p h k); [done|]. clear x Hx. intros x Hx.
  apply wp_bind. apply (wp_try_push p h (Armed w k)); [done|..].
  - clear p x Hx. intros p x Hx. apply wp_bind. apply (wp_disarm_producer p (h ++ [v]) w k); [done|]. intros x' Hx'.
    eapply wp_ret; [apply producing_stable|exact Hx'|]. intros y Hy. by apply Hready.
  - intros p' r x' Hx' _ Hl. eapply wp_ret; [apply producing_stable|exact Hx'|]. intros y Hy. by eapply Hpend.
Qed.

(** The slice future between polls: something is left to push. *)
Definition slice_left (f : PushSliceFuture) : Prop := pushed_so_far f < length (ps_items f).

Lemma wp_poll_push_slice p h k f w Q x :
  slice_left f ->
  producing p (h ++ take (pushed_so_far f) (ps_items f)) (NotArmed k) x ->
  (forall p' f' x', producing p' (h ++ ps_items f) (NotArmed k) x' -> ps_items f' = ps_items f ->
    pushed_so_far f' = length (ps_items f) -> Q (p', f', Ready tt) x') ->
  (forall p' f' r x', producing p' (h ++ take (pushed_so_far f') (ps_items f)) (IsParked w k r) x' ->
    ps_items f' = ps_items f -> slice_left f' -> ps_progress f' = pushed_so_far f' ->
    length (h ++ take (pushed_so_far f') (ps_items f)) = r + N -> Q (p', f', Pending) x') ->
  wp (rely 0) (guar 0) (poll_push_slice p f w) Q x.
Proof.
  intros Hleft Hx Hready Hpend. unfold slice_left in *. destruct f as [items so_far progress]. simpl in *.
  assert (forall n, so_far + n <= length items ->
    (h ++ take so_far items) ++ take n (drop so_far items) = h ++ take (so_far + n) items) as Hstep.
  { intros n Hn. by rewrite <-app_assoc, take_take_drop. }
  apply wp_bind. pose proof (length_drop items so_far) as Hdl. cbn [pushed_so_far ps_items ps_progress].
  apply (wp_try_push_slice p (h ++ take so_far items) (NotArmed k)); [done| |done|..].
  { intros Hnil. rewrite Hnil in Hdl. simpl in Hdl. lia. }
  { intros p' x' Hx'. rewrite Hdl. rewrite (proj2 (Nat.ltb_lt _ _)), (proj2 (Nat.eqb_eq _ _)) by lia. cbn [andb].
    eapply wp_ret; [apply producing_stable|exact Hx'|]. intros y Hy. rewrite <-app_assoc, take_drop in Hy.
    apply Hready; [done|done|simpl; lia]. }
  clear p x Hx. intros p n r x Hx Hn Hfull. rewrite Hdl in Hn. rewrite Hstep in Hx, Hfull by lia.
  rewrite (proj2 (Nat.eqb_neq (so_far + n) _)), andb_false_r by lia. clear Hdl Hstep progress Hleft.
  set (sf := so_far + n) in *. pose proof (length_drop items sf) as Hdl.
  apply wp_bind. apply (wp_arm_producer p (h ++ take sf items) k); [done|]. clear x Hx. intros x Hx. apply wp_bind.
  apply (wp_try_push_slice p (h ++ take sf items) (Armed w k)); [done| |by exists r|..].
  { intros Hnil. rewrite Hnil in Hdl. simpl in Hdl. lia. }
  - clear p r x Hx Hfull. intros p x Hx. rewrite Hdl. rewrite (proj2 (Nat.ltb_lt _ _)), (proj2 (Nat.eqb_eq _ _)) by lia.
    rewrite <-app_assoc, take_drop in Hx. cbn [andb].
    apply wp_bind. apply (wp_disarm_producer p (h ++ items) w k); [done|]. intros x' Hx'.
    eapply wp_ret; [apply producing_stable|exact Hx'|]. intros y Hy. apply Hready; [done|done|simpl; lia].
  - clear p r x Hx Hfull. intros p m r x Hx Hm [Hr Hl]. rewrite Hdl in Hm.
    rewrite (proj2 (Nat.eqb_neq (sf + m) _)), andb_false_r by lia.
    rewrite <-app_assoc, take_take_drop in Hx, Hl.
    eapply wp_ret; [apply producing_stable|exact Hx|]. intros y Hy. by apply (Hpend _ _ r); [..|simpl; lia| |].
Qed.
(** The producer after an operation: parked on a full buffer, or not parked. *)
Definition settled (p : Producer) (h : list T) (pk : parking) (x : config) : Prop :=
  match pk with
  | None => producing p h (NotArmed 0) x
  | Some (w, k) => exists r, producing p h (IsParked w k r) x /\ length h = r + N
  end.

Lemma settled_stable p h pk : stable (rely 0) (settled p h pk).
Proof.
  intros x x' Hx Hr. destruct pk as [[w k]|]; simpl in *; [|by eapply producing_stable].
  destruct Hx as (r & Hx & Hl). exists r. split; [by eapply producing_stable|done].
Qed.

Lemma producing_idle p h st x : producing p h st x -> producing p h (NotArmed 0) x.
Proof. intros Hx. eapply producing_unpark; [exact Hx|lia]. Qed.

Lemma settled_none p h st x : producing p h st x -> settled p h None x.
Proof. apply producing_idle. Qed.

Lemma settled_idle p h pk x : settled p h pk x -> producing p h (NotArmed 0) x.
Proof. destruct pk as [[w k]|]; simpl; [|done]. intros (r & Hx & _). by eapply producing_idle. Qed.

(** The executor notes how many wakers have been fired. *)
Lemma wp_note_producer {A} p h st (f : nat -> prog RingBufferShared A) Q x :
  producing p h st x -> (forall k x', producing p h (NotArmed k) x' -> wp (rely 0) (guar 0) (f k) Q x') ->
  wp (rely 0) (guar 0) (k ← load (fun s => length (producer_log s)); f k) Q x.
Proof.
  intros Hx Hf. eapply wp_act; [apply producing_stable|exact Hx|]. intros s g Hy.
  eexists s, _, g. split; [done|]. split; [intros _; apply inv_still, Hy|]. eapply Hf, producing_unpark; [exact Hy|done].
Qed.

Lemma wp_drive_push p h v ws pk Q x :
  settled p h pk x ->
  (forall p' o pk' x', settled p' (h ++ match o with None => [v] | Some _ => [] end) pk' x' -> Q (p', o, pk') x') ->
  wp (rely 0) (guar 0) (drive_push p (Some v) ws pk) Q x.
Proof.
  revert p pk x. induction ws as [|w ws IH]; intros p pk x Hx HQ; cbn [drive_push].
  { eapply wp_ret; [apply settled_stable|exact Hx|]. intros y Hy. apply HQ. by rewrite app_nil_r. }
  apply settled_idle in Hx. eapply wp_note_producer; [exact Hx|]. clear x Hx pk. intros k x Hx. apply wp_bind.
  eapply wp_poll_push; [exact Hx|..].
  - intros p' x' Hx'. eapply wp_ret; [apply settled_stable|by eapply settled_none|]. intros y Hy. by apply HQ.
  - intros p' r x' Hx' Hl. apply IH; [by exists r|done].
Qed.

Lemma wp_push p h v ws Q x :
  producing p h (NotArmed 0) x ->
  (forall p' o pk x', settled p' (h ++ match o with None => [v] | Some _ => [] end) pk x' -> Q (p', o, pk) x') ->
  wp (rely 0) (guar 0) (push p v ws) Q x.
Proof.
  intros Hx HQ. apply wp_bind. eapply wp_try_push; [exact Hx|..].
  - intros p' x' Hx'. eapply wp_ret; [apply settled_stable|by eapply settled_none|]. intros y Hy. by apply HQ.
  - intros p' r x' Hx' _ _. by apply (wp_drive_push _ h).
Qed.

Lemma wp_drive_push_slice p h f ws pk Q x :
  slice_left f -> settled p (h ++ take (pushed_so_far f) (ps_items f)) pk x ->
  (forall p' f' pk' x', settled p' (h ++ take (pushed_so_far f') (ps_items f)) pk' x' -> Q (p', f', pk') x') ->
  wp (rely 0) (guar 0) (drive_push_slice p f ws pk) Q x.
Proof.
  revert p f pk x. induction ws as [|w ws IH]; intros p f pk x Hleft Hx HQ; cbn [drive_push_slice].
  { eapply wp_ret; [apply settled_stable|exact Hx|]. intros y Hy. by apply HQ. }
  apply settled_idle in Hx. eapply wp_note_producer; [exact Hx|]. clear x Hx pk. intros k x Hx. apply wp_bind.
  apply (wp_poll_push_slice p h k); [done|done|..].
  - intros p' f' x' Hx' Hi Hf. eapply wp_ret; [apply settled_stable|by eapply settled_none|].
    intros y Hy. apply HQ. rewrite Hf, firstn_all. done.
  - intros p' f' r x' Hx' Hi Hl Hp Hful. apply IH; [done|rewrite Hi; by exists r|]. rewrite Hi. done.
Qed.

Lemma wp_push_slice_counted p h items ws Q x :
  producing p h (NotArmed 0) x ->
  (forall p' f pk x', settled p' (h ++ take (pushed_so_far f) items) pk x' -> Q (p', f, pk) x') ->
  wp (rely 0) (guar 0) (push_slice_counted p items ws) Q x.
Proof.
  intros Hx HQ. unfold push_slice_counted. destruct items as [|v0 items0] eqn:Hitems; [|rewrite <-Hitems in *].
  { eapply wp_ret; [apply settled_stable|by eapply settled_none|]. intros y Hy. apply HQ. simpl. by rewrite app_nil_r. }
  apply wp_bind. apply (wp_try_push_slice p h (NotArmed 0)); [done|by rewrite Hitems|done|..].
  - intros p' x' Hx'. rewrite Nat.eqb_refl. eapply wp_ret; [apply settled_stable|by eapply settled_none|].
    intros y Hy. apply HQ. cbn [pushed_so_far]. by rewrite firstn_all.
  - intros p' n r x' Hx' Hn _. rewrite (proj2 (Nat.eqb_neq _ _)) by lia. by apply (wp_drive_push_slice p' h).
Qed.

(** [try_push_slice] outside of a poll, on any slice. *)
Lemma wp_try_push_slice_any p h items Q x :
  producing p h (NotArmed 0) x ->
  (forall p' n x', producing p' (h ++ take n items) (NotArmed 0) x' -> n <= length items -> Q (p', n) x') ->
  wp (rely 0) (guar 0) (try_push_slice p items) Q x.
Proof.
  intros Hx HQ. destruct items as [|v0 items0] eqn:Hvs; [|rewrite <-Hvs in *].
  { eapply wp_ret; [apply producing_stable|exact Hx|]. intros y Hy. apply HQ; [|done]. simpl. by rewrite app_nil_r. }
  eapply (wp_try_push_slice p h (NotArmed 0)); [exact Hx|by rewrite Hvs|done|..].
  - intros p' x' Hx'. apply HQ; [by rewrite firstn_all|done].
  - intros p' n r x' Hx' ? _. apply HQ; [done|lia].
Qed.

Lemma wp_io_write p h buf ws Q x :
  producing p h (NotArmed 0) x ->
  (forall p' o pk x', settled p' (h ++ take (default 0 o) buf) pk x' -> Q (p', o, pk) x') ->
  wp (rely 0) (guar 0) (io_write p buf ws) Q x.
Proof.
  intros Hx HQ. destruct buf as [|v rest]; unfold io_write.
  { eapply wp_ret; [apply settled_stable|by eapply settled_none|]. intros y Hy. apply HQ. by rewrite app_nil_r. }
  apply wp_bind. apply (wp_try_push_slice_any p h); [done|]. clear p x Hx. intros p n x Hx _.
  destruct (0 <? n) eqn:Hn; bool_props.
  { eapply wp_ret; [apply settled_stable|by eapply settled_none|]. intros y Hy. by apply HQ. }
  replace n with 0 in Hx by lia. simpl take in Hx. rewrite app_nil_r in Hx. apply wp_bind.
  apply (wp_push p h); [done|]. clear p x Hx. intros p [v'|] pk x Hx.
  { eapply wp_ret; [apply settled_stable|exact Hx|]. intros y Hy. by apply HQ. }
  apply settled_idle in Hx. apply wp_bind. apply (wp_try_push_slice_any p (h ++ [v])); [done|].
  clear p x Hx pk. intros p m x Hx _. rewrite <-app_assoc in Hx.
  eapply wp_ret; [apply settled_stable|by eapply settled_none|]. intros y Hy. by apply HQ.
Qed.

Lemma wp_free_count p h Q x :
  producing p h (NotArmed 0) x ->
  (forall p' n x', producing p' h (NotArmed 0) x' -> Q (p', n) x') ->
  wp (rely 0) (guar 0) (free_count p) Q x.
Proof.
  intros Hx HQ. eapply wp_act; [apply producing_stable|exact Hx|]. clear x Hx. intros s g Hx.
  destruct (producing_refresh p h _ s g Hx) as (Hx' & -> & Hle).
  pose proof (producing_sub _ _ _ _ (got g) Hx' eq_refl (le_n _) Hle) as Hsub. cbn [p_cached_write p_cached_read] in Hsub.
  pose proof (ro_got _ (inv_ring _ (pr_inv _ _ _ _ Hx))) as Hg. rewrite (pr_hist _ _ _ _ Hx) in Hg. pose proof N_capacity.
  eexists s, _, g. split; [done|]. split; [intros _; apply inv_still, Hx|]. cbn zeta. cbn [p_cached_write].
  eapply wp_act; [apply producing_stable|exact Hx'|]. intros s' g' Hy. rewrite Hsub.
  assert (sub_usize capacity (Z.of_nat (length h) - Z.of_nat (got g)) =
    Done (capacity - (Z.of_nat (length h) - Z.of_nat (got g)))%Z) as ->.
  { cbn [snd] in Hg. unfold sub_usize. rewrite (proj2 (Z.leb_le _ _)) by lia. done. }
  outcome_simpl. eexists s', _, g'. split; [done|]. split; [intros _; apply inv_still, Hy|].
  eapply wp_ret; [apply producing_stable|exact Hy|]. intros y Hz. by apply HQ.
Qed.

Lemma wp_producer_is_empty p h Q x :
  producing p h (NotArmed 0) x ->
  (forall p' b x', producing p' h (NotArmed 0) x' -> Q (p', b) x') ->
  wp (rely 0) (guar 0) (producer_is_empty p) Q x.
Proof.
  intros Hx HQ. eapply wp_act; [apply producing_stable|exact Hx|]. clear x Hx. intros s g Hx.
  destruct (producing_refresh p h _ s g Hx) as (Hx' & -> & _).
  eexists s, _, g. split; [done|]. split; [intros _; apply inv_still, Hx|].
  eapply wp_ret; [apply producing_stable|exact Hx'|]. intros y Hy. by apply HQ.
Qed.

Lemma wp_producer_step p h op Q x :
  producing p h (NotArmed 0) x ->
  (forall p' vs pk x', settled p' (h ++ vs) pk x' -> Q (p', vs, pk) x') ->
  wp (rely 0) (guar 0) (producer_step p op) Q x.
Proof.
  intros Hx HQ.
  assert (forall p' vs pk x', settled p' (h ++ vs) pk x' -> wp (rely 0) (guar 0) (Ret (p', vs, pk)) Q x') as Hend.
  { intros p' vs pk x' Hx'. eapply wp_ret; [apply settled_stable|exact Hx'|]. intros y Hy. by apply HQ. }
  destruct op as [v|vs|v ws|vs ws| | | |vs ws]; apply wp_bind.
  - eapply wp_try_push; [exact Hx|..].
    + intros p' x' Hx'. by apply Hend.
    + intros p' r x' Hx' _ _. apply Hend. by rewrite app_nil_r.
  - apply (wp_try_push_slice_any p h); [done|]. intros p' n x' Hx' _. by apply Hend.
  - apply (wp_push p h); [done|]. intros p' o pk x' Hx'. by apply Hend.
  - apply (wp_push_slice_counted p h); [done|]. intros p' f pk x' Hx'. by apply Hend.
  - apply (wp_free_count p h); [done|]. intros p' n x' Hx'. apply Hend. by rewrite app_nil_r.
  - apply (wp_producer_is_empty p h); [done|]. intros p' n x' Hx'. apply Hend. by rewrite app_nil_r.
  - apply wp_bind, (wp_free_count p h); [done|]. intros p' n x' Hx'.
    eapply wp_ret; [apply producing_stable|exact Hx'|]. intros y Hy. apply Hend. by rewrite app_nil_r.
  - apply (wp_io_write p h); [done|]. intros p' o pk x' Hx'. by apply Hend.
Qed.

Lemma wp_producer_thread p ops acc Q x :
  settled p acc.1 acc.2 x -> (forall p' res x', settled p' res.1 res.2 x' -> Q res x') ->
  wp (rely 0) (guar 0) (producer_thread p ops acc) Q x.
Proof.
  revert p acc x. induction ops as [|op ops IH]; intros p acc x Hx HQ; cbn [producer_thread].
  { eapply wp_ret; [apply settled_stable|exact Hx|]. intros y Hy. by eapply HQ. }
  apply wp_bind. eapply wp_producer_step; [by eapply settled_idle|]. intros p' vs pk x' Hx'. by eapply IH.
Qed.
(** ** Consumer operations *)

(** The consumer between operations: it has received exactly [out]. *)
Record consuming (c : Consumer) (out : list T) (st : wait_state) (x : config) : Prop := {
  co_inv : inv x;
  co_got : got x.2 = length out;
  co_out : out `prefix_of` hist x.2;
  co_read : c_cached_read c = wrap (Z.of_nat (length out));
  co_write : exists w, c_cached_write c = wrap (Z.of_nat w) /\ length out <= w <= length (hist x.2);
  co_sig : Notify.signallers (pg x.2) !! 1 = None;
  co_wait : c_wait st x
}.

Lemma consuming_stable c out st : stable (rely 1) (consuming c out st).
Proof.
  intros x x' [Hi Hg Ho Hr (w & Hw & Hle) Hs Hwt] Hm. simpl in Hm.
  destruct (Hm Hi) as [Hi' Hg' Hh' He' Hs' Ht']. split; try done.
  - congruence.
  - by etrans.
  - exists w. apply prefix_length in Hh'. split; [done|lia].
  - by rewrite Hs'.
  - by eapply wait_env.
Qed.

(** Elements read and not yet released; [m] are known to be published. *)
Definition fetching (c : Consumer) (out vs : list T) (m : nat) (st : wait_state) (x : config) : Prop :=
  consuming c out st x /\ out ++ vs `prefix_of` hist x.2 /\ m <= length (hist x.2).

Lemma fetching_stable c out vs m st : stable (rely 1) (fetching c out vs m st).
Proof.
  intros x x' (Hc & Hp & Hm) Hr. split; [by eapply consuming_stable|]. simpl in Hr.
  pose proof (pm_hist _ _ (Hr (co_inv _ _ _ _ Hc))) as Hh. split; [by etrans|]. apply prefix_length in Hh. lia.
Qed.

Lemma mapM_id_Some (l : list T) : mapM id (Some <$> l) = Some l.
Proof. induction l as [|v l IH]; [done|]. cbn. unfold mret, option_ret in *. by rewrite IH. Qed.

(** The slots of published and unconsumed elements hold them. *)
Lemma published_slots x a n :
  ring_ok x -> got x.2 <= a -> a + n <= length (hist x.2) -> a mod N + n <= N ->
  take n (drop (a mod N) (buffer x.1)) = Some <$> take n (drop a (hist x.2)).
Proof.
  intros [Hl _ _ Hg Hd] Ha Hn Hfit. apply list_eq. intros k. rewrite list_lookup_fmap.
  destruct (decide (k < n)) as [Hk|Hk].
  - rewrite !lookup_take_lt, !lookup_drop by done. rewrite <-(write_window a n) by done. rewrite Hd by lia.
    destruct (lookup_lt_is_Some_2 (hist x.2) (a + k)) as [v ->]; [lia|done].
  - rewrite !lookup_take_ge by lia. done.
Qed.

Lemma consumer_still x : inv x -> consumer_move x x.
Proof. intros Hi. by split. Qed.

Lemma wp_read_at c out vs m n st Q x :
  fetching c out vs m st x -> length (out ++ vs) + n <= m -> length (out ++ vs) mod N + n <= N ->
  (forall vs' x', fetching c out (vs ++ vs') m st x' -> length vs' = n -> Q vs' x') ->
  wp (rely 1) (guar 1) (read_at (Z.of_nat (length (out ++ vs) mod N)) n) Q x.
Proof.
  intros Hx Hm Hfit HQ. eapply wp_act; [apply fetching_stable|exact Hx|]. clear x Hx. intros s g Hx.
  pose proof Hx as (Hc & Hp & Hle). pose proof (inv_ring _ (co_inv _ _ _ _ Hc)) as Hok. cbn [fst snd] in *.
  assert (got g <= length (out ++ vs)) as Hga.
  { rewrite length_app. pose proof (co_got _ _ _ _ Hc) as Hg. simpl in Hg. lia. }
  rewrite Nat2Z.id. pose proof (published_slots (s, g) _ n Hok Hga) as Hseg. cbn [fst snd] in Hseg.
  rewrite Hseg, mapM_id_Some by lia.
  assert (length (take n (drop (length (out ++ vs)) (hist g))) = n) as Hlen by (rewrite length_take, length_drop; lia).
  rewrite Hlen, Nat.eqb_refl. eexists s, _, g. split; [done|].
  split; [intros _; apply consumer_still, Hc|].
  apply (wp_ret _ _ _ (fetching c out (vs ++ take n (drop (length (out ++ vs)) (hist g))) m st));
    [apply fetching_stable| |].
  - split_and!; [exact Hc| |exact Hle]. destruct Hp as [rest Hrest]. cbn [snd].
    rewrite Hrest, drop_app_length, app_assoc. apply prefix_app. exists (drop n rest). by rewrite take_drop.
  - intros y Hy. by apply HQ.
Qed.

(** Signalling the producer. *)
Lemma consumer_signaller_move x x' :
  Notify.signaller_move producer_ref pg p_same 1 x x' -> inv x -> consumer_move x x'.
Proof.
  intros Hm Hi. pose proof Hm as [(Hb & Hwi & Hri & Hcs & Hcl & Hh & Hg & Hcg & Hct & Hpt) Hst].
  split; try congruence; [|lia|by eapply Notify.signaller_move_env; [|apply Hi]].
  destruct Hi as [[Hl Hw Hr Hgt Hd] Hc Hp Hci Hpi]. split.
  - split; try congruence. intros i. rewrite Hg, Hh, Hb. apply Hd.
  - unfold Notify.islot, c_cond. simpl in *. rewrite Hcs, Hcl, Hcg, Hct, Hh. exact Hc.
  - by eapply (Notify.signaller_move_inv _ _ _ _ _ p_in).
  - intros j Hj. rewrite Hcg. by apply Hci.
  - intros j Hj. rewrite (Notify.ss_others _ _ _ _ _ _ _ Hst) by done. by apply Hpi.
Qed.

(** Everything the consumer knows except that it owes no signal. *)
Definition releasing (c : Consumer) (out : list T) (st : wait_state) (x : config) : Prop :=
  inv x /\ got x.2 = length out /\ out `prefix_of` hist x.2 /\ c_cached_read c = wrap (Z.of_nat (length out)) /\
  (exists w, c_cached_write c = wrap (Z.of_nat w) /\ length out <= w <= length (hist x.2)) /\ c_wait st x.

Lemma wp_signal_producer c out st Q x :
  releasing c out st x -> Notify.undecided (Notify.signallers (pg x.2) !! 1) ->
  (forall x', consuming c out st x' -> Q tt x') ->
  wp (rely 1) (guar 1) (Notify.signal producer_ref) Q x.
Proof.
  intros Hx Hu HQ. pose proof Hx as (Hi & _).
  apply (Notify.wp_signal _ _ _ _ _ p_in 1 (rely 1) (guar 1) (releasing c out st)); try done.
  - intros y y' Hm _ (Hiy & Hg & Ho & Hr & (w & Hw & Hle) & Hwt). simpl in Hm.
    destruct (Hm Hiy) as [Hi' Hg' Hh' He' Hs' Ht']. split; [apply Hi'|]. split; [|by rewrite Hs'].
    split_and!; [done|congruence|by etrans|done| |by eapply wait_env].
    exists w. apply prefix_length in Hh'. split; [done|lia].
  - intros y y' Hm _ (Hiy & _) _. by apply consumer_signaller_move.
  - intros y y' Hm _ (Hiy & Hg & Ho & Hr & (w & Hw & Hle) & Hwt).
    pose proof (consumer_signaller_move y y' Hm Hiy) as [Hi' _ _ _ _ _ _].
    destruct Hm as [(_ & _ & _ & Hcs & Hcl & Hh' & Hg' & Hcg & Hct & _) _].
    split_and!; [done|congruence|by rewrite Hh'|done| |by eapply wait_same].
    exists w. rewrite Hh'. done.
  - apply Hi.
  - intros x' (_ & (? & ? & ? & ? & ? & ?) & ?). by apply HQ.
Qed.

(** Releasing the slots of what was read. *)
Lemma wp_release {A} c out vs m st (k : prog RingBufferShared A) Q x :
  fetching c out vs m st x -> length (out ++ vs) <= m -> c_cached_write c = wrap (Z.of_nat m) ->
  (forall x', consuming (mkConsumer (wrap (Z.of_nat (length (out ++ vs)))) (c_cached_write c)) (out ++ vs) st x' ->
    wp (rely 1) (guar 1) k Q x') ->
  wp (rely 1) (guar 1)
    (_ ← store (set_read_index (wrap (Z.of_nat (length (out ++ vs))))); _ ← Notify.signal producer_ref; k) Q x.
Proof.
  intros Hx Hlm Hcw HQ. eapply wp_act; [apply fetching_stable|exact Hx|]. clear x Hx. intros s g Hx.
  pose proof Hx as ([Hi Hg Ho Hr Hw Hs Hwt] & Hp & Hle). cbn [fst snd] in *.
  eexists _, tt, (mkRG (hist g) (length (out ++ vs)) (cg g)
    (Notify.set_phase 1 (Some Notify.Owes) (Notify.holder (pg g)) (pg g)) (c_thr g) (p_thr g)). split; [done|].
  match goal with |- guar 1 _ ?y /\ _ => set (x' := y) end. assert (inv x') as Hi'.
  { pose proof Hi as [[Hl Hwx Hrx Hgt Hd] Hc Hpp Hci Hpi]. split; try done.
    - split; cbn [x' fst snd set_read_index buffer write_index read_index hist got] in *; try done.
      + rewrite length_app in *. lia.
      + intros i Hig. apply Hd. rewrite length_app in Hig. lia.
    - eapply Notify.publish; [exact Hpp|by left].
    - intros j Hj. cbn [x' snd pg]. rewrite Notify.phase_ne by done. by apply Hpi. }
  split.
  - intros _. split; try done; [simpl; rewrite length_app; lia|].
    eapply Notify.publish_env; [done|done|by left|done].
  - apply wp_bind. apply (wp_signal_producer (mkConsumer (wrap (Z.of_nat (length (out ++ vs)))) (c_cached_write c)) (out ++ vs) st);
      [|right; apply Notify.phase_eq|done].
    split_and!; try done. exists m. by split_and!.
Qed.
(** Giving up when the buffer is seen to be drained: an armed consumer parks. *)
Definition park_consumer_ghost (st : wait_state) (g : ring_ghost) : ring_ghost :=
  match st with
  | Armed w k =>
      mkRG (hist g) (got g) (Notify.set_waiter (Notify.Parked w k) (cg g)) (pg g) (length (hist g)) (p_thr g)
  | _ => g
  end.

Lemma park_consumer c out st s g :
  consuming c out st (s, g) ->
  consumer_move (s, g) (s, park_consumer_ghost st g) /\
  (forall c', c_cached_read c' = c_cached_read c -> c_cached_write c' = wrap (Z.of_nat (length (hist g))) ->
    consuming c' out (yielded st (length (hist g))) (s, park_consumer_ghost st g)).
Proof.
  intros [Hi Hg Ho Hr Hw Hsg Hwt]. pose proof (ro_got _ (inv_ring _ Hi)) as Hgot. cbn [fst snd] in *.
  assert (inv (s, park_consumer_ghost st g)) as Hi'.
  { destruct st as [k|w k|w k thr]; try done. destruct Hi as [[] Hc Hp Hci Hpi]. split; try done.
    cbn [wait_at fst snd] in Hwt. destruct Hwt as (Hid & Hk & Hok). apply Notify.park; try done.
    - eapply Notify.slot_inv_mono; [|exact Hc]. unfold c_cond. simpl. lia.
    - by left.
    - unfold c_cond. simpl. lia. }
  split.
  - destruct st; by split.
  - intros c' Hcr Hcw. split; try done; [by destruct st|by destruct st|congruence| |by destruct st|].
    + exists (length (hist g)). split; [done|]. destruct st; simpl; lia.
    + pose proof (wait_log _ _ _ _ _ _ (inv_c _ Hi) Hwt). by destruct st.
Qed.

Lemma consuming_sub c out st x w :
  consuming c out st x -> c_cached_write c = wrap (Z.of_nat w) -> length out <= w <= length (hist x.2) ->
  wrapping_sub (c_cached_write c) (c_cached_read c) = Z.of_nat (w - length out) /\
  (c_cached_read c = c_cached_write c <-> w = length out) /\ w <= length out + N.
Proof.
  intros [Hi Hg _ Hr _ _ _] Hw Hle. pose proof (ro_got _ (inv_ring _ Hi)) as Hgot. pose proof N_small.
  rewrite Hr, Hw. split_and!; [|split; [|by intros ->]|lia].
  - rewrite wrapping_sub_wrap by lia. lia.
  - intros Heq. apply wrap_inj in Heq; lia.
Qed.

Lemma consuming_refresh c out st s g :
  consuming c out st (s, g) ->
  consuming (mkConsumer (c_cached_read c) (wrap (Z.of_nat (length (hist g))))) out st (s, g) /\
  write_index s = wrap (Z.of_nat (length (hist g))) /\ length out <= length (hist g).
Proof.
  intros [Hi Hg Ho Hr Hw Hsg Hwt]. pose proof (prefix_length _ _ Ho). cbn [fst snd] in *.
  split_and!; [|apply (ro_write _ (inv_ring _ Hi))|done]. split; try done. exists (length (hist g)). done.
Qed.

(** The consumer's view is drained: it will look at the producer's index next. *)
Definition sees_empty (c : Consumer) (out : list T) : Prop := c_cached_write c = wrap (Z.of_nat (length out)).

Lemma wp_pop_go c out st w Q x :
  consuming c out st x -> c_cached_write c = wrap (Z.of_nat w) -> length out < w <= length (hist x.2) ->
  (forall c' v x', consuming c' (out ++ [v]) st x' -> Q (c', Some v) x') ->
  wp (rely 1) (guar 1)
    (vs ← read_at (Z.land (c_cached_read c) mask) 1;
     let c := mkConsumer (wrapping_add (c_cached_read c) 1) (c_cached_write c) in
     _ ← store (set_read_index (c_cached_read c));
     _ ← (if true then Notify.signal producer_ref else Ret tt);
     Ret (c, head vs)) Q x.
Proof.
  intros Hx Hw Hle HQ. rewrite (co_read _ _ _ _ Hx), land_slot. apply wp_bind. pose proof N_pos.
  assert (fetching c out [] w st x) as Hf.
  { split_and!; [done|rewrite app_nil_r; apply Hx|lia]. }
  replace (length out mod N) with (length (out ++ []) mod N) by by rewrite app_nil_r.
  pose proof (Nat.mod_upper_bound (length (out ++ [])) N).
  apply (wp_read_at c out [] w 1 st); [done|rewrite app_nil_r; lia|lia|].
  assert (length out < w) as Hlt by lia. clear x Hx Hf Hle. intros vs x Hx Hl. destruct vs as [|v [|]]; simpl in Hl; try lia.
  rewrite wrapping_add_wrap. replace (Z.of_nat (length out) + 1)%Z with (Z.of_nat (length (out ++ [v])))
    by (rewrite length_app; simpl; lia). cbn zeta. cbn [c_cached_read head].
  apply (wp_release c out [v] w st); [done|rewrite length_app; simpl; lia|done|]. intros x' Hx'.
  eapply wp_ret; [apply consuming_stable|exact Hx'|]. intros y Hy. by apply HQ.
Qed.

Lemma wp_try_pop c out st Q x :
  consuming c out st x ->
  (forall c' v x', consuming c' (out ++ [v]) st x' -> Q (c', Some v) x') ->
  (forall c' x', consuming c' out (yielded st (length out)) x' -> Q (c', None) x') ->
  wp (rely 1) (guar 1) (try_pop c) Q x.
Proof.
  intros Hx Hok Hnone. pose proof (co_write _ _ _ _ Hx) as (w & Hw & Hle). unfold try_pop, try_pop_inner.
  destruct (consuming_sub c out st x w Hx Hw Hle) as (_ & Heq & _).
  destruct (c_cached_read c =? c_cached_write c)%Z eqn:Hemp; bool_props; cycle 1.
  { assert (w <> length out) by tauto. apply (wp_pop_go c out st w); [done|done|lia|done]. }
  eapply wp_act; [apply consuming_stable|exact Hx|]. clear x Hx Hle Heq. intros s g Hx.
  destruct (consuming_refresh c out st s g Hx) as (Hx' & Hwr & Hle).
  destruct (park_consumer c out st s g Hx) as (Hmv & Hpark).
  destruct (consuming_sub _ _ _ _ (length (hist g)) Hx' eq_refl) as (_ & Hiff & _); [done|].
  cbn [c_cached_write c_cached_read] in Hiff. rewrite Hwr.
  eexists s, _. destruct (decide (length (hist g) = length out)) as [He'|Hne].
  - exists (park_consumer_ghost st g). split; [done|]. split; [intros _; exact Hmv|].
    rewrite (proj2 (Z.eqb_eq _ _)) by by apply Hiff. rewrite He' in Hpark.
    eapply wp_ret; [apply consuming_stable|by apply (Hpark (mkConsumer (c_cached_read c) (wrap (Z.of_nat (length out)))))|].
    intros y Hy. apply Hnone. by rewrite He'.
  - exists g. split; [done|]. split; [intros _; apply consumer_still, Hx|].
    rewrite (proj2 (Z.eqb_neq _ _)) by by rewrite Hiff.
    apply (wp_pop_go (mkConsumer _ _) out st (length (hist g))); [done|done|simpl; lia|done].
Qed.
Lemma wp_pop_slice_go c out st n w Q x :
  consuming c out st x -> c_cached_write c = wrap (Z.of_nat w) -> length out <= w <= length (hist x.2) ->
  (forall c' vs x', consuming c' (out ++ vs) st x' -> length vs = Nat.min n (w - length out) ->
    c_cached_write c' = wrap (Z.of_nat w) -> Q (c', vs) x') ->
  wp (rely 1) (guar 1) (pop_slice_go c n (Z.of_nat (w - length out))) Q x.
Proof.
  intros Hx Hw Hle HQ. destruct (consuming_sub c out st x w Hx Hw Hle) as (_ & _ & HwN). unfold pop_slice_go.
  set (m := Nat.min n (w - length out)) in *.
  replace (Z.min (Z.of_nat n) (Z.of_nat (w - length out))) with (Z.of_nat m) by lia.
  rewrite (co_read _ _ _ _ Hx), land_slot. pose proof N_capacity. pose proof N_pos.
  pose proof (Nat.mod_upper_bound (length out) N).
  assert (m <= N) as HmN by lia. destruct (wrap_around (length out) m HmN) as [Hfit Hrest].
  set (d := Nat.min (N - length out mod N) m) in *.
  replace (Z.min (capacity - Z.of_nat (length out mod N)) (Z.of_nat m)) with (Z.of_nat d) by lia.
  assert (fetching c out [] w st x) as Hf by (split_and!; [done|rewrite app_nil_r; apply Hx|lia]).
  rewrite !Nat2Z.id. apply wp_bind.
  replace (length out mod N) with (length (out ++ []) mod N) by by rewrite app_nil_r.
  apply (wp_read_at c out [] w d st); [done|rewrite app_nil_r; lia|rewrite app_nil_r; lia|].
  assert (length out + m <= w) as Hmw by lia. clear x Hx Hf Hle. simpl app. intros vs1 x Hx Hl1. apply wp_bind.
  assert (forall vs2 x', fetching c out (vs1 ++ vs2) w st x' -> length (vs1 ++ vs2) = m ->
    wp (rely 1) (guar 1)
      (_ ← store (set_read_index (wrapping_add (wrap (Z.of_nat (length out))) (Z.of_nat m)));
       _ ← Notify.signal producer_ref;
       Ret (mkConsumer (wrapping_add (wrap (Z.of_nat (length out))) (Z.of_nat m)) (c_cached_write c), vs1 ++ vs2))
      Q x') as Hrel.
  { clear x Hx. intros vs2 x Hx Hl2. rewrite wrapping_add_wrap, <-Nat2Z.inj_add, <-Hl2, <-length_app.
    apply (wp_release c out (vs1 ++ vs2) w st); [done|rewrite length_app; lia|done|]. intros x' Hx'.
    eapply wp_ret; [apply consuming_stable|exact Hx'|]. intros y Hy. by apply HQ. }
  destruct (Z.of_nat d <? Z.of_nat m)%Z eqn:Hdm; bool_props.
  - destruct Hrest as [Hz Hle]; [lia|]. replace (Z.to_nat (Z.of_nat m - Z.of_nat d)) with (m - d) by lia.
    replace 0%Z with (Z.of_nat (length (out ++ vs1) mod N)) by (rewrite length_app, Hl1; lia).
    apply (wp_read_at c out vs1 w (m - d) st); [done|rewrite length_app; lia|rewrite length_app, Hl1; lia|].
    intros vs2 x' Hx' Hl2. apply Hrel; [done|]. rewrite length_app. lia.
  - eapply wp_ret; [apply fetching_stable|exact Hx|]. intros y Hy. apply Hrel; rewrite app_nil_r; [done|lia].
Qed.

(** Before the attempt of [try_pop_slice]: an armed consumer sees the buffer drained. *)
Definition pop_ready (c : Consumer) (out : list T) (st : wait_state) : Prop :=
  match st with
  | NotArmed _ => True
  | Armed _ _ => sees_empty c out
  | IsParked _ _ _ => False
  end.

Lemma wp_try_pop_slice c out st n Q x :
  consuming c out st x -> 0 < n -> pop_ready c out st ->
  (forall c' vs x', consuming c' (out ++ vs) st x' -> length vs = n -> Q (c', vs) x') ->
  (forall c' vs x', consuming c' (out ++ vs) (yielded st (length (out ++ vs))) x' -> length vs < n ->
    sees_empty c' (out ++ vs) -> Q (c', vs) x') ->
  wp (rely 1) (guar 1) (try_pop_slice c n) Q x.
Proof.
  intros Hx Hn Hready Hall Hpart.
  assert (forall c st' w x, consuming c out st' x -> c_cached_write c = wrap (Z.of_nat w) ->
    length out <= w <= length (hist x.2) -> st' = (if decide (n <= w - length out) then st else yielded st w) ->
    wp (rely 1) (guar 1) (pop_slice_go c n (Z.of_nat (w - length out))) Q x) as Hgo.
  { clear c x Hx Hready. intros c st' w x Hx Hw Hle Hst. apply (wp_pop_slice_go c out st' n w); [done|done|done|].
    intros c' vs x' Hx' Hl Hw'. case_decide as Hd; subst st'; [apply Hall; [done|lia]|].
    assert (w = length (out ++ vs)) as -> by (rewrite length_app; lia). apply Hpart; [done|lia|done]. }
  pose proof (co_write _ _ _ _ Hx) as (w & Hw & Hle). destruct (consuming_sub c out st x w Hx Hw Hle) as (Hsub & _ & HwN).
  unfold try_pop_slice. destruct n as [|n'] eqn:Hn'; [lia|rewrite <-Hn' in *]. rewrite Hsub.
  destruct (Z.of_nat (w - length out) =? 0)%Z eqn:Hz; bool_props; cycle 1.
  { apply (Hgo c st); try done. case_decide as Hd; [done|]. destruct st as [k|wk k|wk k thr]; [done| |done].
    exfalso. cbn [pop_ready] in Hready. unfold sees_empty in Hready. rewrite Hw in Hready. symmetry in Hready.
    apply wrap_inj in Hready; [lia|]. pose proof N_small. lia. }
  eapply wp_act; [apply consuming_stable|exact Hx|]. clear x Hx Hle Hsub. intros s g Hx.
  destruct (consuming_refresh c out st s g Hx) as (Hx' & Hwr & Hle).
  destruct (park_consumer c out st s g Hx) as (Hmv & Hpark).
  destruct (consuming_sub _ _ _ _ (length (hist g)) Hx' eq_refl) as (Hav & _ & _); [done|].
  cbn [c_cached_write c_cached_read] in Hav. rewrite Hwr.
  set (c1 := mkConsumer (c_cached_read c) (wrap (Z.of_nat (length (hist g))))) in *.
  exists s, (wrap (Z.of_nat (length (hist g)))). destruct (decide (n <= length (hist g) - length out)) as [Hfit|Hfit].
  - exists g. split; [done|]. split; [intros _; apply consumer_still, Hx|]. rewrite Hav.
    rewrite (proj2 (Z.eqb_neq _ _)) by lia. apply (Hgo c1 st (length (hist g))); try done. by rewrite decide_True.
  - exists (park_consumer_ghost st g). split; [done|]. split; [intros _; exact Hmv|]. rewrite Hav.
    specialize (Hpark c1 eq_refl eq_refl).
    destruct (Z.of_nat (length (hist g) - length out) =? 0)%Z eqn:Ha; bool_props.
    + assert (length (hist g) = length out) as Heq by lia. eapply wp_ret; [apply consuming_stable|exact Hpark|].
      intros y Hy. apply (Hpart _ []); rewrite ?app_nil_r; [by rewrite <-Heq|simpl; lia|]. unfold sees_empty. by rewrite <-Heq.
    + apply (Hgo c1 (yielded st (length (hist g))) (length (hist g))); try done; [by destruct st|by rewrite decide_False].
Qed.
(** Arming and disarming the consumer's slot. *)
Lemma consumer_waiter_move x x' :
  Notify.waiter_move consumer_ref cg c_same x x' -> inv x -> consumer_move x x'.
Proof.
  intros Hm Hi. pose proof Hm as [(Hb & Hwi & Hri & Hps & Hpl & Hh & Hg & Hpg & Hct & Hpt) Hst].
  split; try congruence; [|lia|by apply Notify.still_env|apply Hst].
  destruct Hi as [[Hl Hw Hr Hgt Hd] Hc Hp Hci Hpi]. split.
  - split; try congruence. intros i. rewrite Hg, Hh, Hb. apply Hd.
  - by eapply (Notify.waiter_move_inv _ _ _ _ _ c_in).
  - unfold Notify.islot, p_cond. simpl in *. rewrite Hps, Hpl, Hpg, Hpt, Hg. exact Hp.
  - intros j Hj. rewrite (Notify.ws_signallers _ _ _ _ _ _ Hst). by apply Hci.
  - intros j Hj. rewrite Hpg. by apply Hpi.
Qed.

(** Everything the consumer knows except how it waits. *)
Definition receiving (c : Consumer) (out : list T) (x : config) : Prop :=
  inv x /\ got x.2 = length out /\ out `prefix_of` hist x.2 /\ c_cached_read c = wrap (Z.of_nat (length out)) /\
  (exists w, c_cached_write c = wrap (Z.of_nat w) /\ length out <= w <= length (hist x.2)) /\
  Notify.signallers (pg x.2) !! 1 = None.

Lemma consuming_receiving c out st x : consuming c out st x <-> receiving c out x /\ c_wait st x.
Proof. split; [intros []; by split_and!|intros [(? & ? & ? & ? & ? & ?) ?]; by split]. Qed.

Lemma receiving_env c out x x' :
  rely 1 x x' -> c_slot x -> receiving c out x ->
  c_slot x' /\ receiving c out x' /\ Notify.waiter_env consumer_ref cg x x'.
Proof.
  intros Hm _ (Hi & Hg & Ho & Hr & (w & Hw & Hle) & Hs). simpl in Hm.
  destruct (Hm Hi) as [Hi' Hg' Hh' He' Hs' Ht']. split_and!; [apply Hi'| |done].
  split_and!; [done|congruence|by etrans|done| |by rewrite Hs'].
  exists w. apply prefix_length in Hh'. split; [done|lia].
Qed.

Lemma receiving_move c out x x' :
  Notify.waiter_move consumer_ref cg c_same x x' -> c_slot x -> receiving c out x -> receiving c out x'.
Proof.
  intros Hm _ (Hi & Hg & Ho & Hr & (w & Hw & Hle) & Hs).
  pose proof (consumer_waiter_move x x' Hm Hi) as [Hi' _ _ _ _ _ _].
  destruct Hm as [(_ & _ & _ & _ & _ & Hh' & Hg' & Hpg & _ & _) _].
  split_and!; [done|congruence|by rewrite Hh'|done| |by rewrite Hpg]. exists w. by rewrite Hh'.
Qed.

Lemma receiving_guar c out x x' :
  Notify.waiter_move consumer_ref cg c_same x x' -> c_slot x -> receiving c out x -> guar 1 x x'.
Proof. intros Hm _ _ Hi. by apply consumer_waiter_move. Qed.

Lemma wp_arm_consumer c out k w Q x :
  consuming c out (NotArmed k) x -> (forall x', consuming c out (Armed w k) x' -> Q tt x') ->
  wp (rely 1) (guar 1) (Notify.arm consumer_ref w) Q x.
Proof.
  intros [Hx [Hout Hk]]%consuming_receiving HQ.
  apply (Notify.wp_arm _ _ _ _ _ c_in _ _ (receiving c out) (receiving_env c out) (receiving_guar c out)
    (receiving_move c out) k); [apply Hx|done..|].
  intros x' [(_ & ? & ? & ?) ?]. apply HQ, consuming_receiving. by split_and!.
Qed.

Lemma wp_disarm_consumer c out w k Q x :
  consuming c out (Armed w k) x -> (forall x', consuming c out (NotArmed k) x' -> Q tt x') ->
  wp (rely 1) (guar 1) (Notify.disarm consumer_ref) Q x.
Proof.
  intros [Hx (Hid & Hk & _)]%consuming_receiving HQ.
  apply (Notify.wp_disarm _ _ _ _ _ c_in _ _ (receiving c out) (receiving_env c out) (receiving_guar c out)
    (receiving_move c out) k).
  - split_and!; [apply Hx|done..].
  - intros x' (_ & ? & Hi & ?). apply HQ, consuming_receiving. split; [done|]. split; [by left|done].
Qed.

(** *** Futures *)
Lemma wp_poll_pop c out k w Q x :
  consuming c out (NotArmed k) x ->
  (forall c' v x', consuming c' (out ++ [v]) (NotArmed k) x' -> Q (c', Ready v) x') ->
  (forall c' x', consuming c' out (IsParked w k (length out)) x' -> Q (c', Pending) x') ->
  wp (rely 1) (guar 1) (poll_pop c w) Q x.
Proof.
  intros Hx Hready Hpend. apply wp_bind. apply (wp_try_pop c out (NotArmed k)); [done|..].
  { intros c' v x' Hx'. eapply wp_ret; [apply consuming_stable|exact Hx'|]. intros y Hy. by apply Hready. }
  clear c x Hx. intros c x Hx. apply wp_bind. apply (wp_arm_consumer c out k); [done|]. clear x Hx. intros x Hx.
  apply wp_bind. apply (wp_try_pop c out (Armed w k)); [done|..].
  - clear c x Hx. intros c v x Hx. apply wp_bind. apply (wp_disarm_consumer c (out ++ [v]) w k); [done|]. intros x' Hx'.
    eapply wp_ret; [apply consuming_stable|exact Hx'|]. intros y Hy. by apply Hready.
  - intros c' x' Hx'. eapply wp_ret; [apply consuming_stable|exact Hx'|]. intros y Hy. by eapply Hpend.
Qed.

(** The slice future between polls: something is left to fill. *)
Definition pop_left (f : PopSliceFuture) : Prop := length (qs_items f) < qs_len f.

Lemma wp_poll_pop_slice c out k f w Q x :
  pop_left f -> consuming c (out ++ qs_items f) (NotArmed k) x ->
  (forall c' f' x', consuming c' (out ++ qs_items f') (NotArmed k) x' -> length (qs_items f') = qs_len f ->
    Q (c', f', Ready tt) x') ->
  (forall c' f' x', consuming c' (out ++ qs_items f') (IsParked w k (length (out ++ qs_items f'))) x' ->
    qs_len f' = qs_len f -> pop_left f' -> qs_progress f' = length (qs_items f') -> Q (c', f', Pending) x') ->
  wp (rely 1) (guar 1) (poll_pop_slice c f w) Q x.
Proof.
  intros Hleft Hx Hready Hpend. unfold pop_left in *. destruct f as [len items progress].
  cbn [qs_len qs_items qs_progress] in *. apply wp_bind. cbn [qs_len qs_items qs_progress].
  apply (wp_try_pop_slice c (out ++ items) (NotArmed k)); [done|lia|done|..].
  { intros c' vs x' Hx' Hl. rewrite length_app. rewrite (proj2 (Nat.ltb_lt _ _)), (proj2 (Nat.eqb_eq _ _)) by lia.
    cbn [andb]. eapply wp_ret; [apply consuming_stable|exact Hx'|]. intros y Hy. rewrite <-app_assoc in Hy.
    apply Hready; [done|]. simpl. rewrite length_app. lia. }
  clear c x Hx. intros c vs x Hx Hl Hempty. rewrite <-app_assoc in Hx, Hempty.
  rewrite (proj2 (Nat.eqb_neq (length (items ++ vs)) _)), andb_false_r by (rewrite length_app; lia).
  assert (length (items ++ vs) < len) as Hleft' by (rewrite length_app; lia). clear Hleft Hl.
  generalize dependent (items ++ vs). clear items vs progress. intros items Hx Hempty Hleft.
  apply wp_bind. apply (wp_arm_consumer c (out ++ items) k); [done|]. clear x Hx. intros x Hx. apply wp_bind.
  apply (wp_try_pop_slice c (out ++ items) (Armed w k)); [done|lia|done|..].
  - clear c x Hx Hempty. intros c vs x Hx Hl. rewrite length_app.
    rewrite (proj2 (Nat.ltb_lt _ _)), (proj2 (Nat.eqb_eq _ _)) by lia. cbn [andb]. rewrite <-app_assoc in Hx.
    apply wp_bind. apply (wp_disarm_consumer c (out ++ items ++ vs) w k); [done|]. intros x' Hx'.
    eapply wp_ret; [apply consuming_stable|exact Hx'|]. intros y Hy. apply Hready; [done|]. simpl. rewrite length_app. lia.
  - clear c x Hx Hempty. intros c vs x Hx Hl Hempty. rewrite <-app_assoc in Hx.
    rewrite (proj2 (Nat.eqb_neq (length (items ++ vs)) _)), andb_false_r by (rewrite length_app; lia).
    eapply wp_ret; [apply consuming_stable|exact Hx|]. intros y Hy. apply Hpend; [done|done| |done].
    simpl. rewrite length_app. lia.
Qed.

(** The consumer after an operation: parked on a drained buffer, or not parked. *)
Definition rested (c : Consumer) (out : list T) (pk : parking) (x : config) : Prop :=
  match pk with
  | None => consuming c out (NotArmed 0) x
  | Some (w, k) => consuming c out (IsParked w k (length out)) x
  end.

Lemma rested_stable c out pk : stable (rely 1) (rested c out pk).
Proof. intros x x' Hx Hr. destruct pk as [[w k]|]; simpl in *; by eapply consuming_stable. Qed.

Lemma consuming_unpark c out st k x :
  consuming c out st x -> k <= length (consumer_log x.1) -> consuming c out (NotArmed k) x.
Proof. intros [Hi Hg Ho Hr Hw Hs Hwt] Hk. split; try done. split; [|done]. by eapply wait_log; [apply Hi|]. Qed.

Lemma rested_none c out st x : consuming c out st x -> rested c out None x.
Proof. intros Hx. eapply consuming_unpark; [exact Hx|lia]. Qed.

Lemma rested_idle c out pk x : rested c out pk x -> consuming c out (NotArmed 0) x.
Proof. destruct pk as [[w k]|]; simpl; [|done]. by apply rested_none. Qed.
Lemma wp_note_consumer {A} c out st (f : nat -> prog RingBufferShared A) Q x :
  consuming c out st x -> (forall k x', consuming c out (NotArmed k) x' -> wp (rely 1) (guar 1) (f k) Q x') ->
  wp (rely 1) (guar 1) (k ← load (fun s => length (consumer_log s)); f k) Q x.
Proof.
  intros Hx Hf. eapply wp_act; [apply consuming_stable|exact Hx|]. intros s g Hy.
  eexists s, _, g. split; [done|]. split; [intros _; apply consumer_still, Hy|].
  eapply Hf, consuming_unpark; [exact Hy|done].
Qed.

Lemma wp_drive_pop c out ws pk Q x :
  rested c out pk x ->
  (forall c' o pk' x', rested c' (out ++ option_list o) pk' x' -> Q (c', o, pk') x') ->
  wp (rely 1) (guar 1) (drive_pop c ws pk) Q x.
Proof.
  revert c pk x. induction ws as [|w ws IH]; intros c pk x Hx HQ; cbn [drive_pop].
  { eapply wp_ret; [apply rested_stable|exact Hx|]. intros y Hy. apply HQ. by rewrite app_nil_r. }
  apply rested_idle in Hx. eapply wp_note_consumer; [exact Hx|]. clear x Hx pk. intros k x Hx. apply wp_bind.
  eapply wp_poll_pop; [exact Hx|..].
  - intros c' v x' Hx'. eapply wp_ret; [apply rested_stable|by eapply rested_none|]. intros y Hy. by apply HQ.
  - intros c' x' Hx'. by apply IH.
Qed.

Lemma wp_pop c out ws Q x :
  consuming c out (NotArmed 0) x ->
  (forall c' o pk x', rested c' (out ++ option_list o) pk x' -> Q (c', o, pk) x') ->
  wp (rely 1) (guar 1) (pop c ws) Q x.
Proof.
  intros Hx HQ. apply wp_bind. eapply wp_try_pop; [exact Hx|..].
  - intros c' v x' Hx'. eapply wp_ret; [apply rested_stable|by eapply rested_none|]. intros y Hy. by apply HQ.
  - intros c' x' Hx'. by apply (wp_drive_pop _ out).
Qed.

Lemma wp_drive_pop_slice c out f ws pk Q x :
  pop_left f -> rested c (out ++ qs_items f) pk x ->
  (forall c' f' pk' x', rested c' (out ++ qs_items f') pk' x' -> Q (c', f', pk') x') ->
  wp (rely 1) (guar 1) (drive_pop_slice c f ws pk) Q x.
Proof.
  revert c f pk x. induction ws as [|w ws IH]; intros c f pk x Hleft Hx HQ; cbn [drive_pop_slice].
  { eapply wp_ret; [apply rested_stable|exact Hx|]. intros y Hy. by apply HQ. }
  apply rested_idle in Hx. eapply wp_note_consumer; [exact Hx|]. clear x Hx pk. intros k x Hx. apply wp_bind.
  apply (wp_poll_pop_slice c out k); [done|done|..].
  - intros c' f' x' Hx' Hf. eapply wp_ret; [apply rested_stable|by eapply rested_none|]. intros y Hy. by apply HQ.
  - intros c' f' x' Hx' Hi Hl Hp. by apply IH.
Qed.

Lemma wp_pop_slice_counted c out n ws Q x :
  consuming c out (NotArmed 0) x ->
  (forall c' f pk x', rested c' (out ++ qs_items f) pk x' -> Q (c', f, pk) x') ->
  wp (rely 1) (guar 1) (pop_slice_counted c n ws) Q x.
Proof.
  intros Hx HQ. unfold pop_slice_counted. destruct n as [|n'] eqn:Hn; [|rewrite <-Hn].
  { eapply wp_ret; [apply rested_stable|by eapply rested_none|]. intros y Hy. apply HQ. simpl. by rewrite app_nil_r. }
  apply wp_bind. apply (wp_try_pop_slice c out (NotArmed 0)); [done|lia|done|..].
  - intros c' vs x' Hx' Hl. rewrite (proj2 (Nat.eqb_eq _ _)) by done.
    eapply wp_ret; [apply rested_stable|by eapply rested_none|]. intros y Hy. by apply HQ.
  - intros c' vs x' Hx' Hl _. rewrite (proj2 (Nat.eqb_neq _ _)) by lia. by apply (wp_drive_pop_slice c' out).
Qed.

Lemma wp_try_pop_slice_any c out n Q x :
  consuming c out (NotArmed 0) x ->
  (forall c' vs x', consuming c' (out ++ vs) (NotArmed 0) x' -> length vs <= n -> Q (c', vs) x') ->
  wp (rely 1) (guar 1) (try_pop_slice c n) Q x.
Proof.
  intros Hx HQ. destruct n as [|n'] eqn:Hn; [|rewrite <-Hn].
  { eapply wp_ret; [apply consuming_stable|exact Hx|]. intros y Hy. apply HQ; [by rewrite app_nil_r|done]. }
  eapply (wp_try_pop_slice c out (NotArmed 0)); [exact Hx|lia|done|..].
  - intros c' vs x' Hx' ?. apply HQ; [done|lia].
  - intros c' vs x' Hx' ? _. apply HQ; [done|lia].
Qed.

Lemma wp_io_read c out n ws Q x :
  consuming c out (NotArmed 0) x ->
  (forall c' vs pk x', rested c' (out ++ vs) pk x' -> Q (c', vs, pk) x') ->
  wp (rely 1) (guar 1) (io_read c n ws) Q x.
Proof.
  intros Hx HQ. destruct n as [|rest]; unfold io_read.
  { eapply wp_ret; [apply rested_stable|by eapply rested_none|]. intros y Hy. apply HQ. by rewrite app_nil_r. }
  apply wp_bind. apply (wp_try_pop_slice_any c out); [done|]. clear c x Hx. intros c vs x Hx _.
  destruct (0 <? length vs) eqn:Hn; bool_props.
  { eapply wp_ret; [apply rested_stable|by eapply rested_none|]. intros y Hy. by apply HQ. }
  destruct vs; [|simpl in Hn; lia]. rewrite app_nil_r in Hx. apply wp_bind.
  apply (wp_pop c out); [done|]. clear c x Hx. intros c [v|] pk x Hx; cycle 1.
  { eapply wp_ret; [apply rested_stable|exact Hx|]. intros y Hy. by apply HQ. }
  apply rested_idle in Hx. apply wp_bind. apply (wp_try_pop_slice_any c (out ++ [v])); [done|].
  clear c x Hx pk. intros c vs x Hx _. rewrite <-app_assoc in Hx.
  eapply wp_ret; [apply rested_stable|by eapply rested_none|]. intros y Hy. by apply HQ.
Qed.

Lemma wp_available_count c out Q x :
  consuming c out (NotArmed 0) x ->
  (forall c' n x', consuming c' out (NotArmed 0) x' -> Q (c', n) x') ->
  wp (rely 1) (guar 1) (available_count c) Q x.
Proof.
  intros Hx HQ. eapply wp_act; [apply consuming_stable|exact Hx|]. clear x Hx. intros s g Hx.
  destruct (consuming_refresh c out _ s g Hx) as (Hx' & -> & _).
  eexists s, _, g. split; [done|]. split; [intros _; apply consumer_still, Hx|].
  eapply wp_ret; [apply consuming_stable|exact Hx'|]. intros y Hy. by apply HQ.
Qed.

Lemma wp_consumer_is_full c out Q x :
  consuming c out (NotArmed 0) x ->
  (forall c' b x', consuming c' out (NotArmed 0) x' -> Q (c', b) x') ->
  wp (rely 1) (guar 1) (consumer_is_full c) Q x.
Proof.
  intros Hx HQ. eapply wp_act; [apply consuming_stable|exact Hx|]. clear x Hx. intros s g Hx.
  destruct (consuming_refresh c out _ s g Hx) as (Hx' & -> & _).
  eexists s, _, g. split; [done|]. split; [intros _; apply consumer_still, Hx|].
  eapply wp_ret; [apply consuming_stable|exact Hx'|]. intros y Hy. by apply HQ.
Qed.

Lemma wp_consumer_step c out op Q x :
  consuming c out (NotArmed 0) x ->
  (forall c' vs pk x', rested c' (out ++ vs) pk x' -> Q (c', vs, pk) x') ->
  wp (rely 1) (guar 1) (consumer_step c op) Q x.
Proof.
  intros Hx HQ.
  assert (forall c' vs pk x', rested c' (out ++ vs) pk x' -> wp (rely 1) (guar 1) (Ret (c', vs, pk)) Q x') as Hend.
  { intros c' vs pk x' Hx'. eapply wp_ret; [apply rested_stable|exact Hx'|]. intros y Hy. by apply HQ. }
  destruct op as [|n|ws|n ws| | | |n ws]; try apply wp_bind.
  - eapply wp_try_pop; [exact Hx|..].
    + intros c' v x' Hx'. by apply Hend.
    + intros c' x' Hx'. apply Hend. by rewrite app_nil_r.
  - apply (wp_try_pop_slice_any c out); [done|]. intros c' vs x' Hx' _. by apply Hend.
  - apply (wp_pop c out); [done|]. intros c' o pk x' Hx'. by apply Hend.
  - apply (wp_pop_slice_counted c out); [done|]. intros c' f pk x' Hx'. by apply Hend.
  - apply (wp_available_count c out); [done|]. intros c' n x' Hx'. apply Hend. by rewrite app_nil_r.
  - apply wp_bind, (wp_available_count c out); [done|]. intros c' n x' Hx'.
    eapply wp_ret; [apply consuming_stable|exact Hx'|]. intros y Hy. apply Hend. by rewrite app_nil_r.
  - apply (wp_consumer_is_full c out); [done|]. intros c' n x' Hx'. apply Hend. by rewrite app_nil_r.
  - by apply (wp_io_read c out).
Qed.

Lemma wp_consumer_thread c ops acc Q x :
  rested c acc.1 acc.2 x -> (forall c' res x', rested c' res.1 res.2 x' -> Q res x') ->
  wp (rely 1) (guar 1) (consumer_thread c ops acc) Q x.
Proof.
  revert c acc x. induction ops as [|op ops IH]; intros c acc x Hx HQ; cbn [consumer_thread].
  { eapply wp_ret; [apply rested_stable|exact Hx|]. intros y Hy. by eapply HQ. }
  apply wp_bind. eapply wp_consumer_step; [by eapply rested_idle|]. intros c' vs pk x' Hx'. by eapply IH.
Qed.

(** ** The whole buffer *)
Definition ring0 : RingBufferShared := mkRing (replicate N None) 0 0 Notify.new Notify.new [] [].
Definition ring_ghost0 : ring_ghost := mkRG [] 0 Notify.ghost0 Notify.ghost0 0 0.

Lemma inv0 : inv (ring0, ring_ghost0).
Proof.
  split; try done; [|apply Notify.slot_inv_new..].
  split; simpl; try done; [apply length_replicate|lia|lia].
Qed.

(** The two threads, started on the handles of [split]. *)
Definition ring_threads (pops : list producer_op) (cops : list consumer_op) : list (prog RingBufferShared thread_result) :=
  [producer_thread split.1 pops ([], None); consumer_thread split.2 cops ([], None)].

Definition ring_post (i : nat) (res : thread_result) (x : config) : Prop :=
  match i with
  | 0 => exists p, settled p res.1 res.2 x
  | _ => exists c, rested c res.1 res.2 x
  end.

Lemma ring_run sch pops cops :
  exists s ps g, run_sched sch ring0 (ring_threads pops cops) = Done (s, ps) /\
    (forall pr cr, ps = [Ret pr; Ret cr] -> (exists p, settled p pr.1 pr.2 (s, g)) /\ (exists c, rested c cr.1 cr.2 (s, g))).
Proof.
  destruct (wp_sound rely guar ring_post sch ring0 ring_ghost0 (ring_threads pops cops)) as (s & ps & g & Hrun & Hall & _).
  - intros i j y y'. apply guar_rely.
  - pose proof inv0 as Hi. intros [|[|i]] pg Hp; simpl in Hp; [injection Hp as <-|injection Hp as <-|done].
    + apply (wp_producer_thread split.1); [|intros p' res x' ?; by exists p'].
      split; try done; [|split; [by left|simpl; lia]]. exists 0. simpl. split_and!; [done|lia..].
    + apply (wp_consumer_thread split.2); [|intros p' res x' ?; by exists p'].
      split; try done; [|split; [by left|simpl; lia]]. exists 0. simpl. split_and!; [done|lia..].
  - exists s, ps, g. split; [done|]. intros pr cr ->.
    split; [apply (all_wp_returned _ _ _ _ _ 0 pr Hall eq_refl)|apply (all_wp_returned _ _ _ _ _ 1 cr Hall eq_refl)].
Qed.

(** [Drop] releases exactly what is in the buffer. *)
Lemma drop_loop_rest x a fuel :
  ring_ok x -> got x.2 <= a -> a <= length (hist x.2) -> length (hist x.2) - a < fuel ->
  drop_loop fuel x.1 (wrap (Z.of_nat a)) = Done (drop a (hist x.2)).
Proof.
  intros [Hl Hw Hr Hg Hd] Hga. revert a Hga. induction fuel as [|fuel IH]; intros a Hga Hle Hf; [lia|].
  cbn [drop_loop]. rewrite Hw. pose proof N_small. destruct (decide (a = length (hist x.2))) as [->|Hne].
  { rewrite Z.eqb_refl, drop_all. done. }
  rewrite (proj2 (Z.eqb_neq _ _)) by (intros Heq; apply wrap_inj in Heq; lia).
  rewrite slot_index, Hd by lia. destruct (lookup_lt_is_Some_2 (hist x.2) a) as [v Hv]; [lia|]. rewrite Hv.
  rewrite wrapping_add_wrap. replace (Z.of_nat a + 1)%Z with (Z.of_nat (S a)) by lia. rewrite IH by lia.
  outcome_simpl. by rewrite (drop_S _ v a Hv).
Qed.

Lemma drop_shared_rest x : ring_ok x -> drop_shared x.1 = Done (drop (got x.2) (hist x.2)).
Proof.
  intros Hok. unfold drop_shared. rewrite (ro_read _ Hok). pose proof (ro_got _ Hok). apply drop_loop_rest; [done|lia..].
Qed.

(** A parked side whose condition holds has been woken. *)
Lemma consumer_woken c out w k s g :
  consuming c out (IsParked w k (length out)) (s, g) -> Notify.signallers (cg g) !! 0 = None ->
  length out < length (hist g) -> Notify.fired_since w k (consumer_log s).
Proof.
  intros [Hi _ _ _ _ _ [Hw Ht]] Hs Hlt. apply (Notify.parked_told _ _ _ _ w k (inv_c _ Hi)); [|done|].
  - apply map_eq. intros j. rewrite lookup_empty. destruct (decide (j = 0)) as [->|Hj]; [done|]. by apply (inv_c_ids _ Hi).
  - unfold c_cond. rewrite Ht. done.
Qed.

Lemma producer_woken p h w k r s g :
  producing p h (IsParked w k r) (s, g) -> Notify.signallers (pg g) !! 1 = None ->
  r < got g -> Notify.fired_since w k (producer_log s).
Proof.
  intros [Hi _ _ _ _ [Hw Ht]] Hs Hlt. apply (Notify.parked_told _ _ _ _ w k (inv_p _ Hi)); [|done|].
  - apply map_eq. intros j. rewrite lookup_empty. destruct (decide (j = 1)) as [->|Hj]; [done|]. by apply (inv_p_ids _ Hi).
  - unfold p_cond. rewrite Ht. done.
Qed.

(** Every schedule ends well. *)
Lemma ring_end sch pops cops :
  exists s ps, run_sched sch ring0 (ring_threads pops cops) = Done (s, ps) /\
    forall pr cr, ps = [Ret pr; Ret cr] ->
      (cr.1 `prefix_of` pr.1 /\ length pr.1 <= length cr.1 + N /\ drop_shared s = Done (drop (length cr.1) pr.1)) /\
      (forall w k, cr.2 = Some (w, k) -> length cr.1 < length pr.1 -> Notify.fired_since w k (consumer_log s)) /\
      (forall w k, pr.2 = Some (w, k) -> length pr.1 < length cr.1 + N -> Notify.fired_since w k (producer_log s)).
Proof.
  destruct (ring_run sch pops cops) as (s & ps & g & Hrun & Hend). exists s, ps. split; [done|].
  intros pr cr Hps. destruct (Hend pr cr Hps) as [[p Hp] [c Hc]].
  pose proof (settled_idle _ _ _ _ Hp) as Hp0. pose proof (rested_idle _ _ _ _ Hc) as Hc0.
  pose proof (pr_hist _ _ _ _ Hp0) as Hh. pose proof (co_got _ _ _ _ Hc0) as Hg.
  pose proof (inv_ring _ (pr_inv _ _ _ _ Hp0)) as Hok. simpl in Hh, Hg. split_and!.
  - rewrite <-Hh. apply Hc0.
  - rewrite <-Hh, <-Hg. apply (ro_got _ Hok).
  - rewrite <-Hh, <-Hg. apply (drop_shared_rest (s, g) Hok).
  - intros w k Hpk Hlt. rewrite Hpk in Hc. eapply consumer_woken; [exact Hc|apply (pr_sig _ _ _ _ Hp0)|by rewrite Hh].
  - intros w k Hpk Hlt. rewrite Hpk in Hp. destruct Hp as (r & Hp & Hl).
    eapply producer_woken; [exact Hp|apply (co_sig _ _ _ _ Hc0)|lia].
Qed.
End ring.

(** [new] accepts powers of two. *)
Lemma power_of_two c : (0 < c)%Z -> Z.land c (c - 1) = 0%Z -> c = (2 ^ Z.log2 c)%Z.
Proof.
  intros Hc Hland. pose proof (Z.log2_spec c Hc) as [Hlo Hhi].
  destruct (Z.eq_dec c (2 ^ Z.log2 c)%Z) as [|Hne]; [done|exfalso].
  assert (Z.log2 (c - 1) = Z.log2 c) as Hlog by (apply Z.log2_unique; [apply Z.log2_nonneg|lia]).
  pose proof (Z.bit_log2 c Hc) as Hb1. pose proof (Z.pow_pos_nonneg 2 (Z.log2 c) eq_refl (Z.log2_nonneg c)).
  assert (Z.testbit (c - 1) (Z.log2 c) = true) as Hb2 by (rewrite <-Hlog; apply Z.bit_log2; lia).
  pose proof (Z.land_spec c (c - 1) (Z.log2 c)) as Hb. rewrite Hland, Hb1, Hb2, Z.bits_0 in Hb. done.
Qed.

Lemma pow2_land c e : (0 <= e)%Z -> c = (2 ^ e)%Z -> Z.land c (c - 1) = 0%Z.
Proof.
  intros He ->. rewrite Z.sub_1_r, <-Z.ones_equiv, Z.land_ones, Z.mod_same; [done| |done].
  apply Z.pow_nonzero; lia.
Qed.

Section theorems.
Context `{BuildMode} `{Wakers} {T : Type}.

Lemma new_done capacity size_of (s : RingBufferShared (T := T)) :
  new capacity size_of = Done s <->
  (0 < capacity)%Z /\ Z.land capacity (capacity - 1) = 0%Z /\ size_of <> 0%Z /\
  (size_of * capacity <= 2 ^ 63 - 1)%Z /\ s = ring0 capacity.
Proof.
  unfold new, assert_or. destruct (0 <? capacity)%Z eqn:H1; bool_props; outcome_simpl; [|by split; [|lia]].
  destruct (Z.land capacity (capacity - 1) =? 0)%Z eqn:H2; bool_props; outcome_simpl; [|split; [done|tauto]].
  destruct (size_of =? 0)%Z eqn:H3; bool_props; cbn [negb]; outcome_simpl; [split; [done|tauto]|].
  destruct (size_of * capacity <=? 2 ^ 63 - 1)%Z eqn:H4; bool_props; outcome_simpl; [|by split; [|lia]].
  split; [intros [= <-]; done|by intros (_ & _ & _ & _ & ->)].
Qed.

Lemma new_capacity capacity size_of (s : RingBufferShared (T := T)) :
  new capacity size_of = Done s -> (0 <= size_of)%Z ->
  s = ring0 capacity /\ exists e, e <= 62 /\ capacity = (2 ^ Z.of_nat e)%Z.
Proof.
  intros (Hc & Hl & Hs & Hmul & ->)%new_done Hs0. split; [done|]. pose proof (power_of_two capacity Hc Hl) as He.
  pose proof (Z.log2_nonneg capacity). exists (Z.to_nat (Z.log2 capacity)). rewrite Z2Nat.id by done.
  split; [|done]. assert (Z.log2 capacity < 63)%Z; [|lia]. apply Z.log2_lt_pow2; [done|]. nia.
Qed.

(** [RingBuf::new] accepts exactly the capacities it documents: a power of
    two (one included), of elements that are not zero-sized, within the size an
    allocation may have. Anything else panics. *)
Theorem ring_new_accepts (capacity size_of : Z) :
  (0 <= size_of)%Z ->
  match new (T := T) capacity size_of with
  | Done s => s = ring0 capacity /\ 0 < Z.to_nat capacity
  | Panicked _ => ~ ((exists e : Z, 0 <= e /\ capacity = 2 ^ e)%Z /\ (0 < size_of)%Z /\ (size_of * capacity <= 2 ^ 63 - 1)%Z)
  | Undefined => False
  end.
Proof.
  intros Hs. pose proof (new_done capacity size_of) as Hd.
  destruct (new capacity size_of) as [s|msg|] eqn:Hnew.
  - destruct (proj1 (Hd s) eq_refl) as (? & _ & _ & _ & ->). split; [done|lia].
  - intros ((e & He & Hcap) & Hpos & Hmul).
    assert (Panicked msg = Done (ring0 (T := T) capacity)) as Hne; [|done]. apply Hd.
    split_and!; [|by eapply pow2_land|lia|done|done]. rewrite Hcap. apply Z.pow_pos_nonneg; lia.
  - unfold new, assert_or in Hnew. repeat (case_match; outcome_simpl; try done).
Qed.

(** C1: the ring buffer is a lossless FIFO. Any sequence of operations of the
    producer against any sequence of operations of the consumer (single elements
    and slices, polled futures that complete or are abandoned, counts), under any
    interleaving of their atomic accesses, never panics, never reads an
    uninitialised slot and never writes outside the storage. When both are done,
    what was received is a prefix of what was accepted, no more than the capacity
    is in flight, and dropping the buffer releases exactly the elements in
    flight. *)
Theorem ring_fifo (capacity size_of : Z) (s0 : RingBufferShared) (pops : list producer_op) (cops : list consumer_op)
    (sch : list nat) :
  new (T := T) capacity size_of = Done s0 -> (0 <= size_of)%Z ->
  exists s ps, run_sched sch s0 (ring_threads capacity pops cops) = Done (s, ps) /\
    forall pr cr, ps = [Ret pr; Ret cr] ->
      cr.1 `prefix_of` pr.1 /\ length pr.1 <= length cr.1 + Z.to_nat capacity /\
      drop_shared capacity s = Done (drop (length cr.1) pr.1).
Proof.
  intros Hnew Hs0. destruct (new_capacity _ _ _ Hnew Hs0) as (-> & e & He & Hcap).
  destruct (ring_end capacity e He Hcap sch pops cops) as (s & ps & Hrun & Hend).
  exists s, ps. split; [done|]. intros pr cr Hps. apply (Hend pr cr Hps).
Qed.

(** C2: the ring buffer loses no wakeup. When both threads are done and the last
    poll of the consumer left it parked with waker [w] although an element is in
    the buffer, a waker of its task was fired during or after that poll; the same
    holds for a parked producer when there is room. *)
Theorem ring_no_lost_wakeup (capacity size_of : Z) (s0 : RingBufferShared) (pops : list producer_op)
    (cops : list consumer_op) (sch : list nat) s pr cr :
  new (T := T) capacity size_of = Done s0 -> (0 <= size_of)%Z ->
  run_sched sch s0 (ring_threads capacity pops cops) = Done (s, [Ret pr; Ret cr]) ->
  (forall w k, cr.2 = Some (w, k) -> length cr.1 < length pr.1 -> Notify.fired_since w k (consumer_log s)) /\
  (forall w k, pr.2 = Some (w, k) -> length pr.1 < length cr.1 + Z.to_nat capacity ->
    Notify.fired_since w k (producer_log s)).
Proof.
  intros Hnew Hs0 Hrun. destruct (new_capacity _ _ _ Hnew Hs0) as (-> & e & He & Hcap).
  destruct (ring_end capacity e He Hcap sch pops cops) as (s' & ps & Hrun' & Hend).
  rewrite Hrun in Hrun'. injection Hrun' as <- <-. apply (Hend pr cr eq_refl).
Qed.
End theorems.
#[local] Instance nat_wakers : Wakers := {| waker := nat; will_wake := Nat.eqb |}.
#[local] Existing Instance debug_build.

(** A slice that wraps around, against a consumer that takes a slice and an
    element; the threads alternate. *)
Definition demo_sch : list nat := concat (replicate 200 [0; 1]).
Definition demo_pops : list (producer_op (H0 := nat_wakers) (T := nat)) :=
  [TryPush 1; PushSlice [2; 3; 4] [50; 50; 50]; Push 5 [51]; FreeCount; TryPush 6].
Definition demo_cops : list (consumer_op (H0 := nat_wakers)) :=
  [Pop [60; 60; 60]; PopSlice 2 [61; 61]; AvailableCount; TryPop].

Lemma ring_new_accepts_witness : (0 <= 8)%Z /\ exists s, new (H0 := nat_wakers) (T := nat) 4 8 = Done s /\ s = ring0 4.
Proof.
  split; [lia|]. eexists. split; [reflexivity|].
  exact (proj1 (ring_new_accepts (H0 := nat_wakers) (T := nat) 4 8 ltac:(lia))).
Defined.

Lemma ring_fifo_witness : exists s pr cr,
  run_sched demo_sch (ring0 2) (ring_threads (H0 := nat_wakers) 2 demo_pops demo_cops) = Done (s, [Ret pr; Ret cr]) /\
  cr.1 `prefix_of` pr.1 /\ length pr.1 <= length cr.1 + 2 /\ 0 < length cr.1.
Proof.
  destruct (ring_fifo (H0 := nat_wakers) 2 8 (ring0 2) demo_pops demo_cops demo_sch eq_refl ltac:(lia)) as (s & ps & Hrun & Hps).
  pose proof Hrun as Hrun'. vm_compute in Hrun'. injection Hrun' as <- <-.
  destruct (Hps _ _ eq_refl) as (? & ? & _). eexists _, _, _. split; [exact Hrun|]. split; [done|]. split; [done|]. simpl. lia.
Defined.

(** The consumer parks first, then the producer pushes. *)
Definition park_cops : list (consumer_op (H0 := nat_wakers)) := [Pop [60]].
Definition park_sch : list nat := replicate 40 1 ++ replicate 40 0.
Definition park_end : list nat * option (nat * nat) := ([], Some (60, 0)).

Lemma ring_no_lost_wakeup_witness :
  exists s : RingBufferShared (H0 := nat_wakers) (T := nat),
    run_sched park_sch (ring0 2) (ring_threads (H0 := nat_wakers) 2 [TryPush 1] park_cops) =
      Done (s, [Ret ([1], None); Ret park_end]) /\
    Notify.fired_since (H0 := nat_wakers) 60 0 (consumer_log s).
Proof.
  eexists. split; [vm_compute; reflexivity|].
  eapply (ring_no_lost_wakeup (H0 := nat_wakers) 2 8 (ring0 2) [TryPush 1] park_cops park_sch _ ([1], None) park_end);
    [reflexivity|lia|vm_compute; reflexivity|reflexivity|simpl; lia].
Defined.

(** A [push_slice_counted] transfer that completes inside the future does not
    report its last step: the future returns [Ready] without writing the count,
    although the documentation says the count is written on every step. *)
Theorem ring_progress_stale :
  exists s p f, run_alone (poll_push_slice (H0 := nat_wakers) 4 split.1 (mkPushSlice [1; 2] 0 0) 7) (ring0 4) =
      Done (s, (p, f, Ready tt)) /\ pushed_so_far f = 2 /\ ps_progress f = 0.
Proof. eexists _, _, _. split; [vm_compute; reflexivity|]. split; reflexivity. Qed.
End Ring.
