(* ===== verification/OneShot.v ===== *)
(** * [oneshot] ([src/site_d/oneshot.rs])

    [Module OneShot]: the single-use channel. Its operations are programs over
    the shared [Inner], one step per atomic access or access to the value cell.
    The two handles share [Inner] through an [Arc]: [strong] is its reference
    count and the last handle to go runs [Drop for Inner]. The sender loads the
    state with [Acquire], which need not return the newest state; so its loads may
    miss what the receiver did. *)
From stdpp Require Import base list gmap numbers relations strings.
From S2P Require Import Prelude WaitList Concurrency Notify.

Module OneShot.
Definition VALUE_SET : Z := Z.shiftl 1 0.
Definition SENDER_DROPPED : Z := Z.shiftl 1 1.
Definition RECEIVER_DROPPED : Z := Z.shiftl 1 2.
Definition TAKEN : Z := Z.shiftl 1 3.

Section oneshot.
Context `{BuildMode} `{Wakers} {T : Type}.

(** [value] is [None] while uninitialised; [dropped] are the values dropped with
    the channel; [stale] says which bits the sender's next loads of [state] miss. *)
Record Inner : Type := mkInner {
  value : option T;
  state : Z;
  recv : Notify.WaiterSlot;
  strong : nat;
  dropped : list T;
  log : list waker;
  stale : list Z
}.

Inductive RecvError : Type := mkRecvError.

Definition oneshot (misses : list Z) : Inner := mkInner None 0 Notify.new 2 [] [] misses.

Definition set_value (v : T) (s : Inner) : Inner :=
  mkInner (Some v) (state s) (recv s) (strong s) (dropped s) (log s) (stale s).
Definition set_state (st : Z) (s : Inner) : Inner :=
  mkInner (value s) st (recv s) (strong s) (dropped s) (log s) (stale s).

Definition recv_ref : Notify.SlotRef Inner :=
  Notify.mkSlotRef _ recv (fun sl s => mkInner (value s) (state s) sl (strong s) (dropped s) (log s) (stale s))
    log (fun l s => mkInner (value s) (state s) (recv s) (strong s) (dropped s) l (stale s)).

Definition set_stale (misses : list Z) (s : Inner) : Inner :=
  mkInner (value s) (state s) (recv s) (strong s) (dropped s) (log s) misses.

(** [s & bit != 0]. *)
Definition has (s bit : Z) : bool := negb (Z.land s bit =? 0)%Z.

Definition fetch_or (bit : Z) : prog Inner Z :=
  act (fun s => Done (set_state (Z.lor (state s) bit) s, state s)).

(** [assume_init_read]: reading an uninitialised cell is undefined. *)
Definition read_value : prog Inner T :=
  act (fun s => match value s with Some v => Done (s, v) | None => Undefined end).

(** [Drop for Inner], on the state at the last drop. *)
Definition drop_inner (s : Inner) : outcome Inner :=
  if has (state s) VALUE_SET && negb (has (state s) TAKEN) then
    match value s with
    | Some v => Done (mkInner (value s) (state s) (recv s) (strong s) (dropped s ++ [v]) (log s) (stale s))
    | None => Undefined
    end
  else Done s.

(** Dropping a handle's [Arc]. *)
Definition release_arc (s : Inner) : outcome Inner :=
  match strong s with
  | 0 => Undefined
  | S n =>
      let s := mkInner (value s) (state s) (recv s) n (dropped s) (log s) (stale s) in
      if n =? 0 then drop_inner s else Done s
  end.
Definition drop_arc : prog Inner unit := act (fun s => s ← release_arc s; Done (s, tt)).

(** An [Acquire] load by the sender: only the receiver's bits may be missing, for
    the sender has seen its own stores. *)
Definition missing (bits : Z) (s : Z) : Z := Z.ldiff s (Z.land bits (Z.lor RECEIVER_DROPPED TAKEN)).
Definition load_acquire : prog Inner Z :=
  act (fun s => Done (set_stale (tail (stale s)) s, missing (hd 0%Z (stale s)) (state s))).

(** ** Accesses

    What the operations do to the channel. [current] does it to [Inner], which
    holds the newest values; [WeakOneShot.v] has an instance that uses the memory
    orderings of the source. *)
Class Accesses (S : Type) : Type := {
  acquire_state : prog S Z;            (* [Acquire], by the sender *)
  load_state : prog S Z;               (* [SeqCst], by the receiver *)
  publish_state : Z -> prog S unit;    (* [SeqCst], by the sender *)
  mark_taken : Z -> prog S unit;       (* [Relaxed], by the receiver *)
  or_state : Z -> prog S Z;            (* [SeqCst] [fetch_or] *)
  write_cell : T -> prog S unit;
  read_cell : prog S T;
  arm : waker -> prog S unit;
  disarm : prog S unit;
  signal : prog S unit;
  release : prog S unit;               (* dropping a handle's [Arc] *)
  fired_count : prog S nat             (* wakers fired so far *)
}.

#[global] Instance current : Accesses Inner := {
  acquire_state := load_acquire;
  load_state := load state;
  publish_state st := store (set_state st);
  mark_taken st := store (set_state st);
  or_state := fetch_or;
  write_cell v := store (set_value v);
  read_cell := read_value;
  arm := Notify.arm recv_ref;
  disarm := Notify.disarm recv_ref;
  signal := Notify.signal recv_ref;
  release := drop_arc;
  fired_count := load (fun s => length (log s))
}.

(** What a thread ended with: the result of the send, if one was made; or the
    values received, and the waker the last poll left the receiver parked with
    and the number of wakers fired before that poll. *)
Inductive ended : Type :=
| SenderEnded (r : option (result unit T))
| ReceiverEnded (vs : list T) (parked : option (waker * nat)).

Inductive receiver_op : Type :=
| TryRecv
| PollRecv (w : waker).

Section operations.
Context {M : Type} `{Accesses M}.

Definition take_value (s : Z) : prog M (option T) :=
  if has s TAKEN then Ret None
  else
    _ ← check (debug_assert (has s VALUE_SET) "assertion failed: s & VALUE_SET != 0");
    _ ← mark_taken (Z.lor s TAKEN);
    v ← read_cell;
    Ret (Some v).

(** ** Sender *)

(** [Drop for Sender], and then of its [Arc]. *)
Definition drop_sender : prog M unit :=
  s ← acquire_state;
  _ ← (if (Z.land s VALUE_SET =? 0)%Z
       then _ ← or_state SENDER_DROPPED; signal
       else Ret tt);
  release.

(** [Sender::send]; it consumes the sender, which is dropped on return. *)
Definition send (v : T) : prog M (result unit T) :=
  s ← acquire_state;
  if has s RECEIVER_DROPPED then _ ← drop_sender; Ret (RErr v)
  else
    _ ← write_cell v;
    _ ← publish_state (Z.lor s VALUE_SET);
    _ ← signal;
    _ ← drop_sender;
    Ret (ROk tt).

Definition is_closed : prog M bool :=
  s ← acquire_state; Ret (has s RECEIVER_DROPPED).

(** ** Receiver *)
Definition try_recv : prog M (result (option T) RecvError) :=
  s ← load_state;
  if has s VALUE_SET then o ← take_value s; Ret (ROk o)
  else if has s SENDER_DROPPED then Ret (RErr mkRecvError)
  else Ret (ROk None).

Definition resolve : prog M (option (result T RecvError)) :=
  s ← load_state;
  if has s VALUE_SET then
    o ← take_value s;
    Ret (Some match o with Some v => ROk v | None => RErr mkRecvError end)
  else if has s SENDER_DROPPED then Ret (Some (RErr mkRecvError))
  else Ret None.

Definition poll (w : waker) : prog M (Poll (result T RecvError)) :=
  o ← resolve;
  match o with
  | Some out => Ret (Ready out)
  | None =>
      _ ← arm w;
      o ← resolve;
      match o with
      | Some out => _ ← disarm; Ret (Ready out)
      | None => Ret Pending
      end
  end.

Definition drop_receiver : prog M unit :=
  _ ← or_state RECEIVER_DROPPED;
  release.

(** ** Two threads *)

(** The sender asks [checks] times whether the channel is closed, then sends or
    is dropped. *)
Fixpoint sender_thread (checks : nat) (o : option T) : prog M ended :=
  match checks with
  | S n => _ ← is_closed; sender_thread n o
  | 0 =>
      match o with
      | Some v => r ← send v; Ret (SenderEnded (Some r))
      | None => _ ← drop_sender; Ret (SenderEnded None)
      end
  end.

Definition receiver_step (op : receiver_op) : prog M (list T * option (waker * nat)) :=
  match op with
  | TryRecv =>
      r ← try_recv;
      Ret (match r with ROk (Some v) => [v] | _ => [] end, None)
  | PollRecv w =>
      k ← fired_count;
      r ← poll w;
      Ret match r with
          | Ready (ROk v) => ([v], None)
          | Ready (RErr _) => ([], None)
          | Pending => ([], Some (w, k))
          end
  end.

(** The receiver polls and tries, and is dropped at the end if [drops]. *)
Fixpoint receiver_thread (ops : list receiver_op) (drops : bool) (acc : list T) (parked : option (waker * nat)) :
    prog M ended :=
  match ops with
  | op :: ops => '(vs, pk) ← receiver_step op; receiver_thread ops drops (acc ++ vs) pk
  | [] =>
      if drops then _ ← drop_receiver; Ret (ReceiverEnded acc None)
      else Ret (ReceiverEnded acc parked)
  end.

Definition oneshot_threads (checks : nat) (o : option T) (ops : list receiver_op) (drops : bool) :
    list (prog M ended) :=
  [sender_thread checks o; receiver_thread ops drops [] None].
End operations.

(** ** Invariant *)

(** The sender has written nothing; has written the cell; has published; or is
    gone without sending. [refused]: it has seen the receiver dropped. *)
Inductive sender_phase : Type :=
| SOpen (refused : bool)
| SWrote (v : T)
| SSent (v : T)
| SClosed (refused : bool).

Record one_ghost : Type := mkOG {
  sph : sender_phase;
  s_live : bool;
  taken : bool;
  r_drop : bool;
  r_live : bool;
  sg : Notify.SlotGhost
}.
Abbreviation config := (Inner * one_ghost)%type.

Definition is_sent (p : sender_phase) : bool := match p with SSent _ => true | _ => false end.
Definition is_gone (p : sender_phase) : bool := match p with SClosed _ => true | _ => false end.
Definition refused (p : sender_phase) : bool := match p with SOpen r | SClosed r => r | _ => false end.
Definition written (p : sender_phase) : option T := match p with SWrote v | SSent v => Some v | _ => None end.

(** The state byte. *)
Definition enc (a b c d : bool) : Z :=
  ((if a then 1 else 0) + (if b then 2 else 0) + (if c then 4 else 0) + (if d then 8 else 0))%Z.

Lemma has_enc a b c d :
  has (enc a b c d) VALUE_SET = a /\ has (enc a b c d) SENDER_DROPPED = b /\
  has (enc a b c d) RECEIVER_DROPPED = c /\ has (enc a b c d) TAKEN = d.
Proof. by destruct a, b, c, d. Qed.

Lemma lor_enc a b c d :
  Z.lor (enc a b c d) VALUE_SET = enc true b c d /\ Z.lor (enc a b c d) SENDER_DROPPED = enc a true c d /\
  Z.lor (enc a b c d) RECEIVER_DROPPED = enc a b true d /\ Z.lor (enc a b c d) TAKEN = enc a b c true.
Proof. by destruct a, b, c, d. Qed.

Lemma land_enc a b c d : (Z.land (enc a b c d) VALUE_SET =? 0)%Z = negb a.
Proof. by destruct a, b, c, d. Qed.

(** The channel is resolved: a value or closure has been published. *)
Definition resolved (x : config) : Prop := is_sent (sph x.2) || is_gone (sph x.2) = true.

Abbreviation o_slot := (Notify.islot recv_ref sg resolved).

Record inv (x : config) : Prop := {
  oi_state : exists b, state x.1 = enc (is_sent (sph x.2)) (is_gone (sph x.2)) b (taken x.2) /\
    (b = true -> r_drop x.2 = true);
  oi_taken : taken x.2 = true -> is_sent (sph x.2) = true;
  oi_refused : refused (sph x.2) = true -> r_drop x.2 = true;
  oi_value v : written (sph x.2) = Some v -> value x.1 = Some v;
  oi_strong : strong x.1 = Nat.b2n (s_live x.2) + Nat.b2n (r_live x.2);
  oi_live : s_live x.2 = false -> resolved x;
  oi_dropped : dropped x.1 =
    if s_live x.2 || r_live x.2 || taken x.2 || negb (is_sent (sph x.2)) then [] else option_list (written (sph x.2));
  oi_slot : o_slot x;
  oi_ids j : j <> 0 -> Notify.signallers (sg x.2) !! j = None
}.

Definition put_sg (g : Notify.SlotGhost) (o : one_ghost) : one_ghost :=
  mkOG (sph o) (s_live o) (taken o) (r_drop o) (r_live o) g.

(** Configurations that differ in the slot only. *)
Definition same (x x' : config) : Prop :=
  value x'.1 = value x.1 /\ state x'.1 = state x.1 /\ strong x'.1 = strong x.1 /\ dropped x'.1 = dropped x.1 /\
  sph x'.2 = sph x.2 /\ s_live x'.2 = s_live x.2 /\ taken x'.2 = taken x.2 /\ r_drop x'.2 = r_drop x.2 /\
  r_live x'.2 = r_live x.2.

Lemma o_in : Notify.SlotIn recv_ref sg put_sg same resolved.
Proof.
  split; try done; [by intros []|]. intros x x' (_ & _ & _ & _ & Hp & _). unfold resolved. by rewrite Hp.
Qed.

Lemma inv_same x x' :
  same x x' -> inv x -> o_slot x' -> (forall j, j <> 0 -> Notify.signallers (sg x'.2) !! j = None) -> inv x'.
Proof.
  intros (Hv & Hs & Hc & Hd & Hp & Hl & Ht & Hr & Hrl) [Ist Itk Irf Ival Istr Iliv Idr Isl Iid] Hsl Hid.
  split; unfold resolved in *; rewrite ?Hv, ?Hs, ?Hc, ?Hd, ?Hp, ?Hl, ?Ht, ?Hr, ?Hrl; done.
Qed.

(** The steps of the sender and of the receiver, as the other one sees them. *)
Record sender_move (x x' : config) : Prop := {
  sm_inv : inv x';
  sm_taken : taken x'.2 = taken x.2;
  sm_drop : r_drop x'.2 = r_drop x.2;
  sm_live : r_live x'.2 = r_live x.2;
  sm_sent v : sph x.2 = SSent v -> sph x'.2 = SSent v /\ state x'.1 = state x.1;
  sm_gone : is_gone (sph x.2) = true -> is_gone (sph x'.2) = true;
  sm_env : Notify.waiter_env recv_ref sg x x'
}.
Record receiver_move (x x' : config) : Prop := {
  rm_inv : inv x';
  rm_phase : sph x'.2 = sph x.2;
  rm_live : s_live x'.2 = s_live x.2;
  rm_sig : Notify.signallers (sg x'.2) = Notify.signallers (sg x.2)
}.

Definition guar (i : nat) (x x' : config) : Prop :=
  match i with 0 => inv x -> sender_move x x' | 1 => inv x -> receiver_move x x' | _ => False end.
Definition rely (i : nat) (x x' : config) : Prop :=
  match i with 0 => guar 1 x x' | 1 => guar 0 x x' | _ => True end.

Lemma oneshot_guar_rely i j x x' : i <> j -> guar i x x' -> rely j x x'.
Proof. destruct i as [|[|i]], j as [|[|j]]; simpl; try done; lia. Qed.

Lemma sender_still x : inv x -> sender_move x x.
Proof. intros Hi. by split. Qed.
Lemma receiver_still x : inv x -> receiver_move x x.
Proof. intros Hi. by split. Qed.

(** The sender's loads. *)
Lemma missing_enc bits a b c d :
  exists c' d', missing bits (enc a b c d) = enc a b c' d' /\ (c' = true -> c = true) /\ (d' = true -> d = true).
Proof.
  assert (Z.land bits (Z.lor RECEIVER_DROPPED TAKEN) =
    (if Z.testbit bits 2 then 4 else 0) + (if Z.testbit bits 3 then 8 else 0))%Z as Hb.
  { apply Z.bits_inj'. intros i Hi. rewrite Z.land_spec. change (Z.lor RECEIVER_DROPPED TAKEN) with 12%Z.
    destruct (decide (i = 2%Z)) as [->|H2]; [by destruct (Z.testbit bits 2), (Z.testbit bits 3)|].
    destruct (decide (i = 3%Z)) as [->|H3]; [by destruct (Z.testbit bits 2), (Z.testbit bits 3)|].
    assert (Z.testbit 12 i = false /\ Z.testbit 4 i = false /\ Z.testbit 8 i = false) as (H12 & H4 & H8).
    { destruct (decide (i < 4)%Z).
      - assert (i = 0 \/ i = 1)%Z as [-> | ->] by lia; done.
      - split_and!; apply Z.bits_above_log2; simpl; lia. }
    rewrite H12, andb_false_r. destruct (Z.testbit bits 2), (Z.testbit bits 3); simpl; rewrite ?H12, ?H4, ?H8, ?Z.bits_0; done. }
  unfold missing. rewrite Hb. destruct (Z.testbit bits 2), (Z.testbit bits 3).
  - exists false, false. by destruct a, b, c, d.
  - exists false, d. by destruct a, b, c, d.
  - exists c, false. by destruct a, b, c, d.
  - exists c, d. by destruct a, b, c, d.
Qed.

Lemma inv_stale ms s g : inv (s, g) -> inv (set_stale ms s, g).
Proof. by intros []. Qed.

Lemma acquire_sees s g :
  inv (s, g) -> exists b t, missing (hd 0%Z (stale s)) (state s) = enc (is_sent (sph g)) (is_gone (sph g)) b t /\
    (b = true -> r_drop g = true) /\ (t = true -> taken g = true).
Proof.
  intros Hi. destruct (oi_state _ Hi) as (b & Hs & Hb). cbn [fst snd] in *. rewrite Hs.
  destruct (missing_enc (hd 0%Z (stale s)) (is_sent (sph g)) (is_gone (sph g)) b (taken g)) as (c & d & Hm & Hc & Hd).
  exists c, d. split_and!; [done|auto|done].
Qed.

Lemma sender_load ms s g : inv (s, g) -> sender_move (s, g) (set_stale ms s, g).
Proof. intros Hi. split; try done. by apply inv_stale. Qed.

(** ** Sender *)
Definition sending (p : sender_phase) (live : bool) (o : option Notify.SignalPhase) (x : config) : Prop :=
  inv x /\ sph x.2 = p /\ s_live x.2 = live /\ Notify.signallers (sg x.2) !! 0 = o.

Lemma sending_stable p live o : stable (rely 0) (sending p live o).
Proof.
  intros x x' (Hi & Hp & Hl & Ho) Hm. destruct (Hm Hi) as [Hi' Hp' Hl' Hs'].
  split_and!; [done|congruence..].
Qed.

Lemma sender_signal_move x x' :
  Notify.signaller_move recv_ref sg same 0 x x' -> inv x -> sender_move x x'.
Proof.
  intros Hm Hi. pose proof Hm as [Hsame Hst]. pose proof Hsame as (Hv & Hs & Hc & Hd & Hp & Hl & Ht & Hr & Hrl).
  split; try congruence; [| |by eapply Notify.signaller_move_env; [|apply Hi]].
  - eapply inv_same; [done|done| |].
    + eapply (Notify.signaller_move_inv _ _ _ _ _ o_in); [exact Hm|apply Hi].
    + intros j Hj. rewrite (Notify.ss_others _ _ _ _ _ _ _ Hst) by done. by apply Hi.
  - intros v Hv'. split; congruence.
Qed.

Lemma wp_sender_signal p live Q x :
  sending p live (Some Notify.Owes) x -> (forall x', sending p live None x' -> Q tt x') ->
  wp (rely 0) (guar 0) (Notify.signal recv_ref) Q x.
Proof.
  intros (Hi & Hp & Hl & Ho) HQ.
  apply (Notify.wp_signal _ _ _ _ _ o_in 0 (rely 0) (guar 0) (fun x => inv x /\ sph x.2 = p /\ s_live x.2 = live)).
  - intros y y' Hm _ (Hiy & Hpy & Hly). destruct (Hm Hiy) as [Hi' Hp' Hl' Hs'].
    split_and!; [apply Hi'|done|congruence|congruence|by rewrite Hs'].
  - intros y y' Hm _ _. intros Hiy. by apply sender_signal_move.
  - intros y y' Hm _ (Hiy & Hpy & Hly). pose proof (sender_signal_move y y' Hm Hiy) as [Hi' _ _ _ _ _].
    destruct Hm as [(_ & _ & _ & _ & Hp' & Hl' & _) _]. split_and!; [done|congruence..].
  - apply Hi.
  - done.
  - right. done.
  - intros x' (_ & (? & ? & ?) & ?). by apply HQ.
Qed.

(** Dropping one of the two handles; [other] is whether the other one is alive. *)
Lemma drop_arc_step s g other :
  inv (s, g) -> strong s = S (Nat.b2n other) -> dropped s = [] ->
  exists ds, release_arc s = Done (mkInner (value s) (state s) (recv s) (Nat.b2n other) ds (log s) (stale s)) /\
    ds = if other || taken g || negb (is_sent (sph g)) then [] else option_list (written (sph g)).
Proof.
  intros [(b & Ist & Ib) Itk _ Ival _ _ _ _ _] Hs Hd. unfold release_arc. rewrite Hs. cbn [fst snd] in *. cbn zeta.
  destruct other; simpl; [by eexists|].
  unfold drop_inner. cbn [state value recv strong dropped log]. rewrite Ist, Hd.
  destruct (has_enc (is_sent (sph g)) (is_gone (sph g)) b (taken g)) as (-> & _ & _ & ->).
  destruct (is_sent (sph g)) eqn:Hsent; cbn [andb negb].
  2:{ rewrite orb_true_r. outcome_simpl. by eexists. }
  destruct (taken g); simpl; [by eexists|].
  destruct (sph g) as [r|v|v|r]; try done. rewrite (Ival v) by done. outcome_simpl. by eexists.
Qed.

Lemma wp_sender_drop_arc p Q x :
  sending p true None x -> is_sent p || is_gone p = true -> (forall x', sending p false None x' -> Q tt x') ->
  wp (rely 0) (guar 0) drop_arc Q x.
Proof.
  intros Hx Hp HQ. eapply wp_act; [apply sending_stable|exact Hx|]. clear x Hx. intros s g (Hi & Hph & Hl & Ho).
  pose proof Hi as [(b & Ist & Ib) Itk Irf Ival Istr Iliv Idr Isl Iid]. cbn [fst snd] in *. rewrite Hl in Istr, Idr.
  destruct (drop_arc_step s g (r_live g) Hi Istr Idr) as (ds & -> & Hds). outcome_simpl.
  eexists _, tt, (mkOG (sph g) false (taken g) (r_drop g) (r_live g) (sg g)). split; [done|].
  match goal with |- guar 0 _ ?y /\ _ => set (x' := y) end. assert (inv x') as Hi'.
  { split; try done; [by exists b|]. intros _. unfold resolved. cbn [x' snd sph]. by rewrite Hph. }
  split; [intros _; by split|]. eapply wp_ret; [apply sending_stable| |exact HQ]. by split_and!.
Qed.

(** A step of the sender that publishes. *)
Lemma sender_publish s g s' p :
  inv (s, g) -> Notify.signallers (sg g) !! 0 = None -> is_sent p || is_gone p = true ->
  is_sent (sph g) || is_gone (sph g) = false -> s_live g = true ->
  recv s' = recv s -> strong s' = strong s -> dropped s' = dropped s -> log s' = log s ->
  (exists b, state s' = enc (is_sent p) (is_gone p) b (taken g) /\ (b = true -> r_drop g = true)) ->
  (forall v, written p = Some v -> value s' = Some v) -> (refused p = true -> r_drop g = true) ->
  let g' := mkOG p true (taken g) (r_drop g) (r_live g)
    (Notify.set_phase 0 (Some Notify.Owes) (Notify.holder (sg g)) (sg g)) in
  sender_move (s, g) (s', g') /\ sending p true (Some Notify.Owes) (s', g').
Proof.
  intros Hi Ho Hp Hold Hl Hr Hs Hd Hlog Hst Hv Hrf g'.
  pose proof Hi as [Ist Itk Irf Ival Istr Iliv Idr Isl Iid]. cbn [fst snd] in *.
  apply orb_false_iff in Hold as [Hns Hng].
  assert (inv (s', g')) as Hi'.
  { split; cbn [g' fst snd sph s_live taken r_drop r_live sg]; try done.
    - intros Ht. rewrite Itk in Hns; done.
    - rewrite Hs, Istr. by rewrite Hl.
    - rewrite Hd, Idr. by rewrite Hl.
    - unfold Notify.islot in *. cbn [fst snd recv_ref Notify.get_slot Notify.get_log] in *. rewrite Hr, Hlog.
      eapply Notify.publish; [exact Isl|by left].
    - intros j Hj. rewrite Notify.phase_ne by done. by apply Iid. }
  split; [|split_and!; try done; apply Notify.phase_eq].
  split; try done.
  - intros v Hv'. cbn [snd] in Hv'. by rewrite Hv' in Hns.
  - cbn [snd]. by rewrite Hng.
  - eapply Notify.publish_env; [done|done|by left|done].
Qed.

Lemma wp_drop_sender p Q x :
  sending p true None x -> (exists r, p = SOpen r) \/ (exists v, p = SSent v) ->
  (forall x', sending (if is_sent p then p else SClosed (refused p)) false None x' -> Q tt x') ->
  wp (rely 0) (guar 0) drop_sender Q x.
Proof.
  intros Hx Hp HQ. eapply wp_act; [apply sending_stable|exact Hx|]. clear x Hx. intros s g Hx.
  pose proof Hx as (Hi & Hph & Hl & Ho). destruct (acquire_sees s g Hi) as (b & t & Ist & _). cbn [fst snd] in *.
  pose proof (inv_stale (tail (stale s)) s g Hi) as Hi'. eexists _, _, g. split; [done|].
  split; [intros _; by apply sender_load|]. clear Hx. assert (sending p true None (set_stale (tail (stale s)) s, g)) as Hx by done.
  rewrite Ist, Hph, land_enc. clear Hi Hi' Hph Hl Ho. generalize dependent (set_stale (tail (stale s)) s). clear Ist s. intros s Hx. destruct Hp as [[r ->]|[v ->]]; cbn [is_sent refused negb] in *; apply wp_bind.
  - apply wp_bind. eapply wp_act; [apply (sending_stable (SOpen r))|exact Hx|]. clear s g b Hx.
    intros s g (Hi & Hph & Hl & Ho). pose proof Hi as [(b & Ist & Ib) _ Irf _ _ _ _ _ _]. cbn [fst snd] in *. rewrite Hph in Irf.
    destruct (sender_publish s g (set_state (Z.lor (state s) SENDER_DROPPED) s) (SClosed r)) as [Hm Hx]; try done.
    { by rewrite Hph. }
    { exists b. simpl. rewrite Ist, Hph. split; [apply lor_enc|done]. }
    eexists _, _, _. split; [done|]. split; [intros _; exact Hm|].
    eapply wp_ret; [apply sending_stable|exact Hx|]. clear s g Hm Hx Hi Hph Hl Ho b Ist Ib Irf. intros x Hx.
    eapply wp_sender_signal; [exact Hx|]. clear x Hx. intros x Hx. by apply (wp_sender_drop_arc (SClosed r)).
  - eapply wp_ret; [apply (sending_stable (SSent v))|exact Hx|]. intros x Hx'. by apply (wp_sender_drop_arc (SSent v)).
Qed.

(** [send]: refused, and handed back, or published. *)
(** The value is in place: publish it, wake the receiver, let go of the [Arc]. *)
Lemma wp_send_publish v (Q : result unit T -> _ -> Prop) x :
  sending (SWrote v) true None x -> (forall x', sending (SSent v) false None x' -> Q (ROk tt) x') ->
  wp (rely 0) (guar 0)
    (_ ← publish_state (enc true false false false); _ ← signal; _ ← drop_sender; Ret (ROk tt)) Q x.
Proof.
  intros Hx Hok. eapply (wp_act _ _ _ _ (sending (SWrote v) true None)); [apply sending_stable|exact Hx|].
  clear x Hx. intros s g (Hi & Hph & Hl & Ho).
  pose proof Hi as [(b & Ist & Ib) Itk _ Ival _ _ _ _ _]. cbn [fst snd] in *.
  assert (taken g = false) as Htk by (rewrite Hph in Itk; destruct (taken g); [by specialize (Itk eq_refl)|done]).
  destruct (sender_publish s g (set_state (enc true false false false) s) (SSent v)) as [Hm Hx]; try done.
  { by rewrite Hph. }
  { exists false. by rewrite Htk. }
  { intros v' [= <-]. simpl. apply Ival. by rewrite Hph. }
  eexists _, tt, _. split; [done|]. split; [intros _; exact Hm|]. apply wp_bind.
  eapply wp_sender_signal; [exact Hx|]. clear s g b Hi Hph Hl Ho Ist Ib Itk Ival Htk Hm Hx. intros x Hx. apply wp_bind.
  apply (wp_drop_sender (SSent v)); [done|right; by exists v|]. intros x' Hx'.
  eapply wp_ret; [apply sending_stable|exact Hx'|done].
Qed.

Lemma wp_send v Q x :
  sending (SOpen false) true None x ->
  (forall x', sending (SClosed true) false None x' -> Q (RErr v) x') ->
  (forall x', sending (SSent v) false None x' -> Q (ROk tt) x') ->
  wp (rely 0) (guar 0) (send v) Q x.
Proof.
  intros Hx Herr Hok. eapply wp_act; [apply sending_stable|exact Hx|]. clear x Hx. intros s g Hx.
  pose proof Hx as (Hi & Hph & Hl & Ho). destruct (acquire_sees s g Hi) as (b & t & Ist & Ib & It).
  pose proof (oi_taken _ Hi) as Itk. cbn [fst snd] in *.
  assert (t = false) as ->.
  { destruct t; [|done]. specialize (Itk (It eq_refl)). by rewrite Hph in Itk. }
  exists (set_stale (tail (stale s)) s), (missing (hd 0%Z (stale s)) (state s)). rewrite Hph in Ist.
  pose proof (sender_load (tail (stale s)) s g Hi) as Hmove. apply (inv_stale (tail (stale s))) in Hi.
  destruct (has_enc false false b false) as (_ & _ & Hb & _).
  assert (sending (SOpen false) true None (set_stale (tail (stale s)) s, g)) as Hx' by done. clear Hx.
  revert Hmove Hi Hx'. generalize (set_stale (tail (stale s)) s). intros s1 Hmove Hi Hx. destruct b.
  { exists (mkOG (SOpen true) (s_live g) (taken g) (r_drop g) (r_live g) (sg g)). split; [done|].
    assert (inv (s1, mkOG (SOpen true) (s_live g) (taken g) (r_drop g) (r_live g) (sg g))) as Hi'.
    { destruct Hi as [Ist' Itk' _ Ival Istr Iliv Idr Isl Iid]. cbn [fst snd] in *.
      unfold Notify.islot, resolved in *. rewrite Hph in *. split; try done.
      - intros Hf. cbn [snd s_live] in Hf. congruence.
      - eapply Notify.slot_inv_mono; [|exact Isl]. done. }
    split. { intros _. split; [exact Hi'|done..| | |by destruct (sm_env _ _ Hmove)]; cbn [snd]; rewrite Hph; done. }
    rewrite Ist. cbn [is_sent is_gone]. rewrite Hb. apply wp_bind.
    apply (wp_drop_sender (SOpen true)); [by split_and!|left; by exists true|]. intros x' Hx'.
    eapply wp_ret; [apply sending_stable|exact Hx'|done]. }
  exists g. split; [done|]. split; [intros _; exact Hmove|]. rewrite Ist. cbn [is_sent is_gone]. rewrite Hb.
  change (Z.lor (enc false false false false) VALUE_SET) with (enc true false false false).
  clear Ist Ib It Itk Hb Hmove Hi Hph Hl Ho s. rename s1 into s.
  eapply wp_act; [apply sending_stable|exact Hx|]. clear s g Hx. intros s g (Hi & Hph & Hl & Ho).
  pose proof Hi as [(b & Ist & Ib) Itk Irf Ival Istr Iliv Idr Isl Iid]. cbn [fst snd] in *.
  eexists _, tt, (mkOG (SWrote v) (s_live g) (taken g) (r_drop g) (r_live g) (sg g)). split; [done|].
  match goal with |- guar 0 _ ?y /\ _ => set (x' := y) end.
  assert (inv x') as Hi'.
  { rewrite Hph in Ist, Itk, Idr. split; try done; [by exists b| | |].
    - intros Hf. cbn [x' snd s_live] in Hf. congruence.
    - cbn [x' fst snd set_value dropped s_live]. rewrite Idr, Hl. done.
    - unfold Notify.islot in *. eapply Notify.slot_inv_mono; [|exact Isl]. done. }
  split. { intros _. split; try done; cbn [snd]; rewrite Hph; done. }
  apply (wp_send_publish v); [by split_and!|done].
Qed.

(** What the sender ends with. *)
Definition sender_post (o : option T) (e : ended) (x : config) : Prop :=
  match e, o with
  | SenderEnded None, None => sending (SClosed false) false None x
  | SenderEnded (Some (ROk _)), Some v => sending (SSent v) false None x
  | SenderEnded (Some (RErr v')), Some v => v' = v /\ sending (SClosed true) false None x
  | _, _ => False
  end.

Lemma wp_sender_thread checks o Q x :
  sending (SOpen false) true None x -> (forall e x', sender_post o e x' -> Q e x') ->
  wp (rely 0) (guar 0) (sender_thread checks o) Q x.
Proof.
  intros Hx HQ. revert x Hx. induction checks as [|n IH]; intros x Hx; cbn [sender_thread].
  - destruct o as [v|]; apply wp_bind.
    + apply (wp_send v); [done|..]; intros x' Hx'; (eapply wp_ret; [apply sending_stable|exact Hx'|]);
        intros y Hy; by apply HQ.
    + apply (wp_drop_sender (SOpen false)); [done|left; by exists false|]. intros x' Hx'.
      eapply wp_ret; [apply sending_stable|exact Hx'|]. intros y Hy. by apply HQ.
  - apply wp_bind. eapply wp_act; [apply sending_stable|exact Hx|]. clear x Hx. intros s g Hx.
    eexists _, _, g. split; [done|]. split; [intros Hi; by apply sender_load|].
    eapply wp_ret; [apply sending_stable| |intros y Hy; by apply IH].
    destruct Hx as (Hi & ? & ? & ?). split; [by apply inv_stale|done].
Qed.
(** ** Receiver *)

(** The receiver has received exactly [acc]. *)
Definition received (acc : list T) (x : config) : Prop :=
  if taken x.2 then exists v, sph x.2 = SSent v /\ acc = [v] else acc = [].

Definition held (acc : list T) (dropping live : bool) (x : config) : Prop :=
  inv x /\ received acc x /\ r_drop x.2 = dropping /\ r_live x.2 = live.

Definition receiving (acc : list T) (st : Notify.Waiting) (x : config) : Prop :=
  held acc false true x /\ Notify.waiting recv_ref sg st x.

Lemma held_move acc d l x x' : held acc d l x -> sender_move x x' -> held acc d l x'.
Proof.
  intros (Hi & Ha & Hd & Hl) [Hi' Ht Hrd Hrl Hsent Henv]. split_and!; [done| |congruence..].
  unfold received in *. rewrite Ht. destruct (taken x.2); [|done].
  destruct Ha as (v & Hv & ->). exists v. split; [|done]. by apply Hsent.
Qed.

Lemma held_stable acc d l : stable (rely 1) (held acc d l).
Proof. intros x x' Hx Hm. eapply held_move; [exact Hx|]. apply Hm, Hx. Qed.

Lemma receiving_stable acc st : stable (rely 1) (receiving acc st).
Proof.
  intros x x' [Hx Hw] Hm. split; [by eapply held_stable|].
  eapply Notify.waiting_env; [exact Hw|]. apply (sm_env _ _ (Hm (proj1 Hx))).
Qed.

Lemma receiver_slot_move x x' :
  Notify.waiter_move recv_ref sg same x x' -> inv x -> receiver_move x x'.
Proof.
  intros Hm Hi. pose proof Hm as [Hsame Hst]. pose proof Hsame as (Hv & Hs & Hc & Hd & Hp & Hl & Ht & Hr & Hrl).
  split; try congruence; [|apply Hst]. eapply inv_same; [done|done| |].
  - eapply (Notify.waiter_move_inv _ _ _ _ _ o_in); [exact Hm|apply Hi].
  - intros j Hj. rewrite (Notify.ws_signallers _ _ _ _ _ _ Hst). by apply Hi.
Qed.

Lemma held_slot_env acc x x' :
  rely 1 x x' -> o_slot x -> held acc false true x ->
  o_slot x' /\ held acc false true x' /\ Notify.waiter_env recv_ref sg x x'.
Proof.
  intros Hm _ Hx. pose proof (held_stable _ _ _ _ _ Hx Hm) as Hx'. split_and!; [apply Hx'|done|].
  apply (sm_env _ _ (Hm (proj1 Hx))).
Qed.

Lemma held_slot_move acc x x' :
  Notify.waiter_move recv_ref sg same x x' -> o_slot x -> held acc false true x -> held acc false true x'.
Proof.
  intros Hm _ (Hi & Ha & Hd & Hl). pose proof (receiver_slot_move x x' Hm Hi) as [Hi' Hp _ _].
  destruct Hm as [(_ & _ & _ & _ & _ & _ & Ht & Hr & Hrl) _].
  split_and!; [done| |congruence..]. unfold received in *. by rewrite Ht, Hp.
Qed.

Lemma held_slot_guar acc x x' :
  Notify.waiter_move recv_ref sg same x x' -> o_slot x -> held acc false true x -> guar 1 x x'.
Proof. intros Hm _ _ Hi. by apply receiver_slot_move. Qed.

Lemma wp_receiver_arm acc k w Q x :
  receiving acc (Notify.Out k) x -> (forall x', receiving acc (Notify.Armed w k) x' -> Q tt x') ->
  wp (rely 1) (guar 1) (Notify.arm recv_ref w) Q x.
Proof.
  intros [Hx Hw] HQ.
  apply (Notify.wp_arm_waiting _ _ _ _ _ o_in _ _ (held acc false true) (held_slot_env acc) (held_slot_guar acc)
    (held_slot_move acc) k); [apply Hx|done|done|]. intros x' _ ? ?. by apply HQ.
Qed.

Lemma wp_receiver_disarm acc k w Q x :
  receiving acc (Notify.Armed w k) x -> (forall x', receiving acc (Notify.Out k) x' -> Q tt x') ->
  wp (rely 1) (guar 1) (Notify.disarm recv_ref) Q x.
Proof.
  intros [Hx Hw] HQ.
  apply (Notify.wp_disarm_waiting _ _ _ _ _ o_in _ _ (held acc false true) (held_slot_env acc) (held_slot_guar acc)
    (held_slot_move acc) k w); [apply Hx|done|done|]. intros x' _ ? ?. by apply HQ.
Qed.

(** The receiver has seen the value published; nothing writes the state any more. *)
Definition seen (v : T) (st : Z) (acc : list T) (wt : Notify.Waiting) (x : config) : Prop :=
  receiving acc wt x /\ sph x.2 = SSent v /\ state x.1 = st.

Lemma seen_stable v st acc wt : stable (rely 1) (seen v st acc wt).
Proof.
  intros x x' (Hx & Hp & Hs) Hm. split; [by eapply receiving_stable|].
  destruct (sm_sent _ _ (Hm (proj1 (proj1 Hx))) v Hp) as [? ?]. split; congruence.
Qed.

(** [take_value]: the value is moved out the first time only. *)
Lemma wp_take_value v st acc wt Q x :
  seen v st acc wt x ->
  (forall x', receiving [v] wt x' -> acc = [] -> Q (Some v) x') ->
  (forall x', receiving acc wt x' -> acc <> [] -> Q None x') ->
  wp (rely 1) (guar 1) (take_value st) Q x.
Proof.
  intros Hx Hsome Hnone. pose proof Hx as (((Hi0 & Hacc & _ & _) & _) & Hp & Hs). destruct (oi_state _ Hi0) as (b & Ist & _).
  rewrite Hp in Ist. cbn [is_sent is_gone] in Ist. unfold take_value. clear Hi0.
  assert (st = enc true false b (taken x.2)) as -> by congruence. clear Ist.
  destruct (has_enc true false b (taken x.2)) as (Hvs & _ & _ & Htk). rewrite Hvs, Htk.
  destruct (taken x.2) eqn:Ht.
  { eapply wp_ret; [apply seen_stable|exact Hx|]. intros y [Hy _]. apply Hnone; [done|].
    unfold received in Hacc. rewrite Ht in Hacc. by destruct Hacc as (? & _ & ->). }
  unfold received in Hacc. rewrite Ht in Hacc. subst acc. clear Hvs Htk Hp Hs.
  eapply wp_act; [apply seen_stable|exact Hx|]. clear x Hx Ht. intros s g Hx. eexists s, tt, g.
  split. { unfold debug_assert. by destruct overflow_checks. }
  split. { intros Hi. by apply receiver_still. }
  eapply wp_act; [apply seen_stable|exact Hx|]. clear s g Hx. intros s g (Hx & Hp & Hs).
  pose proof Hx as [(Hi & Hacc & Hd & Hl) Hw]. pose proof Hi as [(b' & Ist & Ib) Itk Irf Ival Istr Iliv Idr Isl Iid].
  cbn [fst snd] in *. assert (b' = b /\ taken g = false) as [-> Htk].
  { rewrite Hs, Hp in Ist. cbn [is_sent is_gone] in Ist. by destruct b, b', (taken g). }
  destruct (lor_enc true false b false) as (_ & _ & _ & ->).
  eexists _, tt, (mkOG (sph g) (s_live g) true (r_drop g) (r_live g) (sg g)). split; [done|].
  match goal with |- guar 1 _ ?y /\ _ => set (x' := y) end. assert (inv x') as Hi'.
  { split; try done; cbn [x' fst snd set_state sph s_live taken r_drop r_live sg state dropped].
    - exists b. split; [|done]. by rewrite Hp.
    - intros _. by rewrite Hp.
    - rewrite Idr, Hl. by rewrite !orb_true_r. }
  split; [intros _; by split|].
  eapply (wp_act _ _ _ _ (seen v (enc true false b true) [v] wt)); [apply seen_stable| |].
  { split_and!; try done. split; [|exact Hw]. split_and!; try done. exists v. by split. }
  subst x'. clear s g Hi Hacc Hd Hl Hw Ist Ib Itk Irf Ival Istr Iliv Idr Isl Iid Hp Hs Hx Hi' Htk. intros s g Hx.
  pose proof Hx as (((Hi & _) & _) & Hp & _). cbn [snd] in Hp. exists s, v, g.
  pose proof (oi_value _ Hi v) as Hval. cbn [fst snd] in Hval. rewrite Hval by by rewrite Hp.
  split; [done|]. split; [intros _; by apply receiver_still|].
  eapply wp_ret; [apply seen_stable|exact Hx|]. intros y [Hy _]. by apply Hsome.
Qed.
(** After finding nothing, an armed receiver is parked. *)
Abbreviation rest_ghost := (Notify.rest_ghost sg put_sg).

Lemma receiver_rest acc st s g :
  receiving acc st (s, g) -> ~ resolved (s, g) ->
  receiver_move (s, g) (s, rest_ghost st g) /\ receiving acc (Notify.rest st) (s, rest_ghost st g).
Proof.
  intros [Hx Hw] Hr. pose proof Hx as (Hi & Ha & Hd & Hl).
  destruct (Notify.waiting_rest _ _ _ _ _ o_in st s g (oi_slot _ Hi) Hw) as [[Hs Hw'] Hg]; [by intros g'|].
  generalize dependent (rest_ghost st g). intros g' Hs Hw' [-> |[p ->]].
  - split; [by apply receiver_still|done].
  - assert (inv (s, put_sg (Notify.set_waiter p (sg g)) g)) as Hi' by (by eapply inv_same; [|exact Hi|exact Hs|apply Hi]).
    split; [by split|]. split; [|done]. by split_and!.
Qed.

(** What reading the state shows. *)
Lemma receiver_sees acc st s g :
  receiving acc st (s, g) ->
  exists b, state s = enc (is_sent (sph g)) (is_gone (sph g)) b (taken g) /\
  (forall v, sph g = SSent v -> seen v (state s) acc st (s, g)).
Proof. intros Hx. pose proof Hx as [(Hi & _) _]. destruct (oi_state _ Hi) as (b & Hb & _). by exists b. Qed.

Lemma received_open acc s g : received acc (s, g) -> inv (s, g) -> is_sent (sph g) = false -> acc = [].
Proof.
  intros Ha Hi Hs. unfold received in Ha. cbn [snd] in *. destruct (taken g) eqn:Ht; [|done].
  pose proof (oi_taken _ Hi Ht) as Hc. cbn [snd] in Hc. congruence.
Qed.

(** A receiver that got an error: it has its value already, or the sender is gone
    without sending. *)
Definition over (acc : list T) (st : Notify.Waiting) (x : config) : Prop :=
  receiving acc st x /\ (acc = [] -> is_gone (sph x.2) = true).

Lemma over_stable acc st : stable (rely 1) (over acc st).
Proof.
  intros x x' [Hx Hg] Hm. split; [by eapply receiving_stable|]. intros Ha.
  apply (sm_gone _ _ (Hm (proj1 (proj1 Hx)))). by apply Hg.
Qed.

Lemma wp_resolve acc st Q x :
  receiving acc st x ->
  (forall v x', receiving [v] st x' -> acc = [] -> Q (Some (ROk v)) x') ->
  (forall x', over acc st x' -> Q (Some (RErr mkRecvError)) x') ->
  (forall x', receiving acc (Notify.rest st) x' -> acc = [] -> Q None x') ->
  wp (rely 1) (guar 1) resolve Q x.
Proof.
  intros Hx Hok Herr Hnone. eapply wp_act; [apply receiving_stable|exact Hx|]. clear x Hx. intros s g Hx.
  destruct (receiver_sees acc st s g Hx) as (b & Hst & Hseen).
  exists s, (state s). destruct (has_enc (is_sent (sph g)) (is_gone (sph g)) b (taken g)) as (Hv & Hg & _ & _).
  rewrite <-Hst in Hv, Hg. pose proof Hx as [(Hi & Ha & _) _]. destruct (is_sent (sph g)) eqn:Hsent.
  - destruct (sph g) as [r|v|v|r] eqn:Hp; try done. exists g. split; [done|]. split; [intros _; by apply receiver_still|].
    rewrite Hv. apply wp_bind. apply (wp_take_value v (state s) acc st); [by apply Hseen|..].
    + intros x' Hx' Hacc. eapply wp_ret; [apply receiving_stable|exact Hx'|]. intros y Hy. by apply Hok.
    + intros x' Hx' Hne. eapply wp_ret; [apply (over_stable acc st)|by split|]. intros y Hy. by apply Herr.
  - destruct (is_gone (sph g)) eqn:Hgone.
    + exists g. split; [done|]. split; [intros _; by apply receiver_still|]. rewrite Hv, Hg.
      eapply wp_ret; [apply (over_stable acc st)|by split|]. intros y Hy. by apply Herr.
    + destruct (receiver_rest acc st s g Hx) as [Hm Hrest]; [by unfold resolved; simpl; rewrite Hsent, Hgone|].
      exists (rest_ghost st g). split; [done|]. split; [intros _; exact Hm|]. rewrite Hv, Hg.
      eapply wp_ret; [apply receiving_stable|exact Hrest|]. intros y Hy. apply Hnone; [done|].
      by eapply received_open.
Qed.

Lemma wp_try_recv acc k Q x :
  receiving acc (Notify.Out k) x ->
  (forall v x', receiving [v] (Notify.Out k) x' -> acc = [] -> Q (ROk (Some v)) x') ->
  (forall r x', receiving acc (Notify.Out k) x' -> r = ROk None \/ r = RErr mkRecvError -> Q r x') ->
  wp (rely 1) (guar 1) try_recv Q x.
Proof.
  intros Hx Hok Hno. eapply wp_act; [apply receiving_stable|exact Hx|]. clear x Hx. intros s g Hx.
  destruct (receiver_sees acc _ s g Hx) as (b & Hst & Hseen). pose proof Hx as [(Hi & _) _].
  destruct (has_enc (is_sent (sph g)) (is_gone (sph g)) b (taken g)) as (Hv & Hg & _ & _).
  rewrite <-Hst in Hv, Hg. exists s, (state s), g. split; [done|]. split; [intros _; by apply receiver_still|].
  rewrite Hv, Hg. destruct (is_sent (sph g)) eqn:Hsent.
  - destruct (sph g) as [r|v|v|r] eqn:Hp; try done.
    apply wp_bind. apply (wp_take_value v (state s) acc (Notify.Out k)); [by apply Hseen|..].
    + intros x' Hx' Hacc. eapply wp_ret; [apply receiving_stable|exact Hx'|]. intros y Hy. by apply Hok.
    + intros x' Hx' _. eapply wp_ret; [apply receiving_stable|exact Hx'|]. intros y Hy. apply Hno; [done|by left].
  - destruct (is_gone (sph g)); (eapply wp_ret; [apply receiving_stable|exact Hx|]); intros y Hy; apply Hno; auto.
Qed.

Lemma wp_over_disarm acc k w Q x :
  over acc (Notify.Armed w k) x -> (forall x', over acc (Notify.Out k) x' -> Q tt x') ->
  wp (rely 1) (guar 1) (Notify.disarm recv_ref) Q x.
Proof.
  intros [[Hx Hw] Hg] HQ.
  apply (Notify.wp_disarm_waiting _ _ _ _ _ o_in _ _ (fun x => held acc false true x /\ (acc = [] -> is_gone (sph x.2) = true))
    ) with (k := k) (w := w); [| | |apply Hx|done|done|].
  - intros y y' Hm Hi [Hy Hgy]. destruct (held_slot_env acc y y' Hm Hi Hy) as (? & ? & ?). split_and!; try done.
    intros Ha. apply (sm_gone _ _ (Hm (proj1 Hy))). by apply Hgy.
  - intros y y' Hm Hi [Hy _]. by eapply held_slot_guar.
  - intros y y' Hm Hi [Hy Hgy]. split; [by eapply held_slot_move|]. destruct Hm as [(_ & _ & _ & _ & Hp & _) _]. by rewrite Hp.
  - intros x' _ [Hx' Hg'] Hw'. apply HQ. by split.
Qed.

Lemma wp_poll acc k w Q x :
  receiving acc (Notify.Out k) x ->
  (forall v x', receiving [v] (Notify.Out k) x' -> acc = [] -> Q (Ready (ROk v)) x') ->
  (forall x', over acc (Notify.Out k) x' -> Q (Ready (RErr mkRecvError)) x') ->
  (forall x', receiving acc (Notify.Resting w k) x' -> acc = [] -> Q Pending x') ->
  wp (rely 1) (guar 1) (poll w) Q x.
Proof.
  intros Hx Hok Herr Hpend. apply wp_bind. apply (wp_resolve acc (Notify.Out k)); [done|..].
  { intros v x' Hx' Hacc. eapply wp_ret; [apply receiving_stable|exact Hx'|]. intros y Hy. by apply Hok. }
  { intros x' Hx'. eapply wp_ret; [apply over_stable|exact Hx'|]. intros y Hy. by apply Herr. }
  clear x Hx. intros x Hx _. apply wp_bind. apply (wp_receiver_arm acc k w); [done|]. clear x Hx. intros x Hx.
  apply wp_bind. apply (wp_resolve acc (Notify.Armed w k)); [done|..].
  - intros v x' Hx' Hacc. apply wp_bind. apply (wp_receiver_disarm [v] k w); [done|]. intros y Hy.
    eapply wp_ret; [apply receiving_stable|exact Hy|]. intros z Hz. by apply Hok.
  - intros x' Hx'. apply wp_bind. apply (wp_over_disarm acc k w); [done|]. intros y Hy.
    eapply wp_ret; [apply over_stable|exact Hy|]. intros z Hz. by apply Herr.
  - intros x' Hx' Hacc. eapply wp_ret; [apply receiving_stable|exact Hx'|]. intros y Hy. by apply Hpend.
Qed.

(** The receiver between operations; a parked one has received nothing. *)
Definition between (acc : list T) (pk : option (waker * nat)) (x : config) : Prop :=
  match pk with
  | None => receiving acc (Notify.Out 0) x
  | Some (w, k) => receiving acc (Notify.Resting w k) x /\ acc = []
  end.

Lemma between_stable acc pk : stable (rely 1) (between acc pk).
Proof.
  intros x x' Hx Hm. destruct pk as [[w k]|]; simpl in *; [|by eapply receiving_stable].
  destruct Hx. split; [by eapply receiving_stable|done].
Qed.

Lemma receiving_out acc st k x : receiving acc st x -> k <= length (log x.1) -> receiving acc (Notify.Out k) x.
Proof. intros [Hx Hw] Hk. split; [done|]. eapply Notify.waiting_out; [apply Hx|exact Hw|done]. Qed.

Lemma between_out acc pk k x : between acc pk x -> k <= length (log x.1) -> receiving acc (Notify.Out k) x.
Proof.
  intros Hx Hk. destruct pk as [[w k0]|]; simpl in Hx; [destruct Hx|]; by eapply receiving_out.
Qed.

Lemma wp_receiver_step acc pk op Q x :
  between acc pk x -> (forall vs pk' x', between (acc ++ vs) pk' x' -> Q (vs, pk') x') ->
  wp (rely 1) (guar 1) (receiver_step op) Q x.
Proof.
  intros Hx HQ.
  assert (forall vs st y, receiving (acc ++ vs) st y -> wp (rely 1) (guar 1) (Ret (vs, None)) Q y) as Hend.
  { intros vs st y Hy. eapply wp_ret; [apply (between_stable (acc ++ vs) None)| |].
    - eapply receiving_out; [exact Hy|lia].
    - intros z Hz. by apply HQ. }
  destruct op as [|w].
  - apply wp_bind. apply (wp_try_recv acc 0); [by eapply between_out, Nat.le_0_l|..].
    + intros v x' Hx' ->. by eapply Hend.
    + intros r x' Hx' Hr. destruct Hr as [-> | ->]; eapply Hend; by rewrite app_nil_r.
  - eapply wp_act; [apply between_stable|exact Hx|]. intros s g Hy. pose proof (between_out _ _ _ _ Hy (le_n _)) as Hz.
    exists s, (length (log s)), g. split; [done|]. split; [intros Hi; by apply receiver_still|]. apply wp_bind.
    apply (wp_poll acc (length (log s)) w); [done|..].
    + intros v x' Hx' ->. by eapply Hend.
    + intros x' [Hx' _]. eapply Hend. by rewrite app_nil_r.
    + intros x' Hx' ->. eapply wp_ret; [apply (between_stable [] (Some (w, length (log s))))|by split|].
      intros y' Hy'. by apply HQ.
Qed.

Lemma wp_drop_receiver acc pk Q x :
  between acc pk x -> (forall x', held acc true false x' -> Q tt x') ->
  wp (rely 1) (guar 1) drop_receiver Q x.
Proof.
  intros Hx HQ. apply (between_out _ _ 0) in Hx; [|lia]. destruct Hx as [Hx _].
  eapply wp_act; [apply held_stable|exact Hx|]. clear x Hx. intros s g (Hi & Ha & Hd & Hl).
  pose proof Hi as [(b & Ist & Ib) Itk Irf Ival Istr Iliv Idr Isl Iid]. cbn [fst snd] in *.
  eexists _, (state s), (mkOG (sph g) (s_live g) (taken g) true (r_live g) (sg g)). split; [done|].
  match goal with |- guar 1 _ ?y /\ _ => set (x' := y) end. assert (inv x') as Hi'.
  { split; try done. exists true. split; [|done]. cbn [x' fst snd set_state state sph taken]. rewrite Ist. apply lor_enc. }
  split; [intros _; by split|]. eapply (wp_act _ _ _ _ (held acc true true)); [apply held_stable|by split_and!|].
  subst x'. clear s g b Hi Ha Hd Hl Ist Ib Itk Irf Ival Istr Iliv Idr Isl Iid Hi'. intros s g (Hi & Ha & Hd & Hl).
  pose proof Hi as [(b & Ist & Ib) Itk Irf Ival Istr Iliv Idr Isl Iid]. cbn [fst snd] in *.
  rewrite Hl in Istr, Idr. rewrite orb_true_r in Idr. rewrite Nat.add_comm in Istr.
  destruct (drop_arc_step s g (s_live g) Hi Istr Idr) as (ds & -> & Hds). outcome_simpl.
  eexists _, tt, (mkOG (sph g) (s_live g) (taken g) (r_drop g) false (sg g)). split; [done|].
  match goal with |- guar 1 _ ?y /\ _ => set (x' := y) end. assert (inv x') as Hi'.
  { split; try done; cbn [x' fst snd strong dropped s_live r_live taken sph]; [by exists b|]. by rewrite orb_false_r. }
  split; [intros _; by split|]. eapply wp_ret; [apply held_stable| |exact HQ]. by split_and!.
Qed.

(** What the receiver ends with. *)
Definition receiver_post (drops : bool) (e : ended) (x : config) : Prop :=
  match e with
  | ReceiverEnded acc pk => if drops then pk = None /\ held acc true false x else between acc pk x
  | SenderEnded _ => False
  end.

Lemma wp_receiver_thread ops drops acc pk Q x :
  between acc pk x -> (forall e x', receiver_post drops e x' -> Q e x') ->
  wp (rely 1) (guar 1) (receiver_thread ops drops acc pk) Q x.
Proof.
  intros Hx HQ. revert acc pk x Hx. induction ops as [|op ops IH]; intros acc pk x Hx; cbn [receiver_thread].
  - destruct drops.
    + apply wp_bind. eapply wp_drop_receiver; [exact Hx|]. intros x' Hx'.
      eapply wp_ret; [apply held_stable|exact Hx'|]. intros y Hy. by apply HQ.
    + eapply wp_ret; [apply between_stable|exact Hx|]. intros y Hy. by apply HQ.
  - apply wp_bind. eapply wp_receiver_step; [exact Hx|]. intros vs pk' x' Hx'. by eapply IH.
Qed.

(** ** The channel *)
Definition one_ghost0 : one_ghost := mkOG (SOpen false) true false false true Notify.ghost0.

Lemma oneshot_inv0 misses : inv (oneshot misses, one_ghost0).
Proof. split; try done; [by exists false|apply Notify.slot_inv_new]. Qed.

Lemma oneshot_run misses sch checks o ops drops :
  exists s ps g, run_sched sch (oneshot misses) (oneshot_threads checks o ops drops) = Done (s, ps) /\
    forall es er, ps = [Ret es; Ret er] -> sender_post o es (s, g) /\ receiver_post drops er (s, g).
Proof.
  destruct (wp_sound rely guar (fun i e x => match i with 0 => sender_post o e x | _ => receiver_post drops e x end)
    sch (oneshot misses) one_ghost0 (oneshot_threads checks o ops drops)) as (s & ps & g & Hrun & Hall & _).
  - intros i j y y'. apply oneshot_guar_rely.
  - pose proof (oneshot_inv0 misses) as Hi. intros [|[|i]] q Hp; simpl in Hp; [injection Hp as <-|injection Hp as <-|done].
    + apply wp_sender_thread; [|done]. by split_and!.
    + apply wp_receiver_thread; [|done]. split; [by split_and!|]. split; [by left|done].
  - exists s, ps, g. split; [done|]. intros es er ->.
    split; [apply (all_wp_returned _ _ _ _ _ 0 es Hall eq_refl)|apply (all_wp_returned _ _ _ _ _ 1 er Hall eq_refl)].
Qed.
(** A parked receiver whose channel is resolved has been woken. *)
Lemma receiver_woken acc w k s g :
  receiving acc (Notify.Resting w k) (s, g) -> resolved (s, g) -> Notify.signallers (sg g) !! 0 = None ->
  Notify.fired_since w k (log s).
Proof.
  intros [(Hi & _) Hw] Hr Hs. apply (Notify.parked_told _ _ _ _ w k (oi_slot _ Hi)); [|done|done].
  apply map_eq. intros j. rewrite lookup_empty. destruct (decide (j = 0)) as [->|Hj]; [done|]. by apply (oi_ids _ Hi).
Qed.

(** Polling a resolved channel completes. *)
Lemma poll_resolved w s g :
  inv (s, g) -> taken g = false -> resolved (s, g) ->
  exists s', run_alone (poll w) s =
    Done (s', Ready match written (sph g) with Some v => ROk v | None => RErr mkRecvError end).
Proof.
  intros Hi Ht Hr. destruct (oi_state _ Hi) as (b & Hst & _). pose proof (oi_value _ Hi) as Hv. unfold resolved in Hr.
  cbn [fst snd] in *. rewrite Ht in Hst. destruct (sph g) as [r|v|v|r]; try done; cbn [is_sent is_gone written] in *.
  - specialize (Hv v eq_refl). destruct s as [val st rc str dr lg ms]. cbn [state value] in *. subst st val.
    unfold poll, resolve, take_value, debug_assert. destruct overflow_checks, b; eexists; reflexivity.
  - destruct s as [val st rc str dr lg ms]. cbn [state value] in *. subst st.
    destruct b; eexists; reflexivity.
Qed.
(** How both threads end: a refused value is handed back, and only because the
    receiver was dropped; an accepted one is received once or, once both handles are
    gone, dropped once; without a send nothing is received. *)
Definition exactly_once (o : option T) (drops : bool) (es er : ended) (ds : list T) : Prop :=
  match o, es, er with
  | None, SenderEnded None, ReceiverEnded vs _ => vs = [] /\ ds = []
  | Some v, SenderEnded (Some (RErr v')), ReceiverEnded vs _ => v' = v /\ vs = [] /\ ds = [] /\ drops = true
  | Some v, SenderEnded (Some (ROk _)), ReceiverEnded vs _ =>
      if drops then vs ++ ds = [v] else (vs = [] \/ vs = [v]) /\ ds = []
  | _, _, _ => False
  end.

Lemma ended_once o drops es er s g :
  sender_post o es (s, g) -> receiver_post drops er (s, g) -> exactly_once o drops es er (dropped s).
Proof.
  intros Hs Hr. destruct er as [|vs pk]; [done|].
  assert (inv (s, g) /\ received vs (s, g) /\ r_drop g = drops /\ r_live g = negb drops) as (Hi & Ha & Hd & Hl).
  { destruct drops; cbn [receiver_post] in Hr; [destruct Hr as (_ & ? & ? & ? & ?); done|].
    apply (between_out _ _ 0) in Hr; [|lia]. destruct Hr as [(? & ? & ? & ?) _]. done. }
  pose proof (oi_dropped _ Hi) as Hdr. pose proof (oi_taken _ Hi) as Htk. pose proof (oi_refused _ Hi) as Hrf.
  unfold received in Ha. cbn [fst snd] in *. rewrite Hl in Hdr.
  assert (forall p, sph g = p -> is_sent p = false -> vs = [] /\ dropped s = []) as Hnone.
  { intros p Heq Hp. rewrite Heq, Hp, !orb_true_r in Hdr. split; [|done]. rewrite Heq, Hp in Htk.
    destruct (taken g); [by specialize (Htk eq_refl)|done]. }
  destruct es as [[[u|v']|]|]; destruct o as [v|]; try done; cbn [sender_post exactly_once] in *.
  - destruct Hs as (_ & Hp & Hsl & _). cbn [snd] in *. rewrite Hp, Hsl in *. destruct (taken g).
    + destruct Ha as (v0 & [= <-] & ->). destruct drops; simpl in *; rewrite Hdr; auto.
    + subst vs. destruct drops; simpl in *; rewrite Hdr; auto.
  - destruct Hs as (-> & _ & Hp & _). cbn [snd] in *. destruct (Hnone _ Hp eq_refl) as [-> ->].
    rewrite Hp in Hrf. rewrite <-Hd, Hrf by done. done.
  - destruct Hs as (_ & Hp & _). by apply (Hnone _ Hp).
Qed.

(** What is known of a channel whose sender is done and whose receiver is not dropped. *)
Lemma sender_done o es s g :
  sender_post o es (s, g) -> inv (s, g) -> r_drop g = false ->
  resolved (s, g) /\ Notify.signallers (sg g) !! 0 = None /\ written (sph g) = o.
Proof.
  intros Hs Hi Hd. pose proof (oi_refused _ Hi) as Hrf. unfold resolved. cbn [snd] in *.
  destruct es as [[[u|v']|]|]; destruct o as [v|]; try done; cbn [sender_post] in Hs.
  - destruct Hs as (_ & Hp & _ & Ho). cbn [snd] in *. by rewrite Hp.
  - destruct Hs as (-> & _ & Hp & _ & Ho). cbn [snd] in Hp. rewrite Hp in Hrf. by rewrite Hrf in Hd.
  - destruct Hs as (_ & Hp & _ & Ho). cbn [snd] in *. by rewrite Hp.
Qed.

Lemma ended_woken o es vs w k s g :
  sender_post o es (s, g) -> receiver_post false (ReceiverEnded vs (Some (w, k))) (s, g) ->
  Notify.fired_since w k (log s) /\
  forall w', exists s', run_alone (poll w') s = Done (s', Ready match o with Some v => ROk v | None => RErr mkRecvError end).
Proof.
  intros Hs [Hr ->]. pose proof Hr as [(Hi & Ha & Hd & _) _].
  destruct (sender_done o es s g Hs Hi Hd) as (Hres & Hsig & Hwr).
  split; [by eapply receiver_woken|]. intros w'.
  assert (taken g = false) as Ht.
  { unfold received in Ha. cbn [snd] in Ha. destruct (taken g); [|done]. by destruct Ha as (? & _ & ?). }
  destruct (poll_resolved w' s g Hi Ht Hres) as (s' & Hs'). exists s'. by rewrite Hs', Hwr.
Qed.
End oneshot.

Section theorems.
Context `{BuildMode} `{Wakers} {T : Type}.

(** C16: a oneshot delivers exactly once and never leaks. The sender sends [v]
    (after any number of [is_closed] calls) or is dropped; the receiver polls and
    tries in any order and may be dropped; their accesses interleave in any way,
    and the sender's [Acquire] loads may miss what the receiver did. Nothing panics
    or reads an uninitialised cell, and when both are done: a refused send hands
    [v] back and happens only when the receiver was dropped; an accepted [v] is
    received once or, once both handles are gone, dropped once; without a send
    nothing is received. *)
Theorem oneshot_exactly_once (misses : list Z) (checks : nat) (o : option T) (ops : list receiver_op) (drops : bool)
    (sch : list nat) :
  exists s ps, run_sched sch (oneshot misses) (oneshot_threads checks o ops drops) = Done (s, ps) /\
    forall es er, ps = [Ret es; Ret er] -> exactly_once o drops es er (dropped s).
Proof.
  destruct (oneshot_run misses sch checks o ops drops) as (s & ps & g & Hrun & Hend). exists s, ps. split; [done|].
  intros es er Hps. destruct (Hend es er Hps). by eapply ended_once.
Qed.

(** C17: a oneshot loses no wakeup. When the sender is done, by sending or by being
    dropped, and the last poll left the receiver parked with waker [w], a waker of
    its task was fired during or after that poll; and polling once more completes,
    with the value if it was sent and with an error otherwise. *)
Theorem oneshot_no_lost_wakeup (misses : list Z) (checks : nat) (o : option T) (ops : list receiver_op) (sch : list nat)
    s es vs w k :
  run_sched sch (oneshot misses) (oneshot_threads checks o ops false) =
    Done (s, [Ret es; Ret (ReceiverEnded vs (Some (w, k)))]) ->
  Notify.fired_since w k (log s) /\
  forall w', exists s', run_alone (poll w') s =
    Done (s', Ready match o with Some v => ROk v | None => RErr mkRecvError end).
Proof.
  intros Hrun. destruct (oneshot_run misses sch checks o ops false) as (s' & ps & g & Hrun' & Hend).
  rewrite Hrun in Hrun'. injection Hrun' as <- <-. destruct (Hend _ _ eq_refl). by eapply ended_woken.
Qed.
End theorems.

#[local] Instance nat_wakers : Wakers := {| waker := nat; will_wake := Nat.eqb |}.
#[local] Existing Instance debug_build.

(** The receiver parks before the sender publishes. *)
Definition demo_ops : list (receiver_op (H0 := nat_wakers)) := [TryRecv; PollRecv 9].
Definition demo_sch : list nat := replicate 20 1 ++ replicate 20 0.

Lemma oneshot_no_lost_wakeup_witness :
  exists s : Inner (H0 := nat_wakers) (T := nat),
    run_sched demo_sch (oneshot []) (oneshot_threads 1 (Some 5) demo_ops false) =
      Done (s, [Ret (SenderEnded (Some (ROk tt))); Ret (ReceiverEnded (H0 := nat_wakers) [] (Some (9, 0)))]) /\
    Notify.fired_since (H0 := nat_wakers) 9 0 (log s).
Proof.
  eexists. split; [vm_compute; reflexivity|].
  refine (proj1 (oneshot_no_lost_wakeup (H0 := nat_wakers) [] 1 (Some 5) demo_ops demo_sch _ (SenderEnded (Some (ROk tt))) [] 9 0 _)).
  vm_compute. reflexivity.
Defined.
(** The send misses that the receiver is gone: the value is dropped. *)
Definition race_sch : list nat := [1; 1] ++ replicate 20 0.

Lemma oneshot_exactly_once_witness :
  exists s : Inner (H0 := nat_wakers) (T := nat),
    run_sched race_sch (oneshot [RECEIVER_DROPPED]) (oneshot_threads 0 (Some 5) [] true) =
      Done (s, [Ret (SenderEnded (Some (ROk tt))); Ret (ReceiverEnded (H0 := nat_wakers) [] None)]) /\ dropped s = [5].
Proof.
  destruct (oneshot_exactly_once (H0 := nat_wakers) [RECEIVER_DROPPED] 0 (Some 5) [] true race_sch) as (s & ps & Hrun & Hend).
  pose proof Hrun as Hrun'. vm_compute in Hrun'. injection Hrun' as <- <-.
  eexists. split; [exact Hrun|]. exact (Hend _ _ eq_refl).
Defined.
End OneShot.
