(* ===== verification/Blocking.v ===== *)
(** * [block_on] ([src/blocking.rs])

    [Module Blocking]: driving a future on a thread that parks in between. The
    future is any [poll] over its own state and a shared state that logs the
    wakers it fires; what [block_on] needs of it is the interface [Waits], which
    the receiver of [OneShot.v] implements here and the operations of
    [RingBuffer.v] in [RingBlocking.v]. [block_on] on the receiver against a sender
    is the composition of the two: the thread never sleeps through the send. *)
From stdpp Require Import base list gmap numbers relations strings.
From S2P Require Import Prelude WaitList Concurrency Notify OneShot.

Module Blocking.
Section block_on.
Context `{Wk : Wakers} {S F A : Type}.
(** The future's own state and its [poll], the log of the wakers it fires, the
    thread's waker and which wakers unpark the thread; [spurious] are the returns
    of [park] without [unpark], or on a token left over from before. *)
Context (poll : F -> waker -> prog S (F * Poll A)) (log : S -> list waker) (me : waker) (unparks : waker -> bool).
Context (spurious : nat -> bool).

(** The park token of the thread: [unpark] has been called since the token was
    last consumed, when [c] wakers had been fired. *)
Definition token (c : nat) (s : S) : bool := existsb unparks (drop c (log s)).

(** The thread is in [park]; it looks for the token at most [n] times. [RErr]:
    it is still parked. *)
Fixpoint park_loop (n c : nat) (f : F) : prog S (F * result A nat) :=
  match n with
  | 0 => Ret (f, RErr c)
  | Datatypes.S n =>
      '(t, c') ← load (fun s => (token c s, length (log s)));
      if (t : bool) || spurious n then
        '(f, r) ← poll f me;
        match r with
        | Ready output => Ret (f, ROk output)
        | Pending => park_loop n c' f
        end
      else park_loop n c f
  end.

Definition block_on (n : nat) (f : F) : prog S (F * result A nat) :=
  c ← load (fun s => length (log s));
  '(f, r) ← poll f me;
  match r with
  | Ready output => Ret (f, ROk output)
  | Pending => park_loop n c f
  end.

(** ** What a future promises

    [w_out f k]: it may be polled, [k] wakers had been fired when its caller last
    looked. [w_rest f w k]: it has been left pending by a poll with waker [w] that
    began then. [w_end f a]: it has resolved to [a]. *)
Class Waits {Gh : Type} (R G : relation (S * Gh)) : Type := {
  w_out : F -> nat -> S * Gh -> Prop;
  w_rest : F -> waker -> nat -> S * Gh -> Prop;
  w_end : F -> A -> S * Gh -> Prop;
  w_out_stable f k : stable R (w_out f k);
  w_rest_stable f w k : stable R (w_rest f w k);
  w_end_stable f a : stable R (w_end f a);
  w_poll f w k Q x : w_out f k x -> (forall f' a y, w_end f' a y -> Q (f', Ready a) y) ->
    (forall f' y, w_rest f' w k y -> Q (f', Pending) y) -> wp R G (poll f w) Q x;
  w_look f k x : w_out f k x -> w_out f (length (log x.1)) x /\ G x x;
  w_again f w k k' x : w_rest f w k x -> k' <= length (log x.1) -> w_out f k' x /\ G x x
}.

Section proof.
Context {Gh : Type} (R G : relation (S * Gh)) `{Hw : !Waits R G}.

Lemma wp_poll_then n c f Q x :
  w_out f c x -> (forall f' a y, w_end f' a y -> Q (f', ROk a) y) ->
  (forall f' y, w_rest f' me c y -> wp R G (park_loop n c f') Q y) ->
  wp R G ('(f, r) ← poll f me; match r with Ready output => Ret (f, ROk output) | Pending => park_loop n c f end) Q x.
Proof.
  intros Hx Hend Hrest. apply wp_bind. eapply w_poll; [exact Hx|..].
  - intros f' a y Hy. eapply wp_ret; [apply w_end_stable|exact Hy|]. intros z Hz. by apply Hend.
  - exact Hrest.
Qed.

Lemma wp_park_loop n c f Q x :
  w_rest f me c x -> (forall f' a y, w_end f' a y -> Q (f', ROk a) y) ->
  (forall f' c y, w_rest f' me c y -> Q (f', RErr c) y) ->
  wp R G (park_loop n c f) Q x.
Proof.
  intros Hx Hend Hstill. revert c f x Hx. induction n as [|n IH]; intros c f x Hx; cbn [park_loop].
  { eapply wp_ret; [apply w_rest_stable|exact Hx|]. intros y Hy. by apply Hstill. }
  eapply wp_act; [apply w_rest_stable|exact Hx|]. clear x Hx. intros s g Hx. exists s, (token c s, length (log s)), g.
  destruct (w_again f me c (length (log s)) (s, g) Hx) as [Ho Hg]; [done|]. split; [done|]. split; [exact Hg|].
  destruct (token c s || spurious n); [|by apply IH]. apply wp_poll_then; [exact Ho|exact Hend|].
  intros f' y Hy. by apply IH.
Qed.

(** [block_on] returns what the future resolved to, or is parked by a poll that
    began after the last time the token was consumed. *)
Lemma wp_block_on n k f Q x :
  w_out f k x -> (forall f' a y, w_end f' a y -> Q (f', ROk a) y) ->
  (forall f' c y, w_rest f' me c y -> Q (f', RErr c) y) ->
  wp R G (block_on n f) Q x.
Proof.
  intros Hx Hend Hstill. eapply wp_act; [apply w_out_stable|exact Hx|]. clear x Hx. intros s g Hx.
  destruct (w_look f k (s, g) Hx) as [Ho Hg]. exists s, (length (log s)), g. split; [done|]. split; [exact Hg|].
  apply wp_poll_then; [exact Ho|exact Hend|]. intros f' y Hy. by apply wp_park_loop.
Qed.
End proof.

(** A poll's waker fired since it began: the token is there. *)
Lemma fired_token c s :
  (forall x, Notify.wakes x me -> unparks x = true) -> Notify.fired_since me c (log s) -> token c s = true.
Proof.
  intros Hun (x & Hx & Hw). unfold token. apply existsb_exists. exists x. split; [|by apply Hun]. by apply list_elem_of_In.
Qed.

(** With the token there and the future ready, the loop is over. *)
Lemma park_loop_woken n c f f' s s' a :
  token c s = true -> run_alone (poll f me) s = Done (s', (f', Ready a)) ->
  run_alone (park_loop (Datatypes.S n) c f) s = Done (s', (f', ROk a)).
Proof.
  intros Ht Hp. cbn [park_loop]. rewrite run_alone_bind. unfold load, act. cbn [run_alone]. outcome_simpl.
  rewrite Ht. cbn [orb]. by rewrite run_alone_bind, Hp.
Qed.
End block_on.

(** ** Blocking on a oneshot *)
Section oneshot.
Context `{Bm : BuildMode} `{Wk : Wakers} {T : Type}.
Abbreviation recv_result := (result T OneShot.RecvError).

(** The receiver is its own future; it has no state of its own. *)
Definition poll_recv (f : unit) (w : waker) : prog OneShot.Inner (unit * Poll recv_result) :=
  r ← OneShot.poll (T := T) w; Ret (f, r).

(** The receiver has resolved to [r]. *)
Definition answered (r : recv_result) (x : OneShot.Inner (T := T) * OneShot.one_ghost (T := T)) : Prop :=
  match r with
  | ROk v => OneShot.receiving [v] (Notify.Out 0) x
  | RErr _ => OneShot.over [] (Notify.Out 0) x
  end.

Lemma answered_stable r : stable (OneShot.rely 1) (answered r).
Proof. destruct r; [apply OneShot.receiving_stable|apply OneShot.over_stable]. Qed.

(** The receiver's future as [block_on] sees it. *)
#[local] Program Instance oneshot_waits :
    Waits poll_recv OneShot.log (OneShot.rely 1) (OneShot.guar 1) := {
  w_out _ k := OneShot.receiving [] (Notify.Out k);
  w_rest _ w k := OneShot.receiving [] (Notify.Resting w k);
  w_end _ := answered;
  w_out_stable _ k := OneShot.receiving_stable [] (Notify.Out k);
  w_rest_stable _ w k := OneShot.receiving_stable [] (Notify.Resting w k);
  w_end_stable _ := answered_stable
}.
Next Obligation.
  intros f w k Q x Hx Hend Hrest. apply wp_bind. eapply OneShot.wp_poll; [exact Hx|..].
  - intros v y Hy _. eapply (wp_ret _ _ _ (answered (ROk v))); [apply answered_stable| |by intros z; apply Hend].
    eapply OneShot.receiving_out; [exact Hy|lia].
  - intros y [Hy Hg]. eapply (wp_ret _ _ _ (answered (RErr OneShot.mkRecvError)));
      [apply answered_stable| |by intros z; apply Hend].
    split; [|exact Hg]. eapply OneShot.receiving_out; [exact Hy|lia].
  - intros y Hy _. eapply wp_ret; [apply OneShot.receiving_stable|exact Hy|]. intros z Hz. by apply Hrest.
Qed.
Next Obligation.
  intros f k [s g] Hx. split; [by eapply OneShot.receiving_out|]. intros Hi. by apply OneShot.receiver_still.
Qed.
Next Obligation.
  intros f w k k' [s g] Hx Hk. split; [by eapply OneShot.receiving_out|]. intros Hi. by apply OneShot.receiver_still.
Qed.

Inductive bended : Type :=
| Sender (e : OneShot.ended (T := T))
| Blocked (r : result recv_result nat).

(** A sender, and a thread that blocks on the receiver. *)
Definition blocking_threads (checks : nat) (o : option T) (me : waker) (unparks : waker -> bool)
    (spurious : nat -> bool) (n : nat) : list (prog OneShot.Inner bended) :=
  [ (e ← OneShot.sender_thread checks o; Ret (Sender e));
    ('(_, r) ← block_on poll_recv OneShot.log me unparks spurious n tt; Ret (Blocked r)) ].

Definition bends (o : option T) (me : waker) (i : nat) (e : bended) (x : OneShot.Inner (T := T) * OneShot.one_ghost (T := T)) : Prop :=
  match i, e with
  | 0, Sender es => OneShot.sender_post o es x
  | 1, Blocked (ROk r) => answered r x
  | 1, Blocked (RErr c) => OneShot.receiving [] (Notify.Resting me c) x
  | _, _ => False
  end.

Lemma sender_post_stable o es : stable (OneShot.rely 0) (OneShot.sender_post (T := T) o es).
Proof.
  intros x x' Hx Hm. destruct es as [[[u|v']|]|]; destruct o as [v|]; try done; cbn [OneShot.sender_post] in *.
  - by eapply OneShot.sending_stable.
  - destruct Hx as [? Hx]. split; [done|]. by eapply OneShot.sending_stable.
  - by eapply OneShot.sending_stable.
Qed.

Lemma blocking_run misses checks o me unparks spurious n sch :
  exists s ps g, run_sched sch (OneShot.oneshot misses) (blocking_threads checks o me unparks spurious n) = Done (s, ps) /\
    forall es r, ps = [Ret (Sender es); Ret (Blocked r)] -> OneShot.sender_post o es (s, g) /\ bends o me 1 (Blocked r) (s, g).
Proof.
  destruct (wp_sound OneShot.rely OneShot.guar (bends o me) sch (OneShot.oneshot misses) OneShot.one_ghost0
    (blocking_threads checks o me unparks spurious n)) as (s & ps & g & Hrun & Hall & _).
  - intros i j y y'. apply OneShot.oneshot_guar_rely.
  - pose proof (OneShot.oneshot_inv0 (T := T) misses) as Hi. intros [|[|i]] q Hp; cbn [lookup list_lookup blocking_threads] in Hp; [apply (inj Some) in Hp; subst q; apply wp_bind..|done].
    + apply OneShot.wp_sender_thread; [by split_and!|]. intros e y Hy. eapply wp_ret; [apply sender_post_stable|exact Hy|done].
    + eapply (wp_block_on _ _ _ _ _ _ _ n 0 tt).
      * split; [by split_and!|]. split; [by left|done].
      * intros f a y Hy. eapply wp_ret; [apply answered_stable|exact Hy|done].
      * intros f c y Hy. eapply wp_ret; [apply OneShot.receiving_stable|exact Hy|done].
  - exists s, ps, g. split; [done|]. intros es r ->.
    split; [apply (all_wp_returned _ _ _ _ _ 0 _ Hall eq_refl)|apply (all_wp_returned _ _ _ _ _ 1 _ Hall eq_refl)].
Qed.

Definition answer (o : option T) : recv_result :=
  match o with Some v => ROk v | None => RErr OneShot.mkRecvError end.

(** The answer received is what was sent. *)
Lemma answered_sent o s g r :
  answered r (s, g) -> OneShot.written (OneShot.sph g) = o -> OneShot.resolved (s, g) -> r = answer o.
Proof.
  unfold OneShot.resolved. cbn [snd]. intros Hr Ho Hres. destruct r as [v|[]].
  - destruct Hr as [(_ & Ha & _) _]. unfold OneShot.received in Ha. cbn [snd] in Ha.
    destruct (OneShot.taken g); [|done]. destruct Ha as (v' & Hp & [= <-]). rewrite Hp in Ho. by rewrite <-Ho.
  - destruct Hr as [_ Hg]. specialize (Hg eq_refl). cbn [snd] in Hg. by destruct (OneShot.sph g); rewrite <-Ho.
Qed.

(** C18: a thread blocked on a oneshot receives what is sent. The sender sends [o]
    or is dropped, the thread runs [block_on] on the receiver, [park] may return
    spuriously, their accesses interleave in any way and the sender's [Acquire]
    loads may miss what the receiver did: nothing faults. When the
    sender is done, a [block_on] that returned gave the value sent, or an error if
    none was; and one that is parked has its park token, returns from [park] at
    the next look and then returns that answer. *)
Theorem blocking_recv_returns (misses : list Z) (checks : nat) (o : option T) (me : waker) (unparks : waker -> bool)
    (spurious : nat -> bool) (n : nat) (sch : list nat) :
  (forall x, Notify.wakes x me -> unparks x = true) ->
  exists s ps, run_sched sch (OneShot.oneshot misses) (blocking_threads checks o me unparks spurious n) = Done (s, ps) /\
    forall es r, ps = [Ret (Sender es); Ret (Blocked r)] ->
      match r with
      | ROk output => output = answer o
      | RErr c => token OneShot.log unparks c s = true /\
          forall m, exists s', run_alone (park_loop poll_recv OneShot.log me unparks spurious (S m) c tt) s = Done (s', (tt, ROk (answer o)))
      end.
Proof.
  intros Hun. destruct (blocking_run misses checks o me unparks spurious n sch) as (s & ps & g & Hrun & Hend).
  exists s, ps. split; [done|]. intros es r Hps. destruct (Hend es r Hps) as [Hs Hr].
  assert (OneShot.held [] false true (s, g) \/ exists v, OneShot.held [v] false true (s, g)) as Hh.
  { destruct r as [[v|[]]|c]; [right; exists v; apply Hr|left..]; [destruct Hr as [Hr _]|]; apply Hr. }
  assert (OneShot.inv (s, g) /\ OneShot.r_drop g = false) as [Hi Hd].
  { destruct Hh as [Hh|[v Hh]]; destruct Hh as (? & _ & ? & _); done. }
  destruct (OneShot.sender_done o es s g Hs Hi Hd) as (Hres & Hsig & Hwr).
  destruct r as [output|c]; [by eapply answered_sent|].
  pose proof (fired_token _ _ _ c s Hun (OneShot.receiver_woken _ _ _ _ _ Hr Hres Hsig)) as Ht. split; [exact Ht|]. intros m.
  assert (OneShot.taken g = false) as Htk.
  { destruct Hr as [(_ & Ha & _) _]. unfold OneShot.received in Ha. cbn [snd] in Ha.
    destruct (OneShot.taken g); [|done]. by destruct Ha as (? & _ & ?). }
  destruct (OneShot.poll_resolved me s g Hi Htk Hres) as (s' & Hs'). exists s'.
  rewrite Hwr in Hs'.
  apply park_loop_woken; [exact Ht|]. unfold poll_recv. by rewrite run_alone_bind, Hs'.
Qed.
End oneshot.

#[local] Instance nat_wakers : Wakers := {| waker := nat; will_wake := Nat.eqb |}.
#[local] Existing Instance debug_build.

(** The thread parks and looks twice for its token before the value is sent. *)
Definition parked_sch : list nat := replicate 30 1 ++ replicate 30 0.

Lemma blocking_recv_returns_witness :
  exists s : OneShot.Inner (H0 := nat_wakers) (T := nat),
    run_sched parked_sch (OneShot.oneshot []) (blocking_threads (Wk := nat_wakers) 1 (Some 5) 9 (Nat.eqb 9) (fun _ => false) 2) =
      Done (s, [Ret (Sender (OneShot.SenderEnded (Some (ROk tt)))); Ret (Blocked (RErr 0))]) /\
    forall m, exists s', run_alone (park_loop (Wk := nat_wakers) poll_recv OneShot.log 9 (Nat.eqb 9) (fun _ => false) (S m) 0 tt) s =
      Done (s', (tt, ROk (ROk 5))).
Proof.
  destruct (blocking_recv_returns (Wk := nat_wakers) [] 1 (Some 5) 9 (Nat.eqb 9) (fun _ => false) 2 parked_sch)
    as (s & ps & Hrun & Hend).
  { intros x Hx. apply Nat.eqb_eq. destruct Hx as [-> |Hx]; [done|]. apply Nat.eqb_eq in Hx. lia. }
  pose proof Hrun as Hrun'. vm_compute in Hrun'. injection Hrun' as <- <-.
  eexists. split; [exact Hrun|]. exact (proj2 (Hend _ _ eq_refl)).
Defined.
End Blocking.
