(* ===== verification/RingBlocking.v ===== *)
(** * Blocking operations of [RingBuf] ([src/site_d/ringbuf.rs], [src/blocking.rs])

    [Module RingBlocking]: [push_blocking], [push_slice_blocking], [pop_blocking]
    and [pop_slice_blocking], that is [block_on] of [Blocking.v] over the async
    operations of [RingBuffer.v], whose futures implement [Blocking.Waits]. Two
    threads that use the buffer this way never deadlock. *)
From stdpp Require Import base list gmap numbers relations strings.
From S2P Require Import Prelude WaitList Concurrency Notify RingBuffer Blocking.

Module RingBlocking.
Import RingBuffer.Ring.

Section ring.
Context `{Bm : BuildMode} `{Wk : Wakers} {T : Type} (capacity : Z).
Abbreviation config := (RingBufferShared (T := T) * ring_ghost (T := T))%type.

(** ** The async operations as futures

    The states of [async fn push] and [async fn push_slice]: not polled yet, or
    awaiting the inner future. *)
Inductive push_async : Type :=
| PushStart (v : T)
| PushAwait (value : option T)
| PushSliceStart (items : list T)
| PushSliceAwait (f : PushSliceFuture (T := T)).

(** The first polls. *)
Definition poll_push_first (p : Producer) (value : T) (w : waker) :
    prog RingBufferShared (Producer * push_async * Poll unit) :=
  '(p, r) ← try_push capacity p value;
  match r with
  | ROk _ => Ret (p, PushAwait None, Ready tt)
  | RErr v => '(p, value, r) ← poll_push capacity p (Some v) w; Ret (p, PushAwait value, r)
  end.

Definition poll_push_slice_first (p : Producer) (items : list T) (w : waker) :
    prog RingBufferShared (Producer * push_async * Poll unit) :=
  match items with
  | [] => Ret (p, PushSliceAwait (mkPushSlice [] 0 0), Ready tt)
  | _ =>
      '(p, n) ← try_push_slice capacity p items;
      let f := mkPushSlice items n n in
      if n =? length items then Ret (p, PushSliceAwait f, Ready tt)
      else '(p, f, r) ← poll_push_slice capacity p f w; Ret (p, PushSliceAwait f, r)
  end.

Definition poll_push_async (h : Producer * push_async) (w : waker) :
    prog RingBufferShared (Producer * push_async * Poll unit) :=
  let '(p, a) := h in
  match a with
  | PushStart v => poll_push_first p v w
  | PushAwait value => '(p, value, r) ← poll_push capacity p value w; Ret (p, PushAwait value, r)
  | PushSliceStart items => poll_push_slice_first p items w
  | PushSliceAwait f => '(p, f, r) ← poll_push_slice capacity p f w; Ret (p, PushSliceAwait f, r)
  end.

(** The states of [async fn pop] and [async fn pop_slice]; the answer is what was
    popped. *)
Inductive pop_async : Type :=
| PopStart
| PopAwait
| PopSliceStart (len : nat)
| PopSliceAwait (f : PopSliceFuture (T := T)).

Definition slice_answer (f : PopSliceFuture (T := T)) (r : Poll unit) : Poll (list T) :=
  match r with Ready _ => Ready (qs_items f) | Pending => Pending end.
Definition pop_answer (r : Poll T) : Poll (list T) :=
  match r with Ready v => Ready [v] | Pending => Pending end.

Definition poll_pop_first (c : Consumer) (w : waker) : prog RingBufferShared (Consumer * pop_async * Poll (list T)) :=
  '(c, o) ← try_pop capacity c;
  match o with
  | Some v => Ret (c, PopAwait, Ready [v])
  | None => '(c, r) ← poll_pop capacity c w; Ret (c, PopAwait, pop_answer r)
  end.

Definition poll_pop_slice_first (c : Consumer) (len : nat) (w : waker) :
    prog RingBufferShared (Consumer * pop_async * Poll (list T)) :=
  match len with
  | 0 => Ret (c, PopSliceAwait (mkPopSlice 0 [] 0), Ready [])
  | _ =>
      '(c, vs) ← try_pop_slice capacity c len;
      let f := mkPopSlice len vs (length vs) in
      if length vs =? len then Ret (c, PopSliceAwait f, Ready vs)
      else '(c, f, r) ← poll_pop_slice capacity c f w; Ret (c, PopSliceAwait f, slice_answer f r)
  end.

Definition poll_pop_async (h : Consumer * pop_async) (w : waker) :
    prog RingBufferShared (Consumer * pop_async * Poll (list T)) :=
  let '(c, a) := h in
  match a with
  | PopStart => poll_pop_first c w
  | PopAwait => '(c, r) ← poll_pop capacity c w; Ret (c, PopAwait, pop_answer r)
  | PopSliceStart len => poll_pop_slice_first c len w
  | PopSliceAwait f => '(c, f, r) ← poll_pop_slice capacity c f w; Ret (c, PopSliceAwait f, slice_answer f r)
  end.

(** ** Two threads that block *)
Section threads.
Context (me : waker) (unparks : waker -> bool) (spurious : nat -> bool) (looks : nat).

Definition push_blocking (p : Producer) (value : T) : prog RingBufferShared (Producer * push_async * result unit nat) :=
  Blocking.block_on poll_push_async producer_log me unparks spurious looks (p, PushStart value).
Definition push_slice_blocking (p : Producer) (items : list T) :
    prog RingBufferShared (Producer * push_async * result unit nat) :=
  Blocking.block_on poll_push_async producer_log me unparks spurious looks (p, PushSliceStart items).
Definition pop_blocking (c : Consumer) : prog RingBufferShared (Consumer * pop_async * result (list T) nat) :=
  Blocking.block_on poll_pop_async consumer_log me unparks spurious looks (c, PopStart).
Definition pop_slice_blocking (c : Consumer) (len : nat) :
    prog RingBufferShared (Consumer * pop_async * result (list T) nat) :=
  Blocking.block_on poll_pop_async consumer_log me unparks spurious looks (c, PopSliceStart len).

Inductive push_job : Type := PushBlocking (v : T) | PushSliceBlocking (items : list T).
Inductive pop_job : Type := PopBlocking | PopSliceBlocking (len : nat).

Definition start_push (j : push_job) : push_async :=
  match j with PushBlocking v => PushStart v | PushSliceBlocking items => PushSliceStart items end.
Definition start_pop (j : pop_job) : pop_async :=
  match j with PopBlocking => PopStart | PopSliceBlocking len => PopSliceStart len end.
Definition run_push (p : Producer) (j : push_job) : prog RingBufferShared (Producer * push_async * result unit nat) :=
  match j with PushBlocking v => push_blocking p v | PushSliceBlocking items => push_slice_blocking p items end.
Definition run_pop (c : Consumer) (j : pop_job) : prog RingBufferShared (Consumer * pop_async * result (list T) nat) :=
  match j with PopBlocking => pop_blocking c | PopSliceBlocking len => pop_slice_blocking c len end.

(** What a job moves, and what a pending future has moved so far. *)
Definition job_items (j : push_job) : list T :=
  match j with PushBlocking v => [v] | PushSliceBlocking items => items end.
Definition job_len (j : pop_job) : nat := match j with PopBlocking => 1 | PopSliceBlocking len => len end.
Definition sent (a : push_async) : list T :=
  match a with PushSliceAwait f => take (pushed_so_far f) (ps_items f) | _ => [] end.
Definition held (a : pop_async) : list T :=
  match a with PopSliceAwait f => qs_items f | _ => [] end.

(** The elements moved, and if the thread is still parked, the number of wakers
    fired when its park token was last consumed. *)
Fixpoint producer_jobs (p : Producer) (jobs : list push_job) (acc : list T) :
    prog RingBufferShared (list T * option nat) :=
  match jobs with
  | [] => Ret (acc, None)
  | j :: jobs =>
      '(p, a, r) ← run_push p j;
      match r with
      | ROk _ => producer_jobs p jobs (acc ++ job_items j)
      | RErr c => Ret (acc ++ sent a, Some c)
      end
  end.

Fixpoint consumer_jobs (c : Consumer) (jobs : list pop_job) (acc : list T) :
    prog RingBufferShared (list T * option nat) :=
  match jobs with
  | [] => Ret (acc, None)
  | j :: jobs =>
      '(c, a, r) ← run_pop c j;
      match r with
      | ROk vs => consumer_jobs c jobs (acc ++ vs)
      | RErr k => Ret (acc ++ held a, Some k)
      end
  end.
End threads.
(** ** The futures implement [Waits] *)
Section proof.
Context (e : nat) (He : e <= 62) (Hcap : capacity = (2 ^ Z.of_nat e)%Z).
Abbreviation N := (Z.to_nat capacity).

(** The future pushes [items] in all. *)
Definition pushes (items : list T) (a : push_async) : Prop :=
  match a with
  | PushStart v | PushAwait (Some v) => items = [v]
  | PushAwait None => False
  | PushSliceStart vs => items = vs
  | PushSliceAwait f => items = ps_items f /\ slice_left f
  end.
Definition push_out (items h : list T) (f : Producer * push_async) (k : nat) (x : config) : Prop :=
  pushes items f.2 /\ producing capacity f.1 (h ++ sent f.2) (NotArmed k) x.
Definition push_rest (items h : list T) (f : Producer * push_async) (w : waker) (k : nat) (x : config) : Prop :=
  pushes items f.2 /\ exists r, producing capacity f.1 (h ++ sent f.2) (IsParked w k r) x /\ length (h ++ sent f.2) = r + N.

Lemma push_rest_stable items h f w k : stable (rely capacity 0) (push_rest items h f w k).
Proof.
  intros x x' (Hf & r & Hx & Hl) Hm. split; [done|]. exists r. split; [|done]. by eapply (producing_stable capacity e).
Qed.

Lemma push_out_stable items h f k : stable (rely capacity 0) (push_out items h f k).
Proof. intros x x' [Hf Hx] Hm. split; [done|]. by eapply (producing_stable capacity e). Qed.

Lemma push_done items h p k a (Q : Producer * push_async * Poll unit -> config -> Prop) x :
  producing capacity p (h ++ items) (NotArmed k) x ->
  (forall f' (u : unit) y, producing capacity f'.1 (h ++ items) (NotArmed 0) y -> Q (f', Ready u) y) ->
  wp (rely capacity 0) (guar capacity 0) (Ret (p, a, Ready tt)) Q x.
Proof.
  intros Hx Hend. eapply wp_ret; [by eapply (producing_stable capacity e)|by eapply producing_idle|].
  intros y Hy. by apply (Hend (p, a) tt).
Qed.

Lemma push_pending items h f w k (Q : Producer * push_async * Poll unit -> config -> Prop) x :
  push_rest items h f w k x -> (forall f' y, push_rest items h f' w k y -> Q (f', Pending) y) ->
  wp (rely capacity 0) (guar capacity 0) (Ret (f, Pending)) Q x.
Proof. intros Hx Hrest. eapply wp_ret; [apply (push_rest_stable items h f w k)|exact Hx|]. intros y Hy. by apply Hrest. Qed.

Section poll_push.
Context (items h : list T) (k : nat) (w : waker) (Q : Producer * push_async * Poll unit -> config -> Prop).
Context (Hend : forall f' (u : unit) y, producing capacity f'.1 (h ++ items) (NotArmed 0) y -> Q (f', Ready u) y).
Context (Hrest : forall f' y, push_rest items h f' w k y -> Q (f', Pending) y).

Lemma wp_await_push p v x :
  items = [v] -> producing capacity p h (NotArmed k) x ->
  wp (rely capacity 0) (guar capacity 0) ('(p, value, r) ← poll_push capacity p (Some v) w; Ret (p, PushAwait value, r)) Q x.
Proof.
  intros Hv Hx. apply wp_bind. eapply (wp_poll_push capacity e He Hcap); [exact Hx|..].
  - intros p' y Hy. eapply (push_done items); [by rewrite Hv|exact Hend].
  - intros p' r y Hy Hl. apply (push_pending items h _ w k); [|exact Hrest]. split; [done|]. exists r. cbn [fst snd sent]. by rewrite app_nil_r.
Qed.

Lemma wp_await_push_slice p f x :
  items = ps_items f -> slice_left f -> producing capacity p (h ++ take (pushed_so_far f) (ps_items f)) (NotArmed k) x ->
  wp (rely capacity 0) (guar capacity 0) ('(p, f, r) ← poll_push_slice capacity p f w; Ret (p, PushSliceAwait f, r)) Q x.
Proof.
  intros Hv Hleft Hx. apply wp_bind. eapply (wp_poll_push_slice capacity e He Hcap); [done|exact Hx|..].
  - intros p' f' y Hy _ _. eapply (push_done items); [by rewrite Hv|exact Hend].
  - intros p' f' r y Hy Hi Hl _ Hful. apply (push_pending items h _ w k); [|exact Hrest]. split; [split; [congruence|done]|].
    exists r. cbn [fst snd sent]. by rewrite Hi.
Qed.

Lemma wp_poll_push_async f x :
  push_out items h f k x -> wp (rely capacity 0) (guar capacity 0) (poll_push_async f w) Q x.
Proof.
  destruct f as [p a]. intros [Ha Hx]. cbn [fst snd] in *. destruct a as [v|[v|]|vs|f]; cbn [pushes sent poll_push_async] in *;
    unfold poll_push_first, poll_push_slice_first; rewrite ?app_nil_r in Hx; [| |done| |].
  - apply wp_bind. eapply (wp_try_push capacity e He Hcap); [exact Hx|..].
    + intros p' y Hy. eapply (push_done items); [by rewrite Ha|exact Hend].
    + intros p' r y Hy _ _. by apply wp_await_push.
  - by apply wp_await_push.
  - destruct vs as [|v0 vs]; [eapply (push_done items); [by rewrite Ha, app_nil_r|exact Hend]|].
    apply wp_bind. eapply (wp_try_push_slice capacity e He Hcap); [exact Hx|done|done|..].
    + intros p' y Hy. rewrite Nat.eqb_refl. eapply (push_done items); [by rewrite Ha|exact Hend].
    + intros p' n r y Hy Hn _. rewrite (proj2 (Nat.eqb_neq _ _)) by lia. by apply wp_await_push_slice.
  - destruct Ha. by apply wp_await_push_slice.
Qed.
End poll_push.

#[local] Program Instance push_waits (items h : list T) :
    Blocking.Waits poll_push_async producer_log (rely capacity 0) (guar capacity 0) := {
  w_out := push_out items h;
  w_rest := push_rest items h;
  w_end f _ := producing capacity f.1 (h ++ items) (NotArmed 0);
  w_out_stable := push_out_stable items h;
  w_rest_stable := push_rest_stable items h;
  w_end_stable f _ := producing_stable capacity e He Hcap f.1 (h ++ items) (NotArmed 0)
}.
Next Obligation.
  intros items h f w k Q x Hx Hend Hrest. by apply (wp_poll_push_async items h k w Q Hend Hrest).
Qed.
Next Obligation.
  intros items h f k x [Hf Hx]. split; [|intros _; by apply inv_still, Hx]. split; [done|]. by eapply producing_unpark.
Qed.
Next Obligation.
  intros items h f w k k' x (Hf & r & Hx & _) Hk. split; [|intros _; by apply inv_still, Hx]. split; [done|].
  by eapply producing_unpark.
Qed.

(** The future pops [n] elements in all. *)
Definition pops (n : nat) (a : pop_async) : Prop :=
  match a with
  | PopStart | PopAwait => n = 1
  | PopSliceStart len => n = len
  | PopSliceAwait f => n = qs_len f /\ pop_left f
  end.
Definition pop_out (n : nat) (out : list T) (f : Consumer * pop_async) (k : nat) (x : config) : Prop :=
  pops n f.2 /\ consuming capacity f.1 (out ++ held f.2) (NotArmed k) x.
Definition pop_rest (n : nat) (out : list T) (f : Consumer * pop_async) (w : waker) (k : nat) (x : config) : Prop :=
  pops n f.2 /\ consuming capacity f.1 (out ++ held f.2) (IsParked w k (length (out ++ held f.2))) x.
Definition pop_end (n : nat) (out : list T) (f : Consumer * pop_async) (vs : list T) (x : config) : Prop :=
  length vs = n /\ consuming capacity f.1 (out ++ vs) (NotArmed 0) x.

Lemma pop_out_stable n out f k : stable (rely capacity 1) (pop_out n out f k).
Proof. intros x x' [Hf Hx] Hm. split; [done|]. by eapply consuming_stable. Qed.

Lemma pop_rest_stable n out f w k : stable (rely capacity 1) (pop_rest n out f w k).
Proof. intros x x' [Hf Hx] Hm. split; [done|]. by eapply consuming_stable. Qed.

Lemma pop_end_stable n out f vs : stable (rely capacity 1) (pop_end n out f vs).
Proof. intros x x' [Hf Hx] Hm. split; [done|]. by eapply consuming_stable. Qed.

Section poll_pop.
Context (n : nat) (out : list T) (k : nat) (w : waker) (Q : Consumer * pop_async * Poll (list T) -> config -> Prop).
Context (Hend : forall f' vs y, pop_end n out f' vs y -> Q (f', Ready vs) y).
Context (Hrest : forall f' y, pop_rest n out f' w k y -> Q (f', Pending) y).

Lemma pop_done c a vs x :
  length vs = n -> consuming capacity c (out ++ vs) (NotArmed k) x ->
  wp (rely capacity 1) (guar capacity 1) (Ret (c, a, Ready vs)) Q x.
Proof.
  intros Hl Hx. eapply (wp_ret _ _ _ (pop_end n out (c, a) vs)); [apply pop_end_stable| |apply Hend].
  split; [done|]. eapply consuming_unpark; [exact Hx|lia].
Qed.

Lemma pop_pending f x :
  pop_rest n out f w k x -> wp (rely capacity 1) (guar capacity 1) (Ret (f, Pending)) Q x.
Proof. intros Hx. eapply wp_ret; [apply (pop_rest_stable n out f w k)|exact Hx|apply Hrest]. Qed.

Lemma wp_await_pop c x :
  n = 1 -> consuming capacity c out (NotArmed k) x ->
  wp (rely capacity 1) (guar capacity 1) ('(c, r) ← poll_pop capacity c w; Ret (c, PopAwait, pop_answer r)) Q x.
Proof.
  intros Hn Hx. apply wp_bind. eapply (wp_poll_pop capacity e He Hcap); [exact Hx|..].
  - intros c' v y Hy. by apply pop_done.
  - intros c' y Hy. apply pop_pending. split; [done|]. cbn [fst snd held]. by rewrite app_nil_r.
Qed.

Lemma wp_await_pop_slice c f x :
  n = qs_len f -> pop_left f -> consuming capacity c (out ++ qs_items f) (NotArmed k) x ->
  wp (rely capacity 1) (guar capacity 1)
    ('(c, f, r) ← poll_pop_slice capacity c f w; Ret (c, PopSliceAwait f, slice_answer f r)) Q x.
Proof.
  intros Hn Hleft Hx. apply wp_bind. eapply (wp_poll_pop_slice capacity e He Hcap); [done|exact Hx|..].
  - intros c' f' y Hy Hl. apply pop_done; [congruence|done].
  - intros c' f' y Hy Hi Hl _. apply pop_pending. split; [split; [congruence|done]|exact Hy].
Qed.

Lemma wp_poll_pop_async f x :
  pop_out n out f k x -> wp (rely capacity 1) (guar capacity 1) (poll_pop_async f w) Q x.
Proof.
  destruct f as [c a]. intros [Ha Hx]. cbn [fst snd] in *. destruct a as [| |len|f]; cbn [pops held poll_pop_async] in *;
    unfold poll_pop_first, poll_pop_slice_first; rewrite ?app_nil_r in Hx.
  - apply wp_bind. eapply (wp_try_pop capacity e He Hcap); [exact Hx|..].
    + intros c' v y Hy. by apply pop_done.
    + intros c' y Hy. by apply wp_await_pop.
  - by apply wp_await_pop.
  - destruct len as [|len]; [apply pop_done; [done|by rewrite app_nil_r]|].
    apply wp_bind. eapply (wp_try_pop_slice capacity e He Hcap); [exact Hx|lia|done|..].
    + intros c' vs y Hy Hl. rewrite (proj2 (Nat.eqb_eq _ _)) by done. apply pop_done; [congruence|done].
    + intros c' vs y Hy Hl _. rewrite (proj2 (Nat.eqb_neq _ _)) by lia. by apply wp_await_pop_slice.
  - destruct Ha. by apply wp_await_pop_slice.
Qed.
End poll_pop.

#[local] Program Instance pop_waits (n : nat) (out : list T) :
    Blocking.Waits poll_pop_async consumer_log (rely capacity 1) (guar capacity 1) := {
  w_out := pop_out n out;
  w_rest := pop_rest n out;
  w_end := pop_end n out;
  w_out_stable := pop_out_stable n out;
  w_rest_stable := pop_rest_stable n out;
  w_end_stable := pop_end_stable n out
}.
Next Obligation.
  intros n out f w k Q x Hx Hend Hrest. by apply (wp_poll_pop_async n out k w Q Hend Hrest).
Qed.
Next Obligation.
  intros n out f k x [Hf Hx]. split; [|intros _; by apply consumer_still, Hx]. split; [done|]. by eapply consuming_unpark.
Qed.
Next Obligation.
  intros n out f w k k' x [Hf Hx] Hk. split; [|intros _; by apply consumer_still, Hx]. split; [done|].
  by eapply consuming_unpark.
Qed.

(** ** The two threads *)
Definition push_total (jobs : list push_job) : list T := concat (job_items <$> jobs).
Definition pop_total (jobs : list pop_job) : nat := sum_list (job_len <$> jobs).

(** What the producer of [jobs] ends with, having pushed [acc] before. *)
Definition producer_post (me : waker) (acc : list T) (jobs : list push_job) (res : list T * option nat) (x : config) : Prop :=
  exists p, settled capacity p res.1 (pair me <$> res.2) x /\
    match res.2 with None => res.1 = acc ++ push_total jobs | Some _ => res.1 `prefix_of` acc ++ push_total jobs end.
Definition consumer_post (me : waker) (acc : list T) (jobs : list pop_job) (res : list T * option nat) (x : config) : Prop :=
  exists c, rested capacity c res.1 (pair me <$> res.2) x /\
    match res.2 with None => length res.1 = length acc + pop_total jobs | Some _ => True end.

Lemma sent_prefix items a : pushes items a -> sent a `prefix_of` items.
Proof. destruct a as [v|o|vs|f]; try (intros _; apply prefix_nil). intros [-> _]. apply prefix_take. Qed.

Section threads.
Context (me : waker) (unparks : waker -> bool) (spurious : nat -> bool) (looks : nat).

Lemma wp_run_push p h j Q x :
  producing capacity p h (NotArmed 0) x ->
  (forall p' a y, producing capacity p' (h ++ job_items j) (NotArmed 0) y -> Q (p', a, ROk tt) y) ->
  (forall p' a c y, sent a `prefix_of` job_items j -> settled capacity p' (h ++ sent a) (Some (me, c)) y -> Q (p', a, RErr c) y) ->
  wp (rely capacity 0) (guar capacity 0) (run_push me unparks spurious looks p j) Q x.
Proof.
  intros Hx Hok Herr.
  assert (run_push me unparks spurious looks p j =
    Blocking.block_on poll_push_async producer_log me unparks spurious looks (p, start_push j)) as -> by by destruct j.
  eapply (Blocking.wp_block_on _ _ _ _ _ _ _ (Hw := push_waits (job_items j) h) looks 0).
  - split; [by destruct j|]. by destruct j; cbn [fst snd start_push sent]; rewrite app_nil_r.
  - intros [p' a] [] y Hy. by apply Hok.
  - intros [p' a] c y (Ha & r & Hy & Hl). apply Herr; [by apply sent_prefix|]. by exists r.
Qed.

Lemma wp_run_pop c out j Q x :
  consuming capacity c out (NotArmed 0) x ->
  (forall c' a vs y, length vs = job_len j -> consuming capacity c' (out ++ vs) (NotArmed 0) y -> Q (c', a, ROk vs) y) ->
  (forall c' a k y, rested capacity c' (out ++ held a) (Some (me, k)) y -> Q (c', a, RErr k) y) ->
  wp (rely capacity 1) (guar capacity 1) (run_pop me unparks spurious looks c j) Q x.
Proof.
  intros Hx Hok Herr.
  assert (run_pop me unparks spurious looks c j =
    Blocking.block_on poll_pop_async consumer_log me unparks spurious looks (c, start_pop j)) as -> by by destruct j.
  eapply (Blocking.wp_block_on _ _ _ _ _ _ _ (Hw := pop_waits (job_len j) out) looks 0).
  - split; [by destruct j|]. by destruct j; cbn [fst snd start_pop held]; rewrite app_nil_r.
  - intros [c' a] vs y [Hl Hy]. by apply Hok.
  - intros [c' a] k y [Ha Hy]. by apply Herr.
Qed.

Lemma wp_producer_jobs p jobs acc Q x :
  producing capacity p acc (NotArmed 0) x -> (forall res y, producer_post me acc jobs res y -> Q res y) ->
  wp (rely capacity 0) (guar capacity 0) (producer_jobs me unparks spurious looks p jobs acc) Q x.
Proof.
  revert p acc x. induction jobs as [|j jobs IH]; intros p acc x Hx HQ; cbn [producer_jobs].
  { eapply wp_ret; [by eapply (producing_stable capacity e)|exact Hx|]. intros y Hy. apply HQ. exists p.
    split; [exact Hy|]. cbn. by rewrite app_nil_r. }
  apply wp_bind. eapply wp_run_push; [exact Hx|..].
  - intros p' a y Hy. apply (IH p'); [exact Hy|]. intros res z (q & Hz & Hres). apply HQ. exists q. split; [exact Hz|].
    unfold push_total in *. cbn [fmap list_fmap concat]. by rewrite app_assoc.
  - intros p' a c y Ha Hy. eapply wp_ret; [by eapply (settled_stable capacity e)|exact Hy|]. intros z Hz. apply HQ.
    exists p'. split; [exact Hz|]. cbn [snd fst]. apply prefix_app. unfold push_total. cbn [fmap list_fmap concat].
    by apply prefix_app_r.
Qed.

Lemma wp_consumer_jobs c jobs acc Q x :
  consuming capacity c acc (NotArmed 0) x -> (forall res y, consumer_post me acc jobs res y -> Q res y) ->
  wp (rely capacity 1) (guar capacity 1) (consumer_jobs me unparks spurious looks c jobs acc) Q x.
Proof.
  revert c acc x. induction jobs as [|j jobs IH]; intros c acc x Hx HQ; cbn [consumer_jobs].
  { eapply wp_ret; [by eapply consuming_stable|exact Hx|]. intros y Hy. apply HQ. exists c.
    split; [exact Hy|]. cbn. lia. }
  apply wp_bind. eapply wp_run_pop; [exact Hx|..].
  - intros c' a vs y Hl Hy. apply (IH c'); [exact Hy|]. intros res z (q & Hz & Hres). apply HQ. exists q. split; [exact Hz|].
    unfold pop_total in *. cbn [fmap list_fmap sum_list sum_list_with]. destruct res.2; [done|].
    rewrite Hres, length_app. simpl. unfold id. lia.
  - intros c' a k y Hy. eapply wp_ret; [by eapply (rested_stable capacity)|exact Hy|]. intros z Hz. apply HQ. by exists c'.
Qed.
End threads.

Section run.
Context (mp mc : waker) (up uc : waker -> bool) (sp sc : nat -> bool) (lp lc : nat).

Definition blocking_threads (pjobs : list push_job) (cjobs : list pop_job) : list (prog RingBufferShared (list T * option nat)) :=
  [producer_jobs mp up sp lp split.1 pjobs []; consumer_jobs mc uc sc lc split.2 cjobs []].

Lemma blocking_ring_run sch pjobs cjobs :
  exists s ps g, run_sched sch (ring0 capacity) (blocking_threads pjobs cjobs) = Done (s, ps) /\
    forall pr cr, ps = [Ret pr; Ret cr] -> producer_post mp [] pjobs pr (s, g) /\ consumer_post mc [] cjobs cr (s, g).
Proof.
  destruct (wp_sound (rely capacity) (guar capacity)
    (fun i res x => match i with 0 => producer_post mp [] pjobs res x | _ => consumer_post mc [] cjobs res x end)
    sch (ring0 capacity) ring_ghost0 (blocking_threads pjobs cjobs)) as (s & ps & g & Hrun & Hall & _).
  - intros i j y y'. apply guar_rely.
  - pose proof (inv0 (T := T) capacity e He Hcap) as Hi.
    intros [|[|i]] q Hp; cbn [lookup list_lookup blocking_threads] in Hp; [apply (inj Some) in Hp; subst q..|done].
    + apply wp_producer_jobs; [|done]. split; try done; [|split; [by left|simpl; lia]]. exists 0. simpl. split_and!; [done|lia..].
    + apply wp_consumer_jobs; [|done]. split; try done; [|split; [by left|simpl; lia]]. exists 0. simpl. split_and!; [done|lia..].
  - exists s, ps, g. split; [done|]. intros pr cr ->.
    split; [apply (all_wp_returned _ _ _ _ _ 0 pr Hall eq_refl)|apply (all_wp_returned _ _ _ _ _ 1 cr Hall eq_refl)].
Qed.

(** Where both threads stand when both stopped; the token of a parked one. *)
Lemma blocking_ends pjobs cjobs pr cr s g :
  (forall x, Notify.wakes x mp -> up x = true) -> (forall x, Notify.wakes x mc -> uc x = true) ->
  producer_post mp [] pjobs pr (s, g) -> consumer_post mc [] cjobs cr (s, g) ->
  cr.1 `prefix_of` pr.1 /\ length pr.1 <= length cr.1 + N /\
  (forall k, pr.2 = Some k -> length pr.1 < length cr.1 + N -> Blocking.token producer_log up k s = true) /\
  (forall k, cr.2 = Some k -> length cr.1 < length pr.1 -> Blocking.token consumer_log uc k s = true).
Proof.
  intros Hup Huc (p & Hp & _) (c & Hc & _).
  pose proof (settled_idle _ e He _ _ _ _ Hp) as Hp0. pose proof (rested_idle _ e He _ _ _ _ Hc) as Hc0.
  pose proof (pr_hist _ _ _ _ _ Hp0) as Hh. pose proof (co_got _ _ _ _ _ Hc0) as Hg. simpl in Hh, Hg.
  pose proof (inv_ring _ _ (pr_inv _ _ _ _ _ Hp0)) as Hok. pose proof (ro_got _ _ Hok) as Hle. cbn [snd] in Hle. split_and!.
  - rewrite <-Hh. apply Hc0.
  - rewrite <-Hh, <-Hg. lia.
  - intros k Hk Hlt. rewrite Hk in Hp. destruct Hp as (r & Hp & Hl). eapply Blocking.fired_token; [exact Hup|].
    eapply producer_woken; [exact Hp|apply (co_sig _ _ _ _ _ Hc0)|lia].
  - intros k Hk Hlt. rewrite Hk in Hc. eapply Blocking.fired_token; [exact Huc|].
    eapply consumer_woken; [exact Hc|apply (pr_sig _ _ _ _ _ Hp0)|by rewrite Hh].
Qed.
End run.
End proof.
End ring.

Section theorems.
Context `{BuildMode} `{Wakers} {T : Type}.

(** C19: threads that block on a ring buffer never deadlock. One thread runs any
    list of [push_blocking] and [push_slice_blocking], another any list of
    [pop_blocking] and [pop_slice_blocking]; [park] may return spuriously and
    their accesses interleave in any way. Nothing faults, and what was popped is a
    prefix of what was pushed, itself a prefix of what was offered. When both have
    stopped: if both are parked, one of them has its park token; a parked consumer
    whose producer is done has its token unless it has received everything; and a
    parked producer whose consumer is done has its token unless the buffer is
    full. *)
Theorem ring_blocking_no_deadlock (capacity size_of : Z) (s0 : RingBufferShared) (mp mc : waker) (up uc : waker -> bool)
    (sp sc : nat -> bool) (lp lc : nat) (pjobs : list push_job) (cjobs : list pop_job) (sch : list nat) :
  new (T := T) capacity size_of = Done s0 -> (0 <= size_of)%Z ->
  (forall x, Notify.wakes x mp -> up x = true) -> (forall x, Notify.wakes x mc -> uc x = true) ->
  exists s ps, run_sched sch s0 (blocking_threads capacity mp mc up uc sp sc lp lc pjobs cjobs) = Done (s, ps) /\
    forall pr cr, ps = [Ret pr; Ret cr] ->
      cr.1 `prefix_of` pr.1 /\ pr.1 `prefix_of` push_total pjobs /\
      match pr.2, cr.2 with
      | None, None => pr.1 = push_total pjobs /\ length cr.1 = pop_total cjobs
      | None, Some c => pr.1 = push_total pjobs /\ (cr.1 = push_total pjobs \/ Blocking.token consumer_log uc c s = true)
      | Some p, None => length cr.1 = pop_total cjobs /\
          (length pr.1 = length cr.1 + Z.to_nat capacity \/ Blocking.token producer_log up p s = true)
      | Some p, Some c => Blocking.token producer_log up p s = true \/ Blocking.token consumer_log uc c s = true
      end.
Proof.
  intros Hnew Hs0 Hup Huc. destruct (new_capacity _ _ _ Hnew Hs0) as (-> & e & He & Hcap).
  destruct (blocking_ring_run capacity e He Hcap mp mc up uc sp sc lp lc sch pjobs cjobs) as (s & ps & g & Hrun & Hend).
  exists s, ps. split; [done|]. intros pr cr Hps. destruct (Hend pr cr Hps) as [Hp Hc].
  destruct (blocking_ends capacity e He mp mc up uc pjobs cjobs pr cr s g Hup Huc Hp Hc) as (Hpre & Hle & Htp & Htc).
  split; [done|]. pose proof (N_pos capacity e He Hcap) as Hpos. destruct Hp as (p & _ & Hp), Hc as (c & _ & Hc).
  split; [destruct pr.2; [done|by rewrite Hp]|].
  pose proof (prefix_length _ _ Hpre) as Hlen. destruct pr.2 as [kp|], cr.2 as [kc|].
  - destruct (decide (length cr.1 < length pr.1)); [right; by apply Htc|left; apply Htp; [done|lia]].
  - split; [done|]. destruct (decide (length pr.1 = length cr.1 + Z.to_nat capacity)); [by left|right; apply Htp; [done|lia]].
  - split; [done|]. simpl in Hp. rewrite <-Hp. destruct (decide (length cr.1 < length pr.1)); [right; by apply Htc|].
    left. apply prefix_length_eq; [done|lia].
  - done.
Qed.
End theorems.

#[local] Instance nat_wakers : Wakers := {| waker := nat; will_wake := Nat.eqb |}.
#[local] Existing Instance debug_build.

(** The producer fills the buffer and parks; then the consumer empties it and
    parks: the producer has its token. *)
Definition demo_pushes : list (push_job (T := nat)) := [PushBlocking 1; PushSliceBlocking [2; 3; 4]].
Definition demo_pops : list pop_job := [PopBlocking; PopSliceBlocking 3].
Definition demo_sch : list nat := replicate 60 0 ++ replicate 60 1.

Lemma ring_blocking_no_deadlock_witness :
  exists s kp kc, run_sched demo_sch (ring0 2) (blocking_threads (Wk := nat_wakers) 2 50 60 (Nat.eqb 50) (Nat.eqb 60)
      (fun _ => false) (fun _ => false) 1 1 demo_pushes demo_pops) = Done (s, [Ret ([1; 2], Some kp); Ret ([1; 2], Some kc)]) /\
    (Blocking.token (Wk := nat_wakers) producer_log (Nat.eqb 50) kp s = true \/
     Blocking.token (Wk := nat_wakers) consumer_log (Nat.eqb 60) kc s = true).
Proof.
  assert (forall m x : nat, Notify.wakes (H0 := nat_wakers) x m -> Nat.eqb m x = true) as Hwakes.
  { intros m x [-> |Hx]; apply Nat.eqb_eq; [done|]. by apply Nat.eqb_eq in Hx. }
  destruct (ring_blocking_no_deadlock (H0 := nat_wakers) 2 8 (ring0 2) 50 60 (Nat.eqb 50) (Nat.eqb 60)
    (fun _ => false) (fun _ => false) 1 1 demo_pushes demo_pops demo_sch eq_refl ltac:(lia) (Hwakes 50) (Hwakes 60))
    as (s & ps & Hrun & Hend).
  pose proof Hrun as Hrun'. vm_compute in Hrun'. injection Hrun' as <- <-.
  do 3 eexists. split; [exact Hrun|]. exact (proj2 (proj2 (Hend _ _ eq_refl))).
Defined.
End RingBlocking.
