(* ===== verification/Simulation.v ===== *)
(** * Refinement between threads

    [sim] relates a program over a detailed state to one over an abstract state,
    step by step and in an environment that keeps a rely condition: each access of
    the detailed program is matched by any number of consecutive steps of the
    abstract one. The abstract state may hold hints, which say how its choices will
    turn out; a step tells what the hints must have been before it. [sim_run] lifts
    this to lists of threads: if the abstract threads never fault, whatever the
    hints, neither do the detailed ones, and every run of the detailed threads is
    matched by a run of the abstract ones with the same results. [WeakRing.v],
    [WeakOneShot.v] and [WeakTriple.v] use it to carry theorems about sequentially consistent memory
    over to a weaker one. *)
From stdpp Require Import base list relations.
From S2P Require Import Prelude Concurrency.

Section steps.
Context {S A : Type}.

(** At most [n] steps of a program, without interference. *)
Fixpoint run_steps (n : nat) (p : prog S A) (s : S) : outcome (S * prog S A) :=
  match n, p with
  | Datatypes.S n, Act f k => '(s, b) ← f s; run_steps n (k b) s
  | _, _ => Done (s, p)
  end.

Lemma run_sched_steps n i s (ps : list (prog S A)) p : ps !! i = Some p ->
  run_sched (replicate n i) s ps = '(s', p') ← run_steps n p s; Done (s', <[i := p']> ps).
Proof.
  revert s ps p. induction n as [|n IH]; intros s ps p Hp; cbn [replicate run_sched run_steps].
  { outcome_simpl. by rewrite list_insert_id. }
  unfold step_thread. rewrite Hp. destruct p as [a|B f k].
  - outcome_simpl. rewrite (IH _ _ _ Hp). by destruct n.
  - destruct (f s) as [[s' b]| |]; outcome_simpl; [|done..].
    rewrite (IH _ _ (k b)) by by rewrite list_lookup_insert_eq by by eapply lookup_lt_Some.
    destruct (run_steps n (k b) s') as [[s2 p2]| |]; outcome_simpl; [|done..].
    by rewrite list_insert_insert_eq.
Qed.

Lemma run_sched_app sch1 sch2 s (ps : list (prog S A)) :
  run_sched (sch1 ++ sch2) s ps = '(s', ps') ← run_sched sch1 s ps; run_sched sch2 s' ps'.
Proof.
  revert s ps. induction sch1 as [|i sch1 IH]; intros s ps; [done|]. cbn [app run_sched].
  destruct (step_thread i s ps) as [[s' ps']| |]; outcome_simpl; [apply IH|done..].
Qed.

Lemma run_sched_length sch s s' (ps ps' : list (prog S A)) : run_sched sch s ps = Done (s', ps') -> length ps' = length ps.
Proof.
  revert s ps. induction sch as [|i sch IH]; intros s ps; cbn [run_sched]; [by intros [= _ <-]|].
  unfold step_thread. destruct (ps !! i) as [[a|B f k]|]; [apply IH| |apply IH].
  destruct (f s) as [[s1 b]| |]; outcome_simpl; [|done..]. intros Hrun%IH. by rewrite Hrun, length_insert.
Qed.
End steps.

(** Two threads that both returned, and what they returned in a matching run. *)
Lemma both_returned {W S A} (qs : list (prog W A)) (ps : list (prog S A)) a b :
  qs = [Ret a; Ret b] -> (forall i c, qs !! i = Some (Ret c) -> ps !! i = Some (Ret c)) -> length ps = length qs ->
  ps = [Ret a; Ret b].
Proof.
  intros -> Hret Hlen. pose proof (Hret 0 a eq_refl) as Ha. pose proof (Hret 1 b eq_refl) as Hb.
  destruct ps as [|p [|q [|r ps]]]; try done. by injection Ha as ->; injection Hb as ->.
Qed.

(** Exactly [n] steps; [Undefined] if the program returns earlier. *)
Fixpoint exact_steps {S A} (n : nat) (p : prog S A) (s : S) : outcome (S * prog S A) :=
  match n with
  | 0 => Done (s, p)
  | Datatypes.S n => match p with Ret _ => Undefined | Act f k => '(s, b) ← f s; exact_steps n (k b) s end
  end.

Lemma exact_run {S A} n (p : prog S A) s x : exact_steps n p s = Done x -> run_steps n p s = Done x.
Proof.
  revert p s. induction n as [|n IH]; intros p s; [by destruct p|]. destruct p as [a|C f h]; [done|].
  cbn [exact_steps run_steps]. destruct (f s) as [[s' b]| |]; outcome_simpl; [apply IH|done..].
Qed.

(** Steps of a sequence within its first part. *)
Lemma exact_bind {S A B} n (p : prog S A) (k : A -> prog S B) s s' p' :
  exact_steps n p s = Done (s', p') -> exact_steps n (p ≫= k) s = Done (s', p' ≫= k).
Proof.
  revert p s. induction n as [|n IH]; intros p s; [by intros [= <- <-]|]. destruct p as [a|C f h]; [done|].
  cbn [mbind prog_bind prog_bind_fix exact_steps]. destruct (f s) as [[s1 b]| |]; outcome_simpl; [apply IH|done..].
Qed.

Lemma run_bind_done {S A B} n (p : prog S A) (k : A -> prog S B) s x :
  run_steps n (p ≫= k) s = Done x -> exists y, run_steps n p s = Done y.
Proof.
  revert p s. induction n as [|n IH]; intros p s; [by eexists|]. destruct p as [a|C f h]; [by eexists|].
  cbn [mbind prog_bind prog_bind_fix run_steps]. destruct (f s) as [[s1 b]| |]; outcome_simpl; [apply IH|done..].
Qed.

Section simulation.
Context {W S Gh Hint : Type} (abs : Hint -> W -> S).
Implicit Types (R G : relation (W * Gh)).

(** [sim R G q p Q x]: from [x], in an environment whose steps are in [R], [q]
    behaves like [p] from the states [abs] gives; its steps are in [G] for some
    update of the auxiliary state, and it returns the same value as [p], with [Q].
    [pre] is what the hints were before a step. *)
Fixpoint sim R G {A} (q : prog W A) (p : prog S A) (Q : A -> W * Gh -> Prop) (x : W * Gh) : Prop :=
  match q with
  | Ret a => p = Ret a /\ forall x', rtc R x x' -> Q a x'
  | Act f k => forall w g, rtc R x (w, g) ->
      exists n (pre : Hint -> Hint), (forall h, exists y, run_steps n p (abs (pre h) w) = Done y) ->
      exists w' b g' p', f w = Done (w', b) /\ (forall h, exact_steps n p (abs (pre h) w) = Done (abs h w', p')) /\
        G (w, g) (w', g') /\ sim R G (k b) p' Q (w', g')
  end.

Lemma sim_rely R G {A} (q : prog W A) p Q x x' : sim R G q p Q x -> rtc R x x' -> sim R G q p Q x'.
Proof.
  destruct q as [a|B f k]; simpl.
  - intros [Hp HQ] Hr. split; [done|]. intros x'' Hr'. apply HQ. by etrans.
  - intros Hk Hr w g Hr'. apply Hk. by etrans.
Qed.

Lemma sim_mono R G {A} (q : prog W A) p (Q Q' : A -> W * Gh -> Prop) x :
  (forall a x, Q a x -> Q' a x) -> sim R G q p Q x -> sim R G q p Q' x.
Proof.
  intros HQ. revert p x. induction q as [a|B f k IH]; intros p x; simpl; [by intros [? ?]; eauto|].
  intros Hk w g Hr. destruct (Hk w g Hr) as (n & pre & Hn). exists n, pre. intros Hrun.
  destruct (Hn Hrun) as (w' & b & g' & p' & Hf & Ha & HG & Hs). exists w', b, g', p'. eauto.
Qed.

Lemma sim_bind R G {A B} (q : prog W A) (p : prog S A) (kq : A -> prog W B) (kp : A -> prog S B) Q x :
  sim R G q p (fun a y => sim R G (kq a) (kp a) Q y) x -> sim R G (q ≫= kq) (p ≫= kp) Q x.
Proof.
  revert p x. induction q as [a|C f k IH]; intros p x; simpl.
  - intros [-> HQ]. by apply HQ.
  - intros Hk w g Hr. destruct (Hk w g Hr) as (n & pre & Hn). exists n, pre. intros Hrun.
    destruct Hn as (w' & b & g' & p' & Hf & Ha & HG & Hs).
    { intros h. destruct (Hrun h) as [y Hy]. by eapply run_bind_done. }
    exists w', b, g', (p' ≫= kp). split_and!; [done|intros h; by apply exact_bind|done|by apply IH].
Qed.

Lemma sim_ret R G {A} (a : A) (P : W * Gh -> Prop) (Q : A -> W * Gh -> Prop) x :
  stable R P -> P x -> (forall x', P x' -> Q a x') -> sim R G (Ret a) (Ret a) Q x.
Proof. intros Hs Hp HQ. split; [done|]. intros x' Hr. apply HQ. by eapply stable_rtc. Qed.

(** One access matched by one access. *)
Lemma sim_act R G {A B C} (f : W -> outcome (W * B)) (a : S -> outcome (S * C)) (k : B -> prog W A) (kp : C -> prog S A)
    (P : W * Gh -> Prop) Q x :
  stable R P -> P x ->
  (forall w g, P (w, g) -> exists pre : Hint -> Hint, (forall h, exists s c, a (abs (pre h) w) = Done (s, c)) ->
    exists w' b g' c, f w = Done (w', b) /\ (forall h, a (abs (pre h) w) = Done (abs h w', c)) /\
      G (w, g) (w', g') /\ sim R G (k b) (kp c) Q (w', g')) ->
  sim R G (Act f k) (Act a kp) Q x.
Proof.
  intros Hs Hp Hk w g Hr. destruct (Hk w g) as [pre Hpre]; [by eapply stable_rtc|]. exists 1, pre. intros Hrun.
  destruct Hpre as (w' & b & g' & c & Hf & Ha & HG & Hsim).
  { intros h. destruct (Hrun h) as [y Hy]. cbn [run_steps] in Hy. destruct (a (abs (pre h) w)) as [[s c]| |]; [eauto|done..]. }
  exists w', b, g', (kp c). split_and!; [done| |done|done]. intros h. cbn [exact_steps]. by rewrite Ha.
Qed.

(** An access of the detailed program alone. *)
Lemma sim_skip R G {A B} (f : W -> outcome (W * B)) (k : B -> prog W A) (p : prog S A) (P : W * Gh -> Prop) Q x :
  stable R P -> P x ->
  (forall w g, P (w, g) ->
    exists w' b g', f w = Done (w', b) /\ (forall h, abs h w' = abs h w) /\ G (w, g) (w', g') /\ sim R G (k b) p Q (w', g')) ->
  sim R G (Act f k) p Q x.
Proof.
  intros Hs Hp Hk w g Hr. exists 0, id. intros _. destruct (Hk w g) as (w' & b & g' & Hf & Ha & HG & Hsim); [by eapply stable_rtc|].
  exists w', b, g', p. split_and!; [done| |done|done]. intros h. cbn. by rewrite Ha.
Qed.

(** ** Threads *)
Section threads.
Context {A : Type} (R G : nat -> relation (W * Gh)) (Q : nat -> A -> W * Gh -> Prop).

Definition all_sim (qs : list (prog W A)) (ps : list (prog S A)) (x : W * Gh) : Prop :=
  length qs = length ps /\
  forall i q p, qs !! i = Some q -> ps !! i = Some p -> sim (R i) (G i) q p (Q i) x.

Definition safe (s : S) (ps : list (prog S A)) : Prop := forall sch, exists s' ps', run_sched sch s ps = Done (s', ps').

Lemma all_sim_returned qs ps x i a : all_sim qs ps x -> qs !! i = Some (Ret a) -> ps !! i = Some (Ret a).
Proof.
  intros [Hlen Hall] Hi. assert (is_Some (ps !! i)) as [p Hp].
  { apply lookup_lt_is_Some. rewrite <-Hlen. by eapply lookup_lt_Some. }
  destruct (Hall _ _ _ Hi Hp) as [-> _]. done.
Qed.

(** One step of thread [i], matched by steps of the same thread. *)
Lemma all_sim_step i w g qs ps :
  (forall i j y y', i <> j -> G i y y' -> R j y y') -> all_sim qs ps (w, g) -> (forall h, safe (abs h w) ps) ->
  exists w' qs' g' sch ps' (pre : Hint -> Hint), step_thread i w qs = Done (w', qs') /\
    (forall h, run_sched sch (abs (pre h) w) ps = Done (abs h w', ps')) /\ all_sim qs' ps' (w', g').
Proof.
  intros Hcomp Hsim Hsafe. pose proof Hsim as [Hlen Hall]. unfold step_thread.
  destruct (qs !! i) as [[a|B f k]|] eqn:Hi; [by exists w, qs, g, [], ps, id| |by exists w, qs, g, [], ps, id].
  assert (is_Some (ps !! i)) as [p Hp].
  { apply lookup_lt_is_Some. rewrite <-Hlen. by eapply lookup_lt_Some. }
  destruct (Hall _ _ _ Hi Hp w g) as (n & pre & Hn); [done|].
  destruct Hn as (w' & b & g' & p' & Hf & Ha & HG & Hs).
  { intros h. destruct (Hsafe (pre h) (replicate n i)) as (s1 & ps1 & Hrun). rewrite (run_sched_steps n i _ _ _ Hp) in Hrun.
    destruct (run_steps n p (abs (pre h) w)) as [y| |]; [by exists y|done..]. }
  exists w', (<[i := k b]> qs), g', (replicate n i), (<[i := p']> ps), pre. split_and!; [by rewrite Hf| |].
  { intros h. by rewrite (run_sched_steps n i _ _ _ Hp), (exact_run _ _ _ _ (Ha h)). }
  split; [by rewrite !length_insert|]. intros j q1 p1 Hq1 Hp1. destruct (decide (i = j)) as [<-|Hne].
  - rewrite list_lookup_insert_eq in Hq1 by by eapply lookup_lt_Some.
    rewrite list_lookup_insert_eq in Hp1 by by eapply lookup_lt_Some. by simplify_eq.
  - rewrite list_lookup_insert_ne in Hq1 by done. rewrite list_lookup_insert_ne in Hp1 by done. eapply sim_rely; [by apply Hall|].
    apply rtc_once. by eapply Hcomp.
Qed.

Theorem sim_run sch w g qs ps :
  (forall i j y y', i <> j -> G i y y' -> R j y y') -> all_sim qs ps (w, g) -> (forall h, safe (abs h w) ps) ->
  exists w' qs' sch' ps' (pre : Hint -> Hint), run_sched sch w qs = Done (w', qs') /\
    (forall h, run_sched sch' (abs (pre h) w) ps = Done (abs h w', ps')) /\
    forall i a, qs' !! i = Some (Ret a) -> ps' !! i = Some (Ret a).
Proof.
  intros Hcomp. revert w g qs ps. induction sch as [|i sch IH]; intros w g qs ps Hsim Hsafe.
  { exists w, qs, [], ps, id. split_and!; [done..|]. intros i a. by apply (all_sim_returned _ _ _ _ _ Hsim). }
  destruct (all_sim_step i w g qs ps Hcomp Hsim Hsafe) as (w1 & qs1 & g1 & sch1 & ps1 & pre1 & Hst & Hrun1 & Hsim1).
  cbn [run_sched]. rewrite Hst. outcome_simpl.
  destruct (IH w1 g1 qs1 ps1 Hsim1) as (w2 & qs2 & sch2 & ps2 & pre2 & Hrun2 & Habs & Hret).
  { intros h sch'. destruct (Hsafe (pre1 h) (sch1 ++ sch')) as (s' & ps' & Hrun). rewrite run_sched_app, Hrun1 in Hrun.
    by exists s', ps'. }
  exists w2, qs2, (sch1 ++ sch2), ps2, (pre1 ∘ pre2). split_and!; [done| |done]. intros h. unfold compose.
  rewrite run_sched_app, Hrun1. outcome_simpl. apply Habs.
Qed.
End threads.
End simulation.

(** Without hints. *)
Section exact.
Context {W S Gh : Type} (abs : W -> S).
Implicit Types (R G : relation (W * Gh)).

Definition sim_exact R G {A} (q : prog W A) (p : prog S A) : (A -> W * Gh -> Prop) -> W * Gh -> Prop :=
  sim (fun _ : unit => abs) R G q p.

Lemma sim_exact_act R G {A B C} (f : W -> outcome (W * B)) (a : S -> outcome (S * C)) (k : B -> prog W A)
    (kp : C -> prog S A) (P : W * Gh -> Prop) Q x :
  stable R P -> P x ->
  (forall w g s c, P (w, g) -> a (abs w) = Done (s, c) ->
    exists w' b g', f w = Done (w', b) /\ abs w' = s /\ G (w, g) (w', g') /\ sim_exact R G (k b) (kp c) Q (w', g')) ->
  sim_exact R G (Act f k) (Act a kp) Q x.
Proof.
  intros Hs Hp Hk. apply (sim_act _ R G f a k kp P); [done..|]. intros w g HP. exists id. intros Hd.
  destruct (Hd tt) as (s & c & Ha). destruct (Hk w g s c HP Ha) as (w' & b & g' & Hf & Habs & HG & Hsim).
  exists w', b, g', c. split_and!; [done| |done|done]. intros _. by rewrite Habs.
Qed.
End exact.
