(* ===== verification/WeakMemory.v ===== *)
(** * A memory with orderings

    [Module Weak]: atomic accesses with the orderings of Rust's memory model, in
    the operational form its interpreter Miri explores. A location keeps all the
    stores made to it, in modification order, which is the order they are
    performed in; each thread has a view, the store of each location it is known
    to have seen. A load returns any store not older than the thread's view (which
    one is taken from [choices], so a statement about every list of choices covers
    every outcome), and a [SeqCst] load none older than the last [SeqCst] store. An
    [Acquire] load of a [Release] store joins the view the storing thread had. A
    read-modify-write, and a [compare_exchange] that fails, reads the newest store.
    A plain access that is not ordered after every earlier access to its location
    is a data race and undefined; reads count as accesses here, so two unordered
    plain reads are refused too.

    Loads do not run ahead of earlier stores of the same thread to other locations
    in a way a later store could observe (no load buffering), and stores to one
    location are not inserted between earlier ones. *)
From stdpp Require Import base list gmap numbers relations functions.
From S2P Require Import Prelude WaitList Concurrency.

Module Weak.
Export Ordering.

(** The types stored in locations whose values are of one type [V]. *)
Class Stored (V A : Type) : Type := {
  inject : A -> V;
  project : V -> A;
  project_inject a : project (inject a) = a
}.

Section memory.
Context {L V : Type} `{!EqDecision L}.

(** For each location, how many stores are known. *)
Abbreviation view := (L -> nat).
Definition nothing : view := fun _ => 0.
Definition join (v w : view) : view := fun l => Nat.max (v l) (w l).
Definition only (l : L) (i : nat) : view := <[l := i]> nothing.
Definition view_le (v w : view) : Prop := forall l, v l <= w l.

Record message : Type := mkMessage { val : V; published : view }.

Record memory : Type := mkMemory {
  history : L -> nat -> message;       (* the stores of a location; 0 is its initial value *)
  newest : L -> nat;                   (* the index of the last one *)
  seen : nat -> view;                  (* what each thread has seen *)
  last_sc : view;                      (* the last [SeqCst] store *)
  choices : list nat
}.

(** Every thread starts after the initialisation. *)
Definition fresh (init : L -> V) (choices : list nat) : memory :=
  mkMemory (fun l _ => mkMessage (init l) nothing) nothing (fun _ => nothing) nothing choices.

Definition newest_message (m : memory) (l : L) : message := history m l (newest m l).
Definition latest (m : memory) (l : L) : V := val (newest_message m l).

(** Thread [t] reads store [i] of [l]. *)
Definition observe (t : nat) (o : ordering) (l : L) (i : nat) (m : memory) : memory :=
  let acquired := if acquires o then published (history m l i) else nothing in
  mkMemory (history m) (newest m) (<[t := join (join (seen m t) (only l i)) acquired]> (seen m)) (last_sc m) (choices m).

(** Thread [t] stores [v], passing on the view [inherited]. *)
Definition append (t : nat) (o : ordering) (l : L) (inherited : view) (v : V) (m : memory) : memory :=
  let i := S (newest m l) in
  let own := join (seen m t) (only l i) in
  let x := mkMessage v (join inherited (if releases o then own else only l i)) in
  mkMemory (<[l := <[i := x]> (history m l)]> (history m)) (<[l := i]> (newest m)) (<[t := own]> (seen m))
    (if is_seqcst o then <[l := i]> (last_sc m) else last_sc m) (choices m).

Definition drop_choice (m : memory) : memory :=
  mkMemory (history m) (newest m) (seen m) (last_sc m) (tail (choices m)).

(** How far back a load goes is the next choice, if the views allow it. *)
Definition chosen (t : nat) (o : ordering) (l : L) (m : memory) : nat :=
  let oldest := Nat.max (seen m t l) (if is_seqcst o then last_sc m l else 0) in
  Nat.max oldest (newest m l - hd 0 (choices m)).

Definition load (t : nat) (o : ordering) (l : L) (m : memory) : memory * V :=
  let i := chosen t o l m in (drop_choice (observe t o l i m), val (history m l i)).

Definition store (t : nat) (o : ordering) (l : L) (v : V) (m : memory) : memory := append t o l nothing v m.

(** A read-modify-write; what it stores continues the release sequence of what it
    read. *)
Definition update (t : nat) (o : ordering) (l : L) (f : V -> V) (m : memory) : memory * V :=
  let x := newest_message m l in
  (append t o l (published x) (f (val x)) (observe t o l (newest m l) m), val x).

Definition compare_exchange (t : nat) (success failure : ordering) (l : L) (test : V -> bool) (new : V) (m : memory) :
    memory * (bool * V) :=
  if test (latest m l) then let '(m, v) := update t success l (fun _ => new) m in (m, (true, v))
  else (observe t failure l (newest m l) m, (false, latest m l)).

(** A plain access. *)
Definition plain {B} (t : nat) (l : L) (f : V -> V * B) (m : memory) : outcome (memory * B) :=
  if seen m t l =? newest m l then
    let '(v, b) := f (latest m l) in Done (append t Relaxed l nothing v m, b)
  else Undefined.

(** ** Well-formed memories *)
Record wf (m : memory) : Prop := {
  wf_seen t : view_le (seen m t) (newest m);
  wf_sc : view_le (last_sc m) (newest m);
  wf_published l i : i <= newest m l -> view_le (published (history m l i)) (newest m)
}.

Lemma join_l v w : view_le v (join v w).
Proof. intros l. unfold join. lia. Qed.

Lemma join_r v w : view_le w (join v w).
Proof. intros l. unfold join. lia. Qed.

Lemma join_lub u v w : view_le u w -> view_le v w -> view_le (join u v) w.
Proof. intros Hu Hv l. specialize (Hu l). specialize (Hv l). unfold join. lia. Qed.

Lemma only_le l i w : i <= w l -> view_le (only l i) w.
Proof.
  intros Hi l'. unfold only. destruct (decide (l = l')) as [<-|Hne]; [by rewrite fn_lookup_insert|].
  rewrite fn_lookup_insert_ne by done. unfold nothing. lia.
Qed.

#[global] Instance view_le_preorder : PreOrder view_le.
Proof. split; [by intros v l|]. intros u v w Huv Hvw l. specialize (Huv l). specialize (Hvw l). lia. Qed.

Lemma nothing_le v : view_le nothing v.
Proof. intros l. unfold nothing. lia. Qed.

Lemma wf_fresh init cs : wf (fresh init cs).
Proof. split; cbn; intros; apply nothing_le. Qed.

(** [touches t X m m']: an access of thread [t] to locations in [X]. *)
Record touches (t : nat) (X : L -> Prop) (m m' : memory) : Prop := {
  to_wf : wf m';
  to_newest l : ~ X l -> newest m' l = newest m l;
  to_history l i : ~ X l -> history m' l i = history m l i;
  to_sc l : ~ X l -> last_sc m' l = last_sc m l;
  to_seen : view_le (seen m t) (seen m' t);
  to_others t' : t' <> t -> seen m' t' = seen m t'
}.

Lemma to_message t X m m' l : touches t X m m' -> ~ X l -> newest_message m' l = newest_message m l.
Proof. intros H Hl. unfold newest_message. by rewrite (to_newest _ _ _ _ H), (to_history _ _ _ _ H). Qed.

Lemma touches_seen t X m m' t' : touches t X m m' -> view_le (seen m t') (seen m' t').
Proof.
  intros H. destruct (decide (t' = t)) as [->|Hne]; [by eapply to_seen|]. by rewrite (to_others _ _ _ _ H).
Qed.

Lemma touches_refl t X m : wf m -> touches t X m m.
Proof. intros Hw. by split. Qed.

Lemma touches_trans t X m1 m2 m3 : touches t X m1 m2 -> touches t X m2 m3 -> touches t X m1 m3.
Proof.
  intros [_ Hn1 Hm1 Hc1 Hs1 Ho1] [Hw Hn2 Hm2 Hc2 Hs2 Ho2]. split; [done|..].
  - intros l Hl. by rewrite Hn2, Hn1.
  - intros l i Hl. by rewrite Hm2, Hm1.
  - intros l Hl. by rewrite Hc2, Hc1.
  - by etrans.
  - intros t' Ht. by rewrite Ho2, Ho1.
Qed.

Lemma touches_weaken t (X Y : L -> Prop) m m' : (forall l, X l -> Y l) -> touches t X m m' -> touches t Y m m'.
Proof. intros HXY [Hw Hn Hm Hc Hs Ho]. split; auto. Qed.

Lemma touches_latest t X m m' l : touches t X m m' -> ~ X l -> latest m' l = latest m l.
Proof. intros H Hl. unfold latest. by rewrite (to_message _ _ _ _ _ H). Qed.

(** Views that cover a location keep doing so while it is not touched. *)
Definition covers (v : view) (m : memory) (l : L) : Prop := newest m l <= v l.

Lemma covers_le v w m l : view_le v w -> covers v m l -> covers w m l.
Proof. intros Hvw Hc. unfold covers in *. specialize (Hvw l). lia. Qed.

Lemma covers_same v m m' l : newest m' l = newest m l -> covers v m l -> covers v m' l.
Proof. unfold covers. by intros ->. Qed.

Lemma covers_seen t X m m' l t' : touches t X m m' -> ~ X l -> covers (seen m t') m l -> covers (seen m' t') m' l.
Proof.
  intros H Hl Hc. apply (covers_same _ m); [by eapply to_newest|]. destruct (decide (t' = t)) as [->|Hne].
  - eapply covers_le; [|exact Hc]. by eapply to_seen.
  - by rewrite (to_others _ _ _ _ H).
Qed.

(** ** What the accesses do *)
Lemma wf_observe t o l i m : wf m -> i <= newest m l -> wf (observe t o l i m).
Proof.
  intros [Hs Hc Hp] Hi. split; [|exact Hc|exact Hp]. intros t'. cbn. destruct (decide (t = t')) as [<-|Hne].
  - rewrite fn_lookup_insert. repeat apply join_lub; [apply Hs|by apply only_le|].
    destruct (acquires o); [by apply Hp|apply nothing_le].
  - rewrite fn_lookup_insert_ne by done. apply Hs.
Qed.

Lemma seen_observe t o l i m :
  seen (observe t o l i m) t = join (join (seen m t) (only l i)) (if acquires o then published (history m l i) else nothing).
Proof. cbn. by rewrite fn_lookup_insert. Qed.

Lemma observe_touches t o l i m X : wf m -> i <= newest m l -> touches t X m (observe t o l i m).
Proof.
  intros Hw Hi. split; try done; [by apply wf_observe| |].
  - rewrite seen_observe. etrans; [|apply join_l]. apply join_l.
  - intros t' Ht. cbn. by rewrite fn_lookup_insert_ne.
Qed.

Lemma newest_append t o l inh v m : newest (append t o l inh v m) = <[l := S (newest m l)]> (newest m).
Proof. done. Qed.

Lemma newest_append_le t o l inh v m : view_le (newest m) (newest (append t o l inh v m)).
Proof.
  intros l'. rewrite newest_append. destruct (decide (l = l')) as [<-|Hne]; [rewrite fn_lookup_insert; lia|].
  by rewrite fn_lookup_insert_ne.
Qed.

Lemma message_append t o l inh v m :
  newest_message (append t o l inh v m) l =
    mkMessage v (join inh (if releases o then join (seen m t) (only l (S (newest m l))) else only l (S (newest m l)))).
Proof. unfold newest_message. cbn. by rewrite !fn_lookup_insert. Qed.

Lemma latest_append t o l inh v m : latest (append t o l inh v m) l = v.
Proof. unfold latest. by rewrite message_append. Qed.

Lemma latest_reread t o l inh m l' : latest (append t o l inh (latest m l) m) l' = latest m l'.
Proof.
  destruct (decide (l = l')) as [<-|Hne]; [by rewrite latest_append|].
  unfold latest, newest_message. cbn. by rewrite !fn_lookup_insert_ne.
Qed.

Lemma seen_append t o l inh v m : seen (append t o l inh v m) t = join (seen m t) (only l (S (newest m l))).
Proof. cbn. by rewrite fn_lookup_insert. Qed.

Lemma covers_own t o l inh v m : covers (seen (append t o l inh v m) t) (append t o l inh v m) l.
Proof. unfold covers. rewrite seen_append, newest_append. unfold join, only. rewrite !fn_lookup_insert. lia. Qed.

Lemma wf_append t o l inh v m : wf m -> view_le inh (newest m) -> wf (append t o l inh v m).
Proof.
  intros [Hs Hc Hp] Hinh. pose proof (newest_append_le t o l inh v m) as Hle.
  assert (view_le (join (seen m t) (only l (S (newest m l)))) (newest (append t o l inh v m))) as Hown.
  { apply join_lub; [etrans; [apply Hs|exact Hle]|]. apply only_le. rewrite newest_append, fn_lookup_insert. lia. }
  split.
  - intros t'. destruct (decide (t = t')) as [<-|Hne]; [by rewrite seen_append|]. cbn [seen append].
    rewrite fn_lookup_insert_ne by done. etrans; [apply Hs|exact Hle].
  - cbn [last_sc append]. destruct (is_seqcst o); [|etrans; [apply Hc|exact Hle]]. intros l'.
    destruct (decide (l = l')) as [<-|Hne]; [rewrite newest_append, !fn_lookup_insert; lia|].
    rewrite newest_append, !fn_lookup_insert_ne by done. apply Hc.
  - intros l' i. rewrite newest_append. cbn [history append]. destruct (decide (l = l')) as [<-|Hne].
    + rewrite !fn_lookup_insert. destruct (decide (S (newest m l) = i)) as [<-|Hi].
      * intros _. rewrite fn_lookup_insert. cbn [published]. apply join_lub; [by etrans|].
        destruct (releases o); [exact Hown|]. etrans; [apply join_r|exact Hown].
      * rewrite fn_lookup_insert_ne by done. intros Hle'. etrans; [apply Hp; lia|exact Hle].
    + rewrite !fn_lookup_insert_ne by done. intros Hi. etrans; [by apply Hp|exact Hle].
Qed.

Lemma append_touches t o l inh v m : wf m -> view_le inh (newest m) -> touches t (eq l) m (append t o l inh v m).
Proof.
  intros Hw Hinh. split; [by apply wf_append|..].
  - intros l' Hl. by rewrite newest_append, fn_lookup_insert_ne.
  - intros l' i Hl. cbn. by rewrite fn_lookup_insert_ne.
  - intros l' Hl. cbn. destruct (is_seqcst o); [by rewrite fn_lookup_insert_ne|done].
  - rewrite seen_append. apply join_l.
  - intros t' Ht. cbn. by rewrite fn_lookup_insert_ne.
Qed.

Lemma history_append t o l inh v m i : i <= newest m l -> history (append t o l inh v m) l i = history m l i.
Proof. intros Hi. cbn. rewrite fn_lookup_insert, fn_lookup_insert_ne by lia. done. Qed.

(** What a release store passes on. *)
Lemma published_append t o l inh v m :
  releases o = true -> view_le (seen m t) (published (newest_message (append t o l inh v m) l)).
Proof. intros Ho. rewrite message_append, Ho. cbn. etrans; [apply join_l|]. apply join_r. Qed.

Lemma published_own t o l inh v m : releases o = true ->
  view_le (seen (append t o l inh v m) t) (published (newest_message (append t o l inh v m) l)).
Proof. intros Ho. rewrite message_append, seen_append, Ho. apply join_r. Qed.

Lemma published_inherited t o l inh v m : view_le inh (published (newest_message (append t o l inh v m) l)).
Proof. rewrite message_append. apply join_l. Qed.

Lemma sc_append t l inh v m : last_sc (append t SeqCst l inh v m) l = newest (append t SeqCst l inh v m) l.
Proof. rewrite newest_append. cbn. by rewrite !fn_lookup_insert. Qed.

Lemma chosen_le t o l m : wf m -> chosen t o l m <= newest m l.
Proof.
  intros [Hs Hc _]. specialize (Hs t l). specialize (Hc l). unfold chosen. destruct (is_seqcst o); lia.
Qed.

(** A [SeqCst] load after a [SeqCst] store that is the newest returns it. *)
Lemma chosen_newest t l m : wf m -> last_sc m l = newest m l -> chosen t SeqCst l m = newest m l.
Proof. intros Hw Hc. pose proof (chosen_le t SeqCst l m Hw) as Hle. unfold chosen in *. cbn in *. lia. Qed.

Lemma load_newest t l m : wf m -> last_sc m l = newest m l ->
  load t SeqCst l m = (drop_choice (observe t SeqCst l (newest m l) m), latest m l).
Proof. intros Hw Hc. unfold load. by rewrite chosen_newest. Qed.

(** So does any load of a thread that has seen the newest store. *)
Lemma load_seen t o l m : wf m -> covers (seen m t) m l ->
  load t o l m = (drop_choice (observe t o l (newest m l) m), latest m l).
Proof.
  intros Hw Hc. pose proof (chosen_le t o l m Hw) as Hle. unfold covers in Hc.
  assert (chosen t o l m = newest m l) as He by (unfold chosen in *; lia). unfold load. by rewrite He.
Qed.

Lemma drop_choice_touches t X m m' : touches t X m m' -> touches t X m (drop_choice m').
Proof. intros [[Hs Hc Hp] Hn Hm Hsc Hse Ho]. split; try done. Qed.

Lemma load_touches t o l m X : wf m -> touches t X m (load t o l m).1.
Proof. intros Hw. apply drop_choice_touches, observe_touches; [done|by apply chosen_le]. Qed.

Lemma update_touches t o l f m : wf m -> touches t (eq l) m (update t o l f m).1.
Proof.
  intros Hw. eapply touches_trans; [by apply observe_touches|]. apply append_touches; [by apply wf_observe|].
  cbn. by apply wf_published.
Qed.

Lemma latest_update t o l f m : latest (update t o l f m).1 l = f (latest m l).
Proof. apply latest_append. Qed.

Lemma latest_store t o l v m : latest (store t o l v m) l = v.
Proof. apply latest_append. Qed.

Lemma newest_update t o l f m : newest (update t o l f m).1 = <[l := S (newest m l)]> (newest m).
Proof. done. Qed.

Lemma history_update t o l f m i : i <= newest m l -> history (update t o l f m).1 l i = history m l i.
Proof. intros Hi. unfold update. cbn [fst]. by rewrite history_append. Qed.

Lemma covers_update t o l f m : covers (seen (update t o l f m).1 t) (update t o l f m).1 l.
Proof. apply covers_own. Qed.

(** What the store of an update passes on includes what the store it read did. *)
Lemma update_inherited t o l f m :
  view_le (published (newest_message m l)) (published (newest_message (update t o l f m).1 l)).
Proof. apply published_inherited. Qed.

(** An update that acquires has seen what the store it read passed on; one that
    releases passes on what its thread has seen. *)
Lemma update_acquired t o l f m :
  acquires o = true -> view_le (published (newest_message m l)) (seen (update t o l f m).1 t).
Proof.
  intros Ho. unfold update. cbn [fst]. rewrite seen_append, seen_observe, Ho. etrans; [|apply join_l]. apply join_r.
Qed.

Lemma update_published t o l f m : releases o = true ->
  view_le (seen m t) (published (newest_message (update t o l f m).1 l)).
Proof.
  intros Ho. etrans; [|by apply published_append]. rewrite seen_observe. etrans; [|apply join_l]. apply join_l.
Qed.

Lemma plain_done {B} t l (f : V -> V * B) m : wf m -> covers (seen m t) m l ->
  plain t l f m = Done (append t Relaxed l nothing (f (latest m l)).1 m, (f (latest m l)).2).
Proof.
  intros Hw Hc. unfold plain. pose proof (wf_seen _ Hw t l) as Hle. unfold covers in Hc.
  rewrite (proj2 (Nat.eqb_eq _ _)) by lia. by destruct (f (latest m l)).
Qed.
End memory.

(** ** Programs

    The state of a program: the memory, and the wakers fired through each slot
    (named by the location of its state). *)
Section programs.
Context {L V : Type} `{!EqDecision L} `{Wakers}.

Record machine : Type := mkMachine { mem : memory (L := L) (V := V); fired : L -> list waker }.

Definition on_mem {B} (f : memory -> memory * B) : prog machine B :=
  act (fun s => let '(m, b) := f (mem s) in Done (mkMachine m (fired s), b)).

Definition load_as (A : Type) `{!Stored V A} (t : nat) (o : ordering) (l : L) : prog machine A :=
  on_mem (fun m => let '(m, v) := load t o l m in (m, project v)).
Definition store_as {A} `{!Stored V A} (t : nat) (o : ordering) (l : L) (a : A) : prog machine unit :=
  on_mem (fun m => (store t o l (inject a) m, tt)).
Definition update_as {A} `{!Stored V A} (t : nat) (o : ordering) (l : L) (f : A -> A) : prog machine A :=
  on_mem (fun m => let '(m, v) := update t o l (fun v => inject (f (project v))) m in (m, project v)).
Definition compare_exchange_as `{!Stored V Z} (t : nat) (success failure : ordering) (l : L) (old new : Z) :
    prog machine (bool * Z) :=
  on_mem (fun m =>
    let '(m, (ok, v)) := compare_exchange t success failure l (fun v => (project v =? old)%Z) (inject new) m in
    (m, (ok, project v))).
Definition plain_as {A B} `{!Stored V A} (t : nat) (l : L) (f : A -> A * B) : prog machine B :=
  act (fun s =>
    '(m, b) ← plain t l (fun v => let '(a, b) := f (project v) in (inject a, b)) (mem s);
    Done (mkMachine m (fired s), b)).
End programs.
(** ** Litmus tests

    Two threads that use two locations. *)
Section litmus.
Context `{Wakers}.
#[local] Instance stored_z : Stored Z Z := {| inject z := z; project z := z; project_inject _ := eq_refl |}.
Abbreviation state := (machine (L := bool) (V := Z)).

Definition litmus_start (choices : list nat) : state := mkMachine (fresh (fun _ => 0%Z) choices) (fun _ => []).

(** Each thread stores to its location, then loads the other's. *)
Definition store_buffering (o_store o_load : ordering) : list (prog state Z) :=
  (fun t : nat => _ ← store_as t o_store (t =? 0) 1%Z; load_as Z t o_load (negb (t =? 0))) <$> [0; 1].

(** One thread writes data and then stores a flag; the other reads the data if it
    sees the flag. *)
Definition message_passing (o_store o_load : ordering) : list (prog state Z) :=
  [ _ ← plain_as (A := Z) 0 true (fun _ => (42%Z, tt)); _ ← store_as 0 o_store false 1%Z; Ret 0%Z;
    f ← load_as Z 1 o_load false; if (f =? 0)%Z then Ret 0%Z else plain_as (A := Z) 1 true (fun v => (v, v)) ].

Definition litmus (choices sch : list nat) (ps : list (prog state Z)) : outcome (list (prog state Z)) :=
  '(_, ps) ← run_sched sch (litmus_start choices) ps; Done ps.

(** Loads weaker than [SeqCst] may miss each other's stores; [SeqCst] ones see
    them however far back they would go. *)
Lemma store_buffering_release : litmus [0; 1] [0; 0; 1; 1] (store_buffering Release Acquire) = Done [Ret 0%Z; Ret 0%Z].
Proof. reflexivity. Qed.
Lemma store_buffering_seqcst : litmus [0; 1] [0; 0; 1; 1] (store_buffering SeqCst SeqCst) = Done [Ret 0%Z; Ret 1%Z].
Proof. reflexivity. Qed.

(** A relaxed flag passes nothing on, and the second access is a race. *)
Lemma message_passing_relaxed : litmus [0] [0; 0; 1; 1] (message_passing Relaxed Acquire) = Undefined.
Proof. reflexivity. Qed.
Lemma message_passing_release : litmus [0] [0; 0; 1; 1] (message_passing Release Acquire) = Done [Ret 0%Z; Ret 42%Z].
Proof. reflexivity. Qed.
End litmus.
End Weak.
