(* ===== verification/WeakNotify.v ===== *)
(** * [AtomicWaker] and [WaiterSlot] with their memory orderings ([src/site_d/notify.rs])

    [Module WeakNotify]: the operations of [Notify.v] over the memory of
    [WeakMemory.v], each access with the ordering of the source, and the proof
    that for one waiter and one signaller they refine the sequentially consistent
    ones ([sim_arm], [sim_disarm], [sim_signal]), as part of any larger program
    that keeps the slot's invariant [slot_ok]. *)
From stdpp Require Import base list gmap numbers relations functions strings.
From S2P Require Import Prelude WaitList Concurrency Notify Simulation WeakMemory.

Module WeakNotify.
Import Weak.

(** The locations of a slot. *)
Record Locations (L : Type) : Type := mkLocations { state_at : L; cell_at : L; armed_at : L }.
Arguments state_at {L} l.
Arguments cell_at {L} l.
Arguments armed_at {L} l.

Section weak.
Context `{BuildMode} {L V : Type} `{!EqDecision L} `{Wk : Wakers}.
Context `{!Stored V Z} `{!Stored V bool} `{!Stored V (option waker)}.
Abbreviation machine := (machine (L := L) (V := V)).
Abbreviation memory := (memory (L := L) (V := V)).

Section programs.
Context (t : nat) (r : Locations L).
Abbreviation P := (prog machine).

Definition fire (w : waker) : P unit :=
  Concurrency.store (fun s => mkMachine (mem s) (<[state_at r := fired s (state_at r) ++ [w]]> (fired s))).

Definition store_waker (w : waker) : P unit :=
  plain_as t (cell_at r) (fun c : option waker =>
    (match c with Some w0 => if will_wake w0 w then c else Some w | None => Some w end, tt)).

Definition take_cell : P (option waker) :=
  plain_as t (cell_at r) (fun c : option waker => (None, c)).

Definition register (w : waker) : P unit :=
  '(_, found) ← compare_exchange_as t Acquire Acquire (state_at r) Notify.WAITING Notify.REGISTERING;
  if (found =? Notify.WAITING)%Z then
    _ ← store_waker w;
    '(ok, actual) ← compare_exchange_as t AcqRel Acquire (state_at r) Notify.REGISTERING Notify.WAITING;
    if (ok : bool) then Ret tt
    else
      _ ← check (debug_assert (actual =? Z.lor Notify.REGISTERING Notify.WAKING)%Z
                   "assertion failed: actual == REGISTERING | WAKING");
      o ← take_cell;
      match o with
      | None => check (Panicked "called `Option::unwrap()` on a `None` value")
      | Some wk => _ ← update_as t AcqRel (state_at r) (fun _ : Z => Notify.WAITING); fire wk
      end
  else fire w.

Definition take : P (option waker) :=
  st ← update_as t AcqRel (state_at r) (fun st => Z.lor st Notify.WAKING);
  if (st =? Notify.WAITING)%Z then
    w ← take_cell;
    _ ← update_as t Release (state_at r) (fun st => Z.ldiff st Notify.WAKING);
    Ret w
  else Ret None.

Definition wake : P unit :=
  o ← take;
  match o with Some w => fire w | None => Ret tt end.

Definition arm (w : waker) : P unit :=
  _ ← register w;
  store_as t SeqCst (armed_at r) true.

Definition disarm : P unit := store_as t Relaxed (armed_at r) false.

Definition signal_slow : P unit :=
  was ← update_as t AcqRel (armed_at r) (fun _ : bool => false);
  if (was : bool) then wake else Ret tt.

Definition signal : P unit :=
  a ← load_as bool t SeqCst (armed_at r);
  if (a : bool) then signal_slow else Ret tt.
End programs.

(** ** The slot a memory holds *)
Definition slot_of (r : Locations L) (m : memory) : Notify.WaiterSlot :=
  Notify.mkSlot (Notify.mkAtomicWaker (project (latest m (state_at r))) (project (latest m (cell_at r))))
    (project (latest m (armed_at r))).

Definition of_slot (r : Locations L) (l : L) : Prop := l = state_at r \/ l = cell_at r \/ l = armed_at r.

(** With one waiter, thread [a], and one signaller, thread [b], the state tells
    who may use the cell: the waiter while the [REGISTERING] bit is set, else the
    signaller while [WAKING] is, else whoever acquires the state. The flag, while
    it is up, was raised by the last [SeqCst] store to it. *)
Definition state_of (r : Locations L) (m : memory) : Z := project (latest m (state_at r)).
Definition flag_of (r : Locations L) (m : memory) : bool := project (latest m (armed_at r)).

Definition waiter_holds (r : Locations L) (m : memory) : Prop :=
  state_of r m = Notify.REGISTERING \/ state_of r m = Z.lor Notify.REGISTERING Notify.WAKING.
Definition signaller_holds (r : Locations L) (m : memory) : Prop := state_of r m = Notify.WAKING.

Record slot_ok (r : Locations L) (a b : nat) (m : memory) : Prop := {
  so_state : state_of r m = Notify.WAITING \/ waiter_holds r m \/ signaller_holds r m;
  so_free : state_of r m = Notify.WAITING -> covers (published (newest_message m (state_at r))) m (cell_at r);
  so_waiter : waiter_holds r m -> covers (seen m a) m (cell_at r);
  so_signaller : signaller_holds r m -> covers (seen m b) m (cell_at r);
  so_armed : flag_of r m = true -> last_sc m (armed_at r) = newest m (armed_at r)
}.

Record distinct (r : Locations L) : Prop := {
  di_sc : state_at r <> cell_at r;
  di_sa : state_at r <> armed_at r;
  di_ca : cell_at r <> armed_at r
}.

(** Arithmetic of the three states and their combination. *)
Ltac states :=
  unfold waiter_holds, signaller_holds, Notify.WAITING, Notify.REGISTERING, Notify.WAKING in *;
  change (Z.lor 1 2) with 3%Z in *; change (Z.lor 2 2) with 2%Z in *; lia.

(** Side conditions of a step on the state: contradictions between states, or
    what is at hand. *)
Ltac state_facts :=
  first [ by intros | states | by intros; exfalso; states | by intros; left | by intros; right
        | by intros; split; [|left] | by intros; split; [|right] | by intros ->
        | intros _ Hstate; states ].

(** Accesses that leave the slot alone or change one of its locations. *)
Lemma ok_frame r a b t X m m' :
  touches t X m m' -> (forall l, X l -> ~ of_slot r l) -> slot_ok r a b m -> slot_ok r a b m'.
Proof.
  intros Ht HX [Hs Hf Hw Hg Ha].
  assert (~ X (state_at r) /\ ~ X (cell_at r) /\ ~ X (armed_at r)) as (Hxs & Hxc & Hxa).
  { split_and!; intros Hx; apply (HX _ Hx); unfold of_slot; auto. }
  assert (state_of r m' = state_of r m) as Hst by (unfold state_of; by rewrite (touches_latest _ _ _ _ _ Ht)).
  assert (flag_of r m' = flag_of r m) as Hfl by (unfold flag_of; by rewrite (touches_latest _ _ _ _ _ Ht)).
  split; unfold waiter_holds, signaller_holds; rewrite ?Hst, ?Hfl; [done|..].
  - intros Hx. rewrite (to_message _ _ _ _ _ Ht) by done. eapply covers_same; [by eapply to_newest|by apply Hf].
  - intros Hx. eapply covers_seen; [exact Ht|done|by apply Hw].
  - intros Hx. eapply covers_seen; [exact Ht|done|by apply Hg].
  - intros Hx. rewrite (to_sc _ _ _ _ Ht), (to_newest _ _ _ _ Ht) by done. by apply Ha.
Qed.

Lemma ok_quiet r a b t m m' : touches t (fun _ => False) m m' -> slot_ok r a b m -> slot_ok r a b m'.
Proof. intros Ht. eapply ok_frame; [exact Ht|by intros l []]. Qed.

Lemma ok_state r a b t m m' :
  distinct r -> touches t (eq (state_at r)) m m' -> slot_ok r a b m ->
  (state_of r m' = Notify.WAITING \/ waiter_holds r m' \/ signaller_holds r m') ->
  (state_of r m' = Notify.WAITING -> covers (published (newest_message m' (state_at r))) m' (cell_at r)) ->
  (waiter_holds r m' -> covers (seen m' a) m' (cell_at r)) ->
  (signaller_holds r m' -> covers (seen m' b) m' (cell_at r)) -> slot_ok r a b m'.
Proof.
  intros Hd Ht [_ _ _ _ Ha] Hs Hf Hw Hg. split; [done..|]. unfold flag_of.
  rewrite (touches_latest _ _ _ _ _ Ht) by apply Hd. rewrite (to_sc _ _ _ _ Ht), (to_newest _ _ _ _ Ht) by apply Hd. done.
Qed.

Lemma ok_cell r a b t m m' :
  distinct r -> touches t (eq (cell_at r)) m m' -> slot_ok r a b m ->
  (t = a /\ waiter_holds r m \/ t = b /\ signaller_holds r m) ->
  covers (seen m' t) m' (cell_at r) -> slot_ok r a b m'.
Proof.
  intros Hd Ht [Hs _ _ _ Ha] Hh Hc.
  assert (state_of r m' = state_of r m) as Hst.
  { unfold state_of. rewrite (touches_latest _ _ _ _ _ Ht); [done|]. intros Hx. by apply (di_sc _ Hd). }
  split; unfold waiter_holds, signaller_holds, flag_of; rewrite ?Hst; [done|..].
  - intros Hx. exfalso. destruct Hh as [[_ Hh]|[_ Hh]]; states.
  - intros Hx. destruct Hh as [[<- _]|[_ Hh]]; [done|]. exfalso. states.
  - intros Hx. destruct Hh as [[_ Hh]|[<- _]]; [exfalso; states|done].
  - rewrite (touches_latest _ _ _ _ _ Ht) by apply Hd. rewrite (to_sc _ _ _ _ Ht), (to_newest _ _ _ _ Ht) by apply Hd. done.
Qed.

Lemma ok_armed r a b t m m' :
  distinct r -> touches t (eq (armed_at r)) m m' -> slot_ok r a b m ->
  (flag_of r m' = true -> last_sc m' (armed_at r) = newest m' (armed_at r)) -> slot_ok r a b m'.
Proof.
  intros Hd Ht [Hs Hf Hw Hg _] Ha.
  assert (armed_at r <> state_at r) as Hns by (intros Hx; by apply (di_sa _ Hd)).
  assert (armed_at r <> cell_at r) as Hnc by (intros Hx; by apply (di_ca _ Hd)).
  assert (state_of r m' = state_of r m) as Hst by (unfold state_of; by rewrite (touches_latest _ _ _ _ _ Ht)).
  split; unfold waiter_holds, signaller_holds; rewrite ?Hst; [done|..|done].
  - intros Hx. rewrite (to_message _ _ _ _ _ Ht) by done. eapply covers_same; [by eapply to_newest|by apply Hf].
  - intros Hx. eapply covers_seen; [exact Ht|done|by apply Hw].
  - intros Hx. eapply covers_seen; [exact Ht|done|by apply Hg].
Qed.

(** The slot after an access to one of its locations. *)
Lemma slot_state r t m m' : distinct r -> touches t (eq (state_at r)) m m' ->
  slot_of r m' = Notify.set_state (state_of r m') (slot_of r m).
Proof.
  intros Hd Ht. unfold slot_of, Notify.set_state, state_of. cbn [Notify.aw Notify.cell Notify.armed].
  by rewrite (touches_latest _ _ _ _ (cell_at r) Ht), (touches_latest _ _ _ _ (armed_at r) Ht) by apply Hd.
Qed.

Lemma slot_cell r t m m' : distinct r -> touches t (eq (cell_at r)) m m' ->
  slot_of r m' = Notify.set_cell (project (latest m' (cell_at r))) (slot_of r m).
Proof.
  intros Hd Ht. unfold slot_of, Notify.set_cell. cbn [Notify.aw Notify.state Notify.armed].
  rewrite (touches_latest _ _ _ _ (state_at r) Ht), (touches_latest _ _ _ _ (armed_at r) Ht); [done|apply Hd|].
  intros Hx. by apply (di_sc _ Hd).
Qed.

Lemma slot_armed r t m m' : distinct r -> touches t (eq (armed_at r)) m m' ->
  slot_of r m' = Notify.set_armed (flag_of r m') (slot_of r m).
Proof.
  intros Hd Ht. unfold slot_of, Notify.set_armed, flag_of. cbn [Notify.aw].
  rewrite (touches_latest _ _ _ _ (state_at r) Ht), (touches_latest _ _ _ _ (cell_at r) Ht); [done|..]; intros Hx.
  - by apply (di_ca _ Hd).
  - by apply (di_sa _ Hd).
Qed.

(** How an abstract state sees a slot and the wakers fired through it. *)
Record SlotAbs {S : Type} (abs : machine -> S) (r : Locations L) (sr : Notify.SlotRef S) : Prop := {
  sa_slot s : Notify.get_slot _ sr (abs s) = slot_of r (mem s);
  sa_log s : Notify.get_log _ sr (abs s) = fired s (state_at r);
  sa_step s m : (forall l, ~ of_slot r l -> latest m l = latest (mem s) l) ->
    abs (mkMachine m (fired s)) = Notify.put_slot _ sr (slot_of r m) (abs s);
  sa_fire s w : abs (mkMachine (mem s) (<[state_at r := fired s (state_at r) ++ [w]]> (fired s))) =
    Notify.put_log _ sr (fired s (state_at r) ++ [w]) (abs s);
  sa_put s : Notify.put_slot _ sr (Notify.get_slot _ sr s) s = s
}.

(** ** Refinement

    Thread [t] is the waiter or the signaller of the slot, within a program whose
    own invariant [I] implies the slot's. *)
Section refinement.
Context {S Gh Hint : Type} `{!Inhabited Hint} (abs : Hint -> machine -> S) (r : Locations L) (sr : Notify.SlotRef S) (a b : nat).
Context (Habs : forall h, SlotAbs (abs h) r sr) (Hd : distinct r) (Hab : a <> b).
Implicit Types (x : machine * Gh).

Record slot_move (t : nat) x x' : Prop := {
  sm_touches : touches t (of_slot r) (mem x.1) (mem x'.1);
  sm_ok : slot_ok r a b (mem x'.1);
  sm_ghost : x'.2 = x.2;
  sm_waiter : t = b -> waiter_holds r (mem x.1) -> waiter_holds r (mem x'.1);
  sm_signaller : t = a -> signaller_holds r (mem x.1) -> signaller_holds r (mem x'.1)
}.

Record SlotEnv (t : nat) (held : memory -> Prop) (I : machine * Gh -> Prop) (R G : relation (machine * Gh)) : Prop := {
  se_inv x : I x -> wf (mem x.1) /\ slot_ok r a b (mem x.1);
  se_rely x x' : I x -> R x x' -> I x' /\ (held (mem x.1) -> held (mem x'.1));
  se_guar x x' : I x -> slot_move t x x' -> G x x' /\ I x'
}.

Lemma abs_same h s (m : memory) : (forall l, latest m l = latest (mem s) l) -> abs h (mkMachine m (fired s)) = abs h s.
Proof.
  intros Hm. rewrite (sa_step _ _ _ (Habs h)) by by intros l _. unfold slot_of. rewrite !Hm.
  change (Notify.put_slot _ sr (slot_of r (mem s)) (abs h s) = abs h s). rewrite <-(sa_slot _ _ _ (Habs h)).
  apply (sa_put _ _ _ (Habs h)).
Qed.

Lemma touch_slot t l (m m' : memory) : of_slot r l -> touches t (eq l) m m' -> touches t (of_slot r) m m'.
Proof. intros Hl. apply touches_weaken. by intros l' <-. Qed.

Lemma abs_touch h t s (m : memory) : touches t (of_slot r) (mem s) m ->
  abs h (mkMachine m (fired s)) = Notify.put_slot _ sr (slot_of r m) (abs h s).
Proof. intros Ht. apply (sa_step _ _ _ (Habs h)). intros l Hl. by eapply touches_latest. Qed.

Section side.
Context (t : nat) (held : memory -> Prop) (I : machine * Gh -> Prop) (R G : relation (machine * Gh)).
Context (He : SlotEnv t held I R G).

Lemma env_stable : stable R I.
Proof. intros x x' Hi Hr. by eapply se_rely. Qed.

Lemma env_held_stable : stable R (fun x => I x /\ held (mem x.1)).
Proof. intros x x' [Hi Hh] Hr. destruct (se_rely _ _ _ _ _ He x x' Hi Hr). auto. Qed.

(** An access to the slot, matched by the same access of the abstract state, which
    does not depend on the hints. *)
Lemma sim_slot {A B C} (P : machine * Gh -> Prop) (f : machine -> outcome (machine * B)) (h : S -> outcome (S * C))
    (k : B -> prog machine A) (kp : C -> prog S A) Q x :
  stable R P -> P x -> (forall x, P x -> I x) ->
  (forall s g, P (s, g) -> wf (mem s) -> slot_ok r a b (mem s) -> exists c0, forall i s1 c, h (abs i s) = Done (s1, c) ->
    c = c0 /\ exists s' b', f s = Done (s', b') /\ abs i s' = s1 /\ slot_move t (s, g) (s', g) /\
      (I (s', g) -> sim abs R G (k b') (kp c0) Q (s', g))) ->
  sim abs R G (Act f k) (Act h kp) Q x.
Proof.
  intros Hs Hp HPI Hk. apply (sim_act abs R G f h k kp P); [done..|]. intros s g HP. exists id. intros Hdone.
  destruct (se_inv _ _ _ _ _ He _ (HPI _ HP)) as [Hw Hok]. destruct (Hk s g HP Hw Hok) as [c0 Hc].
  destruct (Hdone inhabitant) as (s1 & c & Hh). destruct (Hc _ _ _ Hh) as (-> & s' & b' & Hf & Ha & Hm & Hsim).
  destruct (se_guar _ _ _ _ _ He _ _ (HPI _ HP) Hm) as [HG HI]. exists s', b', g, c0. split_and!; [done| |done|auto].
  intros i. destruct (Hdone i) as (s2 & c & Hi). destruct (Hc _ _ _ Hi) as (-> & s'' & b'' & Hf' & Ha' & _).
  unfold id in *. rewrite Hf in Hf'. injection Hf' as <- <-. by rewrite Hi, <-Ha'.
Qed.

Lemma sim_fire w Q x : I x -> (forall x, I x -> Q tt x) -> sim abs R G (fire r w) (Notify.fire sr w) Q x.
Proof.
  intros Hi HQ. apply (sim_slot I); [apply env_stable|done|done|]. intros s g HI Hw Hok. exists tt. intros i s1 [] Hh.
  split; [done|]. cbn in Hh. injection Hh as <-. eexists _, _. split_and!; [done| | |].
  - rewrite (sa_fire _ _ _ (Habs _)). by rewrite (sa_log _ _ _ (Habs _)).
  - split; cbn; [by apply touches_refl|done..].
  - intros HI'. eapply sim_ret; [apply env_stable|exact HI'|apply HQ].
Qed.

Lemma sim_check (P : machine * Gh -> Prop) (o : outcome unit) Q x :
  stable R P -> P x -> (forall x, P x -> I x) -> (o = Done tt -> forall x, P x -> Q tt x) ->
  sim abs R G (check o) (check o) Q x.
Proof.
  intros Hs Hp HPI HQ. apply (sim_slot P); [done..|]. intros s g HP Hw Hok. exists tt. intros i s1 [] Hh.
  split; [done|]. destruct o as [[]| |]; outcome_simpl; [|done..]. injection Hh as <-. eexists s, tt. split_and!; [done|done| |].
  - split; cbn; [by apply touches_refl|done..].
  - intros _. eapply sim_ret; [exact Hs|exact HP|by apply HQ].
Qed.

(** An access to the cell by the side that holds it. *)
Lemma sim_plain {B} (f : option waker -> option waker * B) (h : S -> outcome (S * B)) Q x :
  t = a /\ held = waiter_holds r \/ t = b /\ held = signaller_holds r ->
  (forall i s, let c := Notify.cell (Notify.aw (slot_of r (mem s))) in
    h (abs i s) = Done (Notify.put_slot _ sr (Notify.set_cell (f c).1 (slot_of r (mem s))) (abs i s), (f c).2)) ->
  I x -> held (mem x.1) -> (forall b x, I x -> held (mem x.1) -> Q b x) ->
  sim abs R G (plain_as t (cell_at r) f) (act h) Q x.
Proof.
  intros Hside Hh Hi Hheld HQ. apply (sim_slot (fun x => I x /\ held (mem x.1))); [apply env_held_stable|done|by intros ? []|].
  intros s g [HI Hhs] Hw Hok. exists (f (Notify.cell (Notify.aw (slot_of r (mem s))))).2. intros i s1 c Hrun. rewrite Hh in Hrun.
  injection Hrun as <- <-. split; [done|].
  set (h' := fun v : V => let '(a, b) := f (project v) in (inject (V := V) a, b)).
  assert (covers (seen (mem s) t) (mem s) (cell_at r)) as Hcov.
  { destruct Hside as [[-> ->]|[-> ->]]; [by apply (so_waiter _ _ _ _ Hok)|by apply (so_signaller _ _ _ _ Hok)]. }
  set (m' := append t Relaxed (cell_at r) nothing (h' (latest (mem s) (cell_at r))).1 (mem s)).
  assert (touches t (eq (cell_at r)) (mem s) m') as Ht by (apply append_touches; [done|apply nothing_le]).
  assert (state_of r m' = state_of r (mem s)) as Hst.
  { unfold state_of. rewrite (touches_latest _ _ _ _ _ Ht); [done|]. intros Hx. by apply (di_sc _ Hd). }
  exists (mkMachine m' (fired s)), (h' (latest (mem s) (cell_at r))).2. split_and!.
  - unfold h'. rewrite plain_done by done. outcome_simpl. done.
  - rewrite (abs_touch _ t) by (eapply touch_slot; [|exact Ht]; right; by left).
    rewrite (slot_cell _ _ _ _ Hd Ht). unfold m'. rewrite latest_append. unfold h'.
    change (project (latest (mem s) (cell_at r))) with (Notify.cell (Notify.aw (slot_of r (mem s)))).
    destruct (f _) as [c' b']. cbn. by rewrite project_inject.
  - split; cbn [mem fst].
    + eapply touch_slot; [|exact Ht]. right. by left.
    + eapply ok_cell; [done|exact Ht|done| |apply covers_own].
      destruct Hside as [[-> Hx]|[-> Hx]]; rewrite Hx in Hhs; [by left|by right].
    + done.
    + intros _. unfold waiter_holds. by rewrite Hst.
    + intros _. unfold signaller_holds. by rewrite Hst.
  - intros HI'. assert (held m') as Hm'.
    { destruct Hside as [[_ Hx]|[_ Hx]]; rewrite Hx in *; unfold waiter_holds, signaller_holds in *; by rewrite Hst. }
    replace (h' (latest (mem s) (cell_at r))).2 with (f (Notify.cell (Notify.aw (slot_of r (mem s))))).2
      by (unfold h', slot_of; cbn; by destruct (f _)).
    eapply sim_ret; [apply env_held_stable|by split|]. intros y [? ?]. by apply HQ.
Qed.
End side.

(** A read-modify-write of the state by thread [t], which leaves [z]: whoever then
    has the cell must have seen the accesses to it. *)
Lemma update_state t o f z s (g : Gh) :
  wf (mem s) -> slot_ok r a b (mem s) -> f (latest (mem s) (state_at r)) = inject z ->
  (t = a \/ t = b) ->
  (z = Notify.WAITING \/ (z = Notify.REGISTERING \/ z = Z.lor Notify.REGISTERING Notify.WAKING) \/ z = Notify.WAKING) ->
  (z = Notify.WAITING -> releases o = true /\ covers (seen (mem s) t) (mem s) (cell_at r)) ->
  (z = Notify.REGISTERING \/ z = Z.lor Notify.REGISTERING Notify.WAKING ->
     t = a /\ acquires o = true /\ state_of r (mem s) = Notify.WAITING \/ t = b /\ waiter_holds r (mem s)) ->
  (z = Notify.WAKING ->
     t = b /\ (acquires o = true /\ state_of r (mem s) = Notify.WAITING \/ signaller_holds r (mem s))) ->
  (t = b -> waiter_holds r (mem s) -> z <> Notify.WAITING) ->
  (t = a -> ~ signaller_holds r (mem s)) ->
  let m' := (update t o (state_at r) f (mem s)).1 in
  state_of r m' = z /\ (forall i, abs i (mkMachine m' (fired s)) = Notify.on_slot sr (Notify.set_state z) (abs i s)) /\
    slot_move t (s, g) (mkMachine m' (fired s), g).
Proof.
  intros Hw Hok Hf Htab Hz Hfree Hwait Hsig Hkeep Hnot m'.
  assert (touches t (eq (state_at r)) (mem s) m') as Ht by by apply update_touches.
  assert (state_of r m' = z) as Hst by (unfold state_of, m'; by rewrite latest_update, Hf, project_inject).
  assert (newest m' (cell_at r) = newest (mem s) (cell_at r)) as Hn by (eapply to_newest; [exact Ht|apply Hd]).
  assert (acquires o = true -> state_of r (mem s) = Notify.WAITING -> covers (seen m' t) m' (cell_at r)) as Hacq.
  { intros Ho Hs. eapply covers_same; [exact Hn|]. eapply covers_le; [by apply update_acquired|]. by apply (so_free _ _ _ _ Hok). }
  split_and!; [done| |].
  - intros i. rewrite (abs_touch _ t) by (eapply touch_slot; [|exact Ht]; by left). unfold Notify.on_slot.
    by rewrite (slot_state _ _ _ _ Hd Ht), Hst, (sa_slot _ _ _ (Habs _)).
  - split; cbn [mem fst snd]; [eapply touch_slot; [|exact Ht]; by left| |done| |].
    + eapply ok_state; [done|exact Ht|done|..]; unfold waiter_holds, signaller_holds; rewrite Hst; [done|..].
      * intros Hz'. destruct (Hfree Hz') as [Ho Hc]. eapply covers_same; [exact Hn|].
        eapply covers_le; [by apply update_published|exact Hc].
      * intros Hz'. destruct (Hwait Hz') as [(<- & ? & ?)|[-> Hh]]; [auto|].
        eapply (covers_seen _ _ (mem s)); [exact Ht|apply Hd|by apply (so_waiter _ _ _ _ Hok)].
      * intros Hz'. destruct (Hsig Hz') as [<- [[? ?]|Hh]]; [auto|].
        eapply (covers_seen _ _ (mem s)); [exact Ht|apply Hd|by apply (so_signaller _ _ _ _ Hok)].
    + intros Htb Hh. specialize (Hkeep Htb Hh). unfold waiter_holds. rewrite Hst. destruct Hz as [?|[?|Hz]]; [done|done|].
      destruct (Hsig Hz) as [_ [[_ ?]|?]]; exfalso; states.
    + intros Hta Hh. by destruct (Hnot Hta).
Qed.

(** *** The waiter *)
Section waiter.
Context (I : machine * Gh -> Prop) (R G : relation (machine * Gh)) (He : SlotEnv a (waiter_holds r) I R G).

Lemma sim_lock_registering Q x :
  I x -> (forall x, I x -> waiter_holds r (mem x.1) -> Q (true, Notify.WAITING) x) ->
  (forall v x, v <> Notify.WAITING -> I x -> Q (false, v) x) ->
  sim abs R G (compare_exchange_as a Acquire Acquire (state_at r) Notify.WAITING Notify.REGISTERING)
    (Notify.compare_exchange sr Notify.WAITING Notify.REGISTERING) Q x.
Proof.
  intros Hi Hyes Hno. apply (sim_slot a (waiter_holds r) I R G He I); [by eapply env_stable|done|done|].
  intros s g HI Hw Hok. exists ((state_of r (mem s) =? Notify.WAITING)%Z, state_of r (mem s)). intros i s1 c Hrun.
  cbv beta in Hrun. rewrite (sa_slot _ _ _ (Habs _)) in Hrun. cbn zeta in Hrun.
  change (Notify.state (Notify.aw (slot_of r (mem s)))) with (state_of r (mem s)) in Hrun.
  unfold compare_exchange_as, compare_exchange. cbn zeta.
  change (project (latest (mem s) (state_at r)) =? Notify.WAITING)%Z with (state_of r (mem s) =? Notify.WAITING)%Z.
  destruct (state_of r (mem s) =? Notify.WAITING)%Z eqn:Hst; injection Hrun as <- <-; (split; [done|]).
  - apply Z.eqb_eq in Hst.
    destruct (update_state a Acquire (fun _ => inject Notify.REGISTERING) Notify.REGISTERING s g) as (Hst' & Ha & Hm);
      [done|done|done|by left|state_facts..|].
    eexists (mkMachine _ (fired s)), (true, Notify.WAITING). split_and!; [by rewrite <-Hst at 1|exact (Ha _)|exact Hm|].
    + intros HI'. rewrite Hst.
      eapply sim_ret; [eapply env_held_stable, He|split; [exact HI'|by left]|]. intros y [? ?]. by apply Hyes.
  - apply Z.eqb_neq in Hst.
    eexists (mkMachine _ (fired s)), (false, state_of r (mem s)). split_and!; [done| | |].
    + apply abs_same. done.
    + assert (touches a (fun _ => False) (mem s) (observe a Acquire (state_at r) (newest (mem s) (state_at r)) (mem s))) as Ht
        by by apply observe_touches.
      split; cbn [mem fst]; [eapply touches_weaken; [|exact Ht]; done|by eapply ok_quiet|done|done|done].
    + intros HI'. eapply sim_ret; [eapply env_stable, He|exact HI'|]. intros y Hy. by apply Hno.
Qed.

Lemma sim_unlock_registering Q x :
  I x -> waiter_holds r (mem x.1) -> (forall v x, I x -> Q (true, v) x) ->
  (forall v x, I x -> waiter_holds r (mem x.1) -> Q (false, v) x) ->
  sim abs R G (compare_exchange_as a AcqRel Acquire (state_at r) Notify.REGISTERING Notify.WAITING)
    (Notify.compare_exchange sr Notify.REGISTERING Notify.WAITING) Q x.
Proof.
  intros Hi Hh Hyes Hno. apply (sim_slot a (waiter_holds r) I R G He (fun x => I x /\ waiter_holds r (mem x.1)));
    [by eapply env_held_stable|done|by intros ? []|].
  intros s g [HI Hhs] Hw Hok. exists ((state_of r (mem s) =? Notify.REGISTERING)%Z, state_of r (mem s)). intros i s1 c Hrun.
  cbn in Hhs. cbv beta in Hrun. rewrite (sa_slot _ _ _ (Habs _)) in Hrun. cbn zeta in Hrun.
  change (Notify.state (Notify.aw (slot_of r (mem s)))) with (state_of r (mem s)) in Hrun.
  unfold compare_exchange_as, compare_exchange. cbn zeta.
  change (project (latest (mem s) (state_at r)) =? Notify.REGISTERING)%Z with (state_of r (mem s) =? Notify.REGISTERING)%Z.
  destruct (state_of r (mem s) =? Notify.REGISTERING)%Z eqn:Hst; injection Hrun as <- <-; (split; [done|]).
  - apply Z.eqb_eq in Hst.
    destruct (update_state a AcqRel (fun _ => inject Notify.WAITING) Notify.WAITING s g) as (Hst' & Ha & Hm);
      [done|done|done|by left|try state_facts..|].
    { intros _. split; [done|]. by apply (so_waiter _ _ _ _ Hok). }
    eexists (mkMachine _ (fired s)), (true, state_of r (mem s)). split_and!; [done|exact (Ha _)|exact Hm|].
    intros HI'. eapply sim_ret; [eapply env_stable, He|exact HI'|]. intros y Hy. by apply Hyes.
  - eexists (mkMachine _ (fired s)), (false, state_of r (mem s)). split_and!; [done|by apply abs_same| |].
    + assert (touches a (fun _ => False) (mem s) (observe a Acquire (state_at r) (newest (mem s) (state_at r)) (mem s))) as Ht
        by by apply observe_touches.
      split; cbn [mem fst]; [eapply touches_weaken; [|exact Ht]; done|by eapply ok_quiet|done|done|done].
    + intros HI'. eapply sim_ret; [eapply env_held_stable, He|by split|]. intros y [? ?]. by apply Hno.
Qed.

Lemma sim_unlock_fired {B} Q (k : prog machine B) kp x :
  I x -> waiter_holds r (mem x.1) -> (forall x, I x -> sim abs R G k kp Q x) ->
  sim abs R G (_ ← update_as a AcqRel (state_at r) (fun _ : Z => Notify.WAITING); k)
    (_ ← Concurrency.store (Notify.on_slot sr (Notify.set_state Notify.WAITING)); kp) Q x.
Proof.
  intros Hi Hh Hk. apply (sim_slot a (waiter_holds r) I R G He (fun x => I x /\ waiter_holds r (mem x.1)));
    [by eapply env_held_stable|done|by intros ? []|].
  intros s g [HI Hhs] Hw Hok. eexists. intros i s1 c Hrun. cbn in Hhs. injection Hrun as <- <-. split; [done|].
  destruct (update_state a AcqRel (fun _ => inject Notify.WAITING) Notify.WAITING s g) as (Hst' & Ha & Hm);
    [done|done|done|by left|try state_facts..|].
  { intros _. split; [done|]. by apply (so_waiter _ _ _ _ Hok). }
  eexists (mkMachine _ (fired s)), _. split_and!; [done|exact (Ha _)|exact Hm|]. intros HI'. by apply Hk.
Qed.

Lemma sim_take_back Q x :
  I x -> waiter_holds r (mem x.1) -> (forall o x, I x -> waiter_holds r (mem x.1) -> Q o x) ->
  sim abs R G (take_cell a r) (Notify.take_cell sr) Q x.
Proof.
  intros Hi Hh HQ. apply (sim_plain a (waiter_holds r) I R G He); [by left| |done..].
  intros i s. cbn zeta. unfold Notify.on_slot. by rewrite (sa_slot _ _ _ (Habs _)).
Qed.

Lemma sim_store_waker w Q x :
  I x -> waiter_holds r (mem x.1) -> (forall x, I x -> waiter_holds r (mem x.1) -> Q tt x) ->
  sim abs R G (store_waker a r w) (Notify.store_waker sr w) Q x.
Proof.
  intros Hi Hh HQ. apply (sim_plain a (waiter_holds r) I R G He); [by left| |done|done|by intros []].
  intros i s. cbn zeta. rewrite (sa_slot _ _ _ (Habs i)). unfold Notify.on_slot. rewrite (sa_slot _ _ _ (Habs i)).
  assert (forall c, c = Notify.cell (Notify.aw (slot_of r (mem s))) ->
    abs i s = Notify.put_slot _ sr (Notify.set_cell c (slot_of r (mem s))) (abs i s)) as Hput.
  { intros c ->. rewrite <-(sa_slot _ _ _ (Habs i)). destruct (Notify.get_slot _ sr (abs i s)) as [[] ?] eqn:Heq.
    unfold Notify.set_cell. cbn. rewrite <-Heq. symmetry. apply (sa_put _ _ _ (Habs i)). }
  destruct (Notify.cell (Notify.aw (slot_of r (mem s)))) as [w0|] eqn:Hc; [|done].
  destruct (will_wake w0 w); [|done]. cbn. by rewrite <-Hput.
Qed.

Lemma sim_store_armed o v Q x :
  I x -> (v = true -> o = SeqCst) -> (forall x, I x -> Q tt x) ->
  sim abs R G (store_as a o (armed_at r) v) (Concurrency.store (Notify.on_slot sr (Notify.set_armed v))) Q x.
Proof.
  intros Hi Ho HQ. apply (sim_slot a (waiter_holds r) I R G He I); [by eapply env_stable|done|done|].
  intros s g HI Hw Hok. exists tt. intros i s1 [] Hrun. injection Hrun as <-. split; [done|]. set (m' := store a o (armed_at r) (inject v) (mem s)).
  assert (touches a (eq (armed_at r)) (mem s) m') as Ht by (apply append_touches; [done|apply nothing_le]).
  assert (flag_of r m' = v) as Hfl by (unfold flag_of, m'; by rewrite latest_store, project_inject).
  assert (state_of r m' = state_of r (mem s)) as Hst.
  { unfold state_of. rewrite (touches_latest _ _ _ _ _ Ht); [done|]. intros Hx. by apply (di_sa _ Hd). }
  exists (mkMachine m' (fired s)), tt. split_and!; [done| | |].
  - rewrite (abs_touch _ a) by (eapply touch_slot; [|exact Ht]; right; by right). unfold Notify.on_slot.
    by rewrite (slot_armed _ _ _ _ Hd Ht), Hfl, (sa_slot _ _ _ (Habs _)).
  - split; cbn [mem fst]; [eapply touch_slot; [|exact Ht]; right; by right| |done|..].
    + eapply ok_armed; [done|exact Ht|done|]. rewrite Hfl. intros Hv. unfold m', store. rewrite (Ho Hv). apply sc_append.
    + intros _. unfold waiter_holds. by rewrite Hst.
    + intros _. unfold signaller_holds. by rewrite Hst.
  - intros HI'. eapply sim_ret; [eapply env_stable, He|exact HI'|done].
Qed.

Lemma sim_register w Q x : I x -> (forall x, I x -> Q tt x) -> sim abs R G (register a r w) (Notify.register sr w) Q x.
Proof.
  intros Hi HQ. apply sim_bind, sim_lock_registering; [done|clear x Hi; intros x Hi Hh|clear x Hi; intros v x Hv Hi].
  2: { rewrite (proj2 (Z.eqb_neq _ _) Hv). by apply (sim_fire a (waiter_holds r) I R G He). }
  cbn beta iota. rewrite Z.eqb_refl. apply sim_bind, sim_store_waker; [done..|]. clear x Hi Hh. intros x Hi Hh.
  apply sim_bind, sim_unlock_registering; [done..| |]; clear x Hi Hh.
  { intros v x Hi. eapply sim_ret; [eapply env_stable, He|exact Hi|done]. }
  intros v x Hi Hh. cbn beta iota. apply sim_bind.
  apply (sim_check a (waiter_holds r) I R G He (fun x => I x /\ waiter_holds r (mem x.1)));
    [by eapply env_held_stable|done|by intros ? []|]. clear x Hi Hh. intros _ x [Hi Hh].
  apply sim_bind, sim_take_back; [done..|]. clear x Hi Hh. intros [wk|] x Hi Hh.
  - apply sim_unlock_fired; [done..|]. clear x Hi Hh. intros x Hi. by apply (sim_fire a (waiter_holds r) I R G He).
  - apply (sim_check a (waiter_holds r) I R G He I); [by eapply env_stable|done..].
Qed.

Lemma sim_arm w Q x : I x -> (forall x, I x -> Q tt x) -> sim abs R G (arm a r w) (Notify.arm sr w) Q x.
Proof.
  intros Hi HQ. apply sim_bind, sim_register; [done|]. clear x Hi. intros x Hi.
  by apply (sim_store_armed SeqCst true).
Qed.

Lemma sim_disarm Q x : I x -> (forall x, I x -> Q tt x) -> sim abs R G (disarm a r) (Notify.disarm sr) Q x.
Proof. intros Hi HQ. by apply (sim_store_armed Relaxed false). Qed.
End waiter.

(** *** The signaller *)
Section signaller.
Context (I : machine * Gh -> Prop) (R G : relation (machine * Gh)) (He : SlotEnv b (signaller_holds r) I R G).

Lemma sim_fetch_or Q x :
  I x -> (forall x, I x -> signaller_holds r (mem x.1) -> Q Notify.WAITING x) ->
  (forall v x, v <> Notify.WAITING -> I x -> Q v x) ->
  sim abs R G (update_as b AcqRel (state_at r) (fun st => Z.lor st Notify.WAKING)) (Notify.fetch_or sr Notify.WAKING) Q x.
Proof.
  intros Hi Hyes Hno. apply (sim_slot b (signaller_holds r) I R G He I); [by eapply env_stable|done|done|].
  intros s g HI Hw Hok. exists (state_of r (mem s)). intros i s1 c Hrun. cbv beta in Hrun. rewrite (sa_slot _ _ _ (Habs _)) in Hrun. cbn zeta in Hrun.
  change (Notify.state (Notify.aw (slot_of r (mem s)))) with (state_of r (mem s)) in Hrun. injection Hrun as <- <-. split; [done|].
  set (z := Z.lor (state_of r (mem s)) Notify.WAKING).
  assert (state_of r (mem s) = Notify.WAITING /\ z = Notify.WAKING \/
    waiter_holds r (mem s) /\ z = Z.lor Notify.REGISTERING Notify.WAKING \/
    signaller_holds r (mem s) /\ z = Notify.WAKING) as Hz.
  { unfold z. destruct (so_state _ _ _ _ Hok) as [Hs|[[Hs|Hs]|Hs]].
    - left. by rewrite Hs.
    - right; left. split; [by left|by rewrite Hs].
    - right; left. split; [by right|by rewrite Hs].
    - right; right. unfold signaller_holds in Hs. split; [done|by rewrite Hs]. }
  destruct (update_state b AcqRel (fun v => inject (Z.lor (project v) Notify.WAKING)) z s g) as (Hst' & Ha & Hm);
    [done|done|done|by right|..].
  { destruct Hz as [[_ ->]|[[_ ->]|[_ ->]]]; auto. }
  1-4: intros; destruct Hz as [[? ?]|[[? ?]|[? ?]]]; first [by auto|exfalso; states|states].
  { intros Hba. by subst. }
  eexists (mkMachine _ (fired s)), (state_of r (mem s)). split_and!; [done|exact (Ha _)|exact Hm|].
  intros HI'. destruct (decide (state_of r (mem s) = Notify.WAITING)) as [Hst|Hst].
  - rewrite Hst. assert (z = Notify.WAKING) as Hzw by (unfold z; by rewrite Hst).
    eapply sim_ret; [eapply env_held_stable, He|split; [exact HI'|exact (eq_trans Hst' Hzw)]|]. intros y [? ?]. by apply Hyes.
  - eapply sim_ret; [eapply env_stable, He|exact HI'|]. intros y Hy. by apply Hno.
Qed.

Lemma sim_fetch_and {B} Q (k : prog machine B) kp x :
  I x -> signaller_holds r (mem x.1) -> (forall x, I x -> sim abs R G k kp Q x) ->
  sim abs R G (_ ← update_as b Release (state_at r) (fun st => Z.ldiff st Notify.WAKING); k)
    (_ ← Notify.fetch_and_not sr Notify.WAKING; kp) Q x.
Proof.
  intros Hi Hh Hk. apply (sim_slot b (signaller_holds r) I R G He (fun x => I x /\ signaller_holds r (mem x.1)));
    [by eapply env_held_stable|done|by intros ? []|].
  intros s g [HI Hhs] Hw Hok. exists (state_of r (mem s)). intros i s1 c Hrun. cbn in Hhs. cbv beta in Hrun. rewrite (sa_slot _ _ _ (Habs _)) in Hrun. cbn zeta in Hrun.
  change (Notify.state (Notify.aw (slot_of r (mem s)))) with (state_of r (mem s)) in Hrun. injection Hrun as <- <-. split; [done|].
  destruct (update_state b Release (fun v => inject (Z.ldiff (project v) Notify.WAKING)) Notify.WAITING s g) as (Hst' & Ha & Hm);
    [done|done| |by right|try state_facts..|].
  { change (project (latest (mem s) (state_at r))) with (state_of r (mem s)). by rewrite Hhs. }
  { intros _. split; [done|]. by apply (so_signaller _ _ _ _ Hok). }
  eexists (mkMachine _ (fired s)), _. split_and!; [done| |exact Hm|].
  - etrans; [exact (Ha _)|]. by rewrite Hhs.
  - intros HI'. by apply Hk.
Qed.

Lemma sim_wake Q x : I x -> (forall x, I x -> Q tt x) -> sim abs R G (wake b r) (Notify.wake sr) Q x.
Proof.
  intros Hi HQ. apply sim_bind, sim_bind, sim_fetch_or; [done|clear x Hi; intros x Hi Hh|clear x Hi; intros v x Hv Hi].
  2: { rewrite (proj2 (Z.eqb_neq _ _) Hv). eapply sim_ret; [eapply env_stable, He|exact Hi|]. clear x Hi. intros x Hi.
       eapply sim_ret; [eapply env_stable, He|exact Hi|done]. }
  rewrite Z.eqb_refl. apply sim_bind. apply (sim_plain b (signaller_holds r) I R G He); [by right| |done|done|].
  { intros i s. cbn zeta. unfold Notify.on_slot. by rewrite (sa_slot _ _ _ (Habs _)). }
  clear x Hi Hh. intros o x Hi Hh. apply sim_fetch_and; [done..|]. clear x Hi Hh. intros x Hi.
  eapply sim_ret; [eapply env_stable, He|exact Hi|]. clear x Hi. intros x Hi. destruct o as [w|].
  - by apply (sim_fire b (signaller_holds r) I R G He).
  - eapply sim_ret; [eapply env_stable, He|exact Hi|done].
Qed.

(** A signaller may see the flag up although the waiter has just lowered it; then
    the swap finds it lowered. The flag is matched by the abstract load when it is
    seen down, and else by the abstract load and swap when it is swapped. *)
Lemma sim_signal_slow Q x : I x -> (forall x, I x -> Q tt x) -> sim abs R G (signal_slow b r) (Notify.signal sr) Q x.
Proof.
  intros Hi HQ s g Hr. assert (I (s, g)) as HI by (eapply stable_rtc; [eapply env_stable, He|exact Hi|exact Hr]).
  destruct (se_inv _ _ _ _ _ He _ HI) as [Hw Hok]. cbn [mem fst] in Hw, Hok.
  set (m' := (update b AcqRel (armed_at r) (fun _ => inject false) (mem s)).1).
  assert (touches b (eq (armed_at r)) (mem s) m') as Ht by by apply update_touches.
  assert (flag_of r m' = false) as Hfl by (unfold flag_of, m'; by rewrite latest_update, project_inject).
  assert (state_of r m' = state_of r (mem s)) as Hst.
  { unfold state_of. rewrite (touches_latest _ _ _ _ _ Ht); [done|]. intros Hx. by apply (di_sa _ Hd). }
  assert (slot_move b (s, g) (mkMachine m' (fired s), g)) as Hm.
  { split; cbn [mem fst]; [eapply touch_slot; [|exact Ht]; right; by right| |done|..].
    - eapply ok_armed; [done|exact Ht|done|]. by rewrite Hfl.
    - intros _. unfold waiter_holds. by rewrite Hst.
    - intros _. unfold signaller_holds. by rewrite Hst. }
  destruct (se_guar _ _ _ _ _ He _ _ HI Hm) as [HG HI'].
  assert (forall i, abs i (mkMachine m' (fired s)) = Notify.on_slot sr (Notify.set_armed false) (abs i s)) as Ha.
  { intros i. rewrite (abs_touch _ b) by (eapply touch_slot; [|exact Ht]; right; by right). unfold Notify.on_slot.
    by rewrite (slot_armed _ _ _ _ Hd Ht), Hfl, (sa_slot _ _ _ (Habs _)). }
  assert (forall i, Notify.armed (Notify.get_slot _ sr (abs i s)) = flag_of r (mem s)) as Hflag.
  { intros i. by rewrite (sa_slot _ _ _ (Habs _)). }
  destruct (flag_of r (mem s)) eqn:Hf.
  - exists 2, id. intros _. eexists (mkMachine m' (fired s)), true, g, _. split_and!; [| |exact HG|by apply sim_wake].
    + unfold flag_of in Hf. change (latest (mem s) (armed_at r)) with (val (newest_message (mem s) (armed_at r))) in Hf.
      by rewrite <-Hf at 1.
    + intros i. cbn. rewrite Hflag. cbn. by rewrite Ha, Hflag.
  - exists 1, id. intros _. exists (mkMachine m' (fired s)), false, g, (Ret tt). split_and!; [| |exact HG|].
    + unfold flag_of in Hf. change (latest (mem s) (armed_at r)) with (val (newest_message (mem s) (armed_at r))) in Hf.
      by rewrite <-Hf at 1.
    + intros i. cbn. rewrite Hflag. cbn. do 2 f_equal. rewrite Ha. unfold Notify.on_slot.
      rewrite <-(sa_put _ _ _ (Habs i) (abs i s)) at 1. specialize (Hflag i). f_equal.
      destruct (Notify.get_slot _ sr (abs i s)). cbn in *. by subst.
    + eapply sim_ret; [eapply env_stable, He|exact HI'|done].
Qed.

Lemma sim_signal Q x : I x -> (forall x, I x -> Q tt x) -> sim abs R G (signal b r) (Notify.signal sr) Q x.
Proof.
  intros Hi HQ s g Hr. assert (I (s, g)) as HI by (eapply stable_rtc; [eapply env_stable, He|exact Hi|exact Hr]).
  destruct (se_inv _ _ _ _ _ He _ HI) as [Hw Hok]. cbn [mem fst] in Hw, Hok.
  set (m' := (load b SeqCst (armed_at r) (mem s)).1). set (v := project (A := bool) (load b SeqCst (armed_at r) (mem s)).2).
  assert (touches b (fun _ => False) (mem s) m') as Ht by by apply load_touches.
  assert (slot_move b (s, g) (mkMachine m' (fired s), g)) as Hm.
  { split; cbn [mem fst]; [eapply touches_weaken; [|exact Ht]; done|by eapply ok_quiet|done|done|done]. }
  destruct (se_guar _ _ _ _ _ He _ _ HI Hm) as [HG HI'].
  assert (forall i, abs i (mkMachine m' (fired s)) = abs i s) as Ha by (intros i; by apply abs_same).
  destruct v eqn:Hv.
  - exists 0, id. intros _. exists (mkMachine m' (fired s)), true, g, (Notify.signal sr). split_and!; [by rewrite <-Hv| |exact HG|].
    + intros i. cbn. by rewrite Ha.
    + by apply sim_signal_slow.
  - assert (flag_of r (mem s) = false) as Hf.
    { destruct (flag_of r (mem s)) eqn:Hf; [|done]. pose proof (so_armed _ _ _ _ Hok Hf) as Hsc.
      unfold v in Hv. rewrite load_newest in Hv by done. cbn [snd] in Hv. unfold flag_of in Hf. congruence. }
    exists 1, id. intros _. exists (mkMachine m' (fired s)), false, g, (Ret tt). split_and!; [by rewrite <-Hv| |exact HG|].
    + intros i. cbn. rewrite (sa_slot _ _ _ (Habs _)). change (Notify.armed (slot_of r (mem s))) with (flag_of r (mem s)).
      by rewrite Hf, Ha.
    + eapply sim_ret; [eapply env_stable, He|exact HI'|done].
Qed.
End signaller.
End refinement.
End weak.
End WeakNotify.
