(* ===== verification/WeakRing.v ===== *)
(** * [RingBuf] with its memory orderings ([src/site_d/ringbuf.rs])

    [Module WeakRing]: the operations of [RingBuffer.v] over the memory of
    [WeakMemory.v]. The instance [ordered] of [Ring.Accesses] performs each access
    with the ordering of the source, the slots with those of [WeakNotify.v], and
    the elements with plain accesses that must not race. Two threads that use the
    buffer, counts aside, refine the sequentially consistent threads, for every
    choice of what loads return; so what [RingBuffer.v] proves of those holds for
    these. *)
From stdpp Require Import base list gmap numbers relations functions strings.
From S2P Require Import Prelude WaitList Concurrency Notify RingBuffer Simulation WeakMemory WeakNotify.

Module WeakRing.
Import Weak WeakNotify.

(** The locations of the shared state; a slot is the producer's or the consumer's. *)
Inductive slot_part : Type := State | Cell | Flag.
Inductive location : Type :=
| WriteIndex
| ReadIndex
| Data (i : nat)
| Slot (consumer : bool) (p : slot_part).
#[global] Instance slot_part_eq_dec : EqDecision slot_part.
Proof. solve_decision. Defined.
#[global] Instance location_eq_dec : EqDecision location.
Proof. solve_decision. Defined.

Section ring.
Context `{BuildMode} `{Wk : Wakers} {T : Type} (capacity : Z).

Inductive value : Type :=
| Int (z : Z)
| Bool (b : bool)
| Registered (w : option waker)
| Element (v : option T).
#[global] Instance stored_int : Stored value Z :=
  {| inject := Int; project v := match v with Int z => z | _ => 0%Z end;
     project_inject _ := eq_refl |}.
#[global] Instance stored_bool : Stored value bool :=
  {| inject := Bool; project v := match v with Bool b => b | _ => false end;
     project_inject _ := eq_refl |}.
#[global] Instance stored_waker : Stored value (option waker) :=
  {| inject := Registered; project v := match v with Registered w => w | _ => None end;
     project_inject _ := eq_refl |}.
#[global] Instance stored_element : Stored value (option T) :=
  {| inject := Element; project v := match v with Element o => o | _ => None end;
     project_inject _ := eq_refl |}.

Abbreviation machine := (machine (L := location) (V := value)).
Abbreviation memory := (memory (L := location) (V := value)).
Abbreviation N := (Z.to_nat capacity).

Definition producer_slot : Locations location := mkLocations _ (Slot false State) (Slot false Cell) (Slot false Flag).
Definition consumer_slot : Locations location := mkLocations _ (Slot true State) (Slot true Cell) (Slot true Flag).

(** [RingBuf::new], before the halves are handed to their threads. *)
Definition initial (l : location) : value :=
  match l with
  | WriteIndex | ReadIndex => Int 0
  | Data _ => Element None
  | Slot _ State => Int Notify.WAITING
  | Slot _ Cell => Registered None
  | Slot _ Flag => Bool false
  end.
Definition start (choices : list nat) : machine := mkMachine (fresh initial choices) (fun _ => []).

(** ** Accesses of thread [t] *)
Section accesses.
Context (t : nat).

Fixpoint write_from (i : nat) (vs : list T) (m : memory) : outcome memory :=
  match vs with
  | [] => Done m
  | v :: vs => '(m, _) ← plain t (Data i) (fun _ => (inject (Some v), tt)) m; write_from (S i) vs m
  end.

Fixpoint read_from (i n : nat) (m : memory) : outcome (memory * list T) :=
  match n with
  | 0 => Done (m, [])
  | S n =>
      '(m, o) ← plain t (Data i) (fun x => (x, project (A := option T) x)) m;
      match o with
      | Some v => '(m, vs) ← read_from (S i) n m; Done (m, v :: vs)
      | None => Undefined
      end
  end.

(** Bulk copies; past the end of the storage they are undefined. *)
Definition write_data (i : Z) (vs : list T) : prog machine unit :=
  act (fun s =>
    if (i + Z.of_nat (length vs) <=? capacity)%Z
    then m ← write_from (Z.to_nat i) vs (mem s); Done (mkMachine m (fired s), tt)
    else Undefined).
Definition read_data (i : Z) (n : nat) : prog machine (list T) :=
  act (fun s =>
    if (i + Z.of_nat n <=? capacity)%Z
    then '(m, vs) ← read_from (Z.to_nat i) n (mem s); Done (mkMachine m (fired s), vs)
    else Undefined).

Definition ordered : Ring.Accesses (T := T) machine := {|
  Ring.write_slots := write_data;
  Ring.read_slots := read_data;
  Ring.load_write_index := load_as Z t SeqCst WriteIndex;
  Ring.load_read_index := load_as Z t SeqCst ReadIndex;
  Ring.count_write_index := load_as Z t Acquire WriteIndex;
  Ring.count_read_index := load_as Z t Acquire ReadIndex;
  Ring.store_write_index i := store_as t SeqCst WriteIndex i;
  Ring.store_read_index i := store_as t SeqCst ReadIndex i;
  Ring.arm_producer := arm t producer_slot;
  Ring.arm_consumer := arm t consumer_slot;
  Ring.disarm_producer := disarm t producer_slot;
  Ring.disarm_consumer := disarm t consumer_slot;
  Ring.signal_producer := signal t producer_slot;
  Ring.signal_consumer := signal t consumer_slot;
  Ring.producer_fired := Concurrency.load (fun s => length (fired s (Slot false State)));
  Ring.consumer_fired := Concurrency.load (fun s => length (fired s (Slot true State)))
|}.
End accesses.

(** The producer is thread 0 and the consumer thread 1. *)
Definition threads (pops : list Ring.producer_op) (cops : list Ring.consumer_op) :
    list (prog machine (list T * option (waker * nat))) :=
  [Ring.producer_thread capacity (H1 := ordered 0) (Ring.split.1) pops ([], None);
   Ring.consumer_thread capacity (H1 := ordered 1) (Ring.split.2) cops ([], None)].

(** ** The state a memory holds *)
Definition element_of (m : memory) (i : nat) : option T := project (latest m (Data i)).
Definition write_of (m : memory) : Z := project (latest m WriteIndex).
Definition read_of (m : memory) : Z := project (latest m ReadIndex).

Definition abs (s : machine) : Ring.RingBufferShared (T := T) :=
  Ring.mkRing (element_of (mem s) <$> seq 0 N) (write_of (mem s)) (read_of (mem s))
    (slot_of producer_slot (mem s)) (slot_of consumer_slot (mem s))
    (fired s (Slot false State)) (fired s (Slot true State)).

(** ** Views

    How far both sides are: elements published, and written beyond those; elements
    whose slots were given back, and read beyond those. *)
Record positions : Type := mkPos { written : nat; staged : nat; consumed : nat; taken : nat }.

Context (e : nat) (He : e <= 62) (Hcap : capacity = (2 ^ Z.of_nat e)%Z).

Definition cov (v : location -> nat) (m : memory) (j : nat) : Prop := covers v m (Data (j mod N)).

(** Each side has seen all accesses to the slots that are its own, and so has
    whoever reads the index that hands them over. *)
Record views_ok (m : memory) (g : positions) : Prop := {
  vo_write : write_of m = wrap (Z.of_nat (written g));
  vo_read : read_of m = wrap (Z.of_nat (consumed g));
  vo_write_sc : last_sc m WriteIndex = newest m WriteIndex;
  vo_read_sc : last_sc m ReadIndex = newest m ReadIndex;
  vo_taken : consumed g + taken g <= written g;
  vo_staged : written g + staged g <= consumed g + N;
  vo_producer j : consumed g + taken g <= j < written g + staged g -> cov (seen m 0) m j;
  vo_consumer j : written g + staged g <= j < consumed g + taken g + N -> cov (seen m 1) m j;
  vo_published j : consumed g + taken g <= j < written g -> cov (published (newest_message m WriteIndex)) m j;
  vo_returned j : written g + staged g <= j < consumed g + N -> cov (published (newest_message m ReadIndex)) m j
}.

Definition is_slot (l : location) : Prop := match l with Slot _ _ => True | _ => False end.

Lemma cov_frame t X m m' v j : touches t X m m' -> (forall i, ~ X (Data i)) -> cov v m j -> cov v m' j.
Proof. intros Ht HX. apply covers_same. by eapply to_newest. Qed.

Lemma cov_seen t X m m' t' j : touches t X m m' -> (forall i, ~ X (Data i)) -> cov (seen m t') m j -> cov (seen m' t') m' j.
Proof. intros Ht HX. by eapply covers_seen. Qed.

Lemma views_frame t X m m' g : touches t X m m' -> (forall l, X l -> is_slot l) -> views_ok m g -> views_ok m' g.
Proof.
  intros Ht HX [Hw Hr Hws Hrs Hta Hst Hp Hc Hpu Hre].
  assert (forall i, ~ X (Data i)) as HD by (intros i Hx; by apply HX in Hx).
  assert (~ X WriteIndex) as HW by (intros Hx; by apply HX in Hx).
  assert (~ X ReadIndex) as HR by (intros Hx; by apply HX in Hx).
  split; [..|done|done| | | |].
  - unfold write_of. by rewrite (touches_latest _ _ _ _ _ Ht).
  - unfold read_of. by rewrite (touches_latest _ _ _ _ _ Ht).
  - by rewrite (to_sc _ _ _ _ Ht), (to_newest _ _ _ _ Ht).
  - by rewrite (to_sc _ _ _ _ Ht), (to_newest _ _ _ _ Ht).
  - intros j Hj. eapply cov_seen; eauto.
  - intros j Hj. eapply cov_seen; eauto.
  - intros j Hj. rewrite (to_message _ _ _ _ _ Ht) by done. eapply cov_frame; eauto.
  - intros j Hj. rewrite (to_message _ _ _ _ _ Ht) by done. eapply cov_frame; eauto.
Qed.

Lemma slot_ne i j : i <> j -> i < j + N -> j < i + N -> Data (i mod N) <> Data (j mod N).
Proof.
  intros Hne Hi Hj Heq. injection Heq as Heq. destruct (decide (i < j)) as [Hlt|Hge].
  - by apply (Ring.lap_ne capacity e He Hcap i j).
  - apply (Ring.lap_ne capacity e He Hcap j i); [lia..|done].
Qed.

(** A position other than [k], less than a lap away, after an access to [k]. *)
Lemma cov_other t v m m' j k : touches t (eq (Data (k mod N))) m m' -> j <> k -> j < k + N -> k < j + N ->
  cov v m j -> cov v m' j.
Proof. intros Ht Hne Hj Hk. apply covers_same. eapply to_newest; [exact Ht|]. by apply slot_ne. Qed.

Lemma cov_seen_other t m m' t' j k : touches t (eq (Data (k mod N))) m m' -> j <> k -> j < k + N -> k < j + N ->
  cov (seen m t') m j -> cov (seen m' t') m' j.
Proof. intros Ht Hne Hj Hk. eapply covers_seen; [exact Ht|]. by apply slot_ne. Qed.

Lemma views_write m m' g :
  let k := written g + staged g in
  touches 0 (eq (Data (k mod N))) m m' -> covers (seen m' 0) m' (Data (k mod N)) -> k < consumed g + N ->
  views_ok m g -> views_ok m' (mkPos (written g) (S (staged g)) (consumed g) (taken g)).
Proof.
  intros k Ht Hk Hlt [Hw Hr Hws Hrs Hta Hst Hp Hc Hpu Hre]. split; cbn [written staged consumed taken].
  - unfold write_of. by rewrite (touches_latest _ _ _ _ _ Ht).
  - unfold read_of. by rewrite (touches_latest _ _ _ _ _ Ht).
  - by rewrite (to_sc _ _ _ _ Ht), (to_newest _ _ _ _ Ht).
  - by rewrite (to_sc _ _ _ _ Ht), (to_newest _ _ _ _ Ht).
  - done.
  - lia.
  - intros j Hj. destruct (decide (j = k)) as [->|Hne]; [done|].
    eapply cov_seen_other; [exact Ht|done|lia..|apply Hp; lia].
  - intros j Hj. eapply cov_seen_other; [exact Ht|lia..|apply Hc; lia].
  - intros j Hj. rewrite (to_message _ _ _ _ _ Ht) by done. eapply cov_other; [exact Ht|lia..|apply Hpu; lia].
  - intros j Hj. rewrite (to_message _ _ _ _ _ Ht) by done. eapply cov_other; [exact Ht|lia..|apply Hre; lia].
Qed.

Lemma views_read m m' g :
  let k := consumed g + taken g in
  touches 1 (eq (Data (k mod N))) m m' -> covers (seen m' 1) m' (Data (k mod N)) -> k < written g ->
  views_ok m g -> views_ok m' (mkPos (written g) (staged g) (consumed g) (S (taken g))).
Proof.
  intros k Ht Hk Hlt [Hw Hr Hws Hrs Hta Hst Hp Hc Hpu Hre]. split; cbn [written staged consumed taken].
  - unfold write_of. by rewrite (touches_latest _ _ _ _ _ Ht).
  - unfold read_of. by rewrite (touches_latest _ _ _ _ _ Ht).
  - by rewrite (to_sc _ _ _ _ Ht), (to_newest _ _ _ _ Ht).
  - by rewrite (to_sc _ _ _ _ Ht), (to_newest _ _ _ _ Ht).
  - lia.
  - done.
  - intros j Hj. eapply cov_seen_other; [exact Ht|lia..|apply Hp; lia].
  - intros j Hj. destruct (decide (j = k + N)) as [->|Hne].
    + unfold cov. replace ((k + N) mod N) with (k mod N); [done|].
      rewrite Nat.Div0.add_mod, Nat.Div0.mod_same, Nat.add_0_r. by rewrite Nat.Div0.mod_mod.
    + eapply cov_seen_other; [exact Ht|lia..|apply Hc; lia].
  - intros j Hj. rewrite (to_message _ _ _ _ _ Ht) by done. eapply cov_other; [exact Ht|lia..|apply Hpu; lia].
  - intros j Hj. rewrite (to_message _ _ _ _ _ Ht) by done. eapply cov_other; [exact Ht|lia..|apply Hre; lia].
Qed.

Lemma views_publish m g :
  wf m -> views_ok m g -> let w := written g + staged g in
  views_ok (store 0 SeqCst WriteIndex (inject (wrap (Z.of_nat w))) m) (mkPos w 0 (consumed g) (taken g)).
Proof.
  intros Hwf [Hw Hr Hws Hrs Hta Hst Hp Hc Hpu Hre] w. set (m' := store _ _ _ _ _).
  assert (touches 0 (eq WriteIndex) m m') as Ht by (apply append_touches; [done|apply nothing_le]).
  split; cbn [written staged consumed taken].
  - unfold write_of, m'. by rewrite latest_store, project_inject.
  - unfold read_of. by rewrite (touches_latest _ _ _ _ _ Ht).
  - apply sc_append.
  - by rewrite (to_sc _ _ _ _ Ht), (to_newest _ _ _ _ Ht).
  - lia.
  - lia.
  - intros j Hj. eapply cov_seen; [exact Ht|done|apply Hp; lia].
  - intros j Hj. eapply cov_seen; [exact Ht|done|apply Hc; lia].
  - intros j Hj. eapply cov_frame; [exact Ht|done|]. eapply covers_le; [by apply published_append|]. apply Hp. lia.
  - intros j Hj. rewrite (to_message _ _ _ _ _ Ht) by done. eapply cov_frame; [exact Ht|done|apply Hre; lia].
Qed.

Lemma views_return m g :
  wf m -> views_ok m g -> let r := consumed g + taken g in
  views_ok (store 1 SeqCst ReadIndex (inject (wrap (Z.of_nat r))) m) (mkPos (written g) (staged g) r 0).
Proof.
  intros Hwf [Hw Hr Hws Hrs Hta Hst Hp Hc Hpu Hre] r. set (m' := store _ _ _ _ _).
  assert (touches 1 (eq ReadIndex) m m') as Ht by (apply append_touches; [done|apply nothing_le]).
  split; cbn [written staged consumed taken].
  - unfold write_of. by rewrite (touches_latest _ _ _ _ _ Ht).
  - unfold read_of, m'. by rewrite latest_store, project_inject.
  - by rewrite (to_sc _ _ _ _ Ht), (to_newest _ _ _ _ Ht).
  - apply sc_append.
  - lia.
  - lia.
  - intros j Hj. eapply cov_seen; [exact Ht|done|apply Hp; lia].
  - intros j Hj. eapply cov_seen; [exact Ht|done|apply Hc; lia].
  - intros j Hj. rewrite (to_message _ _ _ _ _ Ht) by done. eapply cov_frame; [exact Ht|done|apply Hpu; lia].
  - intros j Hj. eapply cov_frame; [exact Ht|done|]. eapply covers_le; [by apply published_append|]. apply Hc. lia.
Qed.

(** ** Invariant and moves *)
Abbreviation config := (machine * positions)%type.

Record vinv (x : config) : Prop := {
  vi_wf : wf (mem x.1);
  vi_views : views_ok (mem x.1) x.2;
  vi_p : slot_ok producer_slot 0 1 (mem x.1);
  vi_c : slot_ok consumer_slot 1 0 (mem x.1)
}.

Record producer_move (x x' : config) : Prop := {
  pm_inv : vinv x';
  pm_consumed : consumed x'.2 = consumed x.2;
  pm_taken : taken x'.2 = taken x.2;
  pm_written : written x.2 <= written x'.2;
  pm_seen : seen (mem x'.1) 1 = seen (mem x.1) 1;
  pm_data j : consumed x.2 + taken x.2 <= j < written x.2 ->
    newest (mem x'.1) (Data (j mod N)) = newest (mem x.1) (Data (j mod N));
  pm_p : signaller_holds producer_slot (mem x.1) -> signaller_holds producer_slot (mem x'.1);
  pm_c : waiter_holds consumer_slot (mem x.1) -> waiter_holds consumer_slot (mem x'.1)
}.
Record consumer_move (x x' : config) : Prop := {
  cm_inv : vinv x';
  cm_written : written x'.2 = written x.2;
  cm_staged : staged x'.2 = staged x.2;
  cm_consumed : consumed x.2 <= consumed x'.2;
  cm_seen : seen (mem x'.1) 0 = seen (mem x.1) 0;
  cm_data j : written x.2 + staged x.2 <= j < consumed x.2 + N ->
    newest (mem x'.1) (Data (j mod N)) = newest (mem x.1) (Data (j mod N));
  cm_p : waiter_holds producer_slot (mem x.1) -> waiter_holds producer_slot (mem x'.1);
  cm_c : signaller_holds consumer_slot (mem x.1) -> signaller_holds consumer_slot (mem x'.1)
}.

Definition guar (i : nat) (x x' : config) : Prop :=
  match i with
  | 0 => vinv x -> producer_move x x'
  | 1 => vinv x -> consumer_move x x'
  | _ => False
  end.
Definition rely (i : nat) (x x' : config) : Prop :=
  match i with 0 => guar 1 x x' | 1 => guar 0 x x' | _ => True end.

Lemma weak_guar_rely i j x x' : i <> j -> guar i x x' -> rely j x x'.
Proof. destruct i as [|[|i]], j as [|[|j]]; simpl; try done; lia. Qed.

Lemma p_distinct : distinct producer_slot.
Proof. by split. Qed.

Lemma c_distinct : distinct consumer_slot.
Proof. by split. Qed.

Lemma p_slots l : of_slot producer_slot l -> is_slot l /\ ~ of_slot consumer_slot l.
Proof. intros [->|[->| ->]]; (split; [done|by intros [?|[?|?]]]). Qed.

Lemma c_slots l : of_slot consumer_slot l -> is_slot l /\ ~ of_slot producer_slot l.
Proof. intros [->|[->| ->]]; (split; [done|by intros [?|[?|?]]]). Qed.

Lemma p_abs : SlotAbs abs producer_slot Ring.producer_ref.
Proof.
  split; [done|done| | |by intros []].
  - intros s m Hm. unfold abs. cbn. f_equal; [|by unfold write_of; rewrite Hm by by intros [?|[?|?]]|by unfold read_of; rewrite Hm by by intros [?|[?|?]]|].
    + apply list_fmap_ext. intros i j _. unfold element_of. by rewrite Hm by by intros [?|[?|?]].
    + unfold slot_of. by rewrite !Hm by by intros [?|[?|?]].
  - intros s w. unfold abs. cbn. by rewrite fn_lookup_insert, fn_lookup_insert_ne.
Qed.

Lemma c_abs : SlotAbs abs consumer_slot Ring.consumer_ref.
Proof.
  split; [done|done| | |by intros []].
  - intros s m Hm. unfold abs. cbn. f_equal; [|by unfold write_of; rewrite Hm by by intros [?|[?|?]]|by unfold read_of; rewrite Hm by by intros [?|[?|?]]|].
    + apply list_fmap_ext. intros i j _. unfold element_of. by rewrite Hm by by intros [?|[?|?]].
    + unfold slot_of. by rewrite !Hm by by intros [?|[?|?]].
  - intros s w. unfold abs. cbn. by rewrite fn_lookup_insert, fn_lookup_insert_ne.
Qed.

(** A move on a slot changes nothing else. *)
Lemma slot_only t r (m m' : memory) : touches t (of_slot r) m m' -> (forall l, of_slot r l -> is_slot l) ->
  forall i, newest m' (Data i) = newest m (Data i).
Proof. intros Ht Hr i. eapply to_newest; [exact Ht|]. by intros Hx%Hr. Qed.

Lemma vinv_p_move t x x' : slot_move producer_slot 0 1 t x x' -> vinv x -> vinv x'.
Proof.
  intros [Ht Hok Hg _ _] [Hw Hv Hp Hc]. split; [by apply Ht| |done|].
  - rewrite Hg. eapply views_frame; [exact Ht|by intros l []%p_slots|done].
  - eapply ok_frame; [exact Ht|by intros l []%p_slots|done].
Qed.

Lemma vinv_c_move t x x' : slot_move consumer_slot 1 0 t x x' -> vinv x -> vinv x'.
Proof.
  intros [Ht Hok Hg _ _] [Hw Hv Hp Hc]. split; [by apply Ht| | |done].
  - rewrite Hg. eapply views_frame; [exact Ht|by intros l []%c_slots|done].
  - eapply ok_frame; [exact Ht|by intros l []%c_slots|done].
Qed.

(** An access that leaves a slot alone leaves its state. *)
Lemma held_frame t X (r : Locations location) (m m' : memory) : touches t X m m' -> ~ X (state_at r) -> state_of r m' = state_of r m.
Proof. intros Ht HX. unfold state_of. by rewrite (touches_latest _ _ _ _ _ Ht). Qed.

(** ** What a thread knows

    The producer: with [w] elements published and [n] more written, it has seen
    [r] slots given back, and all accesses to the free ones among them. *)
Record producing (p : Ring.Producer) (w r n : nat) (x : config) : Prop := {
  pr_inv : vinv x;
  pr_written : written x.2 = w;
  pr_staged : staged x.2 = n;
  pr_cached_read : Ring.p_cached_read p = wrap (Z.of_nat r);
  pr_r : r <= consumed x.2;
  pr_room : w + n <= r + N;
  pr_free j : w + n <= j < r + N -> cov (seen (mem x.1) 0) (mem x.1) j
}.

(** The consumer: with [r] slots given back and [n] more elements read, it has
    seen [w] elements published, and all accesses to the slots of the rest. *)
Record consuming (c : Ring.Consumer) (r w n : nat) (x : config) : Prop := {
  co_inv : vinv x;
  co_consumed : consumed x.2 = r;
  co_taken : taken x.2 = n;
  co_cached_write : Ring.c_cached_write c = wrap (Z.of_nat w);
  co_w : w <= written x.2;
  co_left : r + n <= w;
  co_full j : r + n <= j < w -> cov (seen (mem x.1) 1) (mem x.1) j
}.

Lemma weak_producing_stable p w r n : stable (rely 0) (producing p w r n).
Proof.
  intros x x' [Hi Hw Hn Hc Hr Hroom Hf] Hm. simpl in Hm. destruct (Hm Hi) as [Hi' Hw' Hs' Hg' Hse' Hd' _ _].
  split; [done|congruence|congruence|done|lia|done|].
  intros j Hj. rewrite Hse'. eapply covers_same; [|by apply Hf]. apply Hd'. lia.
Qed.

Lemma weak_consuming_stable c r w n : stable (rely 1) (consuming c r w n).
Proof.
  intros x x' [Hi Hr Hn Hc Hw Hleft Hf] Hm. simpl in Hm. destruct (Hm Hi) as [Hi' Hr' Ht' Hw' Hse' Hd' _ _].
  split; [done|congruence|congruence|done|lia|done|].
  intros j Hj. rewrite Hse'. eapply covers_same; [|by apply Hf]. apply Hd'. lia.
Qed.

(** Either side may use either slot in its role. *)
Lemma producing_frame p w r n x x' X : producing p w r n x -> vinv x' -> touches 0 X (mem x.1) (mem x'.1) ->
  (forall l, X l -> is_slot l) -> x'.2 = x.2 -> producing p w r n x'.
Proof.
  intros [Hi Hw Hn Hc Hr Hroom Hf] Hi' Ht HX Hg. split; rewrite ?Hg; [done..|].
  intros j Hj. eapply cov_seen; [exact Ht|by intros i Hx%HX|by apply Hf].
Qed.

Lemma consuming_frame c r w n x x' X : consuming c r w n x -> vinv x' -> touches 1 X (mem x.1) (mem x'.1) ->
  (forall l, X l -> is_slot l) -> x'.2 = x.2 -> consuming c r w n x'.
Proof.
  intros [Hi Hr Hn Hc Hw Hleft Hf] Hi' Ht HX Hg. split; rewrite ?Hg; [done..|].
  intros j Hj. eapply cov_seen; [exact Ht|by intros i Hx%HX|by apply Hf].
Qed.

Lemma p_env_producer p w r n :
  SlotEnv producer_slot 0 1 0 (waiter_holds producer_slot) (producing p w r n) (rely 0) (guar 0).
Proof.
  split.
  - intros x Hp. pose proof (pr_inv _ _ _ _ _ Hp) as Hi. split; apply Hi.
  - intros x x' Hp Hm. split; [by eapply weak_producing_stable|]. simpl in Hm. by apply (cm_p _ _ (Hm (pr_inv _ _ _ _ _ Hp))).
  - intros x x' Hp Hm. pose proof (vinv_p_move _ _ _ Hm (pr_inv _ _ _ _ _ Hp)) as Hi'.
    pose proof Hm as [Ht Hok Hg _ Hsig]. split.
    + intros _. split; rewrite ?Hg; [done..|lia|by apply (to_others _ _ _ _ Ht)| |by apply Hsig|].
      * intros j _. eapply slot_only; [exact Ht|by intros l []%p_slots].
      * unfold waiter_holds. rewrite (held_frame _ _ consumer_slot _ _ Ht); [done|]. by intros [?|[?|?]].
    + eapply producing_frame; [done|done|exact Ht|by intros l []%p_slots|done].
Qed.

Lemma c_env_producer p w r n :
  SlotEnv consumer_slot 1 0 0 (signaller_holds consumer_slot) (producing p w r n) (rely 0) (guar 0).
Proof.
  split.
  - intros x Hp. pose proof (pr_inv _ _ _ _ _ Hp) as Hi. split; apply Hi.
  - intros x x' Hp Hm. split; [by eapply weak_producing_stable|]. simpl in Hm. by apply (cm_c _ _ (Hm (pr_inv _ _ _ _ _ Hp))).
  - intros x x' Hp Hm. pose proof (vinv_c_move _ _ _ Hm (pr_inv _ _ _ _ _ Hp)) as Hi'.
    pose proof Hm as [Ht Hok Hg Hwait _]. split.
    + intros _. split; rewrite ?Hg; [done..|lia|by apply (to_others _ _ _ _ Ht)| | |by apply Hwait].
      * intros j _. eapply slot_only; [exact Ht|by intros l []%c_slots].
      * unfold signaller_holds. rewrite (held_frame _ _ producer_slot _ _ Ht); [done|]. by intros [?|[?|?]].
    + eapply producing_frame; [done|done|exact Ht|by intros l []%c_slots|done].
Qed.

Lemma c_env_consumer c r w n :
  SlotEnv consumer_slot 1 0 1 (waiter_holds consumer_slot) (consuming c r w n) (rely 1) (guar 1).
Proof.
  split.
  - intros x Hp. pose proof (co_inv _ _ _ _ _ Hp) as Hi. split; apply Hi.
  - intros x x' Hp Hm. split; [by eapply weak_consuming_stable|]. simpl in Hm. by apply (pm_c _ _ (Hm (co_inv _ _ _ _ _ Hp))).
  - intros x x' Hp Hm. pose proof (vinv_c_move _ _ _ Hm (co_inv _ _ _ _ _ Hp)) as Hi'.
    pose proof Hm as [Ht Hok Hg _ Hsig]. split.
    + intros _. split; rewrite ?Hg; [done..|by apply (to_others _ _ _ _ Ht)| | |by apply Hsig].
      * intros j _. eapply slot_only; [exact Ht|by intros l []%c_slots].
      * unfold waiter_holds. rewrite (held_frame _ _ producer_slot _ _ Ht); [done|]. by intros [?|[?|?]].
    + eapply consuming_frame; [done|done|exact Ht|by intros l []%c_slots|done].
Qed.

Lemma p_env_consumer c r w n :
  SlotEnv producer_slot 0 1 1 (signaller_holds producer_slot) (consuming c r w n) (rely 1) (guar 1).
Proof.
  split.
  - intros x Hp. pose proof (co_inv _ _ _ _ _ Hp) as Hi. split; apply Hi.
  - intros x x' Hp Hm. split; [by eapply weak_consuming_stable|]. simpl in Hm. by apply (pm_p _ _ (Hm (co_inv _ _ _ _ _ Hp))).
  - intros x x' Hp Hm. pose proof (vinv_p_move _ _ _ Hm (co_inv _ _ _ _ _ Hp)) as Hi'.
    pose proof Hm as [Ht Hok Hg Hwait _]. split.
    + intros _. split; rewrite ?Hg; [done..|by apply (to_others _ _ _ _ Ht)| |by apply Hwait|].
      * intros j _. eapply slot_only; [exact Ht|by intros l []%p_slots].
      * unfold signaller_holds. rewrite (held_frame _ _ consumer_slot _ _ Ht); [done|]. by intros [?|[?|?]].
    + eapply consuming_frame; [done|done|exact Ht|by intros l []%p_slots|done].
Qed.

(** ** Accesses of the producer *)
Abbreviation psim := (sim_exact abs (rely 0) (guar 0)).
Abbreviation csim := (sim_exact abs (rely 1) (guar 1)).

Lemma vinv_quiet t s m g : touches t (fun _ => False) (mem s) m -> vinv (s, g) -> vinv (mkMachine m (fired s), g).
Proof.
  intros Ht [Hw Hv Hp Hc]. split; cbn [mem fst snd] in *; [by apply Ht|by eapply views_frame|by eapply ok_quiet|by eapply ok_quiet].
Qed.

Lemma abs_quiet t s m : touches t (fun _ => False) (mem s) m -> abs (mkMachine m (fired s)) = abs s.
Proof.
  intros Ht. assert (forall l, latest m l = latest (mem s) l) as Hl by (intros l; eapply touches_latest; [exact Ht|tauto]).
  unfold abs, slot_of, write_of, read_of. cbn. rewrite !Hl. f_equal. apply list_fmap_ext. intros i j _. unfold element_of. by rewrite Hl.
Qed.

Lemma sim_load_read p w r Q x :
  producing p w r 0 x ->
  (forall r' y, producing (Ring.mkProducer (wrap (Z.of_nat r')) (Ring.p_cached_write p)) w r' 0 y -> r <= r' ->
    Q (wrap (Z.of_nat r')) y) ->
  psim (load_as Z 0 SeqCst ReadIndex) (Concurrency.load Ring.read_index) Q x.
Proof.
  intros Hx HQ. apply (sim_exact_act abs _ _ _ _ _ _ (producing p w r 0)); [apply weak_producing_stable|done|].
  intros s g s1 c Hp [= <- <-]. pose proof Hp as [Hi Hw Hn Hc Hr Hroom Hf]. cbn [fst snd] in *.
  pose proof (vi_wf _ Hi) as Hwf. pose proof (vi_views _ Hi) as Hv. cbn [mem fst snd] in *.
  assert (touches 0 (fun _ => False) (mem s) (load 0 SeqCst ReadIndex (mem s)).1) as Ht by by apply load_touches.
  pose proof (load_newest 0 ReadIndex (mem s) Hwf (vo_read_sc _ _ Hv)) as Hl. rewrite Hl in Ht. cbn [fst] in Ht.
  eexists _, _, g. split_and!; [by rewrite Hl|by eapply abs_quiet| |].
  - intros _. pose proof (vinv_quiet _ _ _ _ Ht Hi) as Hi'. by split.
  - change (project (latest (mem s) ReadIndex)) with (read_of (mem s)). cbn [Ring.read_index abs].
    rewrite (vo_read _ _ Hv). eapply sim_ret; [apply weak_producing_stable| |intros y Hy; by apply (HQ _ y Hy)].
    split; cbn [fst snd Ring.p_cached_read]; [by apply (vinv_quiet _ _ _ _ Ht)|done..| |].
    + pose proof (vo_staged _ _ Hv). lia.
    + intros j Hj. eapply covers_le; [|eapply cov_frame; [exact Ht|tauto|apply (vo_returned _ _ Hv); lia]].
      cbn [mem]. unfold drop_choice. cbn [seen]. rewrite seen_observe. apply join_r.
Qed.

(** Writing to one location of the storage changes one element. *)
Lemma elements_append t o i v inh m : i < N ->
  element_of (append t o (Data i) inh (inject v) m) <$> seq 0 N = <[i := v]> (element_of m <$> seq 0 N).
Proof.
  intros Hi. apply list_eq. intros j. rewrite list_lookup_insert, !list_lookup_fmap, length_fmap, length_seq.
  destruct (decide (j < N)) as [Hj|Hj].
  - rewrite !lookup_seq_lt by done. cbn [fmap option_fmap option_map]. case_decide as Hd.
    + destruct Hd as [-> _]. unfold element_of. by rewrite latest_append, project_inject.
    + unfold element_of, latest, newest_message. cbn. rewrite !fn_lookup_insert_ne by (intros [=]; lia). done.
  - rewrite !lookup_seq_ge by lia. rewrite decide_False by lia. done.
Qed.

Definition next_positions (g : positions) (n : nat) : positions := mkPos (written g) (staged g + n) (consumed g) (taken g).

(** Locations of [n] consecutive positions. *)
Definition slots (k n : nat) (l : location) : Prop := exists q, q < n /\ l = Data ((k + q) mod N).

Lemma write_from_ok vs : forall i m g r,
  let k := written g + staged g in
  wf m -> views_ok m g -> r <= consumed g -> k + length vs <= r + N ->
  (forall j, k <= j < r + N -> cov (seen m 0) m j) ->
  (forall q, q < length vs -> (k + q) mod N = i + q /\ i + q < N) ->
  exists m', write_from 0 i vs m = Done m' /\ views_ok m' (next_positions g (length vs)) /\
    (forall j, k + length vs <= j < r + N -> cov (seen m' 0) m' j) /\
    touches 0 (slots k (length vs)) m m' /\
    element_of m' <$> seq 0 N = list_inserts i (Some <$> vs) (element_of m <$> seq 0 N).
Proof.
  induction vs as [|v vs IH]; intros i m g r k Hwf Hv Hr Hroom Hfree Hidx; cbn [length] in *.
  { exists m. split_and!; [done| |intros j Hj; apply Hfree; lia|by apply touches_refl|done].
    unfold next_positions. rewrite Nat.add_0_r. by destruct g. }
  destruct (Hidx 0) as [Hk Hi]; [lia|]. rewrite !Nat.add_0_r in Hk.
  assert (covers (seen m 0) m (Data i)) as Hcov by (rewrite <-Hk; apply Hfree; lia).
  set (m1 := append 0 Relaxed (Data i) nothing (inject (Some v)) m).
  assert (touches 0 (eq (Data (k mod N))) m m1) as Ht by (rewrite Hk; apply append_touches; [done|apply nothing_le]).
  set (g1 := mkPos (written g) (S (staged g)) (consumed g) (taken g)).
  assert (views_ok m1 g1) as Hv1.
  { apply (views_write m); [exact Ht| |fold k; lia|done]. fold k. rewrite Hk. apply covers_own. }
  destruct (IH (S i) m1 g1 r) as (m' & Hrun & Hv' & Hf' & Ht' & Hel); cbn [g1 written staged consumed].
  - apply Ht.
  - done.
  - done.
  - lia.
  - intros j Hj. pose proof (vo_taken _ _ Hv). eapply cov_seen_other; [exact Ht|unfold k in *; lia..|apply Hfree; unfold k; lia].
  - intros q Hq. destruct (Hidx (S q)) as [Hq1 Hq2]; [lia|].
    replace (written g + S (staged g) + q) with (k + S q) by lia. split; lia.
  - cbn [g1 written staged consumed] in *. exists m'. split_and!.
    + cbn [write_from]. rewrite plain_done by done. cbn [fst snd]. outcome_simpl. exact Hrun.
    + unfold next_positions in *. cbn [g1 written staged consumed taken] in Hv'.
      by replace (staged g + S (length vs)) with (S (staged g) + length vs) by lia.
    + intros j Hj. apply Hf'. lia.
    + eapply touches_trans.
      * eapply touches_weaken; [|exact Ht]. intros l <-. exists 0. split; [lia|by rewrite Nat.add_0_r].
      * eapply touches_weaken; [|exact Ht']. intros l (q & Hq & ->). exists (S q). split; [lia|]. do 2 f_equal. lia.
    + rewrite Hel. unfold m1. rewrite elements_append by lia. cbn [fmap list_fmap]. cbn [list_inserts].
      by rewrite list_insert_inserts_lt by lia.
Qed.

(** Reading back what is there. *)
Lemma elements_same (m m' : memory) : (forall l, latest m' l = latest m l) ->
  element_of m' <$> seq 0 N = element_of m <$> seq 0 N.
Proof. intros Hl. apply list_fmap_ext. intros i j _. unfold element_of. by rewrite Hl. Qed.

Lemma elements_drop m i : i < N ->
  drop i (element_of m <$> seq 0 N) = element_of m i :: drop (S i) (element_of m <$> seq 0 N).
Proof. intros Hi. apply drop_S. rewrite list_lookup_fmap, lookup_seq_lt by done. done. Qed.

Lemma read_from_ok n : forall i m g w vs,
  let k := consumed g + taken g in
  wf m -> views_ok m g -> w <= written g -> k + n <= w ->
  (forall j, k <= j < w -> cov (seen m 1) m j) ->
  (forall q, q < n -> (k + q) mod N = i + q /\ i + q < N) ->
  mapM id (firstn n (drop i (element_of m <$> seq 0 N))) = Some vs ->
  exists m', read_from 1 i n m = Done (m', vs) /\
    views_ok m' (mkPos (written g) (staged g) (consumed g) (taken g + n)) /\
    (forall j, k + n <= j < w -> cov (seen m' 1) m' j) /\
    touches 1 (slots k n) m m' /\ (forall l, latest m' l = latest m l).
Proof.
  induction n as [|n IH]; intros i m g w vs k Hwf Hv Hw Hleft Hfull Hidx Hvs.
  { injection Hvs as <-. exists m. split_and!; [done| |intros j Hj; apply Hfull; lia|by apply touches_refl|done].
    rewrite Nat.add_0_r. by destruct g. }
  destruct (Hidx 0) as [Hk Hi]; [lia|]. rewrite !Nat.add_0_r in Hk.
  rewrite elements_drop in Hvs by lia. cbn [firstn mapM] in Hvs. unfold id at 1 in Hvs.
  destruct (element_of m i) as [v|] eqn:Hel; cbn [mbind option_bind] in Hvs; [|done].
  destruct (mapM id (firstn n (drop (S i) (element_of m <$> seq 0 N)))) as [vs'|] eqn:Hvs'; cbn [mbind option_bind] in Hvs; [|done].
  injection Hvs as <-.
  assert (covers (seen m 1) m (Data i)) as Hcov by (rewrite <-Hk; apply Hfull; lia).
  set (m1 := append 1 Relaxed (Data i) nothing (latest m (Data i)) m).
  assert (touches 1 (eq (Data (k mod N))) m m1) as Ht by (rewrite Hk; apply append_touches; [done|apply nothing_le]).
  set (g1 := mkPos (written g) (staged g) (consumed g) (S (taken g))).
  assert (views_ok m1 g1) as Hv1.
  { apply (views_read m); [exact Ht| |fold k; lia|done]. fold k. rewrite Hk. apply covers_own. }
  assert (forall l, latest m1 l = latest m l) as Hl1 by (intros l; apply latest_reread).
  destruct (IH (S i) m1 g1 w vs') as (m' & Hrun & Hv' & Hf' & Ht' & Hl'); cbn [g1 written staged consumed taken].
  - apply Ht.
  - done.
  - done.
  - lia.
  - intros j Hj. pose proof (vo_staged _ _ Hv). eapply cov_seen_other; [exact Ht|unfold k in *; lia..|apply Hfull; unfold k; lia].
  - intros q Hq. destruct (Hidx (S q)) as [Hq1 Hq2]; [lia|].
    replace (consumed g + S (taken g) + q) with (k + S q) by lia. split; lia.
  - by rewrite (elements_same m m1).
  - cbn [g1 written staged consumed taken] in *. exists m'. split_and!.
    + cbn [read_from]. rewrite plain_done by done. cbn [fst snd]. outcome_simpl.
      change (project (latest m (Data i))) with (element_of m i). rewrite Hel.
      change (append 1 Relaxed (Data i) nothing (latest m (Data i)) m) with m1. rewrite Hrun. done.
    + by replace (taken g + S n) with (S (taken g) + n) by lia.
    + intros j Hj. apply Hf'. lia.
    + eapply touches_trans.
      * eapply touches_weaken; [|exact Ht]. intros l <-. exists 0. split; [lia|by rewrite Nat.add_0_r].
      * eapply touches_weaken; [|exact Ht']. intros l (q & Hq & ->). exists (S q). split; [lia|]. do 2 f_equal. lia.
    + intros l. by rewrite Hl', Hl1.
Qed.

Lemma mod_run k i q : k mod N = i -> i + q < N -> (k + q) mod N = i + q.
Proof. intros <- Hq. rewrite <-Nat.Div0.add_mod_idemp_l. by apply Nat.mod_small. Qed.

Lemma abs_data s m b : (forall l, (forall i, l <> Data i) -> latest m l = latest (mem s) l) ->
  element_of m <$> seq 0 N = b -> abs (mkMachine m (fired s)) = Ring.set_buffer b (abs s).
Proof.
  intros Hl <-. unfold abs, Ring.set_buffer, slot_of, write_of, read_of. cbn. by rewrite !Hl by done.
Qed.

Lemma slots_latest t k n (m m' : memory) l : touches t (slots k n) m m' -> (forall i, l <> Data i) -> latest m' l = latest m l.
Proof. intros Ht Hl. eapply touches_latest; [exact Ht|]. intros (q & _ & ->). by eapply Hl. Qed.

Lemma vinv_slots t k n s m g g' : touches t (slots k n) (mem s) m -> views_ok m g' -> vinv (s, g) ->
  vinv (mkMachine m (fired s), g').
Proof.
  intros Ht Hv [Hw _ Hp Hc]. split; cbn [mem fst snd] in *; [by apply Ht|done|..];
    (eapply ok_frame; [exact Ht| |done]); intros l (q & _ & ->); by intros [?|[?|?]].
Qed.

Lemma sim_write_data p w r n i vs Q x :
  producing p w r n x -> w + n + length vs <= r + N -> i = Z.of_nat ((w + n) mod N) ->
  (forall y, producing p w r (n + length vs) y -> Q tt y) ->
  psim (write_data 0 i vs) (Ring.write_at i vs) Q x.
Proof.
  intros Hx Hroom -> HQ. apply (sim_exact_act abs _ _ _ _ _ _ (producing p w r n)); [apply weak_producing_stable|done|].
  intros s g s1 [] Hp Hrun. cbn [abs Ring.buffer] in Hrun. rewrite length_fmap, length_seq in Hrun.
  destruct (_ <=? _)%Z eqn:Hfit; [|done]. injection Hrun as <-. bool_props.
  pose proof Hp as [Hi Hw Hn Hc Hr Hroom0 Hf]. cbn [fst snd] in *.
  pose proof (vi_wf _ Hi) as Hwf. pose proof (vi_views _ Hi) as Hv. cbn [mem fst snd] in *. rewrite Nat2Z.id.
  pose proof (Ring.N_capacity capacity e He Hcap) as HN.
  destruct (write_from_ok vs ((w + n) mod N) (mem s) g r) as (m' & Hrun & Hv' & Hf' & Ht & Hel); rewrite ?Hw, ?Hn; [done..| |].
  { intros q Hq. split; [apply mod_run; [done|lia]|lia]. }
  rewrite Hw, Hn in Hf', Ht. exists (mkMachine m' (fired s)), tt, (next_positions g (length vs)). split_and!.
  - rewrite (proj2 (Z.leb_le _ _)) by lia. by rewrite Hrun.
  - apply abs_data; [|done]. intros l. by eapply slots_latest.
  - intros _. split; cbn [fst snd next_positions written staged consumed taken mem]; [by eapply vinv_slots|done|done|lia| | | |].
    + by apply (to_others _ _ _ _ Ht).
    + intros j Hj. eapply to_newest; [exact Ht|]. intros (q & Hq & Heq). revert Heq. pose proof (vo_taken _ _ Hv).
      apply slot_ne; lia.
    + unfold signaller_holds. by rewrite (held_frame _ _ _ _ _ Ht) by by intros (q & _ & ?).
    + unfold waiter_holds. by rewrite (held_frame _ _ _ _ _ Ht) by by intros (q & _ & ?).
  - eapply sim_ret; [apply weak_producing_stable| |done]. split; cbn [fst snd next_positions written staged consumed taken mem];
      [by eapply vinv_slots|done|lia|done|done|lia|]. intros j Hj. apply Hf'. lia.
Qed.

Lemma sim_store_write p w r n Q x :
  producing p w r n x -> (forall y, producing p (w + n) r 0 y -> Q tt y) ->
  psim (store_as 0 SeqCst WriteIndex (wrap (Z.of_nat (w + n)))) (Concurrency.store (Ring.set_write_index (wrap (Z.of_nat (w + n))))) Q x.
Proof.
  intros Hx HQ. apply (sim_exact_act abs _ _ _ _ _ _ (producing p w r n)); [apply weak_producing_stable|done|].
  intros s g s1 [] Hp [= <-]. pose proof Hp as [Hi Hw Hn Hc Hr Hroom0 Hf]. cbn [fst snd] in *.
  pose proof (vi_wf _ Hi) as Hwf. pose proof (vi_views _ Hi) as Hv. cbn [mem fst snd] in *.
  set (m' := store 0 SeqCst WriteIndex (inject (wrap (Z.of_nat (w + n)))) (mem s)).
  assert (touches 0 (eq WriteIndex) (mem s) m') as Ht by (apply append_touches; [done|apply nothing_le]).
  set (g' := mkPos (w + n) 0 (consumed g) (taken g)).
  assert (views_ok m' g') as Hv' by (subst g' m'; rewrite <-Hw, <-Hn; by apply views_publish).
  assert (vinv (mkMachine m' (fired s), g')) as Hi'.
  { destruct Hi as [_ _ Hip Hic]. split; cbn [mem fst snd] in *; [by apply Ht|done|..];
      (eapply ok_frame; [exact Ht| |done]); intros l <-; by intros [?|[?|?]]. }
  exists (mkMachine m' (fired s)), tt, g'. split_and!; [done| | |].
  - unfold abs, Ring.set_write_index. cbn. f_equal. unfold m'. by rewrite latest_store.
  - intros _. split; cbn [fst snd g' written staged consumed taken mem]; [done|done|done|lia| | | |].
    + by apply (to_others _ _ _ _ Ht).
    + intros j _. by eapply to_newest.
    + unfold signaller_holds. by rewrite (held_frame _ _ _ _ _ Ht).
    + unfold waiter_holds. by rewrite (held_frame _ _ _ _ _ Ht).
  - eapply sim_ret; [apply weak_producing_stable| |done]. split; cbn [fst snd g' written staged consumed taken mem];
      [done|done|done|done|done|lia|]. intros j Hj. eapply cov_seen; [exact Ht|done|apply Hf; lia].
Qed.

Lemma sim_publish_push p w r n Q x :
  producing p w r n x -> (forall y, producing p (w + n) r 0 y -> Q tt y) ->
  psim (Ring.publish_push (H1 := ordered 0) p (wrap (Z.of_nat (w + n)))) (Ring.publish_push p (wrap (Z.of_nat (w + n)))) Q x.
Proof.
  intros Hx HQ. apply sim_bind. eapply sim_store_write; [exact Hx|]. intros y Hy.
  by apply (sim_signal (fun _ : unit => abs) consumer_slot Ring.consumer_ref 1 0 (fun _ => c_abs) c_distinct (Nat.neq_succ_0 0) _ _ _ (c_env_producer p (w + n) r 0)).
Qed.

(** ** Operations of the producer *)
Definition pready (p : Ring.Producer) (x : config) : Prop :=
  exists w r, Ring.p_cached_write p = wrap (Z.of_nat w) /\ producing p w r 0 x.

Lemma pready_stable p : stable (rely 0) (pready p).
Proof. intros x x' (w & r & Hw & Hp) Hm. exists w, r. split; [done|]. by eapply weak_producing_stable. Qed.

Lemma producing_handle p p' w r n x : Ring.p_cached_read p' = Ring.p_cached_read p -> producing p w r n x -> producing p' w r n x.
Proof. intros Heq [Hi Hw Hn Hc Hr Hroom Hf]. split; try done. congruence. Qed.

Lemma weak_producing_sub p w r x : producing p w r 0 x -> wrapping_sub (wrap (Z.of_nat w)) (Ring.p_cached_read p) = Z.of_nat (w - r).
Proof.
  intros [Hi Hw Hn Hc Hr Hroom Hf]. pose proof (vo_taken _ _ (vi_views _ Hi)). pose proof (Ring.N_small capacity e He Hcap).
  rewrite Hc, wrapping_sub_wrap by lia. lia.
Qed.

Lemma psim_ret {A} p (a : A) Q x : pready p x -> (forall y, pready p y -> Q a y) -> psim (Ret a) (Ret a) Q x.
Proof. intros Hx HQ. eapply sim_ret; [apply (pready_stable p)|done|done]. Qed.

(** The end of a push: the handle moves on by [n] and publishes. *)
Lemma sim_push_end {A} p w r n (a : A) Q x :
  producing p w r n x -> let w' := wrapping_add (wrap (Z.of_nat w)) (Z.of_nat n) in
  let p' := Ring.mkProducer (Ring.p_cached_read p) w' in
  (forall y, pready p' y -> Q a y) ->
  psim (_ ← Ring.publish_push (H1 := ordered 0) p' (Ring.p_cached_write p'); Ret a)
    (_ ← Ring.publish_push p' (Ring.p_cached_write p'); Ret a) Q x.
Proof.
  intros Hx w' p' HQ. assert (w' = wrap (Z.of_nat (w + n))) as Hw' by (unfold w'; rewrite wrapping_add_wrap; f_equal; lia).
  apply sim_bind. change (Ring.p_cached_write p') with w'. rewrite Hw'.
  eapply sim_publish_push; [by apply (producing_handle p p')|]. intros y Hy.
  eapply (psim_ret p'); [|done]. by exists (w + n), r.
Qed.

Lemma sim_push_go p v w r Q x :
  producing p w r 0 x -> w + 1 <= r + N ->
  let p' := Ring.mkProducer (Ring.p_cached_read p) (wrapping_add (wrap (Z.of_nat w)) 1) in
  (forall y, pready p' y -> Q (p', ROk tt) y) ->
  psim (_ ← write_data 0 (Z.land (wrap (Z.of_nat w)) (Ring.mask capacity)) [v];
        _ ← Ring.publish_push (H1 := ordered 0) p' (Ring.p_cached_write p'); Ret (p', ROk tt : result unit T))
    (_ ← Ring.write_at (Z.land (wrap (Z.of_nat w)) (Ring.mask capacity)) [v];
     _ ← Ring.publish_push p' (Ring.p_cached_write p'); Ret (p', ROk tt)) Q x.
Proof.
  intros Hx Hroom p' HQ. apply sim_bind. eapply (sim_write_data p w r 0); [done|cbn [length]; lia| |].
  { rewrite Nat.add_0_r. by rewrite (Ring.land_slot capacity e He Hcap). }
  intros y Hy. by apply (sim_push_end p w r 1).
Qed.

Lemma sim_try_push p v Q x :
  pready p x -> (forall p' o y, pready p' y -> Q (p', o) y) ->
  psim (Ring.try_push capacity (H1 := ordered 0) p v) (Ring.try_push capacity p v) Q x.
Proof.
  intros (w & r & Hw & Hx) HQ. unfold Ring.try_push. cbv zeta. rewrite Hw, (weak_producing_sub p w r x Hx).
  pose proof (Ring.N_capacity capacity e He Hcap) as HN.
  destruct (capacity <=? Z.of_nat (w - r))%Z eqn:Hfull; bool_props.
  - apply sim_bind. eapply sim_load_read; [exact Hx|]. clear x Hx. intros r' y Hy Hle. rewrite Hw in Hy.
    pose proof (weak_producing_sub _ w r' y Hy) as Hsub. cbn [Ring.p_cached_read] in Hsub. rewrite Hsub.
    destruct (capacity <=? Z.of_nat (w - r'))%Z eqn:Hfull'; bool_props.
    + eapply (psim_ret (Ring.mkProducer (wrap (Z.of_nat r')) (wrap (Z.of_nat w)))); [by exists w, r'|]. intros y' Hy'. by apply HQ.
    + apply (sim_push_go _ v w r'); [exact Hy|lia|]. intros y' Hy'. by apply HQ.
  - apply (sim_push_go _ v w r); [exact Hx|lia|]. intros y' Hy'. by apply HQ.
Qed.

Lemma sim_push_slice_go p items a w r Q x :
  Ring.p_cached_write p = wrap (Z.of_nat w) -> producing p w r 0 x -> w + a <= r + N ->
  (forall p' n y, pready p' y -> Q (p', n) y) ->
  psim (Ring.push_slice_go capacity (H1 := ordered 0) p items (Z.of_nat a)) (Ring.push_slice_go capacity p items (Z.of_nat a)) Q x.
Proof.
  intros Hw Hx Hroom HQ. unfold Ring.push_slice_go. cbv zeta. rewrite Hw, (Ring.land_slot capacity e He Hcap).
  set (n := Nat.min (length items) a).
  replace (Z.min (Z.of_nat (length items)) (Z.of_nat a)) with (Z.of_nat n) by lia.
  pose proof (Ring.N_capacity capacity e He Hcap) as HN. pose proof Hx as [Hi Hwr _ _ Hr _ _].
  pose proof (vo_taken _ _ (vi_views _ Hi)) as Ht. assert (n <= N) as HnN by lia.
  destruct (Ring.wrap_around capacity e He Hcap w n HnN) as [Hfit Hrest]. set (c := Nat.min (N - w mod N) n) in *.
  assert (w mod N < N) as Hlt by (apply Nat.mod_upper_bound; pose proof (Ring.N_pos capacity e He Hcap); lia).
  replace (Z.min (capacity - Z.of_nat (w mod N)) (Z.of_nat n)) with (Z.of_nat c) by lia. rewrite !Nat2Z.id.
  assert (length (firstn c items) = c) as Hlc by (rewrite length_take; lia).
  apply sim_bind. eapply (sim_write_data p w r 0); [exact Hx|lia|by rewrite Nat.add_0_r|]. rewrite Hlc.
  clear x Hx Hi Hr Ht Hwr. intros x Hx. apply sim_bind.
  assert (forall y, producing p w r n y ->
    psim (_ ← Ring.publish_push (H1 := ordered 0) (Ring.mkProducer (Ring.p_cached_read p) (wrapping_add (wrap (Z.of_nat w)) (Z.of_nat n)))
            (Ring.p_cached_write (Ring.mkProducer (Ring.p_cached_read p) (wrapping_add (wrap (Z.of_nat w)) (Z.of_nat n))));
          Ret (Ring.mkProducer (Ring.p_cached_read p) (wrapping_add (wrap (Z.of_nat w)) (Z.of_nat n)), n))
      (_ ← Ring.publish_push (Ring.mkProducer (Ring.p_cached_read p) (wrapping_add (wrap (Z.of_nat w)) (Z.of_nat n)))
            (Ring.p_cached_write (Ring.mkProducer (Ring.p_cached_read p) (wrapping_add (wrap (Z.of_nat w)) (Z.of_nat n))));
       Ret (Ring.mkProducer (Ring.p_cached_read p) (wrapping_add (wrap (Z.of_nat w)) (Z.of_nat n)), n)) Q y) as Hend.
  { intros y Hy. apply (sim_push_end p w r n _ Q y Hy). intros y' Hy'. by apply HQ. }
  destruct (Z.of_nat c <? Z.of_nat n)%Z eqn:Hcn; bool_props.
  - destruct Hrest as [Hz Hle]; [lia|]. replace (Z.to_nat (Z.of_nat n - Z.of_nat c)) with (n - c) by lia.
    assert (length (firstn (n - c) (drop c items)) = n - c) as Hl2 by (rewrite length_take, length_drop; lia).
    eapply (sim_write_data p w r c); [exact Hx|lia|by rewrite Hz|]. rewrite Hl2. intros y Hy. apply Hend.
    by replace (c + (n - c)) with n in Hy by lia.
  - eapply sim_ret; [apply weak_producing_stable|exact Hx|]. intros y Hy. apply Hend. by replace c with n in Hy by lia.
Qed.

Lemma sim_try_push_slice p items Q x :
  pready p x -> (forall p' n y, pready p' y -> Q (p', n) y) ->
  psim (Ring.try_push_slice capacity (H1 := ordered 0) p items) (Ring.try_push_slice capacity p items) Q x.
Proof.
  intros Hp HQ. unfold Ring.try_push_slice. destruct items as [|v items']; [eapply psim_ret; [exact Hp|]; intros; by apply HQ|].
  set (items := v :: items'). destruct Hp as (w & r & Hw & Hx). cbv zeta. rewrite Hw, (weak_producing_sub p w r x Hx).
  pose proof (Ring.N_capacity capacity e He Hcap) as HN.
  assert (forall p r y, producing p w r 0 y -> saturating_sub capacity (Z.of_nat (w - r)) = Z.of_nat (r + N - w) /\ w <= r + N) as Hav.
  { intros p1 r1 y Hy. pose proof (vo_taken _ _ (vi_views _ (pr_inv _ _ _ _ _ Hy))) as Ht.
    destruct Hy as [_ Hwr _ _ Hr Hroom _]. unfold saturating_sub. lia. }
  destruct (Hav _ _ _ Hx) as [-> Hle].
  destruct (Z.of_nat (r + N - w) =? 0)%Z eqn:Hz.
  - apply sim_bind. eapply sim_load_read; [exact Hx|]. clear x Hx. intros r' y Hy _. rewrite Hw in Hy.
    pose proof (weak_producing_sub _ w r' y Hy) as Hsub. cbn [Ring.p_cached_read] in Hsub. rewrite Hsub.
    destruct (Hav _ _ _ Hy) as [-> Hle']. destruct (Z.of_nat (r' + N - w) =? 0)%Z.
    + eapply (psim_ret (Ring.mkProducer (wrap (Z.of_nat r')) (wrap (Z.of_nat w)))); [by exists w, r'|]. intros y' Hy'. by apply HQ.
    + eapply (sim_push_slice_go _ items _ w r'); [done|exact Hy|lia|done].
  - eapply (sim_push_slice_go _ items _ w r); [done|exact Hx|lia|done].
Qed.

Lemma sim_arm_producer p w Q x : pready p x -> (forall y, pready p y -> Q tt y) ->
  psim (Ring.arm_producer (Accesses := ordered 0) w) (Ring.arm_producer w) Q x.
Proof.
  intros (i & r & Hw & Hx) HQ.
  apply (sim_arm (fun _ : unit => abs) producer_slot Ring.producer_ref 0 1 (fun _ => p_abs) p_distinct (Nat.neq_0_succ 0) _ _ _ (p_env_producer p i r 0)); [done|].
  intros y Hy. apply HQ. by exists i, r.
Qed.

Lemma sim_disarm_producer p Q x : pready p x -> (forall y, pready p y -> Q tt y) ->
  psim (Ring.disarm_producer (Accesses := ordered 0)) Ring.disarm_producer Q x.
Proof.
  intros (i & r & Hw & Hx) HQ.
  apply (sim_disarm (fun _ : unit => abs) producer_slot Ring.producer_ref 0 1 (fun _ => p_abs) p_distinct _ _ _ (p_env_producer p i r 0)); [done|].
  intros y Hy. apply HQ. by exists i, r.
Qed.

Lemma sim_producer_fired p Q x : pready p x -> (forall k y, pready p y -> Q k y) ->
  psim (Ring.producer_fired (Accesses := ordered 0)) Ring.producer_fired Q x.
Proof.
  intros Hx HQ. apply (sim_exact_act abs _ _ _ _ _ _ (pready p)); [apply pready_stable|done|].
  intros s g s1 c Hp [= <- <-]. exists s, (length (fired s (Slot false State))), g. split_and!; [done..| |].
  - intros Hi. by split.
  - eapply psim_ret; [exact Hp|]. intros y Hy. by apply HQ.
Qed.

Lemma sim_poll_push p o w Q x :
  pready p x -> (forall p' o r y, pready p' y -> Q (p', o, r) y) ->
  psim (Ring.poll_push capacity (H1 := ordered 0) p o w) (Ring.poll_push capacity p o w) Q x.
Proof.
  intros Hx HQ. unfold Ring.poll_push. destruct o as [v|]; [|eapply psim_ret; [exact Hx|]; intros; by apply HQ].
  apply sim_bind, sim_try_push; [done|]. clear x p Hx. intros p [u|v'] x Hx.
  { eapply psim_ret; [exact Hx|]. intros; by apply HQ. }
  apply sim_bind, (sim_arm_producer p); [done|]. clear x Hx. intros x Hx.
  apply sim_bind, sim_try_push; [done|]. clear x p Hx. intros p [u|v''] x Hx.
  - apply sim_bind, (sim_disarm_producer p); [done|]. clear x Hx. intros x Hx.
    eapply psim_ret; [exact Hx|]. intros; by apply HQ.
  - eapply psim_ret; [exact Hx|]. intros; by apply HQ.
Qed.

Lemma sim_poll_push_slice p f w Q x :
  pready p x -> (forall p' f r y, pready p' y -> Q (p', f, r) y) ->
  psim (Ring.poll_push_slice capacity (H1 := ordered 0) p f w) (Ring.poll_push_slice capacity p f w) Q x.
Proof.
  intros Hx HQ. apply sim_bind, sim_try_push_slice; [done|]. clear x p Hx. intros p n x Hx. cbv beta zeta iota.
  destruct (_ && _). { eapply psim_ret; [exact Hx|]. intros; by apply HQ. }
  apply sim_bind, (sim_arm_producer p); [done|]. clear x Hx. intros x Hx.
  apply sim_bind, sim_try_push_slice; [done|]. clear x p Hx. intros p n' x Hx. cbv beta zeta iota.
  destruct (_ && _).
  - apply sim_bind, (sim_disarm_producer p); [done|]. clear x Hx. intros x Hx.
    eapply psim_ret; [exact Hx|]. intros; by apply HQ.
  - eapply psim_ret; [exact Hx|]. intros; by apply HQ.
Qed.

Lemma sim_drive_push p o ws pk Q x :
  pready p x -> (forall p' o r y, pready p' y -> Q (p', o, r) y) ->
  psim (Ring.drive_push capacity (H1 := ordered 0) p o ws pk) (Ring.drive_push capacity p o ws pk) Q x.
Proof.
  intros Hx HQ. revert p o pk x Hx. induction ws as [|w ws IH]; intros p o pk x Hx.
  { eapply psim_ret; [exact Hx|]. intros; by apply HQ. }
  apply sim_bind, (sim_producer_fired p); [done|]. clear x Hx. intros k x Hx.
  apply sim_bind, sim_poll_push; [done|]. clear x p o Hx. intros p o [u|] x Hx.
  - eapply psim_ret; [exact Hx|]. intros; by apply HQ.
  - by apply IH.
Qed.

Lemma sim_push p v ws Q x :
  pready p x -> (forall p' o r y, pready p' y -> Q (p', o, r) y) ->
  psim (Ring.push capacity (H1 := ordered 0) p v ws) (Ring.push capacity p v ws) Q x.
Proof.
  intros Hx HQ. apply sim_bind, sim_try_push; [done|]. clear x p Hx. intros p [u|v'] x Hx.
  - eapply psim_ret; [exact Hx|]. intros; by apply HQ.
  - by apply sim_drive_push.
Qed.

Lemma sim_drive_push_slice p f ws pk Q x :
  pready p x -> (forall p' f r y, pready p' y -> Q (p', f, r) y) ->
  psim (Ring.drive_push_slice capacity (H1 := ordered 0) p f ws pk) (Ring.drive_push_slice capacity p f ws pk) Q x.
Proof.
  intros Hx HQ. revert p f pk x Hx. induction ws as [|w ws IH]; intros p f pk x Hx.
  { eapply psim_ret; [exact Hx|]. intros; by apply HQ. }
  apply sim_bind, (sim_producer_fired p); [done|]. clear x Hx. intros k x Hx.
  apply sim_bind, sim_poll_push_slice; [done|]. clear x p f Hx. intros p f [u|] x Hx.
  - eapply psim_ret; [exact Hx|]. intros; by apply HQ.
  - by apply IH.
Qed.

Lemma sim_push_slice_counted p vs ws Q x :
  pready p x -> (forall p' f r y, pready p' y -> Q (p', f, r) y) ->
  psim (Ring.push_slice_counted capacity (H1 := ordered 0) p vs ws) (Ring.push_slice_counted capacity p vs ws) Q x.
Proof.
  intros Hx HQ. unfold Ring.push_slice_counted. destruct vs as [|v vs]; [eapply psim_ret; [exact Hx|]; intros; by apply HQ|].
  apply sim_bind, sim_try_push_slice; [done|]. clear x p Hx. intros p n x Hx. cbv beta iota. destruct (_ =? _).
  - eapply psim_ret; [exact Hx|]. intros; by apply HQ.
  - by apply sim_drive_push_slice.
Qed.

Lemma sim_io_write p vs ws Q x :
  pready p x -> (forall p' o r y, pready p' y -> Q (p', o, r) y) ->
  psim (Ring.io_write capacity (H1 := ordered 0) p vs ws) (Ring.io_write capacity p vs ws) Q x.
Proof.
  intros Hx HQ. unfold Ring.io_write. destruct vs as [|v vs]; [eapply psim_ret; [exact Hx|]; intros; by apply HQ|].
  apply sim_bind, sim_try_push_slice; [done|]. clear x p Hx. intros p n x Hx. cbv beta iota. destruct (_ <? _).
  { eapply psim_ret; [exact Hx|]. intros; by apply HQ. }
  apply sim_bind, sim_push; [done|]. clear x p Hx. intros p [v'|] r x Hx.
  - eapply psim_ret; [exact Hx|]. intros; by apply HQ.
  - apply sim_bind, sim_try_push_slice; [done|]. clear x p Hx. intros p n' x Hx.
    eapply psim_ret; [exact Hx|]. intros; by apply HQ.
Qed.

(** The operations other than the counts, which may see an index that is not the
    newest. *)
Definition exact_producer_op (op : Ring.producer_op (T := T)) : bool :=
  match op with Ring.FreeCount | Ring.ProducerIsEmpty | Ring.ProducerIsFull => false | _ => true end.
Definition exact_consumer_op (op : Ring.consumer_op) : bool :=
  match op with Ring.AvailableCount | Ring.ConsumerIsEmpty | Ring.ConsumerIsFull => false | _ => true end.

Lemma sim_producer_step p op Q x :
  exact_producer_op op = true -> pready p x -> (forall p' vs pk y, pready p' y -> Q (p', vs, pk) y) ->
  psim (Ring.producer_step capacity (H1 := ordered 0) p op) (Ring.producer_step capacity p op) Q x.
Proof.
  intros Hop Hx HQ. destruct op; try done; apply sim_bind;
    first [apply sim_try_push|apply sim_try_push_slice|apply sim_push|apply sim_push_slice_counted|apply sim_io_write];
    try done; clear p x Hx; intros; (eapply psim_ret; [eassumption|]); intros; by apply HQ.
Qed.

Lemma sim_producer_thread p ops acc x :
  Forall (fun op => exact_producer_op op = true) ops -> pready p x ->
  psim (Ring.producer_thread capacity (H1 := ordered 0) p ops acc) (Ring.producer_thread capacity p ops acc) (fun _ _ => True) x.
Proof.
  intros Hops. revert p acc x. induction Hops as [|op ops Hop _ IH]; intros p acc x Hx; cbn [Ring.producer_thread].
  { by eapply psim_ret. }
  apply sim_bind, sim_producer_step; [done..|]. intros p' vs pk y Hy. by apply IH.
Qed.

(** ** Accesses of the consumer *)
Lemma sim_load_write c r w Q x :
  consuming c r w 0 x ->
  (forall w' y, consuming (Ring.mkConsumer (Ring.c_cached_read c) (wrap (Z.of_nat w'))) r w' 0 y -> w <= w' ->
    Q (wrap (Z.of_nat w')) y) ->
  csim (load_as Z 1 SeqCst WriteIndex) (Concurrency.load Ring.write_index) Q x.
Proof.
  intros Hx HQ. apply (sim_exact_act abs _ _ _ _ _ _ (consuming c r w 0)); [apply weak_consuming_stable|done|].
  intros s g s1 z Hc [= <- <-]. pose proof Hc as [Hi Hr Hn Hcw Hw Hleft Hf]. cbn [fst snd] in *.
  pose proof (vi_wf _ Hi) as Hwf. pose proof (vi_views _ Hi) as Hv. cbn [mem fst snd] in *.
  assert (touches 1 (fun _ => False) (mem s) (load 1 SeqCst WriteIndex (mem s)).1) as Ht by by apply load_touches.
  pose proof (load_newest 1 WriteIndex (mem s) Hwf (vo_write_sc _ _ Hv)) as Hl. rewrite Hl in Ht. cbn [fst] in Ht.
  eexists _, _, g. split_and!; [by rewrite Hl|by eapply abs_quiet| |].
  - intros _. pose proof (vinv_quiet _ _ _ _ Ht Hi) as Hi'. by split.
  - change (project (latest (mem s) WriteIndex)) with (write_of (mem s)). cbn [Ring.write_index abs].
    rewrite (vo_write _ _ Hv). eapply sim_ret; [apply weak_consuming_stable| |intros y Hy; by apply (HQ _ y Hy)].
    split; cbn [fst snd Ring.c_cached_write]; [by apply (vinv_quiet _ _ _ _ Ht)|done..| |].
    + pose proof (vo_taken _ _ Hv). lia.
    + intros j Hj. eapply covers_le; [|eapply cov_frame; [exact Ht|tauto|apply (vo_published _ _ Hv); lia]].
      cbn [mem]. unfold drop_choice. cbn [seen]. rewrite seen_observe. apply join_r.
Qed.

Lemma sim_read_data c r w t i n Q x :
  consuming c r w t x -> r + t + n <= w -> i = Z.of_nat ((r + t) mod N) -> (r + t) mod N + n <= N ->
  (forall vs y, length vs = n -> consuming c r w (t + n) y -> Q vs y) ->
  csim (read_data 1 i n) (Ring.read_at i n) Q x.
Proof.
  intros Hx Hleft -> Hfit HQ. apply (sim_exact_act abs _ _ _ _ _ _ (consuming c r w t)); [apply weak_consuming_stable|done|].
  intros s g s1 vs Hc Hrun. cbn [abs Ring.buffer] in Hrun. rewrite Nat2Z.id in Hrun.
  destruct (mapM id _) as [vs0|] eqn:Hvs; [|done]. destruct (length vs0 =? n) eqn:Hlen; [|done]. injection Hrun as <- <-.
  apply Nat.eqb_eq in Hlen.
  pose proof Hc as [Hi Hr Hn Hcw Hw Hleft0 Hf]. cbn [fst snd] in *.
  pose proof (vi_wf _ Hi) as Hwf. pose proof (vi_views _ Hi) as Hv. cbn [mem fst snd] in *.
  pose proof (Ring.N_capacity capacity e He Hcap) as HN.
  destruct (read_from_ok n ((r + t) mod N) (mem s) g w vs0) as (m' & Hrun & Hv' & Hf' & Ht & Hl); rewrite ?Hr, ?Hn; [done..| |done|].
  { intros q Hq. split; [apply mod_run; [done|lia]|lia]. }
  rewrite Hr, Hn in Hf', Ht. exists (mkMachine m' (fired s)), vs0, (mkPos (written g) (staged g) (consumed g) (taken g + n)). split_and!.
  - rewrite (proj2 (Z.leb_le _ _)) by lia. rewrite Nat2Z.id, Hrun. done.
  - rewrite (abs_data s m' (element_of (mem s) <$> seq 0 N)); [by destruct s|intros l _; apply Hl|by apply elements_same].
  - intros _. split; cbn [fst snd written staged consumed taken mem]; [by eapply vinv_slots|done|done|lia| | | |].
    + by apply (to_others _ _ _ _ Ht).
    + intros j Hj. eapply to_newest; [exact Ht|]. intros (q & Hq & Heq). revert Heq. pose proof (vo_staged _ _ Hv). pose proof (vo_taken _ _ Hv).
      apply slot_ne; lia.
    + unfold waiter_holds. by rewrite (held_frame _ _ _ _ _ Ht) by by intros (q & _ & ?).
    + unfold signaller_holds. by rewrite (held_frame _ _ _ _ _ Ht) by by intros (q & _ & ?).
  - eapply sim_ret; [apply weak_consuming_stable| |intros y Hy; by apply HQ]. split; cbn [fst snd written staged consumed taken mem];
      [by eapply vinv_slots|done|lia|done|done|lia|]. intros j Hj. apply Hf'. lia.
Qed.

Lemma sim_store_read c r w n Q x :
  consuming c r w n x -> (forall y, consuming c (r + n) w 0 y -> Q tt y) ->
  csim (store_as 1 SeqCst ReadIndex (wrap (Z.of_nat (r + n)))) (Concurrency.store (Ring.set_read_index (wrap (Z.of_nat (r + n))))) Q x.
Proof.
  intros Hx HQ. apply (sim_exact_act abs _ _ _ _ _ _ (consuming c r w n)); [apply weak_consuming_stable|done|].
  intros s g s1 [] Hp [= <-]. pose proof Hp as [Hi Hr Hn Hcw Hw Hleft Hf]. cbn [fst snd] in *.
  pose proof (vi_wf _ Hi) as Hwf. pose proof (vi_views _ Hi) as Hv. cbn [mem fst snd] in *.
  set (m' := store 1 SeqCst ReadIndex (inject (wrap (Z.of_nat (r + n)))) (mem s)).
  assert (touches 1 (eq ReadIndex) (mem s) m') as Ht by (apply append_touches; [done|apply nothing_le]).
  set (g' := mkPos (written g) (staged g) (r + n) 0).
  assert (views_ok m' g') as Hv' by (subst g' m'; rewrite <-Hr, <-Hn; by apply views_return).
  assert (vinv (mkMachine m' (fired s), g')) as Hi'.
  { destruct Hi as [_ _ Hip Hic]. split; cbn [mem fst snd] in *; [by apply Ht|done|..];
      (eapply ok_frame; [exact Ht| |done]); intros l <-; by intros [?|[?|?]]. }
  exists (mkMachine m' (fired s)), tt, g'. split_and!; [done| | |].
  - unfold abs, Ring.set_read_index. cbn. f_equal. unfold m'. by rewrite latest_store.
  - intros _. split; cbn [fst snd g' written staged consumed taken mem]; [done|done|done|lia| | | |].
    + by apply (to_others _ _ _ _ Ht).
    + intros j _. by eapply to_newest.
    + unfold waiter_holds. by rewrite (held_frame _ _ _ _ _ Ht).
    + unfold signaller_holds. by rewrite (held_frame _ _ _ _ _ Ht).
  - eapply sim_ret; [apply weak_consuming_stable| |done]. split; cbn [fst snd g' written staged consumed taken mem];
      [done|done|done|done|done|lia|]. intros j Hj. eapply cov_seen; [exact Ht|done|apply Hf; lia].
Qed.

(** ** Operations of the consumer *)
Definition cready (c : Ring.Consumer) (x : config) : Prop :=
  exists r w, Ring.c_cached_read c = wrap (Z.of_nat r) /\ consuming c r w 0 x.

Lemma cready_stable c : stable (rely 1) (cready c).
Proof. intros x x' (r & w & Hr & Hc) Hm. exists r, w. split; [done|]. by eapply weak_consuming_stable. Qed.

Lemma consuming_handle c c' r w n x : Ring.c_cached_write c' = Ring.c_cached_write c -> consuming c r w n x -> consuming c' r w n x.
Proof. intros Heq [Hi Hr Hn Hcw Hw Hleft Hf]. split; try done. congruence. Qed.

Lemma consuming_room c r w n x : consuming c r w n x -> w - r <= N.
Proof.
  intros [Hi Hr Hn Hcw Hw Hleft Hf]. pose proof (vo_staged _ _ (vi_views _ Hi)). lia.
Qed.

Lemma weak_consuming_sub c r w x : consuming c r w 0 x -> wrapping_sub (Ring.c_cached_write c) (wrap (Z.of_nat r)) = Z.of_nat (w - r).
Proof.
  intros Hx. pose proof (consuming_room _ _ _ _ _ Hx) as Hroom. destruct Hx as [Hi Hr Hn Hcw Hw Hleft Hf].
  pose proof (Ring.N_small capacity e He Hcap). rewrite Hcw, wrapping_sub_wrap by lia. lia.
Qed.

(** Indices are equal exactly when the buffer looks empty. *)
Lemma consuming_eq c r w x : consuming c r w 0 x -> (wrap (Z.of_nat r) =? Ring.c_cached_write c)%Z = (r =? w).
Proof.
  intros Hx. pose proof (consuming_room _ _ _ _ _ Hx) as Hroom. destruct Hx as [Hi Hr Hn Hcw Hw Hleft Hf].
  pose proof (Ring.N_small capacity e He Hcap). rewrite Hcw. destruct (Nat.eqb_spec r w) as [->|Hne]; [by apply Z.eqb_eq|].
  apply Z.eqb_neq. intros Heq. apply wrap_inj in Heq; lia.
Qed.

Lemma csim_ret {A} c (a : A) Q x : cready c x -> (forall y, cready c y -> Q a y) -> csim (Ret a) (Ret a) Q x.
Proof. intros Hx HQ. eapply sim_ret; [apply (cready_stable c)|done|done]. Qed.

(** The end of a pop: the handle moves on by [n] and gives the slots back. *)
Lemma sim_pop_end {A} c r w n (a : A) sig Q x :
  consuming c r w n x -> let r' := wrapping_add (wrap (Z.of_nat r)) (Z.of_nat n) in
  let c' := Ring.mkConsumer r' (Ring.c_cached_write c) in
  (forall y, cready c' y -> Q a y) ->
  csim (_ ← store_as 1 SeqCst ReadIndex (Ring.c_cached_read c');
        _ ← (if (sig : bool) then signal 1 producer_slot else Ret tt); Ret a)
    (_ ← Concurrency.store (Ring.set_read_index (Ring.c_cached_read c'));
     _ ← (if sig then Notify.signal Ring.producer_ref else Ret tt); Ret a) Q x.
Proof.
  intros Hx r' c' HQ. assert (r' = wrap (Z.of_nat (r + n))) as Hr' by (unfold r'; rewrite wrapping_add_wrap; f_equal; lia).
  change (Ring.c_cached_read c') with r'. rewrite Hr'. apply sim_bind.
  eapply sim_store_read; [by apply (consuming_handle c c')|]. clear x Hx. intros x Hx. apply sim_bind.
  assert (forall y, consuming c' (r + n) w 0 y -> csim (Ret a) (Ret a) Q y) as Hend.
  { intros y Hy. eapply (csim_ret c'); [|done]. by exists (r + n), w. }
  destruct sig; [|eapply sim_ret; [apply weak_consuming_stable|exact Hx|done]].
  by apply (sim_signal (fun _ : unit => abs) producer_slot Ring.producer_ref 0 1 (fun _ => p_abs) p_distinct (Nat.neq_0_succ 0) _ _ _ (p_env_consumer c' (r + n) w 0)).
Qed.

Lemma sim_pop_go c r w sig Q x :
  consuming c r w 0 x -> r < w ->
  let c' := Ring.mkConsumer (wrapping_add (wrap (Z.of_nat r)) 1) (Ring.c_cached_write c) in
  (forall o y, cready c' y -> Q (c', o) y) ->
  csim (vs ← read_data 1 (Z.land (wrap (Z.of_nat r)) (Ring.mask capacity)) 1;
        _ ← store_as 1 SeqCst ReadIndex (Ring.c_cached_read c');
        _ ← (if (sig : bool) then signal 1 producer_slot else Ret tt); Ret (c', head vs))
    (vs ← Ring.read_at (Z.land (wrap (Z.of_nat r)) (Ring.mask capacity)) 1;
     _ ← Concurrency.store (Ring.set_read_index (Ring.c_cached_read c'));
     _ ← (if sig then Notify.signal Ring.producer_ref else Ret tt); Ret (c', head vs)) Q x.
Proof.
  intros Hx Hlt c' HQ. pose proof (Ring.N_pos capacity e He Hcap) as HN.
  pose proof (Nat.mod_upper_bound r N) as Hr. apply sim_bind. eapply (sim_read_data c r w 0); [done|lia| | |].
  - rewrite Nat.add_0_r. by rewrite (Ring.land_slot capacity e He Hcap).
  - rewrite Nat.add_0_r. lia.
  - intros vs y _ Hy. apply (sim_pop_end c r w 1 _ sig _ y Hy). intros y' Hy'. by apply HQ.
Qed.

Lemma sim_try_pop_inner c sig Q x :
  cready c x -> (forall c' o y, cready c' y -> Q (c', o) y) ->
  csim (Ring.try_pop_inner capacity (H1 := ordered 1) c sig) (Ring.try_pop_inner capacity c sig) Q x.
Proof.
  intros (r & w & Hr & Hx) HQ. unfold Ring.try_pop_inner. cbv zeta. rewrite Hr, (consuming_eq c r w x Hx).
  assert (forall c r w y, consuming c r w 0 y -> r <= w) as Hle by (intros c1 r1 w1 y []; lia).
  destruct (Nat.eqb_spec r w) as [_|Hne].
  - apply sim_bind. eapply sim_load_write; [exact Hx|]. clear x Hx. intros w' y Hy _. rewrite Hr in Hy.
    pose proof (consuming_eq _ r w' y Hy) as Heq. cbn [Ring.c_cached_write] in Heq. rewrite Heq.
    destruct (Nat.eqb_spec r w') as [_|Hne].
    + eapply (csim_ret (Ring.mkConsumer (wrap (Z.of_nat r)) (wrap (Z.of_nat w')))); [by exists r, w'|]. intros y' Hy'. by apply HQ.
    + apply (sim_pop_go _ r w'); [exact Hy|pose proof (Hle _ _ _ _ Hy); lia|]. intros o y' Hy'. by apply HQ.
  - apply (sim_pop_go _ r w); [exact Hx|pose proof (Hle _ _ _ _ Hx); lia|]. intros o y' Hy'. by apply HQ.
Qed.

Lemma sim_pop_slice_go c n a r w Q x :
  Ring.c_cached_read c = wrap (Z.of_nat r) -> consuming c r w 0 x -> r + a <= w ->
  (forall c' vs y, cready c' y -> Q (c', vs) y) ->
  csim (Ring.pop_slice_go capacity (H1 := ordered 1) c n (Z.of_nat a)) (Ring.pop_slice_go capacity c n (Z.of_nat a)) Q x.
Proof.
  intros Hr Hx Hroom HQ. unfold Ring.pop_slice_go. cbv zeta. rewrite Hr, (Ring.land_slot capacity e He Hcap).
  set (m := Nat.min n a). replace (Z.min (Z.of_nat n) (Z.of_nat a)) with (Z.of_nat m) by lia.
  pose proof (Ring.N_capacity capacity e He Hcap) as HN. pose proof (consuming_room _ _ _ _ _ Hx) as HwN.
  assert (m <= N) as HmN by lia. destruct (Ring.wrap_around capacity e He Hcap r m HmN) as [Hfit Hrest].
  set (k := Nat.min (N - r mod N) m) in *.
  assert (r mod N < N) as Hlt by (apply Nat.mod_upper_bound; pose proof (Ring.N_pos capacity e He Hcap); lia).
  replace (Z.min (capacity - Z.of_nat (r mod N)) (Z.of_nat m)) with (Z.of_nat k) by lia. rewrite !Nat2Z.id.
  apply sim_bind. eapply (sim_read_data c r w 0); [exact Hx|lia|by rewrite Nat.add_0_r|rewrite Nat.add_0_r; lia|].
  clear x Hx. intros vs1 x _ Hx. apply sim_bind.
  assert (forall vs2 y, consuming c r w m y ->
    csim (_ ← Ring.store_read_index (Accesses := ordered 1) (wrapping_add (wrap (Z.of_nat r)) (Z.of_nat m));
          _ ← Ring.signal_producer (Accesses := ordered 1);
          Ret (Ring.mkConsumer (wrapping_add (wrap (Z.of_nat r)) (Z.of_nat m)) (Ring.c_cached_write c), vs1 ++ vs2))
      (_ ← Ring.store_read_index (wrapping_add (wrap (Z.of_nat r)) (Z.of_nat m));
       _ ← Ring.signal_producer;
       Ret (Ring.mkConsumer (wrapping_add (wrap (Z.of_nat r)) (Z.of_nat m)) (Ring.c_cached_write c), vs1 ++ vs2)) Q y) as Hend.
  { intros vs2 y Hy. apply (sim_pop_end c r w m _ true Q y Hy). intros y' Hy'. by apply HQ. }
  destruct (Z.of_nat k <? Z.of_nat m)%Z eqn:Hkm; bool_props.
  - destruct Hrest as [Hz Hle]; [lia|]. replace (Z.to_nat (Z.of_nat m - Z.of_nat k)) with (m - k) by lia.
    eapply (sim_read_data c r w k); [exact Hx|lia|by rewrite Hz|rewrite Hz; lia|]. intros vs2 y _ Hy. apply Hend.
    by replace (k + (m - k)) with m in Hy by lia.
  - eapply sim_ret; [apply weak_consuming_stable|exact Hx|]. intros y Hy. apply Hend. by replace k with m in Hy by lia.
Qed.

Lemma sim_try_pop_slice c n Q x :
  cready c x -> (forall c' vs y, cready c' y -> Q (c', vs) y) ->
  csim (Ring.try_pop_slice capacity (H1 := ordered 1) c n) (Ring.try_pop_slice capacity c n) Q x.
Proof.
  intros Hp HQ. unfold Ring.try_pop_slice. destruct n as [|n]; [eapply csim_ret; [exact Hp|]; intros; by apply HQ|].
  destruct Hp as (r & w & Hr & Hx). cbv zeta. rewrite Hr, (weak_consuming_sub c r w x Hx).
  assert (forall c r w y, consuming c r w 0 y -> r + (w - r) <= w) as Hle by (intros c1 r1 w1 y []; lia).
  destruct (Z.of_nat (w - r) =? 0)%Z.
  - apply sim_bind. eapply sim_load_write; [exact Hx|]. clear x Hx. intros w' y Hy _. rewrite Hr in Hy.
    pose proof (weak_consuming_sub _ r w' y Hy) as Hsub. cbn [Ring.c_cached_write] in Hsub. rewrite Hsub.
    destruct (Z.of_nat (w' - r) =? 0)%Z.
    + eapply (csim_ret (Ring.mkConsumer (wrap (Z.of_nat r)) (wrap (Z.of_nat w')))); [by exists r, w'|]. intros y' Hy'. by apply HQ.
    + eapply (sim_pop_slice_go _ _ _ r w'); [done|exact Hy|by eapply Hle|done].
  - eapply (sim_pop_slice_go _ _ _ r w); [done|exact Hx|by eapply Hle|done].
Qed.

Lemma sim_arm_consumer c w Q x : cready c x -> (forall y, cready c y -> Q tt y) ->
  csim (Ring.arm_consumer (Accesses := ordered 1) w) (Ring.arm_consumer w) Q x.
Proof.
  intros (r & i & Hr & Hx) HQ.
  apply (sim_arm (fun _ : unit => abs) consumer_slot Ring.consumer_ref 1 0 (fun _ => c_abs) c_distinct (Nat.neq_succ_0 0) _ _ _ (c_env_consumer c r i 0)); [done|].
  intros y Hy. apply HQ. by exists r, i.
Qed.

Lemma sim_disarm_consumer c Q x : cready c x -> (forall y, cready c y -> Q tt y) ->
  csim (Ring.disarm_consumer (Accesses := ordered 1)) Ring.disarm_consumer Q x.
Proof.
  intros (r & i & Hr & Hx) HQ.
  apply (sim_disarm (fun _ : unit => abs) consumer_slot Ring.consumer_ref 1 0 (fun _ => c_abs) c_distinct _ _ _ (c_env_consumer c r i 0)); [done|].
  intros y Hy. apply HQ. by exists r, i.
Qed.

Lemma sim_consumer_fired c Q x : cready c x -> (forall k y, cready c y -> Q k y) ->
  csim (Ring.consumer_fired (Accesses := ordered 1)) Ring.consumer_fired Q x.
Proof.
  intros Hx HQ. apply (sim_exact_act abs _ _ _ _ _ _ (cready c)); [apply cready_stable|done|].
  intros s g s1 k Hp [= <- <-]. exists s, (length (fired s (Slot true State))), g. split_and!; [done..| |].
  - intros Hi. by split.
  - eapply csim_ret; [exact Hp|]. intros y Hy. by apply HQ.
Qed.

Lemma sim_poll_pop c w Q x :
  cready c x -> (forall c' r y, cready c' y -> Q (c', r) y) ->
  csim (Ring.poll_pop capacity (H1 := ordered 1) c w) (Ring.poll_pop capacity c w) Q x.
Proof.
  intros Hx HQ. apply sim_bind, sim_try_pop_inner; [done|]. clear x c Hx. intros c [v|] x Hx.
  { eapply csim_ret; [exact Hx|]. intros; by apply HQ. }
  apply sim_bind, (sim_arm_consumer c); [done|]. clear x Hx. intros x Hx.
  apply sim_bind, sim_try_pop_inner; [done|]. clear x c Hx. intros c [v|] x Hx.
  - apply sim_bind, (sim_disarm_consumer c); [done|]. clear x Hx. intros x Hx.
    eapply csim_ret; [exact Hx|]. intros; by apply HQ.
  - eapply csim_ret; [exact Hx|]. intros; by apply HQ.
Qed.

Lemma sim_poll_pop_slice c f w Q x :
  cready c x -> (forall c' f r y, cready c' y -> Q (c', f, r) y) ->
  csim (Ring.poll_pop_slice capacity (H1 := ordered 1) c f w) (Ring.poll_pop_slice capacity c f w) Q x.
Proof.
  intros Hx HQ. apply sim_bind, sim_try_pop_slice; [done|]. clear x c Hx. intros c vs x Hx. cbv beta zeta iota.
  destruct (_ && _). { eapply csim_ret; [exact Hx|]. intros; by apply HQ. }
  apply sim_bind, (sim_arm_consumer c); [done|]. clear x Hx. intros x Hx.
  apply sim_bind, sim_try_pop_slice; [done|]. clear x c Hx. intros c vs' x Hx. cbv beta zeta iota.
  destruct (_ && _).
  - apply sim_bind, (sim_disarm_consumer c); [done|]. clear x Hx. intros x Hx.
    eapply csim_ret; [exact Hx|]. intros; by apply HQ.
  - eapply csim_ret; [exact Hx|]. intros; by apply HQ.
Qed.

Lemma sim_drive_pop c ws pk Q x :
  cready c x -> (forall c' o r y, cready c' y -> Q (c', o, r) y) ->
  csim (Ring.drive_pop capacity (H1 := ordered 1) c ws pk) (Ring.drive_pop capacity c ws pk) Q x.
Proof.
  intros Hx HQ. revert c pk x Hx. induction ws as [|w ws IH]; intros c pk x Hx.
  { eapply csim_ret; [exact Hx|]. intros; by apply HQ. }
  apply sim_bind, (sim_consumer_fired c); [done|]. clear x Hx. intros k x Hx.
  apply sim_bind, sim_poll_pop; [done|]. clear x c Hx. intros c [v|] x Hx.
  - eapply csim_ret; [exact Hx|]. intros; by apply HQ.
  - by apply IH.
Qed.

Lemma sim_pop c ws Q x :
  cready c x -> (forall c' o r y, cready c' y -> Q (c', o, r) y) ->
  csim (Ring.pop capacity (H1 := ordered 1) c ws) (Ring.pop capacity c ws) Q x.
Proof.
  intros Hx HQ. apply sim_bind, sim_try_pop_inner; [done|]. clear x c Hx. intros c [v|] x Hx.
  - eapply csim_ret; [exact Hx|]. intros; by apply HQ.
  - by apply sim_drive_pop.
Qed.

Lemma sim_drive_pop_slice c f ws pk Q x :
  cready c x -> (forall c' f r y, cready c' y -> Q (c', f, r) y) ->
  csim (Ring.drive_pop_slice capacity (H1 := ordered 1) c f ws pk) (Ring.drive_pop_slice capacity c f ws pk) Q x.
Proof.
  intros Hx HQ. revert c f pk x Hx. induction ws as [|w ws IH]; intros c f pk x Hx.
  { eapply csim_ret; [exact Hx|]. intros; by apply HQ. }
  apply sim_bind, (sim_consumer_fired c); [done|]. clear x Hx. intros k x Hx.
  apply sim_bind, sim_poll_pop_slice; [done|]. clear x c f Hx. intros c f [u|] x Hx.
  - eapply csim_ret; [exact Hx|]. intros; by apply HQ.
  - by apply IH.
Qed.

Lemma sim_pop_slice_counted c n ws Q x :
  cready c x -> (forall c' f r y, cready c' y -> Q (c', f, r) y) ->
  csim (Ring.pop_slice_counted capacity (H1 := ordered 1) c n ws) (Ring.pop_slice_counted capacity c n ws) Q x.
Proof.
  intros Hx HQ. unfold Ring.pop_slice_counted. destruct n as [|n]; [eapply csim_ret; [exact Hx|]; intros; by apply HQ|].
  apply sim_bind, sim_try_pop_slice; [done|]. clear x c Hx. intros c vs x Hx. cbv beta iota. destruct (_ =? _).
  - eapply csim_ret; [exact Hx|]. intros; by apply HQ.
  - by apply sim_drive_pop_slice.
Qed.

Lemma sim_io_read c n ws Q x :
  cready c x -> (forall c' vs r y, cready c' y -> Q (c', vs, r) y) ->
  csim (Ring.io_read capacity (H1 := ordered 1) c n ws) (Ring.io_read capacity c n ws) Q x.
Proof.
  intros Hx HQ. unfold Ring.io_read. destruct n as [|n]; [eapply csim_ret; [exact Hx|]; intros; by apply HQ|].
  apply sim_bind, sim_try_pop_slice; [done|]. clear x c Hx. intros c vs x Hx. cbv beta iota. destruct (_ <? _).
  { eapply csim_ret; [exact Hx|]. intros; by apply HQ. }
  apply sim_bind, sim_pop; [done|]. clear x c Hx. intros c [v|] r x Hx.
  - apply sim_bind, sim_try_pop_slice; [done|]. clear x c Hx. intros c vs' x Hx.
    eapply csim_ret; [exact Hx|]. intros; by apply HQ.
  - eapply csim_ret; [exact Hx|]. intros; by apply HQ.
Qed.

Lemma sim_consumer_step c op Q x :
  exact_consumer_op op = true -> cready c x -> (forall c' vs pk y, cready c' y -> Q (c', vs, pk) y) ->
  csim (Ring.consumer_step capacity (H1 := ordered 1) c op) (Ring.consumer_step capacity c op) Q x.
Proof.
  intros Hop Hx HQ. destruct op; try done; [..|by apply sim_io_read]; apply sim_bind;
    first [apply sim_try_pop_inner|apply sim_try_pop_slice|apply sim_pop|apply sim_pop_slice_counted];
    try done; clear c x Hx; intros; (eapply csim_ret; [eassumption|]); intros; by apply HQ.
Qed.

Lemma sim_consumer_thread c ops acc x :
  Forall (fun op => exact_consumer_op op = true) ops -> cready c x ->
  csim (Ring.consumer_thread capacity (H1 := ordered 1) c ops acc) (Ring.consumer_thread capacity c ops acc) (fun _ _ => True) x.
Proof.
  intros Hops. revert c acc x. induction Hops as [|op ops Hop _ IH]; intros c acc x Hx; cbn [Ring.consumer_thread].
  { by eapply csim_ret. }
  apply sim_bind, sim_consumer_step; [done..|]. intros c' vs pk y Hy. by apply IH.
Qed.

(** ** Both threads *)
Lemma vinv_start cs : vinv (start cs, mkPos 0 0 0 0).
Proof.
  assert (forall r, r = producer_slot \/ r = consumer_slot -> forall a b, slot_ok r a b (mem (start cs))) as Hslot.
  { intros r Hr a b. destruct Hr as [-> | ->]; (split; [by left|intros _; apply Nat.le_refl..|done]). }
  split; cbn [fst snd]; [apply wf_fresh| |apply Hslot; by left|apply Hslot; by right].
  split; cbn [written staged consumed taken]; try done; try lia; intros; apply Nat.le_refl.
Qed.

Lemma abs_start cs : abs (start cs) = Ring.ring0 capacity.
Proof.
  unfold abs, Ring.ring0. f_equal; [|done..]. generalize 0 as i. unfold start, element_of.
  induction N as [|n IH]; intros i; [done|]. cbn [seq fmap list_fmap replicate]. by rewrite IH.
Qed.

Lemma weak_run cs sch pops cops :
  Forall (fun op => exact_producer_op op = true) pops -> Forall (fun op => exact_consumer_op op = true) cops ->
  exists s ps sch' ps', run_sched sch (start cs) (threads pops cops) = Done (s, ps) /\
    run_sched sch' (Ring.ring0 capacity) (Ring.ring_threads capacity pops cops) = Done (abs s, ps') /\
    forall i a, ps !! i = Some (Ret a) -> ps' !! i = Some (Ret a).
Proof.
  intros Hp Hc. rewrite <-(abs_start cs).
  destruct (sim_run (fun _ : unit => abs) rely guar (fun _ _ _ => True) sch (start cs) (mkPos 0 0 0 0) (threads pops cops)
    (Ring.ring_threads capacity pops cops)) as (s & ps & sch' & ps' & pre & Hrun & Hrun' & Hret).
  - intros i j y y'. apply weak_guar_rely.
  - pose proof (vinv_start cs) as Hi. pose proof (vi_views _ Hi) as Hv. split; [done|].
    intros [|[|i]] q p Hq Hp'; simpl in Hq, Hp'; [injection Hq as <-; injection Hp' as <-..|done].
    + apply sim_producer_thread; [done|]. exists 0, 0. split; [done|]. split; try done; cbn; try lia.
      intros j _. apply Nat.le_refl.
    + apply sim_consumer_thread; [done|]. exists 0, 0. split; [done|]. split; try done; cbn; try lia.
  - intros _ sch'. rewrite abs_start. destruct (Ring.ring_run capacity e He Hcap sch' pops cops) as (s & ps & _ & Hrun & _).
    by exists s, ps.
  - exists s, ps, sch', ps'. by split_and!; [|apply (Hrun' tt)|].
Qed.
End ring.
Section theorems.
Context `{BuildMode} `{Wk : Wakers} {T : Type}.

(** C3: with the orderings of the source, the ring buffer behaves as under
    sequential consistency. Take any operations of the producer and of the consumer
    other than the counts, any schedule of their accesses, and any choice of what
    the loads return among the stores their ordering allows. No element is accessed
    in a data race and nothing is undefined or panics; and some schedule of the
    sequentially consistent threads ends in the same state, with every thread that
    returned having returned the same there. *)
Theorem weak_ring_refines (capacity size_of : Z) (s0 : Ring.RingBufferShared) (pops : list (Ring.producer_op (T := T)))
    (cops : list Ring.consumer_op) (choices sch : list nat) :
  Ring.new (T := T) capacity size_of = Done s0 -> (0 <= size_of)%Z ->
  Forall (fun op => exact_producer_op op = true) pops -> Forall (fun op => exact_consumer_op op = true) cops ->
  exists s ps sch' ps', run_sched sch (start choices) (threads capacity pops cops) = Done (s, ps) /\
    run_sched sch' s0 (Ring.ring_threads capacity pops cops) = Done (abs capacity s, ps') /\
    forall i a, ps !! i = Some (Ret a) -> ps' !! i = Some (Ret a).
Proof.
  intros Hnew Hs0 Hp Hc. destruct (Ring.new_capacity _ _ _ Hnew Hs0) as (-> & e & He & Hcap).
  by apply (weak_run capacity e He Hcap).
Qed.

(** C4: on the memory with orderings, the ring buffer is a lossless FIFO that loses
    no wakeup: for any operations but the counts, any schedule and any choice of
    what loads return, no access is a data race; and when both threads are done,
    what was received is a prefix of what was accepted, no more than the capacity is
    in flight, and a side that is parked although it could go on has been woken
    during or after the poll that parked it. *)
Theorem weak_ring_correct (capacity size_of : Z) (s0 : Ring.RingBufferShared) (pops : list (Ring.producer_op (T := T)))
    (cops : list Ring.consumer_op) (choices sch : list nat) :
  Ring.new (T := T) capacity size_of = Done s0 -> (0 <= size_of)%Z ->
  Forall (fun op => exact_producer_op op = true) pops -> Forall (fun op => exact_consumer_op op = true) cops ->
  exists s ps, run_sched sch (start choices) (threads capacity pops cops) = Done (s, ps) /\
    forall pr cr, ps = [Ret pr; Ret cr] ->
      (cr.1 `prefix_of` pr.1 /\ length pr.1 <= length cr.1 + Z.to_nat capacity) /\
      (forall w k, cr.2 = Some (w, k) -> length cr.1 < length pr.1 ->
        Notify.fired_since w k (fired s (state_at consumer_slot))) /\
      (forall w k, pr.2 = Some (w, k) -> length pr.1 < length cr.1 + Z.to_nat capacity ->
        Notify.fired_since w k (fired s (state_at producer_slot))).
Proof.
  intros Hnew Hs0 Hp Hc. destruct (Ring.new_capacity _ _ _ Hnew Hs0) as (-> & e & He & Hcap).
  destruct (weak_run capacity e He Hcap choices sch pops cops Hp Hc) as (s & ps & sch' & ps' & Hrun & Hrun' & Hret).
  exists s, ps. split; [done|]. intros pr cr ->.
  destruct (Ring.ring_end capacity e He Hcap sch' pops cops) as (s' & ps'' & Hend & Hres).
  rewrite Hrun' in Hend. injection Hend as <- <-. rewrite (both_returned _ _ _ _ eq_refl Hret (run_sched_length _ _ _ _ _ Hrun')) in Hres.
  destruct (Hres pr cr eq_refl) as ((? & ? & _) & Hcw & Hpw). done.
Qed.
End theorems.
(** ** A run

    The consumer parks and is woken; the producer waits for room. Every load reads
    three stores back if its ordering allows it. *)
#[local] Instance nat_wakers : Wakers := {| waker := nat; will_wake := Nat.eqb |}.
#[local] Existing Instance debug_build.

Definition old_loads : list nat := replicate 100 3.
Definition weak_sch : list nat := replicate 12 1 ++ concat (replicate 100 [0; 1]).
Definition weak_pops : list (Ring.producer_op (H0 := nat_wakers) (T := nat)) :=
  [Ring.PushSlice [1; 2; 3] [50; 50]; Ring.Push 4 [51; 51]; Ring.TryPush 5].
Definition weak_cops : list (Ring.consumer_op (H0 := nat_wakers)) :=
  [Ring.Pop [60; 60; 60]; Ring.PopSlice 2 [61; 61; 61]; Ring.TryPop].

Definition weak_received : list nat * option (nat * nat) := ([1; 2; 3; 4], None).

Lemma weak_ring_refines_witness : exists s sch' ps',
  run_sched weak_sch (start (Wk := nat_wakers) old_loads) (threads (T := nat) 2 weak_pops weak_cops) =
    Done (s, [Ret ([1; 2; 3; 4; 5], None); Ret weak_received]) /\
  run_sched sch' (Ring.ring0 2) (Ring.ring_threads (H0 := nat_wakers) 2 weak_pops weak_cops) = Done (abs 2 s, ps').
Proof.
  destruct (weak_ring_refines (Wk := nat_wakers) 2 8 (Ring.ring0 2) weak_pops weak_cops old_loads weak_sch)
    as (s & ps & sch' & ps' & Hrun & Hrun' & _); [reflexivity|lia|repeat constructor..|].
  assert (ps = [Ret ([1; 2; 3; 4; 5], None); Ret weak_received]) as Heq.
  { pose proof (f_equal (fun o => match o with Done x => x.2 | _ => [] end) Hrun) as Hx. vm_compute in Hx. symmetry. exact Hx. }
  exists s, sch', ps'. split; [rewrite <-Heq; exact Hrun|exact Hrun'].
Defined.

(** The consumer parks for good before the producer pushes. *)
Definition weak_park_sch : list nat := replicate 40 1 ++ replicate 40 0.
Definition weak_park_pops : list (Ring.producer_op (H0 := nat_wakers) (T := nat)) := [Ring.TryPush 7].
Definition weak_park_cops : list (Ring.consumer_op (H0 := nat_wakers)) := [Ring.Pop [60]].
Definition weak_parked : list nat * option (nat * nat) := ([], Some (60, 0)).

Lemma weak_ring_correct_witness : exists s,
  run_sched weak_park_sch (start (Wk := nat_wakers) old_loads) (threads (T := nat) 2 weak_park_pops weak_park_cops) =
    Done (s, [Ret ([7], None); Ret weak_parked]) /\
  Notify.fired_since (H0 := nat_wakers) 60 0 (fired s (state_at consumer_slot)).
Proof.
  destruct (weak_ring_correct (Wk := nat_wakers) 2 8 (Ring.ring0 2) weak_park_pops weak_park_cops old_loads weak_park_sch)
    as (s & ps & Hrun & Hps); [reflexivity|lia|repeat constructor..|].
  assert (ps = [Ret ([7], None); Ret weak_parked]) as Heq.
  { pose proof (f_equal (fun o => match o with Done x => x.2 | _ => [] end) Hrun) as Hx. vm_compute in Hx. symmetry. exact Hx. }
  exists s. split; [rewrite <-Heq; exact Hrun|]. destruct (Hps _ _ Heq) as (_ & Hc & _). apply (Hc 60 0 eq_refl). apply Nat.lt_0_succ.
Defined.
End WeakRing.
