(* ===== verification/WeakOneShot.v ===== *)
(** * [oneshot] with its memory orderings ([src/site_d/oneshot.rs])

    [Module WeakOneShot]: the operations of [OneShot.v] over the memory of
    [WeakMemory.v]. The instance [ordered] of [OneShot.Accesses] performs each
    access with the ordering of the source; the value cell, and the state in
    [Drop for Inner], are accessed by plain accesses that must not race. Sender and
    receiver refine the threads of [OneShot.v], in which only the sender's
    [Acquire] loads may be out of date. *)
From stdpp Require Import base list gmap numbers relations functions strings.
From S2P Require Import Prelude WaitList Concurrency Notify OneShot Simulation WeakMemory WeakNotify.

Module WeakOneShot.
Import Weak WeakNotify.

(** The locations of [Inner] and of its reference count. [Dropped] records the
    values dropped with the channel. *)
Inductive recv_part : Type := State | Cell | Flag.
Inductive location : Type :=
| Value
| Status
| Strong
| Dropped
| Recv (p : recv_part).
#[global] Instance recv_part_eq_dec : EqDecision recv_part.
Proof. solve_decision. Defined.
#[global] Instance location_eq_dec : EqDecision location.
Proof. solve_decision. Defined.

Section oneshot.
Context `{BuildMode} `{Wk : Wakers} {T : Type}.

Inductive value : Type :=
| Int (z : Z)
| Count (n : nat)
| Bool (b : bool)
| Registered (w : option waker)
| Element (v : option T)
| Elements (vs : list T).
#[global] Instance stored_int : Stored value Z :=
  {| inject := Int; project v := match v with Int z => z | _ => 0%Z end;
     project_inject _ := eq_refl |}.
#[global] Instance stored_count : Stored value nat :=
  {| inject := Count; project v := match v with Count n => n | _ => 0 end;
     project_inject _ := eq_refl |}.
#[global] Instance stored_bool : Stored value bool :=
  {| inject := Bool; project v := match v with Bool b => b | _ => false end;
     project_inject _ := eq_refl |}.
#[global] Instance stored_waker : Stored value (option waker) :=
  {| inject := Registered; project v := match v with Registered w => w | _ => None end;
     project_inject _ := eq_refl |}.
#[global] Instance stored_element : Stored value (option T) :=
  {| inject := Element; project v := match v with Element o => o | _ => None end;
     project_inject _ := eq_refl |}.
#[global] Instance stored_elements : Stored value (list T) :=
  {| inject := Elements; project v := match v with Elements vs => vs | _ => [] end;
     project_inject _ := eq_refl |}.

Abbreviation machine := (machine (L := location) (V := value)).
Abbreviation memory := (memory (L := location) (V := value)).

Definition recv : Locations location := mkLocations _ (Recv State) (Recv Cell) (Recv Flag).

(** [oneshot]: both handles hold the [Arc]. *)
Definition initial (l : location) : value :=
  match l with
  | Value => Element None
  | Status => Int 0
  | Strong => Count 2
  | Dropped => Elements []
  | Recv State => Int Notify.WAITING
  | Recv Cell => Registered None
  | Recv Flag => Bool false
  end.
Definition start (choices : list nat) : machine := mkMachine (fresh initial choices) (fun _ => []).

(** ** Accesses of thread [t] *)
Section accesses.
Context (t : nat).

(** A plain read. *)
Definition peek (A : Type) `{!Stored value A} (l : location) (m : memory) : outcome (memory * A) :=
  plain t l (fun x => (x, project x)) m.

(** [Drop for Inner]: [get_mut] is a plain access, since the state is no longer
    shared. *)
Definition drop_inner (m : memory) : outcome memory :=
  '(m, st) ← peek Z Status m;
  if OneShot.has st OneShot.VALUE_SET && negb (OneShot.has st OneShot.TAKEN) then
    '(m, o) ← peek (option T) Value m;
    match o with
    | Some v => '(m, _) ← plain t Dropped (fun vs => (inject (project vs ++ [v]), tt)) m; Done m
    | None => Undefined
    end
  else Done m.

(** Dropping a handle's [Arc]: the reference count goes down; the last one to do so
    has acquired what the other one released, and nothing else runs. *)
Definition release_arc (s : machine) : outcome machine :=
  let '(m, n) := update t AcqRel Strong (fun n => inject (pred (project n))) (mem s) in
  match project (A := nat) n with
  | 0 => Undefined
  | 1 => m ← drop_inner m; Done (mkMachine m (fired s))
  | _ => Done (mkMachine m (fired s))
  end.
Definition drop_arc : prog machine unit := act (fun s => s ← release_arc s; Done (s, tt)).

Definition read_cell : prog machine T :=
  act (fun s =>
    '(m, o) ← peek (option T) Value (mem s);
    match o with Some v => Done (mkMachine m (fired s), v) | None => Undefined end).

Definition ordered : OneShot.Accesses (T := T) machine := {|
  OneShot.acquire_state := load_as Z t Acquire Status;
  OneShot.load_state := load_as Z t SeqCst Status;
  OneShot.publish_state st := store_as t SeqCst Status st;
  OneShot.mark_taken st := store_as t Relaxed Status st;
  OneShot.or_state bit := update_as t SeqCst Status (fun st => Z.lor st bit);
  OneShot.write_cell v := plain_as t Value (fun _ : option T => (Some v, tt));
  OneShot.read_cell := read_cell;
  OneShot.arm := arm t recv;
  OneShot.disarm := disarm t recv;
  OneShot.signal := signal t recv;
  OneShot.release := drop_arc;
  OneShot.fired_count := Concurrency.load (fun s => length (fired s (Recv State)))
|}.
End accesses.

(** The sender is thread 0 and the receiver thread 1. *)
Definition threads (checks : nat) (o : option T) (ops : list OneShot.receiver_op) (drops : bool) :
    list (prog machine OneShot.ended) :=
  [OneShot.sender_thread (H1 := ordered 0) checks o;
   OneShot.receiver_thread (H1 := ordered 1) ops drops [] None].

(** ** The state a memory holds *)
Definition status_of (m : memory) : Z := project (latest m Status).

Definition abs (misses : list Z) (s : machine) : OneShot.Inner (T := T) :=
  OneShot.mkInner (project (latest (mem s) Value)) (status_of (mem s)) (slot_of recv (mem s))
    (project (latest (mem s) Strong)) (project (latest (mem s) Dropped)) (fired s (Recv State)) misses.

(** ** Views

    Whether the value was published, and which threads have dropped their handle. *)
Record progress : Type := mkProgress { sent : bool; gone : nat -> bool }.
Definition is_slot (l : location) : Prop := match l with Recv _ => True | _ => False end.

(** What the sender may still read differs from the newest state in the receiver's
    bits only. *)
Record status_ok (m : memory) (g : progress) (b c d : bool) : Prop := {
  st_newest : status_of m = OneShot.enc (sent g) b c d;
  st_older i : gone g 0 = false -> seen m 0 Status <= i <= newest m Status ->
    exists c' d', project (val (history m Status i)) = OneShot.enc (sent g) b c' d' /\
      (c' = true -> c = true) /\ (d' = true -> d = true)
}.

Record core (m : memory) (g : progress) : Prop := {
  co_wf : wf m;
  co_status : exists b c d, status_ok m g b c d;
  co_newest : gone g 1 = false -> last_sc m Status = newest m Status \/ covers (seen m 1) m Status;
  co_open : gone g 0 = false -> sent g = false -> covers (seen m 0) m Value;
  co_sent : gone g 1 = false -> sent g = true ->
    covers (published (newest_message m Status)) m Value \/ covers (seen m 1) m Value;
  co_strong : project (latest m Strong) = Nat.b2n (negb (gone g 0)) + Nat.b2n (negb (gone g 1));
  co_joint l : l = Status \/ l = Value -> newest m l <= Nat.max (seen m 0 l) (seen m 1 l);
  co_passed t t' : t < 2 -> t' < 2 -> gone g t = true -> gone g t' = false -> view_le (seen m t) (published (newest_message m Strong));
  co_dropped t : t < 2 -> gone g t = false -> newest m Dropped = 0
}.

Abbreviation config := (machine * progress)%type.
Definition vinv (x : config) : Prop := core (mem x.1) x.2 /\ slot_ok recv 1 0 (mem x.1).

Lemma recv_distinct : distinct recv.
Proof. by split. Qed.
Lemma of_recv l : of_slot recv l -> is_slot l.
Proof. by intros [->|[->| ->]]. Qed.

Lemma recv_abs misses : SlotAbs (abs misses) recv OneShot.recv_ref.
Proof.
  split; [done|done| | |by intros []].
  - intros s m Hm. unfold abs, status_of. cbn. by rewrite !Hm by by intros [?|[?|?]].
  - intros s w. unfold abs. cbn. by rewrite fn_lookup_insert.
Qed.

(** An access to the slot, by a thread that still holds its handle. *)
Lemma core_frame t X m m' g : touches t X m m' -> (forall l, X l -> is_slot l) -> gone g t = false -> core m g -> core m' g.
Proof.
  intros Ht HX Hg [Hw (b & c & d & Hst & Hold) Hn Ho Hs Hstr Hj Hp Hd].
  assert (~ X Status /\ ~ X Value /\ ~ X Strong /\ ~ X Dropped) as (Hxs & Hxv & Hxr & Hxd).
  { split_and!; intros Hx; by apply HX in Hx. }
  pose proof (touches_seen _ _ _ _ 0 Ht) as Hs0. pose proof (touches_seen _ _ _ _ 1 Ht) as Hs1. split.
  - apply Ht.
  - exists b, c, d. split.
    + unfold status_of. by rewrite (touches_latest _ _ _ _ _ Ht).
    + intros i Hg0. rewrite (to_newest _ _ _ _ Ht), (to_history _ _ _ _ Ht) by done. intros Hi. apply Hold; [done|].
      specialize (Hs0 Status). lia.
  - intros Hg1. rewrite (to_sc _ _ _ _ Ht), (to_newest _ _ _ _ Ht) by done.
    destruct (Hn Hg1) as [?|?]; [by left|right]. by eapply covers_seen.
  - intros Hg0 Hopen. eapply covers_seen; [exact Ht|done|auto].
  - intros Hg1 Hsent. rewrite (to_message _ _ _ _ _ Ht) by done. destruct (Hs Hg1 Hsent) as [?|?]; [left|right].
    + eapply covers_same; [by eapply to_newest|done].
    + by eapply covers_seen.
  - by rewrite (touches_latest _ _ _ _ _ Ht).
  - intros l Hl. rewrite (to_newest _ _ _ _ Ht) by (destruct Hl as [-> | ->]; done). specialize (Hj l Hl).
    specialize (Hs0 l). specialize (Hs1 l). lia.
  - intros t1 t2 Ht1 Ht2 Hg1 Hg2. rewrite (to_message _ _ _ _ _ Ht), (to_others _ _ _ _ Ht); [by eapply Hp|congruence|done].
  - intros t1 Ht1 Hg1. rewrite (to_newest _ _ _ _ Ht) by done. by eapply Hd.
Qed.
(** An access to the state, by a thread that has seen it afterwards. *)
Lemma core_status t m m' g sn b c d :
  core m g -> gone g t = false -> t < 2 -> touches t (eq Status) m m' -> covers (seen m' t) m' Status ->
  let g' := mkProgress sn (gone g) in status_ok m' g' b c d ->
  (gone g 1 = false -> last_sc m' Status = newest m' Status \/ covers (seen m' 1) m' Status) ->
  (sn = false -> sent g = false) ->
  (gone g 1 = false -> sn = true -> covers (published (newest_message m' Status)) m' Value \/ covers (seen m' 1) m' Value) ->
  core m' g'.
Proof.
  intros [Hw _ _ Ho _ Hstr Hj Hp Hd] Hg Ht2 Ht Hcov g' Hst Hn Hsn Hs.
  pose proof (touches_seen _ _ _ _ 0 Ht) as Hs0. pose proof (touches_seen _ _ _ _ 1 Ht) as Hs1.
  split; cbn [g' sent gone] in *; [apply Ht|by exists b, c, d|done| |done|..].
  - intros Hg0 Hopen. eapply covers_seen; [exact Ht|done|auto].
  - by rewrite (touches_latest _ _ _ _ _ Ht).
  - intros l [-> | ->].
    + unfold covers in Hcov. assert (t = 0 \/ t = 1) as [-> | ->] by lia; lia.
    + rewrite (to_newest _ _ _ _ Ht) by done. specialize (Hj Value (or_intror eq_refl)). specialize (Hs0 Value). specialize (Hs1 Value). lia.
  - intros t1 t2 Ht1 Hlt Hg1 Hg2. rewrite (to_message _ _ _ _ _ Ht), (to_others _ _ _ _ Ht); [by eapply Hp|congruence|done].
  - intros t1 Ht1 Hg1. rewrite (to_newest _ _ _ _ Ht) by done. by eapply Hd.
Qed.

(** An access to the value by the thread it belongs to. *)
Lemma core_value t m m' g :
  core m g -> gone g t = false -> t < 2 -> touches t (eq Value) m m' -> covers (seen m' t) m' Value ->
  (sent g = false -> t = 0) -> (sent g = true -> t = 1) -> core m' g.
Proof.
  intros [Hw (b & c & d & Hst & Hold) Hn Ho Hs Hstr Hj Hp Hd] Hg Ht2 Ht Hcov H0 H1.
  pose proof (touches_seen _ _ _ _ 0 Ht) as Hs0. pose proof (touches_seen _ _ _ _ 1 Ht) as Hs1. split.
  - apply Ht.
  - exists b, c, d. split; [unfold status_of; by rewrite (touches_latest _ _ _ _ _ Ht)|].
    intros i Hg0. rewrite (to_newest _ _ _ _ Ht), (to_history _ _ _ _ Ht) by done. intros Hi. apply Hold; [done|].
    specialize (Hs0 Status). lia.
  - intros Hg1. rewrite (to_sc _ _ _ _ Ht), (to_newest _ _ _ _ Ht) by done.
    destruct (Hn Hg1) as [?|?]; [by left|right]. by eapply covers_seen.
  - intros Hg0 Hopen. by rewrite (H0 Hopen) in Hcov.
  - intros Hg1 Hsent. right. by rewrite (H1 Hsent) in Hcov.
  - by rewrite (touches_latest _ _ _ _ _ Ht).
  - intros l [-> | ->].
    + rewrite (to_newest _ _ _ _ Ht) by done. specialize (Hj Status (or_introl eq_refl)). specialize (Hs0 Status). specialize (Hs1 Status). lia.
    + unfold covers in Hcov. assert (t = 0 \/ t = 1) as [-> | ->] by lia; lia.
  - intros t1 t2 Ht1 Hlt Hg1 Hg2. rewrite (to_message _ _ _ _ _ Ht), (to_others _ _ _ _ Ht); [by eapply Hp|congruence|done].
  - intros t1 Ht1 Hg1. rewrite (to_newest _ _ _ _ Ht) by done. by eapply Hd.
Qed.

(** After a store of its own a thread sees nothing older. *)
Lemma status_alone m g b c d : covers (seen m 0) m Status -> status_of m = OneShot.enc (sent g) b c d -> status_ok m g b c d.
Proof.
  intros Hc Hst. split; [done|]. intros i _ Hi. unfold covers in Hc. assert (i = newest m Status) as -> by lia.
  by exists c, d.
Qed.

(** A store of the receiver adds bits that an older state does not have. *)
Lemma status_more t o inh v m g b c d c' d' :
  t <> 0 -> status_ok m g b c d -> (c = true -> c' = true) -> (d = true -> d' = true) ->
  project v = OneShot.enc (sent g) b c' d' -> status_ok (append t o Status inh v m) g b c' d'.
Proof.
  intros Ht [Hst Hold] Hc Hd Hv. split; [unfold status_of; by rewrite latest_append|].
  intros i Hg Hi. rewrite newest_append, fn_lookup_insert in Hi. cbn [seen append] in Hi.
  rewrite fn_lookup_insert_ne in Hi by done. destruct (decide (i = S (newest m Status))) as [->|Hne].
  - exists c', d'. split; [|done]. cbn. by rewrite !fn_lookup_insert.
  - rewrite history_append by lia. destruct (Hold i Hg) as (c0 & d0 & ? & ? & ?); [lia|]. exists c0, d0. auto.
Qed.

Lemma abs_status h t s (m' : memory) : touches t (eq Status) (mem s) m' ->
  abs h (mkMachine m' (fired s)) = OneShot.set_state (status_of m') (abs h s).
Proof.
  intros Ht. assert (forall l, Status <> l -> latest m' l = latest (mem s) l) as Hl by (intros l; by apply touches_latest with (t := t)).
  unfold abs, OneShot.set_state, slot_of. cbn. rewrite (Hl Value), (Hl Strong), (Hl Dropped), !(Hl (Recv _)) by done. done.
Qed.

Lemma abs_unchanged h s (m' : memory) : (forall l, latest m' l = latest (mem s) l) -> abs h (mkMachine m' (fired s)) = abs h s.
Proof. intros Hl. unfold abs, slot_of, status_of. cbn. by rewrite !Hl. Qed.

(** ** Moves *)
Record sender_move (x x' : config) : Prop := {
  sm_inv : vinv x';
  sm_gone : gone x'.2 1 = gone x.2 1;
  sm_seen : gone x.2 1 = false -> seen (mem x'.1) 1 = seen (mem x.1) 1;
  sm_sent : gone x.2 1 = false -> sent x.2 = true ->
    sent x'.2 = true /\ status_of (mem x'.1) = status_of (mem x.1) /\ newest (mem x'.1) Value = newest (mem x.1) Value;
  sm_slot : waiter_holds recv (mem x.1) -> waiter_holds recv (mem x'.1)
}.
Record receiver_move (x x' : config) : Prop := {
  rm_inv : vinv x';
  rm_gone : gone x'.2 0 = gone x.2 0;
  rm_sent : sent x'.2 = sent x.2;
  rm_slot : signaller_holds recv (mem x.1) -> signaller_holds recv (mem x'.1)
}.

Definition guar (i : nat) (x x' : config) : Prop :=
  match i with 0 => vinv x -> sender_move x x' | 1 => vinv x -> receiver_move x x' | _ => False end.
Definition rely (i : nat) (x x' : config) : Prop :=
  match i with 0 => guar 1 x x' | 1 => guar 0 x x' | _ => True end.

Lemma weak_oneshot_guar_rely i j x x' : i <> j -> guar i x x' -> rely j x x'.
Proof. destruct i as [|[|i]], j as [|[|j]]; simpl; try done; lia. Qed.

(** The sender still has its handle, and has published or not. *)
Definition sending (sn : bool) (x : config) : Prop := vinv x /\ gone x.2 0 = false /\ sent x.2 = sn.

(** The receiver still has its handle. *)
Definition receiving (x : config) : Prop := vinv x /\ gone x.2 1 = false.

(** The receiver has seen that the value is published; nobody else touches it or
    the state [st]. *)
Definition owning (st : Z) (x : config) : Prop :=
  receiving x /\ sent x.2 = true /\ covers (seen (mem x.1) 1) (mem x.1) Value /\ status_of (mem x.1) = st.

Lemma weak_sending_stable sn : stable (rely 0) (sending sn).
Proof. intros x x' (Hi & Hg & Hs) Hm. destruct (Hm Hi). split_and!; [done|congruence..]. Qed.

Lemma weak_receiving_stable : stable (rely 1) receiving.
Proof. intros x x' (Hi & Hg) Hm. destruct (Hm Hi). split; [done|congruence]. Qed.

Lemma weak_owning_stable st : stable (rely 1) (owning st).
Proof.
  intros x x' (Hr & Hs & Hc & Hst) Hm. pose proof (weak_receiving_stable _ _ Hr Hm) as Hr'. destruct Hr as [Hi Hg].
  destruct (Hm Hi) as [_ _ Hse Hsent _]. destruct (Hsent Hg Hs) as (? & ? & Hn). split_and!; [done|done| |congruence].
  rewrite (Hse Hg). by eapply covers_same.
Qed.

Lemma slot_frame t X m m' : touches t X m m' -> (forall l, X l -> ~ is_slot l) -> slot_ok recv 1 0 m -> slot_ok recv 1 0 m'.
Proof. intros Ht HX. eapply ok_frame; [exact Ht|]. intros l Hl Hs. apply (HX l Hl). by apply of_recv. Qed.

Lemma held_kept t X (m m' : memory) : touches t X m m' -> (forall l, X l -> ~ is_slot l) -> state_of recv m' = state_of recv m.
Proof. intros Ht HX. unfold state_of. rewrite (touches_latest _ _ _ _ _ Ht); [done|]. intros Hx. by apply (HX _ Hx). Qed.
Lemma vinv_slot_move t x x' : slot_move recv 1 0 t x x' -> gone x.2 t = false -> vinv x -> vinv x'.
Proof.
  intros [Ht Hok Hg _ _] Hgone [Hc _]. split; [|done]. rewrite Hg. eapply core_frame; [exact Ht|apply of_recv|done|done].
Qed.

Lemma env_sending sn : SlotEnv recv 1 0 0 (signaller_holds recv) (sending sn) (rely 0) (guar 0).
Proof.
  split.
  - intros x (Hi & _). split; [apply (co_wf _ _ (proj1 Hi))|apply Hi].
  - intros x x' Hx Hm. split; [by eapply weak_sending_stable|]. apply (rm_slot _ _ (Hm (proj1 Hx))).
  - intros x x' (Hi & Hg & Hs) Hm. pose proof (vinv_slot_move _ _ _ Hm Hg Hi) as Hi'. pose proof Hm as [Ht _ Hgh Hw _].
    assert (forall l, is_slot l \/ of_slot recv l -> is_slot l) as Hof by (intros l [?|?]; [done|by apply of_recv]).
    split; [|split_and!; [done|by rewrite Hgh..]]. intros _. split; [done|by rewrite Hgh| | |by apply Hw].
    + intros _. by apply (to_others _ _ _ _ Ht).
    + intros _ Hsent. rewrite Hgh. unfold status_of. rewrite (touches_latest _ _ _ _ _ Ht) by (intros Hx; by apply of_recv in Hx).
      rewrite (to_newest _ _ _ _ Ht) by (intros Hx; by apply of_recv in Hx). done.
Qed.

Lemma env_receiving : SlotEnv recv 1 0 1 (waiter_holds recv) receiving (rely 1) (guar 1).
Proof.
  split.
  - intros x (Hi & _). split; [apply (co_wf _ _ (proj1 Hi))|apply Hi].
  - intros x x' Hx Hm. split; [by eapply weak_receiving_stable|]. apply (sm_slot _ _ (Hm (proj1 Hx))).
  - intros x x' (Hi & Hg) Hm. pose proof (vinv_slot_move _ _ _ Hm Hg Hi) as Hi'. pose proof Hm as [_ _ Hgh _ Hs].
    split; [|split; [done|by rewrite Hgh]]. intros _. split; [done|by rewrite Hgh..|by apply Hs].
Qed.

(** ** Accesses of the sender *)
Abbreviation ssim := (sim abs (rely 0) (guar 0)).
Abbreviation rsim := (sim abs (rely 1) (guar 1)).

Lemma missing_of a b c d c' d' : (c' = true -> c = true) -> (d' = true -> d = true) ->
  exists bits, OneShot.missing bits (OneShot.enc a b c d) = OneShot.enc a b c' d'.
Proof.
  intros Hc Hd. exists ((if c' then 0 else 4) + (if d' then 0 else 8))%Z.
  destruct c', d'; rewrite ?Hc, ?Hd by done; by destruct a, b, c, d.
Qed.

Lemma load_quiet t o l (m : memory) : wf m -> touches t (fun _ => False) m (load t o l m).1 /\ forall l', latest (load t o l m).1 l' = latest m l'.
Proof. intros Hw. split; [by apply load_touches|done]. Qed.

Lemma vinv_oneshot_quiet t s m g : touches t (fun _ => False) (mem s) m -> gone g t = false -> vinv (s, g) -> vinv (mkMachine m (fired s), g).
Proof.
  intros Ht Hg [Hc Hok]. split; cbn [mem fst snd] in *; [by eapply core_frame|by eapply ok_quiet].
Qed.

Lemma sim_acquire sn Q x :
  sending sn x -> (forall b c d y, sending sn y -> Q (OneShot.enc sn b c d) y) ->
  ssim (load_as Z 0 Acquire Status) OneShot.load_acquire Q x.
Proof.
  intros Hx HQ. apply (sim_act abs _ _ _ _ _ _ (sending sn)); [apply weak_sending_stable|done|]. clear x Hx.
  intros s g Hx. pose proof Hx as (Hi & Hg & Hs). pose proof (proj1 Hi) as Hco. cbn [fst snd] in *.
  pose proof (co_wf _ _ Hco) as Hw. destruct (co_status _ _ Hco) as (b & c & d & [Hst Hold]).
  set (i := chosen 0 Acquire Status (mem s)).
  destruct (Hold i Hg) as (c' & d' & Hval & Hc & Hd).
  { split; [|by apply chosen_le]. unfold i, chosen. cbn. lia. }
  rewrite Hs in Hst, Hval. destruct (missing_of sn b c d c' d' Hc Hd) as [bits Hbits].
  exists (cons bits). intros _. set (m' := (load 0 Acquire Status (mem s)).1).
  destruct (load_quiet 0 Acquire Status (mem s) Hw) as [Ht Hl].
  assert (vinv (mkMachine m' (fired s), g)) as Hi' by by apply (vinv_oneshot_quiet 0).
  exists (mkMachine m' (fired s)), (OneShot.enc sn b c' d'), g, (OneShot.enc sn b c' d'). split_and!.
  - by rewrite <-Hval.
  - intros h. rewrite (abs_unchanged h s m' Hl).
    change (Done (abs h s, OneShot.missing bits (status_of (mem s))) = Done (abs h s, OneShot.enc sn b c' d')).
    by rewrite Hst, Hbits.
  - intros _. split; [done|done| | |].
    + intros _. by apply (to_others _ _ _ _ Ht).
    + intros _ ?. done.
    + done.
  - eapply sim_ret; [apply weak_sending_stable| |intros y Hy; by apply HQ]. by split_and!.
Qed.

Lemma sim_publish b c d Q x :
  sending false x -> (forall y, sending true y -> Q tt y) ->
  ssim (store_as 0 SeqCst Status (OneShot.enc true b c d)) (Concurrency.store (OneShot.set_state (OneShot.enc true b c d))) Q x.
Proof.
  intros Hx HQ. apply (sim_act abs _ _ _ _ _ _ (sending false)); [apply weak_sending_stable|done|]. clear x Hx.
  intros s g (Hi & Hg & Hs). pose proof Hi as [Hco Hok]. cbn [fst snd] in *. pose proof (co_wf _ _ Hco) as Hw.
  exists id. intros _. set (m' := store 0 SeqCst Status (inject (OneShot.enc true b c d)) (mem s)).
  assert (touches 0 (eq Status) (mem s) m') as Ht by (apply append_touches; [done|apply nothing_le]).
  assert (status_of m' = OneShot.enc true b c d) as Hst by (unfold status_of, m'; rewrite latest_store; apply project_inject).
  assert (forall l, Status = l -> ~ is_slot l) as Hns by (intros l <-; by intros []).
  set (g' := mkProgress true (gone g)).
  assert (covers (seen m' 0) m' Status) as Hcov by apply covers_own.
  assert (vinv (mkMachine m' (fired s), g')) as Hi'.
  { split; [|by eapply slot_frame]. eapply (core_status 0 (mem s) m' g true); [done|done|lia|done|done|..].
    - by eapply status_alone.
    - intros _. left. apply sc_append.
    - done.
    - intros _ _. left. eapply covers_same; [by eapply to_newest|]. eapply covers_le; [by apply published_append|].
      by apply (co_open _ _ Hco). }
  exists (mkMachine m' (fired s)), tt, g', tt. split_and!; [done| | |].
  - intros h. by rewrite (abs_status h 0 s m' Ht), Hst.
  - intros _. split; [done|done| | |].
    + intros _. by apply (to_others _ _ _ _ Ht).
    + intros _ Hsent. cbn [snd] in Hsent. congruence.
    + cbn [mem fst]. unfold waiter_holds. by rewrite (held_kept _ _ _ _ Ht Hns).
  - eapply sim_ret; [apply (weak_sending_stable true)| |done]. by split_and!.
Qed.

Lemma sim_close Q x :
  sending false x -> (forall z y, sending false y -> Q z y) ->
  ssim (update_as 0 SeqCst Status (fun st => Z.lor st OneShot.SENDER_DROPPED)) (OneShot.fetch_or OneShot.SENDER_DROPPED) Q x.
Proof.
  intros Hx HQ. apply (sim_act abs _ _ _ _ _ _ (sending false)); [apply weak_sending_stable|done|]. clear x Hx.
  intros s g (Hi & Hg & Hs). pose proof Hi as [Hco Hok]. cbn [fst snd] in *. pose proof (co_wf _ _ Hco) as Hw.
  destruct (co_status _ _ Hco) as (b & c & d & [Hst _]). rewrite Hs in Hst.
  exists id. intros _.
  set (m' := (update 0 SeqCst Status (fun v => inject (Z.lor (project v) OneShot.SENDER_DROPPED)) (mem s)).1).
  assert (touches 0 (eq Status) (mem s) m') as Ht by by apply update_touches.
  assert (status_of m' = OneShot.enc false true c d) as Hst'.
  { unfold status_of, m'. rewrite latest_update, project_inject. change (project (latest (mem s) Status)) with (status_of (mem s)).
    rewrite Hst. apply OneShot.lor_enc. }
  assert (forall l, Status = l -> ~ is_slot l) as Hns by (intros l <-; by intros []).
  assert (vinv (mkMachine m' (fired s), mkProgress (sent g) (gone g))) as Hi'.
  { split; [|by eapply slot_frame]. eapply (core_status 0 (mem s) m' g (sent g)); [done|done|lia|done|apply covers_update|..].
    - eapply status_alone; [apply covers_update|]. cbn [sent]. rewrite Hs. exact Hst'.
    - intros _. left. apply sc_append.
    - done.
    - intros _ Hsent. congruence. }
  assert (mkProgress (sent g) (gone g) = g) as Hgg by by destruct g. rewrite Hgg in Hi'.
  exists (mkMachine m' (fired s)), (status_of (mem s)), g, (status_of (mem s)). split_and!; [done| | |].
  - intros h. rewrite (abs_status h 0 s m' Ht), Hst'.
    change (Done (OneShot.set_state (Z.lor (status_of (mem s)) OneShot.SENDER_DROPPED) (abs h s), status_of (mem s)) =
      Done (OneShot.set_state (OneShot.enc false true c d) (abs h s), status_of (mem s))).
    do 3 f_equal. rewrite Hst. apply OneShot.lor_enc.
  - intros _. split; [done|done| | |].
    + intros _. by apply (to_others _ _ _ _ Ht).
    + intros _ Hsent. cbn [snd] in Hsent. congruence.
    + cbn [mem fst]. unfold waiter_holds. by rewrite (held_kept _ _ _ _ Ht Hns).
  - eapply sim_ret; [apply (weak_sending_stable false)| |intros y Hy; by apply HQ]. by split_and!.
Qed.

Lemma sim_write_cell v Q x :
  sending false x -> (forall y, sending false y -> Q tt y) ->
  ssim (plain_as 0 Value (fun _ : option T => (Some v, tt))) (Concurrency.store (OneShot.set_value v)) Q x.
Proof.
  intros Hx HQ. apply (sim_act abs _ _ _ _ _ _ (sending false)); [apply weak_sending_stable|done|]. clear x Hx.
  intros s g (Hi & Hg & Hs). pose proof Hi as [Hco Hok]. cbn [fst snd] in *. pose proof (co_wf _ _ Hco) as Hw.
  exists id. intros _. set (m' := append 0 Relaxed Value nothing (inject (Some v)) (mem s)).
  assert (touches 0 (eq Value) (mem s) m') as Ht by (apply append_touches; [done|apply nothing_le]).
  assert (forall l, Value = l -> ~ is_slot l) as Hns by (intros l <-; by intros []).
  assert (vinv (mkMachine m' (fired s), g)) as Hi'.
  { split; [|by eapply slot_frame]. eapply (core_value 0); [done|done|lia|done|apply covers_own|done|cbn [snd]; congruence]. }
  exists (mkMachine m' (fired s)), tt, g, tt. split_and!.
  - cbn. rewrite plain_done by by try apply (co_open _ _ Hco). done.
  - intros h. assert (forall l, Value <> l -> latest m' l = latest (mem s) l) as Hl by (intros l; by apply touches_latest with (t := 0)).
    unfold abs, OneShot.set_value, status_of, slot_of. cbn. rewrite (Hl Status), (Hl Strong), (Hl Dropped), !(Hl (Recv _)) by done.
    unfold m'. rewrite latest_append. done.
  - intros _. split; [done|done| | |].
    + intros _. by apply (to_others _ _ _ _ Ht).
    + intros _ Hsent. cbn [snd] in Hsent. congruence.
    + cbn [mem fst]. unfold waiter_holds. by rewrite (held_kept _ _ _ _ Ht Hns).
  - eapply sim_ret; [apply (weak_sending_stable false)| |done]. by split_and!.
Qed.
(** ** Dropping the handles *)
Definition inner (l : location) : Prop := l = Status \/ l = Value \/ l = Dropped.

Lemma touches_inner t l (m m' : memory) : inner l -> touches t (eq l) m m' -> touches t inner m m'.
Proof. intros Hl. apply touches_weaken. by intros l' <-. Qed.

(** A plain access by a thread that has seen every access. *)
Lemma plain_covers {B} t l (f : value -> value * B) (m m' : memory) :
  m' = append t Relaxed l nothing (f (latest m l)).1 m -> wf m -> covers (seen m t) m l ->
  plain t l f m = Done (m', (f (latest m l)).2) /\ touches t (eq l) m m' /\
  (forall l', covers (seen m t) m l' -> covers (seen m' t) m' l').
Proof.
  intros -> Hw Hc.
  assert (touches t (eq l) m (append t Relaxed l nothing (f (latest m l)).1 m)) as Ht by (apply append_touches; [done|apply nothing_le]).
  split_and!; [by rewrite plain_done|done|]. intros l' Hc'.
  destruct (decide (l = l')) as [<-|Hne]; [apply covers_own|]. by eapply covers_seen.
Qed.

Lemma peek_ok t (A : Type) `{!Stored value A} l (m : memory) :
  wf m -> covers (seen m t) m l -> exists m', peek t A l m = Done (m', project (latest m l)) /\ touches t (eq l) m m' /\
  (forall l', latest m' l' = latest m l') /\ (forall l', covers (seen m t) m l' -> covers (seen m' t) m' l').
Proof.
  intros Hw Hc. destruct (plain_covers t l (fun x => (x, project (A := A) x)) m _ eq_refl Hw Hc) as (Hp & Ht & Hcov).
  eexists. split_and!; [exact Hp|exact Ht|intros l'; apply latest_reread|exact Hcov].
Qed.

Lemma abs_drop_inner h m f :
  OneShot.drop_inner (abs h (mkMachine m f)) =
  if OneShot.has (status_of m) OneShot.VALUE_SET && negb (OneShot.has (status_of m) OneShot.TAKEN) then
    match project (A := option T) (latest m Value) with
    | Some v => Done (OneShot.mkInner (Some v) (status_of m) (slot_of recv m) (project (latest m Strong))
        (project (latest m Dropped) ++ [v]) (f (Recv State)) h)
    | None => Undefined
    end
  else Done (abs h (mkMachine m f)).
Proof.
  unfold OneShot.drop_inner. destruct (_ && _); [|done].
  change (OneShot.value (abs h (mkMachine m f))) with (project (A := option T) (latest m Value)).
  by destruct (project (latest m Value)).
Qed.

Lemma drop_inner_ok t (m : memory) f :
  wf m -> (forall l, inner l -> covers (seen m t) m l) -> (exists h y, OneShot.drop_inner (abs h (mkMachine m f)) = Done y) ->
  exists m', drop_inner t m = Done m' /\
    (forall h, OneShot.drop_inner (abs h (mkMachine m f)) = Done (abs h (mkMachine m' f))) /\
    touches t inner m m' /\ latest m' Status = latest m Status /\ (forall l, inner l -> covers (seen m' t) m' l).
Proof.
  intros Hw Hc (h0 & y & Hy). rewrite abs_drop_inner in Hy. unfold drop_inner.
  destruct (peek_ok t Z Status m Hw) as (m1 & -> & Ht1 & Hl1 & Hc1); [apply Hc; by left|]. outcome_simpl.
  fold (status_of m). setoid_rewrite abs_drop_inner. destruct (_ && _) eqn:Hfull.
  2:{ exists m1. split_and!; [done| |by eapply touches_inner; [by left|]|apply Hl1|intros l Hl; apply Hc1, Hc, Hl].
      intros h. f_equal. symmetry. apply (abs_unchanged h (mkMachine m f)), Hl1. }
  destruct (peek_ok t (option T) Value m1) as (m2 & -> & Ht2 & Hl2 & Hc2); [apply Ht1|apply Hc1, Hc; right; by left|]. outcome_simpl.
  rewrite Hl1. destruct (project (latest m Value)) as [v|] eqn:Hv; [|done].
  destruct (plain_covers t Dropped (fun vs => (inject (project (A := list T) vs ++ [v]), tt)) m2 _ eq_refl) as (-> & Ht3 & Hc3);
    [apply Ht2|apply Hc2, Hc1, Hc; right; by right|]. outcome_simpl.
  set (m3 := append _ _ _ _ _ _) in *. exists m3.
  assert (forall l, l <> Dropped -> latest m3 l = latest m l) as Hl3.
  { intros l Hl. rewrite (touches_latest _ _ _ _ _ Ht3) by done. by rewrite Hl2, Hl1. }
  split_and!; [done| | |by apply Hl3|intros l Hl; apply Hc3, Hc2, Hc1, Hc, Hl].
  - intros h. f_equal. unfold abs, status_of, slot_of. cbn [mem fired]. rewrite !Hl3 by done. unfold m3. rewrite latest_append, Hv.
    cbn [fst]. by rewrite Hl2, Hl1.
  - eapply touches_trans; [eapply touches_inner; [by left|exact Ht1]|].
    eapply touches_trans; [eapply touches_inner; [by right; left|exact Ht2]|].
    eapply touches_inner; [by right; right|exact Ht3].
Qed.
Definition sides (t t' : nat) : Prop := t = 0 /\ t' = 1 \/ t = 1 /\ t' = 0.
Definition leave (t : nat) (g : progress) : progress := mkProgress (sent g) (<[t := true]> (gone g)).

(** Taking one off the reference count. *)
Definition decrement (t : nat) (m : memory) : memory :=
  (update t AcqRel Strong (fun n => inject (pred (project (A := nat) n))) m).1.

Lemma decrement_touches t m : wf m -> touches t (eq Strong) m (decrement t m).
Proof. intros Hw. by apply update_touches. Qed.

Lemma abs_decrement h t s : wf (mem s) -> abs h (mkMachine (decrement t (mem s)) (fired s)) =
  OneShot.mkInner (OneShot.value (abs h s)) (OneShot.state (abs h s)) (OneShot.recv (abs h s)) (pred (OneShot.strong (abs h s)))
    (OneShot.dropped (abs h s)) (OneShot.log (abs h s)) h.
Proof.
  intros Hw. pose proof (decrement_touches t _ Hw) as Ht.
  assert (forall l, Strong <> l -> latest (decrement t (mem s)) l = latest (mem s) l) as Hl by (intros l; by apply touches_latest with (t := t)).
  unfold abs, status_of, slot_of. cbn [mem fired OneShot.value OneShot.state OneShot.recv OneShot.strong OneShot.dropped OneShot.log].
  rewrite (Hl Value), (Hl Status), (Hl Dropped), (Hl (state_at recv)), (Hl (cell_at recv)), (Hl (armed_at recv)) by done. unfold decrement. rewrite latest_update. done.
Qed.

(** The first of the two to go passes on what it has seen. *)
Lemma core_leave t t' m g : sides t t' -> core m g -> gone g t = false -> gone g t' = false -> core (decrement t m) (leave t g).
Proof.
  intros Hsides [Hw (b & c & d & Hst & Hold) Hn Ho Hs Hstr Hj Hp Hd] Hg Hg'.
  pose proof (decrement_touches t m Hw) as Ht. set (m' := decrement t m) in *.
  pose proof (touches_seen _ _ _ _ 0 Ht) as Hs0. pose proof (touches_seen _ _ _ _ 1 Ht) as Hs1.
  assert (forall j, gone (leave t g) j = false -> gone g j = false) as Hgone.
  { intros j. unfold leave. cbn [gone]. destruct (decide (t = j)) as [<-|Hne]; [by rewrite fn_lookup_insert|by rewrite fn_lookup_insert_ne]. }
  split; cbn [leave sent].
  - apply Ht.
  - exists b, c, d. split; [unfold status_of; by rewrite (touches_latest _ _ _ _ _ Ht)|].
    intros i Hg0%Hgone. rewrite (to_newest _ _ _ _ Ht), (to_history _ _ _ _ Ht) by done. intros Hi. apply Hold; [done|].
    specialize (Hs0 Status). lia.
  - intros Hg1%Hgone. rewrite (to_sc _ _ _ _ Ht), (to_newest _ _ _ _ Ht) by done.
    destruct (Hn Hg1) as [?|?]; [by left|right]. by eapply covers_seen.
  - intros Hg0%Hgone Hopen. eapply covers_seen; [exact Ht|done|auto].
  - intros Hg1%Hgone Hsent. rewrite (to_message _ _ _ _ _ Ht) by done. destruct (Hs Hg1 Hsent) as [?|?]; [left|right].
    + eapply covers_same; [by eapply to_newest|done].
    + by eapply covers_seen.
  - unfold m', decrement. rewrite latest_update, project_inject, Hstr. unfold leave. cbn [gone].
    destruct Hsides as [[-> ->]|[-> ->]]; rewrite fn_lookup_insert, fn_lookup_insert_ne by done; by rewrite Hg, Hg'.
  - intros l Hl. rewrite (to_newest _ _ _ _ Ht) by (destruct Hl as [-> | ->]; done). specialize (Hj l Hl).
    specialize (Hs0 l). specialize (Hs1 l). lia.
  - intros t1 t2 Ht1 Ht2 Hg1 Hg2. assert (t1 = t) as ->; [|by apply published_own].
    destruct (decide (t = t1)) as [|Hne]; [done|]. cbn [leave gone] in Hg1. rewrite fn_lookup_insert_ne in Hg1 by done.
    assert (t1 = t') as -> by (destruct Hsides; lia). congruence.
  - intros t1 Ht1 Hg1%Hgone. rewrite (to_newest _ _ _ _ Ht) by done. by eapply Hd.
Qed.

(** The last one has seen all accesses. *)
Lemma last_covers t t' m g l :
  sides t t' -> core m g -> gone g t = false -> gone g t' = true -> inner l -> covers (seen (decrement t m) t) (decrement t m) l.
Proof.
  intros Hsides Hco Hg Hg' Hl. pose proof (co_wf _ _ Hco) as Hw. pose proof (decrement_touches t m Hw) as Ht.
  assert (view_le (seen m t') (seen (decrement t m) t)) as Hle'.
  { etrans; [apply (co_passed _ _ Hco t' t); destruct Hsides; (done || lia)|]. by apply update_acquired. }
  pose proof (to_seen _ _ _ _ Ht) as Hle. specialize (Hle' l). specialize (Hle l). unfold covers.
  rewrite (to_newest _ _ _ _ Ht) by by destruct Hl as [->|[->| ->]].
  assert (newest m l <= Nat.max (seen m t l) (seen m t' l)); [|lia]. destruct Hl as [->|[->| ->]].
  - pose proof (co_joint _ _ Hco Status (or_introl eq_refl)). destruct Hsides as [[-> ->]|[-> ->]]; lia.
  - pose proof (co_joint _ _ Hco Value (or_intror eq_refl)). destruct Hsides as [[-> ->]|[-> ->]]; lia.
  - rewrite (co_dropped _ _ Hco t); [lia|destruct Hsides; lia|done].
Qed.

(** Once both are gone little is left to know. *)
Lemma core_ended m m' g g' :
  core m g -> sent g' = sent g -> gone g' 0 = true -> gone g' 1 = true -> wf m' -> status_of m' = status_of m ->
  project (latest m' Strong) = 0 -> (forall l, l = Status \/ l = Value -> newest m' l <= Nat.max (seen m' 0 l) (seen m' 1 l)) -> core m' g'.
Proof.
  intros Hco Hs Hg0 Hg1 Hw Hst Hstr Hj. assert (forall t, t < 2 -> gone g' t = true) as Hg by (intros [|[|t]]; [done..|lia]).
  destruct (co_status _ _ Hco) as (b & c & d & [Hn _]). split; rewrite ?Hg0, ?Hg1; try done.
  - exists b, c, d. split; [by rewrite Hst, Hn, Hs|by rewrite Hg0].
  - intros t t' _ Ht' _ Hf. by rewrite Hg in Hf.
  - intros t Ht Hf. by rewrite Hg in Hf.
Qed.

Lemma release_ok t t' s g :
  sides t t' -> vinv (s, g) -> gone g t = false -> (exists h y, OneShot.release_arc (abs h s) = Done y) ->
  exists m', release_arc t s = Done (mkMachine m' (fired s)) /\
    (forall h, OneShot.release_arc (abs h s) = Done (abs h (mkMachine m' (fired s)))) /\
    vinv (mkMachine m' (fired s), leave t g) /\ touches t (fun l => ~ is_slot l) (mem s) m' /\
    (gone g t' = false -> status_of m' = status_of (mem s) /\ newest m' Value = newest (mem s) Value).
Proof.
  intros Hsides [Hco Hok] Hg (h0 & y & Hy). cbn [fst snd] in *. pose proof (co_wf _ _ Hco) as Hw.
  pose proof (decrement_touches t _ Hw) as Ht. set (m1 := decrement t (mem s)) in *.
  assert (touches t (fun l => ~ is_slot l) (mem s) m1) as Ht' by (eapply touches_weaken; [|exact Ht]; by intros l <- []).
  pose proof (co_strong _ _ Hco) as Hstr.
  assert (forall h, OneShot.strong (abs h s) = project (latest (mem s) Strong)) as Habs by done.
  assert (release_arc t s = match project (A := nat) (latest (mem s) Strong) with
    | 0 => Undefined | 1 => m ← drop_inner t m1; Done (mkMachine m (fired s)) | _ => Done (mkMachine m1 (fired s)) end) as Hrel by done.
  assert (forall h, OneShot.release_arc (abs h s) = match project (A := nat) (latest (mem s) Strong) with
    | 0 => Undefined | 1 => OneShot.drop_inner (abs h (mkMachine m1 (fired s))) | _ => Done (abs h (mkMachine m1 (fired s))) end) as Hrel'.
  { intros h. unfold OneShot.release_arc. rewrite Habs. unfold m1. rewrite abs_decrement by done. rewrite Habs.
    by destruct (project (latest (mem s) Strong)) as [|[|n]]. }
  rewrite Hrel' in Hy. rewrite Hrel. setoid_rewrite Hrel'. destruct (gone g t') eqn:Hg'.
  - assert (project (A := nat) (latest (mem s) Strong) = 1) as Hone.
    { rewrite Hstr. destruct Hsides as [[-> ->]|[-> ->]]; by rewrite Hg, Hg'. }
    rewrite Hone in *. destruct (drop_inner_ok t m1 (fired s)) as (m' & -> & Ha & Hti & Hst & Hcov).
    { apply Ht. } { intros l Hl. by apply (last_covers t t' _ g). } { by exists h0, y. }
    outcome_simpl. exists m'. assert (touches t (fun l => ~ is_slot l) (mem s) m') as Htm.
    { eapply touches_trans; [exact Ht'|]. eapply touches_weaken; [|exact Hti]. by intros l [->|[->| ->]] []. }
    split_and!; [done|done| |done|done]. split; [|eapply slot_frame; [exact Htm|done|done]]. cbn [fst snd mem].
    eapply (core_ended (mem s)); [done|done|..].
    + unfold leave. cbn [gone]. destruct Hsides as [[-> ->]|[-> ->]]; [by rewrite fn_lookup_insert|by rewrite fn_lookup_insert_ne].
    + unfold leave. cbn [gone]. destruct Hsides as [[-> ->]|[-> ->]]; [by rewrite fn_lookup_insert_ne|by rewrite fn_lookup_insert].
    + apply Hti.
    + unfold status_of. rewrite Hst. by rewrite (touches_latest _ _ _ _ _ Ht).
    + rewrite (touches_latest _ _ _ _ _ Hti) by (intros [?|[?|?]]; done). unfold m1, decrement.
      rewrite latest_update, project_inject. by rewrite Hone.
    + intros l Hl. assert (covers (seen m' t) m' l) as Hc by (apply Hcov; destruct Hl; [by left|right; by left]).
      unfold covers in Hc. destruct Hsides as [[-> ->]|[-> ->]]; lia.
  - assert (project (A := nat) (latest (mem s) Strong) = 2) as Htwo.
    { rewrite Hstr. destruct Hsides as [[-> ->]|[-> ->]]; by rewrite Hg, Hg'. }
    rewrite Htwo. exists m1. split_and!; [done|done| |done|].
    + split; [by eapply core_leave|eapply slot_frame; [exact Ht'|done|done]].
    + intros _. unfold status_of. rewrite (touches_latest _ _ _ _ _ Ht) by done. split; [done|by apply (to_newest _ _ _ _ Ht)].
Qed.
(** The access that drops a handle, with what is left to show of it. *)
Lemma sim_release t t' (P : config -> Prop) Q x :
  sides t t' -> stable (rely t) P -> P x -> (forall y, P y -> vinv y /\ gone y.2 t = false) ->
  (forall s g m', P (s, g) -> vinv (s, g) -> vinv (mkMachine m' (fired s), leave t g) -> touches t (fun l => ~ is_slot l) (mem s) m' ->
    (gone g t' = false -> status_of m' = status_of (mem s) /\ newest m' Value = newest (mem s) Value) ->
    guar t (s, g) (mkMachine m' (fired s), leave t g)) ->
  (forall y, Q tt y) -> sim abs (rely t) (guar t) (drop_arc t) OneShot.drop_arc Q x.
Proof.
  intros Hsides Hst Hx HP Hguar HQ. apply (sim_act abs _ _ _ _ _ _ P); [done..|]. clear x Hx.
  intros s g Hx. destruct (HP _ Hx) as [Hi Hg]. exists id. intros Hdone.
  destruct (release_ok t t' s g Hsides Hi Hg) as (m' & Hrun & Ha & Hi' & Ht & Hkeep).
  { destruct (Hdone []) as (s1 & c & Hd). exists []. unfold id in Hd.
    destruct (OneShot.release_arc (abs [] s)) as [y| |]; [by exists y|done..]. }
  exists (mkMachine m' (fired s)), tt, (leave t g), tt. split_and!.
  - by rewrite Hrun.
  - intros h. unfold id. by rewrite (Ha h).
  - by apply Hguar.
  - by split.
Qed.

Lemma sim_leave_sender sn Q x : sending sn x -> (forall y, Q tt y) -> ssim (drop_arc 0) OneShot.drop_arc Q x.
Proof.
  intros Hx HQ. apply (sim_release 0 1 (sending sn)); [by left|apply weak_sending_stable|done|by intros y (? & ? & _)| |done].
  intros s g m' Hp _ Hi' Ht Hkeep _. split; cbn [fst snd mem leave sent gone]; [done|by rewrite fn_lookup_insert_ne| | |].
  - intros _. by apply (to_others _ _ _ _ Ht).
  - intros Hg1 Hs. by destruct (Hkeep Hg1).
  - unfold waiter_holds. by rewrite (held_kept _ _ _ _ Ht) by done.
Qed.

Lemma sim_leave_receiver Q x : receiving x -> (forall y, Q tt y) -> rsim (drop_arc 1) OneShot.drop_arc Q x.
Proof.
  intros Hx HQ. apply (sim_release 1 0 receiving); [by right|apply weak_receiving_stable|done|done| |done].
  intros s g m' Hp _ Hi' Ht Hkeep _. split; cbn [fst snd mem leave sent gone]; [done|by rewrite fn_lookup_insert_ne|done|].
  unfold signaller_holds. by rewrite (held_kept _ _ _ _ Ht) by done.
Qed.

(** ** The sender *)
Lemma sim_signal_sending sn Q x : sending sn x -> (forall y, sending sn y -> Q tt y) ->
  ssim (signal 0 recv) (Notify.signal OneShot.recv_ref) Q x.
Proof.
  intros Hx HQ. by apply (sim_signal abs recv OneShot.recv_ref 1 0 recv_abs recv_distinct (Nat.neq_succ_0 0) _ _ _ (env_sending sn)).
Qed.

Lemma ssim_ret {A} sn (a : A) (Q : A -> config -> Prop) x : sending sn x -> (forall y, sending sn y -> Q a y) -> ssim (Ret a) (Ret a) Q x.
Proof. intros Hx HQ. eapply sim_ret; [apply (weak_sending_stable sn)|done|done]. Qed.

Lemma sim_drop_sender sn Q x :
  sending sn x -> (forall y, Q tt y) -> ssim (OneShot.drop_sender (H1 := ordered 0)) OneShot.drop_sender Q x.
Proof.
  intros Hx HQ. apply sim_bind, (sim_acquire sn); [done|]. clear x Hx. intros b c d x Hx. rewrite OneShot.land_enc.
  apply sim_bind. destruct sn; cbn [negb].
  - eapply (ssim_ret true); [done|]. clear x Hx. intros x Hx. by apply (sim_leave_sender true).
  - apply sim_bind, sim_close; [done|]. clear x Hx. intros z x Hx. apply (sim_signal_sending false); [done|]. clear x Hx.
    intros x Hx. by apply (sim_leave_sender false).
Qed.

Lemma sim_done {A} R G (a : A) (x : config) : sim abs R G (Ret a) (Ret a) (fun _ _ => True) x.
Proof. by split. Qed.

Lemma sim_send v (k : result unit T -> prog machine (OneShot.ended (T := T))) kp x :
  sending false x -> (forall r y, ssim (k r) (kp r) (fun _ _ => True) y) ->
  ssim (r ← OneShot.send (H1 := ordered 0) v; k r) (r ← OneShot.send v; kp r) (fun _ _ => True) x.
Proof.
  intros Hx HQ. apply sim_bind, sim_bind, (sim_acquire false); [done|]. clear x Hx. intros b c d x Hx.
  destruct (OneShot.has (OneShot.enc false b c d) OneShot.RECEIVER_DROPPED).
  { apply sim_bind, (sim_drop_sender false); [done|]. intros y. split; [done|]. intros y' _. apply HQ. }
  destruct (OneShot.lor_enc false b c d) as (-> & _).
  apply sim_bind, sim_write_cell; [done|]. clear x Hx. intros x Hx.
  apply sim_bind, sim_publish; [done|]. clear x Hx. intros x Hx.
  apply sim_bind, (sim_signal_sending true); [done|]. clear x Hx. intros x Hx.
  apply sim_bind, (sim_drop_sender true); [done|]. intros y. split; [done|]. intros y' _. apply HQ.
Qed.

Lemma sim_sender_thread checks o x : sending false x ->
  ssim (OneShot.sender_thread (H1 := ordered 0) checks o) (OneShot.sender_thread checks o) (fun _ _ => True) x.
Proof.
  revert x. induction checks as [|n IH]; intros x Hx; cbn [OneShot.sender_thread].
  - destruct o as [v|].
    + apply sim_send; [done|]. intros r y. apply sim_done.
    + apply sim_bind, (sim_drop_sender false); [done|]. intros y. apply sim_done.
  - apply sim_bind, sim_bind, (sim_acquire false); [done|]. intros b c d y Hy.
    eapply (ssim_ret false); [done|]. intros z Hz. by apply IH.
Qed.
(** ** Accesses of the receiver *)
Lemma sim_load_state (Q : Z -> config -> Prop) x :
  receiving x ->
  (forall st y, OneShot.has st OneShot.VALUE_SET = true -> owning st y -> Q st y) ->
  (forall st y, OneShot.has st OneShot.VALUE_SET = false -> receiving y -> Q st y) ->
  rsim (load_as Z 1 SeqCst Status) (Concurrency.load OneShot.state) Q x.
Proof.
  intros Hx Hset Hunset. apply (sim_act abs _ _ _ _ _ _ receiving); [apply weak_receiving_stable|done|]. clear x Hx.
  intros s g Hx. pose proof Hx as [Hi Hg]. pose proof Hi as [Hco Hok]. cbn [fst snd] in *. pose proof (co_wf _ _ Hco) as Hw.
  destruct (co_status _ _ Hco) as (b & c & d & [Hst _]). exists id. intros _.
  set (m' := (load 1 SeqCst Status (mem s)).1).
  destruct (load_quiet 1 SeqCst Status (mem s) Hw) as [Ht Hl]. fold m' in Ht, Hl.
  assert (load 1 SeqCst Status (mem s) =
    (drop_choice (observe 1 SeqCst Status (newest (mem s) Status) (mem s)), latest (mem s) Status)) as Hload.
  { destruct (co_newest _ _ Hco Hg) as [?|?]; [by apply load_newest|by apply load_seen]. }
  assert (vinv (mkMachine m' (fired s), g)) as Hi' by by apply (vinv_oneshot_quiet 1).
  exists (mkMachine m' (fired s)), (status_of (mem s)), g, (status_of (mem s)). split_and!.
  - unfold m'. rewrite Hload. done.
  - intros h. by rewrite (abs_unchanged h s m' Hl).
  - intros _. by split.
  - destruct (OneShot.has_enc (sent g) b c d) as (Hhas & _). rewrite <-Hst in Hhas. destruct (sent g) eqn:Hs.
    + eapply sim_ret; [apply (weak_owning_stable (status_of (mem s)))| |by intros y Hy; apply Hset].
      split_and!; [by split|done| |by unfold status_of; rewrite Hl]. cbn [fst mem].
      eapply covers_same; [apply (to_newest _ _ _ _ Ht); by intros []|]. destruct (co_sent _ _ Hco Hg Hs) as [Hc|Hc].
      * eapply covers_le; [|exact Hc]. unfold m'. rewrite Hload. cbn [fst seen drop_choice]. rewrite seen_observe. apply join_r.
      * eapply covers_le; [|exact Hc]. by eapply to_seen.
    + eapply sim_ret; [apply weak_receiving_stable| |by intros y Hy; apply Hunset]. by split.
Qed.

Lemma rsim_ret {A} (a : A) (Q : A -> config -> Prop) x : receiving x -> (forall y, receiving y -> Q a y) -> rsim (Ret a) (Ret a) Q x.
Proof. intros Hx HQ. eapply sim_ret; [apply weak_receiving_stable|done|done]. Qed.

Lemma sim_check_owning st (o : outcome unit) (Q : unit -> config -> Prop) x :
  owning st x -> (forall y, owning st y -> Q tt y) -> rsim (check o) (check o) Q x.
Proof.
  intros Hx HQ. apply (sim_act abs _ _ _ _ _ _ (owning st)); [apply weak_owning_stable|done|]. clear x Hx.
  intros s g Hx. exists id. intros Hdone. destruct (Hdone []) as (s1 & [] & Hd). exists s, tt, g, tt.
  destruct o as [[]| |]; outcome_simpl; [|done..]. split_and!; [done|done|intros Hi; by split|].
  eapply sim_ret; [apply (weak_owning_stable st)|done|done].
Qed.

Lemma sim_mark_taken st (Q : unit -> config -> Prop) x :
  owning st x -> (forall y, owning (Z.lor st OneShot.TAKEN) y -> Q tt y) ->
  rsim (store_as 1 Relaxed Status (Z.lor st OneShot.TAKEN)) (Concurrency.store (OneShot.set_state (Z.lor st OneShot.TAKEN))) Q x.
Proof.
  intros Hx HQ. apply (sim_act abs _ _ _ _ _ _ (owning st)); [apply weak_owning_stable|done|]. clear x Hx.
  intros s g ((Hi & Hg) & Hs & Hcv & Hst). pose proof Hi as [Hco Hok]. cbn [fst snd] in *. pose proof (co_wf _ _ Hco) as Hw.
  destruct (co_status _ _ Hco) as (b & c & d & Hstat). assert (st = OneShot.enc true b c d) as Henc.
  { rewrite <-Hst, <-Hs. apply (st_newest _ _ _ _ _ Hstat). }
  assert (Z.lor st OneShot.TAKEN = OneShot.enc true b c true) as Hlor by (rewrite Henc; apply OneShot.lor_enc).
  rewrite Hlor in HQ |- *. clear Hlor.
  exists id. intros _. set (m' := store 1 Relaxed Status (inject (OneShot.enc true b c true)) (mem s)).
  assert (touches 1 (eq Status) (mem s) m') as Ht by (apply append_touches; [done|apply nothing_le]).
  assert (status_of m' = OneShot.enc true b c true) as Hst' by (unfold status_of, m'; rewrite latest_store; apply project_inject).
  assert (forall l, Status = l -> ~ is_slot l) as Hns by (intros l <-; by intros []).
  assert (covers (seen m' 1) m' Value) as Hcv' by by eapply covers_seen.
  assert (vinv (mkMachine m' (fired s), mkProgress (sent g) (gone g))) as Hi'.
  { split; [|by eapply slot_frame]. eapply (core_status 1 (mem s) m' g (sent g)); [done|done|lia|done|apply covers_own|..].
    - apply (status_more 1 Relaxed nothing _ _ _ b c d c true); [done|by destruct Hstat|done|done|].
      cbn [sent]. rewrite Hs. apply project_inject.
    - intros _. right. apply covers_own.
    - done.
    - intros _ _. by right. }
  assert (mkProgress (sent g) (gone g) = g) as Hgg by by destruct g. rewrite Hgg in Hi'.
  exists (mkMachine m' (fired s)), tt, g, tt. split_and!; [done| | |].
  - intros h. by rewrite (abs_status h 1 s m' Ht), Hst'.
  - intros _. split; [done..|]. cbn [mem fst]. unfold signaller_holds. by rewrite (held_kept _ _ _ _ Ht Hns).
  - eapply sim_ret; [apply (weak_owning_stable (OneShot.enc true b c true))| |done]. by split_and!.
Qed.

Lemma sim_read_cell st (Q : T -> config -> Prop) x :
  owning st x -> (forall v y, receiving y -> Q v y) -> rsim (read_cell 1) OneShot.read_value Q x.
Proof.
  intros Hx HQ. apply (sim_act abs _ _ _ _ _ _ (owning st)); [apply weak_owning_stable|done|]. clear x Hx.
  intros s g ((Hi & Hg) & Hs & Hcv & Hst). pose proof Hi as [Hco Hok]. cbn [fst snd] in *. pose proof (co_wf _ _ Hco) as Hw.
  exists id. intros Hdone. destruct (peek_ok 1 (option T) Value (mem s) Hw Hcv) as (m' & Hp & Ht & Hl & Hc).
  assert (forall l, Value = l -> ~ is_slot l) as Hns by (intros l <-; by intros []).
  assert (vinv (mkMachine m' (fired s), g)) as Hi'.
  { split; [|by eapply slot_frame]. eapply (core_value 1); [done|done|lia|done|by apply Hc|cbn [snd]; congruence|done]. }
  assert (forall h, OneShot.value (abs h s) = project (latest (mem s) Value)) as Hval by done.
  destruct (Hdone []) as (s1 & v & Hd). unfold id in Hd. rewrite Hval in Hd.
  destruct (project (latest (mem s) Value)) as [v0|] eqn:Hv; [|done].
  exists (mkMachine m' (fired s)), v0, g, v0. split_and!.
  - rewrite Hp. done.
  - intros h. unfold id. rewrite Hval. by rewrite (abs_unchanged h s m' Hl).
  - intros _. split; [done..|]. cbn [mem fst]. unfold signaller_holds. by rewrite (held_kept _ _ _ _ Ht Hns).
  - eapply rsim_ret; [by split|]. intros y Hy. by apply HQ.
Qed.

Lemma sim_drop_flag (Q : Z -> config -> Prop) x :
  receiving x -> (forall z y, receiving y -> Q z y) ->
  rsim (update_as 1 SeqCst Status (fun st => Z.lor st OneShot.RECEIVER_DROPPED)) (OneShot.fetch_or OneShot.RECEIVER_DROPPED) Q x.
Proof.
  intros Hx HQ. apply (sim_act abs _ _ _ _ _ _ receiving); [apply weak_receiving_stable|done|]. clear x Hx.
  intros s g (Hi & Hg). pose proof Hi as [Hco Hok]. cbn [fst snd] in *. pose proof (co_wf _ _ Hco) as Hw.
  destruct (co_status _ _ Hco) as (b & c & d & Hstat). pose proof (st_newest _ _ _ _ _ Hstat) as Hst. exists id. intros _.
  set (f := fun v : value => inject (Z.lor (project v) OneShot.RECEIVER_DROPPED) : value).
  set (m' := (update 1 SeqCst Status f (mem s)).1).
  assert (touches 1 (eq Status) (mem s) m') as Ht by by apply update_touches.
  assert (project (f (latest (mem s) Status)) = OneShot.enc (sent g) b true d) as Hf.
  { unfold f. rewrite project_inject. change (project (latest (mem s) Status)) with (status_of (mem s)). rewrite Hst. apply OneShot.lor_enc. }
  assert (status_of m' = OneShot.enc (sent g) b true d) as Hst' by (unfold status_of, m'; by rewrite latest_update).
  assert (forall l, Status = l -> ~ is_slot l) as Hns by (intros l <-; by intros []).
  assert (vinv (mkMachine m' (fired s), mkProgress (sent g) (gone g))) as Hi'.
  { split; [|by eapply slot_frame]. eapply (core_status 1 (mem s) m' g (sent g)); [done|done|lia|done|apply covers_update|..].
    - apply (status_more 1 SeqCst _ _ _ _ b c d true d); [done| |done|done|exact Hf].
      destruct Hstat as [Hn Ho]. split; [exact Hn|]. intros i Hg0. cbn [observe seen newest history gone].
      rewrite fn_lookup_insert_ne by done. by apply Ho.
    - intros _. left. apply sc_append.
    - done.
    - intros _ Hsent. destruct (co_sent _ _ Hco Hg Hsent) as [Hc|Hc]; [left|right].
      + eapply covers_same; [by eapply to_newest|]. eapply covers_le; [by apply update_inherited|done].
      + by eapply covers_seen. }
  assert (mkProgress (sent g) (gone g) = g) as Hgg by by destruct g. rewrite Hgg in Hi'.
  exists (mkMachine m' (fired s)), (status_of (mem s)), g, (status_of (mem s)). split_and!; [done| | |].
  - intros h. rewrite (abs_status h 1 s m' Ht), Hst'.
    change (Done (OneShot.set_state (Z.lor (status_of (mem s)) OneShot.RECEIVER_DROPPED) (abs h s), status_of (mem s)) =
      Done (OneShot.set_state (OneShot.enc (sent g) b true d) (abs h s), status_of (mem s))).
    do 3 f_equal. rewrite Hst. apply OneShot.lor_enc.
  - intros _. split; [done..|]. cbn [mem fst]. unfold signaller_holds. by rewrite (held_kept _ _ _ _ Ht Hns).
  - eapply rsim_ret; [by split|]. intros y Hy. by apply HQ.
Qed.
(** The slot operations of the receiver. *)
Lemma sim_arm_receiving w (Q : unit -> config -> Prop) x :
  receiving x -> (forall y, receiving y -> Q tt y) -> rsim (arm 1 recv w) (Notify.arm OneShot.recv_ref w) Q x.
Proof.
  intros Hx HQ. by apply (sim_arm abs recv OneShot.recv_ref 1 0 recv_abs recv_distinct (Nat.neq_succ_0 0) _ _ _ env_receiving).
Qed.

Lemma sim_disarm_receiving (Q : unit -> config -> Prop) x :
  receiving x -> (forall y, receiving y -> Q tt y) -> rsim (disarm 1 recv) (Notify.disarm OneShot.recv_ref) Q x.
Proof. intros Hx HQ. by apply (sim_disarm abs recv OneShot.recv_ref 1 0 recv_abs recv_distinct _ _ _ env_receiving). Qed.

Lemma sim_fired_count (Q : nat -> config -> Prop) x :
  receiving x -> (forall k y, receiving y -> Q k y) ->
  rsim (OneShot.fired_count (Accesses := ordered 1)) (OneShot.fired_count (S := OneShot.Inner (T := T))) Q x.
Proof.
  intros Hx HQ. apply (sim_act abs _ _ _ _ _ _ receiving); [apply weak_receiving_stable|done|]. clear x Hx.
  intros s g Hp. exists id. intros _. exists s, (length (fired s (Recv State))), g, (length (fired s (Recv State))).
  split_and!; [done..| |].
  - intros Hi. by split.
  - eapply rsim_ret; [exact Hp|]. intros y Hy. by apply HQ.
Qed.

(** ** The receiver *)
Lemma sim_take_value st (Q : option T -> config -> Prop) x :
  owning st x -> (forall o y, receiving y -> Q o y) ->
  rsim (OneShot.take_value (H1 := ordered 1) st) (OneShot.take_value st) Q x.
Proof.
  intros Hx HQ. unfold OneShot.take_value. destruct (OneShot.has st OneShot.TAKEN).
  { eapply rsim_ret; [by destruct Hx|]. intros y Hy. by apply HQ. }
  apply sim_bind, (sim_check_owning st); [done|]. clear x Hx. intros x Hx.
  apply sim_bind, (sim_mark_taken st); [done|]. clear x Hx. intros x Hx.
  apply sim_bind, (sim_read_cell (Z.lor st OneShot.TAKEN)); [done|]. clear x Hx. intros v x Hx.
  eapply rsim_ret; [done|]. intros y Hy. by apply HQ.
Qed.

Lemma sim_try_recv (Q : result (option T) OneShot.RecvError -> config -> Prop) x :
  receiving x -> (forall r y, receiving y -> Q r y) -> rsim (OneShot.try_recv (H1 := ordered 1)) OneShot.try_recv Q x.
Proof.
  intros Hx HQ. apply sim_bind, sim_load_state; [done|..]; clear x Hx; intros st x Hst Hx; rewrite Hst.
  - apply sim_bind, (sim_take_value st); [done|]. intros o y Hy. eapply rsim_ret; [done|]. intros; by apply HQ.
  - destruct (OneShot.has st OneShot.SENDER_DROPPED); (eapply rsim_ret; [done|]); intros; by apply HQ.
Qed.

Lemma sim_resolve (Q : option (result T OneShot.RecvError) -> config -> Prop) x :
  receiving x -> (forall r y, receiving y -> Q r y) -> rsim (OneShot.resolve (H1 := ordered 1)) OneShot.resolve Q x.
Proof.
  intros Hx HQ. apply sim_bind, sim_load_state; [done|..]; clear x Hx; intros st x Hst Hx; rewrite Hst.
  - apply sim_bind, (sim_take_value st); [done|]. intros o y Hy. eapply rsim_ret; [done|]. intros; by apply HQ.
  - destruct (OneShot.has st OneShot.SENDER_DROPPED); (eapply rsim_ret; [done|]); intros; by apply HQ.
Qed.

Lemma sim_poll w (Q : Poll (result T OneShot.RecvError) -> config -> Prop) x :
  receiving x -> (forall r y, receiving y -> Q r y) -> rsim (OneShot.poll (H1 := ordered 1) w) (OneShot.poll w) Q x.
Proof.
  intros Hx HQ. apply sim_bind, sim_resolve; [done|]. clear x Hx. intros [out|] x Hx.
  { eapply rsim_ret; [done|]. intros; by apply HQ. }
  apply sim_bind, sim_arm_receiving; [done|]. clear x Hx. intros x Hx.
  apply sim_bind, sim_resolve; [done|]. clear x Hx. intros [out|] x Hx.
  - apply sim_bind, sim_disarm_receiving; [done|]. intros y Hy. eapply rsim_ret; [done|]. intros; by apply HQ.
  - eapply rsim_ret; [done|]. intros; by apply HQ.
Qed.

Lemma sim_receiver_step op (Q : list T * option (waker * nat) -> config -> Prop) x :
  receiving x -> (forall r y, receiving y -> Q r y) ->
  rsim (OneShot.receiver_step (H1 := ordered 1) op) (OneShot.receiver_step op) Q x.
Proof.
  intros Hx HQ. destruct op as [|w].
  - apply sim_bind, sim_try_recv; [done|]. intros r y Hy. eapply rsim_ret; [done|]. intros; by apply HQ.
  - apply sim_bind, sim_fired_count; [done|]. clear x Hx. intros k x Hx.
    apply sim_bind, sim_poll; [done|]. intros r y Hy. eapply rsim_ret; [done|]. intros; by apply HQ.
Qed.

Lemma sim_receiver_thread ops drops acc pk x : receiving x ->
  rsim (OneShot.receiver_thread (H1 := ordered 1) ops drops acc pk) (OneShot.receiver_thread ops drops acc pk)
    (fun _ _ => True) x.
Proof.
  revert acc pk x. induction ops as [|op ops IH]; intros acc pk x Hx; cbn [OneShot.receiver_thread].
  - destruct drops; [|apply sim_done].
    apply sim_bind, sim_bind, sim_drop_flag; [done|]. clear x Hx. intros z x Hx.
    apply sim_leave_receiver; [done|]. intros y. apply sim_done.
  - apply sim_bind, sim_receiver_step; [done|]. intros [vs pk'] y Hy. by apply IH.
Qed.

(** ** Both threads *)
Lemma vinv_oneshot_start cs : vinv (start cs, mkProgress false (fun _ => false)).
Proof.
  split; cbn [fst snd]; [|split; [by left|intros _; apply Nat.le_refl..|done]].
  split; cbn [sent gone]; try done; try (intros; apply Nat.le_refl).
  - exists false, false, false. split; [done|]. intros i _ _. by exists false, false.
  - intros _. by left.
Qed.

Lemma abs_oneshot_start misses cs : abs misses (start cs) = OneShot.oneshot misses.
Proof. done. Qed.

(** Every run is one of [OneShot.v], with some of the receiver's bits missed. *)
Lemma weak_oneshot_run cs sch checks o ops drops :
  exists s ps misses sch' ps', run_sched sch (start cs) (threads checks o ops drops) = Done (s, ps) /\
    run_sched sch' (OneShot.oneshot misses) (OneShot.oneshot_threads checks o ops drops) = Done (abs [] s, ps') /\
    forall i a, ps !! i = Some (Ret a) -> ps' !! i = Some (Ret a).
Proof.
  destruct (sim_run abs rely guar (fun _ _ _ => True) sch (start cs) (mkProgress false (fun _ => false)) (threads checks o ops drops)
    (OneShot.oneshot_threads checks o ops drops)) as (s & ps & sch' & ps' & pre & Hrun & Hrun' & Hret).
  - intros i j y y'. apply weak_oneshot_guar_rely.
  - pose proof (vinv_oneshot_start cs) as Hi. split; [done|].
    intros [|[|i]] q p Hq Hp; simpl in Hq, Hp; [injection Hq as <-; injection Hp as <-..|done].
    + by apply sim_sender_thread.
    + by apply sim_receiver_thread.
  - intros h sch'. destruct (OneShot.oneshot_run h sch' checks o ops drops) as (s & ps & _ & Hrun & _). by exists s, ps.
  - exists s, ps, (pre []), sch', ps'. by split_and!; [|apply (Hrun' [])|].
Qed.
End oneshot.

Section theorems.
Context `{BuildMode} `{Wk : Wakers} {T : Type}.

(** C6: with the orderings of the source, the oneshot behaves as under sequential
    consistency except that the sender's [Acquire] loads may miss bits of the
    receiver. Take any number of [is_closed] calls before a send or a drop, any
    receives, any schedule of the accesses, and any choice of what the loads return
    among the stores their ordering allows. The value cell is not accessed in a data
    race, [Drop for Inner] is ordered after every access of both handles, and
    nothing is undefined or panics; and some schedule of the threads of [OneShot.v],
    for some misses, ends in the same state, with every thread that returned having
    returned the same there. *)
Theorem weak_oneshot_refines (choices sch : list nat) (checks : nat) (o : option T) (ops : list OneShot.receiver_op)
    (drops : bool) :
  exists s ps misses sch' ps', run_sched sch (start choices) (threads checks o ops drops) = Done (s, ps) /\
    run_sched sch' (OneShot.oneshot misses) (OneShot.oneshot_threads checks o ops drops) = Done (abs [] s, ps') /\
    forall i a, ps !! i = Some (Ret a) -> ps' !! i = Some (Ret a).
Proof. apply weak_oneshot_run. Qed.

(** C5: on the memory with orderings, the oneshot delivers exactly once and loses no
    wakeup. For any schedule and any choice of what loads return, no access is a
    data race; and when both threads are done, a refused value was handed back and
    an accepted one was received once or, once both handles are gone, dropped once;
    and a receiver that the last poll left parked has been woken during or after
    that poll. *)
Theorem weak_oneshot_correct (choices sch : list nat) (checks : nat) (o : option T) (ops : list OneShot.receiver_op)
    (drops : bool) :
  exists s ps, run_sched sch (start choices) (threads checks o ops drops) = Done (s, ps) /\
    forall es er, ps = [Ret es; Ret er] ->
      OneShot.exactly_once o drops es er (project (latest (mem s) Dropped)) /\
      forall vs w k, drops = false -> er = OneShot.ReceiverEnded vs (Some (w, k)) ->
        Notify.fired_since w k (fired s (Recv State)).
Proof.
  destruct (weak_oneshot_run choices sch checks o ops drops) as (s & ps & misses & sch' & ps' & Hrun & Hrun' & Hret).
  exists s, ps. split; [done|]. intros es er ->.
  destruct (OneShot.oneshot_run misses sch' checks o ops drops) as (s' & ps'' & g & Hend & Hpost).
  rewrite Hrun' in Hend. injection Hend as <- <-. rewrite (both_returned _ _ _ _ eq_refl Hret (run_sched_length _ _ _ _ _ Hrun')) in Hpost.
  destruct (Hpost es er eq_refl) as [Hs Hr]. split; [exact (OneShot.ended_once _ _ _ _ _ _ Hs Hr)|].
  intros vs w k -> ->. apply (OneShot.ended_woken _ _ _ _ _ _ _ Hs Hr).
Qed.
End theorems.

(** ** Runs *)
#[local] Instance nat_wakers : Wakers := {| waker := nat; will_wake := Nat.eqb |}.
#[local] Existing Instance debug_build.

(** The receiver is dropped first, but the sender's load does not see it: the send
    is accepted and the value dropped with the channel, by the sender. *)
Definition late_sch : list nat := [1; 1] ++ replicate 20 0.
Definition late_ended : list (prog (machine (L := location) (V := value (Wk := nat_wakers) (T := nat))) (OneShot.ended (H0 := nat_wakers) (T := nat))) :=
  [Ret (OneShot.SenderEnded (H0 := nat_wakers) (Some (ROk tt))); Ret (OneShot.ReceiverEnded (H0 := nat_wakers) [] None)].

Lemma weak_oneshot_refines_witness : exists s misses sch' ps',
  run_sched late_sch (start (Wk := nat_wakers) [1]) (threads (T := nat) 0 (Some 5) [] true) = Done (s, late_ended) /\
  run_sched sch' (OneShot.oneshot (H0 := nat_wakers) misses) (OneShot.oneshot_threads 0 (Some 5) [] true) = Done (abs [] s, ps').
Proof.
  destruct (weak_oneshot_refines (Wk := nat_wakers) (T := nat) [1] late_sch 0 (Some 5) [] true)
    as (s & ps & misses & sch' & ps' & Hrun & Hrun' & _).
  assert (ps = late_ended) as ->.
  { pose proof (f_equal (fun o => match o with Done x => x.2 | _ => [] end) Hrun) as Hx. vm_compute in Hx. symmetry. exact Hx. }
  exists s, misses, sch', ps'. split; [exact Hrun|exact Hrun'].
Defined.

(** The receiver parks and the sender publishes. *)
Definition parked_sch : list nat := replicate 20 1 ++ replicate 20 0.
Definition parked_ops : list (OneShot.receiver_op (H0 := nat_wakers)) := [OneShot.TryRecv; OneShot.PollRecv 9].
Definition parked_ended : list (prog (machine (L := location) (V := value (Wk := nat_wakers) (T := nat))) (OneShot.ended (H0 := nat_wakers) (T := nat))) :=
  [Ret (OneShot.SenderEnded (H0 := nat_wakers) (Some (ROk tt))); Ret (OneShot.ReceiverEnded (H0 := nat_wakers) [] (Some (9, 0)))].

Lemma weak_oneshot_correct_witness : exists s,
  run_sched parked_sch (start (Wk := nat_wakers) [2; 2; 2]) (threads (T := nat) 1 (Some 5) parked_ops false) = Done (s, parked_ended) /\
  Notify.fired_since (H0 := nat_wakers) 9 0 (fired s (Recv State)).
Proof.
  destruct (weak_oneshot_correct (Wk := nat_wakers) (T := nat) [2; 2; 2] parked_sch 1 (Some 5) parked_ops false)
    as (s & ps & Hrun & Hps).
  assert (ps = parked_ended) as ->.
  { pose proof (f_equal (fun o => match o with Done x => x.2 | _ => [] end) Hrun) as Hx. vm_compute in Hx. symmetry. exact Hx. }
  exists s. split; [exact Hrun|]. destruct (Hps _ _ eq_refl) as [_ Hw]. exact (Hw [] 9 0 eq_refl eq_refl).
Defined.
End WeakOneShot.
