(* ===== verification/TripleBuffer.v ===== *)
(** * [TripleBuf] ([src/site_d/triplebuffer.rs])

    [Module Triple]: the lossless triple buffer. Ownership of three heap buffers
    ([AlignedBuffer]) circulates between the writer, the reader and the middle
    slot; every operation is a program with one step per access to the shared
    state, written against the interface [Accesses], whose instance [current] is
    sequentially consistent. The heap is the one of [AlignedBuffer.v]; a null pointer is [0]. *)
From stdpp Require Import base list gmap numbers relations strings.
From S2P Require Import Prelude WaitList AlignedBuffer Concurrency Notify.

Module Triple.
Import Ordering.
Section triple.
Context `{BM : BuildMode} `{Wk : Wakers} {T : Type} `{Zr : Zeroable T}.
Abbreviation AlignedBuffer := Buffer.AlignedBuffer.
Abbreviation heap := (gmap Z (Buffer.Layout * list T)).

Record SharedState : Type := mkShared {
  middle_idx : nat;
  generation : Z;
  last_read_gen : Z
}.

(** The fields [cap] and [align] never change and are variables below. *)
Record TripleBuffer : Type := mkTriple {
  mem : heap;
  buffers : list Z;
  lens : list Z;
  writer_idx : nat;
  reader_idx : nat;
  shared_state : SharedState;
  reader_slot : Notify.WaiterSlot;
  writer_slot : Notify.WaiterSlot;
  reader_log : list waker;
  writer_log : list waker
}.

Record TripleBufWriter : Type := mkWriter { w_held : option AlignedBuffer }.
Record TripleBufReader : Type := mkReader { r_held : option AlignedBuffer }.

Record BufferStats : Type := mkStats {
  stat_writer_idx : nat;
  stat_reader_idx : nat;
  stat_middle_idx : nat;
  stat_generation : Z
}.

Definition set_mem (h : heap) (s : TripleBuffer) : TripleBuffer :=
  mkTriple h (buffers s) (lens s) (writer_idx s) (reader_idx s) (shared_state s)
    (reader_slot s) (writer_slot s) (reader_log s) (writer_log s).
Lemma set_mem_same s : set_mem (mem s) s = s.
Proof. by destruct s. Qed.
Definition set_buffers (b : list Z) (s : TripleBuffer) : TripleBuffer :=
  mkTriple (mem s) b (lens s) (writer_idx s) (reader_idx s) (shared_state s)
    (reader_slot s) (writer_slot s) (reader_log s) (writer_log s).
Definition set_lens (l : list Z) (s : TripleBuffer) : TripleBuffer :=
  mkTriple (mem s) (buffers s) l (writer_idx s) (reader_idx s) (shared_state s)
    (reader_slot s) (writer_slot s) (reader_log s) (writer_log s).
Definition set_writer_idx (i : nat) (s : TripleBuffer) : TripleBuffer :=
  mkTriple (mem s) (buffers s) (lens s) i (reader_idx s) (shared_state s)
    (reader_slot s) (writer_slot s) (reader_log s) (writer_log s).
Definition set_reader_idx (i : nat) (s : TripleBuffer) : TripleBuffer :=
  mkTriple (mem s) (buffers s) (lens s) (writer_idx s) i (shared_state s)
    (reader_slot s) (writer_slot s) (reader_log s) (writer_log s).
Definition set_shared (ss : SharedState) (s : TripleBuffer) : TripleBuffer :=
  mkTriple (mem s) (buffers s) (lens s) (writer_idx s) (reader_idx s) ss
    (reader_slot s) (writer_slot s) (reader_log s) (writer_log s).
Definition set_middle_idx (i : nat) (s : TripleBuffer) : TripleBuffer :=
  set_shared (mkShared i (generation (shared_state s)) (last_read_gen (shared_state s))) s.
Definition set_generation (g : Z) (s : TripleBuffer) : TripleBuffer :=
  set_shared (mkShared (middle_idx (shared_state s)) g (last_read_gen (shared_state s))) s.
Definition set_last_read_gen (g : Z) (s : TripleBuffer) : TripleBuffer :=
  set_shared (mkShared (middle_idx (shared_state s)) (generation (shared_state s)) g) s.

Definition reader_ref : Notify.SlotRef TripleBuffer :=
  Notify.mkSlotRef _ reader_slot
    (fun sl s => mkTriple (mem s) (buffers s) (lens s) (writer_idx s) (reader_idx s) (shared_state s)
      sl (writer_slot s) (reader_log s) (writer_log s))
    reader_log
    (fun l s => mkTriple (mem s) (buffers s) (lens s) (writer_idx s) (reader_idx s) (shared_state s)
      (reader_slot s) (writer_slot s) l (writer_log s)).
Definition writer_ref : Notify.SlotRef TripleBuffer :=
  Notify.mkSlotRef _ writer_slot
    (fun sl s => mkTriple (mem s) (buffers s) (lens s) (writer_idx s) (reader_idx s) (shared_state s)
      (reader_slot s) sl (reader_log s) (writer_log s))
    writer_log
    (fun l s => mkTriple (mem s) (buffers s) (lens s) (writer_idx s) (reader_idx s) (shared_state s)
      (reader_slot s) (writer_slot s) (reader_log s) l).

Context (cap al : Z).

Section new.
Context `{AL : Buffer.Allocator T}.

(** [TripleBuffer::new], and the handles of [triple_buffer_aligned]. *)
Definition new (h : heap) : outcome (TripleBuffer * AlignedBuffer) :=
  '(b0, h) ← Buffer.with_alignment h cap al;
  '(b1, h) ← Buffer.with_alignment h cap al;
  '(b2, h) ← Buffer.with_alignment h cap al;
  Done (mkTriple h [0; (Buffer.into_raw b1).1; (Buffer.into_raw b2).1]%Z [0; 0; 0]%Z 0 1 (mkShared 2 0 0)
          Notify.new Notify.new [] [], b0).

Definition triple_buffer_aligned (h : heap) :
    outcome (TripleBuffer * TripleBufWriter * TripleBufReader * AlignedBuffer) :=
  '(tb, wbuf) ← new h;
  Done (tb, mkWriter None, mkReader None, wbuf).
End new.

(** [buffers[i].swap(p)]; indexing out of bounds panics. *)
Definition swap_at (i : nat) (p : Z) : prog TripleBuffer Z :=
  act (fun s =>
    match buffers s !! i with
    | Some old => Done (set_buffers (<[i := p]> (buffers s)) s, old)
    | None => Panicked "index out of bounds"
    end).
Definition store_len_at (i : nat) (n : Z) : prog TripleBuffer unit :=
  act (fun s =>
    match lens s !! i with
    | Some _ => Done (set_lens (<[i := n]> (lens s)) s, tt)
    | None => Panicked "index out of bounds"
    end).
Definition load_len_at (i : nat) : prog TripleBuffer Z :=
  act (fun s => match lens s !! i with Some n => Done (s, n) | None => Panicked "index out of bounds" end).

(** ** Accesses

    What the operations do to the shared state, with the ordering of each atomic
    access. [on_block] accesses the allocation at an address, by plain accesses.
    [current] ignores the orderings: its state holds the newest values;
    [WeakTriple.v] has an instance that takes them into account. *)
Class Accesses (S : Type) : Type := {
  load_writer_idx : ordering -> prog S nat;
  load_reader_idx : ordering -> prog S nat;
  load_middle_idx : ordering -> prog S nat;
  load_generation : ordering -> prog S Z;
  load_last_read : ordering -> prog S Z;
  load_len : nat -> ordering -> prog S Z;
  store_writer_idx : nat -> ordering -> prog S unit;
  store_reader_idx : nat -> ordering -> prog S unit;
  store_middle_idx : nat -> ordering -> prog S unit;
  store_generation : Z -> ordering -> prog S unit;
  store_last_read : Z -> ordering -> prog S unit;
  store_len : nat -> Z -> ordering -> prog S unit;
  swap_buffer : nat -> Z -> ordering -> prog S Z;
  on_block {A} : Z -> (heap -> outcome (heap * A)) -> prog S A;
  arm_writer : waker -> prog S unit;
  arm_reader : waker -> prog S unit;
  disarm_writer : prog S unit;
  disarm_reader : prog S unit;
  wake_writer : prog S unit;
  wake_reader : prog S unit;
  writer_fired : prog S nat;           (* wakers fired so far through a slot *)
  reader_fired : prog S nat
}.

#[global] Instance current : Accesses TripleBuffer := {
  load_writer_idx _ := load writer_idx;
  load_reader_idx _ := load reader_idx;
  load_middle_idx _ := load (fun s => middle_idx (shared_state s));
  load_generation _ := load (fun s => generation (shared_state s));
  load_last_read _ := load (fun s => last_read_gen (shared_state s));
  load_len i _ := load_len_at i;
  store_writer_idx i _ := store (set_writer_idx i);
  store_reader_idx i _ := store (set_reader_idx i);
  store_middle_idx i _ := store (set_middle_idx i);
  store_generation g _ := store (set_generation g);
  store_last_read g _ := store (set_last_read_gen g);
  store_len i n _ := store_len_at i n;
  swap_buffer i p _ := swap_at i p;
  on_block A p f := act (fun s => '(h, a) ← f (mem s); Done (set_mem h s, a));
  arm_writer := Notify.arm writer_ref;
  arm_reader := Notify.arm reader_ref;
  disarm_writer := Notify.disarm writer_ref;
  disarm_reader := Notify.disarm reader_ref;
  wake_writer := Notify.signal writer_ref;
  wake_reader := Notify.signal reader_ref;
  writer_fired := load (fun s => length (writer_log s));
  reader_fired := load (fun s => length (reader_log s))
}.

(** A local computation that may panic. *)
Definition local {S A} (o : outcome A) : prog S A := act (fun s => a ← o; Done (s, a)).

(** The waker a task is parked with, and how many wakers had been fired through its
    slot before the poll that parked it. *)
Abbreviation parking := (option (waker * nat)).

(** What a thread ends with: the contents it moved, how it is parked, and the
    buffer in its hands. *)
Abbreviation tended := (list (list T) * parking * option AlignedBuffer)%type.

Section operations.
Context {M : Type} `{Ac : Accesses M}.

Definition has_unread : prog M bool :=
  g ← load_generation SeqCst;
  l ← load_last_read SeqCst;
  Ret (negb (g =? l)%Z).

Definition middle_free : prog M bool :=
  g ← load_generation SeqCst;
  l ← load_last_read SeqCst;
  Ret (g =? l)%Z.

Definition writer_publish_now (completed : AlignedBuffer) : prog M AlignedBuffer :=
  let '(completed_ptr, completed_len) := Buffer.into_raw completed in
  wi ← load_writer_idx Relaxed;
  mi ← load_middle_idx Acquire;
  old ← swap_buffer wi completed_ptr Release;
  _ ← local (debug_assert (old =? 0)%Z "writer slot not empty");
  _ ← store_len wi completed_len Relaxed;
  _ ← store_writer_idx mi Relaxed;
  _ ← store_middle_idx wi Relaxed;
  g ← load_generation Relaxed;
  _ ← store_generation (wrapping_add g 1) SeqCst;
  p ← swap_buffer mi 0 Acquire;
  next ← local (if (p =? 0)%Z then Panicked "Invariant violated: middle buffer pointer was null"
                else Buffer.from_raw_with_len p 0 cap al);
  _ ← wake_reader;
  Ret next.

Definition reader_take_now (previous : option AlignedBuffer) : prog M AlignedBuffer :=
  g ← load_generation Acquire;
  ri ← load_reader_idx Relaxed;
  mi ← load_middle_idx Relaxed;
  _ ← match previous with
      | Some prev =>
          let '(prev_ptr, _) := Buffer.into_raw prev in
          old ← swap_buffer ri prev_ptr Release;
          _ ← local (debug_assert (old =? 0)%Z "reader slot not empty");
          store_len ri 0 Relaxed
      | None => Ret tt
      end;
  _ ← store_reader_idx mi Relaxed;
  _ ← store_middle_idx ri Relaxed;
  p ← swap_buffer mi 0 Acquire;
  _ ← local (if (p =? 0)%Z then Panicked "Invariant violated: middle buffer pointer was null" else Done tt);
  published_len ← load_len mi Relaxed;
  buf ← local (Buffer.from_raw_with_len p published_len cap al);
  _ ← store_last_read g SeqCst;
  _ ← wake_writer;
  Ret buf.

Definition try_publish_now (completed : AlignedBuffer) : prog M (result AlignedBuffer AlignedBuffer) :=
  b ← middle_free;
  if (b : bool) then next ← writer_publish_now completed; Ret (ROk next) else Ret (RErr completed).

Definition try_take_now (previous : option AlignedBuffer) :
    prog M (result AlignedBuffer (option AlignedBuffer)) :=
  b ← has_unread;
  if (b : bool) then buf ← reader_take_now previous; Ret (ROk buf) else Ret (RErr previous).

Definition stats : prog M BufferStats :=
  w ← load_writer_idx Relaxed;
  r ← load_reader_idx Relaxed;
  m ← load_middle_idx Relaxed;
  g ← load_generation Relaxed;
  Ret (mkStats w r m g).

(** [Drop for TripleBuffer]: free the buffers left in the slots. *)
Definition drop_slot (h : heap) (p : Z) : outcome heap :=
  if (p =? 0)%Z then Done h
  else b ← Buffer.from_raw_with_len p 0 cap al; Buffer.drop_buffer h b.
Definition drop_triple (s : TripleBuffer) : outcome heap :=
  foldl (fun h p => h ← h; drop_slot h p) (Done (mem s)) (buffers s).

(** ** Handles *)
Definition geometry_ok (b : AlignedBuffer) : bool :=
  (Buffer.capacity b =? cap)%Z && (Buffer.alignment b =? al)%Z.

Definition publish (w : TripleBufWriter) (buf : AlignedBuffer) : outcome TripleBufWriter :=
  _ ← assert_or (geometry_ok buf) "buffer geometry does not match this triple buffer";
  _ ← assert_or (bool_decide (w_held w = None)) "a previous publish was cancelled; call take_held_buffer() first";
  Done (mkWriter (Some buf)).

Definition writer_take_held_buffer (w : TripleBufWriter) : TripleBufWriter * option AlignedBuffer :=
  (mkWriter None, w_held w).

Definition try_publish (buf : AlignedBuffer) : prog M (result AlignedBuffer AlignedBuffer) :=
  _ ← local (assert_or (geometry_ok buf) "buffer geometry does not match this triple buffer");
  try_publish_now buf.

Definition next (r : TripleBufReader) (previous : option AlignedBuffer) : outcome TripleBufReader :=
  match previous with
  | Some b =>
      _ ← assert_or (geometry_ok b) "buffer geometry does not match this triple buffer";
      _ ← assert_or (bool_decide (r_held r = None)) "a previous read was cancelled; call take_held_buffer() first";
      Done (mkReader (Some b))
  | None => Done r
  end.

Definition reader_take_held_buffer (r : TripleBufReader) : TripleBufReader * option AlignedBuffer :=
  (mkReader None, r_held r).

Definition try_next (previous : option AlignedBuffer) :
    prog M (result AlignedBuffer (option AlignedBuffer)) :=
  _ ← match previous with
      | Some b => local (assert_or (geometry_ok b) "buffer geometry does not match this triple buffer")
      | None => Ret tt
      end;
  try_take_now previous.

(** [WriterPublish::poll]. *)
Definition poll_publish (w : TripleBufWriter) (wk : waker) :
    prog M (TripleBufWriter * Poll AlignedBuffer) :=
  match w_held w with
  | None => local (Panicked "polled without a held buffer")
  | Some buf =>
      r ← try_publish_now buf;
      match r with
      | ROk nxt => Ret (mkWriter None, Ready nxt)
      | RErr buf =>
          _ ← arm_writer wk;
          r ← try_publish_now buf;
          match r with
          | ROk nxt => _ ← disarm_writer; Ret (mkWriter None, Ready nxt)
          | RErr buf => Ret (mkWriter (Some buf), Pending)
          end
      end
  end.

(** [ReaderNext::poll]. *)
Definition poll_next (r : TripleBufReader) (wk : waker) :
    prog M (TripleBufReader * Poll AlignedBuffer) :=
  o ← try_take_now (r_held r);
  match o with
  | ROk buf => Ret (mkReader None, Ready buf)
  | RErr prev =>
      _ ← arm_reader wk;
      o ← try_take_now prev;
      match o with
      | ROk buf => _ ← disarm_reader; Ret (mkReader None, Ready buf)
      | RErr prev => Ret (mkReader prev, Pending)
      end
  end.
(** ** Two clients

    The writer fills its buffer, publishes, and keeps the buffer it gets back;
    the reader hands its previous buffer back with every call, as the ownership
    contract asks. Each notes the contents it published or received. *)
Definition fill (buf : AlignedBuffer) (xs : list T) : prog M AlignedBuffer :=
  on_block (Buffer.ptr buf) (fun h =>
    let xs := take (Z.to_nat cap) xs in
    h ← Buffer.capacity_mut h buf (fun d => xs ++ drop (length xs) d);
    b ← Buffer.set_len buf (Z.of_nat (length xs));
    Done (h, b)).
Definition contents (buf : AlignedBuffer) : prog M (list T) :=
  on_block (Buffer.ptr buf) (fun h => d ← Buffer.deref h buf; Done (h, d)).

Fixpoint drive_publish (w : TripleBufWriter) (ws : list waker) (parked : parking) :
    prog M (TripleBufWriter * option AlignedBuffer * parking) :=
  match ws with
  | [] => Ret (w, None, parked)
  | wk :: ws =>
      k ← writer_fired;
      '(w, r) ← poll_publish w wk;
      match r with
      | Ready nxt => Ret (w, Some nxt, None)
      | Pending => drive_publish w ws (Some (wk, k))
      end
  end.

Fixpoint drive_next (r : TripleBufReader) (ws : list waker) (parked : parking) :
    prog M (TripleBufReader * option AlignedBuffer * parking) :=
  match ws with
  | [] => Ret (r, None, parked)
  | wk :: ws =>
      k ← reader_fired;
      '(r, o) ← poll_next r wk;
      match o with
      | Ready buf => Ret (r, Some buf, None)
      | Pending => drive_next r ws (Some (wk, k))
      end
  end.

Inductive writer_op : Type :=
| Fill (xs : list T)
| TryPublish
| Publish (ws : list waker)
| WriterStats.

Inductive reader_op : Type :=
| TryNext
| Next (ws : list waker)
| ReaderStats.

(** A publish that is abandoned is followed by [take_held_buffer]. *)
Definition writer_step (buf : AlignedBuffer) (op : writer_op) :
    prog M (AlignedBuffer * list (list T) * parking) :=
  match op with
  | Fill xs => b ← fill buf xs; Ret (b, [], None)
  | TryPublish =>
      d ← contents buf;
      r ← try_publish buf;
      Ret match r with ROk nxt => (nxt, [d], None) | RErr b => (b, [], None) end
  | Publish ws =>
      d ← contents buf;
      w ← local (publish (mkWriter None) buf);
      '(w, o, pk) ← drive_publish w ws None;
      match o, (writer_take_held_buffer w).2 with
      | Some nxt, _ => Ret (nxt, [d], None)
      | None, Some b => Ret (b, [], pk)
      | None, None => local (Panicked "no held buffer")
      end
  | WriterStats => _ ← stats; Ret (buf, [], None)
  end.

Definition reader_step (prev : option AlignedBuffer) (op : reader_op) :
    prog M (option AlignedBuffer * list (list T) * parking) :=
  match op with
  | TryNext =>
      r ← try_next prev;
      match r with
      | ROk b => d ← contents b; Ret (Some b, [d], None)
      | RErr prev => Ret (prev, [], None)
      end
  | Next ws =>
      r ← local (next (mkReader None) prev);
      '(r, o, pk) ← drive_next r ws None;
      match o with
      | Some b => d ← contents b; Ret (Some b, [d], None)
      | None => Ret ((reader_take_held_buffer r).2, [], pk)
      end
  | ReaderStats => _ ← stats; Ret (prev, [], None)
  end.

Fixpoint writer_thread (buf : AlignedBuffer) (ops : list writer_op) (acc : list (list T)) (pk : parking) :
    prog M tended :=
  match ops with
  | [] => Ret (acc, pk, Some buf)
  | op :: ops => '(buf, ds, pk) ← writer_step buf op; writer_thread buf ops (acc ++ ds) pk
  end.

Fixpoint reader_thread (prev : option AlignedBuffer) (ops : list reader_op) (acc : list (list T)) (pk : parking) :
    prog M tended :=
  match ops with
  | [] => Ret (acc, pk, prev)
  | op :: ops => '(prev, ds, pk) ← reader_step prev op; reader_thread prev ops (acc ++ ds) pk
  end.

Definition triple_threads (wbuf : AlignedBuffer) (wops : list writer_op) (rops : list reader_op) :
    list (prog M tended) :=
  [writer_thread wbuf wops [] None; reader_thread None rops [] None].
End operations.

(** ** Invariant

    The middle slot is free and untouched, being written to by the writer, full
    and untouched, or being emptied by the reader. *)
Inductive token : Type := TFree | TWriting | TFull | TReading.

#[local] Instance token_eq_dec : EqDecision token.
Proof. solve_decision. Defined.

Record triple_ghost : Type := mkTG {
  hist : list (list T);
  got : nat;
  tok : token;
  wi : nat; mi : nat; ri : nat;
  wptr : Z; mptr : Z; rptr : Z;
  rg : Notify.SlotGhost;
  wg : Notify.SlotGhost
}.
Abbreviation config := (TripleBuffer * triple_ghost)%type.

Context (h0 : heap).
Abbreviation buf_at p n := (Buffer.mkBuf p n cap al).

Definition r_cond (x : config) : Prop := got x.2 < length (hist x.2).
Definition w_cond (x : config) : Prop := length (hist x.2) <= got x.2.
Abbreviation r_slot := (Notify.islot reader_ref rg r_cond).
Abbreviation w_slot := (Notify.islot writer_ref wg w_cond).

(** A buffer with its contents, as its owner knows it. *)
Definition filled (h : heap) (p n : Z) (d : list T) : Prop :=
  exists data, Buffer.owns h (buf_at p n) data /\ d = take (Z.to_nat n) data.

Record inv (x : config) : Prop := {
  ti_idx : wi x.2 < 3 /\ mi x.2 < 3 /\ ri x.2 < 3 /\ wi x.2 <> mi x.2 /\ wi x.2 <> ri x.2 /\ mi x.2 <> ri x.2;
  ti_ptr : wptr x.2 <> mptr x.2 /\ wptr x.2 <> rptr x.2 /\ mptr x.2 <> rptr x.2;
  ti_own p : p = wptr x.2 \/ p = mptr x.2 \/ p = rptr x.2 -> exists d, filled (mem x.1) p 0 d;
  ti_rest : delete (wptr x.2) (delete (mptr x.2) (delete (rptr x.2) (mem x.1))) = h0;
  ti_len : length (buffers x.1) = 3 /\ length (lens x.1) = 3;
  ti_gen : generation (shared_state x.1) = wrap (Z.of_nat (length (hist x.2)));
  ti_read : last_read_gen (shared_state x.1) = wrap (Z.of_nat (got x.2));
  ti_tok : length (hist x.2) = match tok x.2 with TFree | TWriting => got x.2 | TFull | TReading => S (got x.2) end;
  ti_mid : match tok x.2 with
    | TFree => middle_idx (shared_state x.1) = mi x.2 /\ buffers x.1 !! mi x.2 = Some (mptr x.2)
    | TFull => middle_idx (shared_state x.1) = mi x.2 /\ buffers x.1 !! mi x.2 = Some (mptr x.2) /\
        exists n d, lens x.1 !! mi x.2 = Some n /\ filled (mem x.1) (mptr x.2) n d /\ last (hist x.2) = Some d
    | TWriting | TReading => True
    end;
  ti_rslot : r_slot x;
  ti_wslot : w_slot x;
  ti_rids j : j <> 0 -> Notify.signallers (rg x.2) !! j = None;
  ti_wids j : j <> 1 -> Notify.signallers (wg x.2) !! j = None
}.

Definition put_rg (g : Notify.SlotGhost) (t : triple_ghost) : triple_ghost :=
  mkTG (hist t) (got t) (tok t) (wi t) (mi t) (ri t) (wptr t) (mptr t) (rptr t) g (wg t).
Definition put_wg (g : Notify.SlotGhost) (t : triple_ghost) : triple_ghost :=
  mkTG (hist t) (got t) (tok t) (wi t) (mi t) (ri t) (wptr t) (mptr t) (rptr t) (rg t) g.

(** Everything but the two slots. *)
Definition data_eq (s s' : TripleBuffer) : Prop :=
  mem s' = mem s /\ buffers s' = buffers s /\ lens s' = lens s /\ writer_idx s' = writer_idx s /\
  reader_idx s' = reader_idx s /\ shared_state s' = shared_state s.
Definition ghost_eq (g g' : triple_ghost) : Prop :=
  hist g' = hist g /\ got g' = got g /\ tok g' = tok g /\ wi g' = wi g /\ mi g' = mi g /\ ri g' = ri g /\
  wptr g' = wptr g /\ mptr g' = mptr g /\ rptr g' = rptr g.
Definition r_same (x x' : config) : Prop :=
  data_eq x.1 x'.1 /\ ghost_eq x.2 x'.2 /\ writer_slot x'.1 = writer_slot x.1 /\ writer_log x'.1 = writer_log x.1 /\
  wg x'.2 = wg x.2.
Definition w_same (x x' : config) : Prop :=
  data_eq x.1 x'.1 /\ ghost_eq x.2 x'.2 /\ reader_slot x'.1 = reader_slot x.1 /\ reader_log x'.1 = reader_log x.1 /\
  rg x'.2 = rg x.2.

Lemma r_in : Notify.SlotIn reader_ref rg put_rg r_same r_cond.
Proof.
  split; try done; [by intros []|]. intros x x' (_ & (Hh & Hg & _) & _). unfold r_cond. by rewrite Hh, Hg.
Qed.
Lemma w_in : Notify.SlotIn writer_ref wg put_wg w_same w_cond.
Proof.
  split; try done; [by intros []|]. intros x x' (_ & (Hh & Hg & _) & _). unfold w_cond. by rewrite Hh, Hg.
Qed.

Lemma inv_slots x x' :
  data_eq x.1 x'.1 -> ghost_eq x.2 x'.2 -> inv x -> r_slot x' -> w_slot x' ->
  (forall j, j <> 0 -> Notify.signallers (rg x'.2) !! j = None) ->
  (forall j, j <> 1 -> Notify.signallers (wg x'.2) !! j = None) -> inv x'.
Proof.
  intros (Hm & Hb & Hl & Hw & Hr & Hss) (Hh & Hg & Ht & H1 & H2 & H3 & H4 & H5 & H6) [] Hrs Hws Hri Hwi.
  split; rewrite ?Hm, ?Hb, ?Hl, ?Hw, ?Hr, ?Hss, ?Hh, ?Hg, ?Ht, ?H1, ?H2, ?H3, ?H4, ?H5, ?H6; done.
Qed.
(** The steps of the two sides, as the other one sees them. *)
Record writer_move (x x' : config) : Prop := {
  wm_inv : inv x';
  wm_got : got x'.2 = got x.2;
  wm_hist : hist x.2 `prefix_of` hist x'.2;
  wm_own : ri x'.2 = ri x.2 /\ rptr x'.2 = rptr x.2 /\ reader_idx x'.1 = reader_idx x.1;
  wm_slot : buffers x'.1 !! ri x.2 = buffers x.1 !! ri x.2 /\ lens x'.1 !! ri x.2 = lens x.1 !! ri x.2;
  wm_mem p : p <> wptr x.2 -> mem x'.1 !! p = mem x.1 !! p;
  wm_tok : tok x.2 = TReading -> tok x'.2 = TReading /\ hist x'.2 = hist x.2 /\ mi x'.2 = mi x.2 /\ mptr x'.2 = mptr x.2 /\
    middle_idx (shared_state x'.1) = middle_idx (shared_state x.1) /\
    buffers x'.1 !! mi x.2 = buffers x.1 !! mi x.2 /\ lens x'.1 !! mi x.2 = lens x.1 !! mi x.2;
  wm_iff : tok x.2 = TReading <-> tok x'.2 = TReading;
  wm_env : Notify.waiter_env reader_ref rg x x';
  wm_sig : Notify.signallers (wg x'.2) = Notify.signallers (wg x.2)
}.
Record reader_move (x x' : config) : Prop := {
  rm_inv : inv x';
  rm_hist : hist x'.2 = hist x.2;
  rm_own : wi x'.2 = wi x.2 /\ wptr x'.2 = wptr x.2 /\ writer_idx x'.1 = writer_idx x.1;
  rm_slot : buffers x'.1 !! wi x.2 = buffers x.1 !! wi x.2 /\ lens x'.1 !! wi x.2 = lens x.1 !! wi x.2;
  rm_mem : mem x'.1 = mem x.1;
  rm_tok : tok x.2 = TWriting <-> tok x'.2 = TWriting;
  rm_mid : tok x.2 = TWriting -> mi x'.2 = mi x.2 /\ mptr x'.2 = mptr x.2 /\ got x'.2 = got x.2 /\
    middle_idx (shared_state x'.1) = middle_idx (shared_state x.1) /\ buffers x'.1 !! mi x.2 = buffers x.1 !! mi x.2;
  rm_env : Notify.waiter_env writer_ref wg x x';
  rm_sig : Notify.signallers (rg x'.2) = Notify.signallers (rg x.2)
}.

Definition guar (i : nat) (x x' : config) : Prop :=
  match i with 0 => inv x -> writer_move x x' | 1 => inv x -> reader_move x x' | _ => False end.
Definition rely (i : nat) (x x' : config) : Prop :=
  match i with 0 => guar 1 x x' | 1 => guar 0 x x' | _ => True end.

Lemma triple_guar_rely i j x x' : i <> j -> guar i x x' -> rely j x x'.
Proof. destruct i as [|[|i]], j as [|[|j]]; simpl; try done; lia. Qed.

Lemma writer_still x : inv x -> writer_move x x.
Proof. intros Hi. by split. Qed.
Lemma reader_still x : inv x -> reader_move x x.
Proof. intros Hi. by split. Qed.

(** ** The writer's view *)
Record writer_view : Type := mkWV {
  v_hist : list (list T);     (* what it has published *)
  v_wi : nat;                 (* its slot, and that slot's pointer and length *)
  v_slot : Z;
  v_len : Z;
  v_idx : nat;                (* the index it has stored *)
  v_wp : Z;                   (* its buffer's address, logical length and contents *)
  v_n : Z;
  v_data : list T
}.

(** The middle, while the writer owns it: slot, address, stored index, pointer. *)
Abbreviation middle_view := (nat * Z * nat * Z)%type.

Definition writer_mid (o : option middle_view) (x : config) : Prop :=
  match o with
  | None => tok x.2 <> TWriting
  | Some (m, p, i, q) => tok x.2 = TWriting /\ mi x.2 = m /\ mptr x.2 = p /\
      middle_idx (shared_state x.1) = i /\ buffers x.1 !! m = Some q
  end.

Record writer_owns (v : writer_view) (o : option middle_view) (x : config) : Prop := {
  wo_inv : inv x;
  wo_hist : hist x.2 = v_hist v;
  wo_wi : wi x.2 = v_wi v;
  wo_wp : wptr x.2 = v_wp v;
  wo_idx : writer_idx x.1 = v_idx v;
  wo_slot : buffers x.1 !! v_wi v = Some (v_slot v);
  wo_len : lens x.1 !! v_wi v = Some (v_len v);
  wo_data : filled (mem x.1) (v_wp v) (v_n v) (v_data v);
  wo_mid : writer_mid o x
}.

(** Between operations the writer has no signal pending and knows how it waits. *)
Definition writing (v : writer_view) (o : option middle_view) (st : Notify.Waiting) (x : config) : Prop :=
  writer_owns v o x /\ Notify.signallers (rg x.2) !! 0 = None /\ Notify.waiting writer_ref wg st x.

Lemma writer_owns_move v o x x' : writer_owns v o x -> reader_move x x' -> writer_owns v o x'.
Proof.
  intros [Hi Hh Hwi Hwp Hidx Hsl Hln Hd Hm] [Hi' Hh' (Hwi' & Hwp' & Hidx') (Hsl' & Hln') Hmem Htok Hmid Henv Hsig].
  rewrite Hwi in Hsl', Hln'. split; try congruence.
  destruct o as [[[[m p] i] q]|]; simpl in *; [|tauto].
  destruct Hm as (Ht & Hmi & Hmp & Hi2 & Hq). destruct (Hmid Ht) as (? & ? & _ & ? & Hb). rewrite Hmi in Hb.
  split_and!; try congruence; tauto.
Qed.

Lemma writing_stable v o st : stable (rely 0) (writing v o st).
Proof.
  intros x x' (Hx & Hs & Hw) Hm. pose proof (Hm (wo_inv _ _ _ Hx)) as Hm'.
  split; [by eapply writer_owns_move|]. split; [by rewrite (rm_sig _ _ Hm')|].
  eapply Notify.waiting_env; [exact Hw|]. apply (rm_env _ _ Hm').
Qed.

(** A step that changes only what the writer owns. *)
Lemma writer_private s g s' :
  inv (s, g) -> mem s' = mem s -> length (buffers s') = 3 -> length (lens s') = 3 ->
  (forall j, j <> wi g -> buffers s' !! j = buffers s !! j) -> (forall j, j <> wi g -> lens s' !! j = lens s !! j) ->
  reader_idx s' = reader_idx s ->
  generation (shared_state s') = generation (shared_state s) ->
  last_read_gen (shared_state s') = last_read_gen (shared_state s) ->
  (tok g = TWriting \/ middle_idx (shared_state s') = middle_idx (shared_state s)) ->
  reader_slot s' = reader_slot s -> writer_slot s' = writer_slot s ->
  reader_log s' = reader_log s -> writer_log s' = writer_log s ->
  writer_move (s, g) (s', g).
Proof.
  intros Hi Hm Hlb Hll Hb Hl Hr Hg Hlr Hmid Hrs Hws Hrl Hwl.
  pose proof Hi as [Hidx Hptr Hown Hrest Hlen Hgen Hread Htok Hmd Hrsl Hwsl Hri Hwi]. cbn [fst snd] in *.
  destruct Hidx as (H1 & H2 & H3 & H4 & H5 & H6).
  assert (inv (s', g)) as Hi'.
  { split; cbn [fst snd]; rewrite ?Hm, ?Hg, ?Hlr; try done.
    - rewrite !Hb, !Hl by done. destruct (tok g) eqn:Ht; try done; destruct Hmid as [?| ->]; done.
    - unfold Notify.islot in *. simpl in *. by rewrite Hrs, Hrl.
    - unfold Notify.islot in *. simpl in *. by rewrite Hws, Hwl. }
  split; cbn [fst snd]; try done.
  - split; [apply Hb|apply Hl]; done.
  - by rewrite Hm.
  - intros Ht. destruct Hmid as [?| ->]; [congruence|]. split_and!; try done; [apply Hb|apply Hl]; done.
  - by apply Notify.still_env.
Qed.

(** Such a step, from the writer's view: [v'] and [o'] describe what it changed. *)
Lemma writing_step v o st v' o' s g s' :
  writing v o st (s, g) -> writer_move (s, g) (s', g) -> mem s' = mem s -> writer_slot s' = writer_slot s ->
  writer_log s' = writer_log s -> v_hist v' = v_hist v -> v_wi v' = v_wi v -> v_wp v' = v_wp v ->
  v_n v' = v_n v -> v_data v' = v_data v -> writer_idx s' = v_idx v' ->
  buffers s' !! v_wi v' = Some (v_slot v') -> lens s' !! v_wi v' = Some (v_len v') -> writer_mid o' (s', g) ->
  writing v' o' st (s', g).
Proof.
  intros ([Hi Hh Hwi Hwp Hidx Hsl Hln Hd Hm] & Hs & Hw) Hmv Hmem Hws Hwl E1 E2 E3 E4 E5 Hi2 Hsl2 Hln2 Hm2. cbn [fst snd] in *.
  split; [|split; [done|by eapply Notify.waiting_same]].
  split; try done; try (cbn [fst snd]; congruence). apply Hmv.
Qed.
Lemma wp_writer_load {A B} v o st (f : TripleBuffer -> A) a (k : A -> prog TripleBuffer B) Q x :
  writing v o st x -> (forall s g, writing v o st (s, g) -> f s = a) ->
  (forall x', writing v o st x' -> wp (rely 0) (guar 0) (k a) Q x') ->
  wp (rely 0) (guar 0) (b ← load f; k b) Q x.
Proof.
  intros Hx Hf Hk. eapply wp_act; [apply writing_stable|exact Hx|]. intros s g Hy.
  exists s, a, g. split; [by rewrite (Hf s g Hy)|]. split; [intros Hi; by apply writer_still|]. by apply Hk.
Qed.

Lemma wp_writer_local {A B} v o st (r : outcome A) a (k : A -> prog TripleBuffer B) Q x :
  writing v o st x -> r = Done a -> (forall x', writing v o st x' -> wp (rely 0) (guar 0) (k a) Q x') ->
  wp (rely 0) (guar 0) (b ← local r; k b) Q x.
Proof.
  intros Hx -> Hk. eapply wp_act; [apply writing_stable|exact Hx|]. intros s g Hy.
  exists s, a, g. split; [done|]. split; [intros Hi; by apply writer_still|]. by apply Hk.
Qed.

(** The writer's own slot. *)
Lemma wp_writer_swap {B} v o st i p (k : Z -> prog TripleBuffer B) Q x :
  writing v o st x -> v_wi v = i ->
  (forall x', writing (mkWV (v_hist v) (v_wi v) p (v_len v) (v_idx v) (v_wp v) (v_n v) (v_data v)) o st x' ->
    wp (rely 0) (guar 0) (k (v_slot v)) Q x') ->
  wp (rely 0) (guar 0) (old ← swap_at i p; k old) Q x.
Proof.
  intros Hx <- Hk. eapply wp_act; [apply writing_stable|exact Hx|]. intros s g Hy.
  pose proof Hy as ([Hi Hh Hwi Hwp Hidx Hsl Hln Hd Hm] & Hs & Hw). cbn [fst snd] in *.
  pose proof (ti_len _ Hi) as [Hl1 Hl2]. pose proof (ti_idx _ Hi) as (H1 & _ & _ & H2 & _). cbn [fst snd] in *. rewrite Hsl.
  eexists _, _, g. split; [done|].
  assert (writer_move (s, g) (set_buffers (<[v_wi v := p]> (buffers s)) s, g)) as Hmv.
  { apply writer_private; try done; [simpl; by rewrite length_insert| |by right].
    intros j Hj. simpl. by rewrite list_lookup_insert_ne by congruence. }
  split; [intros _; exact Hmv|]. apply Hk. eapply writing_step; try done.
  - simpl. apply list_lookup_insert_eq. rewrite Hl1. congruence.
  - destruct o as [[[[m p'] i] q]|]; [|done]. destruct Hm as (Ht & Hmi & Hmp & Hmi2 & Hq). cbn [fst snd] in *.
    split_and!; try done. simpl. rewrite list_lookup_insert_ne by congruence. done.
Qed.

Lemma wp_writer_len {B} v o st i n (k : unit -> prog TripleBuffer B) Q x :
  writing v o st x -> v_wi v = i ->
  (forall x', writing (mkWV (v_hist v) (v_wi v) (v_slot v) n (v_idx v) (v_wp v) (v_n v) (v_data v)) o st x' ->
    wp (rely 0) (guar 0) (k tt) Q x') ->
  wp (rely 0) (guar 0) (u ← store_len_at i n; k u) Q x.
Proof.
  intros Hx <- Hk. eapply wp_act; [apply writing_stable|exact Hx|]. intros s g Hy.
  pose proof Hy as ([Hi Hh Hwi Hwp Hidx Hsl Hln Hd Hm] & Hs & Hw). cbn [fst snd] in *.
  pose proof (ti_len _ Hi) as [Hl1 Hl2]. pose proof (ti_idx _ Hi) as (H1 & _). cbn [fst snd] in *. rewrite Hln.
  eexists _, tt, g. split; [done|].
  assert (writer_move (s, g) (set_lens (<[v_wi v := n]> (lens s)) s, g)) as Hmv.
  { apply writer_private; try done; [simpl; by rewrite length_insert| |by right].
    intros j Hj. simpl. by rewrite list_lookup_insert_ne by congruence. }
  split; [intros _; exact Hmv|]. apply Hk. eapply writing_step; try done.
  simpl. apply list_lookup_insert_eq. rewrite Hl2. congruence.
Qed.

Lemma wp_writer_idx {B} v o st i (k : unit -> prog TripleBuffer B) Q x :
  writing v o st x ->
  (forall x', writing (mkWV (v_hist v) (v_wi v) (v_slot v) (v_len v) i (v_wp v) (v_n v) (v_data v)) o st x' ->
    wp (rely 0) (guar 0) (k tt) Q x') ->
  wp (rely 0) (guar 0) (u ← store (set_writer_idx i); k u) Q x.
Proof.
  intros Hx Hk. eapply wp_act; [apply writing_stable|exact Hx|]. intros s g Hy.
  pose proof Hy as ([Hi Hh Hwi Hwp Hidx Hsl Hln Hd Hm] & Hs & Hw). pose proof (ti_len _ Hi) as [Hl1 Hl2]. cbn [fst snd] in *.
  eexists _, tt, g. split; [done|].
  assert (writer_move (s, g) (set_writer_idx i s, g)) as Hmv by (apply writer_private; try done; by right).
  split; [intros _; exact Hmv|]. apply Hk. by eapply writing_step.
Qed.

Lemma wp_writer_middle {B} v m p i0 q st i (k : unit -> prog TripleBuffer B) Q x :
  writing v (Some (m, p, i0, q)) st x ->
  (forall x', writing v (Some (m, p, i, q)) st x' -> wp (rely 0) (guar 0) (k tt) Q x') ->
  wp (rely 0) (guar 0) (u ← store (set_middle_idx i); k u) Q x.
Proof.
  intros Hx Hk. eapply wp_act; [apply writing_stable|exact Hx|]. intros s g Hy.
  pose proof Hy as ([Hi Hh Hwi Hwp Hidx Hsl Hln Hd Hm] & Hs & Hw). pose proof (ti_len _ Hi) as [Hl1 Hl2]. cbn [fst snd] in *.
  destruct Hm as (Ht & Hmi & Hmp & Hmi2 & Hq). cbn [fst snd] in *.
  eexists _, tt, g. split; [done|].
  assert (writer_move (s, g) (set_middle_idx i s, g)) as Hmv by (apply writer_private; try done; by left).
  split; [intros _; exact Hmv|]. apply Hk. by eapply writing_step.
Qed.

(** The publication: the writer's slot becomes the middle. *)
Definition publish_ghost (d : list T) (g : triple_ghost) : triple_ghost :=
  mkTG (hist g ++ [d]) (got g) TFull (mi g) (wi g) (ri g) (mptr g) (wptr g) (rptr g)
    (Notify.set_phase 0 (Some Notify.Owes) (Notify.holder (rg g)) (rg g)) (wg g).

Lemma filled_zero h p n d : filled h p n d -> exists d', filled h p 0 d'.
Proof.
  intros (data & Ho & _). exists (take (Z.to_nat 0) data), data. split; [|done].
  apply (Buffer.owns_set_len _ (buf_at p n) _ 0 Ho). destruct Ho as [_ _ Hn _]. simpl in *. lia.
Qed.

Lemma writer_commit v p st s g :
  writing v (Some (v_idx v, p, v_wi v, p)) st (s, g) -> v_slot v = v_wp v -> v_len v = v_n v ->
  let x' := (set_generation (wrapping_add (wrap (Z.of_nat (length (v_hist v)))) 1) s, publish_ghost (v_data v) g) in
  writer_move (s, g) x' /\
  (exists d' ln, writer_owns (mkWV (v_hist v ++ [v_data v]) (v_idx v) p ln (v_idx v) p 0 d') None x') /\
  Notify.signallers (rg x'.2) !! 0 = Some Notify.Owes /\ Notify.waiting writer_ref wg st x'.
Proof.
  intros ([Hi Hh Hwi Hwp Hidx Hsl Hln Hd Hm] & Hs & Hw) Hslot Hlen x'.
  destruct Hm as (Ht & Hmi & Hmp & Hmi2 & Hq). cbn [fst snd] in *.
  pose proof Hi as [Hix Hptr Hown Hrest [Hl1 Hl2] Hgen Hread Htok Hmd Hrsl Hwsl Hri Hwids]. cbn [fst snd] in *.
  destruct Hix as (H1 & H2 & H3 & H4 & H5 & H6). rewrite Ht in Htok.
  assert (inv x') as Hi'.
  { split; cbn [x' fst snd publish_ghost hist got tok wi mi ri wptr mptr rptr rg wg]; try done.
    - split_and!; lia.
    - intros q [-> |[-> | ->]]; apply Hown; auto.
    - rewrite <-Hrest. apply delete_delete.
    - simpl. rewrite wrapping_add_wrap, length_app. f_equal. rewrite Hh. simpl. lia.
    - rewrite length_app, Htok. simpl. lia.
    - simpl. rewrite Hwi, Hwp, <-Hslot. split_and!; [done|done|]. exists (v_n v), (v_data v).
      rewrite <-Hlen at 1. rewrite Hslot. split_and!; [done|done|]. by rewrite last_snoc.
    - eapply Notify.publish; [exact Hrsl|by left].
    - eapply Notify.slot_inv_mono; [|exact Hwsl]. unfold w_cond. cbn [x' snd publish_ghost hist got].
      rewrite length_app. simpl. lia.
    - intros j Hj. rewrite Notify.phase_ne by done. by apply Hri. }
  split; [|split; [|split]].
  - split; cbn [x' fst snd publish_ghost]; try done; [by apply prefix_app_r|congruence|by rewrite Ht|].
    eapply Notify.publish_env; [done|done|by left|done].
  - destruct (Hown p) as [d' Hd']; [right; by left|].
    destruct (lookup_lt_is_Some_2 (lens s) (v_idx v)) as [ln Hln2]; [rewrite Hl2; congruence|].
    exists d', ln. split; cbn [x' fst snd publish_ghost]; try done; simpl; congruence.
  - apply Notify.phase_eq.
  - by eapply Notify.waiting_same.
Qed.
(** Signalling the reader. *)
Lemma writer_signal_move x x' :
  Notify.signaller_move reader_ref rg r_same 0 x x' -> inv x -> writer_move x x'.
Proof.
  intros Hm Hi. pose proof Hm as [(Hd & Hg & Hws & Hwl & Hwg) Hst].
  assert (inv x') as Hi'.
  { eapply inv_slots; [done|done|done|..].
    - eapply (Notify.signaller_move_inv _ _ _ _ _ r_in); [exact Hm|apply Hi].
    - pose proof (ti_wslot _ Hi) as Hsl. destruct Hg as (Hh & Hgt & _).
      unfold Notify.islot, w_cond in *. simpl in *. by rewrite Hws, Hwl, Hwg, Hh, Hgt.
    - intros j Hj. rewrite (Notify.ss_others _ _ _ _ _ _ _ Hst) by done. by apply Hi.
    - intros j Hj. rewrite Hwg. by apply Hi. }
  destruct Hd as (Hm' & Hb & Hl & Hw & Hr & Hss). destruct Hg as (Hh & Hgt & Ht & H1 & H2 & H3 & H4 & H5 & H6).
  split; try congruence; [by rewrite Hh|by split_and!|by rewrite Hb, Hl|intros Ht'; split_and!; congruence|by rewrite Ht|].
  eapply Notify.signaller_move_env; [exact Hm|apply Hi].
Qed.

Lemma writer_owns_slots v x x' :
  writer_owns v None x -> inv x' -> data_eq x.1 x'.1 -> ghost_eq x.2 x'.2 -> writer_owns v None x'.
Proof.
  intros [Hi Hh Hwi Hwp Hidx Hsl Hln Hd Hm] Hi' (Em & Eb & El & Ew & Er & Ess) (Gh & Gg & Gt & G1 & G2 & G3 & G4 & G5 & G6).
  split; try congruence.
Qed.

Lemma wp_writer_signal v st Q x :
  writer_owns v None x -> Notify.signallers (rg x.2) !! 0 = Some Notify.Owes -> Notify.waiting writer_ref wg st x ->
  (forall x', writing v None st x' -> Q tt x') ->
  wp (rely 0) (guar 0) wake_reader Q x.
Proof.
  intros Hx Hs Hw HQ. unfold wake_reader.
  apply (Notify.wp_signal _ _ _ _ _ r_in 0 (rely 0) (guar 0)
    (fun x => writer_owns v None x /\ Notify.waiting writer_ref wg st x)).
  - intros y y' Hm _ [Hy Hwy]. pose proof (Hm (wo_inv _ _ _ Hy)) as Hm'.
    split; [apply (rm_inv _ _ Hm')|]. split; [|by rewrite (rm_sig _ _ Hm')].
    split; [by eapply writer_owns_move|]. eapply Notify.waiting_env; [exact Hwy|apply (rm_env _ _ Hm')].
  - intros y y' Hm _ _. intros Hi. by apply writer_signal_move.
  - intros y y' Hm _ [Hy Hwy]. pose proof (writer_signal_move y y' Hm (wo_inv _ _ _ Hy)) as Hmv.
    destruct Hm as [(Hd & Hg & Hws & Hwl & Hwg) _]. split.
    + eapply writer_owns_slots; [exact Hy|apply Hmv|done|done].
    + by eapply Notify.waiting_same.
  - apply (wo_inv _ _ _ Hx).
  - done.
  - by right.
  - intros x' (_ & [? ?] & ?). by apply HQ.
Qed.

(** The writer's buffer in hand, its slot empty. *)
Definition in_hand (v : writer_view) (b : AlignedBuffer) : Prop :=
  v_idx v = v_wi v /\ v_slot v = 0%Z /\ b = buf_at (v_wp v) (v_n v).

Lemma in_hand_geometry v b : in_hand v b -> geometry_ok b = true.
Proof. intros (_ & _ & ->). unfold geometry_ok, Buffer.capacity, Buffer.alignment. simpl. by rewrite !Z.eqb_refl. Qed.

Lemma from_raw_filled h p n d : filled h p n d -> p <> 0%Z /\ Buffer.from_raw_with_len p n cap al = Done (buf_at p n).
Proof.
  intros (data & Ho & _). split; [apply (Buffer.owns_ptr _ _ _ Ho)|]. apply (Buffer.from_raw_owns _ (buf_at p n) _ Ho).
Qed.

Lemma wp_writer_publish_now v b m p st Q x :
  writing v (Some (m, p, m, p)) st x -> in_hand v b ->
  (forall v' b' x', writing v' None st x' -> in_hand v' b' -> v_hist v' = v_hist v ++ [v_data v] -> Q b' x') ->
  wp (rely 0) (guar 0) (writer_publish_now b) Q x.
Proof.
  intros Hx (Hi1 & Hi2 & ->) HQ. unfold writer_publish_now. cbn [Buffer.into_raw Buffer.ptr Buffer.len].
  destruct v as [h w0 sl ln ix q n d]. simpl in Hi1, Hi2. subst ix sl. cbn [v_wp v_n v_hist v_data] in *.
  eapply (wp_writer_load _ _ _ _ w0); [exact Hx|by intros s g [[] _]|]. clear x Hx. intros x Hx.
  eapply (wp_writer_load _ _ _ _ m); [exact Hx|by intros s g [[? ? ? ? ? ? ? ? (? & ? & ? & ? & ?)] _]|].
  clear x Hx. intros x Hx. eapply wp_writer_swap; [exact Hx|done|]. clear x Hx. intros x Hx. cbn [v_slot] in *.
  eapply wp_writer_local; [exact Hx|apply Buffer.debug_assert_true|]. clear x Hx. intros x Hx.
  eapply wp_writer_len; [exact Hx|done|]. clear x Hx. intros x Hx. cbn in Hx.
  eapply wp_writer_idx; [exact Hx|]. clear x Hx. intros x Hx. cbn in Hx.
  eapply wp_writer_middle; [exact Hx|]. clear x Hx. intros x Hx.
  eapply (wp_writer_load _ _ _ _ (wrap (Z.of_nat (length h)))); [exact Hx| |].
  { intros s g [[Hi Hh _ _ _ _ _ _ _] _]. pose proof (ti_gen _ Hi) as Hg. cbn [fst snd v_hist] in *. by rewrite Hg, Hh. }
  clear x Hx. intros x Hx. eapply wp_act; [apply writing_stable|exact Hx|]. clear x Hx. intros s g Hx.
  destruct (writer_commit _ p st s g Hx eq_refl eq_refl) as (Hmv & (d' & ln' & Hown) & Hsig & Hw).
  eexists _, tt, _. split; [done|]. split; [intros _; exact Hmv|]. cbn [v_hist v_data v_idx] in *.
  clear Hmv. match type of Hown with writer_owns _ _ ?y => generalize dependent y end. clear s g Hx. intros x Hown Hsig Hw.
  eapply (wp_act _ _ _ _ (fun x => writer_owns (mkWV (h ++ [d]) m p ln' m p 0 d') None x /\
    Notify.signallers (rg x.2) !! 0 = Some Notify.Owes /\ Notify.waiting writer_ref wg st x)); [|done|].
  { intros y y' (Hy & Hsy & Hwy) Hm. pose proof (Hm (wo_inv _ _ _ Hy)) as Hm'.
    split; [by eapply writer_owns_move|]. split; [by rewrite (rm_sig _ _ Hm')|].
    eapply Notify.waiting_env; [exact Hwy|apply (rm_env _ _ Hm')]. }
  clear x Hown Hsig Hw. intros s g (Hown & Hsig & Hw).
  pose proof Hown as [Hi Hh Hwi Hwp Hidx Hsl Hln Hd Hm]. cbn [fst snd v_wi v_slot v_wp v_idx v_len v_n v_data v_hist] in *.
  pose proof (ti_len _ Hi) as [Hl1 Hl2]. pose proof (ti_idx _ Hi) as (H1 & _). cbn [fst snd] in *. rewrite Hsl.
  eexists _, p, g. split; [done|].
  assert (writer_move (s, g) (set_buffers (<[m := 0%Z]> (buffers s)) s, g)) as Hmv.
  { apply writer_private; try done; [simpl; by rewrite length_insert| |by right].
    intros j Hj. simpl. by rewrite list_lookup_insert_ne by congruence. }
  split; [intros _; exact Hmv|].
  set (v' := mkWV (h ++ [d]) m 0 ln' m p 0 d').
  assert (writer_owns v' None (set_buffers (<[m := 0%Z]> (buffers s)) s, g)) as Hown'.
  { split; try done; [apply Hmv|]. simpl. apply list_lookup_insert_eq. rewrite Hl1. congruence. }
  destruct (from_raw_filled _ _ _ _ Hd) as [Hp0 Hraw].
  eapply (wp_act _ _ _ _ (fun x => writer_owns v' None x /\
    Notify.signallers (rg x.2) !! 0 = Some Notify.Owes /\ Notify.waiting writer_ref wg st x)).
  { intros y y' (Hy & Hsy & Hwy) Hm'. pose proof (Hm' (wo_inv _ _ _ Hy)) as Hm2.
    split; [by eapply writer_owns_move|]. split; [by rewrite (rm_sig _ _ Hm2)|].
    eapply Notify.waiting_env; [exact Hwy|apply (rm_env _ _ Hm2)]. }
  { split_and!; [done|done|by eapply Notify.waiting_same]. }
  clear Hown Hi Hh Hwi Hwp Hidx Hsl Hln Hd Hm Hl1 Hl2 H1 Hmv Hown' Hsig Hw s g. intros s g (Hown & Hsig & Hw).
  rewrite (proj2 (Z.eqb_neq _ _) Hp0), Hraw. exists s, (buf_at p 0), g. split; [done|].
  split; [intros Hi; by apply writer_still|]. apply wp_bind.
  eapply wp_writer_signal; [exact Hown|done|exact Hw|]. intros x Hx.
  eapply wp_ret; [apply writing_stable|exact Hx|]. intros y Hy. by apply (HQ v').
Qed.
(** The writer finds the middle occupied: an armed one parks. *)
Lemma writer_rest v st s g :
  writing v None st (s, g) -> length (hist g) = S (got g) ->
  exists g', writer_move (s, g) (s, g') /\ writing v None (Notify.rest st) (s, g').
Proof.
  intros ([Hi Hh Hwi Hwp Hidx Hsl Hln Hd Hm] & Hs & Hw) Hlen. cbn [fst snd] in *.
  destruct (Notify.waiting_rest _ _ _ _ _ w_in st s g (ti_wslot _ Hi) Hw) as [[Hsl' Hw'] Hg'].
  { intros g' Hc. unfold w_cond in Hc. simpl in Hc. lia. }
  exists (Notify.rest_ghost wg put_wg st g). generalize dependent (Notify.rest_ghost wg put_wg st g). intros g' Hsl' Hw' Hg'.
  assert (inv (s, g') /\ ghost_eq g g' /\ rg g' = rg g /\ Notify.signallers (wg g') = Notify.signallers (wg g))
    as (Hi' & (Gh & Gg & Gt & G1 & G2 & G3 & G4 & G5 & G6) & Hrg & Hsg).
  { destruct Hg' as [-> |[p ->]]; [by split_and!|]. split_and!; try done.
    eapply inv_slots; [| |exact Hi|apply Hi|exact Hsl'|apply Hi|apply Hi]; done. }
  split.
  - split; cbn [fst snd]; try done; [by rewrite Gh|intros Ht; split_and!; congruence|by rewrite Gt|]. by apply Notify.still_env.
  - split; [|split; [cbn [snd]; by rewrite Hrg|exact Hw']]. split; cbn [fst snd]; try congruence. simpl in *. congruence.
Qed.

(** The writer takes the middle, or rests. *)
Lemma wp_middle_free {B} v st (k : bool -> prog TripleBuffer B) Q x :
  writing v None st x ->
  (forall m p x', writing v (Some (m, p, m, p)) st x' -> wp (rely 0) (guar 0) (k true) Q x') ->
  (forall x', writing v None (Notify.rest st) x' -> wp (rely 0) (guar 0) (k false) Q x') ->
  wp (rely 0) (guar 0) (b ← middle_free; k b) Q x.
Proof.
  intros Hx Htrue Hfalse. apply wp_bind. unfold middle_free.
  eapply (wp_writer_load _ _ _ _ (wrap (Z.of_nat (length (v_hist v))))); [exact Hx| |].
  { intros s g [[Hi Hh _ _ _ _ _ _ _] _]. pose proof (ti_gen _ Hi) as Hg. cbn [fst snd] in *. by rewrite Hg, Hh. }
  clear x Hx. intros x Hx. eapply wp_act; [apply writing_stable|exact Hx|]. clear x Hx. intros s g Hx.
  pose proof Hx as (Hown & Hs & Hw). pose proof Hown as [Hi Hh Hwi Hwp Hidx Hsl Hln Hd Hm].
  pose proof Hi as [Hix Hptr Howns Hrest Hlens Hgen Hread Htok Hmd Hrsl Hwsl Hri Hwids]. cbn [fst snd writer_mid] in *.
  exists s, (last_read_gen (shared_state s)). rewrite Hread. destruct (decide (tok g = TFree)) as [Ht|Ht].
  - set (g' := mkTG (hist g) (got g) TWriting (wi g) (mi g) (ri g) (wptr g) (mptr g) (rptr g) (rg g) (wg g)).
    rewrite Ht in Htok, Hmd. assert (inv (s, g')) as Hi' by (by split).
    exists g'. split; [done|]. split. { intros _. split; try done; cbn [snd]; by rewrite Ht. }
    rewrite <-Htok, Hh, Z.eqb_refl. destruct Hmd as [Hm1 Hm2].
    eapply wp_ret; [apply (writing_stable v (Some (mi g, mptr g, mi g, mptr g)))| |]; [|intros y Hy; by apply (Htrue (mi g) (mptr g))].
    split; [|done]. by split.
  - assert (length (hist g) = S (got g)) as Hlen by (by destruct (tok g)).
    destruct (writer_rest v st s g Hx Hlen) as (g' & Hmv & Hx').
    exists g'. split; [done|]. split; [intros _; exact Hmv|]. rewrite <-Hh, Hlen.
    rewrite (proj2 (Z.eqb_neq _ _)); cycle 1.
    { intros Heq. symmetry in Heq. apply wrap_inj in Heq; [lia|]. unfold word_modulus. lia. }
    eapply wp_ret; [apply writing_stable|exact Hx'|intros y Hy; by apply Hfalse].
Qed.

(** The writer's client: its buffer is in hand and it has published [h]. *)
Definition has_buffer (b : AlignedBuffer) (h : list (list T)) (d : list T) (st : Notify.Waiting) (x : config) : Prop :=
  exists v, writing v None st x /\ in_hand v b /\ v_hist v = h /\ v_data v = d.

Lemma has_buffer_stable b h d st : stable (rely 0) (has_buffer b h d st).
Proof. intros x x' (v & Hx & Hv) Hr. exists v. split; [by eapply writing_stable|done]. Qed.

Lemma wp_try_publish_now b h d st Q x :
  has_buffer b h d st x ->
  (forall b' d' x', has_buffer b' (h ++ [d]) d' st x' -> Q (ROk b') x') ->
  (forall x', has_buffer b h d (Notify.rest st) x' -> Q (RErr b) x') ->
  wp (rely 0) (guar 0) (try_publish_now b) Q x.
Proof.
  intros (v & Hx & Hv & <- & <-) Hok Herr. unfold try_publish_now. eapply wp_middle_free; [exact Hx|..].
  - clear x Hx. intros m p x Hx. apply wp_bind. eapply wp_writer_publish_now; [exact Hx|exact Hv|].
    intros v' b' x' Hx' Hv' Hh'.
    eapply wp_ret; [apply writing_stable|exact Hx'|]. intros y Hy. eapply Hok. by exists v'.
  - intros x' Hx'. eapply wp_ret; [apply writing_stable|exact Hx'|]. intros y Hy. apply Herr. by exists v.
Qed.

(** Arming and disarming the writer's slot. *)
Lemma writer_slot_move x x' : Notify.waiter_move writer_ref wg w_same x x' -> inv x -> writer_move x x'.
Proof.
  intros Hm Hi. pose proof Hm as [(Hd & Hg & Hrs & Hrl & Hrg) Hst].
  assert (inv x') as Hi'.
  { eapply inv_slots; [done|done|done|..].
    - pose proof (ti_rslot _ Hi) as Hsl. destruct Hg as (Hh & Hgt & _).
      unfold Notify.islot, r_cond in *. simpl in *. by rewrite Hrs, Hrl, Hrg, Hh, Hgt.
    - eapply (Notify.waiter_move_inv _ _ _ _ _ w_in); [exact Hm|apply Hi].
    - intros j Hj. rewrite Hrg. by apply Hi.
    - intros j Hj. rewrite (Notify.ws_signallers _ _ _ _ _ _ Hst). by apply Hi. }
  destruct Hd as (Hm' & Hb & Hl & Hw & Hr & Hss). destruct Hg as (Hh & Hgt & Ht & H1 & H2 & H3 & H4 & H5 & H6).
  split; try congruence; [by rewrite Hh|by split_and!|by rewrite Hb, Hl|intros Ht'; split_and!; congruence|by rewrite Ht| |apply Hst].
  by apply Notify.still_env.
Qed.

Definition writer_idle (v : writer_view) (x : config) : Prop :=
  writer_owns v None x /\ Notify.signallers (rg x.2) !! 0 = None.

Lemma writer_idle_env v x x' :
  rely 0 x x' -> w_slot x -> writer_idle v x -> w_slot x' /\ writer_idle v x' /\ Notify.waiter_env writer_ref wg x x'.
Proof.
  intros Hm _ [Hx Hs]. pose proof (Hm (wo_inv _ _ _ Hx)) as Hm'. split_and!; [apply (rm_inv _ _ Hm')| |apply (rm_env _ _ Hm')].
  split; [by eapply writer_owns_move|]. by rewrite (rm_sig _ _ Hm').
Qed.

Lemma writer_idle_move v x x' :
  Notify.waiter_move writer_ref wg w_same x x' -> w_slot x -> writer_idle v x -> writer_idle v x'.
Proof.
  intros Hm _ [Hx Hs]. pose proof (writer_slot_move x x' Hm (wo_inv _ _ _ Hx)) as Hmv.
  destruct Hm as [(Hd & Hg & Hrs & Hrl & Hrg) _]. split; [|by rewrite Hrg].
  eapply writer_owns_slots; [exact Hx|apply Hmv|done|done].
Qed.

Lemma writer_idle_guar v x x' :
  Notify.waiter_move writer_ref wg w_same x x' -> w_slot x -> writer_idle v x -> guar 0 x x'.
Proof. intros Hm _ _ Hi. by apply writer_slot_move. Qed.

Lemma wp_writer_arm b h d k w Q x :
  has_buffer b h d (Notify.Out k) x -> (forall x', has_buffer b h d (Notify.Armed w k) x' -> Q tt x') ->
  wp (rely 0) (guar 0) (Notify.arm writer_ref w) Q x.
Proof.
  intros (v & (Hx & Hs & Hw) & Hv) HQ.
  apply (Notify.wp_arm_waiting _ _ _ _ _ w_in _ _ (writer_idle v) (writer_idle_env v) (writer_idle_guar v)
    (writer_idle_move v) k); [apply (wo_inv _ _ _ Hx)|done|done|]. intros x' _ [? ?] ?. apply HQ. by exists v.
Qed.

Lemma wp_writer_disarm b h d k w Q x :
  has_buffer b h d (Notify.Armed w k) x -> (forall x', has_buffer b h d (Notify.Out k) x' -> Q tt x') ->
  wp (rely 0) (guar 0) (Notify.disarm writer_ref) Q x.
Proof.
  intros (v & (Hx & Hs & Hw) & Hv) HQ.
  apply (Notify.wp_disarm_waiting _ _ _ _ _ w_in _ _ (writer_idle v) (writer_idle_env v) (writer_idle_guar v)
    (writer_idle_move v) k w); [apply (wo_inv _ _ _ Hx)|done|done|]. intros x' _ [? ?] ?. apply HQ. by exists v.
Qed.

Lemma wp_poll_publish b h d k w Q x :
  has_buffer b h d (Notify.Out k) x ->
  (forall b' d' x', has_buffer b' (h ++ [d]) d' (Notify.Out k) x' -> Q (mkWriter None, Ready b') x') ->
  (forall x', has_buffer b h d (Notify.Resting w k) x' -> Q (mkWriter (Some b), Pending) x') ->
  wp (rely 0) (guar 0) (poll_publish (mkWriter (Some b)) w) Q x.
Proof.
  intros Hx Hok Hpend. unfold poll_publish. cbn [w_held]. apply wp_bind. eapply wp_try_publish_now; [exact Hx|..].
  { intros b' d' x' Hx'. eapply wp_ret; [apply has_buffer_stable|exact Hx'|]. intros y Hy. by eapply Hok. }
  clear x Hx. intros x Hx. apply wp_bind. apply (wp_writer_arm b h d k w); [done|]. clear x Hx. intros x Hx.
  apply wp_bind. eapply wp_try_publish_now; [exact Hx|..].
  - intros b' d' x' Hx'. apply wp_bind. apply (wp_writer_disarm b' (h ++ [d]) d' k w); [done|]. intros y Hy.
    eapply wp_ret; [apply has_buffer_stable|exact Hy|]. intros z Hz. by eapply Hok.
  - intros x' Hx'. eapply wp_ret; [apply has_buffer_stable|exact Hx'|]. intros y Hy. by apply Hpend.
Qed.
(** *** The writer's client *)
Lemma filled_ext h h' p n d : h' !! p = h !! p -> filled h p n d -> filled h' p n d.
Proof.
  intros Heq (data & [(l & Hl & Hh) Hc Hn Hp] & ->). exists data. split; [|done]. split; try done.
  exists l. simpl in *. by rewrite Heq.
Qed.

(** Writing through the pointer in hand. *)
Lemma writer_mem s g h' :
  inv (s, g) -> (forall p, p <> wptr g -> h' !! p = mem s !! p) -> (exists d, filled h' (wptr g) 0 d) ->
  writer_move (s, g) (set_mem h' s, g).
Proof.
  intros Hi Hext Hw. pose proof Hi as [Hix (Hp1 & Hp2 & Hp3) Hown Hrest Hlens Hgen Hread Htok Hmd Hrsl Hwsl Hri Hwids].
  cbn [fst snd] in *. assert (inv (set_mem h' s, g)) as Hi'.
  { split; cbn [fst snd]; try done.
    - intros p Hp. destruct (decide (p = wptr g)) as [->|Hne]; [done|]. destruct (Hown p Hp) as [d Hd].
      exists d. eapply filled_ext; [by apply Hext|done].
    - rewrite <-Hrest. apply map_eq. intros i. simpl. destruct (decide (i = wptr g)) as [->|Hne].
      + by rewrite !lookup_delete_eq.
      + rewrite !(lookup_delete_ne _ (wptr g)) by done. rewrite !lookup_delete. by rewrite Hext.
    - destruct (tok g); try done. destruct Hmd as (? & ? & n & d & ? & Hf & ?). split_and!; try done.
      exists n, d. split_and!; try done. eapply filled_ext; [|exact Hf]. by apply Hext. }
  split; cbn [fst snd]; try done.
Qed.

Lemma wp_fill b h d st xs Q x :
  has_buffer b h d st x ->
  (forall b' x', has_buffer b' h (take (Z.to_nat cap) xs) st x' -> Q b' x') ->
  wp (rely 0) (guar 0) (fill b xs) Q x.
Proof.
  intros Hx HQ. eapply wp_act; [apply has_buffer_stable|exact Hx|]. clear x Hx.
  intros s g (v & (Hown & Hs & Hw) & (Hv1 & Hv2 & ->) & Hh & Hdt).
  pose proof Hown as [Hi Hhist Hwi Hwp Hidx Hsl Hln (data & Ho & Hd) Hm]. cbn [fst snd] in *.
  set (ys := take (Z.to_nat cap) xs). pose proof (Buffer.owns_cap _ _ _ Ho) as Hcap. cbn [Buffer.cap] in Hcap.
  assert (length ys <= length data) as Hle by (unfold ys; rewrite length_take; lia).
  set (data' := ys ++ drop (length ys) data).
  assert (length data' = length data) as Hlen by (unfold data'; rewrite length_app, length_drop; lia).
  destruct (Buffer.store_owns (mem s) (buf_at (v_wp v) (v_n v)) data data' Ho) as (l & h' & Hst & Hh' & Ho'); [lia|].
  rewrite drop_ge, app_nil_r in Hh', Ho' by lia.
  assert (Buffer.capacity_mut (mem s) (buf_at (v_wp v) (v_n v)) (fun d => ys ++ drop (length ys) d) = Done h') as ->.
  { unfold Buffer.capacity_mut. rewrite (Buffer.from_raw_parts_owns _ _ _ _ Ho) by done. outcome_simpl.
    by rewrite (Buffer.owns_all _ _ _ Ho). }
  outcome_simpl. rewrite Buffer.set_len_spec by (simpl; lia). outcome_simpl. cbn [Buffer.ptr Buffer.cap Buffer.align].
  eexists _, _, g. split; [done|].
  assert (filled h' (v_wp v) (Z.of_nat (length ys)) ys) as Hf.
  { exists data'. split.
    - apply (Buffer.owns_set_len _ (buf_at (v_wp v) (v_n v)) _ _ Ho'). simpl. lia.
    - unfold data'. rewrite Nat2Z.id. by rewrite take_app_length. }
  assert (writer_move (s, g) (set_mem h' s, g)) as Hmv.
  { apply writer_mem; [done| |rewrite Hwp; by eapply filled_zero]. intros p Hp. rewrite Hh'. cbn [Buffer.ptr].
    apply lookup_insert_ne. congruence. }
  split; [intros _; exact Hmv|]. eapply wp_ret; [apply has_buffer_stable| |intros y Hy; by eapply HQ].
  exists (mkWV (v_hist v) (v_wi v) (v_slot v) (v_len v) (v_idx v) (v_wp v) (Z.of_nat (length ys)) ys).
  split_and!; try done. split; [|split; [done|by eapply Notify.waiting_same]]. split; try done. apply Hmv.
Qed.

Lemma wp_writer_contents {B} b h d st (k : list T -> prog TripleBuffer B) Q x :
  has_buffer b h d st x -> (forall x', has_buffer b h d st x' -> wp (rely 0) (guar 0) (k d) Q x') ->
  wp (rely 0) (guar 0) (c ← contents b; k c) Q x.
Proof.
  intros Hx Hk. eapply wp_act; [apply has_buffer_stable|exact Hx|]. clear x Hx. intros s g Hx.
  pose proof Hx as (v & ([Hi _ _ _ _ _ _ (data & Ho & Hd) _] & _) & (_ & _ & ->) & _ & Hdt). cbn [fst snd] in *.
  exists s, d, g. split.
  { unfold Buffer.deref. rewrite (Buffer.from_raw_parts_owns _ _ _ _ Ho) by apply Ho. outcome_simpl.
    cbn [Buffer.len]. by rewrite set_mem_same, <-Hd, Hdt. }
  split; [intros _; by apply writer_still|]. by apply Hk.
Qed.

Lemma has_buffer_out b h d st k x :
  has_buffer b h d st x -> k <= length (writer_log x.1) -> has_buffer b h d (Notify.Out k) x.
Proof.
  intros (v & (Hx & Hs & Hw) & Hv) Hk. exists v. split; [|done]. split_and!; [done|done|].
  eapply Notify.waiting_out; [apply (wo_inv _ _ _ Hx)|exact Hw|done].
Qed.

(** The writer between operations. *)
Definition writer_rests (b : AlignedBuffer) (h : list (list T)) (pk : parking) (x : config) : Prop :=
  exists d, has_buffer b h d match pk with None => Notify.Out 0 | Some (w, k) => Notify.Resting w k end x.

Lemma writer_rests_stable b h pk : stable (rely 0) (writer_rests b h pk).
Proof. intros x x' [d Hx] Hr. exists d. by eapply has_buffer_stable. Qed.

Lemma writer_rests_none b h d st x : has_buffer b h d st x -> writer_rests b h None x.
Proof. intros Hx. exists d. eapply has_buffer_out; [exact Hx|lia]. Qed.

Lemma wp_drive_publish b h d ws pk Q x :
  has_buffer b h d match pk with None => Notify.Out 0 | Some (w, k) => Notify.Resting w k end x ->
  (forall b' pk' x', writer_rests b' (h ++ [d]) None x' -> Q (mkWriter None, Some b', pk') x') ->
  (forall pk' x', writer_rests b h pk' x' -> Q (mkWriter (Some b), None, pk') x') ->
  wp (rely 0) (guar 0) (drive_publish (mkWriter (Some b)) ws pk) Q x.
Proof.
  intros Hx Hok Hpend. revert pk x Hx. induction ws as [|w ws IH]; intros pk x Hx; cbn [drive_publish].
  { eapply wp_ret; [apply has_buffer_stable|exact Hx|]. intros y Hy. apply Hpend. by exists d. }
  eapply wp_act; [apply has_buffer_stable|exact Hx|]. clear x Hx. intros s g Hx.
  exists s, (length (writer_log s)), g. split; [done|]. split; [intros Hi; by apply writer_still|].
  apply (has_buffer_out _ _ _ _ (length (writer_log s))) in Hx; [|done]. apply wp_bind.
  eapply wp_poll_publish; [exact Hx|..].
  - intros b' d' x' Hx'. eapply wp_ret; [apply has_buffer_stable|exact Hx'|]. intros y Hy. eapply Hok.
    by eapply writer_rests_none.
  - intros x' Hx'. by apply (IH (Some (w, length (writer_log s)))).
Qed.

Lemma wp_writer_stats b h d st Q x :
  has_buffer b h d st x -> (forall r x', has_buffer b h d st x' -> Q r x') ->
  wp (rely 0) (guar 0) stats Q x.
Proof.
  intros Hx HQ. unfold stats.
  do 4 (eapply wp_act; [apply has_buffer_stable|eassumption|]; intros ? ? ?; do 3 eexists;
    split; [done|]; split; [intros Hi; apply writer_still; exact Hi|]).
  eapply wp_ret; [apply has_buffer_stable|eassumption|apply HQ].
Qed.

Lemma wp_writer_step b h op Q x :
  writer_rests b h None x ->
  (forall b' ds pk x', writer_rests b' (h ++ ds) pk x' -> Q (b', ds, pk) x') ->
  wp (rely 0) (guar 0) (writer_step b op) Q x.
Proof.
  intros [d Hx] HQ.
  assert (forall b' ds pk x', writer_rests b' (h ++ ds) pk x' -> wp (rely 0) (guar 0) (Ret (b', ds, pk)) Q x') as Hend.
  { intros b' ds pk x' Hx'. eapply wp_ret; [apply writer_rests_stable|exact Hx'|]. intros y Hy. by apply HQ. }
  assert (geometry_ok b = true) as Hgeo by (destruct Hx as (v & _ & Hv & _); by eapply in_hand_geometry).
  destruct op as [xs| |ws|]; unfold writer_step.
  - apply wp_bind. eapply wp_fill; [exact Hx|]. intros b' x' Hx'. apply Hend. rewrite app_nil_r. by eapply writer_rests_none.
  - eapply wp_writer_contents; [exact Hx|]. clear x Hx. intros x Hx. apply wp_bind. unfold try_publish. rewrite Hgeo.
    eapply wp_act; [apply has_buffer_stable|exact Hx|]. clear x Hx. intros s g Hx. exists s, tt, g. split; [done|].
    split; [intros Hi; by apply writer_still|]. eapply wp_try_publish_now; [exact Hx|..].
    + intros b' d' x' Hx'. apply Hend. by eapply writer_rests_none.
    + intros x' Hx'. apply Hend. rewrite app_nil_r. by eapply writer_rests_none.
  - eapply wp_writer_contents; [exact Hx|]. clear x Hx. intros x Hx. unfold publish. rewrite Hgeo.
    eapply wp_act; [apply has_buffer_stable|exact Hx|]. clear x Hx. intros s g Hx. exists s, (mkWriter (Some b)), g.
    split; [done|]. split; [intros Hi; by apply writer_still|]. apply wp_bind.
    apply (wp_drive_publish b h d ws None); [done|..].
    + intros b' pk' x' Hx'. by apply Hend.
    + intros pk' x' Hx'. apply Hend. by rewrite app_nil_r.
  - apply wp_bind. eapply wp_writer_stats; [exact Hx|]. intros r x' Hx'. apply Hend. rewrite app_nil_r.
    by eapply writer_rests_none.
Qed.

Lemma wp_writer_thread b ops h pk Q x :
  writer_rests b h pk x -> (forall b' h' pk' x', writer_rests b' h' pk' x' -> Q (h', pk', Some b') x') ->
  wp (rely 0) (guar 0) (writer_thread b ops h pk) Q x.
Proof.
  revert b h pk x. induction ops as [|op ops IH]; intros b h pk x Hx HQ; cbn [writer_thread].
  { eapply wp_ret; [apply writer_rests_stable|exact Hx|]. intros y Hy. by apply HQ. }
  apply wp_bind. eapply wp_writer_step; [destruct Hx as [d Hx]; by eapply writer_rests_none|].
  intros b' ds pk' x' Hx'. by apply IH.
Qed.
(** ** The reader's view *)
Record reader_view : Type := mkRV {
  u_got : list (list T);      (* what it has received *)
  u_ri : nat;                 (* its slot, and that slot's pointer *)
  u_slot : Z;
  u_idx : nat;                (* the index it has stored *)
  u_rp : Z;                   (* its buffer's address, logical length and contents *)
  u_n : Z;
  u_data : list T
}.

(** The middle, while the reader owns it: slot, address, stored index, pointer,
    length and contents. *)
Abbreviation full_view := (nat * Z * nat * Z * Z * list T)%type.

Definition reader_mid (o : option full_view) (x : config) : Prop :=
  match o with
  | None => tok x.2 <> TReading
  | Some (m, p, i, q, n, d) => tok x.2 = TReading /\ mi x.2 = m /\ mptr x.2 = p /\
      middle_idx (shared_state x.1) = i /\ buffers x.1 !! m = Some q /\ lens x.1 !! m = Some n /\
      filled (mem x.1) p n d /\ last (hist x.2) = Some d
  end.

Record reader_owns (u : reader_view) (o : option full_view) (x : config) : Prop := {
  ro_inv : inv x;
  ro_got : got x.2 = length (u_got u) /\ u_got u `prefix_of` hist x.2;
  ro_ri : ri x.2 = u_ri u;
  ro_rp : rptr x.2 = u_rp u;
  ro_idx : reader_idx x.1 = u_idx u;
  ro_slot : buffers x.1 !! u_ri u = Some (u_slot u);
  ro_data : filled (mem x.1) (u_rp u) (u_n u) (u_data u);
  ro_mid : reader_mid o x
}.

Definition reading (u : reader_view) (o : option full_view) (st : Notify.Waiting) (x : config) : Prop :=
  reader_owns u o x /\ Notify.signallers (wg x.2) !! 1 = None /\ Notify.waiting reader_ref rg st x.

Lemma reader_owns_move u o x x' : reader_owns u o x -> writer_move x x' -> reader_owns u o x'.
Proof.
  intros [Hi [Hg Hp] Hri Hrp Hidx Hsl Hd Hm]
    [Hi' Hg' Hh' (Hri' & Hrp' & Hidx') (Hsl' & Hln') Hmem Htok Hiff Henv Hsig].
  rewrite Hri in Hsl'. pose proof (ti_ptr _ Hi) as (Hp1 & Hp2 & Hp3). split; try congruence.
  - split; [congruence|]. by etrans.
  - eapply filled_ext; [|exact Hd]. apply Hmem. congruence.
  - destruct o as [[[[[[m p] i] q] n] d]|]; simpl in *; [|tauto].
    destruct Hm as (Ht & Hmi & Hmp & Hi2 & Hq & Hln & Hf & Hlast).
    destruct (Htok Ht) as (? & Hhe & ? & ? & ? & Hb & Hl). rewrite Hmi in Hb, Hl.
    split_and!; try congruence. eapply filled_ext; [|exact Hf]. apply Hmem. congruence.
Qed.

Lemma reading_stable u o st : stable (rely 1) (reading u o st).
Proof.
  intros x x' (Hx & Hs & Hw) Hm. pose proof (Hm (ro_inv _ _ _ Hx)) as Hm'.
  split; [by eapply reader_owns_move|]. split; [by rewrite (wm_sig _ _ Hm')|].
  eapply Notify.waiting_env; [exact Hw|]. apply (wm_env _ _ Hm').
Qed.

(** A step that changes only what the reader owns. *)
Lemma reader_private s g s' :
  inv (s, g) -> mem s' = mem s -> length (buffers s') = 3 -> length (lens s') = 3 ->
  (forall j, j <> ri g -> j <> mi g \/ tok g <> TReading -> buffers s' !! j = buffers s !! j) ->
  (forall j, j <> ri g -> lens s' !! j = lens s !! j) ->
  writer_idx s' = writer_idx s ->
  generation (shared_state s') = generation (shared_state s) ->
  last_read_gen (shared_state s') = last_read_gen (shared_state s) ->
  (tok g = TReading \/ middle_idx (shared_state s') = middle_idx (shared_state s)) ->
  reader_slot s' = reader_slot s -> writer_slot s' = writer_slot s ->
  reader_log s' = reader_log s -> writer_log s' = writer_log s ->
  reader_move (s, g) (s', g).
Proof.
  intros Hi Hm Hlb Hll Hb Hl Hw Hg Hlr Hmid Hrs Hws Hrl Hwl.
  pose proof Hi as [Hidx Hptr Hown Hrest Hlen Hgen Hread Htok Hmd Hrsl Hwsl Hri Hwi]. cbn [fst snd] in *.
  destruct Hidx as (H1 & H2 & H3 & H4 & H5 & H6).
  assert (tok g <> TReading -> middle_idx (shared_state s') = middle_idx (shared_state s)) as Hmid' by tauto.
  assert (inv (s', g)) as Hi'.
  { split; cbn [fst snd]; rewrite ?Hm, ?Hg, ?Hlr; try done.
    - rewrite Hl by done. destruct (tok g) eqn:Ht; try done; rewrite Hmid', Hb by first [done|by right]; done.
    - unfold Notify.islot in *. simpl in *. by rewrite Hrs, Hrl.
    - unfold Notify.islot in *. simpl in *. by rewrite Hws, Hwl. }
  split; cbn [fst snd]; try done.
  - split; [apply Hb|apply Hl]; try done. by left.
  - intros Ht. rewrite Ht in *. split_and!; try done; [by apply Hmid'|]. apply Hb; [done|by right].
  - by apply Notify.still_env.
Qed.

Lemma reading_step u o st u' o' s g s' :
  reading u o st (s, g) -> reader_move (s, g) (s', g) -> mem s' = mem s -> reader_slot s' = reader_slot s ->
  reader_log s' = reader_log s -> u_got u' = u_got u -> u_ri u' = u_ri u -> u_rp u' = u_rp u ->
  u_n u' = u_n u -> u_data u' = u_data u -> reader_idx s' = u_idx u' ->
  buffers s' !! u_ri u' = Some (u_slot u') -> reader_mid o' (s', g) ->
  reading u' o' st (s', g).
Proof.
  intros ([Hi Hg Hri Hrp Hidx Hsl Hd Hm] & Hs & Hw) Hmv Hmem Hrs Hrl E1 E2 E3 E4 E5 Hi2 Hsl2 Hm2. cbn [fst snd] in *.
  split; [|split; [done|by eapply Notify.waiting_same]].
  split; cbn [fst snd]; try done; try congruence. apply Hmv.
Qed.

Lemma wp_reader_load {A B} u o st (f : TripleBuffer -> A) a (k : A -> prog TripleBuffer B) Q x :
  reading u o st x -> (forall s g, reading u o st (s, g) -> f s = a) ->
  (forall x', reading u o st x' -> wp (rely 1) (guar 1) (k a) Q x') ->
  wp (rely 1) (guar 1) (b ← load f; k b) Q x.
Proof.
  intros Hx Hf Hk. eapply wp_act; [apply reading_stable|exact Hx|]. intros s g Hy.
  exists s, a, g. split; [by rewrite (Hf s g Hy)|]. split; [intros Hi; by apply reader_still|]. by apply Hk.
Qed.

Lemma wp_reader_local {A B} u o st (r : outcome A) a (k : A -> prog TripleBuffer B) Q x :
  reading u o st x -> r = Done a -> (forall x', reading u o st x' -> wp (rely 1) (guar 1) (k a) Q x') ->
  wp (rely 1) (guar 1) (b ← local r; k b) Q x.
Proof.
  intros Hx -> Hk. eapply wp_act; [apply reading_stable|exact Hx|]. intros s g Hy.
  exists s, a, g. split; [done|]. split; [intros Hi; by apply reader_still|]. by apply Hk.
Qed.

(** The reader's own slot. *)
Lemma wp_reader_swap {B} u o st i p (k : Z -> prog TripleBuffer B) Q x :
  reading u o st x -> u_ri u = i ->
  (forall x', reading (mkRV (u_got u) (u_ri u) p (u_idx u) (u_rp u) (u_n u) (u_data u)) o st x' ->
    wp (rely 1) (guar 1) (k (u_slot u)) Q x') ->
  wp (rely 1) (guar 1) (old ← swap_at i p; k old) Q x.
Proof.
  intros Hx <- Hk. eapply wp_act; [apply reading_stable|exact Hx|]. intros s g Hy.
  pose proof Hy as ([Hi Hg Hri Hrp Hidx Hsl Hd Hm] & Hs & Hw). cbn [fst snd] in *.
  pose proof (ti_len _ Hi) as [Hl1 Hl2]. pose proof (ti_idx _ Hi) as (_ & _ & H3 & _ & _ & H6). cbn [fst snd] in *. rewrite Hsl.
  eexists _, _, g. split; [done|].
  assert (reader_move (s, g) (set_buffers (<[u_ri u := p]> (buffers s)) s, g)) as Hmv.
  { apply reader_private; try done; [simpl; by rewrite length_insert| |by right].
    intros j Hj _. simpl. by rewrite list_lookup_insert_ne by congruence. }
  split; [intros _; exact Hmv|]. apply Hk. eapply reading_step; try done.
  - simpl. apply list_lookup_insert_eq. rewrite Hl1. congruence.
  - destruct o as [[[[[[m p'] i] q] n] d]|]; [|done]. destruct Hm as (Ht & Hmi & Hmp & Hmi2 & Hq & Hm'). cbn [fst snd] in *.
    split_and!; try done; try apply Hm'. simpl. rewrite list_lookup_insert_ne by congruence. done.
Qed.

Lemma wp_reader_len {B} u o st i n (k : unit -> prog TripleBuffer B) Q x :
  reading u o st x -> u_ri u = i -> (forall x', reading u o st x' -> wp (rely 1) (guar 1) (k tt) Q x') ->
  wp (rely 1) (guar 1) (v ← store_len_at i n; k v) Q x.
Proof.
  intros Hx <- Hk. eapply wp_act; [apply reading_stable|exact Hx|]. intros s g Hy.
  pose proof Hy as ([Hi Hg Hri Hrp Hidx Hsl Hd Hm] & Hs & Hw). cbn [fst snd] in *.
  pose proof (ti_len _ Hi) as [Hl1 Hl2]. pose proof (ti_idx _ Hi) as (_ & _ & H3 & _ & _ & H6). cbn [fst snd] in *.
  destruct (lookup_lt_is_Some_2 (lens s) (u_ri u)) as [ln ->]; [rewrite Hl2; congruence|].
  eexists _, tt, g. split; [done|].
  assert (reader_move (s, g) (set_lens (<[u_ri u := n]> (lens s)) s, g)) as Hmv.
  { apply reader_private; try done; [simpl; by rewrite length_insert| |by right].
    intros j Hj. simpl. by rewrite list_lookup_insert_ne by congruence. }
  split; [intros _; exact Hmv|]. apply Hk. eapply reading_step; try done.
  destruct o as [[[[[[m p'] i] q] n'] d]|]; [|done]. destruct Hm as (Ht & Hmi & Hmp & Hmi2 & Hq & Hl & Hm'). cbn [fst snd] in *.
  split_and!; try done; try apply Hm'. simpl. rewrite list_lookup_insert_ne by congruence. done.
Qed.

Lemma wp_reader_idx {B} u o st i (k : unit -> prog TripleBuffer B) Q x :
  reading u o st x ->
  (forall x', reading (mkRV (u_got u) (u_ri u) (u_slot u) i (u_rp u) (u_n u) (u_data u)) o st x' ->
    wp (rely 1) (guar 1) (k tt) Q x') ->
  wp (rely 1) (guar 1) (v ← store (set_reader_idx i); k v) Q x.
Proof.
  intros Hx Hk. eapply wp_act; [apply reading_stable|exact Hx|]. intros s g Hy.
  pose proof Hy as ([Hi Hg Hri Hrp Hidx Hsl Hd Hm] & Hs & Hw). pose proof (ti_len _ Hi) as [Hl1 Hl2]. cbn [fst snd] in *.
  eexists _, tt, g. split; [done|].
  assert (reader_move (s, g) (set_reader_idx i s, g)) as Hmv by (apply reader_private; try done; by right).
  split; [intros _; exact Hmv|]. apply Hk. by eapply reading_step.
Qed.

Lemma wp_reader_middle {B} u m p i0 q n d st i (k : unit -> prog TripleBuffer B) Q x :
  reading u (Some (m, p, i0, q, n, d)) st x ->
  (forall x', reading u (Some (m, p, i, q, n, d)) st x' -> wp (rely 1) (guar 1) (k tt) Q x') ->
  wp (rely 1) (guar 1) (v ← store (set_middle_idx i); k v) Q x.
Proof.
  intros Hx Hk. eapply wp_act; [apply reading_stable|exact Hx|]. intros s g Hy.
  pose proof Hy as ([Hi Hg Hri Hrp Hidx Hsl Hd Hm] & Hs & Hw). pose proof (ti_len _ Hi) as [Hl1 Hl2]. cbn [fst snd] in *.
  destruct Hm as (Ht & Hmi & Hmp & Hmi2 & Hq & Hm'). cbn [fst snd] in *.
  eexists _, tt, g. split; [done|].
  assert (reader_move (s, g) (set_middle_idx i s, g)) as Hmv by (apply reader_private; try done; by left).
  split; [intros _; exact Hmv|]. apply Hk. by eapply reading_step.
Qed.

Lemma wp_reader_take {B} u m p i0 q n d st (k : Z -> prog TripleBuffer B) Q x :
  reading u (Some (m, p, i0, q, n, d)) st x ->
  (forall x', reading u (Some (m, p, i0, 0%Z, n, d)) st x' -> wp (rely 1) (guar 1) (k q) Q x') ->
  wp (rely 1) (guar 1) (v ← swap_at m 0; k v) Q x.
Proof.
  intros Hx Hk. eapply wp_act; [apply reading_stable|exact Hx|]. intros s g Hy.
  pose proof Hy as ([Hi Hg Hri Hrp Hidx Hsl Hd Hm] & Hs & Hw). pose proof (ti_len _ Hi) as [Hl1 Hl2].
  destruct Hm as (Ht & Hmi & Hmp & Hmi2 & Hq & Hm'). pose proof (ti_idx _ Hi) as (_ & H2 & _ & H4 & _ & H6). cbn [fst snd] in *.
  rewrite Hq. eexists _, q, g. split; [done|].
  assert (reader_move (s, g) (set_buffers (<[m := 0%Z]> (buffers s)) s, g)) as Hmv.
  { apply reader_private; try done; [simpl; by rewrite length_insert| |by right].
    intros j _ [Hj|?]; [|done]. simpl. by rewrite list_lookup_insert_ne by congruence. }
  split; [intros _; exact Hmv|]. apply Hk. eapply reading_step; try done.
  - simpl. rewrite list_lookup_insert_ne by congruence. done.
  - split_and!; try done; try apply Hm'. simpl. apply list_lookup_insert_eq. rewrite Hl1. congruence.
Qed.
(** The commit: the reader's slot becomes the middle, free again. *)
Definition take_ghost (g : triple_ghost) : triple_ghost :=
  mkTG (hist g) (S (got g)) TFree (wi g) (ri g) (mi g) (wptr g) (rptr g) (mptr g) (rg g)
    (Notify.set_phase 1 (Some Notify.Owes) (Notify.holder (wg g)) (wg g)).

Lemma reader_commit u p n d st s g :
  reading u (Some (u_idx u, p, u_ri u, 0%Z, n, d)) st (s, g) -> u_slot u = u_rp u ->
  let x' := (set_last_read_gen (wrap (Z.of_nat (S (length (u_got u))))) s, take_ghost g) in
  reader_move (s, g) x' /\
  reader_owns (mkRV (u_got u ++ [d]) (u_idx u) 0 (u_idx u) p n d) None x' /\
  Notify.signallers (wg x'.2) !! 1 = Some Notify.Owes /\ Notify.waiting reader_ref rg st x'.
Proof.
  intros ([Hi [Hg Hpre] Hri Hrp Hidx Hsl Hd Hm] & Hs & Hw) Hslot x'.
  destruct Hm as (Ht & Hmi & Hmp & Hmi2 & Hq & Hln & Hf & Hlast). cbn [fst snd] in *.
  pose proof Hi as [Hix Hptr Hown Hrest [Hl1 Hl2] Hgen Hread Htok Hmd Hrsl Hwsl Hrids Hwids]. cbn [fst snd] in *.
  destruct Hix as (H1 & H2 & H3 & H4 & H5 & H6). rewrite Ht in Htok.
  assert (inv x') as Hi'.
  { split; cbn [x' fst snd take_ghost hist got tok wi mi ri wptr mptr rptr rg wg]; try done.
    - split_and!; lia.
    - intros q [-> |[-> | ->]]; apply Hown; auto.
    - rewrite <-Hrest. f_equal. apply delete_delete.
    - simpl. by rewrite Hg.
    - simpl. rewrite Hri, Hrp, <-Hslot. done.
    - eapply Notify.slot_inv_mono; [|exact Hrsl]. unfold r_cond. cbn [x' snd take_ghost hist got]. lia.
    - eapply Notify.publish; [exact Hwsl|by left].
    - intros j Hj. rewrite Notify.phase_ne by done. by apply Hwids. }
  split; [|split; [|split]].
  - split; cbn [x' fst snd take_ghost]; try done; [by rewrite Ht|congruence|].
    eapply Notify.publish_env; [done|done|by left|done].
  - split; cbn [x' fst snd take_ghost u_got u_ri u_slot u_idx u_rp u_n u_data]; try done; simpl; try congruence.
    rewrite length_app. simpl. split; [lia|]. destruct Hpre as [rest Hr].
    assert (length rest = 1) as Hrl by (rewrite Hr, length_app in Htok; lia).
    destruct rest as [|d0 [|]]; simpl in Hrl; try lia. rewrite Hr, last_snoc in Hlast. injection Hlast as ->. by rewrite Hr.
  - apply Notify.phase_eq.
  - by eapply Notify.waiting_same.
Qed.

Lemma reader_signal_move x x' :
  Notify.signaller_move writer_ref wg w_same 1 x x' -> inv x -> reader_move x x'.
Proof.
  intros Hm Hi. pose proof Hm as [(Hd & Hg & Hrs & Hrl & Hrg) Hst].
  assert (inv x') as Hi'.
  { eapply inv_slots; [done|done|done|..].
    - pose proof (ti_rslot _ Hi) as Hsl. destruct Hg as (Hh & Hgt & _).
      unfold Notify.islot, r_cond in *. simpl in *. by rewrite Hrs, Hrl, Hrg, Hh, Hgt.
    - eapply (Notify.signaller_move_inv _ _ _ _ _ w_in); [exact Hm|apply Hi].
    - intros j Hj. rewrite Hrg. by apply Hi.
    - intros j Hj. rewrite (Notify.ss_others _ _ _ _ _ _ _ Hst) by done. by apply Hi. }
  destruct Hd as (Hm' & Hb & Hl & Hw & Hr & Hss). destruct Hg as (Hh & Hgt & Ht & H1 & H2 & H3 & H4 & H5 & H6).
  split; try congruence; [by split_and!|by rewrite Hb, Hl|by rewrite Ht|intros Ht'; split_and!; congruence|].
  eapply Notify.signaller_move_env; [exact Hm|apply Hi].
Qed.

Lemma reader_slot_move x x' : Notify.waiter_move reader_ref rg r_same x x' -> inv x -> reader_move x x'.
Proof.
  intros Hm Hi. pose proof Hm as [(Hd & Hg & Hws & Hwl & Hwg) Hst].
  assert (inv x') as Hi'.
  { eapply inv_slots; [done|done|done|..].
    - eapply (Notify.waiter_move_inv _ _ _ _ _ r_in); [exact Hm|apply Hi].
    - pose proof (ti_wslot _ Hi) as Hsl. destruct Hg as (Hh & Hgt & _).
      unfold Notify.islot, w_cond in *. simpl in *. by rewrite Hws, Hwl, Hwg, Hh, Hgt.
    - intros j Hj. rewrite (Notify.ws_signallers _ _ _ _ _ _ Hst). by apply Hi.
    - intros j Hj. rewrite Hwg. by apply Hi. }
  destruct Hd as (Hm' & Hb & Hl & Hw & Hr & Hss). destruct Hg as (Hh & Hgt & Ht & H1 & H2 & H3 & H4 & H5 & H6).
  split; try congruence; [by split_and!|by rewrite Hb, Hl|by rewrite Ht|intros Ht'; split_and!; congruence| |apply Hst].
  by apply Notify.still_env.
Qed.

Lemma reader_owns_slots u x x' :
  reader_owns u None x -> inv x' -> data_eq x.1 x'.1 -> ghost_eq x.2 x'.2 -> reader_owns u None x'.
Proof.
  intros [Hi [Hg Hp] Hri Hrp Hidx Hsl Hd Hm] Hi' (Em & Eb & El & Ew & Er & Ess) (Gh & Gg & Gt & G1 & G2 & G3 & G4 & G5 & G6).
  split; try congruence. split; congruence.
Qed.

Lemma wp_reader_signal u st Q x :
  reader_owns u None x -> Notify.signallers (wg x.2) !! 1 = Some Notify.Owes -> Notify.waiting reader_ref rg st x ->
  (forall x', reading u None st x' -> Q tt x') ->
  wp (rely 1) (guar 1) wake_writer Q x.
Proof.
  intros Hx Hs Hw HQ. unfold wake_writer.
  apply (Notify.wp_signal _ _ _ _ _ w_in 1 (rely 1) (guar 1)
    (fun x => reader_owns u None x /\ Notify.waiting reader_ref rg st x)).
  - intros y y' Hm _ [Hy Hwy]. pose proof (Hm (ro_inv _ _ _ Hy)) as Hm'.
    split; [apply (wm_inv _ _ Hm')|]. split; [|by rewrite (wm_sig _ _ Hm')].
    split; [by eapply reader_owns_move|]. eapply Notify.waiting_env; [exact Hwy|apply (wm_env _ _ Hm')].
  - intros y y' Hm _ _. intros Hi. by apply reader_signal_move.
  - intros y y' Hm _ [Hy Hwy]. pose proof (reader_signal_move y y' Hm (ro_inv _ _ _ Hy)) as Hmv.
    destruct Hm as [(Hd & Hg & Hrs & Hrl & Hrg) _]. split.
    + eapply reader_owns_slots; [exact Hy|apply Hmv|done|done].
    + by eapply Notify.waiting_same.
  - apply (ro_inv _ _ _ Hx).
  - done.
  - by right.
  - intros x' (_ & [? ?] & ?). by apply HQ.
Qed.

(** The reader's previous buffer in hand, or still in its slot before the first. *)
Definition prev_ok (u : reader_view) (prev : option AlignedBuffer) : Prop :=
  u_idx u = u_ri u /\
  match prev with Some b => u_slot u = 0%Z /\ b = buf_at (u_rp u) (u_n u) | None => u_slot u = u_rp u end.

Lemma wp_reader_take_now u prev m p n d st Q x :
  reading u (Some (m, p, m, p, n, d)) st x -> prev_ok u prev ->
  (forall u' b x', reading u' None st x' -> prev_ok u' (Some b) -> u_got u' = u_got u ++ [d] -> u_data u' = d -> Q b x') ->
  wp (rely 1) (guar 1) (reader_take_now prev) Q x.
Proof.
  intros Hx [Hix Hprev] HQ. unfold reader_take_now. destruct u as [gt r0 sl ix q nn dd]. simpl in Hix. subst ix.
  pose proof Hx as ([_ _ _ _ _ _ _ (_ & _ & _ & _ & _ & _ & Hf0 & _)] & _).
  destruct (from_raw_filled _ _ _ _ Hf0) as [Hp0 Hraw]. clear Hf0.
  eapply (wp_reader_load _ _ _ _ (wrap (Z.of_nat (S (length gt))))); [exact Hx| |].
  { intros s g [[Hi [Hg _] _ _ _ _ _ (Ht & _)] _]. pose proof (ti_gen _ Hi) as Hgen. pose proof (ti_tok _ Hi) as Htok.
    cbn [fst snd u_got] in *. rewrite Ht in Htok. by rewrite Hgen, Htok, Hg. }
  clear x Hx. intros x Hx. eapply (wp_reader_load _ _ _ _ r0); [exact Hx|by intros s g [[] _]|]. clear x Hx. intros x Hx.
  eapply (wp_reader_load _ _ _ _ m); [exact Hx|by intros s g [[? ? ? ? ? ? ? (? & ? & ? & ? & ?)] _]|].
  clear x Hx. intros x Hx. apply wp_bind.
  assert (forall x', reading (mkRV gt r0 q r0 q nn dd) (Some (m, p, m, p, n, d)) st x' ->
    wp (rely 1) (guar 1)
      (_ ← store (set_reader_idx m);
       _ ← store (set_middle_idx r0);
       p ← swap_at m 0;
       _ ← local (if (p =? 0)%Z then Panicked "Invariant violated: middle buffer pointer was null" else Done tt);
       published_len ← load_len_at m;
       buf ← local (Buffer.from_raw_with_len p published_len cap al);
       _ ← store (set_last_read_gen (wrap (Z.of_nat (S (length gt)))));
       _ ← wake_writer;
       Ret buf) Q x') as Hrest.
  { clear x Hx. intros x Hx. eapply wp_reader_idx; [exact Hx|]. clear x Hx. intros x Hx. cbn in Hx.
    eapply wp_reader_middle; [exact Hx|]. clear x Hx. intros x Hx. eapply wp_reader_take; [exact Hx|].
    clear x Hx. intros x Hx.
    eapply (wp_reader_local _ _ _ _ tt); [exact Hx|by rewrite (proj2 (Z.eqb_neq _ _) Hp0)|]. clear x Hx. intros x Hx.
    eapply wp_act; [apply reading_stable|exact Hx|]. clear x Hx. intros s g Hx.
    pose proof Hx as ([Hi _ _ _ _ _ _ (_ & _ & _ & _ & _ & Hln & _)] & _). cbn [fst snd] in *. rewrite Hln.
    exists s, n, g. split; [done|]. split; [intros _; by apply reader_still|].
    eapply wp_reader_local; [exact Hx|exact Hraw|]. clear s g Hx Hi Hln. intros x Hx.
    eapply wp_act; [apply reading_stable|exact Hx|]. clear x Hx. intros s g Hx.
    destruct (reader_commit _ p n d st s g Hx eq_refl) as (Hmv & Hown & Hsig & Hw).
    eexists _, tt, _. split; [done|]. split; [intros _; exact Hmv|]. apply wp_bind. cbn [u_got u_idx] in *.
    eapply wp_reader_signal; [exact Hown|exact Hsig|exact Hw|]. intros x Hx'.
    eapply wp_ret; [apply reading_stable|exact Hx'|]. intros y Hy. by eapply HQ. }
  destruct prev as [b|]; simpl in Hprev.
  - destruct Hprev as [-> ->]. cbn [Buffer.into_raw Buffer.ptr Buffer.len].
    eapply wp_reader_swap; [exact Hx|done|]. clear x Hx. intros x Hx. cbn [u_slot u_got u_ri u_idx u_rp u_n u_data] in *.
    eapply wp_reader_local; [exact Hx|apply Buffer.debug_assert_true|]. clear x Hx. intros x Hx.
    eapply (wp_reader_len _ _ _ r0 0%Z Ret); [exact Hx|done|]. clear x Hx. intros x Hx.
    eapply wp_ret; [apply reading_stable|exact Hx|]. intros y Hy. by apply Hrest.
  - subst sl. eapply wp_ret; [apply reading_stable|exact Hx|]. intros y Hy. by apply Hrest.
Qed.
(** The reader finds nothing new: an armed one parks. *)
Lemma reader_rest u st s g :
  reading u None st (s, g) -> length (hist g) = got g ->
  exists g', reader_move (s, g) (s, g') /\ reading u None (Notify.rest st) (s, g').
Proof.
  intros ([Hi [Hg Hp] Hri Hrp Hidx Hsl Hd Hm] & Hs & Hw) Hlen. cbn [fst snd] in *.
  destruct (Notify.waiting_rest _ _ _ _ _ r_in st s g (ti_rslot _ Hi) Hw) as [[Hsl' Hw'] Hg'].
  { intros g' Hc. unfold r_cond in Hc. simpl in Hc. lia. }
  exists (Notify.rest_ghost rg put_rg st g). generalize dependent (Notify.rest_ghost rg put_rg st g). intros g' Hsl' Hw' Hg'.
  assert (inv (s, g') /\ ghost_eq g g' /\ wg g' = wg g /\ Notify.signallers (rg g') = Notify.signallers (rg g))
    as (Hi' & (Gh & Gg & Gt & G1 & G2 & G3 & G4 & G5 & G6) & Hwg & Hsg).
  { destruct Hg' as [-> |[p ->]]; [by split_and!|]. split_and!; try done.
    eapply inv_slots; [| |exact Hi|exact Hsl'|apply Hi|apply Hi|apply Hi]; done. }
  split.
  - split; cbn [fst snd]; try done; [by rewrite Gt|]. by apply Notify.still_env.
  - split; [|split; [cbn [snd]; by rewrite Hwg|exact Hw']]. split; cbn [fst snd]; try congruence; [split; congruence|simpl in *; congruence].
Qed.

(** The reader takes the middle, or rests. *)
Lemma wp_has_unread {B} u st (k : bool -> prog TripleBuffer B) Q x :
  reading u None st x ->
  (forall m p n d x', reading u (Some (m, p, m, p, n, d)) st x' -> wp (rely 1) (guar 1) (k true) Q x') ->
  (forall x', reading u None (Notify.rest st) x' -> wp (rely 1) (guar 1) (k false) Q x') ->
  wp (rely 1) (guar 1) (b ← has_unread; k b) Q x.
Proof.
  intros Hx Htrue Hfalse. apply wp_bind. unfold has_unread.
  assert (forall o st' x' (g0 : Z), reading u o st' x' ->
    (forall y, reading u o st' y -> wp (rely 1) (guar 1) (k (negb (g0 =? wrap (Z.of_nat (length (u_got u))))%Z)) Q y) ->
    wp (rely 1) (guar 1) (l ← load (fun s => last_read_gen (shared_state s)); Ret (negb (g0 =? l)%Z))
      (fun b y => wp (rely 1) (guar 1) (k b) Q y) x') as Hlr.
  { intros o st' x' g0 Hx' Hk. eapply wp_reader_load; [exact Hx'| |].
    - intros s g [[Hi [Hg _] _ _ _ _ _ _] _]. pose proof (ti_read _ Hi) as Hr. cbn [fst snd] in *. by rewrite Hr, Hg.
    - intros y Hy. eapply wp_ret; [apply reading_stable|exact Hy|]. intros z Hz. by apply Hk. }
  eapply wp_act; [apply reading_stable|exact Hx|]. clear x Hx. intros s g Hx.
  pose proof Hx as (Hown & Hs & Hw). pose proof Hown as [Hi [Hg Hpre] Hri Hrp Hidx Hsl Hd Hm].
  pose proof Hi as [Hix Hptr Howns Hrest Hlens Hgen Hread Htok Hmd Hrsl Hwsl Hrids Hwids]. cbn [fst snd reader_mid] in *.
  exists s, (generation (shared_state s)). rewrite Hgen. destruct (decide (tok g = TFull)) as [Ht|Ht].
  - set (g' := mkTG (hist g) (got g) TReading (wi g) (mi g) (ri g) (wptr g) (mptr g) (rptr g) (rg g) (wg g)).
    rewrite Ht in Htok, Hmd. assert (inv (s, g')) as Hi' by (by split).
    exists g'. split; [done|]. split. { intros _. split; try done; cbn [snd]; by rewrite Ht. }
    destruct Hmd as (Hm1 & Hm2 & n & d & Hm3 & Hm4 & Hm5).
    eapply (Hlr (Some (mi g, mptr g, mi g, mptr g, n, d)) st).
    { split; [|done]. split; try done. }
    intros y Hy. rewrite Htok, Hg. rewrite (proj2 (Z.eqb_neq _ _)); [by eapply Htrue|].
    intros Heq. symmetry in Heq. apply wrap_inj in Heq; [lia|]. unfold word_modulus. lia.
  - assert (length (hist g) = got g) as Hlen by (by destruct (tok g)).
    destruct (reader_rest u st s g Hx Hlen) as (g' & Hmv & Hx').
    exists g'. split; [done|]. split; [intros _; exact Hmv|]. eapply Hlr; [exact Hx'|]. intros y Hy.
    rewrite Hlen, Hg, Z.eqb_refl. by apply Hfalse.
Qed.

(** The reader's client: it has received [acc]; [d] is in the buffer it holds. *)
Definition has_prev (prev : option AlignedBuffer) (acc : list (list T)) (d : list T) (st : Notify.Waiting) (x : config) : Prop :=
  exists u, reading u None st x /\ prev_ok u prev /\ u_got u = acc /\ u_data u = d.

Lemma has_prev_stable prev acc d st : stable (rely 1) (has_prev prev acc d st).
Proof. intros x x' (u & Hx & Hu) Hr. exists u. split; [by eapply reading_stable|done]. Qed.

Lemma wp_try_take_now prev acc d st Q x :
  has_prev prev acc d st x ->
  (forall b d' x', has_prev (Some b) (acc ++ [d']) d' st x' -> Q (ROk b) x') ->
  (forall x', has_prev prev acc d (Notify.rest st) x' -> Q (RErr prev) x') ->
  wp (rely 1) (guar 1) (try_take_now prev) Q x.
Proof.
  intros (u & Hx & Hu & <- & <-) Hok Herr. unfold try_take_now. eapply wp_has_unread; [exact Hx|..].
  - clear x Hx. intros m p n d x Hx. apply wp_bind. eapply wp_reader_take_now; [exact Hx|exact Hu|].
    intros u' b' x' Hx' Hu' Hg' Hd'.
    eapply wp_ret; [apply reading_stable|exact Hx'|]. intros y Hy. eapply Hok. by exists u'.
  - intros x' Hx'. eapply wp_ret; [apply reading_stable|exact Hx'|]. intros y Hy. apply Herr. by exists u.
Qed.

Definition reader_idle (u : reader_view) (x : config) : Prop :=
  reader_owns u None x /\ Notify.signallers (wg x.2) !! 1 = None.

Lemma reader_idle_env u x x' :
  rely 1 x x' -> r_slot x -> reader_idle u x -> r_slot x' /\ reader_idle u x' /\ Notify.waiter_env reader_ref rg x x'.
Proof.
  intros Hm _ [Hx Hs]. pose proof (Hm (ro_inv _ _ _ Hx)) as Hm'. split_and!; [apply (wm_inv _ _ Hm')| |apply (wm_env _ _ Hm')].
  split; [by eapply reader_owns_move|]. by rewrite (wm_sig _ _ Hm').
Qed.

Lemma reader_idle_move u x x' :
  Notify.waiter_move reader_ref rg r_same x x' -> r_slot x -> reader_idle u x -> reader_idle u x'.
Proof.
  intros Hm _ [Hx Hs]. pose proof (reader_slot_move x x' Hm (ro_inv _ _ _ Hx)) as Hmv.
  destruct Hm as [(Hd & Hg & Hws & Hwl & Hwg) _]. split; [|by rewrite Hwg].
  eapply reader_owns_slots; [exact Hx|apply Hmv|done|done].
Qed.

Lemma reader_idle_guar u x x' :
  Notify.waiter_move reader_ref rg r_same x x' -> r_slot x -> reader_idle u x -> guar 1 x x'.
Proof. intros Hm _ _ Hi. by apply reader_slot_move. Qed.

Lemma wp_reader_arm prev acc d k w Q x :
  has_prev prev acc d (Notify.Out k) x -> (forall x', has_prev prev acc d (Notify.Armed w k) x' -> Q tt x') ->
  wp (rely 1) (guar 1) (Notify.arm reader_ref w) Q x.
Proof.
  intros (u & (Hx & Hs & Hw) & Hu) HQ.
  apply (Notify.wp_arm_waiting _ _ _ _ _ r_in _ _ (reader_idle u) (reader_idle_env u) (reader_idle_guar u)
    (reader_idle_move u) k); [apply (ro_inv _ _ _ Hx)|done|done|]. intros x' _ [? ?] ?. apply HQ. by exists u.
Qed.

Lemma wp_reader_disarm prev acc d k w Q x :
  has_prev prev acc d (Notify.Armed w k) x -> (forall x', has_prev prev acc d (Notify.Out k) x' -> Q tt x') ->
  wp (rely 1) (guar 1) (Notify.disarm reader_ref) Q x.
Proof.
  intros (u & (Hx & Hs & Hw) & Hu) HQ.
  apply (Notify.wp_disarm_waiting _ _ _ _ _ r_in _ _ (reader_idle u) (reader_idle_env u) (reader_idle_guar u)
    (reader_idle_move u) k w); [apply (ro_inv _ _ _ Hx)|done|done|]. intros x' _ [? ?] ?. apply HQ. by exists u.
Qed.

Lemma wp_poll_next prev acc d k w Q x :
  has_prev prev acc d (Notify.Out k) x ->
  (forall b d' x', has_prev (Some b) (acc ++ [d']) d' (Notify.Out k) x' -> Q (mkReader None, Ready b) x') ->
  (forall x', has_prev prev acc d (Notify.Resting w k) x' -> Q (mkReader prev, Pending) x') ->
  wp (rely 1) (guar 1) (poll_next (mkReader prev) w) Q x.
Proof.
  intros Hx Hok Hpend. unfold poll_next. cbn [r_held]. apply wp_bind. eapply wp_try_take_now; [exact Hx|..].
  { intros b d' x' Hx'. eapply wp_ret; [apply has_prev_stable|exact Hx'|]. intros y Hy. by eapply Hok. }
  clear x Hx. intros x Hx. apply wp_bind. apply (wp_reader_arm prev acc d k w); [done|]. clear x Hx. intros x Hx.
  apply wp_bind. eapply wp_try_take_now; [exact Hx|..].
  - intros b d' x' Hx'. apply wp_bind. apply (wp_reader_disarm (Some b) (acc ++ [d']) d' k w); [done|]. intros y Hy.
    eapply wp_ret; [apply has_prev_stable|exact Hy|]. intros z Hz. by eapply Hok.
  - intros x' Hx'. eapply wp_ret; [apply has_prev_stable|exact Hx'|]. intros y Hy. by apply Hpend.
Qed.

Lemma wp_reader_contents {B} b acc d st (k : list T -> prog TripleBuffer B) Q x :
  has_prev (Some b) acc d st x -> (forall x', has_prev (Some b) acc d st x' -> wp (rely 1) (guar 1) (k d) Q x') ->
  wp (rely 1) (guar 1) (c ← contents b; k c) Q x.
Proof.
  intros Hx Hk. eapply wp_act; [apply has_prev_stable|exact Hx|]. clear x Hx. intros s g Hx.
  pose proof Hx as (u & ([Hi _ _ _ _ _ (data & Ho & Hd) _] & _) & (_ & _ & ->) & _ & Hdt). cbn [fst snd] in *.
  exists s, d, g. split.
  { unfold Buffer.deref. rewrite (Buffer.from_raw_parts_owns _ _ _ _ Ho) by apply Ho. outcome_simpl.
    cbn [Buffer.len]. by rewrite set_mem_same, <-Hd, Hdt. }
  split; [intros _; by apply reader_still|]. by apply Hk.
Qed.

Lemma has_prev_out prev acc d st k x :
  has_prev prev acc d st x -> k <= length (reader_log x.1) -> has_prev prev acc d (Notify.Out k) x.
Proof.
  intros (u & (Hx & Hs & Hw) & Hu) Hk. exists u. split; [|done]. split_and!; [done|done|].
  eapply Notify.waiting_out; [apply (ro_inv _ _ _ Hx)|exact Hw|done].
Qed.

Definition reader_rests (prev : option AlignedBuffer) (acc : list (list T)) (pk : parking) (x : config) : Prop :=
  exists d, has_prev prev acc d match pk with None => Notify.Out 0 | Some (w, k) => Notify.Resting w k end x.

Lemma reader_rests_stable prev acc pk : stable (rely 1) (reader_rests prev acc pk).
Proof. intros x x' [d Hx] Hr. exists d. by eapply has_prev_stable. Qed.

Lemma reader_rests_none prev acc d st x : has_prev prev acc d st x -> reader_rests prev acc None x.
Proof. intros Hx. exists d. eapply has_prev_out; [exact Hx|lia]. Qed.

Lemma wp_drive_next prev acc d ws pk Q x :
  has_prev prev acc d match pk with None => Notify.Out 0 | Some (w, k) => Notify.Resting w k end x ->
  (forall b d' pk' x', has_prev (Some b) (acc ++ [d']) d' (Notify.Out 0) x' -> Q (mkReader None, Some b, pk') x') ->
  (forall pk' x', reader_rests prev acc pk' x' -> Q (mkReader prev, None, pk') x') ->
  wp (rely 1) (guar 1) (drive_next (mkReader prev) ws pk) Q x.
Proof.
  intros Hx Hok Hpend. revert pk x Hx. induction ws as [|w ws IH]; intros pk x Hx; cbn [drive_next].
  { eapply wp_ret; [apply has_prev_stable|exact Hx|]. intros y Hy. apply Hpend. by exists d. }
  eapply wp_act; [apply has_prev_stable|exact Hx|]. clear x Hx. intros s g Hx.
  exists s, (length (reader_log s)), g. split; [done|]. split; [intros Hi; by apply reader_still|].
  apply (has_prev_out _ _ _ _ (length (reader_log s))) in Hx; [|done]. apply wp_bind.
  eapply wp_poll_next; [exact Hx|..].
  - intros b d' x' Hx'. eapply wp_ret; [apply has_prev_stable|exact Hx'|]. intros y Hy. eapply Hok.
    eapply has_prev_out; [exact Hy|lia].
  - intros x' Hx'. by apply (IH (Some (w, length (reader_log s)))).
Qed.

Lemma wp_reader_stats prev acc d st Q x :
  has_prev prev acc d st x -> (forall r x', has_prev prev acc d st x' -> Q r x') ->
  wp (rely 1) (guar 1) stats Q x.
Proof.
  intros Hx HQ. unfold stats.
  do 4 (eapply wp_act; [apply has_prev_stable|eassumption|]; intros ? ? ?; do 3 eexists;
    split; [done|]; split; [intros Hi; apply reader_still; exact Hi|]).
  eapply wp_ret; [apply has_prev_stable|eassumption|apply HQ].
Qed.

Lemma wp_reader_step prev acc op Q x :
  reader_rests prev acc None x ->
  (forall prev' ds pk x', reader_rests prev' (acc ++ ds) pk x' -> Q (prev', ds, pk) x') ->
  wp (rely 1) (guar 1) (reader_step prev op) Q x.
Proof.
  intros [d Hx] HQ.
  assert (forall p' ds pk x', reader_rests p' (acc ++ ds) pk x' -> wp (rely 1) (guar 1) (Ret (p', ds, pk)) Q x') as Hend.
  { intros p' ds pk x' Hx'. eapply wp_ret; [apply reader_rests_stable|exact Hx'|]. intros y Hy. by apply HQ. }
  assert (forall b, prev = Some b -> geometry_ok b = true) as Hgeo.
  { intros b ->. destruct Hx as (u & _ & (_ & _ & ->) & _). unfold geometry_ok, Buffer.capacity, Buffer.alignment.
    simpl. by rewrite !Z.eqb_refl. }
  assert (forall b d' x', has_prev (Some b) (acc ++ [d']) d' (Notify.Out 0) x' ->
    wp (rely 1) (guar 1) (d ← contents b; Ret (Some b, [d], None)) Q x') as Hread.
  { intros b d' x' Hx'. eapply wp_reader_contents; [exact Hx'|]. intros y Hy. apply Hend. by eapply reader_rests_none. }
  destruct op as [|ws|]; unfold reader_step.
  - apply wp_bind. unfold try_next. apply wp_bind.
    assert (wp (rely 1) (guar 1)
      match prev with
      | Some b => local (assert_or (geometry_ok b) "buffer geometry does not match this triple buffer")
      | None => Ret tt
      end (fun _ y => has_prev prev acc d (Notify.Out 0) y) x) as Hgw.
    { destruct prev as [b|]; [|eapply wp_ret; [apply has_prev_stable|exact Hx|done]]. rewrite (Hgeo b eq_refl).
      eapply wp_act; [apply has_prev_stable|exact Hx|]. intros s g Hy. exists s, tt, g. split; [done|].
      split; [intros Hi; by apply reader_still|]. eapply wp_ret; [apply has_prev_stable|exact Hy|done]. }
    eapply wp_mono; [|exact Hgw]. intros [] y Hy. eapply wp_try_take_now; [exact Hy|..].
    + intros b d' x' Hx'. by apply (Hread b d').
    + intros x' Hx'. apply Hend. rewrite app_nil_r. by eapply reader_rests_none.
  - assert (next (mkReader None) prev = Done (mkReader prev)) as ->.
    { destruct prev as [b|]; simpl; [|done]. by rewrite (Hgeo b eq_refl). }
    eapply wp_act; [apply has_prev_stable|exact Hx|]. intros s g Hy. exists s, (mkReader prev), g.
    split; [done|]. split; [intros Hi; by apply reader_still|]. apply wp_bind.
    apply (wp_drive_next prev acc d ws None); [done|..].
    + intros b d' pk' x' Hx'. by apply (Hread b d').
    + intros pk' x' Hx'. apply Hend. by rewrite app_nil_r.
  - apply wp_bind. eapply wp_reader_stats; [exact Hx|]. intros r x' Hx'. apply Hend. rewrite app_nil_r.
    by eapply reader_rests_none.
Qed.

Lemma wp_reader_thread prev ops acc pk Q x :
  reader_rests prev acc pk x -> (forall prev' acc' pk' x', reader_rests prev' acc' pk' x' -> Q (acc', pk', prev') x') ->
  wp (rely 1) (guar 1) (reader_thread prev ops acc pk) Q x.
Proof.
  revert prev acc pk x. induction ops as [|op ops IH]; intros prev acc pk x Hx HQ; cbn [reader_thread].
  { eapply wp_ret; [apply reader_rests_stable|exact Hx|]. intros y Hy. by apply HQ. }
  apply wp_bind. eapply wp_reader_step; [destruct Hx as [d Hx]; by eapply reader_rests_none|].
  intros p' ds pk' x' Hx'. by apply IH.
Qed.
(** ** The whole structure *)
(** Freeing everything: the writer's buffer, the reader's, then the slots. *)
Definition drop_hand (o : option AlignedBuffer) (h : heap) : outcome heap :=
  match o with Some b => Buffer.drop_buffer h b | None => Done h end.
Definition drop_everything (we re : tended) (s : TripleBuffer) : outcome heap :=
  h ← drop_hand we.2 (mem s);
  h ← drop_hand re.2 h;
  drop_triple (set_mem h s).

Section init.
Context `{AL : Buffer.Allocator T}.

(** What [new] returns: three buffers of its own, the first for the writer. *)
Lemma triple_new_done s wbuf :
  new h0 = Done (s, wbuf) ->
  exists p0 p1 p2 h, wbuf = buf_at p0 0 /\
    s = mkTriple h [0; p1; p2]%Z [0; 0; 0]%Z 0 1 (mkShared 2 0 0) Notify.new Notify.new [] [] /\
    p0 <> p1 /\ p0 <> p2 /\ p1 <> p2 /\ filled h p0 0 [] /\ filled h p1 0 [] /\ filled h p2 0 [] /\
    delete p0 (delete p2 (delete p1 h)) = h0.
Proof.
  unfold new. intros Hnew. destruct (Buffer.with_alignment h0 cap al) as [[b0 h1]| |] eqn:E0; outcome_simpl; try done.
  destruct (Buffer.with_alignment h1 cap al) as [[b1 h2]| |] eqn:E1; outcome_simpl; try done.
  destruct (Buffer.with_alignment h2 cap al) as [[b2 h3]| |] eqn:E2; outcome_simpl; try done.
  injection Hnew as <- <-.
  apply Buffer.with_alignment_done in E0 as (l0 & _ & N0 & -> & Eh1 & O0).
  apply Buffer.with_alignment_done in E1 as (l1 & _ & N1 & -> & Eh2 & O1).
  apply Buffer.with_alignment_done in E2 as (l2 & _ & N2 & -> & Eh3 & O2).
  pose proof (Buffer.alloc_fresh _ _ N0) as F0. pose proof (Buffer.alloc_fresh _ _ N1) as F1.
  pose proof (Buffer.alloc_fresh _ _ N2) as F2. cbn [Buffer.into_raw Buffer.ptr fst].
  set (p0 := Buffer.alloc_addr h0 l0) in *. set (p1 := Buffer.alloc_addr h1 l1) in *.
  set (p2 := Buffer.alloc_addr h2 l2) in *. clearbody p0 p1 p2.
  assert (p1 <> p0) as D10 by (intros ->; rewrite Eh1, lookup_insert_eq in F1; done).
  assert (p2 <> p1) as D21 by (intros ->; rewrite Eh2, lookup_insert_eq in F2; done).
  assert (p2 <> p0) as D20.
  { intros ->. rewrite Eh2, lookup_insert_ne, Eh1, lookup_insert_eq in F2 by done. done. }
  assert (filled h3 p0 0 [] /\ filled h3 p1 0 [] /\ filled h3 p2 0 []) as (W0 & W1 & W2).
  { split_and!; eexists; (split; [|done]); [..|exact O2]; rewrite Eh3; apply Buffer.owns_insert; simpl; try done.
    rewrite Eh2. apply Buffer.owns_insert; simpl; done. }
  exists p0, p1, p2, h3. split_and!; try done.
  assert (h1 !! p2 = None) as F2' by (rewrite Eh2, lookup_insert_ne in F2; congruence).
  rewrite (delete_delete _ p2 p1), Eh3, delete_insert_id, Eh2, delete_insert_id, Eh1 by done. by apply delete_insert_id.
Qed.

Lemma new_inv s wbuf :
  new h0 = Done (s, wbuf) ->
  exists g, inv (s, g) /\ writer_rests wbuf [] None (s, g) /\ reader_rests None [] None (s, g).
Proof.
  intros (p0 & p1 & p2 & h3 & -> & -> & D01 & D02 & D12 & W0 & W1 & W2 & Hrest)%triple_new_done.
  set (g := mkTG [] 0 TFree 0 2 1 p0 p2 p1 Notify.ghost0 Notify.ghost0).
  match goal with |- context [(?st, _)] => set (s := st) end. exists g.
  assert (inv (s, g)) as Hi.
  { split; cbn [s g fst snd hist got tok wi mi ri wptr mptr rptr rg wg mem]; try done.
    - split_and!; lia.
    - intros p [-> |[-> | ->]]; by exists [].
    - apply Notify.slot_inv_new.
    - apply Notify.slot_inv_new. }
  split_and!; [done|exists []..].
  - exists (mkWV [] 0 0 0 0 p0 0 []). split_and!; try done. split; [|split; [done|split; [by left|simpl; lia]]]. by split.
  - exists (mkRV [] 1 p1 1 p1 0 []). split_and!; try done. split; [|split; [done|split; [by left|simpl; lia]]]. by split.
Qed.

Lemma triple_run sch s0 wbuf wops rops :
  new h0 = Done (s0, wbuf) ->
  exists s ps g, run_sched sch s0 (triple_threads wbuf wops rops) = Done (s, ps) /\
    forall we re, ps = [Ret we; Ret re] ->
      (exists b, we.2 = Some b /\ writer_rests b we.1.1 we.1.2 (s, g)) /\ reader_rests re.2 re.1.1 re.1.2 (s, g).
Proof.
  intros Hnew. destruct (new_inv s0 wbuf Hnew) as (g0 & Hi & Hw & Hr).
  destruct (wp_sound rely guar (fun i (e : tended) x => match i with
      | 0 => exists b, e.2 = Some b /\ writer_rests b e.1.1 e.1.2 x
      | _ => reader_rests e.2 e.1.1 e.1.2 x end) sch s0 g0 (triple_threads wbuf wops rops)) as (s & ps & g & Hrun & Hall & _).
  - intros i j y y'. apply triple_guar_rely.
  - intros [|[|i]] q Hq; simpl in Hq; [injection Hq as <-|injection Hq as <-|done].
    + eapply wp_writer_thread; [exact Hw|]. intros b' h' pk' x' Hx'. by exists b'.
    + eapply wp_reader_thread; [exact Hr|]. intros p' a' pk' x' Hx'. done.
  - exists s, ps, g. split; [done|]. intros we re ->.
    split; [apply (all_wp_returned _ _ _ _ _ 0 we Hall eq_refl)|apply (all_wp_returned _ _ _ _ _ 1 re Hall eq_refl)].
Qed.
End init.

(** *** Freeing *)
Lemma drop_owned h p n d : filled h p n d -> Buffer.drop_buffer h (buf_at p n) = Done (delete p h).
Proof. intros (data & Ho & _). apply (Buffer.drop_buffer_owns _ _ _ Ho). Qed.

Definition wiped (l : list Z) (h : heap) : heap := foldl (fun h p => if (p =? 0)%Z then h else delete p h) h l.

Lemma wiped_lookup l h i :
  wiped l h !! i = if decide (i ∈ l /\ i <> 0%Z) then None else h !! i.
Proof.
  revert h. induction l as [|p l IH]; intros h; cbn [wiped foldl].
  { rewrite decide_False; [done|]. intros [Hi _]. by apply not_elem_of_nil in Hi. }
  change (foldl _ ?x l) with (wiped l x). rewrite IH. destruct (p =? 0)%Z eqn:Hp; bool_props.
  - subst p. destruct (decide (i ∈ l /\ i <> 0%Z)) as [[Hi Hn]|Hi].
    + rewrite decide_True; [done|]. split; [by right|done].
    + rewrite decide_False; [done|]. intros [[->|?]%elem_of_cons Hn]; [done|]. by apply Hi.
  - destruct (decide (i ∈ l /\ i <> 0%Z)) as [[Hi Hn]|Hi].
    + rewrite decide_True; [done|]. split; [by right|done].
    + destruct (decide (i = p)) as [->|Hne].
      * rewrite lookup_delete_eq, decide_True; [done|]. split; [by left|done].
      * rewrite lookup_delete_ne by done. rewrite decide_False; [done|].
        intros [[->|?]%elem_of_cons Hn]; [done|]. by apply Hi.
Qed.

Lemma drop_list l h :
  (forall i j p, l !! i = Some p -> l !! j = Some p -> p <> 0%Z -> i = j) ->
  (forall p, p ∈ l -> p <> 0%Z -> exists d, filled h p 0 d) ->
  foldl (fun h p => h ← h; drop_slot h p) (Done h) l = Done (wiped l h).
Proof.
  revert h. induction l as [|p l IH]; intros h Hinj Hown; [done|]. cbn [foldl wiped]. outcome_simpl. unfold drop_slot at 2.
  assert (forall i j q, l !! i = Some q -> l !! j = Some q -> q <> 0%Z -> i = j) as Hinj'.
  { intros i j q Hi Hj Hq. pose proof (Hinj (S i) (S j) q Hi Hj Hq). lia. }
  destruct (p =? 0)%Z eqn:Hp; bool_props.
  { apply IH; [done|]. intros q Hq. apply Hown. by right. }
  destruct (Hown p) as [d Hd]; [by left|done|]. destruct (from_raw_filled _ _ _ _ Hd) as [_ ->]. outcome_simpl.
  rewrite (drop_owned _ _ _ _ Hd). apply IH; [done|]. intros q Hq Hq0. destruct (Hown q) as [d' Hd']; [by right|done|].
  exists d'. eapply filled_ext; [|exact Hd']. apply lookup_delete_ne. intros <-.
  apply list_elem_of_lookup in Hq as [i Hi]. pose proof (Hinj 0 (S i) p eq_refl Hi Hp). lia.
Qed.
(** The slots when neither side is in the middle of an operation. *)
Lemma slots_at_rest v u s g :
  writer_owns v None (s, g) -> reader_owns u None (s, g) ->
  v_slot v = 0%Z -> u_slot u = 0%Z \/ u_slot u = rptr g ->
  (forall i p, buffers s !! i = Some p -> p <> 0%Z ->
    i = mi g /\ p = mptr g \/ i = ri g /\ p = rptr g /\ u_slot u = rptr g) /\
  mptr g ∈ buffers s /\ u_slot u ∈ buffers s.
Proof.
  intros [Hi _ Hwi _ _ Hsl _ _ Hm] [_ _ Hri _ _ Hsl' _ Hm'] Hv Hu. cbn [fst snd writer_mid reader_mid] in *.
  pose proof (ti_idx _ Hi) as (H1 & H2 & H3 & H4 & H5 & H6). pose proof (ti_len _ Hi) as [Hl _].
  assert (buffers s !! mi g = Some (mptr g)) as Hmid.
  { pose proof (ti_mid _ Hi) as Hmd. cbn [fst snd] in *. destruct (tok g); try done; [by destruct Hmd|by destruct Hmd as (_ & ? & _)]. }
  cbn [fst snd] in *. split_and!.
  - intros i p Hp Hp0. assert (i < 3) as Hi3 by (rewrite <-Hl; by eapply lookup_lt_Some).
    assert (i = v_wi v \/ i = mi g \/ i = u_ri u) as [-> |[-> | ->]] by lia.
    + congruence.
    + left. split; congruence.
    + right. rewrite Hsl' in Hp. injection Hp as <-. destruct Hu as [?|Hu]; [done|]. by split_and!.
  - by eapply list_elem_of_lookup_2.
  - by eapply list_elem_of_lookup_2.
Qed.

Lemma drop_everything_ok we re b s g :
  we.2 = Some b -> writer_rests b we.1.1 we.1.2 (s, g) -> reader_rests re.2 re.1.1 re.1.2 (s, g) ->
  drop_everything we re s = Done h0.
Proof.
  intros Hwe [d (v & (Hv & _) & (_ & Hv0 & ->) & _)] [d' (u & (Hu & _) & (_ & Hprev) & _)].
  pose proof (wo_inv _ _ _ Hv) as Hi. pose proof (ti_ptr _ Hi) as (P1 & P2 & P3).
  assert (u_slot u = 0%Z \/ u_slot u = rptr g) as Hus.
  { pose proof (ro_rp _ _ _ Hu) as Hrp. cbn [snd] in Hrp. destruct (re.2); [left; apply Hprev|right; congruence]. }
  destruct (slots_at_rest v u s g Hv Hu Hv0 Hus) as (Hslots & Hmem1 & Hmem2).
  pose proof (wo_wp _ _ _ Hv) as Hwp. pose proof (wo_data _ _ _ Hv) as Hwd. pose proof (ro_rp _ _ _ Hu) as Hrp.
  pose proof (ro_data _ _ _ Hu) as Hrd. pose proof (ti_own _ Hi) as Hown. pose proof (ti_rest _ Hi) as Hrest. cbn [fst snd] in *.
  rewrite <-Hwp in Hwd. rewrite <-Hrp in Hrd.
  assert (mptr g <> 0%Z /\ rptr g <> 0%Z) as [Hm0 Hr0].
  { split; [destruct (Hown (mptr g)) as [? Hf]|destruct (Hown (rptr g)) as [? Hf]]; auto; by destruct (from_raw_filled _ _ _ _ Hf). }
  unfold drop_everything. rewrite Hwe. cbn [drop_hand]. rewrite <-Hwp, (drop_owned _ _ _ _ Hwd). outcome_simpl.
  set (h2 := if decide (u_slot u = 0%Z) then delete (rptr g) (delete (wptr g) (mem s)) else delete (wptr g) (mem s)).
  assert (drop_hand re.2 (delete (wptr g) (mem s)) = Done h2) as ->.
  { unfold h2. destruct (re.2) as [b'|]; simpl in *.
    - destruct Hprev as [Hz ->]. rewrite decide_True by done. rewrite <-Hrp. eapply drop_owned, filled_ext; [|exact Hrd].
      by rewrite lookup_delete_ne.
    - rewrite decide_False by congruence. done. }
  outcome_simpl. unfold drop_triple. cbn [set_mem mem buffers].
  assert (forall p, p <> wptr g -> p <> rptr g \/ u_slot u <> 0%Z -> h2 !! p = mem s !! p) as Hh2.
  { intros p Hp Hp'. unfold h2. case_decide; [destruct Hp'; [|done]|]; rewrite ?lookup_delete_ne; done. }
  rewrite drop_list; cycle 1.
  { intros i j p Hpi Hpj Hp. destruct (Hslots i p Hpi Hp) as [[-> ->]|(-> & -> & _)];
      destruct (Hslots j _ Hpj Hp) as [[? ?]|(? & ? & _)]; congruence. }
  { intros p [i Hp]%list_elem_of_lookup Hp0. destruct (Hslots i p Hp Hp0) as [[-> ->]|(-> & -> & Hus')].
    - destruct (Hown (mptr g)) as [d0 Hd0]; [auto|]. exists d0. eapply filled_ext; [|exact Hd0]. apply Hh2; [done|]. by left.
    - destruct (Hown (rptr g)) as [d0 Hd0]; [auto|]. exists d0. eapply filled_ext; [|exact Hd0]. apply Hh2; [done|]. right. congruence. }
  f_equal. rewrite <-Hrest. apply map_eq. intros i. rewrite wiped_lookup, !lookup_delete.
  destruct (decide (i = wptr g)) as [->|Hnw].
  { rewrite (decide_True (P := wptr g = wptr g)) by done. case_decide; [done|].
    unfold h2. case_decide; by rewrite ?lookup_delete_ne, lookup_delete_eq by done. }
  rewrite (decide_False (P := wptr g = i)) by congruence.
  destruct (decide (mptr g = i)) as [<-|Hnm]; [by rewrite decide_True|].
  destruct (decide (rptr g = i)) as [<-|Hnr].
  - destruct (decide (u_slot u = 0%Z)) as [Hz|Hz].
    + case_decide; [done|]. unfold h2. apply lookup_delete_eq.
    + rewrite decide_True; [done|]. destruct Hus as [?| <-]; [done|]. done.
  - rewrite decide_False; [apply Hh2; [done|by left]|]. intros [[j Hj]%list_elem_of_lookup Hn].
    destruct (Hslots j i Hj Hn) as [[_ ->]|(_ & -> & _)]; done.
Qed.
(** A parked side whose condition holds has been woken. *)
Lemma triple_reader_woken u w k s g :
  reading u None (Notify.Resting w k) (s, g) -> Notify.signallers (rg g) !! 0 = None -> got g < length (hist g) ->
  Notify.fired_since w k (reader_log s).
Proof.
  intros (Hu & _ & Hw) Hs Hlt. pose proof (ro_inv _ _ _ Hu) as Hi.
  apply (Notify.parked_told _ _ _ _ w k (ti_rslot _ Hi)); [|done|done].
  apply map_eq. intros j. rewrite lookup_empty. destruct (decide (j = 0)) as [->|Hj]; [done|]. by apply (ti_rids _ Hi).
Qed.

Lemma triple_writer_woken v w k s g :
  writing v None (Notify.Resting w k) (s, g) -> Notify.signallers (wg g) !! 1 = None -> length (hist g) <= got g ->
  Notify.fired_since w k (writer_log s).
Proof.
  intros (Hv & _ & Hw) Hs Hle. pose proof (wo_inv _ _ _ Hv) as Hi.
  apply (Notify.parked_told _ _ _ _ w k (ti_wslot _ Hi)); [|done|done].
  apply map_eq. intros j. rewrite lookup_empty. destruct (decide (j = 1)) as [->|Hj]; [done|]. by apply (ti_wids _ Hi).
Qed.
End triple.

Section theorems.
Context `{BM : BuildMode} `{Wk : Wakers} {T : Type} `{Zr : Zeroable T} `{AL : Buffer.Allocator T}.

(** What holds when both threads are done. *)
Lemma triple_end (cap al : Z) (h0 : gmap Z (Buffer.Layout * list T)) (s0 : TripleBuffer) (wbuf : Buffer.AlignedBuffer)
    (wops : list writer_op) (rops : list reader_op) (sch : list nat) :
  new cap al h0 = Done (s0, wbuf) ->
  exists s ps, run_sched sch s0 (triple_threads cap al wbuf wops rops) = Done (s, ps) /\
    forall we re, ps = [Ret we; Ret re] ->
      (re.1.1 `prefix_of` we.1.1 /\ length we.1.1 <= S (length re.1.1) /\ drop_everything cap al we re s = Done h0) /\
      (forall w k, re.1.2 = Some (w, k) -> length re.1.1 < length we.1.1 -> Notify.fired_since w k (reader_log s)) /\
      (forall w k, we.1.2 = Some (w, k) -> length we.1.1 = length re.1.1 -> Notify.fired_since w k (writer_log s)).
Proof.
  intros Hnew. destruct (triple_run cap al h0 sch s0 wbuf wops rops Hnew) as (s & ps & g & Hrun & Hend).
  exists s, ps. split; [done|]. intros we re Hps. destruct (Hend we re Hps) as [(b & Hb & Hw) Hr].
  pose proof (drop_everything_ok _ _ _ _ _ _ _ _ Hb Hw Hr) as Hdrop.
  destruct Hw as [d (v & Hv & _ & Hvh & _)]. destruct Hr as [d' (u & Hu & _ & Hug & _)].
  pose proof Hv as (Hvo & Hvs & _). pose proof Hu as (Huo & Hus & _).
  pose proof (wo_hist _ _ _ _ _ _ Hvo) as Hh. pose proof (ro_got _ _ _ _ _ _ Huo) as [Hg Hp]. cbn [snd] in *.
  rewrite Hvh in Hh. rewrite Hug in Hg, Hp. split_and!.
  - by rewrite <-Hh.
  - pose proof (ti_tok _ _ _ _ (wo_inv _ _ _ _ _ _ Hvo)) as Ht. cbn [snd] in Ht. rewrite <-Hh, <-Hg, Ht. destruct (tok g); lia.
  - done.
  - intros w k Hpk Hlt. rewrite Hpk in Hu. eapply triple_reader_woken; [exact Hu|done|]. rewrite Hh, Hg. done.
  - intros w k Hpk Hle. rewrite Hpk in Hv. eapply triple_writer_woken; [exact Hv|done|]. rewrite Hh, Hg. lia.
Qed.

(** C14: the triple buffer hands over whole buffers without loss. A writer that
    fills, publishes (waiting, trying, or giving up on a wait) and a reader that
    returns its previous buffer with every call, under any interleaving of their
    accesses: nothing panics (in particular no slot is found empty), the contents
    received are, in order, those published, with at most the last one unread; and
    dropping both handles and what they hold frees exactly the three buffers
    allocated at the start. *)
Theorem triple_lossless (cap al : Z) (h0 : gmap Z (Buffer.Layout * list T)) (s0 : TripleBuffer) (wbuf : Buffer.AlignedBuffer)
    (wops : list writer_op) (rops : list reader_op) (sch : list nat) :
  new cap al h0 = Done (s0, wbuf) ->
  exists s ps, run_sched sch s0 (triple_threads cap al wbuf wops rops) = Done (s, ps) /\
    forall we re, ps = [Ret we; Ret re] ->
      re.1.1 `prefix_of` we.1.1 /\ length we.1.1 <= S (length re.1.1) /\
      drop_everything cap al we re s = Done h0.
Proof.
  intros Hnew. destruct (triple_end cap al h0 s0 wbuf wops rops sch Hnew) as (s & ps & Hrun & Hend).
  exists s, ps. split; [done|]. intros we re Hps. apply (Hend we re Hps).
Qed.

(** C15: the triple buffer loses no wakeup. When both are done: a reader left
    parked by its last poll although a buffer is unread has had a waker of its
    task fired during or after that poll, and so has a writer left parked although
    everything published was taken. *)
Theorem triple_no_lost_wakeup (cap al : Z) (h0 : gmap Z (Buffer.Layout * list T)) (s0 : TripleBuffer)
    (wbuf : Buffer.AlignedBuffer) (wops : list writer_op) (rops : list reader_op) (sch : list nat) s we re :
  new cap al h0 = Done (s0, wbuf) ->
  run_sched sch s0 (triple_threads cap al wbuf wops rops) = Done (s, [Ret we; Ret re]) ->
  (forall w k, re.1.2 = Some (w, k) -> length re.1.1 < length we.1.1 -> Notify.fired_since w k (reader_log s)) /\
  (forall w k, we.1.2 = Some (w, k) -> length we.1.1 = length re.1.1 -> Notify.fired_since w k (writer_log s)).
Proof.
  intros Hnew Hrun. destruct (triple_end cap al h0 s0 wbuf wops rops sch Hnew) as (s' & ps & Hrun' & Hend).
  rewrite Hrun in Hrun'. injection Hrun' as <- <-. apply (Hend we re eq_refl).
Qed.
End theorems.

#[local] Instance nat_wakers : Wakers := {| waker := nat; will_wake := Nat.eqb |}.
#[local] Existing Instance debug_build.
#[local] Instance byte_zeroable : Zeroable Z := {| zeroed := 0%Z; size_of := 1; align_of := 1 |}.
#[local] Existing Instance Buffer.bump_allocator.

(** Three messages through buffers of four bytes, the threads alternating. *)
Definition demo_wops : list (writer_op (Wk := nat_wakers) (T := Z)) :=
  [Fill [1; 2; 3]%Z; Publish [50; 50]; Fill [4]%Z; Publish [51; 51; 51]; Fill [5; 6]%Z; TryPublish].
Definition demo_rops : list (reader_op (Wk := nat_wakers)) := [Next [60; 60; 60; 60]; TryNext; Next [61; 61; 61; 61]].
Definition demo_sch : list nat := concat (replicate 150 [0; 1]).

Lemma triple_lossless_witness : exists s0 wbuf s we re,
  new (Wk := nat_wakers) 4 8 ∅ = Done (s0, wbuf) /\
  run_sched demo_sch s0 (triple_threads (Wk := nat_wakers) 4 8 wbuf demo_wops demo_rops) = Done (s, [Ret we; Ret re]) /\
  re.1.1 `prefix_of` we.1.1 /\ length re.1.1 = 2 /\ drop_everything 4 8 we re s = Done ∅.
Proof.
  destruct (new (Wk := nat_wakers) 4 8 ∅) as [[s0 wbuf]| |] eqn:Hnew; [|vm_compute in Hnew; discriminate..].
  destruct (triple_lossless (Wk := nat_wakers) 4 8 ∅ s0 wbuf demo_wops demo_rops demo_sch Hnew) as (s & ps & Hrun & Hps).
  pose proof Hnew as Hnew'. vm_compute in Hnew'. injection Hnew' as <- <-.
  pose proof Hrun as Hrun'. vm_compute in Hrun'. injection Hrun' as <- <-.
  destruct (Hps _ _ eq_refl) as (H1 & H2 & H3). do 5 eexists. split; [reflexivity|]. split; [exact Hrun|].
  split; [exact H1|]. split; [reflexivity|exact H3].
Defined.

(** The reader parks, then the writer publishes. *)
Definition park_rops : list (reader_op (Wk := nat_wakers)) := [Next [60]].
Definition park_wops : list (writer_op (Wk := nat_wakers) (T := Z)) := [Fill [7]%Z; TryPublish].
Definition park_sch : list nat := replicate 40 1 ++ replicate 40 0.

Lemma triple_no_lost_wakeup_witness : exists s0 wbuf s we re,
  new (Wk := nat_wakers) 4 8 ∅ = Done (s0, wbuf) /\
  run_sched park_sch s0 (triple_threads (Wk := nat_wakers) 4 8 wbuf park_wops park_rops) = Done (s, [Ret we; Ret re]) /\
  re.1.2 = Some (60, 0) /\ Notify.fired_since (H0 := nat_wakers) 60 0 (reader_log s).
Proof.
  destruct (new (Wk := nat_wakers) 4 8 ∅) as [[s0 wbuf]| |] eqn:Hnew; [|vm_compute in Hnew; discriminate..].
  destruct (run_sched park_sch s0 (triple_threads (Wk := nat_wakers) 4 8 wbuf park_wops park_rops)) as [[s ps]| |] eqn:Hrun;
    pose proof Hnew as Hnew'; vm_compute in Hnew'; injection Hnew' as <- <-;
    pose proof Hrun as Hrun'; vm_compute in Hrun'; [|discriminate..].
  injection Hrun' as <- <-. do 5 eexists. split; [reflexivity|]. split; [exact Hrun|]. split; [reflexivity|].
  eapply (proj1 (triple_no_lost_wakeup (Wk := nat_wakers) 4 8 ∅ _ _ park_wops park_rops park_sch _ _ _ Hnew Hrun));
    [reflexivity|simpl; lia].
Defined.
End Triple.
