(* ===== verification/WeakTriple.v ===== *)
(** * [TripleBuf] with its memory orderings ([src/site_d/triplebuffer.rs])

    [Module WeakTriple]: the operations of [TripleBuffer.v] over the memory of
    [WeakMemory.v], each access with the ordering it has in the source and the
    buffers' contents by plain accesses that must not race. The generations are
    stored and checked with [SeqCst]; everything else (the indices, the pointers,
    the lengths, the contents) is [Relaxed], [Acquire] or [Release] and changes
    hands with a generation. Writer and reader refine the sequentially consistent
    threads, for every choice of what loads return. *)
From stdpp Require Import base list gmap numbers relations functions strings.
From S2P Require Import Prelude WaitList AlignedBuffer Concurrency Notify TripleBuffer Simulation WeakMemory WeakNotify.

Module WeakTriple.
Import Weak WeakNotify.

(** Side [false] is the writer, thread 0; side [true] is the reader, thread 1.
    [Counter false] is the generation and [Counter true] the last one read; a side
    waits in its own slot. *)
Inductive slot_part : Type := State | Cell | Flag.
Inductive location : Type :=
| Block (p : Z)
| Buffers (i : nat)
| Lens (i : nat)
| Middle
| Idx (b : bool)
| Counter (b : bool)
| Slot (b : bool) (p : slot_part).
#[global] Instance slot_part_eq_dec : EqDecision slot_part.
Proof. solve_decision. Defined.
#[global] Instance location_eq_dec : EqDecision location.
Proof. solve_decision. Defined.

Definition thread (b : bool) : nat := Nat.b2n b.

Section triple.
Context `{BM : BuildMode} `{Wk : Wakers} {T : Type}.
Abbreviation AlignedBuffer := Buffer.AlignedBuffer.
Abbreviation heap := (gmap Z (Buffer.Layout * list T)).
Abbreviation allocation := (option (Buffer.Layout * list T)).

Inductive value : Type :=
| Int (z : Z)
| Index (n : nat)
| Bool (b : bool)
| Registered (w : option waker)
| Contents (c : allocation).
#[global] Instance stored_int : Stored value Z :=
  {| inject := Int; project v := match v with Int z => z | _ => 0%Z end;
     project_inject _ := eq_refl |}.
#[global] Instance stored_index : Stored value nat :=
  {| inject := Index; project v := match v with Index n => n | _ => 0 end;
     project_inject _ := eq_refl |}.
#[global] Instance stored_bool : Stored value bool :=
  {| inject := Bool; project v := match v with Bool b => b | _ => false end;
     project_inject _ := eq_refl |}.
#[global] Instance stored_waker : Stored value (option waker) :=
  {| inject := Registered; project v := match v with Registered w => w | _ => None end;
     project_inject _ := eq_refl |}.
#[global] Instance stored_allocation : Stored value allocation :=
  {| inject := Contents; project v := match v with Contents c => c | _ => None end;
     project_inject _ := eq_refl |}.

Abbreviation machine := (machine (L := location) (V := value)).
Abbreviation memory := (memory (L := location) (V := value)).

Definition slot (b : bool) : Locations location := mkLocations _ (Slot b State) (Slot b Cell) (Slot b Flag).

(** The memory before the handles are given to their threads, from the structure
    [TripleBuffer::new] returns. *)
Definition initial (s0 : Triple.TripleBuffer (T := T)) (l : location) : value :=
  match l with
  | Block p => Contents (Triple.mem s0 !! p)
  | Buffers i => Int (Triple.buffers s0 !!! i)
  | Lens i => Int (Triple.lens s0 !!! i)
  | Middle => Index (Triple.middle_idx (Triple.shared_state s0))
  | Idx false => Index (Triple.writer_idx s0)
  | Idx true => Index (Triple.reader_idx s0)
  | Counter false => Int (Triple.generation (Triple.shared_state s0))
  | Counter true => Int (Triple.last_read_gen (Triple.shared_state s0))
  | Slot _ State => Int Notify.WAITING
  | Slot _ Cell => Registered None
  | Slot _ Flag => Bool false
  end.
Definition start (s0 : Triple.TripleBuffer) (choices : list nat) : machine :=
  mkMachine (fresh (initial s0) choices) (fun _ => []).

(** ** Accesses of a side *)
Section accesses.
Context (b : bool).
Abbreviation t := (thread b).

(** What the code does with an allocation, it does with that one only. *)
Definition alone (p : Z) (c : allocation) : heap := match c with Some c => {[p := c]} | None => ∅ end.
Definition access_block {A} (p : Z) (f : heap -> outcome (heap * A)) (m : memory) : outcome (memory * A) :=
  '(m, r) ← plain t (Block p) (fun v =>
    let r := f (alone p (project v)) in (match r with Done (h, _) => inject (h !! p) | _ => v end, r)) m;
  '(_, a) ← r;
  Done (m, a).

(** Indexing out of bounds panics. *)
Definition indexed {A} (i : nat) (p : prog machine A) : prog machine A :=
  if i <? 3 then p else act (fun _ => Panicked "index out of bounds").

Definition ordered : Triple.Accesses (T := T) machine := {|
  Triple.load_writer_idx o := load_as nat t o (Idx false);
  Triple.load_reader_idx o := load_as nat t o (Idx true);
  Triple.load_middle_idx o := load_as nat t o Middle;
  Triple.load_generation o := load_as Z t o (Counter false);
  Triple.load_last_read o := load_as Z t o (Counter true);
  Triple.load_len i o := indexed i (load_as Z t o (Lens i));
  Triple.store_writer_idx i o := store_as t o (Idx false) i;
  Triple.store_reader_idx i o := store_as t o (Idx true) i;
  Triple.store_middle_idx i o := store_as t o Middle i;
  Triple.store_generation g o := store_as t o (Counter false) g;
  Triple.store_last_read g o := store_as t o (Counter true) g;
  Triple.store_len i n o := indexed i (store_as t o (Lens i) n);
  Triple.swap_buffer i p o := indexed i (update_as t o (Buffers i) (fun _ : Z => p));
  Triple.on_block A p f := act (fun s => '(m, a) ← access_block p f (mem s); Done (mkMachine m (fired s), a));
  Triple.arm_writer := arm t (slot false);
  Triple.arm_reader := arm t (slot true);
  Triple.disarm_writer := disarm t (slot false);
  Triple.disarm_reader := disarm t (slot true);
  Triple.wake_writer := signal t (slot false);
  Triple.wake_reader := signal t (slot true);
  Triple.writer_fired := Concurrency.load (fun s => length (fired s (Slot false State)));
  Triple.reader_fired := Concurrency.load (fun s => length (fired s (Slot true State)))
|}.
End accesses.

Definition threads (cap al : Z) (wbuf : AlignedBuffer) (wops : list (Triple.writer_op (T := T)))
    (rops : list Triple.reader_op) :
    list (prog machine (list (list T) * option (waker * nat) * option AlignedBuffer)) :=
  [Triple.writer_thread cap al (Ac := ordered false) wbuf wops [] None;
   Triple.reader_thread cap al (Ac := ordered true) None rops [] None].

(** ** The state a memory holds

    [blocks]: the allocations, which neither side adds to or frees. *)
Context (blocks : heap).

Definition pointer (m : memory) (i : nat) : Z := project (latest m (Buffers i)).
Definition len_of (m : memory) (i : nat) : Z := project (latest m (Lens i)).
Definition middle_of (m : memory) : nat := project (latest m Middle).
Definition idx_of (m : memory) (b : bool) : nat := project (latest m (Idx b)).
Definition counter (m : memory) (b : bool) : Z := project (latest m (Counter b)).
Definition heap_of (m : memory) : heap := map_imap (fun p _ => project (latest m (Block p))) blocks.

Definition abs (s : machine) : Triple.TripleBuffer (T := T) :=
  Triple.mkTriple (heap_of (mem s)) (pointer (mem s) <$> [0; 1; 2]) (len_of (mem s) <$> [0; 1; 2])
    (idx_of (mem s) false) (idx_of (mem s) true)
    (Triple.mkShared (middle_of (mem s)) (counter (mem s) false) (counter (mem s) true))
    (slot_of (slot true) (mem s)) (slot_of (slot false) (mem s))
    (fired s (Slot true State)) (fired s (Slot false State)).

(** ** Ownership

    Every location but the counters and the slots belongs to one side, as the
    part it works with ([Side]) or the middle it took ([Mid]), or is on its way to
    a side ([To]), which gets it by loading the other side's counter. *)
Inductive party : Type := Side (b : bool) | Mid (b : bool) | To (b : bool).
#[local] Instance party_eq_dec : EqDecision party.
Proof. solve_decision. Defined.
Abbreviation ownership := (location -> party).
Abbreviation config := (machine * ownership)%type.
Definition mine (b : bool) (p : party) : Prop := p = Side b \/ p = Mid b.
Definition data (l : location) : Prop := match l with Counter _ | Slot _ _ => False | _ => True end.

Definition view_of (m : memory) (p : party) : location -> nat :=
  match p with
  | Side b | Mid b => seen m (thread b)
  | To b => published (newest_message m (Counter (negb b)))
  end.

Record core (m : memory) (o : ownership) : Prop := {
  co_wf : wf m;
  co_covers l : data l -> covers (view_of m (o l)) m l;
  co_counter b : last_sc m (Counter b) = newest m (Counter b);
  co_own b : covers (seen m (thread b)) m (Counter b);
  co_self b : view_le (published (newest_message m (Counter b))) (seen m (thread b));
  co_range b : (0 <= counter m b < word_modulus)%Z;
  co_turn : exists b, (o Middle = Mid b \/ o Middle = To b) /\ (counter m false = counter m true <-> b = false);
  co_middle b : o Middle = To b ->
    o (Buffers (middle_of m)) = To b /\ o (Lens (middle_of m)) = To b /\ o (Block (pointer m (middle_of m))) = To b
}.

Definition vinv (x : config) : Prop :=
  core (mem x.1) x.2 /\ forall b, slot_ok (slot b) (thread b) (thread (negb b)) (mem x.1).

(** A step of the other side, as side [b] sees it. *)
Record seen_by (b : bool) (x x' : config) : Prop := {
  sb_inv : vinv x';
  sb_mine l : data l -> mine b (x.2 l) ->
    x'.2 l = x.2 l /\ newest (mem x'.1) l = newest (mem x.1) l /\ latest (mem x'.1) l = latest (mem x.1) l;
  sb_middle : x'.2 Middle = Mid b -> x.2 Middle = Mid b;
  sb_seen : seen (mem x'.1) (thread b) = seen (mem x.1) (thread b);
  sb_own : counter (mem x'.1) b = counter (mem x.1) b;
  sb_turn : x.2 Middle = Mid b ->
    newest (mem x'.1) (Counter (negb b)) = newest (mem x.1) (Counter (negb b)) /\
    counter (mem x'.1) (negb b) = counter (mem x.1) (negb b);
  sb_waiter : waiter_holds (slot b) (mem x.1) -> waiter_holds (slot b) (mem x'.1);
  sb_signaller : signaller_holds (slot (negb b)) (mem x.1) -> signaller_holds (slot (negb b)) (mem x'.1)
}.
Definition rely (b : bool) (x x' : config) : Prop := vinv x -> seen_by b x x'.
Definition guar (b : bool) : config -> config -> Prop := rely (negb b).
(** ** Preservation *)
Lemma thread_ne b : thread (negb b) <> thread b.
Proof. by destruct b. Qed.

(** What a view covers stays covered while the location is not touched. *)
Lemma view_kept t X m m' p l :
  touches t X m m' -> ~ X l -> (forall b, ~ X (Counter b)) -> covers (view_of m p) m l -> covers (view_of m' p) m' l.
Proof.
  intros Ht Hl Hc Hv. destruct p as [b|b|b]; cbn [view_of] in *; [by eapply covers_seen..|].
  rewrite (to_message _ _ _ _ _ Ht) by done. eapply covers_same; [by eapply to_newest|done].
Qed.

(** An access of side [b] to what is its own, or to no data at all. *)
Lemma core_access b X m m' o `{!forall l, Decision (X l)} :
  touches (thread b) X m m' -> (forall c, ~ X (Counter c)) ->
  (forall l, X l -> data l -> mine b (o l) /\ covers (seen m' (thread b)) m' l) -> core m o -> core m' o.
Proof.
  intros Ht HX Hmine [Hw Hcov Hsc Hown Hself Hrange Hturn Hmid].
  assert (forall c, counter m' c = counter m c) as Hc by (intros c; unfold counter; by rewrite (touches_latest _ _ _ _ _ Ht)).
  assert (forall c, (forall l, o l = To c -> data l -> ~ X l)) as Hto.
  { intros c l Hl Hd HXl. destruct (Hmine l HXl Hd) as [[Hm|Hm] _]; congruence. }
  split.
  - apply Ht.
  - intros l Hl. destruct (decide (X l)) as [HXl|HXl]; [by destruct (Hmine l HXl Hl) as [[-> | ->] Hx]|].
    apply (view_kept _ _ _ _ _ _ Ht); [done..|]. by apply Hcov.
  - intros c. by rewrite (to_sc _ _ _ _ Ht), (to_newest _ _ _ _ Ht).
  - intros c. by eapply covers_seen.
  - intros c. rewrite (to_message _ _ _ _ _ Ht) by done. etrans; [apply Hself|by eapply touches_seen].
  - intros c. by rewrite Hc.
  - destruct Hturn as (c & Ho & Heq). exists c. by rewrite !Hc.
  - intros c Hoc. destruct (Hmid c Hoc) as (Hb & Hl & Hp).
    assert (middle_of m' = middle_of m) as Hmi.
    { unfold middle_of. rewrite (touches_latest _ _ _ _ _ Ht); [done|by eapply Hto]. }
    assert (pointer m' (middle_of m) = pointer m (middle_of m)) as Hpt.
    { unfold pointer. rewrite (touches_latest _ _ _ _ _ Ht); [done|by eapply Hto]. }
    by rewrite Hmi, Hpt.
Qed.

Lemma slots_access t X (m m' : memory) :
  touches t X m m' -> (forall l, X l -> ~ exists b p, l = Slot b p) ->
  (forall b, slot_ok (slot b) (thread b) (thread (negb b)) m) -> forall b, slot_ok (slot b) (thread b) (thread (negb b)) m'.
Proof.
  intros Ht HX Hok b. eapply ok_frame; [exact Ht| |apply Hok]. intros l Hl Hs. apply (HX l Hl).
  destruct Hs as [->|[->| ->]]; cbn; eauto.
Qed.

Lemma held_same t X (m m' : memory) b :
  touches t X m m' -> (forall l, X l -> ~ exists b p, l = Slot b p) -> state_of (slot b) m' = state_of (slot b) m.
Proof.
  intros Ht HX. unfold state_of. rewrite (touches_latest _ _ _ _ _ Ht); [done|]. intros Hx. apply (HX _ Hx). cbn. eauto.
Qed.

(** Such an access, as the other side sees it. *)
Lemma access_seen b X s o m' `{!forall l, Decision (X l)} :
  touches (thread b) X (mem s) m' -> (forall l, X l -> data l /\ mine b (o l) /\ covers (seen m' (thread b)) m' l) ->
  vinv (s, o) -> seen_by (negb b) (s, o) (mkMachine m' (fired s), o).
Proof.
  intros Ht HX [Hc Hok]. cbn [fst snd] in *.
  assert (forall c, ~ X (Counter c)) as Hcn by (intros c Hx; by destruct (HX _ Hx)).
  assert (forall l, X l -> ~ exists c p, l = Slot c p) as Hsn by (intros l Hx (c & p & ->); by destruct (HX _ Hx)).
  split; cbn [fst snd mem].
  - split; [|by eapply slots_access]. apply (core_access b X (mem s) m' o Ht); [done| |done]. intros l Hl _. apply (HX l Hl).
  - intros l Hl Hm. assert (~ X l) as Hx.
    { intros Hx. destruct (HX l Hx) as (_ & Hb & _). destruct b, Hm as [Hm|Hm], Hb as [Hb|Hb]; cbn in *; congruence. }
    split; [done|]. by rewrite (to_newest _ _ _ _ Ht), (touches_latest _ _ _ _ _ Ht).
  - done.
  - apply (to_others _ _ _ _ Ht). apply thread_ne.
  - unfold counter. by rewrite (touches_latest _ _ _ _ _ Ht).
  - intros _. unfold counter. by rewrite (to_newest _ _ _ _ Ht), (touches_latest _ _ _ _ _ Ht).
  - unfold waiter_holds. by rewrite (held_same _ _ _ _ _ Ht).
  - unfold signaller_holds. by rewrite (held_same _ _ _ _ _ Ht).
Qed.

(** *** Taking what is on its way *)
Definition receive (b : bool) (o : ownership) : ownership := fun l => if decide (o l = To b) then Mid b else o l.

Lemma core_receive b m o :
  core m o -> covers (seen m (thread b)) m (Counter (negb b)) ->
  view_le (published (newest_message m (Counter (negb b)))) (seen m (thread b)) ->
  core m (receive b o).
Proof.
  intros [Hw Hcov Hsc Hown Hself Hrange Hturn Hmid] Hseen Hle. split; try done.
  - intros l Hl. specialize (Hcov l Hl). unfold receive. case_decide as Hd; [|done]. rewrite Hd in Hcov.
    by eapply covers_le.
  - destruct Hturn as (c & Ho & Heq). exists c. split; [|done]. unfold receive. case_decide as Hd; [|done].
    left. destruct Ho as [Ho|Ho]; congruence.
  - intros c. unfold receive. case_decide as Hd; [done|]. intros Hoc. destruct (Hmid c Hoc) as (Hb & Hl & Hp).
    assert (c <> b) as Hne by (intros ->; congruence). rewrite Hb, Hl, Hp. by rewrite !decide_False by congruence.
Qed.

(** *** Giving it away *)
Definition give (b : bool) (o : ownership) : ownership := fun l =>
  if decide (l = Idx b) then o l
  else if decide (o l = Side b) then To (negb b)
  else if decide (o l = Mid b) then (if decide (l = Middle) then To (negb b) else Side b)
  else o l.
Lemma give_view b m m' o l :
  core m o -> touches (thread b) (eq (Counter b)) m m' ->
  view_le (seen m' (thread b)) (published (newest_message m' (Counter b))) ->
  view_le (view_of m (o l)) (view_of m' (give b o l)).
Proof.
  intros Hc Ht Hpub. pose proof (co_self _ _ Hc) as Hself.
  assert (forall c, view_le (seen m (thread c)) (seen m' (thread c))) as Hse by (intros c; by eapply touches_seen).
  assert (view_le (view_of m (o l)) (view_of m' (o l))) as Hsame.
  { destruct (o l) as [c|c|c]; cbn [view_of]; [apply Hse..|]. destruct (decide (negb c = b)) as [->|Hne].
    - etrans; [apply Hself|]. etrans; [apply Hse|done].
    - rewrite (to_message _ _ _ _ _ Ht); [done|]. intros [= ?]. congruence. }
  unfold give. destruct (decide (l = Idx b)) as [_|_]; [done|]. case_decide as H1; [|case_decide as H2; [|done]].
  - rewrite H1. cbn [view_of]. rewrite negb_involutive. etrans; [apply Hse|done].
  - rewrite H2. case_decide; cbn [view_of]; [rewrite negb_involutive; etrans; [apply Hse|done]|apply Hse].
Qed.

Lemma core_give b m o (v : Z) :
  core m o -> o Middle = Mid b -> o (Buffers (middle_of m)) = Side b -> o (Lens (middle_of m)) = Side b ->
  o (Block (pointer m (middle_of m))) = Side b -> (0 <= v < word_modulus)%Z -> (v = counter m (negb b) <-> b = true) ->
  core (store (thread b) SeqCst (Counter b) (inject v) m) (give b o).
Proof.
  intros Hco Hom Hb Hl Hp Hv Heq. pose proof Hco as [Hw Hcov Hsc Hown Hself Hrange Hturn Hmid].
  set (m' := store (thread b) SeqCst (Counter b) (inject v) m).
  assert (touches (thread b) (eq (Counter b)) m m') as Ht by (apply append_touches; [done|apply nothing_le]).
  assert (forall l, data l -> Counter b <> l) as Hd by (intros l Hl' <-; done).
  assert (counter m' b = v) as Hcb by (unfold counter, m'; rewrite latest_store; apply project_inject).
  assert (counter m' (negb b) = counter m (negb b)) as Hcn.
  { unfold counter. rewrite (touches_latest _ _ _ _ _ Ht); [done|]. destruct b; done. }
  assert (view_le (seen m' (thread b)) (published (newest_message m' (Counter b)))) as Hpub by by apply published_own.
  assert (give b o Middle = To (negb b)) as Hgm.
  { unfold give. rewrite Hom, !decide_False, decide_True, decide_True by done. done. }
  assert (forall l, data l -> l <> Idx b -> o l = Side b -> give b o l = To (negb b)) as Hgs.
  { intros l _ Hne Hol. unfold give. by rewrite decide_False, Hol, decide_True. }
  split.
  - apply Ht.
  - intros l Hdl. specialize (Hcov l Hdl). specialize (Hd l Hdl).
    eapply covers_same; [by eapply to_newest|]. eapply covers_le; [by apply (give_view b m m')|exact Hcov].
  - intros c. destruct (decide (c = b)) as [->|Hne]; [apply sc_append|].
    by rewrite (to_sc _ _ _ _ Ht), (to_newest _ _ _ _ Ht) by congruence.
  - intros c. destruct (decide (c = b)) as [->|Hne]; [apply covers_own|].
    eapply covers_seen; [exact Ht|congruence|apply Hown].
  - intros c. destruct (decide (c = b)) as [->|Hne].
    + unfold m', store. rewrite message_append, seen_append. apply join_lub; [apply nothing_le|done].
    + rewrite (to_message _ _ _ _ _ Ht) by congruence. etrans; [apply Hself|by eapply touches_seen].
  - intros c. destruct (decide (c = b)) as [->|Hne]; [by rewrite Hcb|].
    assert (c = negb b) as -> by (by destruct b, c). by rewrite Hcn.
  - exists (negb b). split; [by right|]. destruct b; cbn [negb] in *; rewrite Hcb, Hcn.
    + split; [done|]. intros _. symmetry. by apply Heq.
    + split; [|done]. intros Hx. by apply Heq in Hx.
  - intros c Hoc. rewrite Hgm in Hoc. injection Hoc as <-.
    assert (middle_of m' = middle_of m) as -> by (unfold middle_of; by rewrite (touches_latest _ _ _ _ _ Ht)).
    assert (pointer m' (middle_of m) = pointer m (middle_of m)) as ->.
    { unfold pointer. by rewrite (touches_latest _ _ _ _ _ Ht). }
    by rewrite !Hgs.
Qed.

Lemma vinv_counter b m m' : touches (thread b) (eq (Counter b)) m m' ->
  (forall c, slot_ok (slot c) (thread c) (thread (negb c)) m) -> forall c, slot_ok (slot c) (thread c) (thread (negb c)) m'.
Proof. intros Ht. eapply slots_access; [exact Ht|]. intros l <- (c & p & Hx). done. Qed.

Lemma give_seen b s o (v : Z) m' :
  vinv (s, o) -> o Middle = Mid b -> m' = store (thread b) SeqCst (Counter b) (inject v) (mem s) ->
  core m' (give b o) -> seen_by (negb b) (s, o) (mkMachine m' (fired s), give b o).
Proof.
  intros [Hc Hok] Hom -> Hc'. cbn [fst snd] in *. set (m' := store (thread b) SeqCst (Counter b) (inject v) (mem s)).
  assert (touches (thread b) (eq (Counter b)) (mem s) m') as Ht by (apply append_touches; [apply Hc|apply nothing_le]).
  assert (Counter b <> Counter (negb b)) as Hne by by destruct b.
  assert (forall l, Counter b = l -> ~ exists c p, l = Slot c p) as Hsn by (intros l <- (c & p & Hx); done).
  split; cbn [fst snd mem].
  - split; [exact Hc'|by eapply vinv_counter].
  - intros l Hl Hm. assert (give b o l = o l) as ->.
    { unfold give. destruct b, Hm as [-> | ->]; by repeat case_decide. }
    split; [done|]. assert (Counter b <> l) as Hx by by intros <-.
    by rewrite (to_newest _ _ _ _ Ht), (touches_latest _ _ _ _ _ Ht).
  - unfold give. rewrite Hom, !decide_False, decide_True, decide_True by done. done.
  - apply (to_others _ _ _ _ Ht). apply thread_ne.
  - unfold counter. by rewrite (touches_latest _ _ _ _ _ Ht).
  - rewrite Hom. intros [= Hb]. by destruct b.
  - unfold waiter_holds. by rewrite (held_same _ _ _ _ _ Ht).
  - unfold signaller_holds. by rewrite (held_same _ _ _ _ _ Ht).
Qed.

Lemma receive_seen b s o m' :
  vinv (s, o) -> touches (thread b) (fun _ => False) (mem s) m' -> core m' (receive b o) ->
  seen_by (negb b) (s, o) (mkMachine m' (fired s), receive b o).
Proof.
  intros Hi Ht Hc'. destruct (access_seen b (fun _ => False) s o m' Ht) as [[_ Hok] Hm Hmi Hse Hco Htu Hwa Hsi]; [by intros l []|done|].
  cbn [fst snd mem] in *. split; cbn [fst snd mem]; try done.
  - intros l Hl Hml. destruct (Hm l Hl Hml) as (_ & ? & ?). split; [|done]. unfold receive. rewrite decide_False; [done|].
    destruct b, Hml as [-> | ->]; done.
  - unfold receive. case_decide; [|done]. intros [= Hb]. by destruct b.
Qed.
(** ** What a side knows

    Its slot's number, the index and the pointer it left there, the address of the
    buffer in its hand; and, while the middle is its, that slot's number, the index
    and the pointer left there, the address of the buffer that came with it, and the
    other side's counter; and its own counter. *)
Record middle : Type := mkMid { m_slot : nat; m_idx : nat; m_left : Z; m_block : Z; m_count : Z }.
Record hold : Type := mkHold { own : nat; idx : nat; left : Z; hand : Z; mid : option middle; cnt : Z }.

Record holds_middle (b : bool) (q : middle) (x : config) : Prop := {
  hm_turn : x.2 Middle = Mid b;
  hm_idx : middle_of (mem x.1) = m_idx q;
  hm_buffers : x.2 (Buffers (m_slot q)) = Mid b;
  hm_left : pointer (mem x.1) (m_slot q) = m_left q;
  hm_lens : x.2 (Lens (m_slot q)) = Mid b;
  hm_block : x.2 (Block (m_block q)) = Mid b;
  hm_seen : covers (seen (mem x.1) (thread b)) (mem x.1) (Counter (negb b));
  hm_count : counter (mem x.1) (negb b) = m_count q
}.
Definition holds_mid (b : bool) (o : option middle) (x : config) : Prop :=
  match o with None => x.2 Middle <> Mid b | Some q => holds_middle b q x end.

Record holds (b : bool) (v : hold) (x : config) : Prop := {
  ho_inv : vinv x;
  ho_index : x.2 (Idx b) = Side b /\ idx_of (mem x.1) b = idx v;
  ho_buffers : x.2 (Buffers (own v)) = Side b /\ pointer (mem x.1) (own v) = left v;
  ho_lens : x.2 (Lens (own v)) = Side b;
  ho_hand : x.2 (Block (hand v)) = Side b;
  ho_mid : holds_mid b (mid v) x;
  ho_cnt : counter (mem x.1) b = cnt v
}.

Lemma holds_stable b v : stable (rely b) (holds b v).
Proof.
  intros x x' [Hi [Hi1 Hi2] [Hb1 Hb2] Hl Hh Hm Hk] Hr. destruct (Hr Hi) as [Hi' Hmine Hmid Hse Hown Hturn _ _].
  assert (forall l, data l -> x.2 l = Side b -> x'.2 l = Side b /\ latest (mem x'.1) l = latest (mem x.1) l) as Hs.
  { intros l Hd Ho. destruct (Hmine l Hd (or_introl Ho)) as (-> & _ & ->). done. }
  assert (forall l, data l -> x.2 l = Mid b -> x'.2 l = Mid b /\ latest (mem x'.1) l = latest (mem x.1) l) as Hd.
  { intros l Hd Ho. destruct (Hmine l Hd (or_intror Ho)) as (-> & _ & ->). done. }
  split.
  - done.
  - unfold idx_of. by destruct (Hs (Idx b) I Hi1) as [? ->].
  - unfold pointer. by destruct (Hs (Buffers (own v)) I Hb1) as [? ->].
  - by apply Hs.
  - by apply Hs.
  - destruct (mid v) as [q|]; cbn [holds_mid] in *; [|by intros Hx; apply Hm, Hmid].
    destruct Hm as [Hm Hj Hbi Hp Hli Hbp Hcv Hg]. destruct (Hturn Hm) as [Hn Hcn].
    destruct (Hd Middle I Hm) as [? Hlm]. destruct (Hd (Buffers (m_slot q)) I Hbi) as [? Hlb]. split.
    + done.
    + unfold middle_of. by rewrite Hlm.
    + done.
    + unfold pointer. by rewrite Hlb.
    + by apply Hd.
    + by apply Hd.
    + rewrite Hse. by eapply covers_same.
    + congruence.
  - congruence.
Qed.

(** What a side owns it has seen. *)
Lemma mine_covered b x l : vinv x -> data l -> mine b (x.2 l) -> covers (seen (mem x.1) (thread b)) (mem x.1) l.
Proof. intros [Hc _] Hl Hm. pose proof (co_covers _ _ Hc l Hl) as Hv. by destruct Hm as [Hm|Hm]; rewrite Hm in Hv. Qed.

(** ** Accesses of a side *)
Abbreviation bsim b := (sim_exact abs (rely b) (guar b)).

(** To a location of its own. *)
Lemma sim_own {A B C} b v (f : machine -> outcome (machine * B)) (a : Triple.TripleBuffer -> outcome (Triple.TripleBuffer * C))
    (k : B -> prog machine A) (kp : C -> prog Triple.TripleBuffer A) Q x l :
  holds b v x -> data l ->
  (forall s o s1 c, holds b v (s, o) -> a (abs s) = Done (s1, c) -> mine b (o l) /\ exists m' b', f s = Done (mkMachine m' (fired s), b') /\
    abs (mkMachine m' (fired s)) = s1 /\ touches (thread b) (eq l) (mem s) m' /\ covers (seen m' (thread b)) m' l /\
    (vinv (mkMachine m' (fired s), o) -> bsim b (k b') (kp c) Q (mkMachine m' (fired s), o))) ->
  bsim b (Act f k) (Act a kp) Q x.
Proof.
  intros Hx Hl Hk. apply (sim_exact_act abs _ _ _ _ _ _ (holds b v)); [apply holds_stable|done|]. clear x Hx.
  intros s o s1 c Hx Ha. destruct (Hk s o s1 c Hx Ha) as (Hm & m' & b' & Hf & Habs & Ht & Hcv & Hsim).
  pose proof (ho_inv _ _ _ Hx) as Hi.
  assert (seen_by (negb b) (s, o) (mkMachine m' (fired s), o)) as Hseen.
  { apply (access_seen b (eq l) s o m' Ht); [by intros l' <-|done]. }
  exists (mkMachine m' (fired s)), b', o. split_and!; [done..|by intros _|]. apply Hsim, Hseen.
Qed.

(** What it knows afterwards. *)
Lemma holds_store b v v' s o m' l :
  holds b v (s, o) -> touches (thread b) (eq l) (mem s) m' -> vinv (mkMachine m' (fired s), o) -> data l ->
  own v' = own v -> hand v' = hand v -> cnt v' = cnt v -> idx_of m' b = idx v' -> pointer m' (own v) = left v' ->
  match mid v, mid v' with
  | None, None => True
  | Some q, Some q' => m_slot q' = m_slot q /\ m_block q' = m_block q /\ m_count q' = m_count q /\
      middle_of m' = m_idx q' /\ pointer m' (m_slot q) = m_left q'
  | _, _ => False
  end -> holds b v' (mkMachine m' (fired s), o).
Proof.
  intros [Hi [Hi1 Hi2] [Hb1 Hb2] Hl Hh Hm Hk] Ht Hi' Hd Eo Eh Ec Ei El Em. cbn [fst snd] in *.
  assert (forall c, l <> Counter c) as Hc by (by intros c ->).
  split; cbn [fst snd mem]; rewrite ?Eo, ?Eh, ?Ec; try done; [|unfold counter; by rewrite (touches_latest _ _ _ _ _ Ht)].
  destruct (mid v) as [q|], (mid v') as [q'|]; try done. cbn [holds_mid] in *. destruct Em as (E1 & E2 & E3 & E4 & E5).
  destruct Hm as [Hm Hj Hbi Hp Hli Hbp Hcv Hg]. cbn [fst snd] in *.
  split; cbn [fst snd mem]; rewrite ?E1, ?E2, ?E3; try done.
  - by eapply covers_seen.
  - unfold counter. by rewrite (touches_latest _ _ _ _ _ Ht).
Qed.

(** An access that stores nothing. *)
Lemma holds_quiet b v s o m' :
  holds b v (s, o) -> touches (thread b) (fun _ => False) (mem s) m' ->
  holds b v (mkMachine m' (fired s), o) /\ seen_by (negb b) (s, o) (mkMachine m' (fired s), o).
Proof.
  intros [Hi [Hi1 Hi2] [Hb1 Hb2] Hl Hh Hm Hk] Ht. cbn [fst snd] in *.
  assert (seen_by (negb b) (s, o) (mkMachine m' (fired s), o)) as Hs.
  { apply (access_seen b (fun _ => False) s o m' Ht); [by intros l []|done]. }
  split; [|done]. assert (forall l, latest m' l = latest (mem s) l) as Hlat.
  { intros l. apply (touches_latest _ _ _ _ _ Ht). by intros []. }
  split; cbn [fst snd mem]; [apply Hs| | |done|done| |].
  - unfold idx_of. by rewrite Hlat.
  - unfold pointer. by rewrite Hlat.
  - destruct (mid v) as [q|]; [|done]. cbn [holds_mid] in *. destruct Hm as [Hm Hj Hbi Hp Hli Hbp Hcv Hg].
    cbn [fst snd] in *. split; cbn [fst snd mem]; unfold middle_of, pointer, counter; rewrite ?Hlat; try done.
    eapply covers_seen; [exact Ht|by intros []|done].
  - unfold counter. by rewrite Hlat.
Qed.

Lemma triple_abs_quiet s (m' : memory) : (forall l, latest m' l = latest (mem s) l) -> abs (mkMachine m' (fired s)) = abs s.
Proof.
  intros Hl. unfold abs, heap_of, pointer, len_of, middle_of, idx_of, counter, slot_of. cbn. rewrite !Hl.
  f_equal. apply map_eq. intros p. rewrite !map_lookup_imap. by rewrite Hl.
Qed.

(** A load of a location it has seen. *)
Lemma sim_load_known {A} b v (C : Type) `{!Stored value C} o l (f : Triple.TripleBuffer -> C) (c : C)
    (k : C -> prog machine A) (kp : C -> prog Triple.TripleBuffer A) Q x :
  holds b v x ->
  (forall s g, holds b v (s, g) -> covers (seen (mem s) (thread b)) (mem s) l /\ f (abs s) = project (latest (mem s) l) /\
    project (latest (mem s) l) = c) ->
  (forall y, holds b v y -> bsim b (k c) (kp c) Q y) ->
  bsim b (load_as C (thread b) o l ≫= k) (Concurrency.load f ≫= kp) Q x.
Proof.
  intros Hx Hc Hk. apply (sim_exact_act abs _ _ _ _ _ _ (holds b v)); [apply holds_stable|done|]. clear x Hx.
  intros s g s1 c1 Hx [= <- <-]. destruct (Hc s g Hx) as (Hcv & Hf & Hv).
  pose proof (ho_inv _ _ _ Hx) as Hi. pose proof (co_wf _ _ (proj1 Hi)) as Hw.
  set (m' := (load (thread b) o l (mem s)).1).
  assert (touches (thread b) (fun _ => False) (mem s) m') as Ht by by apply load_touches.
  destruct (holds_quiet b v s g m' Hx Ht) as [Hx' Hs].
  exists (mkMachine m' (fired s)), c, g. split_and!.
  - unfold m'. rewrite load_seen by done. cbn. by rewrite Hv.
  - apply triple_abs_quiet. done.
  - by intros _.
  - rewrite Hf, Hv. by apply Hk.
Qed.

(** A local computation. *)
Lemma sim_local {A C} b v (r : outcome C) (k : C -> prog machine A) (kp : C -> prog Triple.TripleBuffer A) Q x :
  holds b v x -> (forall c y, r = Done c -> holds b v y -> bsim b (k c) (kp c) Q y) ->
  bsim b (Triple.local r ≫= k) (Triple.local r ≫= kp) Q x.
Proof.
  intros Hx Hk. apply (sim_exact_act abs _ _ _ _ _ _ (holds b v)); [apply holds_stable|done|]. clear x Hx.
  intros s g s1 c Hx Hr. destruct r as [c'| |]; outcome_simpl; try done. injection Hr as <- <-.
  exists s, c', g. split_and!; [done|done| |by apply Hk]. intros Hi.
  destruct (holds_quiet b v s g (mem s) Hx) as [_ Hs]; [apply touches_refl, (co_wf _ _ (proj1 Hi))|]. by destruct s.
Qed.

Lemma bsim_ret {A} b v (c : A) (Q : A -> config -> Prop) x :
  holds b v x -> (forall y, holds b v y -> Q c y) -> bsim b (Ret c) (Ret c) Q x.
Proof. intros Hx HQ. eapply sim_ret; [apply (holds_stable b v)|done|done]. Qed.
(** What a store to one location does to the abstract state. *)
Definition put (l : location) (m : memory) (s : Triple.TripleBuffer) : Triple.TripleBuffer :=
  match l with
  | Block _ => Triple.set_mem (heap_of m) s
  | Buffers i => Triple.set_buffers (<[i := pointer m i]> (Triple.buffers s)) s
  | Lens i => Triple.set_lens (<[i := len_of m i]> (Triple.lens s)) s
  | Middle => Triple.set_middle_idx (middle_of m) s
  | Idx false => Triple.set_writer_idx (idx_of m false) s
  | Idx true => Triple.set_reader_idx (idx_of m true) s
  | Counter false => Triple.set_generation (counter m false) s
  | Counter true => Triple.set_last_read_gen (counter m true) s
  | Slot _ _ => s
  end.

Lemma three_insert (f g : nat -> Z) i : (forall j, i <> j -> g j = f j) -> g <$> [0; 1; 2] = <[i := g i]> (f <$> [0; 1; 2]).
Proof. intros Hf. destruct i as [|[|[|i]]]; cbn; repeat f_equal; apply Hf; lia. Qed.

Lemma abs_put t s m' l : (forall b p, l <> Slot b p) -> touches t (eq l) (mem s) m' ->
  abs (mkMachine m' (fired s)) = put l m' (abs s).
Proof.
  intros Hsl Ht. assert (forall l', l <> l' -> latest m' l' = latest (mem s) l') as Hl by (intros l'; by eapply touches_latest).
  assert ((forall p, l <> Block p) -> heap_of m' = heap_of (mem s)) as Hh.
  { intros Hb. unfold heap_of. apply map_eq. intros p. rewrite !map_lookup_imap. by rewrite Hl. }
  assert (forall b, slot_of (slot b) m' = slot_of (slot b) (mem s)) as Hs.
  { intros b. unfold slot_of. by rewrite !Hl by apply Hsl. }
  assert ((forall i, l <> Buffers i) -> pointer m' <$> [0; 1; 2] = pointer (mem s) <$> [0; 1; 2]) as Hp.
  { intros Hb. unfold pointer. cbn. by rewrite !Hl. }
  assert ((forall i, l <> Lens i) -> len_of m' <$> [0; 1; 2] = len_of (mem s) <$> [0; 1; 2]) as Hn.
  { intros Hb. unfold len_of. cbn. by rewrite !Hl. }
  assert ((l <> Middle) -> middle_of m' = middle_of (mem s)) as Hm by (intros Hb; unfold middle_of; by rewrite Hl).
  assert (forall b, l <> Idx b -> idx_of m' b = idx_of (mem s) b) as Hi by (intros b Hb; unfold idx_of; by rewrite Hl).
  assert (forall b, l <> Counter b -> counter m' b = counter (mem s) b) as Hc by (intros b Hb; unfold counter; by rewrite Hl).
  unfold abs. cbn [mem fired]. rewrite !Hs.
  destruct l as [p|i|i| |[]|[]|b p]; cbn [put]; try (by exfalso; eapply Hsl);
    rewrite ?Hh, ?Hp, ?Hn, ?Hm, ?(Hi true), ?(Hi false), ?(Hc true), ?(Hc false) by done; try done.
  - rewrite (three_insert (pointer (mem s)) (pointer m') i); [done|]. intros j Hj. unfold pointer. rewrite Hl; [done|congruence].
  - rewrite (three_insert (len_of (mem s)) (len_of m') i); [done|]. intros j Hj. unfold len_of. rewrite Hl; [done|congruence].
Qed.

Lemma three_lookup (f : nat -> Z) i z : (f <$> [0; 1; 2]) !! i = Some z -> (i <? 3) = true /\ z = f i.
Proof. destruct i as [|[|[|i]]]; cbn; intros [= <-]; done. Qed.

(** Stores and swaps, as [sim_own] needs them. *)
Lemma store_own b o l (v : value) s g (m' : memory) :
  vinv (s, g) -> m' = store (thread b) o l v (mem s) ->
  touches (thread b) (eq l) (mem s) m' /\ covers (seen m' (thread b)) m' l /\ latest m' l = v.
Proof.
  intros [Hc _] ->. split_and!; [apply append_touches; [apply Hc|apply nothing_le]|apply covers_own|apply latest_store].
Qed.

Lemma pointer_kept t X (m m' : memory) i : touches t X m m' -> ~ X (Buffers i) -> pointer m' i = pointer m i.
Proof. intros Ht Hx. unfold pointer. by rewrite (touches_latest _ _ _ _ _ Ht). Qed.
Lemma middle_kept t X (m m' : memory) : touches t X m m' -> ~ X Middle -> middle_of m' = middle_of m.
Proof. intros Ht Hx. unfold middle_of. by rewrite (touches_latest _ _ _ _ _ Ht). Qed.
Lemma idx_kept t X (m m' : memory) b : touches t X m m' -> ~ X (Idx b) -> idx_of m' b = idx_of m b.
Proof. intros Ht Hx. unfold idx_of. by rewrite (touches_latest _ _ _ _ _ Ht). Qed.

(** *** The side's own parts *)
Lemma sim_store_idx {A} b v n (a : Triple.TripleBuffer -> Triple.TripleBuffer) (k : unit -> prog machine A)
    (kp : unit -> prog Triple.TripleBuffer A) Q x :
  holds b v x -> a = (if b then Triple.set_reader_idx n else Triple.set_writer_idx n) ->
  (forall y, holds b (mkHold (own v) n (left v) (hand v) (mid v) (cnt v)) y -> bsim b (k tt) (kp tt) Q y) ->
  bsim b (store_as (thread b) Relaxed (Idx b) n ≫= k) (Concurrency.store a ≫= kp) Q x.
Proof.
  intros Hx -> Hk. apply (sim_own b v _ _ _ _ _ _ (Idx b)); [done|done|]. clear x Hx. intros s o s1 c Hx [= <- <-].
  pose proof Hx as [Hi [Hi1 Hi2] Hb Hl Hh Hm _]. cbn [fst snd] in *. split; [by left|].
  set (m' := store (thread b) Relaxed (Idx b) (inject n) (mem s)).
  destruct (store_own b Relaxed (Idx b) (inject n) s o m' Hi eq_refl) as (Ht & Hcv & Hlat).
  exists m', tt. split_and!; [done| |done|done|].
  - rewrite (abs_put (thread b) s m' (Idx b)) by done. destruct b; cbn [put]; unfold idx_of; by rewrite Hlat, project_inject.
  - intros Hi'. apply Hk. eapply holds_store; [exact Hx|exact Ht|done|done|done|done|done|..]; cbn [idx left mid].
    + unfold idx_of. by rewrite Hlat, project_inject.
    + rewrite <-(proj2 Hb). by apply (pointer_kept _ _ _ _ _ Ht).
    + destruct (mid v) as [q|]; [|done]. destruct Hm. split_and!; [done..| |].
      * unfold middle_of in *. by rewrite (touches_latest _ _ _ _ _ Ht).
      * by rewrite (pointer_kept _ _ _ _ _ Ht).
Qed.
(** What stays as it was, for the last premise of [holds_store]. *)
Lemma mid_kept b v s o m' l : holds b v (s, o) -> touches (thread b) (eq l) (mem s) m' -> l <> Middle ->
  match mid v with Some q => l <> Buffers (m_slot q) | None => True end ->
  match mid v with
  | None => True
  | Some q => m_slot q = m_slot q /\ m_block q = m_block q /\ m_count q = m_count q /\
      middle_of m' = m_idx q /\ pointer m' (m_slot q) = m_left q
  end.
Proof.
  intros [_ _ _ _ _ Hm _] Ht H1 H2. destruct (mid v) as [q|]; [|done]. destruct Hm. cbn [fst snd] in *.
  by rewrite (middle_kept _ _ _ _ Ht), (pointer_kept _ _ _ _ _ Ht).
Qed.

Lemma own_not_middle b v x q : holds b v x -> mid v = Some q -> own v <> m_slot q.
Proof. intros [_ _ [Hb _] _ _ Hm _] Hq Heq. rewrite Hq in Hm. destruct Hm. congruence. Qed.

Lemma own_not_mid b v x : holds b v x -> match mid v with Some q => Buffers (own v) <> Buffers (m_slot q) | None => True end.
Proof.
  intros Hx. destruct (mid v) as [q|] eqn:Hq; [|done]. intros [= Heq]. by eapply own_not_middle.
Qed.

Lemma sim_swap_own {A} b v o i p (k : Z -> prog machine A) (kp : Z -> prog Triple.TripleBuffer A) Q x :
  holds b v x -> i = own v ->
  (forall y, holds b (mkHold (own v) (idx v) p (hand v) (mid v) (cnt v)) y -> bsim b (k (left v)) (kp (left v)) Q y) ->
  bsim b (indexed i (update_as (thread b) o (Buffers i) (fun _ : Z => p)) ≫= k) (Triple.swap_at i p ≫= kp) Q x.
Proof.
  intros Hx -> Hk. unfold indexed. destruct (own v <? 3) eqn:Hi3;
    (apply (sim_own b v _ _ _ _ _ _ (Buffers (own v))); [done|done|]; clear x Hx; intros s g s1 c Hx Hrun;
    cbn [abs Triple.buffers] in Hrun; destruct ((pointer (mem s) <$> [0; 1; 2]) !! own v) as [z|] eqn:Hz; [|done];
    destruct (three_lookup _ _ _ Hz) as [Hlt ->]); [|congruence].
  injection Hrun as <- <-. pose proof Hx as [Hi Hix [Hb Hl] Hls Hh Hm _]. cbn [fst snd] in *. split; [by left|].
  set (m' := (update (thread b) o (Buffers (own v)) (fun v0 => inject p) (mem s)).1).
  assert (touches (thread b) (eq (Buffers (own v))) (mem s) m') as Ht by (apply update_touches; apply Hi).
  assert (pointer m' (own v) = p) as Hp by (unfold pointer, m'; by rewrite latest_update, project_inject).
  exists m', (left v). split_and!; [by rewrite <-Hl| |done|apply covers_update|].
  - rewrite (abs_put (thread b) s m' (Buffers (own v))) by done. cbn [put]. by rewrite Hp.
  - intros Hi'. rewrite Hl. apply Hk. eapply holds_store; [exact Hx|exact Ht|done|done|done|done|done|..]; cbn [idx left mid own].
    + rewrite <-(proj2 Hix). by apply (idx_kept _ _ _ _ _ Ht).
    + done.
    + pose proof (mid_kept _ _ _ _ _ _ Hx Ht ltac:(done) (own_not_mid _ _ _ Hx)) as Hmk. by destruct (mid v).
Qed.

Lemma sim_store_len b v o i n (Q : unit -> config -> Prop) x :
  holds b v x -> i = own v -> (forall y, holds b v y -> Q tt y) ->
  bsim b (indexed i (store_as (thread b) o (Lens i) n)) (Triple.store_len_at i n) Q x.
Proof.
  intros Hx -> Hk. unfold indexed. destruct (own v <? 3) eqn:Hi3;
    (apply (sim_own b v _ _ _ _ _ _ (Lens (own v))); [done|done|]; clear x Hx; intros s g s1 c Hx Hrun;
    cbn [abs Triple.lens] in Hrun; destruct ((len_of (mem s) <$> [0; 1; 2]) !! own v) as [z|] eqn:Hz; [|done];
    destruct (three_lookup _ _ _ Hz) as [Hlt ->]); [|congruence].
  injection Hrun as <- <-. pose proof Hx as [Hi Hix Hb Hls Hh Hm _]. cbn [fst snd] in *. split; [by left|].
  set (m' := store (thread b) o (Lens (own v)) (inject n) (mem s)).
  destruct (store_own b o (Lens (own v)) (inject n) s g m' Hi eq_refl) as (Ht & Hcv & Hlat).
  exists m', tt. split_and!; [done| |done|done|].
  - rewrite (abs_put (thread b) s m' (Lens (own v))) by done. cbn [put]. unfold len_of at 1. by rewrite Hlat, project_inject.
  - intros Hi'. apply (bsim_ret b v); [|done]. eapply holds_store; [exact Hx|exact Ht|done|done|done|done|done|..].
    + rewrite <-(proj2 Hix). by apply (idx_kept _ _ _ _ _ Ht).
    + rewrite <-(proj2 Hb). by apply (pointer_kept _ _ _ _ _ Ht).
    + assert (match mid v with Some q => Lens (own v) <> Buffers (m_slot q) | None => True end) as Hne by by destruct (mid v).
      pose proof (mid_kept _ _ _ _ _ _ Hx Ht ltac:(done) Hne) as Hmk. by destruct (mid v).
Qed.

(** *** The middle *)
Lemma sim_store_middle {A} b v q o n (k : unit -> prog machine A) (kp : unit -> prog Triple.TripleBuffer A) Q x :
  holds b v x -> mid v = Some q ->
  (forall y, holds b (mkHold (own v) (idx v) (left v) (hand v) (Some (mkMid (m_slot q) n (m_left q) (m_block q) (m_count q))) (cnt v)) y ->
    bsim b (k tt) (kp tt) Q y) ->
  bsim b (store_as (thread b) o Middle n ≫= k) (Concurrency.store (Triple.set_middle_idx n) ≫= kp) Q x.
Proof.
  intros Hx Hq Hk. apply (sim_own b v _ _ _ _ _ _ Middle); [done|done|]. clear x Hx. intros s g s1 c Hx [= <- <-].
  pose proof Hx as [Hi Hix Hb Hls Hh Hm _]. rewrite Hq in Hm. destruct Hm as [Ho Hj Hbi Hp Hli Hbp Hcv Hg]. cbn [fst snd] in *.
  split; [by right|]. set (m' := store (thread b) o Middle (inject n) (mem s)).
  destruct (store_own b o Middle (inject n) s g m' Hi eq_refl) as (Ht & Hcv' & Hlat).
  assert (middle_of m' = n) as Hn by (unfold middle_of; by rewrite Hlat, project_inject).
  exists m', tt. split_and!; [done| |done|done|].
  - rewrite (abs_put (thread b) s m' Middle) by done. cbn [put]. by rewrite Hn.
  - intros Hi'. apply Hk. eapply holds_store; [exact Hx|exact Ht|done|done|done|done|done|..]; cbn [idx left mid].
    + rewrite <-(proj2 Hix). by apply (idx_kept _ _ _ _ _ Ht).
    + rewrite <-(proj2 Hb). by apply (pointer_kept _ _ _ _ _ Ht).
    + rewrite Hq. cbn. by split_and!.
Qed.

Lemma sim_swap_middle {A} b v q o i p (k : Z -> prog machine A) (kp : Z -> prog Triple.TripleBuffer A) Q x :
  holds b v x -> mid v = Some q -> i = m_slot q ->
  (forall y, holds b (mkHold (own v) (idx v) (left v) (hand v) (Some (mkMid (m_slot q) (m_idx q) p (m_block q) (m_count q))) (cnt v)) y ->
    bsim b (k (m_left q)) (kp (m_left q)) Q y) ->
  bsim b (indexed i (update_as (thread b) o (Buffers i) (fun _ : Z => p)) ≫= k) (Triple.swap_at i p ≫= kp) Q x.
Proof.
  intros Hx Hq -> Hk. unfold indexed. destruct (m_slot q <? 3) eqn:Hi3;
    (apply (sim_own b v _ _ _ _ _ _ (Buffers (m_slot q))); [done|done|]; clear x Hx; intros s g s1 c Hx Hrun;
    cbn [abs Triple.buffers] in Hrun; destruct ((pointer (mem s) <$> [0; 1; 2]) !! m_slot q) as [z|] eqn:Hz; [|done];
    destruct (three_lookup _ _ _ Hz) as [Hlt ->]); [|congruence].
  injection Hrun as <- <-. pose proof (own_not_middle _ _ _ _ Hx Hq) as Hne.
  pose proof Hx as [Hi Hix Hb Hls Hh Hm _]. rewrite Hq in Hm. destruct Hm as [Ho Hj Hbi Hl Hli Hbp Hcv Hg]. cbn [fst snd] in *.
  split; [by right|].
  set (m' := (update (thread b) o (Buffers (m_slot q)) (fun v0 => inject p) (mem s)).1).
  assert (touches (thread b) (eq (Buffers (m_slot q))) (mem s) m') as Ht by (apply update_touches; apply Hi).
  assert (pointer m' (m_slot q) = p) as Hp by (unfold pointer, m'; by rewrite latest_update, project_inject).
  exists m', (m_left q). split_and!; [by rewrite <-Hl| |done|apply covers_update|].
  - rewrite (abs_put (thread b) s m' (Buffers (m_slot q))) by done. cbn [put]. by rewrite Hp.
  - intros Hi'. rewrite Hl. apply Hk. eapply holds_store; [exact Hx|exact Ht|done|done|done|done|done|..]; cbn [idx left mid own].
    + rewrite <-(proj2 Hix). by apply (idx_kept _ _ _ _ _ Ht).
    + rewrite <-(proj2 Hb). apply (pointer_kept _ _ _ _ _ Ht). congruence.
    + rewrite Hq. cbn. by split_and!.
Qed.
Lemma sim_load_len {A} b v q o i (k : Z -> prog machine A) (kp : Z -> prog Triple.TripleBuffer A) Q x :
  holds b v x -> mid v = Some q -> i = m_slot q ->
  (forall n y, holds b v y -> bsim b (k n) (kp n) Q y) ->
  bsim b (indexed i (load_as Z (thread b) o (Lens i)) ≫= k) (Triple.load_len_at i ≫= kp) Q x.
Proof.
  intros Hx Hq -> Hk. unfold indexed. destruct (m_slot q <? 3) eqn:Hi3;
    (apply (sim_exact_act abs _ _ _ _ _ _ (holds b v)); [apply holds_stable|done|]; clear x Hx; intros s g s1 c Hx Hrun;
    cbn [abs Triple.lens] in Hrun; destruct ((len_of (mem s) <$> [0; 1; 2]) !! m_slot q) as [z|] eqn:Hz; [|done];
    destruct (three_lookup _ _ _ Hz) as [Hlt ->]); [|congruence].
  injection Hrun as <- <-. pose proof (ho_inv _ _ _ Hx) as Hi. pose proof (ho_mid _ _ _ Hx) as Hm. rewrite Hq in Hm.
  assert (covers (seen (mem s) (thread b)) (mem s) (Lens (m_slot q))) as Hcv.
  { apply (mine_covered b (s, g)); [done|done|]. right. apply (hm_lens _ _ _ Hm). }
  pose proof (co_wf _ _ (proj1 Hi)) as Hw. set (m' := (load (thread b) o (Lens (m_slot q)) (mem s)).1).
  assert (touches (thread b) (fun _ => False) (mem s) m') as Ht by by apply load_touches.
  destruct (holds_quiet b v s g m' Hx Ht) as [Hx' Hs].
  exists (mkMachine m' (fired s)), (len_of (mem s) (m_slot q)), g. split_and!.
  - unfold m'. by rewrite load_seen.
  - by apply triple_abs_quiet.
  - by intros _.
  - by apply Hk.
Qed.

(** *** The buffer in hand *)

(** [f] uses the allocation at [p] and no other. *)
Definition confined {A} (p : Z) (f : heap -> outcome (heap * A)) : Prop :=
  forall h h' a, f h = Done (h', a) ->
    exists c c', h !! p = Some c /\ h' = <[p := c']> h /\ f {[p := c]} = Done ({[p := c']}, a).

Lemma sim_on_block {A B} b v p (f : heap -> outcome (heap * B)) (k : B -> prog machine A) (kp : B -> prog Triple.TripleBuffer A) Q x :
  holds b v x -> p = hand v -> confined p f ->
  (forall a y, (exists h h', f h = Done (h', a)) -> holds b v y -> bsim b (k a) (kp a) Q y) ->
  bsim b (Triple.on_block (Accesses := ordered b) p f ≫= k) (Triple.on_block p f ≫= kp) Q x.
Proof.
  intros Hx -> Hf Hk. apply (sim_own b v _ _ _ _ _ _ (Block (hand v))); [done|done|]. clear x Hx. intros s g s1 a Hx Hrun.
  change (Triple.mem (abs s)) with (heap_of (mem s)) in Hrun.
  destruct (f (heap_of (mem s))) as [[h' a']| |] eqn:Hfh; outcome_simpl; try done. injection Hrun as <- <-.
  destruct (Hf _ _ _ Hfh) as (c & c' & Hc & -> & Hone).
  pose proof Hx as [Hi Hix Hb Hls Hh Hm _]. cbn [fst snd] in *. split; [by left|].
  assert (project (latest (mem s) (Block (hand v))) = Some c) as Hp.
  { unfold heap_of in Hc. rewrite map_lookup_imap in Hc. by destruct (blocks !! hand v). }
  assert (covers (seen (mem s) (thread b)) (mem s) (Block (hand v))) as Hcv.
  { apply (mine_covered b (s, g)); [done|done|]. by left. }
  pose proof (co_wf _ _ (proj1 Hi)) as Hw.
  set (m' := append (thread b) Relaxed (Block (hand v)) nothing (inject (Some c')) (mem s)).
  assert (touches (thread b) (eq (Block (hand v))) (mem s) m') as Ht by (apply append_touches; [done|apply nothing_le]).
  exists m', a'. split_and!.
  - unfold access_block. rewrite plain_done by done. rewrite Hp. cbn [alone]. rewrite Hone. outcome_simpl. cbn [fst snd].
    by rewrite lookup_singleton_eq.
  - rewrite (abs_put (thread b) s m' (Block (hand v))) by done. cbn [put]. f_equal.
    apply map_eq. intros q. unfold heap_of. rewrite map_lookup_imap. destruct (decide (q = hand v)) as [->|Hne].
    + rewrite lookup_insert_eq. unfold m'. rewrite latest_append.
      unfold heap_of in Hc. rewrite map_lookup_imap in Hc. by destruct (blocks !! hand v).
    + rewrite lookup_insert_ne by done. rewrite map_lookup_imap.
      rewrite (touches_latest _ _ _ _ _ Ht); [done|congruence].
  - done.
  - apply covers_own.
  - intros Hi'. apply Hk; [by exists (heap_of (mem s)), (<[hand v := c']> (heap_of (mem s)))|].
    eapply holds_store; [exact Hx|exact Ht|done|done|done|done|done|..].
    + rewrite <-(proj2 Hix). by apply (idx_kept _ _ _ _ _ Ht).
    + rewrite <-(proj2 Hb). by apply (pointer_kept _ _ _ _ _ Ht).
    + assert (match mid v with Some q => Block (hand v) <> Buffers (m_slot q) | None => True end) as Hne by by destruct (mid v).
      pose proof (mid_kept _ _ _ _ _ _ Hx Ht ltac:(done) Hne) as Hmk. by destruct (mid v).
Qed.
(** *** The counters *)

(** Loading the other side's: the middle is taken if it is on its way here. *)
Lemma sim_load_other {A} b v o (f : Triple.TripleBuffer -> Z) (k : Z -> prog machine A) (kp : Z -> prog Triple.TripleBuffer A) Q x :
  holds b v x -> mid v = None -> o = SeqCst -> (forall s, f (abs s) = counter (mem s) (negb b)) ->
  (forall i p c y, (c = cnt v <-> b = false) ->
    holds b (mkHold (own v) (idx v) (left v) (hand v) (Some (mkMid i i p p c)) (cnt v)) y -> bsim b (k c) (kp c) Q y) ->
  (forall c y, (c = cnt v <-> b = true) -> holds b v y -> bsim b (k c) (kp c) Q y) ->
  bsim b (load_as Z (thread b) o (Counter (negb b)) ≫= k) (Concurrency.load f ≫= kp) Q x.
Proof.
  intros Hx Hq -> Hf Hyes Hno. apply (sim_exact_act abs _ _ _ _ _ _ (holds b v)); [apply holds_stable|done|]. clear x Hx.
  intros s g s1 c1 Hx [= <- <-]. rewrite Hf. pose proof (ho_inv _ _ _ Hx) as Hi. pose proof (proj1 Hi) as Hc.
  pose proof (co_wf _ _ Hc) as Hw. cbn [fst snd] in *.
  set (m' := (load (thread b) SeqCst (Counter (negb b)) (mem s)).1).
  assert (touches (thread b) (fun _ => False) (mem s) m') as Ht by by apply load_touches.
  assert (load (thread b) SeqCst (Counter (negb b)) (mem s) = (m', latest (mem s) (Counter (negb b)))) as Hload.
  { unfold m'. by rewrite load_newest by by try apply (co_counter _ _ Hc). }
  assert (view_le (published (newest_message (mem s) (Counter (negb b)))) (seen m' (thread b)) /\
    covers (seen m' (thread b)) m' (Counter (negb b))) as [Hpub Hcv].
  { unfold m'. rewrite load_newest by by try apply (co_counter _ _ Hc). cbn [fst seen drop_choice]. rewrite seen_observe.
    split; [apply join_r|]. unfold covers. cbn. unfold join, only. rewrite fn_lookup_insert. lia. }
  destruct (holds_quiet b v s g m' Hx Ht) as [Hx' Hs].
  assert (forall l, latest m' l = latest (mem s) l) as Hlat by (intros l; apply (touches_latest _ _ _ _ _ Ht); by intros []).
  assert (abs (mkMachine m' (fired s)) = abs s) as Habs by by apply triple_abs_quiet.
  pose proof (ho_cnt _ _ _ Hx) as Hcnt. pose proof (ho_mid _ _ _ Hx) as Hmd. rewrite Hq in Hmd. cbn [holds_mid fst snd] in *.
  destruct (co_turn _ _ Hc) as (c & Hturn & Heq).
  assert (counter (mem s) (negb b) = cnt v <-> c = false) as Heq'.
  { rewrite <-Heq, <-Hcnt. destruct b; cbn [negb]; [done|]. split; intros; by symmetry. }
  destruct (decide (g Middle = To b)) as [Hto|Hto].
  - assert (c = b) as -> by (destruct Hturn; congruence). pose proof (co_middle _ _ Hc b Hto) as (Hb & Hl & Hp).
    assert (core m' (receive b g)) as Hc'.
    { apply core_receive; [apply Hx'|done|]. by rewrite (to_message _ _ _ _ _ Ht) by by intros []. }
    pose proof (receive_seen b s g m' Hi Ht Hc') as Hs'.
    exists (mkMachine m' (fired s)), (counter (mem s) (negb b)), (receive b g). split_and!; [by rewrite Hload|done|by intros _|].
    apply (Hyes (middle_of (mem s)) (pointer (mem s) (middle_of (mem s)))); [done|].
    assert (forall l, g l = Side b -> receive b g l = Side b) as Hside by (intros l Hl'; unfold receive; by rewrite decide_False by congruence).
    assert (forall l, g l = To b -> receive b g l = Mid b) as Hmid by (intros l Hl'; unfold receive; by rewrite decide_True).
    destruct Hx' as [_ [Hi1 Hi2] [Hb1 Hb2] Hls Hh _ _]. cbn [fst snd mem] in *.
    split; cbn [own idx left hand mid cnt fst snd mem]; auto; [apply Hs'|].
    split; cbn [m_slot m_idx m_left m_block m_count fst snd mem]; auto; unfold middle_of, pointer, counter; by rewrite Hlat.
  - assert (c = negb b) as ->.
    { destruct Hturn as [Hm|Hm]; [|by destruct b, c; cbn in *; congruence]. by destruct b, c; cbn in *; congruence. }
    exists (mkMachine m' (fired s)), (counter (mem s) (negb b)), g. split_and!; [by rewrite Hload|done|by intros _|].
    apply Hno; [|done]. rewrite Heq'. by destruct b.
Qed.

(** Storing its own: its slot becomes the middle, on its way to the other side. *)
Lemma sim_give {A} b v q o n (a : Triple.TripleBuffer -> Triple.TripleBuffer) (k : unit -> prog machine A)
    (kp : unit -> prog Triple.TripleBuffer A) Q x :
  holds b v x -> mid v = Some q -> o = SeqCst -> a = (if b then Triple.set_last_read_gen n else Triple.set_generation n) ->
  m_idx q = own v -> left v = hand v -> (0 <= n < word_modulus)%Z -> (n = m_count q <-> b = true) ->
  (forall y, holds b (mkHold (m_slot q) (idx v) (m_left q) (m_block q) None n) y -> bsim b (k tt) (kp tt) Q y) ->
  bsim b (store_as (thread b) o (Counter b) n ≫= k) (Concurrency.store a ≫= kp) Q x.
Proof.
  intros Hx Hq -> -> Hmi Hlh Hn Hnq Hk. apply (sim_exact_act abs _ _ _ _ _ _ (holds b v)); [apply holds_stable|done|]. clear x Hx.
  intros s g s1 c1 Hx [= <- <-]. pose proof Hx as [Hi [Hi1 Hi2] [Hb1 Hb2] Hls Hh Hm Hcnt]. rewrite Hq in Hm.
  destruct Hm as [Hom Hj Hbi Hp Hli Hbp Hcv Hg]. pose proof Hi as [Hc Hok]. cbn [fst snd] in *.
  set (m' := store (thread b) SeqCst (Counter b) (inject n) (mem s)).
  assert (touches (thread b) (eq (Counter b)) (mem s) m') as Ht by (apply append_touches; [apply Hc|apply nothing_le]).
  assert (counter m' b = n) as Hcn by (unfold counter, m'; by rewrite latest_store, project_inject).
  assert (core m' (give b g)) as Hc'.
  { apply core_give; [done|done|by rewrite Hj, Hmi|by rewrite Hj, Hmi|by rewrite Hj, Hmi, Hb2, Hlh|done|by rewrite Hg]. }
  pose proof (give_seen b s g n m' Hi Hom eq_refl Hc') as Hs.
  exists (mkMachine m' (fired s)), tt, (give b g). split_and!; [done| |by intros _|].
  - rewrite (abs_put (thread b) s m' (Counter b)) by done. destruct b; cbn [put]; by rewrite Hcn.
  - assert (forall l, l <> Middle -> l <> Idx b -> g l = Mid b -> give b g l = Side b) as Hgm.
    { intros l Hne1 Hne2 Hl. unfold give. by rewrite (decide_False (P := l = Idx b)), decide_False, decide_True, decide_False by congruence. }
    apply Hk. split; cbn [own idx left hand mid cnt fst snd mem]; [apply Hs| | |by apply Hgm|by apply Hgm| |done].
    + split; [unfold give; by rewrite decide_True|]. rewrite <-Hi2. by apply (idx_kept _ _ _ _ _ Ht).
    + split; [by apply Hgm|]. rewrite <-Hp. by apply (pointer_kept _ _ _ _ _ Ht).
    + unfold holds_mid, give. cbn [snd]. rewrite decide_False, Hom, decide_False, decide_True, decide_True by done. done.
Qed.
(** *** The slots *)
Lemma slot_distinct b : distinct (slot b).
Proof. by split. Qed.
Lemma of_slot_part b l : of_slot (slot b) l -> exists p, l = Slot b p.
Proof. intros [->|[->| ->]]; cbn; eauto. Qed.

Definition slot_ref (b : bool) : Notify.SlotRef (Triple.TripleBuffer (T := T)) := if b then Triple.reader_ref else Triple.writer_ref.

Lemma triple_slot_abs b (u : unit) : SlotAbs ((fun _ : unit => abs) u) (slot b) (slot_ref b).
Proof.
  split; [by destruct b|by destruct b| | |by destruct b, s].
  - intros s m Hm. assert (forall l, (forall p, l <> Slot b p) -> latest m l = latest (mem s) l) as Hl.
    { intros l Hl. apply Hm. intros [p ->]%of_slot_part. by eapply Hl. }
    assert (slot_of (slot (negb b)) m = slot_of (slot (negb b)) (mem s)) as Hs.
    { unfold slot_of. rewrite !Hl; [done|..]; by destruct b. }
    unfold abs. cbn [mem fired]. assert (heap_of m = heap_of (mem s)) as ->.
    { unfold heap_of. apply map_eq. intros p. rewrite !map_lookup_imap. by rewrite Hl. }
    unfold pointer, len_of, middle_of, idx_of, counter. cbn [fmap list_fmap]. rewrite !Hl by done.
    destruct b; cbn [negb] in Hs; rewrite Hs; done.
  - intros s w. unfold abs. destruct b; cbn; by rewrite fn_lookup_insert, fn_lookup_insert_ne.
Qed.

(** A step on a slot, by the side that waits in it or signals it. *)
Lemma slot_seen b c t x x' :
  t = thread b -> slot_move (slot c) (thread c) (thread (negb c)) t x x' -> vinv x ->
  seen_by (negb b) x x'.
Proof.
  intros -> [Ht Hok Hg Hw Hs] [Hc Hoks]. assert (forall l, Decision (of_slot (slot c) l)) as Hdec by (intros; unfold of_slot; apply _).
  assert (forall l, of_slot (slot c) l -> ~ data l) as Hnd by (intros l [p ->]%of_slot_part; by intros []).
  assert (forall d, ~ of_slot (slot c) (Counter d)) as Hnc by (intros d [p Hp]%of_slot_part; done).
  assert (forall d, d <> c -> forall l, of_slot (slot d) l -> ~ of_slot (slot c) l) as Hns.
  { intros d Hd l [p ->]%of_slot_part [p' [= ? ?]]%of_slot_part. done. }
  assert (vinv x') as Hi'.
  { split.
    - rewrite Hg. apply (core_access b _ _ _ _ Ht Hnc); [|done]. intros l Hl Hdl. by destruct (Hnd l Hl).
    - intros d. destruct (decide (d = c)) as [->|Hd]; [done|]. eapply ok_frame; [exact Ht| |apply Hoks].
      intros l Hl Hl'. by eapply Hns. }
  assert (forall d, d <> c -> state_of (slot d) (mem x'.1) = state_of (slot d) (mem x.1)) as Hst.
  { intros d Hd. unfold state_of. rewrite (touches_latest _ _ _ _ _ Ht); [done|]. apply (Hns d Hd). by left. }
  split.
  - done.
  - intros l Hl _. rewrite Hg. split; [done|]. assert (~ of_slot (slot c) l) as Hx by (intros Hx; by eapply Hnd).
    by rewrite (to_newest _ _ _ _ Ht), (touches_latest _ _ _ _ _ Ht).
  - by rewrite Hg.
  - apply (to_others _ _ _ _ Ht). apply thread_ne.
  - unfold counter. by rewrite (touches_latest _ _ _ _ _ Ht).
  - intros _. unfold counter. by rewrite (to_newest _ _ _ _ Ht), (touches_latest _ _ _ _ _ Ht).
  - destruct (decide (negb b = c)) as [<-|Hd]; [rewrite negb_involutive in *; by apply Hw|].
    unfold waiter_holds. by rewrite Hst.
  - rewrite negb_involutive. destruct (decide (b = c)) as [<-|Hd]; [by apply Hs|].
    unfold signaller_holds. by rewrite Hst.
Qed.

Lemma holds_slot b c v x x' :
  slot_move (slot c) (thread c) (thread (negb c)) (thread b) x x' -> vinv x' -> holds b v x -> holds b v x'.
Proof.
  intros [Ht _ Hg _ _] Hi' [Hi [Hi1 Hi2] [Hb1 Hb2] Hl Hh Hm Hk].
  assert (forall l, (forall p, l <> Slot c p) -> latest (mem x'.1) l = latest (mem x.1) l) as Hlat.
  { intros l Hne. apply (touches_latest _ _ _ _ _ Ht). intros [p ->]%of_slot_part. by eapply Hne. }
  split; rewrite ?Hg; try done.
  - unfold idx_of. by rewrite Hlat.
  - unfold pointer. by rewrite Hlat.
  - destruct (mid v) as [q|]; cbn [holds_mid] in *; rewrite ?Hg; [|done]. destruct Hm as [Hm Hj Hbi Hp Hli Hbp Hcv Hq].
    split; rewrite ?Hg; unfold middle_of, pointer, counter; rewrite ?Hlat by done; try done.
    eapply covers_seen; [exact Ht| |done]. by intros [p ?]%of_slot_part.
  - unfold counter. by rewrite Hlat.
Qed.

Lemma env_waiter b v :
  SlotEnv (slot b) (thread b) (thread (negb b)) (thread b) (waiter_holds (slot b)) (holds b v) (rely b) (guar b).
Proof.
  split.
  - intros x Hx. pose proof (ho_inv _ _ _ Hx) as [Hc Hok]. split; [apply Hc|apply Hok].
  - intros x x' Hx Hr. split; [by eapply holds_stable|]. apply (sb_waiter _ _ _ (Hr (ho_inv _ _ _ Hx))).
  - intros x x' Hx Hm. pose proof (slot_seen b b _ x x' eq_refl Hm (ho_inv _ _ _ Hx)) as Hs.
    split; [by intros _|]. by eapply holds_slot; [exact Hm|apply Hs|].
Qed.

Lemma env_signaller b v :
  SlotEnv (slot (negb b)) (thread (negb b)) (thread b) (thread b) (signaller_holds (slot (negb b))) (holds b v) (rely b) (guar b).
Proof.
  split.
  - intros x Hx. pose proof (ho_inv _ _ _ Hx) as [Hc Hok]. split; [apply Hc|]. specialize (Hok (negb b)).
    by rewrite negb_involutive in Hok.
  - intros x x' Hx Hr. split; [by eapply holds_stable|]. apply (sb_signaller _ _ _ (Hr (ho_inv _ _ _ Hx))).
  - intros x x' Hx Hm.
    assert (slot_move (slot (negb b)) (thread (negb b)) (thread (negb (negb b))) (thread b) x x') as Hm' by by rewrite negb_involutive in *.
    pose proof (slot_seen b (negb b) _ x x' eq_refl Hm' (ho_inv _ _ _ Hx)) as Hs.
    split; [by intros _|]. by eapply holds_slot; [exact Hm'|apply Hs|].
Qed.

Lemma bsim_arm b v w Q x : holds b v x -> (forall y, holds b v y -> Q tt y) ->
  bsim b (arm (thread b) (slot b) w) (Notify.arm (slot_ref b) w) Q x.
Proof.
  intros Hx HQ. apply (sim_arm (fun _ : unit => abs) (slot b) (slot_ref b) (thread b) (thread (negb b)) (triple_slot_abs b)
    (slot_distinct b)) with (He := env_waiter b v); [|done..]. intros Heq. by apply (thread_ne b).
Qed.
Lemma bsim_disarm b v Q x : holds b v x -> (forall y, holds b v y -> Q tt y) ->
  bsim b (disarm (thread b) (slot b)) (Notify.disarm (slot_ref b)) Q x.
Proof.
  intros Hx HQ. by apply (sim_disarm (fun _ : unit => abs) (slot b) (slot_ref b) (thread b) (thread (negb b)) (triple_slot_abs b)
    (slot_distinct b)) with (He := env_waiter b v).
Qed.

Lemma bsim_signal b v Q x : holds b v x -> (forall y, holds b v y -> Q tt y) ->
  bsim b (signal (thread b) (slot (negb b))) (Notify.signal (slot_ref (negb b))) Q x.
Proof.
  intros Hx HQ. apply (sim_signal (fun _ : unit => abs) (slot (negb b)) (slot_ref (negb b)) (thread (negb b)) (thread b)
    (triple_slot_abs (negb b)) (slot_distinct (negb b))) with (He := env_signaller b v); [|done..]. apply thread_ne.
Qed.

(** The wakers fired so far. *)
Lemma bsim_fired b v (Q : nat -> config -> Prop) x : holds b v x -> (forall n y, holds b v y -> Q n y) ->
  bsim b (Concurrency.load (fun s => length (fired s (Slot b State))))
    (Concurrency.load (fun s => length (if b then Triple.reader_log s else Triple.writer_log s))) Q x.
Proof.
  intros Hx HQ. apply (sim_exact_act abs _ _ _ _ _ _ (holds b v)); [apply holds_stable|done|]. clear x Hx.
  intros s g s1 c Hx [= <- <-]. exists s, (length (fired s (Slot b State))), g. split_and!; [done|done| |].
  - intros Hi. destruct (holds_quiet b v s g (mem s) Hx) as [_ Hs]; [apply touches_refl, (co_wf _ _ (proj1 Hi))|]. by destruct s.
  - destruct b; (eapply bsim_ret; [exact Hx|]); intros y Hy; by apply HQ.
Qed.

(** A load whose value is not used. *)
Lemma load_unused b v o l s g : holds b v (s, g) ->
  let m' := (load (thread b) o l (mem s)).1 in
  abs (mkMachine m' (fired s)) = abs s /\ guar b (s, g) (mkMachine m' (fired s), g) /\ holds b v (mkMachine m' (fired s), g).
Proof.
  intros Hx m'. pose proof (co_wf _ _ (proj1 (ho_inv _ _ _ Hx))) as Hw. cbn [fst] in Hw.
  assert (touches (thread b) (fun _ => False) (mem s) m') as Ht by by apply load_touches.
  destruct (holds_quiet b v s g m' Hx Ht) as [Hx' Hs]. split_and!; [by apply triple_abs_quiet|by intros _|done].
Qed.

(** ** The writer *)
Context (cap al : Z).
Abbreviation wsim := (bsim false).

Lemma sim_middle_free v Q x :
  holds false v x -> mid v = None ->
  (forall i p y, holds false (mkHold (own v) (idx v) (left v) (hand v) (Some (mkMid i i p p (cnt v))) (cnt v)) y -> Q true y) ->
  (forall y, holds false v y -> Q false y) ->
  wsim (Triple.middle_free (Ac := ordered false)) Triple.middle_free Q x.
Proof.
  intros Hx Hq Hyes Hno.
  apply (sim_load_known false v Z SeqCst (Counter false) (fun s => Triple.generation (Triple.shared_state s)) (cnt v)); [done|..].
  { intros s g Hs. split_and!; [apply (co_own _ _ (proj1 (ho_inv _ _ _ Hs)) false)|done|apply (ho_cnt _ _ _ Hs)]. }
  clear x Hx. intros x Hx.
  apply (sim_load_other false v SeqCst (fun s => Triple.last_read_gen (Triple.shared_state s))); [done|done|done|done|..].
  - intros i p c y Hc Hy. rewrite (proj2 Hc eq_refl) in *. rewrite Z.eqb_refl. eapply bsim_ret; [exact Hy|]. apply Hyes.
  - intros c y Hc Hy. rewrite (proj2 (Z.eqb_neq _ _)) by (intros Heq; symmetry in Heq; by apply Hc in Heq).
    eapply bsim_ret; [exact Hy|done].
Qed.

(** Between operations the writer has its buffer in hand and nothing else. *)
Definition at_rest (v : hold) : Prop := idx v = own v /\ mid v = None.
Definition writer_has (buf : AlignedBuffer) (x : config) : Prop :=
  exists v, holds false v x /\ at_rest v /\ hand v = Buffer.ptr buf.

Lemma from_raw_ptr p n buf : Buffer.from_raw_with_len p n cap al = Done buf -> Buffer.ptr buf = p.
Proof.
  unfold Buffer.from_raw_with_len, debug_assert, assert_or. repeat (case_match; outcome_simpl); try done; by intros [= <-].
Qed.

Lemma wrapping_succ_range g : (0 <= wrapping_add g 1 < word_modulus)%Z.
Proof. unfold wrapping_add, wrap. apply Z.mod_pos_bound. done. Qed.
Lemma wrapping_succ_ne g : (0 <= g < word_modulus)%Z -> wrapping_add g 1 <> g.
Proof.
  intros Hg. unfold wrapping_add, wrap. destruct (decide (g + 1 < word_modulus)%Z).
  - rewrite Z.mod_small by lia. lia.
  - replace (g + 1)%Z with word_modulus by lia. rewrite Z.mod_same by done. unfold word_modulus in *. lia.
Qed.

Lemma sim_writer_publish_now v buf i p (Q : AlignedBuffer -> config -> Prop) x :
  holds false (mkHold (own v) (idx v) (left v) (hand v) (Some (mkMid i i p p (cnt v))) (cnt v)) x -> idx v = own v ->
  hand v = Buffer.ptr buf -> (forall nxt y, writer_has nxt y -> Q nxt y) ->
  wsim (Triple.writer_publish_now cap al (Ac := ordered false) buf) (Triple.writer_publish_now cap al buf) Q x.
Proof.
  destruct v as [w w' z h q c]. cbn [own idx left hand mid cnt]. intros Hx -> Hh HQ. unfold Triple.writer_publish_now, Buffer.into_raw.
  apply (sim_load_known false _ nat Relaxed (Idx false) Triple.writer_idx w) with (1 := Hx).
  { intros s g Hs. split_and!; [|done|apply (ho_index _ _ _ Hs)]. apply (mine_covered false (s, g)); [apply Hs|done|].
    left. apply (ho_index _ _ _ Hs). }
  clear x Hx. intros x Hx.
  apply (sim_load_known false _ nat Acquire Middle (fun s => Triple.middle_idx (Triple.shared_state s)) i) with (1 := Hx).
  { intros s g Hs. pose proof (ho_mid _ _ _ Hs) as Hm. cbn [mid holds_mid] in Hm. split_and!; [|done|apply (hm_idx _ _ _ Hm)].
    apply (mine_covered false (s, g)); [apply Hs|done|]. right. apply (hm_turn _ _ _ Hm). }
  clear x Hx. intros x Hx.
  eapply sim_swap_own; [exact Hx|done|]. cbn [own idx left hand mid cnt]. clear x Hx. intros x Hx.
  eapply sim_local; [exact Hx|]. clear x Hx. intros [] x _ Hx.
  apply sim_bind. eapply sim_store_len; [exact Hx|done|]. clear x Hx. intros x Hx.
  eapply sim_store_idx; [exact Hx|done|]. cbn [own idx left hand mid cnt]. clear x Hx. intros x Hx.
  eapply sim_store_middle; [exact Hx|done|]. cbn [own idx left hand mid cnt m_slot m_idx m_left m_block m_count]. clear x Hx. intros x Hx.
  apply (sim_load_known false _ Z Relaxed (Counter false) (fun s => Triple.generation (Triple.shared_state s)) c) with (1 := Hx).
  { intros s g Hs. split_and!; [apply (co_own _ _ (proj1 (ho_inv _ _ _ Hs)) false)|done|apply (ho_cnt _ _ _ Hs)]. }
  clear x Hx. intros x Hx.
  assert (wrapping_add c 1 <> c) as Hne.
  { apply wrapping_succ_ne. pose proof (ho_cnt _ _ _ Hx) as Hc. cbn [cnt] in Hc. rewrite <-Hc. apply (co_range _ _ (proj1 (ho_inv _ _ _ Hx))). }
  eapply (sim_give false); [exact Hx|done|done|done|done|by rewrite Hh|apply wrapping_succ_range|by cbn; split|].
  cbn [own idx left hand mid cnt m_slot m_idx m_left m_block m_count]. clear x Hx. intros x Hx.
  eapply sim_swap_own; [exact Hx|done|]. cbn [own idx left hand mid cnt]. clear x Hx. intros x Hx.
  eapply sim_local; [exact Hx|]. clear x Hx. intros nxt x Hnxt Hx.
  apply sim_bind. eapply (bsim_signal false); [exact Hx|]. clear x Hx. intros x Hx.
  eapply bsim_ret; [exact Hx|]. intros y Hy. apply HQ. eexists _. split; [exact Hy|]. split; [done|]. cbn [hand].
  destruct (p =? 0)%Z; [done|]. symmetry. by eapply from_raw_ptr.
Qed.
(** ** The reader *)
Abbreviation rsim := (bsim true).

Lemma sim_has_unread v Q x :
  holds true v x -> mid v = None ->
  (forall i p c y, holds true (mkHold (own v) (idx v) (left v) (hand v) (Some (mkMid i i p p c)) (cnt v)) y -> Q true y) ->
  (forall y, holds true v y -> Q false y) ->
  rsim (Triple.has_unread (Ac := ordered true)) Triple.has_unread Q x.
Proof.
  intros Hx Hq Hyes Hno.
  apply (sim_load_other true v SeqCst (fun s => Triple.generation (Triple.shared_state s))); [done|done|done|done|..]; clear x Hx.
  - intros i p c x Hc Hx.
    apply (sim_load_known true _ Z SeqCst (Counter true) (fun s => Triple.last_read_gen (Triple.shared_state s)) (cnt v)) with (1 := Hx).
    { intros s g Hs. split_and!; [apply (co_own _ _ (proj1 (ho_inv _ _ _ Hs)) true)|done|apply (ho_cnt _ _ _ Hs)]. }
    intros y Hy. rewrite (proj2 (Z.eqb_neq _ _)) by (intros Heq; by apply Hc in Heq). eapply bsim_ret; [exact Hy|]. apply Hyes.
  - intros c x Hc Hx.
    apply (sim_load_known true _ Z SeqCst (Counter true) (fun s => Triple.last_read_gen (Triple.shared_state s)) (cnt v)) with (1 := Hx).
    { intros s g Hs. split_and!; [apply (co_own _ _ (proj1 (ho_inv _ _ _ Hs)) true)|done|apply (ho_cnt _ _ _ Hs)]. }
    intros y Hy. rewrite (proj2 Hc eq_refl), Z.eqb_refl. eapply bsim_ret; [exact Hy|done].
Qed.

(** Its previous buffer is in its hand; before the first, it is still in its slot. *)
Definition in_reader_hand (prev : option AlignedBuffer) (v : hold) : Prop :=
  match prev with Some b => hand v = Buffer.ptr b | None => left v = hand v end.
Definition reader_has (prev : option AlignedBuffer) (x : config) : Prop :=
  exists v, holds true v x /\ at_rest v /\ in_reader_hand prev v.

Lemma sim_reader_take_now v prev i p c (Q : AlignedBuffer -> config -> Prop) x :
  holds true (mkHold (own v) (idx v) (left v) (hand v) (Some (mkMid i i p p c)) (cnt v)) x -> idx v = own v ->
  in_reader_hand prev v -> (forall buf y, reader_has (Some buf) y -> Q buf y) ->
  rsim (Triple.reader_take_now cap al (Ac := ordered true) prev) (Triple.reader_take_now cap al prev) Q x.
Proof.
  destruct v as [w w' z h q k]. cbn [own idx left hand mid cnt]. intros Hx -> Hh HQ. unfold Triple.reader_take_now.
  apply (sim_load_known true _ Z Acquire (Counter false) (fun s => Triple.generation (Triple.shared_state s)) c) with (1 := Hx).
  { intros s g Hs. pose proof (ho_mid _ _ _ Hs) as Hm. cbn [mid holds_mid] in Hm. split_and!; [apply (hm_seen _ _ _ Hm)|done|apply (hm_count _ _ _ Hm)]. }
  clear x Hx. intros x Hx.
  apply (sim_load_known true _ nat Relaxed (Idx true) Triple.reader_idx w) with (1 := Hx).
  { intros s g Hs. split_and!; [|done|apply (ho_index _ _ _ Hs)]. apply (mine_covered true (s, g)); [apply Hs|done|].
    left. apply (ho_index _ _ _ Hs). }
  clear x Hx. intros x Hx.
  apply (sim_load_known true _ nat Relaxed Middle (fun s => Triple.middle_idx (Triple.shared_state s)) i) with (1 := Hx).
  { intros s g Hs. pose proof (ho_mid _ _ _ Hs) as Hm. cbn [mid holds_mid] in Hm. split_and!; [|done|apply (hm_idx _ _ _ Hm)].
    apply (mine_covered true (s, g)); [apply Hs|done|]. right. apply (hm_turn _ _ _ Hm). }
  clear x Hx. intros x Hx. apply sim_bind.
  match goal with |- sim _ _ _ _ _ ?K _ => assert (forall y, holds true (mkHold w w h h (Some (mkMid i i p p c)) k) y -> K tt y) as Hrest end.
  { clear x Hx. intros x Hx.
    eapply sim_store_idx; [exact Hx|done|]. cbn [own idx left hand mid cnt]. clear x Hx. intros x Hx.
    eapply sim_store_middle; [exact Hx|done|]. cbn [own idx left hand mid cnt m_slot m_idx m_left m_block m_count]. clear x Hx. intros x Hx.
    eapply sim_swap_middle; [exact Hx|done|done|]. cbn [own idx left hand mid cnt m_slot m_idx m_left m_block m_count]. clear x Hx. intros x Hx.
    eapply sim_local; [exact Hx|]. clear x Hx. intros [] x _ Hx.
    eapply sim_load_len; [exact Hx|done|done|]. clear x Hx. intros n x Hx.
    eapply sim_local; [exact Hx|]. clear x Hx. intros buf x Hbuf Hx.
    assert (0 <= c < word_modulus)%Z as Hc.
    { pose proof (ho_mid _ _ _ Hx) as Hm. cbn [mid holds_mid] in Hm. pose proof (hm_count _ _ _ Hm) as Hc. cbn [m_count] in Hc.
      rewrite <-Hc. apply (co_range _ _ (proj1 (ho_inv _ _ _ Hx))). }
    eapply (sim_give true); [exact Hx|done|done|done|done|done|done|done|].
    cbn [own idx left hand mid cnt m_slot m_idx m_left m_block m_count]. clear x Hx. intros x Hx.
    apply sim_bind. eapply (bsim_signal true); [exact Hx|]. clear x Hx. intros x Hx.
    eapply bsim_ret; [exact Hx|]. intros y Hy. apply HQ. eexists _. split; [exact Hy|]. split; [done|]. cbn [in_reader_hand hand].
    symmetry. by eapply from_raw_ptr. }
  destruct prev as [b|]; cbn [in_reader_hand left hand] in Hh.
  - unfold Buffer.into_raw. eapply sim_swap_own; [exact Hx|done|]. cbn [own idx left hand mid cnt]. clear x Hx. intros x Hx.
    eapply sim_local; [exact Hx|]. clear x Hx. intros [] x _ Hx. rewrite <-Hh in Hx.
    eapply sim_store_len; [exact Hx|done|]. intros y Hy. by apply Hrest.
  - subst z. eapply bsim_ret; [exact Hx|]. intros y Hy. by apply Hrest.
Qed.
(** ** The contents of a buffer *)
Lemma from_raw_parts_alone (h : heap) p n xs : Buffer.from_raw_parts h p n = Done xs ->
  exists c, h !! p = Some c /\ Buffer.from_raw_parts {[p := c]} p n = Done xs.
Proof.
  unfold Buffer.from_raw_parts. destruct (h !! p) as [c|] eqn:Hc; [|done]. intros Hx. exists c.
  by rewrite lookup_singleton_eq.
Qed.

Lemma store_alone (h h' : heap) p xs c : h !! p = Some c -> Buffer.store h p xs = Done h' ->
  exists c', h' = <[p := c']> h /\ Buffer.store {[p := c]} p xs = Done {[p := c']}.
Proof.
  unfold Buffer.store. intros ->. rewrite lookup_singleton_eq. destruct c as [l d]. case_match; [|done]. intros [= <-].
  eexists. split; [done|]. by rewrite insert_singleton_eq.
Qed.

Lemma fill_confined (buf : AlignedBuffer) (g : list T -> list T) n :
  confined (Buffer.ptr buf) (fun h => h ← Buffer.capacity_mut h buf g; b ← Buffer.set_len buf n; Done (h, b)).
Proof.
  intros h h' a. unfold Buffer.capacity_mut. destruct (Buffer.from_raw_parts h _ _) as [xs| |] eqn:Hxs; outcome_simpl; try done.
  destruct (from_raw_parts_alone _ _ _ _ Hxs) as (c & Hc & Hone).
  destruct (Buffer.store h _ _) as [h1| |] eqn:Hst; outcome_simpl; try done.
  destruct (store_alone _ _ _ _ _ Hc Hst) as (c' & Hh1 & Hone').
  destruct (Buffer.set_len buf n) as [b| |]; outcome_simpl; try done. intros [= <- <-]. exists c, c'.
  split_and!; [done|done|]. rewrite Hone. outcome_simpl. by rewrite Hone'.
Qed.

Lemma contents_confined (buf : AlignedBuffer) :
  confined (Buffer.ptr buf) (fun h : heap => d ← Buffer.deref h buf; Done (h, d)).
Proof.
  intros h h' a. unfold Buffer.deref. destruct (Buffer.from_raw_parts h _ _) as [xs| |] eqn:Hxs; outcome_simpl; try done.
  destruct (from_raw_parts_alone _ _ _ _ Hxs) as (c & Hc & Hone). intros [= <- <-]. exists c, c.
  split_and!; [done|by rewrite insert_id|]. by rewrite Hone.
Qed.

Lemma set_len_ptr (buf b : AlignedBuffer) n : Buffer.set_len buf n = Done b -> Buffer.ptr b = Buffer.ptr buf.
Proof. unfold Buffer.set_len, assert_or. case_match; outcome_simpl; [|done]. by intros [= <-]. Qed.

(** ** Operations of the writer *)
Lemma writer_ret {A} buf (c : A) (Q : A -> config -> Prop) x : writer_has buf x -> (forall y, writer_has buf y -> Q c y) ->
  wsim (Ret c) (Ret c) Q x.
Proof. intros (v & Hx & Hv) HQ. eapply bsim_ret; [exact Hx|]. intros y Hy. apply HQ. by exists v. Qed.

Lemma sim_writer_local {A} buf (r : outcome A) (Q : A -> config -> Prop) x :
  writer_has buf x -> (forall c y, r = Done c -> writer_has buf y -> Q c y) -> wsim (Triple.local r) (Triple.local r) Q x.
Proof.
  intros (v & Hx & Hv) HQ. apply (sim_local false v r Ret Ret); [done|]. intros c y Hc Hy.
  eapply bsim_ret; [exact Hy|]. intros z Hz. apply HQ; [done|]. by exists v.
Qed.

Lemma sim_fill buf xs (Q : AlignedBuffer -> config -> Prop) x :
  writer_has buf x -> (forall b y, writer_has b y -> Q b y) ->
  wsim (Triple.fill cap (Ac := ordered false) buf xs) (Triple.fill cap buf xs) Q x.
Proof.
  intros (v & Hx & Hv & Hh) HQ. unfold Triple.fill.
  apply (sim_on_block false v (Buffer.ptr buf) _ Ret Ret); [done|done|apply fill_confined|].
  intros b y (h & h' & Hf) Hy. eapply bsim_ret; [exact Hy|]. intros z Hz. apply HQ. exists v. split_and!; [done|done|].
  rewrite Hh. cbn beta zeta in Hf. destruct (Buffer.capacity_mut _ _ _) as [h1| |]; outcome_simpl; try done.
  destruct (Buffer.set_len buf _) as [b'| |] eqn:Hs; outcome_simpl; try done. injection Hf as _ <-. symmetry. by eapply set_len_ptr.
Qed.

Lemma sim_writer_contents buf (Q : list T -> config -> Prop) x :
  writer_has buf x -> (forall d y, writer_has buf y -> Q d y) ->
  wsim (Triple.contents (Ac := ordered false) buf) (Triple.contents buf) Q x.
Proof.
  intros (v & Hx & Hv & Hh) HQ. unfold Triple.contents.
  apply (sim_on_block false v (Buffer.ptr buf) _ Ret Ret); [done|done|apply contents_confined|].
  intros d y _ Hy. eapply bsim_ret; [exact Hy|]. intros z Hz. apply HQ. by exists v.
Qed.

Lemma sim_try_publish_now buf (Q : result AlignedBuffer AlignedBuffer -> config -> Prop) x :
  writer_has buf x -> (forall b y, writer_has b y -> Q (ROk b) y) -> (forall y, writer_has buf y -> Q (RErr buf) y) ->
  wsim (Triple.try_publish_now cap al (Ac := ordered false) buf) (Triple.try_publish_now cap al buf) Q x.
Proof.
  intros (v & Hx & [Hv Hq] & Hh) Hok Herr. apply sim_bind. apply (sim_middle_free v); [done|done|..]; clear x Hx.
  - intros i p x Hx. apply sim_bind. apply (sim_writer_publish_now v buf i p); [done|done|done|].
    intros nxt y Hy. eapply writer_ret; [exact Hy|]. apply Hok.
  - intros x Hx. eapply bsim_ret; [exact Hx|]. intros y Hy. apply Herr. by exists v.
Qed.

Lemma sim_try_publish buf (Q : result AlignedBuffer AlignedBuffer -> config -> Prop) x :
  writer_has buf x -> (forall b y, writer_has b y -> Q (ROk b) y) -> (forall y, writer_has buf y -> Q (RErr buf) y) ->
  wsim (Triple.try_publish cap al (Ac := ordered false) buf) (Triple.try_publish cap al buf) Q x.
Proof.
  intros Hx Hok Herr. apply sim_bind, (sim_writer_local buf); [done|]. intros [] y _ Hy. by apply sim_try_publish_now.
Qed.

Lemma sim_poll_publish buf w (Q : Triple.TripleBufWriter * Poll AlignedBuffer -> config -> Prop) x :
  writer_has buf x -> (forall b y, writer_has b y -> Q (Triple.mkWriter None, Ready b) y) ->
  (forall y, writer_has buf y -> Q (Triple.mkWriter (Some buf), Pending) y) ->
  wsim (Triple.poll_publish cap al (Ac := ordered false) (Triple.mkWriter (Some buf)) w)
    (Triple.poll_publish cap al (Triple.mkWriter (Some buf)) w) Q x.
Proof.
  intros Hx Hok Hpend. unfold Triple.poll_publish. cbn [Triple.w_held].
  apply sim_bind, (sim_try_publish_now buf); [done|..]; clear x Hx.
  { intros b x Hx. eapply writer_ret; [exact Hx|]. apply Hok. }
  intros x (v & Hx & Hv). apply sim_bind, (bsim_arm false v); [done|]. clear x Hx. intros x Hx.
  apply sim_bind, (sim_try_publish_now buf); [by exists v|..]; clear v Hv x Hx.
  - intros b x (v & Hx & Hv). apply sim_bind, (bsim_disarm false v); [done|]. intros y Hy.
    eapply writer_ret; [by exists v|]. apply Hok.
  - intros x Hx. eapply writer_ret; [exact Hx|done].
Qed.

Lemma sim_drive_publish buf ws pk (Q : Triple.TripleBufWriter * option AlignedBuffer * option (waker * nat) -> config -> Prop) x :
  writer_has buf x -> (forall b pk y, writer_has b y -> Q (Triple.mkWriter None, Some b, pk) y) ->
  (forall pk y, writer_has buf y -> Q (Triple.mkWriter (Some buf), None, pk) y) ->
  wsim (Triple.drive_publish cap al (Ac := ordered false) (Triple.mkWriter (Some buf)) ws pk)
    (Triple.drive_publish cap al (Triple.mkWriter (Some buf)) ws pk) Q x.
Proof.
  intros Hx Hok Hpend. revert pk x Hx. induction ws as [|w ws IH]; intros pk x Hx; cbn [Triple.drive_publish].
  { eapply writer_ret; [exact Hx|]. intros; by apply Hpend. }
  destruct Hx as (v & Hx & Hv). apply sim_bind, (bsim_fired false v); [done|]. clear x Hx. intros k x Hx.
  apply sim_bind, (sim_poll_publish buf); [by exists v|..]; clear v Hv x Hx; intros; cbv beta iota.
  - eapply writer_ret; [eassumption|]. intros; by apply Hok.
  - by apply IH.
Qed.

Lemma sim_stats {A} b v (c : A) (Q : A -> config -> Prop) x :
  holds b v x -> (forall y, holds b v y -> Q c y) ->
  bsim b (_ ← Triple.stats (Ac := ordered b); Ret c) (_ ← Triple.stats; Ret c) Q x.
Proof.
  intros Hx HQ.
  do 4 (let s := fresh "s" in let g := fresh "g" in
    apply (sim_exact_act abs _ _ _ _ _ _ (holds b v)); [apply holds_stable|exact Hx|]; clear x Hx;
    intros s g ? ? Hx [= <- _];
    match goal with |- context [load _ ?o ?l _] =>
      destruct (load_unused b v o l s g Hx) as (Ha & Hg & Hx');
      eexists (mkMachine (load (thread b) o l (mem s)).1 (fired s)), _, g;
      split_and!; [reflexivity|exact Ha|exact Hg|]; revert Hx';
      generalize (mkMachine (load (thread b) o l (mem s)).1 (fired s), g)
    end; clear Hx Ha Hg; intros x Hx).
  by eapply bsim_ret.
Qed.
Lemma publish_done (buf : AlignedBuffer) w : Triple.publish cap al (Triple.mkWriter None) buf = Done w -> w = Triple.mkWriter (Some buf).
Proof. unfold Triple.publish, assert_or. repeat (case_match; outcome_simpl); try done; by intros [= <-]. Qed.

Lemma sim_writer_step buf op (Q : AlignedBuffer * list (list T) * option (waker * nat) -> config -> Prop) x :
  writer_has buf x -> (forall b ds pk y, writer_has b y -> Q (b, ds, pk) y) ->
  wsim (Triple.writer_step cap al (Ac := ordered false) buf op) (Triple.writer_step cap al buf op) Q x.
Proof.
  intros Hx HQ. assert (forall b ds pk y, writer_has b y -> wsim (Ret (b, ds, pk)) (Ret (b, ds, pk)) Q y) as Hret.
  { intros b ds pk y Hy. eapply writer_ret; [exact Hy|]. apply HQ. }
  destruct op as [xs| |ws|]; unfold Triple.writer_step.
  - apply sim_bind, (sim_fill buf); [done|]. intros b y Hy. by apply Hret.
  - apply sim_bind, (sim_writer_contents buf); [done|]. clear x Hx. intros d x Hx.
    apply sim_bind, (sim_try_publish buf); [done|..]; intros; by apply Hret.
  - apply sim_bind, (sim_writer_contents buf); [done|]. clear x Hx. intros d x Hx.
    apply sim_bind, (sim_writer_local buf); [done|]. clear x Hx. intros w x ->%publish_done Hx.
    apply sim_bind, (sim_drive_publish buf); [done|..]; intros; by apply Hret.
  - destruct Hx as (v & Hx & Hv). apply (sim_stats false v); [done|]. intros y Hy. apply HQ. by exists v.
Qed.

Lemma sim_writer_thread buf ops acc pk x : writer_has buf x ->
  wsim (Triple.writer_thread cap al (Ac := ordered false) buf ops acc pk) (Triple.writer_thread cap al buf ops acc pk)
    (fun _ _ => True) x.
Proof.
  revert buf acc pk x. induction ops as [|op ops IH]; intros buf acc pk x Hx; cbn [Triple.writer_thread].
  { by eapply writer_ret. }
  apply sim_bind, (sim_writer_step buf); [done|]. intros b ds pk' y Hy. by apply IH.
Qed.

(** ** Operations of the reader *)
Lemma reader_ret {A} prev (c : A) (Q : A -> config -> Prop) x : reader_has prev x -> (forall y, reader_has prev y -> Q c y) ->
  rsim (Ret c) (Ret c) Q x.
Proof. intros (v & Hx & Hv) HQ. eapply bsim_ret; [exact Hx|]. intros y Hy. apply HQ. by exists v. Qed.

Lemma sim_reader_local {A} prev (r : outcome A) (Q : A -> config -> Prop) x :
  reader_has prev x -> (forall c y, r = Done c -> reader_has prev y -> Q c y) -> rsim (Triple.local r) (Triple.local r) Q x.
Proof.
  intros (v & Hx & Hv) HQ. apply (sim_local true v r Ret Ret); [done|]. intros c y Hc Hy.
  eapply bsim_ret; [exact Hy|]. intros z Hz. apply HQ; [done|]. by exists v.
Qed.

Lemma sim_reader_contents buf (Q : list T -> config -> Prop) x :
  reader_has (Some buf) x -> (forall d y, reader_has (Some buf) y -> Q d y) ->
  rsim (Triple.contents (Ac := ordered true) buf) (Triple.contents buf) Q x.
Proof.
  intros (v & Hx & Hv & Hh) HQ. unfold Triple.contents.
  apply (sim_on_block true v (Buffer.ptr buf) _ Ret Ret); [done|done|apply contents_confined|].
  intros d y _ Hy. eapply bsim_ret; [exact Hy|]. intros z Hz. apply HQ. by exists v.
Qed.

Lemma sim_try_take_now prev (Q : result AlignedBuffer (option AlignedBuffer) -> config -> Prop) x :
  reader_has prev x -> (forall b y, reader_has (Some b) y -> Q (ROk b) y) -> (forall y, reader_has prev y -> Q (RErr prev) y) ->
  rsim (Triple.try_take_now cap al (Ac := ordered true) prev) (Triple.try_take_now cap al prev) Q x.
Proof.
  intros (v & Hx & [Hv Hq] & Hh) Hok Herr. apply sim_bind. apply (sim_has_unread v); [done|done|..]; clear x Hx.
  - intros i p c x Hx. apply sim_bind. apply (sim_reader_take_now v prev i p c); [done|done|done|].
    intros b y Hy. eapply reader_ret; [exact Hy|]. apply Hok.
  - intros x Hx. eapply bsim_ret; [exact Hx|]. intros y Hy. apply Herr. by exists v.
Qed.

Lemma sim_try_next prev (Q : result AlignedBuffer (option AlignedBuffer) -> config -> Prop) x :
  reader_has prev x -> (forall b y, reader_has (Some b) y -> Q (ROk b) y) -> (forall y, reader_has prev y -> Q (RErr prev) y) ->
  rsim (Triple.try_next cap al (Ac := ordered true) prev) (Triple.try_next cap al prev) Q x.
Proof.
  intros Hx Hok Herr. apply sim_bind.
  assert (forall y, reader_has prev y -> rsim (Triple.try_take_now cap al (Ac := ordered true) prev) (Triple.try_take_now cap al prev) Q y)
    as Hk by by intros y Hy; apply sim_try_take_now.
  destruct prev as [b|]; [eapply sim_reader_local|eapply reader_ret]; [exact Hx|by intros [] y _ Hy; apply Hk|exact Hx|done].
Qed.

Lemma sim_poll_next prev w (Q : Triple.TripleBufReader * Poll AlignedBuffer -> config -> Prop) x :
  reader_has prev x -> (forall b y, reader_has (Some b) y -> Q (Triple.mkReader None, Ready b) y) ->
  (forall y, reader_has prev y -> Q (Triple.mkReader prev, Pending) y) ->
  rsim (Triple.poll_next cap al (Ac := ordered true) (Triple.mkReader prev) w)
    (Triple.poll_next cap al (Triple.mkReader prev) w) Q x.
Proof.
  intros Hx Hok Hpend. unfold Triple.poll_next. cbn [Triple.r_held].
  apply sim_bind, (sim_try_take_now prev); [done|..]; clear x Hx.
  { intros b x Hx. eapply reader_ret; [exact Hx|]. apply Hok. }
  intros x (v & Hx & Hv). apply sim_bind, (bsim_arm true v); [done|]. clear x Hx. intros x Hx.
  apply sim_bind, (sim_try_take_now prev); [by exists v|..]; clear v Hv x Hx.
  - intros b x (v & Hx & Hv). apply sim_bind, (bsim_disarm true v); [done|]. intros y Hy.
    eapply reader_ret; [by exists v|]. apply Hok.
  - intros x Hx. eapply reader_ret; [exact Hx|done].
Qed.

Lemma sim_drive_next prev ws pk (Q : Triple.TripleBufReader * option AlignedBuffer * option (waker * nat) -> config -> Prop) x :
  reader_has prev x -> (forall b pk y, reader_has (Some b) y -> Q (Triple.mkReader None, Some b, pk) y) ->
  (forall pk y, reader_has prev y -> Q (Triple.mkReader prev, None, pk) y) ->
  rsim (Triple.drive_next cap al (Ac := ordered true) (Triple.mkReader prev) ws pk)
    (Triple.drive_next cap al (Triple.mkReader prev) ws pk) Q x.
Proof.
  intros Hx Hok Hpend. revert pk x Hx. induction ws as [|w ws IH]; intros pk x Hx; cbn [Triple.drive_next].
  { eapply reader_ret; [exact Hx|]. intros; by apply Hpend. }
  destruct Hx as (v & Hx & Hv). apply sim_bind, (bsim_fired true v); [done|]. clear x Hx. intros k x Hx.
  apply sim_bind, (sim_poll_next prev); [by exists v|..]; clear v Hv x Hx; intros; cbv beta iota.
  - eapply reader_ret; [eassumption|]. intros; by apply Hok.
  - by apply IH.
Qed.

Lemma next_done prev r : Triple.next cap al (Triple.mkReader None) prev = Done r -> r = Triple.mkReader prev.
Proof.
  unfold Triple.next, assert_or. destruct prev; [|by intros [= <-]].
  repeat (case_match; outcome_simpl); try done; by intros [= <-].
Qed.

Lemma sim_reader_step prev op (Q : option AlignedBuffer * list (list T) * option (waker * nat) -> config -> Prop) x :
  reader_has prev x -> (forall b ds pk y, reader_has b y -> Q (b, ds, pk) y) ->
  rsim (Triple.reader_step cap al (Ac := ordered true) prev op) (Triple.reader_step cap al prev op) Q x.
Proof.
  intros Hx HQ. assert (forall b ds pk y, reader_has b y -> rsim (Ret (b, ds, pk)) (Ret (b, ds, pk)) Q y) as Hret.
  { intros b ds pk y Hy. eapply reader_ret; [exact Hy|]. apply HQ. }
  assert (forall b y, reader_has (Some b) y ->
    rsim (d ← Triple.contents (Ac := ordered true) b; Ret (Some b, [d], None)) (d ← Triple.contents b; Ret (Some b, [d], None)) Q y) as Hcon.
  { intros b y Hy. apply sim_bind, (sim_reader_contents b); [done|]. intros d z Hz. by apply Hret. }
  destruct op as [|ws|]; unfold Triple.reader_step.
  - apply sim_bind, (sim_try_next prev); [done|..]; intros; [by apply Hcon|by apply Hret].
  - apply sim_bind, (sim_reader_local prev); [done|]. clear x Hx. intros r x ->%next_done Hx.
    apply sim_bind, (sim_drive_next prev); [done|..]; intros; [by apply Hcon|by apply Hret].
  - destruct Hx as (v & Hx & Hv). apply (sim_stats true v); [done|]. intros y Hy. apply HQ. by exists v.
Qed.

Lemma sim_triple_reader prev ops acc pk x : reader_has prev x ->
  rsim (Triple.reader_thread cap al (Ac := ordered true) prev ops acc pk) (Triple.reader_thread cap al prev ops acc pk)
    (fun _ _ => True) x.
Proof.
  revert prev acc pk x. induction ops as [|op ops IH]; intros prev acc pk x Hx; cbn [Triple.reader_thread].
  { by eapply reader_ret. }
  apply sim_bind, (sim_reader_step prev); [done|]. intros b ds pk' y Hy. by apply IH.
Qed.
(** ** Both threads *)
Section runs.
Context `{Zr : Zeroable T} `{AL : Buffer.Allocator T}.
Context (h0 : heap) (s0 : Triple.TripleBuffer (T := T)) (wbuf : AlignedBuffer).
Context (Hnew : Triple.new cap al h0 = Done (s0, wbuf)) (Hblocks : blocks = Triple.mem s0).

Definition initial_owner (p1 p2 : Z) (l : location) : party :=
  match l with
  | Block p => if decide (p = p1) then Side true else if decide (p = p2) then To false else Side false
  | Buffers i | Lens i => if i =? 1 then Side true else if i =? 2 then To false else Side false
  | Middle => To false
  | Idx b => Side b
  | Counter _ | Slot _ _ => Side false
  end.

Lemma triple_start cs : exists o, writer_has wbuf (start s0 cs, o) /\ reader_has None (start s0 cs, o).
Proof.
  destruct (Triple.triple_new_done _ _ _ _ _ Hnew) as (p0 & p1 & p2 & h & Hw & Hs & D01 & D02 & D12 & _).
  exists (initial_owner p1 p2). assert (vinv (start s0 cs, initial_owner p1 p2)) as Hi.
  { rewrite Hs. split; cbn [fst snd]; [|intros b; split; [by left|intros _; apply Nat.le_refl..|done]].
    split; try done; try (intros; apply Nat.le_0_l).
    - by intros [].
    - exists false. split; [by right|done].
    - intros b [= <-]. split_and!; [done|done|]. cbn. by rewrite decide_False, decide_True by done. }
  rewrite Hs, Hw in *. split.
  - exists (mkHold 0 0 0 p0 None 0). split; [|by split]. split; try done. cbn. by rewrite !decide_False by done.
  - exists (mkHold 1 1 p1 p1 None 0). split; [|by split]. split; try done. cbn. by rewrite decide_True by done.
Qed.

Lemma triple_abs_start cs : abs (start s0 cs) = s0.
Proof.
  destruct (Triple.triple_new_done _ _ _ _ _ Hnew) as (p0 & p1 & p2 & h & _ & Hs & _).
  assert (heap_of (mem (start s0 cs)) = Triple.mem s0) as Hh.
  { unfold heap_of. rewrite Hblocks. apply map_eq. intros p. rewrite map_lookup_imap. cbn.
    by destruct (Triple.mem s0 !! p). }
  unfold abs. rewrite Hh. by rewrite Hs.
Qed.

Definition rely_of (i : nat) : relation config :=
  match i with 0 => rely false | 1 => rely true | _ => fun _ _ => True end.
Definition guar_of (i : nat) : relation config :=
  match i with 0 => guar false | 1 => guar true | _ => fun _ _ => False end.

Lemma triple_sides i j x x' : i <> j -> guar_of i x x' -> rely_of j x x'.
Proof. by destruct i as [|[|i]], j as [|[|j]]. Qed.

Lemma weak_triple_run cs sch wops rops :
  exists s ps sch' ps', run_sched sch (start s0 cs) (threads cap al wbuf wops rops) = Done (s, ps) /\ run_sched sch' s0 (Triple.triple_threads cap al wbuf wops rops) = Done (abs s, ps') /\ forall i a, ps !! i = Some (Ret a) -> ps' !! i = Some (Ret a).
Proof.
  destruct (triple_start cs) as (o & Hw & Hr).
  destruct (sim_run (fun _ : unit => abs) rely_of guar_of (fun _ _ _ => True) sch
    (start s0 cs) o (threads cap al wbuf wops rops) (Triple.triple_threads cap al wbuf wops rops))
    as (s & ps & sch' & ps' & pre & Hrun & Hrun' & Hret).
  - exact triple_sides.
  - split; [done|].
    intros [|[|i]] q p Hq Hp; simpl in Hq, Hp; [injection Hq as <-; injection Hp as <-..|done].
    + by apply (sim_writer_thread wbuf).
    + by apply sim_triple_reader.
  - intros _ sch'. rewrite triple_abs_start. destruct (Triple.triple_run cap al h0 sch' s0 wbuf wops rops Hnew) as (s & ps & _ & Hrun & _).
    by exists s, ps.
  - exists s, ps, sch', ps'. specialize (Hrun' tt). cbv beta in Hrun'. rewrite triple_abs_start in Hrun'. by split_and!.
Qed.
End runs.
End triple.

Section theorems.
Context `{BM : BuildMode} `{Wk : Wakers} {T : Type} `{Zr : Zeroable T} `{AL : Buffer.Allocator T}.

(** C7: with the orderings of the source, the triple buffer behaves as under
    sequential consistency. Take any operations of the writer and of the reader, any
    schedule of their accesses, and any choice of what the loads return among the
    stores their ordering allows. No index, pointer, length or content is accessed
    in a data race and nothing is undefined or panics; and some schedule of the
    sequentially consistent threads ends in the same state, with every thread that
    returned having returned the same there. *)
Theorem weak_triple_refines (cap al : Z) (h0 : gmap Z (Buffer.Layout * list T)) (s0 : Triple.TripleBuffer)
    (wbuf : Buffer.AlignedBuffer) (wops : list Triple.writer_op) (rops : list Triple.reader_op) (choices sch : list nat) :
  Triple.new cap al h0 = Done (s0, wbuf) ->
  exists s ps sch' ps', run_sched sch (start s0 choices) (threads cap al wbuf wops rops) = Done (s, ps) /\
    run_sched sch' s0 (Triple.triple_threads cap al wbuf wops rops) = Done (abs (Triple.mem s0) s, ps') /\
    forall i a, ps !! i = Some (Ret a) -> ps' !! i = Some (Ret a).
Proof. intros Hnew. by apply (weak_triple_run (Triple.mem s0) cap al h0). Qed.

(** C8: on the memory with orderings, the triple buffer hands over whole buffers
    without loss and loses no wakeup: for any operations, any schedule and any choice
    of what loads return, no access is a data race; and when both threads are done,
    the contents received are, in order, those published with at most the last one
    unread, dropping both handles and what they hold frees exactly the three buffers,
    and a side left parked although it could go on has been woken during or after the
    poll that parked it. *)
Theorem weak_triple_correct (cap al : Z) (h0 : gmap Z (Buffer.Layout * list T)) (s0 : Triple.TripleBuffer)
    (wbuf : Buffer.AlignedBuffer) (wops : list Triple.writer_op) (rops : list Triple.reader_op) (choices sch : list nat) :
  Triple.new cap al h0 = Done (s0, wbuf) ->
  exists s ps, run_sched sch (start s0 choices) (threads cap al wbuf wops rops) = Done (s, ps) /\
    forall we re, ps = [Ret we; Ret re] ->
      (re.1.1 `prefix_of` we.1.1 /\ length we.1.1 <= S (length re.1.1) /\
       Triple.drop_everything cap al we re (abs (Triple.mem s0) s) = Done h0) /\
      (forall w k, re.1.2 = Some (w, k) -> length re.1.1 < length we.1.1 ->
        Notify.fired_since w k (fired s (Slot true State))) /\
      (forall w k, we.1.2 = Some (w, k) -> length we.1.1 = length re.1.1 ->
        Notify.fired_since w k (fired s (Slot false State))).
Proof.
  intros Hnew.
  destruct (weak_triple_run (Triple.mem s0) cap al h0 s0 wbuf Hnew eq_refl choices sch wops rops)
    as (s & ps & sch' & ps' & Hrun & Hrun' & Hret).
  exists s, ps. split; [done|]. intros we re ->.
  destruct (Triple.triple_end cap al h0 s0 wbuf wops rops sch' Hnew) as (s' & ps'' & Hend & Hres).
  rewrite Hrun' in Hend. injection Hend as <- <-.
  rewrite (both_returned _ _ _ _ eq_refl Hret (run_sched_length _ _ _ _ _ Hrun')) in Hres. exact (Hres we re eq_refl).
Qed.
End theorems.

(** ** Runs

    The operations of [TripleBuffer.v]'s examples, every load reading three stores
    back if its ordering allows it. *)
#[local] Instance nat_wakers : Wakers := {| waker := nat; will_wake := Nat.eqb |}.
#[local] Existing Instance debug_build.
#[local] Existing Instance Triple.byte_zeroable.
#[local] Existing Instance Buffer.bump_allocator.

Definition old_loads : list nat := replicate 200 3.

Definition demo_wops : list (Triple.writer_op (Wk := nat_wakers) (T := Z)) :=
  [Triple.Fill [1; 2; 3]%Z; Triple.Publish [50; 50]; Triple.Fill [4]%Z; Triple.Publish [51; 51; 51]; Triple.Fill [5; 6]%Z;
   Triple.TryPublish].
Definition demo_rops : list (Triple.reader_op (Wk := nat_wakers)) :=
  [Triple.Next [60; 60; 60; 60]; Triple.TryNext; Triple.Next [61; 61; 61; 61]].
Definition demo_sch : list nat := concat (replicate 150 [0; 1]).

Lemma weak_triple_refines_witness : exists s0 wbuf s ps,
  Triple.new (Wk := nat_wakers) 4 8 ∅ = Done (s0, wbuf) /\
  run_sched demo_sch (start (Wk := nat_wakers) s0 old_loads)
    (threads (Wk := nat_wakers) 4 8 wbuf demo_wops demo_rops) = Done (s, ps) /\
  exists sch' ps', run_sched sch' s0 (Triple.triple_threads (Wk := nat_wakers) 4 8 wbuf demo_wops demo_rops) =
    Done (abs (Triple.mem s0) s, ps') /\ exists we re, ps' = [Ret we; Ret re].
Proof.
  destruct (Triple.new (Wk := nat_wakers) 4 8 ∅) as [[s0 wbuf]| |] eqn:Hnew; [|vm_compute in Hnew; discriminate..].
  destruct (weak_triple_refines (Wk := nat_wakers) 4 8 ∅ s0 wbuf demo_wops demo_rops old_loads demo_sch Hnew)
    as (s & ps & sch' & ps' & Hrun & Hrun' & Hret).
  exists s0, wbuf, s, ps. split; [reflexivity|]. split; [exact Hrun|]. exists sch', ps'. split; [exact Hrun'|].
  pose proof Hnew as Hnew'. vm_compute in Hnew'. injection Hnew' as <- <-.
  pose proof (f_equal (fun o => match o with Done x => x.2 | _ => [] end) Hrun) as Hx. vm_compute in Hx. subst ps.
  do 2 eexists. apply (both_returned _ _ _ _ eq_refl Hret (run_sched_length _ _ _ _ _ Hrun')).
Defined.

(** The reader parks, then the writer publishes. *)
Definition park_rops : list (Triple.reader_op (Wk := nat_wakers)) := [Triple.Next [60]].
Definition park_wops : list (Triple.writer_op (Wk := nat_wakers) (T := Z)) := [Triple.Fill [7]%Z; Triple.TryPublish].
Definition park_sch : list nat := replicate 40 1 ++ replicate 40 0.

Lemma weak_triple_correct_witness : exists s0 wbuf s we re,
  Triple.new (Wk := nat_wakers) 4 8 ∅ = Done (s0, wbuf) /\
  run_sched park_sch (start (Wk := nat_wakers) s0 old_loads)
    (threads (Wk := nat_wakers) 4 8 wbuf park_wops park_rops) = Done (s, [Ret we; Ret re]) /\
  re.1.2 = Some (60, 0) /\ Notify.fired_since (H0 := nat_wakers) 60 0 (fired s (Slot true State)) /\
  Triple.drop_everything 4 8 we re (abs (Triple.mem s0) s) = Done ∅.
Proof.
  destruct (Triple.new (Wk := nat_wakers) 4 8 ∅) as [[s0 wbuf]| |] eqn:Hnew; [|vm_compute in Hnew; discriminate..].
  destruct (weak_triple_correct (Wk := nat_wakers) 4 8 ∅ s0 wbuf park_wops park_rops old_loads park_sch Hnew)
    as (s & ps & Hrun & Hps).
  exists s0, wbuf, s. pose proof Hnew as Hnew'. vm_compute in Hnew'. injection Hnew' as <- <-.
  pose proof (f_equal (fun o => match o with Done x => x.2 | _ => [] end) Hrun) as Hx. vm_compute in Hx. subst ps.
  destruct (Hps _ _ eq_refl) as ((_ & _ & Hdrop) & Hr & _). do 2 eexists. split; [reflexivity|]. split; [exact Hrun|].
  split; [reflexivity|]. split; [apply (Hr 60 0 eq_refl), Nat.lt_0_succ|exact Hdrop].
Defined.
End WeakTriple.
