(* ===== verification/BipBuffer.v ===== *)
(** * [bip_buffer] ([src/site_d/bipbuffer.rs])

    [Module Bip]: the lock-free contiguous byte buffer. Every operation is a
    program with one step per access to the shared state; the slice of a grant
    is borrowed, accessed, and given back, and borrowing bytes that the other
    side has borrowed, or bytes outside the allocation, is undefined. The heap
    is the one of [AlignedBuffer.v]. *)
From stdpp Require Import base list gmap numbers relations strings.
From Stdlib Require Import Strings.Byte.
From S2P Require Import Prelude WaitList AlignedBuffer Concurrency Notify.

#[export] Instance zeroable_u8 : Zeroable byte := {| zeroed := x00; size_of := 1; align_of := 1 |}.

Module Bip.
Section bip.
Context `{BM : BuildMode} `{Wk : Wakers}.
Abbreviation heap := (gmap Z (Buffer.Layout * list byte)).

(** The field [cap] never changes and is a variable below. [w_borrow] and
    [r_borrow] are the regions of the live [&mut [u8]] and [&[u8]]; the logs are
    the wakers fired through each slot. *)
Record Inner : Type := mkInner {
  mem : heap;
  buf : Buffer.AlignedBuffer;
  write : Z;
  read : Z;
  last : Z;
  epoch : Z;
  wip : bool;
  rip : bool;
  data : Notify.WaiterSlot;
  space : Notify.WaiterSlot;
  data_log : list waker;
  space_log : list waker;
  w_borrow : option (Z * Z);
  r_borrow : option (Z * Z)
}.

Record WriteGrant : Type := mkWG { wg_start : Z; wg_len : Z; wg_handed_back : bool }.
Record ReadGrant : Type := mkRG { rg_start : Z; rg_len : Z; rg_handed_back : bool }.

Definition set_mem (h : heap) (s : Inner) : Inner :=
  mkInner h (buf s) (write s) (read s) (last s) (epoch s) (wip s) (rip s) (data s) (space s)
    (data_log s) (space_log s) (w_borrow s) (r_borrow s).
Definition set_write (v : Z) (s : Inner) : Inner :=
  mkInner (mem s) (buf s) v (read s) (last s) (epoch s) (wip s) (rip s) (data s) (space s)
    (data_log s) (space_log s) (w_borrow s) (r_borrow s).
Definition set_read (v : Z) (s : Inner) : Inner :=
  mkInner (mem s) (buf s) (write s) v (last s) (epoch s) (wip s) (rip s) (data s) (space s)
    (data_log s) (space_log s) (w_borrow s) (r_borrow s).
Definition set_last (v : Z) (s : Inner) : Inner :=
  mkInner (mem s) (buf s) (write s) (read s) v (epoch s) (wip s) (rip s) (data s) (space s)
    (data_log s) (space_log s) (w_borrow s) (r_borrow s).
Definition set_epoch (v : Z) (s : Inner) : Inner :=
  mkInner (mem s) (buf s) (write s) (read s) (last s) v (wip s) (rip s) (data s) (space s)
    (data_log s) (space_log s) (w_borrow s) (r_borrow s).
Definition set_wip (b : bool) (s : Inner) : Inner :=
  mkInner (mem s) (buf s) (write s) (read s) (last s) (epoch s) b (rip s) (data s) (space s)
    (data_log s) (space_log s) (w_borrow s) (r_borrow s).
Definition set_rip (b : bool) (s : Inner) : Inner :=
  mkInner (mem s) (buf s) (write s) (read s) (last s) (epoch s) (wip s) b (data s) (space s)
    (data_log s) (space_log s) (w_borrow s) (r_borrow s).
Definition set_w_borrow (o : option (Z * Z)) (s : Inner) : Inner :=
  mkInner (mem s) (buf s) (write s) (read s) (last s) (epoch s) (wip s) (rip s) (data s) (space s)
    (data_log s) (space_log s) o (r_borrow s).
Definition set_r_borrow (o : option (Z * Z)) (s : Inner) : Inner :=
  mkInner (mem s) (buf s) (write s) (read s) (last s) (epoch s) (wip s) (rip s) (data s) (space s)
    (data_log s) (space_log s) (w_borrow s) o.

Definition data_ref : Notify.SlotRef Inner :=
  Notify.mkSlotRef _ data
    (fun sl s => mkInner (mem s) (buf s) (write s) (read s) (last s) (epoch s) (wip s) (rip s) sl (space s)
      (data_log s) (space_log s) (w_borrow s) (r_borrow s))
    data_log
    (fun l s => mkInner (mem s) (buf s) (write s) (read s) (last s) (epoch s) (wip s) (rip s) (data s) (space s)
      l (space_log s) (w_borrow s) (r_borrow s)).
Definition space_ref : Notify.SlotRef Inner :=
  Notify.mkSlotRef _ space
    (fun sl s => mkInner (mem s) (buf s) (write s) (read s) (last s) (epoch s) (wip s) (rip s) (data s) sl
      (data_log s) (space_log s) (w_borrow s) (r_borrow s))
    space_log
    (fun l s => mkInner (mem s) (buf s) (write s) (read s) (last s) (epoch s) (wip s) (rip s) (data s) (space s)
      (data_log s) l (w_borrow s) (r_borrow s)).

(** A local computation that may panic. *)
Definition local {A} (o : outcome A) : prog Inner A := act (fun s => a ← o; Done (s, a)).
Definition fetch_add_epoch : prog Inner unit := store (fun s => set_epoch (wrapping_add (epoch s) 1) s).

Context (cap : Z).

Section new.
Context `{AL : Buffer.Allocator byte}.

Definition bip_buffer_aligned (h : heap) (align : Z) : outcome Inner :=
  '(b, h) ← Buffer.with_alignment h cap align;
  Done (mkInner h b 0 0 cap 0 false false Notify.new Notify.new [] [] None None).
Definition bip_buffer (h : heap) : outcome Inner := bip_buffer_aligned h 1.
End new.

(** ** Cursors *)

(** The reset of cursors that meet away from the head, then the choice of the
    region. *)
Definition reset_drained (rd wr : Z) : prog Inner (Z * Z) :=
  if ((rd =? wr) && negb (wr =? 0))%Z then
    _ ← fetch_add_epoch;
    _ ← store (set_read 0);
    _ ← store (set_write 0);
    _ ← store (set_last cap);
    _ ← fetch_add_epoch;
    Ret (0, 0)%Z
  else Ret (rd, wr).

Definition choose_start (n rd wr : Z) : outcome (option Z) :=
  if (wr <? rd)%Z then
    gap ← sub_usize rd wr;
    Done (if (n <? gap)%Z then Some wr else None)
  else
    tail ← sub_usize cap wr;
    Done (if (n <=? tail)%Z then Some wr else if (n <? rd)%Z then Some 0%Z else None).

Definition inner_try_reserve (n : Z) : prog Inner (option (Z * Z)) :=
  w ← load wip;
  if (w : bool) then Ret None
  else if (cap <? n)%Z then Ret None
  else
    rd ← load read;
    wr ← load write;
    '(rd, wr) ← reset_drained rd wr;
    o ← local (choose_start n rd wr);
    match o with
    | None => Ret None
    | Some start => _ ← store (set_wip true); Ret (Some (start, n))
    end.

(** The seqlock loop. [None]: still spinning after [fuel] rounds. *)
Fixpoint read_cursors (fuel : nat) : prog Inner (option (Z * Z * Z)) :=
  match fuel with
  | 0 => Ret None
  | S fuel =>
      e1 ← load epoch;
      if (Z.land e1 1 =? 1)%Z then read_cursors fuel
      else
        wr ← load write;
        rd ← load read;
        la ← load last;
        e2 ← load epoch;
        if (e2 =? e1)%Z then Ret (Some (wr, rd, la)) else read_cursors fuel
  end.

(** The outer [None]: still spinning. *)
Definition inner_try_read (fuel : nat) : prog Inner (option (option (Z * Z))) :=
  r ← load rip;
  if (r : bool) then Ret (Some None)
  else
    c ← read_cursors fuel;
    match c with
    | None => Ret None
    | Some (wr, rd, la) =>
        rd ← (if ((wr <? rd) && (rd =? la))%Z
              then _ ← store (set_read 0); _ ← Notify.signal space_ref; Ret 0%Z
              else Ret rd);
        let avail_end := if (wr <? rd)%Z then la else wr in
        len ← local (sub_usize avail_end rd);
        if (len =? 0)%Z then Ret (Some None)
        else _ ← store (set_rip true); Ret (Some (Some (rd, len)))
    end.

(** ** Handles *)
Definition try_reserve (n : Z) : prog Inner (option WriteGrant) :=
  o ← inner_try_reserve n; Ret (option_map (fun r => mkWG r.1 r.2 false) o).

(** [Producer::reserve]; the future is its [n]. *)
Definition reserve (n : Z) : outcome Z :=
  _ ← assert_or (n <=? cap)%Z "reserve exceeds bip-buffer capacity"; Done n.

Definition try_read (fuel : nat) : prog Inner (option (option ReadGrant)) :=
  o ← inner_try_read fuel; Ret (option_map (option_map (fun r => mkRG r.1 r.2 false)) o).

Definition capacity : Z := cap.

(** ** Slices *)

(** [from_raw_parts(self.at(start), len)]. *)
Definition region (s : Inner) (start len : Z) : outcome (list byte) :=
  match mem s !! Buffer.ptr (buf s) with
  | Some (_, d) =>
      if ((0 <=? start) && (0 <=? len) && (start + len <=? Z.of_nat (length d)))%Z
      then Done (take (Z.to_nat len) (drop (Z.to_nat start) d)) else Undefined
  | None => Undefined
  end.

Definition overlaps (a : Z * Z) (o : option (Z * Z)) : bool :=
  match o with
  | Some b => ((0 <? a.2) && (0 <? b.2) && (a.1 <? b.1 + b.2) && (b.1 <? a.1 + a.2))%Z
  | None => false
  end.

(** The holder of the mutable slice applies [f], which keeps the length, to its
    bytes; the result is the new contents. *)
Definition as_mut_slice (g : WriteGrant) (f : list byte -> list byte) : prog Inner (list byte) :=
  let r := (wg_start g, wg_len g) in
  _ ← act (fun s =>
    _ ← region s (wg_start g) (wg_len g);
    if overlaps r (r_borrow s) then Undefined else Done (set_w_borrow (Some r) s, tt));
  bs ← act (fun s =>
    xs ← region s (wg_start g) (wg_len g);
    match mem s !! Buffer.ptr (buf s) with
    | Some (l, d) =>
        let ys := f xs in
        let d := take (Z.to_nat (wg_start g)) d ++ ys ++ drop (Z.to_nat (wg_start g) + length ys) d in
        Done (set_mem (<[Buffer.ptr (buf s) := (l, d)]> (mem s)) s, ys)
    | None => Undefined
    end);
  _ ← store (set_w_borrow None);
  Ret bs.

Definition as_slice (g : ReadGrant) : prog Inner (list byte) :=
  let r := (rg_start g, rg_len g) in
  _ ← act (fun s =>
    _ ← region s (rg_start g) (rg_len g);
    if overlaps r (w_borrow s) then Undefined else Done (set_r_borrow (Some r) s, tt));
  xs ← act (fun s => xs ← region s (rg_start g) (rg_len g); Done (s, xs));
  _ ← store (set_r_borrow None);
  Ret xs.

Definition wg_is_empty (g : WriteGrant) : bool := (wg_len g =? 0)%Z.
Definition rg_is_empty (g : ReadGrant) : bool := (rg_len g =? 0)%Z.

(** ** Commit, release, and the drops of the grants *)
Definition drop_write_grant (g : WriteGrant) : prog Inner unit :=
  if wg_handed_back g then Ret tt
  else
    was ← act (fun s => Done (set_wip false s, wip s));
    if (was : bool) then Notify.signal space_ref else Ret tt.

Definition commit (g : WriteGrant) (used : Z) : prog Inner unit :=
  let used := Z.min used (wg_len g) in
  let g := mkWG (wg_start g) (wg_len g) true in
  wr ← load write;
  _ ← (if ((wg_start g =? 0) && negb (wr =? 0))%Z then store (set_last wr) else Ret tt);
  e ← local (add_usize (wg_start g) used);
  _ ← store (set_write e);
  _ ← store (set_wip false);
  _ ← Notify.signal space_ref;
  _ ← Notify.signal data_ref;
  drop_write_grant g.

Definition drop_read_grant (g : ReadGrant) : prog Inner unit :=
  if rg_handed_back g then Ret tt
  else
    _ ← store (set_rip false);
    Notify.signal data_ref.

Definition release (g : ReadGrant) (used : Z) : prog Inner unit :=
  let used := Z.min used (rg_len g) in
  let g := mkRG (rg_start g) (rg_len g) true in
  rd ← load read;
  e ← local (add_usize rd used);
  _ ← store (set_read e);
  _ ← store (set_rip false);
  _ ← Notify.signal data_ref;
  _ ← Notify.signal space_ref;
  drop_read_grant g.

(** The drop of the last handle drops the buffer. *)
Definition drop_inner (s : Inner) : outcome heap := Buffer.drop_buffer (mem s) (buf s).

(** ** Futures *)
Definition poll_reserve (n : Z) (w : waker) : prog Inner (Poll WriteGrant) :=
  o ← try_reserve n;
  match o with
  | Some g => Ret (Ready g)
  | None =>
      _ ← Notify.arm space_ref w;
      o ← try_reserve n;
      match o with
      | Some g => _ ← Notify.disarm space_ref; Ret (Ready g)
      | None => Ret Pending
      end
  end.

Definition poll_read (fuel : nat) (w : waker) : prog Inner (option (Poll ReadGrant)) :=
  o ← try_read fuel;
  match o with
  | None => Ret None
  | Some (Some g) => Ret (Some (Ready g))
  | Some None =>
      _ ← Notify.arm data_ref w;
      o ← try_read fuel;
      match o with
      | None => Ret None
      | Some (Some g) => _ ← Notify.disarm data_ref; Ret (Some (Ready g))
      | Some None => Ret (Some Pending)
      end
  end.
(** ** Two clients

    Each side performs any sequence of operations on its handle and on the
    grant it holds. A [reserve] or [read] future may be left pending while the
    grant that keeps it waiting is committed, released or dropped. *)
Abbreviation w_parking := (option (Z * waker * nat)).
Abbreviation r_parking := (option (waker * nat)).

Inductive producer_op : Type :=
| TryReserve (n : nat)
| Reserve (n : nat) (ws : list waker)
| Fill (bs : list byte)
| Commit (used : nat)
| Abandon.

Inductive consumer_op : Type :=
| TryRead
| Read (ws : list waker)
| Look
| Release (used : nat)
| Unread.

(** Polling with one waker after the other until the future is ready. *)
Fixpoint drive_reserve (n : Z) (ws : list waker) (pk : w_parking) : prog Inner (option WriteGrant * w_parking) :=
  match ws with
  | [] => Ret (None, pk)
  | w :: ws =>
      k ← load (fun s => length (space_log s));
      r ← poll_reserve n w;
      match r with
      | Ready g => Ret (Some g, None)
      | Pending => drive_reserve n ws (Some (n, w, k))
      end
  end.

Fixpoint drive_read (fuel : nat) (ws : list waker) (pk : r_parking) :
    prog Inner (option (option ReadGrant * r_parking)) :=
  match ws with
  | [] => Ret (Some (None, pk))
  | w :: ws =>
      k ← load (fun s => length (data_log s));
      r ← poll_read fuel w;
      match r with
      | None => Ret None
      | Some (Ready g) => Ret (Some (Some g, None))
      | Some Pending => drive_read fuel ws (Some (w, k))
      end
  end.

(** A second grant while one is outstanding would be a fault. *)
Definition keep_grant {G} (held new : option G) : outcome (option G) :=
  match held, new with
  | Some _, Some _ => Panicked "two grants"
  | None, _ => Done new
  | Some _, None => Done held
  end.

Definition overwrite (bs d : list byte) : list byte := take (length d) bs ++ drop (length bs) d.

Definition producer_step (held : option WriteGrant) (pk : w_parking) (op : producer_op) :
    prog Inner (option WriteGrant * list byte * w_parking) :=
  match op, held with
  | TryReserve n, _ =>
      r ← try_reserve (Z.of_nat n);
      held ← local (keep_grant held r);
      Ret (held, [], None)
  | Reserve n ws, _ =>
      n ← local (reserve (Z.of_nat n));
      '(r, pk) ← drive_reserve n ws None;
      held ← local (keep_grant held r);
      Ret (held, [], pk)
  | Fill bs, Some g => _ ← as_mut_slice g (overwrite bs); Ret (held, [], pk)
  | Commit used, Some g =>
      d ← as_mut_slice g (fun d => d);
      _ ← commit g (Z.of_nat used);
      Ret (None, take used d, pk)
  | Abandon, Some g => _ ← drop_write_grant g; Ret (None, [], pk)
  | _, None => Ret (None, [], pk)
  end.

Definition consumer_step (fuel : nat) (held : option ReadGrant) (pk : r_parking) (op : consumer_op) :
    prog Inner (option (option ReadGrant * list byte * r_parking)) :=
  match op, held with
  | TryRead, _ =>
      r ← try_read fuel;
      match r with
      | None => Ret None
      | Some r => held ← local (keep_grant held r); Ret (Some (held, [], None))
      end
  | Read ws, _ =>
      r ← drive_read fuel ws None;
      match r with
      | None => Ret None
      | Some (r, pk) => held ← local (keep_grant held r); Ret (Some (held, [], pk))
      end
  | Look, Some g => _ ← as_slice g; Ret (Some (held, [], pk))
  | Release used, Some g =>
      d ← as_slice g;
      _ ← release g (Z.of_nat used);
      Ret (Some (None, take used d, pk))
  | Unread, Some g => _ ← drop_read_grant g; Ret (Some (None, [], pk))
  | _, None => Ret (Some (None, [], pk))
  end.

(** What a thread ends with: the bytes it committed or released, how it is
    parked, and the grant it holds. *)
Inductive bended : Type :=
| ProducerEnded (sent : list byte) (pk : w_parking) (held : option WriteGrant)
| ConsumerEnded (received : list byte) (pk : r_parking) (held : option ReadGrant)
| Spinning.

Fixpoint producer_thread (ops : list producer_op) (held : option WriteGrant) (acc : list byte) (pk : w_parking) :
    prog Inner bended :=
  match ops with
  | [] => Ret (ProducerEnded acc pk held)
  | op :: ops => '(held, bs, pk) ← producer_step held pk op; producer_thread ops held (acc ++ bs) pk
  end.

Fixpoint consumer_thread (fuel : nat) (ops : list consumer_op) (held : option ReadGrant) (acc : list byte)
    (pk : r_parking) : prog Inner bended :=
  match ops with
  | [] => Ret (ConsumerEnded acc pk held)
  | op :: ops =>
      r ← consumer_step fuel held pk op;
      match r with
      | None => Ret Spinning
      | Some (held, bs, pk) => consumer_thread fuel ops held (acc ++ bs) pk
      end
  end.

Definition bip_threads (fuel : nat) (pops : list producer_op) (cops : list consumer_op) : list (prog Inner bended) :=
  [producer_thread pops None [] None; consumer_thread fuel cops None [] None].

(** [reserve] panics on requests above the capacity. *)
Definition op_fits (op : producer_op) : Prop :=
  match op with Reserve n _ => (Z.of_nat n <= cap)%Z | _ => True end.
(** ** Layout

    The unread bytes run from the read cursor to the write cursor, or, once the
    producer has wrapped, to the watermark and then from the head. *)
Definition sub (a n : Z) (d : list byte) : list byte := take (Z.to_nat n) (drop (Z.to_nat a) d).
Definition unread_at (r w l : Z) (d : list byte) : list byte :=
  if (w <? r)%Z then sub r (l - r) d ++ sub 0 w d else sub r (w - r) d.
Definition contig (r w l : Z) : Z := if (w <? r)%Z then l - r else w - r.

(** Where [try_reserve] puts [n] bytes. *)
Definition place (n r w : Z) : option Z :=
  if (r =? w)%Z then (if (n <=? cap)%Z then Some 0%Z else None)
  else if (w <? r)%Z then (if (n <? r - w)%Z then Some w else None)
  else if (n <=? cap - w)%Z then Some w
  else if (n <? r)%Z then Some 0%Z else None.

(** A reserved region, for the current cursors. *)
Definition grant_ok (r w a l : Z) : Prop :=
  (0 <= l)%Z /\
  ((a = w /\ (w < r -> a + l < r) /\ a + l <= cap)%Z \/ (a = 0 /\ w <> 0 /\ r <= w /\ l < r)%Z).

Definition splice (a : Z) (ys d : list byte) : list byte :=
  take (Z.to_nat a) d ++ ys ++ drop (Z.to_nat a + length ys) d.

Lemma length_sub a n d : (0 <= a)%Z -> (0 <= n)%Z -> (a + n <= Z.of_nat (length d))%Z -> Z.of_nat (length (sub a n d)) = n.
Proof. intros. unfold sub. rewrite length_take, length_drop. lia. Qed.

Lemma sub_app a n m d : (0 <= a)%Z -> (0 <= n)%Z -> (0 <= m)%Z -> sub a n d ++ sub (a + n) m d = sub a (n + m) d.
Proof.
  intros. unfold sub. rewrite !Z2Nat.inj_add by lia. by rewrite <-drop_drop, take_take_drop.
Qed.

Lemma take_sub a n k d : (0 <= k <= n)%Z -> take (Z.to_nat k) (sub a n d) = sub a k d.
Proof. intros. unfold sub. rewrite take_take. f_equal. lia. Qed.

Lemma drop_sub a n k d : (0 <= a)%Z -> (0 <= k <= n)%Z -> drop (Z.to_nat k) (sub a n d) = sub (a + k) (n - k) d.
Proof.
  intros. unfold sub. rewrite skipn_firstn_comm, drop_drop. f_equal; [lia|]. f_equal. lia.
Qed.

Lemma splice_same a n ys d :
  (0 <= a)%Z -> (a + n <= Z.of_nat (length d))%Z -> Z.of_nat (length ys) = n -> sub a n (splice a ys d) = ys.
Proof.
  intros Ha Hn Hl. unfold sub, splice. rewrite drop_app_length' by (rewrite length_take; lia).
  rewrite take_app_length' by lia. done.
Qed.

Lemma length_splice a ys d :
  (0 <= a)%Z -> (a + Z.of_nat (length ys) <= Z.of_nat (length d))%Z -> length (splice a ys d) = length d.
Proof. intros. unfold splice. rewrite !length_app, length_take, length_drop. lia. Qed.

(** Bytes outside a written region are unchanged. *)
Lemma splice_other a ys d b n :
  (0 <= a)%Z -> (0 <= b)%Z -> (a + Z.of_nat (length ys) <= Z.of_nat (length d))%Z ->
  (b + n <= a \/ a + Z.of_nat (length ys) <= b)%Z -> sub b n (splice a ys d) = sub b n d.
Proof.
  intros Ha Hb Hl Hd. apply list_eq. intros i. unfold sub.
  destruct (decide (i < Z.to_nat n)) as [Hi|Hi];
    [|rewrite !lookup_ge_None_2; [done|rewrite length_take; lia..]].
  rewrite !lookup_take, !decide_True by done. rewrite !lookup_drop. unfold splice.
  destruct Hd as [Hd|Hd].
  - rewrite lookup_app_l by (rewrite length_take; lia). rewrite lookup_take, decide_True by lia. done.
  - rewrite lookup_app_r by (rewrite length_take; lia). rewrite length_take.
    rewrite lookup_app_r by lia. rewrite lookup_drop. f_equal. lia.
Qed.

(** The readable bytes come first. *)
Lemma unread_first r w l d n :
  (0 <= r)%Z -> (0 <= w)%Z -> (l <= Z.of_nat (length d))%Z -> (0 <= n <= contig r w l)%Z ->
  sub r n d = take (Z.to_nat n) (unread_at r w l d).
Proof.
  intros Hr Hw Hl Hn. unfold contig, unread_at in *. destruct (w <? r)%Z eqn:E; bool_props.
  - rewrite take_app_le; [by rewrite take_sub|].
    pose proof (length_sub r (l - r) d). lia.
  - by rewrite take_sub.
Qed.

Lemma length_unread r w l d :
  (0 <= r)%Z -> (0 <= w)%Z -> (w <= Z.of_nat (length d))%Z -> (l <= Z.of_nat (length d))%Z -> (w < r -> r <= l)%Z ->
  Z.of_nat (length (unread_at r w l d)) = (if w <? r then (l - r) + w else w - r)%Z.
Proof.
  intros Hr Hw Hwl Hl Hrl. unfold unread_at. destruct (w <? r)%Z eqn:E; bool_props.
  - rewrite length_app, Nat2Z.inj_add, !length_sub by lia. done.
  - rewrite length_sub by lia. done.
Qed.
(** What the operations do to the unread bytes. *)
Definition watermark (a w l : Z) : Z := if ((a =? 0) && negb (w =? 0))%Z then w else l.

Lemma commit_unread r w l a n k d :
  (0 <= r)%Z -> (0 <= w)%Z -> grant_ok r w a n -> (0 <= k <= n)%Z -> (w < r -> r <= l)%Z ->
  unread_at r (a + k) (watermark a w l) d = unread_at r w l d ++ sub a k d /\
  (a + k < r -> r <= watermark a w l)%Z /\ (contig r w l <= contig r (a + k) (watermark a w l))%Z /\
  (w < r -> a + k < r /\ w <= a + k /\ watermark a w l = l)%Z.
Proof.
  intros Hr Hw [Hn Hg] Hk Hl. unfold unread_at, contig, watermark.
  destruct Hg as [(-> & Hlt & Hc)|(-> & Hw0 & Hrw & Hnr)].
  - assert (((w =? 0) && negb (w =? 0))%Z = false) as -> by (destruct (w =? 0)%Z; done).
    destruct (w <? r)%Z eqn:E; bool_props.
    + rewrite (proj2 (Z.ltb_lt _ _)) by lia. split_and!; try lia. rewrite <-app_assoc. f_equal.
      by rewrite <-(sub_app 0 w k) by lia.
    + rewrite (proj2 (Z.ltb_ge _ _)) by lia. split_and!; try lia.
      replace (w + k - r)%Z with ((w - r) + k)%Z by lia. rewrite <-(sub_app r (w - r) k) by lia.
      f_equal. f_equal. lia.
  - rewrite (proj2 (Z.eqb_neq w 0)) by done. cbn [Z.eqb andb negb].
    rewrite (proj2 (Z.ltb_lt (0 + k) r)), (proj2 (Z.ltb_ge w r)) by lia. split_and!; try lia. done.
Qed.

Lemma release_unread r w l k d :
  (0 <= r)%Z -> (0 <= w)%Z -> (l <= Z.of_nat (length d))%Z -> (0 <= k <= contig r w l)%Z ->
  unread_at (r + k) w l d = drop (Z.to_nat k) (unread_at r w l d) /\ (w < r + k <-> w < r)%Z.
Proof.
  intros Hr Hw Hl Hk. unfold unread_at, contig in *. destruct (w <? r)%Z eqn:E; bool_props.
  - rewrite (proj2 (Z.ltb_lt _ _)) by lia. split; [|lia].
    rewrite drop_app_le by (pose proof (length_sub r (l - r) d); lia).
    rewrite drop_sub by lia. do 2 f_equal. lia.
  - rewrite (proj2 (Z.ltb_ge _ _)) by lia. split; [|lia]. rewrite drop_sub by lia. f_equal. lia.
Qed.

Lemma wrap_unread w l d : (0 <= w < l)%Z -> unread_at 0 w l d = unread_at l w l d.
Proof.
  intros Hw. unfold unread_at. rewrite (proj2 (Z.ltb_ge w 0)), (proj2 (Z.ltb_lt w l)) by lia.
  rewrite Z.sub_diag, Z.sub_0_r. done.
Qed.

Lemma fill_unread r w l a ys d :
  (0 <= r)%Z -> (0 <= w)%Z -> grant_ok r w a (Z.of_nat (length ys)) ->
  (a + Z.of_nat (length ys) <= Z.of_nat (length d))%Z ->
  unread_at r w l (splice a ys d) = unread_at r w l d.
Proof.
  intros Hr Hw [Hn Hg] Hl. unfold unread_at. destruct (w <? r)%Z eqn:E; bool_props.
  - rewrite !splice_other; try done; lia.
  - rewrite !splice_other; try done; lia.
Qed.

Lemma grants_disjoint r w l a n m :
  grant_ok r w a n -> (m <= contig r w l)%Z ->
  overlaps (a, n) (Some (r, m)) = false /\ overlaps (r, m) (Some (a, n)) = false.
Proof.
  intros [Hn Hg] Hm. unfold overlaps, contig in *. cbn [fst snd] in *.
  split; apply not_true_iff_false; intros Ho; bool_props; destruct (w <? r)%Z eqn:E; bool_props; lia.
Qed.

(** The code's choice is [place]. *)
Lemma choose_place n r w :
  (0 <= w <= cap)%Z -> (0 <= r)%Z -> (n <= cap)%Z ->
  choose_start n (if (r =? w)%Z then 0%Z else r) (if (r =? w)%Z then 0%Z else w) = Done (place n r w).
Proof.
  intros Hw Hr Hn. unfold choose_start, place, sub_usize. destruct (r =? w)%Z eqn:Erw; bool_props.
  - rewrite Z.ltb_irrefl, (proj2 (Z.leb_le 0 cap)) by lia. outcome_simpl.
    rewrite !(proj2 (Z.leb_le _ _)) by lia. done.
  - destruct (w <? r)%Z eqn:E; bool_props; rewrite (proj2 (Z.leb_le _ _)) by lia; outcome_simpl; done.
Qed.
(** ** Invariant

    [hist] are the bytes committed and [got] how many were released; [ep] counts
    the epochs, odd while the producer resets the cursors; [wgrant] and [rgrant]
    are the regions handed out, [want] the size the producer last asked for. *)
Record bip_ghost : Type := mkBG {
  hist : list byte;
  got : nat;
  ep : Z;
  wgrant : option (Z * Z);
  rgrant : option (Z * Z);
  want : Z;
  dg : Notify.SlotGhost;
  sg : Notify.SlotGhost
}.
Abbreviation config := (Inner * bip_ghost)%type.

Context (p al : Z) (h0 : heap).
Abbreviation the_buf := (Buffer.mkBuf p 0 cap al).

Definition layout (s : Inner) (g : bip_ghost) (d : list byte) : Prop :=
  unread_at (read s) (write s) (last s) d = drop (got g) (hist g) /\ (write s < read s -> read s <= last s)%Z.

Record core (s : Inner) (g : bip_ghost) : Prop := {
  c_geom : (0 <= read s <= cap /\ 0 <= write s <= cap /\ 0 <= last s <= cap)%Z;
  c_buf : buf s = the_buf;
  c_rest : delete p (mem s) = h0;
  c_ep : epoch s = wrap (ep g) /\ (0 <= ep g)%Z;
  c_got : got g <= length (hist g);
  c_data : exists d, Buffer.owns (mem s) the_buf d /\ (Z.odd (ep g) = false -> layout s g d);
  c_odd : Z.odd (ep g) = true -> got g = length (hist g) /\ wgrant g = None /\ rgrant g = None;
  c_w a n : wgrant g = Some (a, n) -> grant_ok (read s) (write s) a n;
  c_r a n : rgrant g = Some (a, n) -> a = read s /\ (0 < n <= contig (read s) (write s) (last s))%Z;
  c_wb r : w_borrow s = Some r -> wgrant g = Some r;
  c_rb r : r_borrow s = Some r -> rgrant g = Some r
}.

(** What each side waits for. *)
Definition d_cond (x : config) : Prop := got x.2 < length (hist x.2) /\ rip x.1 = false.
Definition s_cond (x : config) : Prop := wip x.1 = false /\ is_Some (place (want x.2) (read x.1) (write x.1)).
Abbreviation d_slot := (Notify.islot data_ref dg d_cond).
Abbreviation s_slot := (Notify.islot space_ref sg s_cond).

(** The producer is signaller 0 of both slots, the consumer signaller 1. *)
Definition ids_ok (g : Notify.SlotGhost) : Prop := forall j, 2 <= j -> Notify.signallers g !! j = None.

Record inv (x : config) : Prop := {
  bi_core : core x.1 x.2;
  bi_dslot : d_slot x;
  bi_sslot : s_slot x;
  bi_dids : ids_ok (dg x.2);
  bi_sids : ids_ok (sg x.2)
}.

Definition put_dg (g : Notify.SlotGhost) (t : bip_ghost) : bip_ghost :=
  mkBG (hist t) (got t) (ep t) (wgrant t) (rgrant t) (want t) g (sg t).
Definition put_sg (g : Notify.SlotGhost) (t : bip_ghost) : bip_ghost :=
  mkBG (hist t) (got t) (ep t) (wgrant t) (rgrant t) (want t) (dg t) g.

(** Everything but the two slots. *)
Record data_eq (x x' : config) : Prop := {
  e_mem : mem x'.1 = mem x.1; e_buf : buf x'.1 = buf x.1;
  e_write : write x'.1 = write x.1; e_read : read x'.1 = read x.1; e_last : last x'.1 = last x.1;
  e_epoch : epoch x'.1 = epoch x.1; e_wip : wip x'.1 = wip x.1; e_rip : rip x'.1 = rip x.1;
  e_wb : w_borrow x'.1 = w_borrow x.1; e_rb : r_borrow x'.1 = r_borrow x.1;
  e_hist : hist x'.2 = hist x.2; e_got : got x'.2 = got x.2; e_ep : ep x'.2 = ep x.2;
  e_wgrant : wgrant x'.2 = wgrant x.2; e_rgrant : rgrant x'.2 = rgrant x.2; e_want : want x'.2 = want x.2
}.
Definition d_same (x x' : config) : Prop :=
  data_eq x x' /\ space x'.1 = space x.1 /\ space_log x'.1 = space_log x.1 /\ sg x'.2 = sg x.2.
Definition s_same (x x' : config) : Prop :=
  data_eq x x' /\ data x'.1 = data x.1 /\ data_log x'.1 = data_log x.1 /\ dg x'.2 = dg x.2.

Lemma d_in : Notify.SlotIn data_ref dg put_dg d_same d_cond.
Proof.
  split; try done; [by intros []|]. intros x x' [[] _]. unfold d_cond. by rewrite e_got0, e_hist0, e_rip0.
Qed.
Lemma s_in : Notify.SlotIn space_ref sg put_sg s_same s_cond.
Proof.
  split; try done; [by intros []|]. intros x x' [[] _]. unfold s_cond.
  by rewrite e_want0, e_read0, e_write0, e_wip0.
Qed.

Lemma core_eq x x' : data_eq x x' -> core x.1 x.2 -> core x'.1 x'.2.
Proof.
  intros [] []. unfold layout in *.
  split; unfold layout; rewrite ?e_mem0, ?e_buf0, ?e_write0, ?e_read0, ?e_last0, ?e_epoch0, ?e_wb0, ?e_rb0, ?e_hist0, ?e_got0,
    ?e_ep0, ?e_wgrant0, ?e_rgrant0; done.
Qed.

(** The steps of the two sides, as the other one sees them. *)
Record producer_move (x x' : config) : Prop := {
  pm_inv : inv x';
  pm_got : got x'.2 = got x.2 /\ rip x'.1 = rip x.1 /\ rgrant x'.2 = rgrant x.2 /\ r_borrow x'.1 = r_borrow x.1;
  pm_hist : hist x.2 `prefix_of` hist x'.2;
  pm_ep :
    ep x'.2 = ep x.2 \/
    Z.odd (ep x.2) = false /\ ep x'.2 = (ep x.2 + 1)%Z /\ read x.1 = write x.1 /\ read x.1 <> 0%Z \/
    Z.odd (ep x.2) = true /\ ep x'.2 = (ep x.2 + 1)%Z /\ read x'.1 = 0%Z;
  pm_cursor : ep x'.2 = ep x.2 -> Z.odd (ep x.2) = false ->
    read x'.1 = read x.1 /\
    (contig (read x.1) (write x.1) (last x.1) <= contig (read x'.1) (write x'.1) (last x'.1))%Z /\
    (write x.1 < read x.1 -> write x.1 <= write x'.1 < read x.1 /\ last x'.1 = last x.1)%Z;
  pm_env : Notify.waiter_env data_ref dg x x';
  pm_sig : Notify.signallers (dg x'.2) !! 1 = Notify.signallers (dg x.2) !! 1 /\
    Notify.signallers (sg x'.2) !! 1 = Notify.signallers (sg x.2) !! 1
}.
Record consumer_move (x x' : config) : Prop := {
  cm_inv : inv x';
  cm_keep : mem x'.1 = mem x.1 /\ write x'.1 = write x.1 /\ last x'.1 = last x.1 /\ epoch x'.1 = epoch x.1 /\
    wip x'.1 = wip x.1 /\ w_borrow x'.1 = w_borrow x.1;
  cm_ghost : hist x'.2 = hist x.2 /\ ep x'.2 = ep x.2 /\ wgrant x'.2 = wgrant x.2 /\ want x'.2 = want x.2;
  cm_read :
    (read x.1 <= read x'.1 /\ (read x.1 <= write x.1 -> read x'.1 <= write x.1))%Z \/
    (write x.1 < read x.1 /\ read x'.1 = 0)%Z;
  cm_odd : Z.odd (ep x.2) = true -> read x'.1 = read x.1;
  cm_env : Notify.waiter_env space_ref sg x x';
  cm_sig : Notify.signallers (dg x'.2) !! 0 = Notify.signallers (dg x.2) !! 0 /\
    Notify.signallers (sg x'.2) !! 0 = Notify.signallers (sg x.2) !! 0
}.

Definition guar (i : nat) (x x' : config) : Prop :=
  match i with 0 => inv x -> producer_move x x' | 1 => inv x -> consumer_move x x' | _ => False end.
Definition rely (i : nat) (x x' : config) : Prop :=
  match i with 0 => guar 1 x x' | 1 => guar 0 x x' | _ => True end.

Lemma bip_guar_rely i j x x' : i <> j -> guar i x x' -> rely j x x'.
Proof. destruct i as [|[|i]], j as [|[|j]]; simpl; try done; lia. Qed.

Lemma producer_still x : inv x -> producer_move x x.
Proof. intros Hi. split; try done. by left. Qed.
Lemma bip_consumer_still x : inv x -> consumer_move x x.
Proof. intros Hi. split; try done. left. lia. Qed.

(** A step that only moves in one slot. *)
Lemma producer_slots x x' :
  data_eq x x' -> inv x -> inv x' -> Notify.waiter_env data_ref dg x x' ->
  Notify.signallers (dg x'.2) !! 1 = Notify.signallers (dg x.2) !! 1 ->
  Notify.signallers (sg x'.2) !! 1 = Notify.signallers (sg x.2) !! 1 -> producer_move x x'.
Proof.
  intros [] Hi Hi' He H1 H2. split; try done; try congruence; [by rewrite e_hist0|by left|].
  intros _ _. rewrite e_read0, e_write0, e_last0. split_and!; [done|lia|lia].
Qed.
Lemma consumer_slots x x' :
  data_eq x x' -> inv x -> inv x' -> Notify.waiter_env space_ref sg x x' ->
  Notify.signallers (dg x'.2) !! 0 = Notify.signallers (dg x.2) !! 0 ->
  Notify.signallers (sg x'.2) !! 0 = Notify.signallers (sg x.2) !! 0 -> consumer_move x x'.
Proof. intros [] Hi Hi' He H1 H2. split; try done; try congruence. left. rewrite e_read0. lia. Qed.
(** ** The producer's view *)
Record pview : Type := mkPV {
  pv_hist : list byte;
  pv_write : Z;
  pv_last : Z;
  pv_wip : bool;
  pv_ep : Z;
  pv_grant : option (Z * Z);
  pv_data : list byte;            (* the contents of the grant *)
  pv_borrow : option (Z * Z);
  pv_want : Z
}.

(** What it knows of the read cursor, in spite of the consumer. *)
Inductive read_info : Type :=
| Anywhere
| Ahead (rd : Z)                  (* seen ahead of the write cursor *)
| Behind (rd : Z)                 (* seen at or behind it *)
| Met
| Resetting (rd : Z).

Definition knows (i : read_info) (x : config) : Prop :=
  match i with
  | Anywhere => True
  | Ahead rd => (read x.1 <= write x.1 \/ rd <= read x.1)%Z
  | Behind rd => (rd <= read x.1 <= write x.1)%Z
  | Met => read x.1 = write x.1
  | Resetting rd => Z.odd (ep x.2) = true /\ read x.1 = rd
  end.

Record producer_owns (v : pview) (i : read_info) (od os : option Notify.SignalPhase) (x : config) : Prop := {
  po_inv : inv x;
  po_hist : hist x.2 = pv_hist v;
  po_write : write x.1 = pv_write v;
  po_last : last x.1 = pv_last v;
  po_wip : wip x.1 = pv_wip v;
  po_ep : ep x.2 = pv_ep v;
  po_grant : wgrant x.2 = pv_grant v;
  po_data a n : pv_grant v = Some (a, n) -> exists d, Buffer.owns (mem x.1) the_buf d /\ sub a n d = pv_data v;
  po_borrow : w_borrow x.1 = pv_borrow v;
  po_want : want x.2 = pv_want v;
  po_info : knows i x;
  po_dsig : Notify.signallers (dg x.2) !! 0 = od;
  po_ssig : Notify.signallers (sg x.2) !! 0 = os
}.

(** With how it waits; [aw]: it is in the middle of looking. *)
Definition producing (v : pview) (i : read_info) (st : Notify.Waiting) (aw : bool)
    (od os : option Notify.SignalPhase) (x : config) : Prop :=
  producer_owns v i od os x /\ Notify.waiting space_ref sg st x /\
  (aw = true -> Notify.waiter (sg x.2) = Notify.Idle).

Lemma knows_stable i x x' : knows i x -> consumer_move x x' -> knows i x'.
Proof.
  intros Hk [Hi (Hm & Hw & Hl & He & Hwip & Hb) (Hh & Hep & Hg & Hwt) Hr Ho _ _].
  pose proof (c_geom _ _ (bi_core _ Hi)) as (_ & Hg1 & _). rewrite Hw in Hg1.
  destruct i; simpl in *; rewrite ?Hw, ?Hep; try done; try lia.
  destruct Hk as [Hodd <-]. split; [done|]. by apply Ho.
Qed.

Lemma producer_owns_move v i od os x x' : producer_owns v i od os x -> consumer_move x x' -> producer_owns v i od os x'.
Proof.
  intros Hx Hm'. pose proof Hm' as [Hi (Hmem & Hw & Hl & He & Hwip & Hb) (Hh & Hep & Hg & Hwt) Hr Ho Henv [Hs1 Hs2]].
  destruct Hx. split; try congruence; try done; [by rewrite Hmem|by eapply knows_stable].
Qed.

Lemma bip_producing_stable v i st aw od os : stable (rely 0) (producing v i st aw od os).
Proof.
  intros x x' (Hx & Hw & Ha) Hm. pose proof (Hm (po_inv _ _ _ _ _ Hx)) as Hm'.
  split_and!; [by eapply producer_owns_move|eapply Notify.waiting_env; [exact Hw|apply Hm']|].
  rewrite (Notify.we_waiter _ _ _ _ (cm_env _ _ Hm')). done.
Qed.

(** A step of the producer outside the slots. *)
Record producer_acts (s : Inner) (g : bip_ghost) (s' : Inner) (g' : bip_ghost) : Prop := {
  pa_core : core s' g';
  pa_slots : data s' = data s /\ space s' = space s /\ data_log s' = data_log s /\ space_log s' = space_log s;
  pa_keep : got g' = got g /\ rip s' = rip s /\ rgrant g' = rgrant g /\ r_borrow s' = r_borrow s;
  pa_hist : hist g `prefix_of` hist g';
  pa_ep :
    ep g' = ep g \/
    Z.odd (ep g) = false /\ ep g' = (ep g + 1)%Z /\ read s = write s /\ read s <> 0%Z \/
    Z.odd (ep g) = true /\ ep g' = (ep g + 1)%Z /\ read s' = 0%Z;
  pa_cursor : ep g' = ep g -> Z.odd (ep g) = false ->
    read s' = read s /\ (contig (read s) (write s) (last s) <= contig (read s') (write s') (last s'))%Z /\
    (write s < read s -> write s <= write s' < read s /\ last s' = last s)%Z;
  pa_d : Notify.changes 0 (d_cond (s, g)) (d_cond (s', g')) (dg g) (dg g');
  pa_s : Notify.changes 0 (s_cond (s, g)) (s_cond (s', g')) (sg g) (sg g')
}.

Lemma producer_acts_move s g s' g' :
  producer_acts s g s' g' -> inv (s, g) -> producer_move (s, g) (s', g').
Proof.
  intros [Hc (S1 & S2 & S3 & S4) Hk Hh Hep Hcur Hd Hs] [_ Hds Hss Hdi Hsi].
  split; try done.
  - split; try done; cbn [snd].
    + unfold Notify.islot in *. simpl in *. rewrite S1, S3. by eapply Notify.changes_inv.
    + unfold Notify.islot in *. simpl in *. rewrite S2, S4. by eapply Notify.changes_inv.
    + intros j Hj. rewrite (Notify.changes_others _ _ _ _ _ _ Hd) by lia. by apply Hdi.
    + intros j Hj. rewrite (Notify.changes_others _ _ _ _ _ _ Hs) by lia. by apply Hsi.
  - by eapply Notify.changes_env.
  - cbn [snd]. by rewrite (Notify.changes_others _ _ _ _ _ _ Hd), (Notify.changes_others _ _ _ _ _ _ Hs) by lia.
Qed.

(** Such a step, from the producer's view. *)
Lemma producing_acts v i st aw od os s g s' g' v' i' od' os' :
  producing v i st aw od os (s, g) -> producer_acts s g s' g' ->
  (inv (s', g') -> producer_owns v' i' od' os' (s', g')) ->
  guar 0 (s, g) (s', g') /\ producing v' i' st aw od' os' (s', g').
Proof.
  intros (Hx & Hw & Haw) Ha Hx'.
  pose proof (producer_acts_move _ _ _ _ Ha (po_inv _ _ _ _ _ Hx)) as Hm.
  split; [intros _; exact Hm|]. destruct Ha as [_ (S1 & S2 & S3 & S4) _ _ _ _ _ Hs'].
  split_and!; [apply Hx', Hm| |].
  - eapply Notify.waiting_env; [exact Hw|]. by eapply Notify.changes_env.
  - cbn [snd]. by rewrite (Notify.changes_waiter _ _ _ _ _ Hs').
Qed.

Lemma wp_producer_store {B} v i st aw od os v' i' od' os' (f : Inner -> Inner) (k : unit -> prog Inner B) Q x :
  producing v i st aw od os x ->
  (forall s g, producing v i st aw od os (s, g) -> exists g', producer_acts s g (f s) g' /\
    (inv (f s, g') -> producer_owns v' i' od' os' (f s, g'))) ->
  (forall x', producing v' i' st aw od' os' x' -> wp (rely 0) (guar 0) (k tt) Q x') ->
  wp (rely 0) (guar 0) (u ← store f; k u) Q x.
Proof.
  intros Hx Hf Hk. eapply wp_act; [apply bip_producing_stable|exact Hx|]. intros s g Hy.
  destruct (Hf s g Hy) as (g' & Ha & Ho). destruct (producing_acts _ _ _ _ _ _ _ _ _ _ _ _ _ _ Hy Ha Ho) as [Hg Hx'].
  eexists _, tt, g'. split; [done|]. split; [exact Hg|]. by apply Hk.
Qed.

Lemma wp_producer_load {A B} v i st aw od os (f : Inner -> A) a (k : A -> prog Inner B) Q x :
  producing v i st aw od os x -> (forall s g, producing v i st aw od os (s, g) -> f s = a) ->
  (forall x', producing v i st aw od os x' -> wp (rely 0) (guar 0) (k a) Q x') ->
  wp (rely 0) (guar 0) (b ← load f; k b) Q x.
Proof.
  intros Hx Hf Hk. eapply wp_act; [apply bip_producing_stable|exact Hx|]. intros s g Hy.
  exists s, a, g. split; [by rewrite (Hf s g Hy)|]. split; [intros Hi; by apply producer_still|]. by apply Hk.
Qed.

Lemma wp_producer_local {A B} v i st aw od os (r : outcome A) a (k : A -> prog Inner B) Q x :
  producing v i st aw od os x -> r = Done a ->
  (forall x', producing v i st aw od os x' -> wp (rely 0) (guar 0) (k a) Q x') ->
  wp (rely 0) (guar 0) (b ← local r; k b) Q x.
Proof.
  intros Hx -> Hk. eapply wp_act; [apply bip_producing_stable|exact Hx|]. intros s g Hy.
  exists s, a, g. split; [done|]. split; [intros Hi; by apply producer_still|]. by apply Hk.
Qed.

(** *** Steps in the slots *)
Lemma d_slot_frame x x' : d_slot x -> s_same x x' -> d_slot x'.
Proof.
  intros Hd ([] & H1 & H2 & H3). unfold Notify.islot, d_cond in *. simpl in *.
  by rewrite H1, H2, H3, e_got0, e_hist0, e_rip0.
Qed.
Lemma s_slot_frame x x' : s_slot x -> d_same x x' -> s_slot x'.
Proof.
  intros Hd ([] & H1 & H2 & H3). unfold Notify.islot, s_cond in *. simpl in *.
  by rewrite H1, H2, H3, e_want0, e_read0, e_write0, e_wip0.
Qed.

Lemma ids_others i g g' :
  i < 2 -> ids_ok g -> (forall j, j <> i -> Notify.signallers g' !! j = Notify.signallers g !! j) -> ids_ok g'.
Proof. intros Hi Hok Ho j Hj. rewrite Ho by lia. by apply Hok. Qed.

Lemma signal_space_inv i x x' :
  i < 2 -> Notify.signaller_move space_ref sg s_same i x x' -> inv x -> inv x'.
Proof.
  intros Hi Hm [Hc Hd Hs Hdi Hsi]. pose proof Hm as [Hsame Hst]. pose proof Hsame as (He & _ & _ & Hdg).
  split; [by eapply core_eq|by eapply d_slot_frame| |by rewrite Hdg|].
  - by eapply (Notify.signaller_move_inv _ _ _ _ _ s_in).
  - eapply ids_others; [exact Hi|exact Hsi|]. apply Hst.
Qed.
Lemma signal_data_inv i x x' :
  i < 2 -> Notify.signaller_move data_ref dg d_same i x x' -> inv x -> inv x'.
Proof.
  intros Hi Hm [Hc Hd Hs Hdi Hsi]. pose proof Hm as [Hsame Hst]. pose proof Hsame as (He & _ & _ & Hsg).
  split; [by eapply core_eq| |by eapply s_slot_frame| |by rewrite Hsg].
  - by eapply (Notify.signaller_move_inv _ _ _ _ _ d_in).
  - eapply ids_others; [exact Hi|exact Hdi|]. apply Hst.
Qed.
Lemma wait_space_inv x x' : Notify.waiter_move space_ref sg s_same x x' -> inv x -> inv x'.
Proof.
  intros Hm [Hc Hd Hs Hdi Hsi]. pose proof Hm as [Hsame Hst]. pose proof Hsame as (He & _ & _ & Hdg).
  split; [by eapply core_eq|by eapply d_slot_frame| |by rewrite Hdg|].
  - by eapply (Notify.waiter_move_inv _ _ _ _ _ s_in).
  - intros j Hj. rewrite (Notify.ws_signallers _ _ _ _ _ _ Hst). by apply Hsi.
Qed.
Lemma wait_data_inv x x' : Notify.waiter_move data_ref dg d_same x x' -> inv x -> inv x'.
Proof.
  intros Hm [Hc Hd Hs Hdi Hsi]. pose proof Hm as [Hsame Hst]. pose proof Hsame as (He & _ & _ & Hsg).
  split; [by eapply core_eq| |by eapply s_slot_frame| |by rewrite Hsg].
  - by eapply (Notify.waiter_move_inv _ _ _ _ _ d_in).
  - intros j Hj. rewrite (Notify.ws_signallers _ _ _ _ _ _ Hst). by apply Hdi.
Qed.

Lemma producer_signal_space x x' :
  Notify.signaller_move space_ref sg s_same 0 x x' -> inv x -> producer_move x x'.
Proof.
  intros Hm Hi. pose proof Hm as [(He & H1 & H2 & H3) Hst].
  apply producer_slots; try done; [by eapply (signal_space_inv 0); [lia|..]|by apply Notify.still_env|by rewrite H3|].
  by apply Hst.
Qed.
Lemma producer_signal_data x x' :
  Notify.signaller_move data_ref dg d_same 0 x x' -> inv x -> producer_move x x'.
Proof.
  intros Hm Hi. pose proof Hm as [(He & H1 & H2 & H3) Hst].
  apply producer_slots; try done; [by eapply (signal_data_inv 0); [lia|..]|
    by eapply Notify.signaller_move_env; [|apply Hi]|by apply Hst|by rewrite H3].
Qed.
Lemma producer_wait_space x x' :
  Notify.waiter_move space_ref sg s_same x x' -> inv x -> producer_move x x'.
Proof.
  intros Hm Hi. pose proof Hm as [(He & H1 & H2 & H3) Hst].
  apply producer_slots; try done; [by eapply wait_space_inv|by apply Notify.still_env|by rewrite H3|].
  by rewrite (Notify.ws_signallers _ _ _ _ _ _ Hst).
Qed.

(** The producer's knowledge under a step in a slot. *)
Lemma producer_owns_slots v i od os od' os' x x' :
  producer_owns v i od os x -> inv x' -> data_eq x x' ->
  Notify.signallers (dg x'.2) !! 0 = od' -> Notify.signallers (sg x'.2) !! 0 = os' ->
  producer_owns v i od' os' x'.
Proof.
  intros [] Hi' [] Hd Hs. split; try done; try congruence; [by rewrite e_mem0|].
  destruct i; simpl in *; rewrite ?e_read0, ?e_write0, ?e_ep0; done.
Qed.

Lemma wp_producer_signal_space v i st aw od Q x :
  producing v i st aw od (Some Notify.Owes) x ->
  (forall x', producing v i st aw od None x' -> Q tt x') ->
  wp (rely 0) (guar 0) (Notify.signal space_ref) Q x.
Proof.
  intros Hx HQ.
  apply (Notify.wp_signal _ _ _ _ _ s_in 0 (rely 0) (guar 0) (fun x => exists os, producing v i st aw od os x)).
  - intros y y' Hm _ [os Hy]. pose proof (bip_producing_stable _ _ _ _ _ _ _ _ Hy Hm) as Hy'.
    split; [apply Hy'|]. split; [by eexists|]. by rewrite (po_ssig _ _ _ _ _ (proj1 Hy)), (po_ssig _ _ _ _ _ (proj1 Hy')).
  - intros y y' Hm _ _ Hi. by apply producer_signal_space.
  - intros y y' Hm Hsl [os (Hy & Hw & Ha)].
    pose proof (Notify.signaller_move_env _ _ _ _ _ _ _ Hm Hsl) as Henv. eexists. split_and!.
    + eapply producer_owns_slots; [exact Hy|by eapply (signal_space_inv 0); [lia| |apply Hy]|apply Hm| |done].
      destruct Hm as [(_ & _ & _ & ->) _]. apply Hy.
    + by eapply Notify.waiting_env.
    + by rewrite (Notify.we_waiter _ _ _ _ Henv).
  - apply Hx.
  - by eexists.
  - right. apply Hx.
  - intros x' (_ & [os Hx'] & Hos). apply HQ. by rewrite <-(po_ssig _ _ _ _ _ (proj1 Hx')), Hos in Hx'.
Qed.

Lemma wp_producer_signal_data v i st aw os Q x :
  producing v i st aw (Some Notify.Owes) os x ->
  (forall x', producing v i st aw None os x' -> Q tt x') ->
  wp (rely 0) (guar 0) (Notify.signal data_ref) Q x.
Proof.
  intros Hx HQ.
  apply (Notify.wp_signal _ _ _ _ _ d_in 0 (rely 0) (guar 0) (fun x => exists od, producing v i st aw od os x)).
  - intros y y' Hm _ [od Hy]. pose proof (bip_producing_stable _ _ _ _ _ _ _ _ Hy Hm) as Hy'.
    split; [apply Hy'|]. split; [by eexists|]. by rewrite (po_dsig _ _ _ _ _ (proj1 Hy)), (po_dsig _ _ _ _ _ (proj1 Hy')).
  - intros y y' Hm _ _ Hi. by apply producer_signal_data.
  - intros y y' Hm Hsl [od (Hy & Hw & Ha)]. pose proof Hm as [(He & H1 & H2 & H3) _]. eexists. split_and!.
    + eapply producer_owns_slots; [exact Hy|by eapply (signal_data_inv 0); [lia| |apply Hy]|done|done|].
      rewrite H3. apply Hy.
    + by eapply Notify.waiting_same.
    + by rewrite H3.
  - apply Hx.
  - by eexists.
  - right. apply Hx.
  - intros x' (_ & [od Hx'] & Hod). apply HQ. by rewrite <-(po_dsig _ _ _ _ _ (proj1 Hx')), Hod in Hx'.
Qed.

(** *** Waiting for space *)
Lemma wp_producer_arm v k w aw Q x :
  producing v Anywhere (Notify.Out k) aw None None x ->
  (forall x', producing v Anywhere (Notify.Armed w k) true None None x' -> Q tt x') ->
  wp (rely 0) (guar 0) (Notify.arm space_ref w) Q x.
Proof.
  intros (Hx & Hw & _) HQ.
  apply (Notify.wp_arm_waiting _ _ _ _ _ s_in (rely 0) (guar 0) (producer_owns v Anywhere None None)) with (k := k); try done.
  - intros y y' Hm _ Hy. pose proof (Hm (po_inv _ _ _ _ _ Hy)) as Hm'.
    split_and!; [apply Hm'|by eapply producer_owns_move|apply Hm'].
  - intros y y' Hm _ _ Hi. by apply producer_wait_space.
  - intros y y' Hm _ Hy. pose proof Hm as [(He & H1 & H2 & H3) Hst].
    eapply producer_owns_slots; [exact Hy|by eapply wait_space_inv; [|apply Hy]|done|rewrite H3; apply (po_dsig _ _ _ _ _ Hy)|].
    rewrite (Notify.ws_signallers _ _ _ _ _ _ Hst). apply (po_ssig _ _ _ _ _ Hy).
  - apply Hx.
  - intros x' _ Hx' Hw'. apply HQ. split_and!; [done|done|]. intros _. apply Hw'.
Qed.

Lemma wp_producer_disarm v k w aw Q x :
  producing v Anywhere (Notify.Armed w k) aw None None x ->
  (forall x', producing v Anywhere (Notify.Out k) false None None x' -> Q tt x') ->
  wp (rely 0) (guar 0) (Notify.disarm space_ref) Q x.
Proof.
  intros (Hx & Hw & _) HQ.
  apply (Notify.wp_disarm_waiting _ _ _ _ _ s_in (rely 0) (guar 0) (producer_owns v Anywhere None None)) with (k := k) (w := w); try done.
  - intros y y' Hm _ Hy. pose proof (Hm (po_inv _ _ _ _ _ Hy)) as Hm'.
    split_and!; [apply Hm'|by eapply producer_owns_move|apply Hm'].
  - intros y y' Hm _ _ Hi. by apply producer_wait_space.
  - intros y y' Hm _ Hy. pose proof Hm as [(He & H1 & H2 & H3) Hst].
    eapply producer_owns_slots; [exact Hy|by eapply wait_space_inv; [|apply Hy]|done|rewrite H3; apply (po_dsig _ _ _ _ _ Hy)|].
    rewrite (Notify.ws_signallers _ _ _ _ _ _ Hst). apply (po_ssig _ _ _ _ _ Hy).
  - apply Hx.
  - intros x' _ Hx' Hw'. apply HQ. by split_and!.
Qed.
(** *** Looking for space

    The first access of a look leaves the parked state and sets the size that is
    asked for; the access that shows there is no room parks. *)
Definition with_want (n : Z) (v : pview) : pview :=
  mkPV (pv_hist v) (pv_write v) (pv_last v) (pv_wip v) (pv_ep v) (pv_grant v) (pv_data v) (pv_borrow v) n.
Definition put_want (n : Z) (t : bip_ghost) : bip_ghost :=
  mkBG (hist t) (got t) (ep t) (wgrant t) (rgrant t) n (dg t) (sg t).

Lemma producer_quiet v i st aw od os s g st' aw' n γ :
  producing v i st aw od os (s, g) -> Notify.signallers γ = Notify.signallers (sg g) ->
  s_slot (s, put_want n (put_sg γ g)) -> Notify.waiting space_ref sg st' (s, put_want n (put_sg γ g)) ->
  (aw' = true -> Notify.waiter γ = Notify.Idle) ->
  guar 0 (s, g) (s, put_want n (put_sg γ g)) /\
  producing (with_want n v) i st' aw' od os (s, put_want n (put_sg γ g)).
Proof.
  intros (Hx & Hw & Haw) Hsig Hsl Hw' Haw'. pose proof (po_inv _ _ _ _ _ Hx) as Hi.
  assert (inv (s, put_want n (put_sg γ g))) as Hi'.
  { destruct Hi as [[] ? ? ? ?]. split; [by split|done|done|done|]. intros j Hj. simpl. rewrite Hsig. by apply bi_sids0. }
  split.
  - intros _. split; try done; [by left|]. simpl. by rewrite Hsig.
  - split; [|by split]. destruct Hx. split; try done. simpl. by rewrite Hsig.
Qed.

Lemma producer_look n v i st aw od os s g :
  producing v i st aw od os (s, g) ->
  exists g', guar 0 (s, g) (s, g') /\ producing (with_want n v) i (Notify.up st) true od os (s, g').
Proof.
  intros Hx. pose proof Hx as (Ho & Hw & _).
  destruct (Notify.waiting_up _ _ _ _ _ s_in st s g (bi_sslot _ (po_inv _ _ _ _ _ Ho)) Hw) as [Hsl [Hw' Hid]].
  eexists. eapply producer_quiet; [exact Hx| | |exact Hw'|done]; [done|].
  eapply Notify.slot_inv_idle; [exact Hid|exact Hsl].
Qed.

Lemma producer_look_rest n v i st aw od os s g :
  producing v i st aw od os (s, g) -> pv_wip v = true \/ place n (read s) (write s) = None ->
  exists g', guar 0 (s, g) (s, g') /\
    producing (with_want n v) i (Notify.rest (Notify.up st)) false od os (s, g').
Proof.
  intros Hx Hc. pose proof Hx as (Ho & Hw & _).
  destruct (Notify.waiting_up _ _ _ _ _ s_in st s g (bi_sslot _ (po_inv _ _ _ _ _ Ho)) Hw) as [Hsl [Hw' Hid]].
  set (g1 := put_want n (Notify.up_ghost sg put_sg g)) in *.
  assert (s_slot (s, g1)) as Hsl1 by (eapply Notify.slot_inv_idle; [exact Hid|exact Hsl]).
  destruct (Notify.waiting_rest _ _ _ _ _ s_in (Notify.up st) s g1 Hsl1 Hw') as [[Hsl2 Hw2] Hg].
  { intros γ [Hwip [a Ha]]. simpl in Hwip, Ha. destruct Hc as [Hc|Hc]; [|congruence].
    pose proof (po_wip _ _ _ _ _ Ho) as Hwp. simpl in Hwp. congruence. }
  destruct Hg as [Hg|[ph Hg]]; rewrite Hg in Hsl2, Hw2.
  - exists g1. by apply (producer_quiet v i st aw).
  - exists (put_want n (put_sg (Notify.set_waiter ph (sg g1)) g)). by apply (producer_quiet v i st aw).
Qed.

Lemma with_want_same n v : pv_want v = n -> with_want n v = v.
Proof. intros <-. by destruct v. Qed.

Lemma place_oversized n r w : (0 <= w)%Z -> (r <= cap)%Z -> (cap < n)%Z -> place n r w = None.
Proof. intros. unfold place. case_tests; done || lia. Qed.

(** What the producer knows after loading the read cursor, and the region it may
    then take. *)
Definition seen (rd wr : Z) : read_info :=
  if (rd =? wr)%Z then (if (wr =? 0)%Z then Behind 0 else Met)
  else if (wr <? rd)%Z then Ahead rd else Behind rd.

Lemma seen_knows s g : (0 <= read s)%Z -> knows (seen (read s) (write s)) (s, g).
Proof. intros. unfold seen. case_tests; simpl; lia. Qed.

Lemma seen_grant n rd wr a s g :
  core s g -> place n rd wr = Some a -> (0 <= n <= cap)%Z -> (0 <= rd <= cap)%Z -> rd <> wr ->
  write s = wr -> knows (seen rd wr) (s, g) -> grant_ok (read s) (write s) a n.
Proof.
  intros Hc Hp Hn Hrd Hne Hw Hk. pose proof (c_geom _ _ Hc) as (G1 & G2 & _).
  unfold place, seen in *. rewrite (proj2 (Z.eqb_neq _ _) Hne) in *. rewrite Hw in *.
  split; [lia|]. revert Hp Hk. case_tests; intros [= <-]; simpl; try rewrite Hw; lia.
Qed.
(** *** The reset of drained cursors *)
Lemma unread_met r l d : unread_at r r l d = [].
Proof. unfold unread_at. rewrite Z.ltb_irrefl, Z.sub_diag. done. Qed.

(** With the cursors together nothing is unread and no region is being read. *)
Lemma met_drained s g :
  core s g -> Z.odd (ep g) = false -> read s = write s -> got g = length (hist g) /\ rgrant g = None.
Proof.
  intros Hc Hev Hm. destruct (c_data _ _ Hc) as (d & _ & Hl). destruct (Hl Hev) as [Hu _]. rewrite Hm, unread_met in Hu.
  pose proof (c_got _ _ Hc). split.
  - assert (length (drop (got g) (hist g)) = 0) as Hz by by rewrite <-Hu. rewrite length_drop in Hz. lia.
  - destruct (rgrant g) as [[a n]|] eqn:Hr; [|done]. apply (c_r _ _ Hc) in Hr as [_ Hr].
    unfold contig in Hr. rewrite Hm, Z.ltb_irrefl in Hr. lia.
Qed.

Lemma acts_odd s g s' :
  core s g -> Z.odd (ep g) = true -> Notify.waiter (sg g) = Notify.Idle ->
  (0 <= read s' <= cap /\ 0 <= write s' <= cap /\ 0 <= last s' <= cap)%Z ->
  buf s' = buf s -> mem s' = mem s -> epoch s' = epoch s -> rip s' = rip s ->
  w_borrow s' = w_borrow s -> r_borrow s' = r_borrow s ->
  data s' = data s /\ space s' = space s /\ data_log s' = data_log s /\ space_log s' = space_log s ->
  producer_acts s g s' g.
Proof.
  intros [] Hodd Hid Hgeo Hb Hm He Hrip Hwb Hrb Hsl. destruct (c_odd0 Hodd) as (Hgot & Hwg & Hrg).
  split; try done.
  - split; rewrite ?Hb, ?Hm, ?He, ?Hwb, ?Hrb; try done; [|by rewrite Hwg|by rewrite Hrg].
    destruct c_data0 as (d & Ho & _). exists d. split; [done|]. by rewrite Hodd.
  - by left.
  - by rewrite Hodd.
  - left. split; [done|]. right. unfold d_cond. simpl. by rewrite Hrip.
  - left. split; [done|]. by left.
Qed.

Definition put_ep (e : Z) (t : bip_ghost) : bip_ghost :=
  mkBG (hist t) (got t) e (wgrant t) (rgrant t) (want t) (dg t) (sg t).
Definition reset_view (v : pview) (w l e : Z) : pview :=
  mkPV (pv_hist v) w l (pv_wip v) e (pv_grant v) (pv_data v) (pv_borrow v) (pv_want v).

Lemma epoch_step s g : core s g -> wrapping_add (epoch s) 1 = wrap (ep g + 1) /\ (0 <= ep g + 1)%Z.
Proof. intros Hc. destruct (c_ep _ _ Hc) as [-> ?]. split; [apply wrapping_add_wrap|lia]. Qed.

Lemma odd_succ e : Z.odd (e + 1) = negb (Z.odd e).
Proof. by rewrite Z.odd_add, xorb_true_r. Qed.

(** Entering and leaving the reset. *)
Lemma acts_enter s g :
  core s g -> Z.odd (ep g) = false -> Notify.waiter (sg g) = Notify.Idle -> wgrant g = None ->
  read s = write s -> read s <> 0%Z ->
  producer_acts s g (set_epoch (wrapping_add (epoch s) 1) s) (put_ep (ep g + 1) g).
Proof.
  intros Hc Hev Hid Hwg Hmet Hne. destruct (met_drained s g Hc Hev Hmet) as [Hgot Hrg]. destruct (epoch_step s g Hc) as [He He0].
  pose proof (odd_succ (ep g)) as Hodd. rewrite Hev in Hodd. cbn [negb] in Hodd. destruct Hc.
  split; try done.
  - split; cbn [put_ep hist got ep wgrant rgrant]; try done. destruct c_data0 as (d & Ho & _). exists d. by rewrite Hodd.
  - right. left. by split_and!.
  - left. split; [done|]. by right.
  - left. split; [done|]. by left.
Qed.

Lemma acts_leave s g :
  core s g -> Z.odd (ep g) = true -> Notify.waiter (sg g) = Notify.Idle -> read s = 0%Z -> write s = 0%Z ->
  producer_acts s g (set_epoch (wrapping_add (epoch s) 1) s) (put_ep (ep g + 1) g).
Proof.
  intros Hc Hodd Hid Hr Hw. destruct (epoch_step s g Hc) as [He He0].
  pose proof (odd_succ (ep g)) as Hev. rewrite Hodd in Hev. cbn [negb] in Hev. destruct Hc. destruct (c_odd0 Hodd) as (Hgot & Hwg & Hrg).
  split; try done.
  - split; cbn [put_ep hist got ep wgrant rgrant]; try done.
    destruct c_data0 as (d & Ho & _). exists d. split; [done|]. intros _. unfold layout. simpl.
    rewrite Hr, Hw, unread_met, Hgot, drop_all. split; [done|lia].
  - right. right. by split_and!.
  - left. split; [done|]. by right.
  - left. split; [done|]. by left.
Qed.

(** Every field of the view is what the step left. *)
Ltac owns_step H :=
  destruct H; split; try done; try (simpl in *; congruence).

Lemma wp_reset_drained {B} v st rd (k : Z * Z -> prog Inner B) Q x :
  producing v (seen rd (pv_write v)) st true None None x -> Z.odd (pv_ep v) = false -> pv_grant v = None ->
  (0 <= cap)%Z ->
  (forall v' i' x', producing v' i' st true None None x' -> Z.odd (pv_ep v') = false ->
    v' = reset_view v (pv_write v') (pv_last v') (pv_ep v') ->
    rd <> pv_write v /\ pv_write v' = pv_write v /\ i' = seen rd (pv_write v) \/
    rd = pv_write v /\ pv_write v' = 0%Z /\ i' = Behind 0 ->
    wp (rely 0) (guar 0) (k (if rd =? pv_write v then 0 else rd, if rd =? pv_write v then 0 else pv_write v)%Z) Q x') ->
  wp (rely 0) (guar 0) (c ← reset_drained rd (pv_write v); k c) Q x.
Proof.
  intros Hx Hev Hng Hcap Hk. unfold reset_drained. destruct (rd =? pv_write v)%Z eqn:Erd; bool_props; cycle 1.
  { cbn [andb]. apply (Hk v (seen rd (pv_write v))); [done|done|by destruct v|by left]. }
  subst rd. destruct (pv_write v =? 0)%Z eqn:Ew; bool_props; cbn [andb negb].
  { rewrite Ew in *. apply (Hk v (Behind 0)); [done|done|by destruct v|by right]. }
  unfold seen in Hx. rewrite Z.eqb_refl, (proj2 (Z.eqb_neq _ _) Ew) in Hx.
  eapply (wp_producer_store _ _ _ _ _ _ (reset_view v (pv_write v) (pv_last v) (pv_ep v + 1)) (Resetting (pv_write v)) None None);
    [exact Hx| |].
  { intros s g (Ho & _ & Haw). exists (put_ep (ep g + 1) g). pose proof (po_info _ _ _ _ _ Ho) as Hmet. simpl in Hmet.
    pose proof (po_write _ _ _ _ _ Ho) as Hw. pose proof (po_ep _ _ _ _ _ Ho) as He. pose proof (po_grant _ _ _ _ _ Ho) as Hg. simpl in Hw, He, Hg.
    split; [apply acts_enter; try congruence; [apply (po_inv _ _ _ _ _ Ho)|by apply Haw]|].
    intros Hi'. owns_step Ho. simpl. rewrite odd_succ, He, Hev. split; [done|congruence]. }
  clear x Hx. intros x Hx.
  eapply (wp_producer_store _ _ _ _ _ _ _ (Resetting 0) None None); [exact Hx| |].
  { intros s g (Ho & _ & Haw). exists g. pose proof (c_geom _ _ (bi_core _ (po_inv _ _ _ _ _ Ho))) as Hgeo.
    pose proof (po_info _ _ _ _ _ Ho) as [Hodd Hr]. simpl in Hodd, Hr, Hgeo.
    split; [apply acts_odd; simpl; try done; [apply (po_inv _ _ _ _ _ Ho)|by apply Haw|lia]|]. intros Hi'. owns_step Ho. }
  clear x Hx. intros x Hx.
  eapply (wp_producer_store _ _ _ _ _ _ (reset_view v 0 (pv_last v) (pv_ep v + 1)) (Resetting 0) None None); [exact Hx| |].
  { intros s g (Ho & _ & Haw). exists g. pose proof (c_geom _ _ (bi_core _ (po_inv _ _ _ _ _ Ho))) as Hgeo.
    pose proof (po_info _ _ _ _ _ Ho) as [Hodd Hr]. simpl in Hodd, Hr, Hgeo.
    split; [apply acts_odd; simpl; try done; [apply (po_inv _ _ _ _ _ Ho)|by apply Haw|lia]|]. intros Hi'. owns_step Ho. }
  clear x Hx. intros x Hx.
  eapply (wp_producer_store _ _ _ _ _ _ (reset_view v 0 cap (pv_ep v + 1)) (Resetting 0) None None); [exact Hx| |].
  { intros s g (Ho & _ & Haw). exists g. pose proof (c_geom _ _ (bi_core _ (po_inv _ _ _ _ _ Ho))) as Hgeo.
    pose proof (po_info _ _ _ _ _ Ho) as [Hodd Hr]. simpl in Hodd, Hr, Hgeo.
    split; [apply acts_odd; simpl; try done; [apply (po_inv _ _ _ _ _ Ho)|by apply Haw|lia]|]. intros Hi'. owns_step Ho. }
  clear x Hx. intros x Hx.
  eapply (wp_producer_store _ _ _ _ _ _ (reset_view v 0 cap (pv_ep v + 1 + 1)) (Behind 0) None None); [exact Hx| |].
  { intros s g (Ho & _ & Haw). exists (put_ep (ep g + 1) g). pose proof (po_info _ _ _ _ _ Ho) as [Hodd Hr].
    pose proof (po_write _ _ _ _ _ Ho) as Hw. simpl in Hodd, Hr, Hw.
    split; [apply acts_leave; try done; [apply (po_inv _ _ _ _ _ Ho)|by apply Haw]|]. intros Hi'. owns_step Ho. simpl. lia. }
  clear x Hx. intros x Hx. apply (Hk _ _ _ Hx); simpl; [by rewrite !odd_succ, Hev|done|by right].
Qed.
(** *** Reserving *)
Definition put_wgrant (o : option (Z * Z)) (t : bip_ghost) : bip_ghost :=
  mkBG (hist t) (got t) (ep t) o (rgrant t) (want t) (dg t) (sg t).

Lemma acts_grant s g a n :
  core s g -> Z.odd (ep g) = false -> w_borrow s = None -> grant_ok (read s) (write s) a n ->
  producer_acts s g (set_wip true s) (put_wgrant (Some (a, n)) g).
Proof.
  intros [] Hev Hb Hok. split; try done; simpl.
  - split; try done; simpl; [by rewrite Hev|by intros a' n' [= <- <-]|by rewrite Hb].
  - by left.
  - left. split; [done|]. by right.
  - left. split; [done|]. right. by intros [? _].
Qed.

(** The state of the producer's side between operations. *)
Definition settled (v : pview) (held : option WriteGrant) : Prop :=
  Z.odd (pv_ep v) = false /\ pv_borrow v = None /\
  match held with
  | None => pv_wip v = false /\ pv_grant v = None
  | Some g => pv_wip v = true /\ pv_grant v = Some (wg_start g, wg_len g) /\ wg_handed_back g = false
  end.

Definition grant_view (v : pview) (a n : Z) (d : list byte) : pview :=
  mkPV (pv_hist v) (pv_write v) (pv_last v) true (pv_ep v) (Some (a, n)) d (pv_borrow v) (pv_want v).

(** Taking the chosen region. *)
Lemma wp_take_region {B} v i st a n (k : unit -> prog Inner B) Q x :
  producing v i st true None None x -> Z.odd (pv_ep v) = false -> pv_borrow v = None ->
  (forall s g, producing v i st true None None (s, g) -> grant_ok (read s) (write s) a n) ->
  (forall d x', producing (grant_view v a n d) Anywhere st true None None x' -> wp (rely 0) (guar 0) (k tt) Q x') ->
  wp (rely 0) (guar 0) (u ← store (set_wip true); k u) Q x.
Proof.
  intros Hx Hev Hnb Hok Hk. eapply wp_act; [apply bip_producing_stable|exact Hx|]. intros s g Hy.
  pose proof Hy as (Ho & _ & _). pose proof (po_inv _ _ _ _ _ Ho) as Hi. destruct (c_data _ _ (bi_core _ Hi)) as (d & Hd & _).
  destruct (producing_acts _ _ _ _ _ _ s g (set_wip true s) (put_wgrant (Some (a, n)) g)
    (grant_view v a n (sub a n d)) Anywhere None None Hy) as [Hg Hx'].
  - apply acts_grant; [apply Hi| | |by apply (Hok s g)].
    + pose proof (po_ep _ _ _ _ _ Ho) as He. simpl in He. by rewrite He.
    + pose proof (po_borrow _ _ _ _ _ Ho) as Hb. simpl in Hb. by rewrite Hb.
  - intros Hi'. owns_step Ho. intros a' n' [= <- <-]. by exists d.
  - eexists _, tt, _. split; [done|]. split; [exact Hg|]. by eapply Hk.
Qed.

Lemma grant_at_head n s g :
  core s g -> write s = 0%Z -> knows (Behind 0) (s, g) -> (0 <= n <= cap)%Z -> grant_ok (read s) (write s) 0 n.
Proof. intros Hc Hw Hk Hn. simpl in Hk. split; [lia|]. left. lia. Qed.

(** The result of a look: a region of its own, or a reason to wait. *)
Definition looked (v : pview) (n : Z) (v' : pview) (a : Z) : Prop :=
  settled v' (Some (mkWG a n false)) /\ pv_hist v' = pv_hist v /\ pv_want v' = n.

Lemma wp_inner_try_reserve v held st aw n Q x :
  producing v Anywhere st aw None None x -> settled v held -> (0 <= n)%Z -> (0 <= cap)%Z ->
  (forall x', producing (with_want n v) Anywhere (Notify.rest (Notify.up st)) false None None x' -> Q None x') ->
  (forall v' a x', producing v' Anywhere (Notify.up st) true None None x' -> held = None -> looked v n v' a ->
    Q (Some (a, n)) x') ->
  wp (rely 0) (guar 0) (inner_try_reserve n) Q x.
Proof.
  intros Hx (Hev & Hnb & Hheld) Hn Hcap HN HS. unfold inner_try_reserve.
  eapply wp_act; [apply bip_producing_stable|exact Hx|]. clear x Hx. intros s g Hx. pose proof Hx as (Ho & _ & _).
  pose proof (po_wip _ _ _ _ _ Ho) as Hwip. pose proof (c_geom _ _ (bi_core _ (po_inv _ _ _ _ _ Ho))) as Hgeo. simpl in Hwip, Hgeo.
  destruct (pv_wip v) eqn:Hw.
  { destruct (producer_look_rest n _ _ _ _ _ _ _ _ Hx) as (g' & Hg & Hx'); [by left|].
    eexists s, true, g'. split; [by rewrite Hwip|]. split; [exact Hg|]. eapply wp_ret; [apply bip_producing_stable|exact Hx'|done]. }
  destruct held as [?|]; [destruct Hheld; congruence|]. destruct Hheld as [_ Hng].
  destruct (cap <? n)%Z eqn:Hbig; bool_props.
  { destruct (producer_look_rest n _ _ _ _ _ _ _ _ Hx) as (g' & Hg & Hx'); [right; apply place_oversized; lia|].
    eexists s, false, g'. split; [by rewrite Hwip|]. split; [exact Hg|]. eapply wp_ret; [apply bip_producing_stable|exact Hx'|done]. }
  destruct (producer_look n _ _ _ _ _ _ _ _ Hx) as (g' & Hg & Hx').
  eexists s, false, g'. split; [by rewrite Hwip|]. split; [exact Hg|]. clear g Hx Ho Hwip Hg Hgeo.
  set (v1 := with_want n v) in *. change (pv_write v) with (pv_write v1) in *.
  eapply wp_act; [apply bip_producing_stable|exact Hx'|]. clear s g' Hx'. intros s g Hx. pose proof Hx as (Ho & Hwt & Haw).
  pose proof (c_geom _ _ (bi_core _ (po_inv _ _ _ _ _ Ho))) as Hgeo. pose proof (po_write _ _ _ _ _ Ho) as Hwr. simpl in Hgeo, Hwr.
  pose proof (choose_place n (read s) (pv_write v1)) as Hch. destruct (place n (read s) (pv_write v1)) as [a|] eqn:Hp.
  - exists s, (read s), g. split; [done|]. split; [intros Hi; by apply producer_still|].
    assert (producing v1 (seen (read s) (pv_write v1)) (Notify.up st) true None None (s, g)) as Hx1.
    { split; [|done]. destruct Ho. split; try done. rewrite <-po_write0. apply seen_knows. simpl. lia. }
    assert (0 <= read s <= cap)%Z as Hrd by lia. assert (0 <= pv_write v1 <= cap)%Z as Hwb by (simpl in *; lia).
    clear Hx Ho Hwt Haw Hgeo Hwr. revert Hch Hp Hrd Hx1. generalize (read s). intros rd Hch Hp Hrd Hx.
    eapply (wp_producer_load _ _ _ _ _ _ _ (pv_write v1)); [exact Hx|by intros s' g'' [[] _]|]. clear s g Hx. intros x Hx.
    eapply wp_reset_drained; [exact Hx|done|done|done|]. clear x Hx. intros v' i' x Hx Hev' Hv' Hcase.
    eapply wp_producer_local; [exact Hx|apply Hch; lia|]. clear x Hx. intros x Hx.
    eapply (wp_take_region _ _ _ a n); [exact Hx|done|by rewrite Hv'| |].
    { intros s g (Ho & _ & _). pose proof (po_info _ _ _ _ _ Ho) as Hk. pose proof (po_write _ _ _ _ _ Ho) as Hw'.
      pose proof (bi_core _ (po_inv _ _ _ _ _ Ho)) as Hc. simpl in Hw', Hc. destruct Hcase as [(Hne & Hww & ->)|(-> & Hww & ->)].
      - eapply seen_grant; [done|done|lia|lia|done|congruence|done].
      - unfold place in Hp. rewrite Z.eqb_refl, (proj2 (Z.leb_le _ _)) in Hp by lia. injection Hp as <-.
        eapply grant_at_head; [done|congruence|done|lia]. }
    clear x Hx. intros d x Hx. eapply wp_ret; [apply bip_producing_stable|exact Hx|]. intros x' Hx'. eapply HS; [exact Hx'|done|].
    rewrite Hv'. by split_and!.
  - destruct (producer_look_rest n _ _ _ _ _ _ _ _ Hx) as (g' & Hg & Hx'); [right; by rewrite Hwr|].
    exists s, (read s), g'. split; [done|]. split; [exact Hg|].
    rewrite with_want_same in Hx' by done.
    assert (producing v1 Anywhere (Notify.rest (Notify.up st)) false None None (s, g')) as Hx2 by (by destruct st).
    assert (0 <= read s <= cap)%Z as Hrd by lia. assert (0 <= pv_write v1 <= cap)%Z as Hwb by (simpl in *; lia).
    clear Hx Ho Hwt Haw Hgeo Hwr Hx' Hg. revert Hch Hp Hrd Hx2. generalize (read s). intros rd Hch Hp Hrd Hx.
    eapply (wp_producer_load _ _ _ _ _ _ _ (pv_write v1)); [exact Hx|by intros s' g'' [[] _]|]. clear s g g' Hx. intros x Hx.
    assert ((rd =? pv_write v1)%Z = false) as Hne.
    { destruct (rd =? pv_write v1)%Z eqn:E; [|done]. unfold place in Hp. rewrite E, (proj2 (Z.leb_le _ _)) in Hp by lia. done. }
    unfold reset_drained. rewrite Hne in *. cbn [andb].
    eapply wp_producer_local; [exact Hx|apply Hch; lia|]. clear x Hx. intros x Hx. eapply wp_ret; [apply bip_producing_stable|exact Hx|done].
Qed.
Lemma wp_try_reserve v held st aw n Q x :
  producing v Anywhere st aw None None x -> settled v held -> (0 <= n)%Z -> (0 <= cap)%Z ->
  (forall x', producing (with_want n v) Anywhere (Notify.rest (Notify.up st)) false None None x' -> Q None x') ->
  (forall v' a x', producing v' Anywhere (Notify.up st) true None None x' -> held = None -> looked v n v' a ->
    Q (Some (mkWG a n false)) x') ->
  wp (rely 0) (guar 0) (try_reserve n) Q x.
Proof.
  intros Hx Hset Hn Hcap HN HS. apply wp_bind. eapply wp_inner_try_reserve; [exact Hx|exact Hset|done|done| |].
  - intros x' Hx'. eapply wp_ret; [apply bip_producing_stable|exact Hx'|done].
  - intros v' a x' Hx' Hh Hl. eapply wp_ret; [apply bip_producing_stable|exact Hx'|]. intros x2 Hx2. by eapply HS.
Qed.

Lemma settled_want n v held : settled v held -> settled (with_want n v) held.
Proof. done. Qed.

Lemma wp_poll_reserve v held k aw n w Q x :
  producing v Anywhere (Notify.Out k) aw None None x -> settled v held -> (0 <= n)%Z -> (0 <= cap)%Z ->
  (forall x', producing (with_want n v) Anywhere (Notify.Resting w k) false None None x' -> Q Pending x') ->
  (forall v' a aw' x', producing v' Anywhere (Notify.Out k) aw' None None x' -> held = None -> looked v n v' a ->
    Q (Ready (mkWG a n false)) x') ->
  wp (rely 0) (guar 0) (poll_reserve n w) Q x.
Proof.
  intros Hx Hset Hn Hcap HP HR. apply wp_bind. eapply wp_try_reserve; [exact Hx|exact Hset|done|done| |]; cbn [Notify.up Notify.rest].
  - clear x Hx. intros x Hx. apply wp_bind. eapply wp_producer_arm; [exact Hx|]. clear x Hx. intros x Hx. apply wp_bind.
    eapply wp_try_reserve; [exact Hx|by apply settled_want|done|done| |]; cbn [Notify.up Notify.rest].
    + intros x' Hx'. eapply wp_ret; [apply bip_producing_stable|exact Hx'|done].
    + clear x Hx. intros v' a x Hx Hh Hl. apply wp_bind. eapply wp_producer_disarm; [exact Hx|]. intros x' Hx'.
      eapply wp_ret; [apply bip_producing_stable|exact Hx'|]. intros x2 Hx2. by eapply HR.
  - intros v' a x' Hx' Hh Hl. eapply wp_ret; [apply bip_producing_stable|exact Hx'|]. intros x2 Hx2. by eapply HR.
Qed.

(** What the recorded parking says. *)
Definition p_parked (v : pview) (st : Notify.Waiting) (pk : w_parking) : Prop :=
  forall n w k, pk = Some (n, w, k) -> st = Notify.Resting w k /\ pv_want v = n.

Definition producer_rests (held : option WriteGrant) (acc : list byte) (pk : w_parking) (x : config) : Prop :=
  exists v st aw, producing v Anywhere st aw None None x /\ settled v held /\ p_parked v st pk /\ pv_hist v = acc.

Lemma producer_rests_stable held acc pk : stable (rely 0) (producer_rests held acc pk).
Proof.
  intros x x' (v & st & aw & Hx & ?) Hm. exists v, st, aw. split; [|done]. by eapply bip_producing_stable.
Qed.

(** Noting how many wakers have been fired. *)
Lemma wp_producer_mark {B} v i st aw od os (kont : nat -> prog Inner B) Q x :
  producing v i st aw od os x ->
  (forall k x', producing v i (Notify.Out k) aw od os x' -> wp (rely 0) (guar 0) (kont k) Q x') ->
  wp (rely 0) (guar 0) (k ← load (fun s => length (space_log s)); kont k) Q x.
Proof.
  intros Hx Hk. eapply wp_act; [apply bip_producing_stable|exact Hx|]. intros s g (Ho & Hw & Haw).
  exists s, (length (space_log s)), g. split; [done|]. split; [intros Hi; by apply producer_still|]. apply Hk.
  split_and!; [done| |done]. eapply Notify.waiting_out; [apply Ho|exact Hw|done].
Qed.

Lemma wp_drive_reserve ws held n acc pk Q x :
  producer_rests held acc pk x -> (0 <= n)%Z -> (0 <= cap)%Z ->
  (forall held' r pk' x', producer_rests held' acc pk' x' -> keep_grant held r = Done held' -> Q (r, pk') x') ->
  wp (rely 0) (guar 0) (drive_reserve n ws pk) Q x.
Proof.
  intros Hx Hn Hcap HQ. revert pk x Hx. induction ws as [|w ws IH]; intros pk x Hx; cbn [drive_reserve].
  { eapply wp_ret; [apply producer_rests_stable|exact Hx|]. intros x' Hx'. eapply HQ; [exact Hx'|by destruct held]. }
  destruct Hx as (v & st & aw & Hx & Hset & _ & Hacc).
  eapply wp_producer_mark; [exact Hx|]. clear x Hx. intros k x Hx. apply wp_bind.
  eapply wp_poll_reserve; [exact Hx|exact Hset|done|done| |].
  - intros x' Hx'. apply IH. exists (with_want n v), (Notify.Resting w k), false. split_and!; [done|done| |done].
    by intros n' w' k' [= <- <- <-].
  - intros v' a aw' x' Hx' -> (Hset' & Hh & Hwt).
    assert (producer_rests (Some (mkWG a n false)) acc None x') as Hr.
    { exists v', (Notify.Out k), aw'. split_and!; [done|done|done|congruence]. }
    eapply wp_ret; [apply producer_rests_stable|exact Hr|]. intros x2 Hx2. by eapply HQ.
Qed.
(** *** The producer's slice *)
Definition borrow_view (v : pview) (o : option (Z * Z)) : pview :=
  mkPV (pv_hist v) (pv_write v) (pv_last v) (pv_wip v) (pv_ep v) (pv_grant v) (pv_data v) o (pv_want v).
Definition data_view (v : pview) (d : list byte) : pview :=
  mkPV (pv_hist v) (pv_write v) (pv_last v) (pv_wip v) (pv_ep v) (pv_grant v) d (pv_borrow v) (pv_want v).

Lemma owns_inj h d d' : Buffer.owns h the_buf d -> Buffer.owns h the_buf d' -> d = d'.
Proof. intros [(l & _ & H1) _ _ _] [(l' & _ & H2) _ _ _]. simpl in *. congruence. Qed.

Lemma region_owns s d a n :
  buf s = the_buf -> Buffer.owns (mem s) the_buf d -> (0 <= a)%Z -> (0 <= n)%Z -> (a + n <= cap)%Z ->
  region s a n = Done (sub a n d).
Proof.
  intros Hb [(l & _ & Hl) Hc _ _] Ha Hn Hle. unfold region. rewrite Hb. simpl in *. rewrite Hl.
  rewrite !(proj2 (Z.leb_le _ _)) by lia. done.
Qed.

Lemma grant_bounds s g a n :
  core s g -> grant_ok (read s) (write s) a n -> (0 <= a /\ 0 <= n /\ a + n <= cap)%Z.
Proof. intros Hc [Hn Hg]. pose proof (c_geom _ _ Hc). lia. Qed.

(** A producer step that leaves cursors, flags and auxiliary state alone. *)
Lemma acts_private s g s' d :
  core s g -> read s' = read s -> write s' = write s -> last s' = last s -> epoch s' = epoch s -> buf s' = buf s ->
  wip s' = wip s -> rip s' = rip s -> r_borrow s' = r_borrow s ->
  data s' = data s /\ space s' = space s /\ data_log s' = data_log s /\ space_log s' = space_log s ->
  delete p (mem s') = h0 -> Buffer.owns (mem s') the_buf d -> (Z.odd (ep g) = false -> layout s g d) ->
  (forall r, w_borrow s' = Some r -> wgrant g = Some r) ->
  producer_acts s g s' g.
Proof.
  intros [] E1 E2 E3 E4 E5 E6 E7 E8 E9 Hdel Ho Hl Hb. split; try done.
  - split; rewrite ?E1, ?E2, ?E3, ?E4, ?E5, ?E8; try done. exists d. split; [done|]. unfold layout in *.
    by rewrite E1, E2, E3.
  - by left.
  - intros _ _. rewrite E1, E2, E3. split_and!; [done|lia|lia].
  - left. split; [done|]. right. unfold d_cond. simpl. by rewrite E7.
  - left. split; [done|]. right. unfold s_cond. simpl. by rewrite E1, E2, E6.
Qed.

Lemma owns_splice h l d a ys :
  Buffer.owns h the_buf d -> h !! p = Some (l, d) -> (0 <= a)%Z -> (a + Z.of_nat (length ys) <= cap)%Z ->
  Buffer.owns (<[p := (l, splice a ys d)]> h) the_buf (splice a ys d).
Proof.
  intros [(l' & Hl & Hh) Hc Hn Hp] Hpl Ha Hle. simpl in *. rewrite Hpl in Hh. injection Hh as <-.
  split; simpl; try done; [exists l; split; [done|]; apply lookup_insert_eq|]. by rewrite length_splice by lia.
Qed.

(** What the holder of a grant knows when it takes a step. *)
Lemma granted v i od os w s g :
  producer_owns v i od os (s, g) -> pv_grant v = Some (wg_start w, wg_len w) ->
  core s g /\ (0 <= wg_start w /\ 0 <= wg_len w /\ wg_start w + wg_len w <= cap)%Z /\
  grant_ok (read s) (write s) (wg_start w) (wg_len w) /\ wgrant g = Some (wg_start w, wg_len w) /\
  exists d, Buffer.owns (mem s) the_buf d /\ (Z.odd (ep g) = false -> layout s g d) /\
    sub (wg_start w) (wg_len w) d = pv_data v /\ region s (wg_start w) (wg_len w) = Done (pv_data v).
Proof.
  intros Ho Hg. pose proof (bi_core _ (po_inv _ _ _ _ _ Ho)) as Hc. pose proof (po_grant _ _ _ _ _ Ho) as Hgr.
  simpl in Hc, Hgr. rewrite Hg in Hgr. pose proof (c_w _ _ Hc _ _ Hgr) as Hok.
  destruct (grant_bounds _ _ _ _ Hc Hok) as (B1 & B2 & B3). destruct (c_data _ _ Hc) as (d & Hd & Hlay).
  destruct (po_data _ _ _ _ _ Ho _ _ Hg) as (d' & Hd' & Hsub). rewrite (owns_inj _ _ _ Hd' Hd) in Hsub.
  split_and!; try done. exists d. split_and!; try done. rewrite <-Hsub. by apply region_owns; [apply Hc|..].
Qed.

Lemma borrow_mut_step v st aw od os w s g :
  let r := (wg_start w, wg_len w) in
  producing v Anywhere st aw od os (s, g) -> pv_grant v = Some r ->
  overlaps r (r_borrow s) = false /\ guar 0 (s, g) (set_w_borrow (Some r) s, g) /\
  producing (borrow_view v (Some r)) Anywhere st aw od os (set_w_borrow (Some r) s, g).
Proof.
  intros r Hx Hg. pose proof Hx as (Ho & _ & _).
  destruct (granted _ _ _ _ _ _ _ Ho Hg) as (Hc & _ & Hok & Hgr & d & Hd & Hlay & _ & _). split.
  - destruct (r_borrow s) as [[a n]|] eqn:Hrb; [|done]. apply (c_rb _ _ Hc) in Hrb. apply (c_r _ _ Hc) in Hrb as [-> Hn].
    apply (proj1 (grants_disjoint _ _ _ _ _ _ Hok (proj2 Hn))).
  - apply (producing_acts _ _ _ _ _ _ _ _ _ _ _ _ _ _ Hx).
    + eapply acts_private; try done; [apply Hc|]. by intros r' [= <-].
    + intros Hi'. owns_step Ho.
Qed.

Lemma modify_step v st aw od os w ys l d s g :
  producing v Anywhere st aw od os (s, g) -> pv_grant v = Some (wg_start w, wg_len w) ->
  Z.of_nat (length ys) = wg_len w -> mem s !! p = Some (l, d) ->
  let s' := set_mem (<[p := (l, splice (wg_start w) ys d)]> (mem s)) s in
  guar 0 (s, g) (s', g) /\ producing (data_view v ys) Anywhere st aw od os (s', g).
Proof.
  intros Hx Hg Hys Hmem s'. pose proof Hx as (Ho & _ & _).
  destruct (granted _ _ _ _ _ _ _ Ho Hg) as (Hc & (B1 & B2 & B3) & Hok & Hgr & d' & Hd & Hlay & Hsub & _).
  assert (d' = d) as ->. { destruct Hd as [(l' & _ & Hl') _ _ _]. simpl in Hl'. congruence. }
  pose proof (Buffer.owns_cap _ _ _ Hd) as Hlen. simpl in Hlen.
  assert (Buffer.owns (mem s') the_buf (splice (wg_start w) ys d)) as Hd' by (apply owns_splice; try done; lia).
  apply (producing_acts _ _ _ _ _ _ _ _ _ _ _ _ _ _ Hx).
  - eapply acts_private; try done; [simpl; rewrite delete_insert_eq; apply Hc| |apply Hc].
    intros He. destruct (Hlay He) as [Hu Hle]. split; [|done].
    rewrite (fill_unread (read s) (write s) (last s)); [done|apply (c_geom _ _ Hc)|apply (c_geom _ _ Hc)|by rewrite Hys|lia].
  - intros Hi'. owns_step Ho. intros a n Ha. simpl in Ha. rewrite Hg in Ha. injection Ha as <- <-.
    eexists. split; [exact Hd'|]. apply splice_same; [done|lia|done].
Qed.

Lemma wp_as_mut_slice v st aw od os w f Q x :
  producing v Anywhere st aw od os x -> settled v (Some w) -> (forall d, length (f d) = length d) ->
  (forall x', producing (data_view v (f (pv_data v))) Anywhere st aw od os x' -> Q (f (pv_data v)) x') ->
  wp (rely 0) (guar 0) (as_mut_slice w f) Q x.
Proof.
  intros Hx (Hev & Hnb & Hw & Hg & _) Hf HQ. unfold as_mut_slice. set (r := (wg_start w, wg_len w)) in *.
  eapply wp_act; [apply bip_producing_stable|exact Hx|]. clear x Hx. intros s g Hx. pose proof Hx as (Ho & _ & _).
  destruct (granted _ _ _ _ _ _ _ Ho Hg) as (_ & _ & _ & _ & d & _ & _ & _ & ->). outcome_simpl.
  destruct (borrow_mut_step _ _ _ _ _ w _ _ Hx Hg) as (Hov & Hg1 & Hx1). fold r in Hov, Hg1, Hx1. rewrite Hov.
  eexists _, tt, g. split; [done|]. split; [exact Hg1|].
  eapply wp_act; [apply bip_producing_stable|exact Hx1|]. clear s g Hx Ho Hov Hg1 d Hx1. intros s g Hx. pose proof Hx as (Ho & _ & _).
  destruct (granted _ _ _ _ _ _ _ Ho Hg) as (Hc & B & _ & _ & d & Hd & _ & Hsub & ->). outcome_simpl.
  pose proof Hd as [(l & _ & Hmem) Hlen _ _]. simpl in Hmem, Hlen. rewrite (c_buf _ _ Hc). cbn [Buffer.ptr]. rewrite Hmem.
  set (ys := f (pv_data v)) in *.
  assert (Z.of_nat (length ys) = wg_len w) as Hys by (unfold ys; simpl in Hsub; rewrite Hf, <-Hsub, length_sub; lia).
  destruct (modify_step _ _ _ _ _ w ys l d s g Hx Hg Hys Hmem) as [Hg1 Hx1].
  eexists _, _, g. split; [done|]. split; [exact Hg1|].
  eapply (wp_producer_store _ _ _ _ _ _ (data_view v ys) Anywhere od os); [exact Hx1| |].
  { clear s g Hx Ho Hc d Hd Hg1 Hsub l Hmem Hlen B Hx1. intros s g Hx. pose proof Hx as (Ho & _ & _). pose proof (bi_core _ (po_inv _ _ _ _ _ Ho)) as Hc. simpl in Hc. exists g.
    destruct (c_data _ _ Hc) as (d & Hd & Hlay). split; [|intros Hi'; owns_step Ho].
    eapply acts_private; try done; apply Hc. }
  intros x Hx'. eapply wp_ret; [apply bip_producing_stable|exact Hx'|done].
Qed.
(** *** Committing and abandoning *)
Definition mark_view (v : pview) (l : Z) : pview :=
  mkPV (pv_hist v) (pv_write v) l (pv_wip v) (pv_ep v) (pv_grant v) (pv_data v) (pv_borrow v) (pv_want v).
Definition commit_view (v : pview) (e : Z) (bs : list byte) : pview :=
  mkPV (pv_hist v ++ bs) e (pv_last v) (pv_wip v) (pv_ep v) None [] (pv_borrow v) (pv_want v).
Definition free_view (v : pview) : pview :=
  mkPV (pv_hist v) (pv_write v) (pv_last v) false (pv_ep v) None [] (pv_borrow v) (pv_want v).

Abbreviation owes i g := (Notify.set_phase i (Some Notify.Owes) (Notify.holder g) g).
Definition commit_ghost (bs : list byte) (t : bip_ghost) : bip_ghost :=
  mkBG (hist t ++ bs) (got t) (ep t) None (rgrant t) (want t) (owes 0 (dg t)) (sg t).
Definition free_ghost (t : bip_ghost) : bip_ghost :=
  mkBG (hist t) (got t) (ep t) None (rgrant t) (want t) (dg t) (owes 0 (sg t)).

Lemma cap_small h d : Buffer.owns h the_buf d -> (cap <= usize_max)%Z.
Proof.
  intros [(l & Hl & _) _ _ _]. unfold Buffer.layout_for in Hl. simpl in Hl.
  destruct ((_ <=? _)%Z && _ && _) eqn:E; [|done]. bool_props.
  unfold isize_max, usize_max, word_modulus in *. lia.
Qed.

(** Recording the watermark changes nothing the consumer can see. *)
Lemma acts_mark v od os w s g :
  producer_owns v Anywhere od os (s, g) -> settled v (Some w) -> wg_start w = 0%Z -> pv_write v <> 0%Z ->
  producer_acts s g (set_last (pv_write v) s) g.
Proof.
  intros Ho (Hev & _ & _ & Hg & _) Ha Hw. destruct (granted _ _ _ _ _ _ _ Ho Hg) as (Hc & _ & [_ Hok] & Hgr & d & Hd & Hlay & _).
  pose proof (po_write _ _ _ _ _ Ho) as Hwr. simpl in Hwr. rewrite <-Hwr in *.
  assert (read s <= write s)%Z as Hrw by lia. pose proof (proj2 (Z.ltb_ge _ _) Hrw) as Hlt.
  destruct Hc. split; try done; simpl.
  - split; try done; simpl; [lia| |by unfold contig in *; rewrite Hlt in *]. exists d. split; [done|]. intros He.
    destruct (Hlay He) as [Hu _]. unfold layout, unread_at in *. simpl. rewrite Hlt in *. split; [done|lia].
  - by left.
  - intros _ _. unfold contig. rewrite Hlt. split_and!; [done|lia|lia].
  - left. split; [done|]. by right.
  - left. split; [done|]. by right.
Qed.

(** Publishing the write cursor. *)
Lemma acts_commit v os w k s g :
  producer_owns v Anywhere None os (s, g) -> settled v (Some w) -> (0 <= k <= wg_len w)%Z ->
  pv_last v = watermark (wg_start w) (pv_write v) (pv_last v) ->
  producer_acts s g (set_write (wg_start w + k) s) (commit_ghost (take (Z.to_nat k) (pv_data v)) g).
Proof.
  intros Ho (Hev & Hnb & Hwip & Hg & _) Hk Hmark.
  destruct (granted _ _ _ _ _ _ _ Ho Hg) as (Hc & B & Hok & Hgr & d & Hd & Hlay & Hsub & _).
  pose proof (po_write _ _ _ _ _ Ho) as Hwr. pose proof (po_last _ _ _ _ _ Ho) as Hla. pose proof (po_ep _ _ _ _ _ Ho) as Hep.
  pose proof (po_wip _ _ _ _ _ Ho) as Hwi. pose proof (po_dsig _ _ _ _ _ Ho) as Hds. pose proof (po_borrow _ _ _ _ _ Ho) as Hbo. simpl in *.
  rewrite <-Hwr, <-Hla in Hmark. rewrite <-Hep in Hev. destruct (Hlay Hev) as [Hu Hrl]. pose proof (c_geom _ _ Hc) as Hgeo.
  destruct (commit_unread (read s) (write s) (last s) (wg_start w) (wg_len w) k d) as (U1 & U2 & U3 & U4); [lia|lia|done|lia|done|].
  rewrite <-Hmark in *. rewrite <-(take_sub _ (wg_len w)), Hsub in U1 by lia.
  pose proof (c_got _ _ Hc) as Hgot. split; try done; simpl.
  - destruct Hc. split; try done; simpl; [lia|rewrite length_app; lia| |by rewrite Hev| |congruence].
    + exists d. split; [done|]. intros _. split; simpl; [|done]. by rewrite U1, Hu, drop_app_le.
    + intros a n Hr. destruct (c_r0 a n Hr) as [-> ?]. split; [done|lia].
  - by eexists.
  - by left.
  - intros _ _. split_and!; [done|done|]. intros Hlt. destruct (U4 Hlt) as (? & ? & _). split; [lia|done].
  - right. split; [done|]. by left.
  - left. split; [done|]. right. intros [? _]. simpl in *. congruence.
Qed.

(** Clearing the in-progress flag. *)
Lemma acts_free v od s g :
  producer_owns v Anywhere od None (s, g) -> Z.odd (pv_ep v) = false -> pv_borrow v = None ->
  producer_acts s g (set_wip false s) (free_ghost g).
Proof.
  intros Ho Hev Hnb. pose proof (po_ep _ _ _ _ _ Ho) as Hep. pose proof (po_ssig _ _ _ _ _ Ho) as Hss.
  pose proof (po_borrow _ _ _ _ _ Ho) as Hbo. pose proof (bi_core _ (po_inv _ _ _ _ _ Ho)) as Hc. simpl in *.
  rewrite <-Hep in Hev. destruct Hc. split; try done; simpl.
  - split; try done; simpl; [by rewrite Hev|congruence].
  - by left.
  - left. split; [done|]. by right.
  - right. split; [done|]. by left.
Qed.

Lemma wp_producer_free {B} v st aw od (k : unit -> prog Inner B) Q x :
  producing v Anywhere st aw od None x -> Z.odd (pv_ep v) = false -> pv_borrow v = None ->
  (forall x', producing (free_view v) Anywhere st aw od (Some Notify.Owes) x' -> wp (rely 0) (guar 0) (k tt) Q x') ->
  wp (rely 0) (guar 0) (u ← store (set_wip false); k u) Q x.
Proof.
  intros Hx Hev Hnb Hk. eapply wp_producer_store; [exact Hx| |exact Hk]. intros s g (Ho & _ & _).
  exists (free_ghost g). split; [by eapply acts_free|]. intros Hi'. owns_step Ho. apply Notify.phase_eq.
Qed.

Lemma watermark_idem a w l : watermark a w (watermark a w l) = watermark a w l.
Proof. unfold watermark. by destruct (_ && _). Qed.

Lemma wp_commit v st aw w used Q x :
  producing v Anywhere st aw None None x -> settled v (Some w) -> (0 <= used)%Z ->
  (forall v' x', producing v' Anywhere st aw None None x' -> settled v' None ->
    pv_hist v' = pv_hist v ++ take (Z.to_nat (Z.min used (wg_len w))) (pv_data v) -> pv_want v' = pv_want v -> Q tt x') ->
  wp (rely 0) (guar 0) (commit w used) Q x.
Proof.
  intros Hx Hset Hu HQ. pose proof Hset as (Hev & Hnb & Hw & Hg & Hhb). unfold commit. set (k := Z.min used (wg_len w)) in *. cbn zeta. cbn [wg_start wg_len wg_handed_back].
  assert (0 <= k <= wg_len w /\ wg_start w + k <= usize_max)%Z as [Hk Hmax].
  { destruct x as [s g]. destruct Hx as (Ho & _). destruct (granted _ _ _ _ _ _ _ Ho Hg) as (_ & B & _ & _ & d & Hd & _).
    pose proof (cap_small _ _ Hd). lia. }
  eapply (wp_producer_load _ _ _ _ _ _ _ (pv_write v)); [exact Hx|by intros s g [[] _]|]. clear x Hx. intros x Hx.
  set (v1 := mark_view v (watermark (wg_start w) (pv_write v) (pv_last v))).
  apply wp_bind. match goal with |- wp _ _ ?q _ _ => assert (wp (rely 0) (guar 0) q (fun _ x' => producing v1 Anywhere st aw None None x') x) as Hmark end.
  { unfold v1, watermark. destruct ((wg_start w =? 0) && negb (pv_write v =? 0))%Z eqn:E; bool_props.
    - eapply wp_act; [apply bip_producing_stable|exact Hx|]. intros s g Hy. pose proof Hy as (Ho & _ & _).
      destruct (producing_acts _ _ _ _ _ _ s g (set_last (pv_write v) s) g (mark_view v (pv_write v)) Anywhere None None Hy) as [Hg1 Hy1];
        [by eapply acts_mark|by intros Hi'; owns_step Ho|].
      eexists _, tt, g. split; [done|]. split; [exact Hg1|]. eapply wp_ret; [apply bip_producing_stable|exact Hy1|done].
    - eapply wp_ret; [apply bip_producing_stable|exact Hx|]. destruct v. done. }
  eapply wp_mono; [|exact Hmark]. clear x Hx Hmark. intros [] x Hx. cbn beta.
  eapply (wp_producer_local _ _ _ _ _ _ _ (wg_start w + k)%Z); [exact Hx|unfold add_usize; by rewrite (proj2 (Z.leb_le _ _) Hmax)|].
  clear x Hx. intros x Hx.
  eapply (wp_producer_store _ _ _ _ _ _ (commit_view v1 (wg_start w + k) (take (Z.to_nat k) (pv_data v))) Anywhere (Some Notify.Owes) None);
    [exact Hx| |].
  { intros s g (Ho & _ & _). exists (commit_ghost (take (Z.to_nat k) (pv_data v)) g).
    split; [apply (acts_commit v1 None); try done; by unfold v1; simpl; rewrite watermark_idem|]. intros Hi'. owns_step Ho. apply Notify.phase_eq. }
  clear x Hx. intros x Hx. eapply wp_producer_free; [exact Hx|done|done|]. clear x Hx. intros x Hx.
  apply wp_bind. eapply wp_producer_signal_space; [exact Hx|]. clear x Hx. intros x Hx.
  apply wp_bind. eapply wp_producer_signal_data; [exact Hx|]. clear x Hx. intros x Hx.
  eapply wp_ret; [apply bip_producing_stable|exact Hx|]. intros x' Hx'. eapply HQ; [exact Hx'|done..].
Qed.

Lemma wp_drop_write_grant v st aw w Q x :
  producing v Anywhere st aw None None x -> settled v (Some w) ->
  (forall x', producing (free_view v) Anywhere st aw None None x' -> Q tt x') ->
  wp (rely 0) (guar 0) (drop_write_grant w) Q x.
Proof.
  intros Hx (Hev & Hnb & Hw & Hg & Hhb) HQ. unfold drop_write_grant. rewrite Hhb.
  eapply wp_act; [apply bip_producing_stable|exact Hx|]. intros s g Hy. pose proof Hy as (Ho & _ & _).
  destruct (producing_acts _ _ _ _ _ _ s g (set_wip false s) (free_ghost g) (free_view v) Anywhere None (Some Notify.Owes) Hy)
    as [Hg1 Hy1]; [by eapply acts_free|intros Hi'; owns_step Ho; apply Notify.phase_eq|].
  pose proof (po_wip _ _ _ _ _ Ho) as Hwi. simpl in Hwi. rewrite Hwi, Hw.
  eexists _, true, _. split; [done|]. split; [exact Hg1|]. by eapply wp_producer_signal_space.
Qed.
(** *** The producer's thread *)
Lemma length_overwrite bs d : length (overwrite bs d) = length d.
Proof. unfold overwrite. rewrite length_app, length_take, length_drop. lia. Qed.

Lemma wp_rests_ret {A} held acc pk (a : A) (Q : A -> config -> Prop) x :
  producer_rests held acc pk x -> (forall x', producer_rests held acc pk x' -> Q a x') -> wp (rely 0) (guar 0) (Ret a) Q x.
Proof. intros Hx HQ. eapply wp_ret; [apply producer_rests_stable|exact Hx|exact HQ]. Qed.

Lemma wp_rests_local {A B} held acc pk (r : outcome A) a (k : A -> prog Inner B) Q x :
  producer_rests held acc pk x -> r = Done a ->
  (forall x', producer_rests held acc pk x' -> wp (rely 0) (guar 0) (k a) Q x') ->
  wp (rely 0) (guar 0) (b ← local r; k b) Q x.
Proof.
  intros (v & st & aw & Hx & Hrest) -> Hk. eapply wp_producer_local; [exact Hx|done|]. intros x' Hx'. apply Hk.
  by exists v, st, aw.
Qed.

Lemma wp_step_try_reserve held acc pk n Q x :
  producer_rests held acc pk x -> (0 <= cap)%Z ->
  (forall held' x', producer_rests held' acc None x' -> Q (held', [], None) x') ->
  wp (rely 0) (guar 0) (producer_step held pk (TryReserve n)) Q x.
Proof.
  intros (v & st & aw & Hx & Hset & Hpk & Hacc) Hcap HQ. apply wp_bind. eapply wp_try_reserve; [exact Hx|exact Hset|lia|done| |].
  - intros x' Hx'. eapply (wp_rests_local held acc None); [|by destruct held|].
    + by exists (with_want (Z.of_nat n) v), (Notify.rest (Notify.up st)), false.
    + intros x2 Hx2. eapply wp_rests_ret; [exact Hx2|]. apply HQ.
  - intros v' a x' Hx' -> (Hset' & Hh & _). eapply (wp_rests_local (Some (mkWG a (Z.of_nat n) false)) acc None); [|done|].
    + exists v', (Notify.up st), true. split_and!; [done|done|done|congruence].
    + intros x2 Hx2. eapply wp_rests_ret; [exact Hx2|]. apply HQ.
Qed.

Lemma bip_wp_producer_step held acc pk op Q x :
  producer_rests held acc pk x -> op_fits op -> (0 <= cap)%Z ->
  (forall held' bs pk' x', producer_rests held' (acc ++ bs) pk' x' -> Q (held', bs, pk') x') ->
  wp (rely 0) (guar 0) (producer_step held pk op) Q x.
Proof.
  intros Hx Hop Hcap HQ.
  assert (forall held' pk' x', producer_rests held' acc pk' x' -> Q (held', [], pk') x') as HQ0.
  { intros held' pk' x' Hx'. apply HQ. by rewrite app_nil_r. }
  destruct op as [n|n ws|bs|used|].
  - eapply wp_step_try_reserve; [exact Hx|done|]. intros held' x'. apply HQ0.
  - cbn [producer_step]. simpl in Hop. destruct Hx as (v & st & aw & Hx & Hset & Hpk & Hacc).
    eapply (wp_rests_local held acc None _ (Z.of_nat n)); [by exists v, st, aw| |].
    { unfold reserve. by rewrite (proj2 (Z.leb_le _ _)). }
    clear x Hx. intros x Hx. apply wp_bind. eapply wp_drive_reserve; [exact Hx|lia|done|].
    intros held' r pk' x' Hx' Hkeep. eapply wp_rests_local; [exact Hx'|exact Hkeep|]. intros x2 Hx2.
    eapply wp_rests_ret; [exact Hx2|]. apply HQ0.
  - destruct held as [w|]; [|eapply wp_rests_ret; [exact Hx|apply HQ0]]. destruct Hx as (v & st & aw & Hx & Hset & Hpk & Hacc).
    apply wp_bind. eapply wp_as_mut_slice; [exact Hx|exact Hset|apply length_overwrite|]. intros x' Hx'.
    eapply (wp_rests_ret (Some w) acc pk); [|apply HQ0]. by exists (data_view v (overwrite bs (pv_data v))), st, aw.
  - destruct held as [w|]; [|eapply wp_rests_ret; [exact Hx|apply HQ0]]. destruct Hx as (v & st & aw & Hx & Hset & Hpk & Hacc).
    apply wp_bind. eapply wp_as_mut_slice; [exact Hx|exact Hset|done|]. clear x Hx. intros x Hx.
    assert (take used (pv_data v) = take (Z.to_nat (Z.min (Z.of_nat used) (wg_len w))) (pv_data v)) as Hbs.
    { destruct x as [s g]. destruct Hx as (Ho & _). destruct Hset as (_ & _ & _ & Hg & _).
      destruct (granted _ _ _ _ _ _ _ Ho Hg) as (_ & B & _ & _ & d & Hd & _ & Hsub & _).
      pose proof (Buffer.owns_cap _ _ _ Hd) as Hlen. pose proof (length_sub (wg_start w) (wg_len w) d) as Hl. simpl in Hsub, Hlen.
      rewrite Hsub in Hl. rewrite <-(firstn_all (pv_data v)) at 1. rewrite take_take. f_equal. lia. }
    apply wp_bind. eapply wp_commit; [exact Hx|exact Hset|lia|]. intros v' x' Hx' Hset' Hh Hwt.
    eapply (wp_rests_ret None (acc ++ take used (pv_data v)) pk); [|apply HQ].
    exists v', st, aw. split_and!; [done|done| |rewrite Hh; simpl; by rewrite Hacc, Hbs].
    intros n' w' k' Hk. rewrite Hwt. by apply Hpk.
  - destruct held as [w|]; [|eapply wp_rests_ret; [exact Hx|apply HQ0]]. destruct Hx as (v & st & aw & Hx & Hset & Hpk & Hacc).
    apply wp_bind. eapply wp_drop_write_grant; [exact Hx|exact Hset|]. intros x' Hx'.
    eapply (wp_rests_ret None acc pk); [|apply HQ0]. exists (free_view v), st, aw. destruct Hset as (? & ? & _). by split_and!.
Qed.

Lemma bip_wp_producer_thread ops held acc pk Q x :
  producer_rests held acc pk x -> Forall op_fits ops -> (0 <= cap)%Z ->
  (forall held' acc' pk' x', producer_rests held' acc' pk' x' -> Q (ProducerEnded acc' pk' held') x') ->
  wp (rely 0) (guar 0) (producer_thread ops held acc pk) Q x.
Proof.
  intros Hx Hops Hcap HQ. revert held acc pk x Hx. induction Hops as [|op ops Hop Hops IH]; intros held acc pk x Hx; cbn [producer_thread].
  - eapply wp_rests_ret; [exact Hx|apply HQ].
  - apply wp_bind. eapply bip_wp_producer_step; [exact Hx|done|done|]. intros held' bs pk' x' Hx'. by apply IH.
Qed.
(** ** The consumer's view *)
Record cview : Type := mkCV {
  cv_recv : list byte;
  cv_rip : bool;
  cv_grant : option (Z * Z);
  cv_borrow : option (Z * Z)
}.

(** A reset has begun, or has completed, since epoch [e]. Only one can: the next
    one needs the consumer to move. *)
Definition torn (e : Z) (x : config) : Prop := ep x.2 = (e + 1)%Z \/ ep x.2 = (e + 2)%Z /\ read x.1 = 0%Z.

(** The cursors were [w] and [r], the watermark [l], with [n] bytes unread. *)
Definition saw (e w r l n : Z) (x : config) : Prop :=
  ep x.2 = e /\ read x.1 = r /\
  if (w <? r)%Z then (w <= write x.1 < r /\ last x.1 = l /\ r <= l /\ n = (l - r) + w /\ 0 <= w)%Z
  else (n = w - r /\ n <= contig r (write x.1) (last x.1))%Z.

(** What the consumer knows of the cursors, in spite of the producer. *)
Inductive cursor_info : Type :=
| Nothing
| Since (e : Z)
| Torn (e : Z)
| Sure (e w r l n : Z)
| Ready_at (r n : Z)
| Has (d : list byte).

Definition cknows (c : cursor_info) (x : config) : Prop :=
  match c with
  | Nothing => True
  | Since e => Z.odd e = false /\ (ep x.2 = e \/ torn e x)
  | Torn e => Z.odd e = false /\ torn e x
  | Sure e w r l n => Z.odd e = false /\ (0 < n \/ w < r)%Z /\ saw e w r l n x
  | Ready_at r n => Z.odd (ep x.2) = false /\ read x.1 = r /\ (0 < n <= contig (read x.1) (write x.1) (last x.1))%Z
  | Has d => d `prefix_of` drop (got x.2) (hist x.2)
  end.

Record consumer_owns (v : cview) (c : cursor_info) (od os : option Notify.SignalPhase) (x : config) : Prop := {
  co_inv : inv x;
  co_recv : take (got x.2) (hist x.2) = cv_recv v;
  co_rip : rip x.1 = cv_rip v;
  co_grant : rgrant x.2 = cv_grant v;
  co_borrow : r_borrow x.1 = cv_borrow v;
  co_info : cknows c x;
  co_dsig : Notify.signallers (dg x.2) !! 1 = od;
  co_ssig : Notify.signallers (sg x.2) !! 1 = os
}.

Definition consuming (v : cview) (c : cursor_info) (st : Notify.Waiting) (od os : option Notify.SignalPhase) (x : config) : Prop :=
  consumer_owns v c od os x /\ Notify.waiting data_ref dg st x.

Lemma torn_move e x x' : Z.odd e = false -> torn e x -> producer_move x x' -> torn e x'.
Proof.
  intros Hev Ht Hm. pose proof (pm_ep _ _ Hm) as He. pose proof (pm_cursor _ _ Hm) as Hc. unfold torn in *.
  pose proof (odd_succ e) as H1. pose proof (odd_succ (e + 1)) as H2. replace (e + 1 + 1)%Z with (e + 2)%Z in H2 by lia.
  rewrite H1, Hev in H2. rewrite Hev in H1. cbn [negb] in H1, H2.
  destruct Ht as [Ht|[Ht Hr]]; rewrite Ht in *.
  - destruct He as [He|[(Ho & _)|(_ & He & Hr)]]; [by left|congruence|]. right. split; [lia|done].
  - destruct He as [He|[(_ & _ & _ & Hne)|(Ho & _)]]; [|done|congruence].
    right. split; [done|]. by destruct (Hc He H2) as [-> _].
Qed.

Lemma saw_move e w r l n x x' :
  Z.odd e = false -> saw e w r l n x -> producer_move x x' ->
  saw e w r l n x' \/ torn e x' /\ ~ (0 < n \/ w < r)%Z.
Proof.
  intros Hev (He & Hr & Hs) Hm. pose proof (pm_cursor _ _ Hm) as Hc. rewrite He in Hc.
  destruct (pm_ep _ _ Hm) as [He'|[(_ & He' & Hmet & _)|(Ho & _)]]; [|right|congruence].
  - left. rewrite He in He'. destruct (Hc He' Hev) as (Hr' & Hmono & Hinv). split_and!; [done|congruence|].
    rewrite Hr', Hr in *. destruct (w <? r)%Z eqn:E; bool_props; [|lia]. destruct Hinv as [? ->]; lia.
  - split; [left; congruence|]. unfold contig in Hs. rewrite <-Hmet, Hr, Z.ltb_irrefl in Hs.
    destruct (w <? r)%Z eqn:E; bool_props; lia.
Qed.

Lemma cknows_move c x x' : cknows c x -> producer_move x x' -> cknows c x'.
Proof.
  intros Hc Hm. destruct c as [|e|e|e w r l n|r n|d]; cbn [cknows] in *.
  - done.
  - destruct Hc as [Hev [He|Ht]]; split; try done; [|right; by eapply torn_move].
    destruct (pm_ep _ _ Hm) as [?|[(_ & ? & _)|(Ho & _)]]; [left; congruence|right; left; congruence|congruence].
  - destruct Hc as [Hev Ht]. split; [done|]. by eapply torn_move.
  - destruct Hc as (Hev & Hn & Hs). split_and!; [done|done|]. by destruct (saw_move _ _ _ _ _ _ _ Hev Hs Hm) as [?|[_ ?]].
  - destruct Hc as (Hev & Hr & Hn). pose proof (pm_cursor _ _ Hm) as Hc.
    destruct (pm_ep _ _ Hm) as [He|[(_ & _ & Hmet & _)|(Ho & _)]]; [|exfalso|congruence].
    + destruct (Hc He Hev) as (Hr' & Hmono & _). rewrite He. split_and!; [done|congruence|lia|lia].
    + unfold contig in Hn. rewrite Hmet, Z.ltb_irrefl in Hn. lia.
  - destruct (pm_got _ _ Hm) as [-> _]. destruct (pm_hist _ _ Hm) as [k ->]. etrans; [exact Hc|].
    pose proof (c_got _ _ (bi_core _ (pm_inv _ _ Hm))) as Hg. destruct (decide (got x.2 <= length (hist x.2))) as [Hle|Hle].
    + rewrite drop_app_le by done. by eexists.
    + rewrite drop_ge by lia. apply prefix_nil.
Qed.

Lemma consumer_owns_move v c od os x x' : consumer_owns v c od os x -> producer_move x x' -> consumer_owns v c od os x'.
Proof.
  intros Hx Hm. pose proof Hm as [Hi (Hg & Hr & Hrg & Hb) Hh _ _ _ [S1 S2]]. destruct Hx.
  split; try congruence; [|by eapply cknows_move].
  destruct Hh as [k Hk]. rewrite Hg, Hk, take_app_le; [done|]. apply (c_got _ _ (bi_core _ co_inv0)).
Qed.

Lemma bip_consuming_stable v c st od os : stable (rely 1) (consuming v c st od os).
Proof.
  intros x x' [Hx Hw] Hm. pose proof (Hm (co_inv _ _ _ _ _ Hx)) as Hm'.
  split; [by eapply consumer_owns_move|]. eapply Notify.waiting_env; [exact Hw|apply Hm'].
Qed.

(** A step of the consumer outside the slots. *)
Record consumer_acts (s : Inner) (g : bip_ghost) (s' : Inner) (g' : bip_ghost) : Prop := {
  ca_core : core s' g';
  ca_slots : data s' = data s /\ space s' = space s /\ data_log s' = data_log s /\ space_log s' = space_log s;
  ca_keep : mem s' = mem s /\ write s' = write s /\ last s' = last s /\ epoch s' = epoch s /\
    wip s' = wip s /\ w_borrow s' = w_borrow s;
  ca_ghost : hist g' = hist g /\ ep g' = ep g /\ wgrant g' = wgrant g /\ want g' = want g;
  ca_read :
    (read s <= read s' /\ (read s <= write s -> read s' <= write s))%Z \/
    (write s < read s /\ read s' = 0)%Z;
  ca_odd : Z.odd (ep g) = true -> read s' = read s;
  ca_d : Notify.changes 1 (d_cond (s, g)) (d_cond (s', g')) (dg g) (dg g');
  ca_s : Notify.changes 1 (s_cond (s, g)) (s_cond (s', g')) (sg g) (sg g')
}.

Lemma consumer_acts_move s g s' g' :
  consumer_acts s g s' g' -> inv (s, g) -> consumer_move (s, g) (s', g').
Proof.
  intros [Hc (S1 & S2 & S3 & S4) Hk Hgh Hr Ho Hd Hs] [_ Hds Hss Hdi Hsi].
  split; try done.
  - split; try done; cbn [snd].
    + unfold Notify.islot in *. simpl in *. rewrite S1, S3. by eapply Notify.changes_inv.
    + unfold Notify.islot in *. simpl in *. rewrite S2, S4. by eapply Notify.changes_inv.
    + intros j Hj. rewrite (Notify.changes_others _ _ _ _ _ _ Hd) by lia. by apply Hdi.
    + intros j Hj. rewrite (Notify.changes_others _ _ _ _ _ _ Hs) by lia. by apply Hsi.
  - by eapply Notify.changes_env.
  - cbn [snd]. by rewrite (Notify.changes_others _ _ _ _ _ _ Hd), (Notify.changes_others _ _ _ _ _ _ Hs) by lia.
Qed.

Lemma consuming_acts v c st od os s g s' g' v' c' od' os' :
  consuming v c st od os (s, g) -> consumer_acts s g s' g' ->
  (inv (s', g') -> consumer_owns v' c' od' os' (s', g')) ->
  guar 1 (s, g) (s', g') /\ consuming v' c' st od' os' (s', g').
Proof.
  intros (Hx & Hw) Ha Hx'. pose proof (consumer_acts_move _ _ _ _ Ha (co_inv _ _ _ _ _ Hx)) as Hm.
  split; [intros _; exact Hm|]. destruct Ha as [_ (S1 & S2 & S3 & S4) _ _ _ _ Hd' _].
  split; [apply Hx', Hm|]. eapply Notify.waiting_env; [exact Hw|]. by eapply Notify.changes_env.
Qed.

Lemma wp_consumer_store {B} v c st od os v' c' od' os' (f : Inner -> Inner) (k : unit -> prog Inner B) Q x :
  consuming v c st od os x ->
  (forall s g, consuming v c st od os (s, g) -> exists g', consumer_acts s g (f s) g' /\
    (inv (f s, g') -> consumer_owns v' c' od' os' (f s, g'))) ->
  (forall x', consuming v' c' st od' os' x' -> wp (rely 1) (guar 1) (k tt) Q x') ->
  wp (rely 1) (guar 1) (u ← store f; k u) Q x.
Proof.
  intros Hx Hf Hk. eapply wp_act; [apply bip_consuming_stable|exact Hx|]. intros s g Hy.
  destruct (Hf s g Hy) as (g' & Ha & Ho). destruct (consuming_acts _ _ _ _ _ _ _ _ _ _ _ _ _ Hy Ha Ho) as [Hg Hx'].
  eexists _, tt, g'. split; [done|]. split; [exact Hg|]. by apply Hk.
Qed.

Lemma wp_consumer_load {A B} v c st od os (f : Inner -> A) a (k : A -> prog Inner B) Q x :
  consuming v c st od os x -> (forall s g, consuming v c st od os (s, g) -> f s = a) ->
  (forall x', consuming v c st od os x' -> wp (rely 1) (guar 1) (k a) Q x') ->
  wp (rely 1) (guar 1) (b ← load f; k b) Q x.
Proof.
  intros Hx Hf Hk. eapply wp_act; [apply bip_consuming_stable|exact Hx|]. intros s g Hy.
  exists s, a, g. split; [by rewrite (Hf s g Hy)|]. split; [intros Hi; by apply bip_consumer_still|]. by apply Hk.
Qed.

Lemma wp_consumer_local {A B} v c st od os (r : outcome A) a (k : A -> prog Inner B) Q x :
  consuming v c st od os x -> r = Done a ->
  (forall x', consuming v c st od os x' -> wp (rely 1) (guar 1) (k a) Q x') ->
  wp (rely 1) (guar 1) (b ← local r; k b) Q x.
Proof.
  intros Hx -> Hk. eapply wp_act; [apply bip_consuming_stable|exact Hx|]. intros s g Hy.
  exists s, a, g. split; [done|]. split; [intros Hi; by apply bip_consumer_still|]. by apply Hk.
Qed.
(** *** The consumer in the slots *)
Lemma consumer_signal_space x x' :
  Notify.signaller_move space_ref sg s_same 1 x x' -> inv x -> consumer_move x x'.
Proof.
  intros Hm Hi. pose proof Hm as [(He & H1 & H2 & H3) Hst].
  apply consumer_slots; try done; [by eapply (signal_space_inv 1); [lia|..]|
    by eapply Notify.signaller_move_env; [|apply Hi]|by rewrite H3|by apply Hst].
Qed.
Lemma consumer_signal_data x x' :
  Notify.signaller_move data_ref dg d_same 1 x x' -> inv x -> consumer_move x x'.
Proof.
  intros Hm Hi. pose proof Hm as [(He & H1 & H2 & H3) Hst].
  apply consumer_slots; try done; [by eapply (signal_data_inv 1); [lia|..]|by apply Notify.still_env|by apply Hst|by rewrite H3].
Qed.
Lemma consumer_wait_data x x' :
  Notify.waiter_move data_ref dg d_same x x' -> inv x -> consumer_move x x'.
Proof.
  intros Hm Hi. pose proof Hm as [(He & H1 & H2 & H3) Hst].
  apply consumer_slots; try done; [by eapply wait_data_inv|by apply Notify.still_env| |by rewrite H3].
  by rewrite (Notify.ws_signallers _ _ _ _ _ _ Hst).
Qed.

Lemma consumer_owns_slots v c od os od' os' x x' :
  consumer_owns v c od os x -> inv x' -> data_eq x x' ->
  Notify.signallers (dg x'.2) !! 1 = od' -> Notify.signallers (sg x'.2) !! 1 = os' ->
  consumer_owns v c od' os' x'.
Proof.
  intros [] Hi' [] Hd Hs. split; try done; try congruence.
  destruct c; cbn [cknows] in *; unfold torn, saw in *; rewrite ?e_read0, ?e_write0, ?e_last0, ?e_ep0, ?e_got0, ?e_hist0; done.
Qed.

Lemma wp_consumer_signal_data v c st os Q x :
  consuming v c st (Some Notify.Owes) os x -> (forall x', consuming v c st None os x' -> Q tt x') ->
  wp (rely 1) (guar 1) (Notify.signal data_ref) Q x.
Proof.
  intros Hx HQ.
  apply (Notify.wp_signal _ _ _ _ _ d_in 1 (rely 1) (guar 1) (fun x => exists od, consuming v c st od os x)).
  - intros y y' Hm _ [od Hy]. pose proof (bip_consuming_stable _ _ _ _ _ _ _ Hy Hm) as Hy'.
    split; [apply Hy'|]. split; [by eexists|]. by rewrite (co_dsig _ _ _ _ _ (proj1 Hy)), (co_dsig _ _ _ _ _ (proj1 Hy')).
  - intros y y' Hm _ _ Hi. by apply consumer_signal_data.
  - intros y y' Hm Hsl [od (Hy & Hw)].
    pose proof (Notify.signaller_move_env _ _ _ _ _ _ _ Hm Hsl) as Henv. eexists. split; [|by eapply Notify.waiting_env].
    eapply consumer_owns_slots; [exact Hy|by eapply (signal_data_inv 1); [lia| |apply Hy]|apply Hm|done|].
    destruct Hm as [(_ & _ & _ & ->) _]. apply Hy.
  - apply Hx.
  - by eexists.
  - right. apply Hx.
  - intros x' (_ & [od Hx'] & Hod). apply HQ. by rewrite <-(co_dsig _ _ _ _ _ (proj1 Hx')), Hod in Hx'.
Qed.

Lemma wp_consumer_signal_space v c st od Q x :
  consuming v c st od (Some Notify.Owes) x -> (forall x', consuming v c st od None x' -> Q tt x') ->
  wp (rely 1) (guar 1) (Notify.signal space_ref) Q x.
Proof.
  intros Hx HQ.
  apply (Notify.wp_signal _ _ _ _ _ s_in 1 (rely 1) (guar 1) (fun x => exists os, consuming v c st od os x)).
  - intros y y' Hm _ [os Hy]. pose proof (bip_consuming_stable _ _ _ _ _ _ _ Hy Hm) as Hy'.
    split; [apply Hy'|]. split; [by eexists|]. by rewrite (co_ssig _ _ _ _ _ (proj1 Hy)), (co_ssig _ _ _ _ _ (proj1 Hy')).
  - intros y y' Hm _ _ Hi. by apply consumer_signal_space.
  - intros y y' Hm Hsl [os (Hy & Hw)]. pose proof Hm as [(He & H1 & H2 & H3) _]. eexists.
    split; [|by eapply Notify.waiting_same].
    eapply consumer_owns_slots; [exact Hy|by eapply (signal_space_inv 1); [lia| |apply Hy]|done| |done].
    rewrite H3. apply Hy.
  - apply Hx.
  - by eexists.
  - right. apply Hx.
  - intros x' (_ & [os Hx'] & Hos). apply HQ. by rewrite <-(co_ssig _ _ _ _ _ (proj1 Hx')), Hos in Hx'.
Qed.

Section waits.
Context (v : cview).
Abbreviation P := (consumer_owns v Nothing None None).

Lemma consumer_env y y' : rely 1 y y' -> d_slot y -> P y -> d_slot y' /\ P y' /\ Notify.waiter_env data_ref dg y y'.
Proof.
  intros Hm _ Hy. pose proof (Hm (co_inv _ _ _ _ _ Hy)) as Hm'.
  split_and!; [apply Hm'|by eapply consumer_owns_move|apply Hm'].
Qed.
Lemma consumer_own_move y y' : Notify.waiter_move data_ref dg d_same y y' -> d_slot y -> P y -> P y'.
Proof.
  intros Hm _ Hy. pose proof Hm as [(He & H1 & H2 & H3) Hst].
  eapply consumer_owns_slots; [exact Hy|by eapply wait_data_inv; [|apply Hy]|done| |rewrite H3; apply (co_ssig _ _ _ _ _ Hy)].
  rewrite (Notify.ws_signallers _ _ _ _ _ _ Hst). apply (co_dsig _ _ _ _ _ Hy).
Qed.

Lemma wp_consumer_arm k w Q x :
  consuming v Nothing (Notify.Out k) None None x ->
  (forall x', consuming v Nothing (Notify.Armed w k) None None x' -> Q tt x') ->
  wp (rely 1) (guar 1) (Notify.arm data_ref w) Q x.
Proof.
  intros (Hx & Hw) HQ.
  apply (Notify.wp_arm_waiting _ _ _ _ _ d_in (rely 1) (guar 1) P consumer_env) with (k := k); try done.
  - intros y y' Hm _ _ Hi. by apply consumer_wait_data.
  - apply consumer_own_move.
  - apply Hx.
  - intros x' _ Hx' Hw'. by apply HQ.
Qed.

Lemma wp_consumer_disarm k w Q x :
  consuming v Nothing (Notify.Armed w k) None None x ->
  (forall x', consuming v Nothing (Notify.Out k) None None x' -> Q tt x') ->
  wp (rely 1) (guar 1) (Notify.disarm data_ref) Q x.
Proof.
  intros (Hx & Hw) HQ.
  apply (Notify.wp_disarm_waiting _ _ _ _ _ d_in (rely 1) (guar 1) P consumer_env) with (k := k) (w := w); try done.
  - intros y y' Hm _ _ Hi. by apply consumer_wait_data.
  - apply consumer_own_move.
  - apply Hx.
  - intros x' _ Hx' Hw'. by apply HQ.
Qed.
End waits.

(** *** Looking for data *)
Lemma consumer_quiet v c st od os s g st' γ :
  consuming v c st od os (s, g) -> Notify.signallers γ = Notify.signallers (dg g) ->
  d_slot (s, put_dg γ g) -> Notify.waiting data_ref dg st' (s, put_dg γ g) ->
  guar 1 (s, g) (s, put_dg γ g) /\ consuming v c st' od os (s, put_dg γ g).
Proof.
  intros (Hx & Hw) Hsig Hsl Hw'. pose proof (co_inv _ _ _ _ _ Hx) as Hi.
  assert (inv (s, put_dg γ g)) as Hi'.
  { destruct Hi as [[] ? ? ? ?]. split; [by split|done|done| |done]. intros j Hj. simpl. rewrite Hsig. by apply bi_dids0. }
  split.
  - intros _. split; try done; [left; simpl; lia|]. simpl. by rewrite Hsig.
  - split; [|done]. destruct Hx. split; try done. simpl. by rewrite Hsig.
Qed.

Lemma consumer_look v c st od os s g :
  consuming v c st od os (s, g) ->
  exists g', guar 1 (s, g) (s, g') /\ consuming v c (Notify.up st) od os (s, g') /\ ep g' = ep g.
Proof.
  intros Hx. pose proof Hx as (Ho & Hw).
  destruct (Notify.waiting_up _ _ _ _ _ d_in st s g (bi_dslot _ (co_inv _ _ _ _ _ Ho)) Hw) as [Hsl [Hw' Hid]].
  exists (Notify.up_ghost dg put_dg g).
  destruct (consumer_quiet _ _ _ _ _ _ _ (Notify.up st) (Notify.set_waiter Notify.Idle (dg g)) Hx) as [? ?]; done.
Qed.

Lemma consumer_rest v c st od os s g :
  consuming v c st od os (s, g) -> ~ d_cond (s, g) ->
  exists g', guar 1 (s, g) (s, g') /\ consuming v c (Notify.rest st) od os (s, g').
Proof.
  intros Hx Hc. pose proof Hx as (Ho & Hw).
  destruct (Notify.waiting_rest _ _ _ _ _ d_in st s g (bi_dslot _ (co_inv _ _ _ _ _ Ho)) Hw) as [[Hsl Hw'] Hg].
  { intros γ Hd. by apply Hc. }
  destruct Hg as [Hg|[ph Hg]]; rewrite Hg in Hsl, Hw'.
  - exists g. split; [intros Hi; by apply bip_consumer_still|]. by split.
  - exists (put_dg (Notify.set_waiter ph (dg g)) g). by apply (consumer_quiet v c st).
Qed.
(** *** The seqlock

    Between its two loads of the epoch the consumer either sees one state of the
    cursors, or a reset has begun and the second load shows it. *)
Lemma epoch_parity e : (Z.land (wrap e) 1 =? 1)%Z = Z.odd e.
Proof.
  pose proof (land_wrap_mask e 1 ltac:(lia)) as Hm. change (2 ^ 1 - 1)%Z with 1%Z in Hm.
  rewrite Hm, Z.pow_1_r, Zmod_odd. by destruct (Z.odd e).
Qed.

Lemma torn_epoch e s g : core s g -> torn e (s, g) -> epoch s <> wrap e.
Proof.
  intros Hc Ht Heq. destruct (c_ep _ _ Hc) as [He _]. rewrite He in Heq. symmetry in Heq.
  unfold torn in Ht. simpl in Ht. apply wrap_inj in Heq; unfold word_modulus; lia.
Qed.

Lemma consuming_info v c st od os c' x : consuming v c st od os x -> cknows c' x -> consuming v c' st od os x.
Proof. intros [[] Hw] Hc. by split. Qed.

Lemma up_up st : Notify.up (Notify.up st) = Notify.up st.
Proof. by destruct st. Qed.
Lemma up_rest st : Notify.up (Notify.rest (Notify.up st)) = Notify.up st.
Proof. by destruct st. Qed.

(** After the load of the write cursor; [F] is what the later loads gave. *)
Definition peek (F : Prop) (v : cview) (e w r l n : Z) (st : Notify.Waiting) (x : config) : Prop :=
  F /\ saw e w r l n x /\
    consuming v Nothing (if (n =? 0)%Z then Notify.rest (Notify.up st) else Notify.up st) None None x \/
  exists st', Notify.up st' = Notify.up st /\ consuming v (Torn e) st' None None x.

Lemma peek_stable F v e w r l n st : Z.odd e = false -> stable (rely 1) (peek F v e w r l n st).
Proof.
  intros Hev x x' [(HF & Hs & Hx)|(st' & Hup & Hx)] Hm.
  - pose proof (Hm (co_inv _ _ _ _ _ (proj1 Hx))) as Hm'. pose proof (bip_consuming_stable _ _ _ _ _ _ _ Hx Hm) as Hx'.
    destruct (saw_move _ _ _ _ _ _ _ Hev Hs Hm') as [Hs'|[Ht _]]; [by left|]. right. eexists. split; [|by eapply consuming_info].
    destruct (n =? 0)%Z; [apply up_rest|apply up_up].
  - right. exists st'. split; [done|]. by eapply bip_consuming_stable.
Qed.

Lemma peek_load {A B} F (G : A -> Prop) v e w r l n st (f : Inner -> A) (k : A -> prog Inner B) Q x :
  Z.odd e = false -> peek F v e w r l n st x -> (forall y, saw e w r l n y -> G (f y.1)) ->
  (forall a x', peek (F /\ G a) v e w r l n st x' -> wp (rely 1) (guar 1) (k a) Q x') ->
  wp (rely 1) (guar 1) (b ← load f; k b) Q x.
Proof.
  intros Hev Hx HG Hk. eapply wp_act; [by apply peek_stable|exact Hx|]. intros s g Hy.
  exists s, (f s), g. split; [done|]. split; [intros Hi; by apply bip_consumer_still|]. apply Hk.
  destruct Hy as [(HF & Hs & Hy)|Hy]; [left|by right]. split_and!; [done|by apply (HG _ Hs)|done|done].
Qed.

(** The load of the write cursor; it parks when nothing is unread. *)
Lemma peek_start v e st s g :
  consuming v (Since e) (Notify.up st) None None (s, g) ->
  exists g' r l n, guar 1 (s, g) (s, g') /\ peek True v e (write s) r l n st (s, g').
Proof.
  intros Hx. pose proof Hx as (Ho & Hw). destruct (co_info _ _ _ _ _ Ho) as [Hev Hep]. simpl in Hep.
  pose proof (bi_core _ (co_inv _ _ _ _ _ Ho)) as Hc. simpl in Hc.
  destruct Hep as [Hep|Ht]; cycle 1.
  { exists g, 0%Z, 0%Z, 0%Z. split; [intros Hi; by apply bip_consumer_still|]. right. exists (Notify.up st).
    split; [apply up_up|]. by eapply consuming_info. }
  rewrite <-Hep in Hev. destruct (c_data _ _ Hc) as (d & Hd & Hlay). destruct (Hlay Hev) as [Hu Hrl].
  pose proof (c_geom _ _ Hc) as Hgeo. pose proof (Buffer.owns_cap _ _ _ Hd) as Hcap. pose proof (c_got _ _ Hc) as Hgot. simpl in Hcap.
  pose proof (length_unread (read s) (write s) (last s) d) as Hlen. rewrite Hu, length_drop in Hlen.
  set (n := (if write s <? read s then (last s - read s) + write s else write s - read s)%Z) in *.
  assert (forall g', ep g' = e -> saw e (write s) (read s) (last s) n (s, g')) as Hsaw.
  { intros g' He. split; [done|]. split; [done|]. unfold n, contig. simpl. destruct (write s <? read s)%Z eqn:E; bool_props; lia. }
  assert (n = Z.of_nat (length (hist g) - got g)) as Hn by (symmetry; apply Hlen; lia || done). clearbody n.
  destruct (decide (length (hist g) = got g)) as [Heq|Hne]; [|exists g, (read s), (last s), n].
  - destruct (Notify.waiting_rest _ _ _ _ _ d_in (Notify.up st) s g (bi_dslot _ (co_inv _ _ _ _ _ Ho)) Hw) as [[Hsl Hw'] Hg].
    { intros γ [Hlt _]. simpl in Hlt. lia. }
    assert (exists γ, Notify.rest_ghost dg put_dg (Notify.up st) g = put_dg γ g /\ Notify.signallers γ = Notify.signallers (dg g)) as (γ & Hγ & Hsig).
    { destruct Hg as [->|[ph ->]]; [exists (dg g); by destruct g|by eexists]. }
    rewrite Hγ in *. destruct (consumer_quiet _ _ _ _ _ _ _ _ γ Hx Hsig Hsl Hw') as [Hgu Hx'].
    exists (put_dg γ g), (read s), (last s), n. split; [exact Hgu|]. left.
    split_and!; [done|by apply Hsaw|]. rewrite (proj2 (Z.eqb_eq _ _)) by lia. by eapply consuming_info.
  - split; [intros Hi; by apply bip_consumer_still|]. left. split_and!; [done|by apply Hsaw|].
    rewrite (proj2 (Z.eqb_neq _ _)) by lia. by eapply consuming_info.
Qed.

(** The result of the loop. *)
Definition cursors_read (v : cview) (st : Notify.Waiting) (w r la : Z) (x : config) : Prop :=
  w = r /\ consuming v Nothing (Notify.rest (Notify.up st)) None None x \/
  exists e l n, (w < r -> la = l)%Z /\
    consuming v (Sure e w r l n) (if (n =? 0)%Z then Notify.rest (Notify.up st) else Notify.up st) None None x.

Lemma cursors_read_stable v st w r la : stable (rely 1) (cursors_read v st w r la).
Proof.
  intros x x' [[? Hx]|(e & l & n & ? & Hx)] Hm.
  - left. split; [done|]. by eapply bip_consuming_stable.
  - right. exists e, l, n. split; [done|]. by eapply bip_consuming_stable.
Qed.

Lemma wp_read_cursors fuel v st st' Q x :
  Notify.up st' = Notify.up st -> consuming v Nothing st' None None x ->
  (forall st'' x', consuming v Nothing st'' None None x' -> Q None x') ->
  (forall w r la x', cursors_read v st w r la x' -> Q (Some (w, r, la)) x') ->
  wp (rely 1) (guar 1) (read_cursors fuel) Q x.
Proof.
  intros Hup Hx HN HS. revert st' x Hup Hx. induction fuel as [|fuel IH]; intros st' x Hup Hx; cbn [read_cursors].
  { eapply wp_ret; [apply bip_consuming_stable|exact Hx|]. by apply HN. }
  eapply wp_act; [apply bip_consuming_stable|exact Hx|]. clear x Hx. intros s g Hx.
  pose proof (bi_core _ (co_inv _ _ _ _ _ (proj1 Hx))) as Hc. destruct (c_ep _ _ Hc) as [He _]. simpl in He.
  destruct (Z.odd (ep g)) eqn:Hodd.
  { exists s, (epoch s), g. split; [done|]. split; [intros Hi; by apply bip_consumer_still|]. cbn beta.
    rewrite He, epoch_parity, Hodd. by apply (IH st'). }
  destruct (consumer_look _ _ _ _ _ _ _ Hx) as (g' & Hg & Hx' & Hep). rewrite Hup in Hx'.
  exists s, (epoch s), g'. split; [done|]. split; [exact Hg|]. cbn beta. rewrite He, epoch_parity, Hodd.
  set (e := ep g) in *. assert (consuming v (Since e) (Notify.up st) None None (s, g')) as Hx1.
  { eapply consuming_info; [exact Hx'|]. split; [done|]. by left. }
  clearbody e. clear Hx Hx' Hg Hc Hep He Hup.
  eapply wp_act; [apply bip_consuming_stable|exact Hx1|]. clear s g g' Hx1. intros s g Hx.
  destruct (peek_start _ _ _ _ _ Hx) as (g' & r & l & n & Hg & Hp). exists s, (write s), g'. split; [done|]. split; [exact Hg|].
  revert Hp. generalize (write s). intros w Hp. eapply (peek_load _ (fun a => a = r)); [done|exact Hp|by intros y (_ & -> & _)|].
  clear s g g' Hx Hg Hp. intros rd x Hp. eapply (peek_load _ (fun a => w < r -> a = l)%Z); [done|exact Hp| |].
  { intros y (_ & _ & Hs) Hlt. rewrite (proj2 (Z.ltb_lt _ _) Hlt) in Hs. apply Hs. }
  clear x Hp. intros la x Hp. eapply wp_act; [by apply (peek_stable ((True /\ rd = r) /\ (w < r -> la = l)%Z) v e w r l n st)|exact Hp|]. clear x Hp. intros s g Hp.
  exists s, (epoch s), g. split; [done|]. split; [intros Hi; by apply bip_consumer_still|]. cbn beta.
  destruct Hp as [(((_ & ->) & Hla) & Hs & Hx)|(st'' & Hup & Hx)].
  - pose proof (bi_core _ (co_inv _ _ _ _ _ (proj1 Hx))) as Hc. destruct (c_ep _ _ Hc) as [He _]. pose proof Hs as (Hep & _). simpl in He, Hep.
    rewrite He, Hep, Z.eqb_refl. eapply wp_ret; [apply cursors_read_stable| |by apply HS].
    destruct (decide (0 < n \/ w < r)%Z) as [Hpos|Hz].
    + right. exists e, l, n. split; [done|]. eapply consuming_info; [exact Hx|]. by split_and!.
    + left. destruct Hs as (_ & _ & Hs). unfold contig in Hs. rewrite (proj2 (Z.ltb_ge w r)) in Hs by lia.
      assert (n = 0)%Z as -> by lia. split; [lia|]. done.
  - pose proof (bi_core _ (co_inv _ _ _ _ _ (proj1 Hx))) as Hc. destruct (co_info _ _ _ _ _ (proj1 Hx)) as [_ Ht].
    rewrite (proj2 (Z.eqb_neq (epoch s) _) (torn_epoch e s g Hc Ht)). eapply IH; [exact Hup|]. by eapply consuming_info.
Qed.
(** *** Taking the readable region *)
Lemma consumer_look_rest v c st od os s g :
  consuming v c st od os (s, g) -> ~ d_cond (s, g) ->
  exists g', guar 1 (s, g) (s, g') /\ consuming v c (Notify.rest (Notify.up st)) od os (s, g').
Proof.
  intros Hx Hc. pose proof Hx as (Ho & Hw).
  destruct (Notify.waiting_up _ _ _ _ _ d_in st s g (bi_dslot _ (co_inv _ _ _ _ _ Ho)) Hw) as [Hsl [Hw' Hid]].
  set (g1 := Notify.up_ghost dg put_dg g) in *.
  destruct (Notify.waiting_rest _ _ _ _ _ d_in (Notify.up st) s g1 Hsl Hw') as [[Hsl2 Hw2] Hg].
  { intros γ Hd. by apply Hc. }
  destruct Hg as [Hg|[ph Hg]]; rewrite Hg in Hsl2, Hw2.
  - exists g1. by apply (consumer_quiet v c st).
  - exists (put_dg (Notify.set_waiter ph (dg g1)) g). by apply (consumer_quiet v c st).
Qed.

Definition put_rgrant (o : option (Z * Z)) (t : bip_ghost) : bip_ghost :=
  mkBG (hist t) (got t) (ep t) (wgrant t) o (want t) (dg t) (sg t).
Definition wrap_ghost (t : bip_ghost) : bip_ghost :=
  mkBG (hist t) (got t) (ep t) (wgrant t) (rgrant t) (want t) (dg t) (owes 1 (sg t)).

(** The consumer follows the producer to the head. *)
Lemma acts_wrap v e w l n s g :
  consumer_owns v (Sure e w l l n) None None (s, g) -> (w < l)%Z -> cv_grant v = None ->
  consumer_acts s g (set_read 0 s) (wrap_ghost g).
Proof.
  intros Ho Hwl Hng. destruct (co_info _ _ _ _ _ Ho) as (Hev & _ & He & Hr & Hs). rewrite (proj2 (Z.ltb_lt _ _) Hwl) in Hs.
  destruct Hs as (Hw & Hla & _ & Hn). pose proof (co_grant _ _ _ _ _ Ho) as Hg. pose proof (co_ssig _ _ _ _ _ Ho) as Hss.
  pose proof (bi_core _ (co_inv _ _ _ _ _ Ho)) as Hc. simpl in *. rewrite Hng in Hg. pose proof (c_geom _ _ Hc) as Hgeo.
  destruct Hc. split; try done; simpl.
  - split; try done; simpl; [lia| | |by rewrite Hg].
    + destruct c_data0 as (d & Hd & Hlay). exists d. split; [done|]. intros Hev'. destruct (Hlay Hev') as [Hu _].
      unfold layout. simpl. split; [|lia]. rewrite <-Hu, Hla, Hr. apply wrap_unread. lia.
    + intros a m Hwg. destruct (c_w0 a m Hwg) as [? ?]. split; [done|]. left. lia.
  - right. lia.
  - by rewrite He, Hev.
  - left. split; [done|]. by right.
  - right. split; [done|]. by left.
Qed.

Lemma acts_take v r n od os s g :
  consumer_owns v (Ready_at r n) od os (s, g) -> cv_borrow v = None ->
  consumer_acts s g (set_rip true s) (put_rgrant (Some (r, n)) g).
Proof.
  intros Ho Hnb. destruct (co_info _ _ _ _ _ Ho) as (Hev & Hr & Hn). pose proof (co_borrow _ _ _ _ _ Ho) as Hb.
  pose proof (bi_core _ (co_inv _ _ _ _ _ Ho)) as Hc. simpl in *. destruct Hc. split; try done; simpl.
  - split; try done; simpl; [by rewrite Hev|by intros a m [= <- <-]|congruence].
  - left. lia.
  - left. split; [done|]. right. by intros [_ ?].
  - left. split; [done|]. by right.
Qed.

Definition csettled (v : cview) (held : option ReadGrant) : Prop :=
  cv_borrow v = None /\
  match held with
  | None => cv_rip v = false /\ cv_grant v = None
  | Some g => cv_rip v = true /\ cv_grant v = Some (rg_start g, rg_len g) /\ rg_handed_back g = false
  end.

Ltac cowns_step H :=
  destruct H; split; try done; try (simpl in *; congruence).

(** The end of [try_read], once the region is known to be readable. *)
Lemma wp_take_readable v r n st Q x :
  consuming v (Ready_at r n) st None None x -> csettled v None ->
  (forall x', consuming (mkCV (cv_recv v) true (Some (r, n)) None) Nothing st None None x' -> Q (Some (Some (r, n))) x') ->
  wp (rely 1) (guar 1) (_ ← store (set_rip true); Ret (Some (Some (r, n)))) Q x.
Proof.
  intros Hx (Hnb & Hrip & Hng) HQ.
  eapply (wp_consumer_store _ _ _ _ _ (mkCV (cv_recv v) true (Some (r, n)) None) Nothing); [exact Hx| |].
  { intros s g [Ho _]. exists (put_rgrant (Some (r, n)) g). split; [by eapply acts_take|]. intros Hi'. cowns_step Ho. }
  clear x Hx. intros x Hx. eapply wp_ret; [apply bip_consuming_stable|exact Hx|done].
Qed.

Lemma wp_read_some v r n e st Q x :
  consuming v (Ready_at r n) st None None x -> csettled v None -> e = (r + n)%Z ->
  (forall x', consuming (mkCV (cv_recv v) true (Some (r, n)) None) Nothing st None None x' -> Q (Some (Some (r, n))) x') ->
  wp (rely 1) (guar 1) (len ← local (sub_usize e r);
    if (len =? 0)%Z then Ret (Some None) else (_ ← store (set_rip true); Ret (Some (Some (r, len))))) Q x.
Proof.
  intros Hx Hset -> HQ. assert (0 < n)%Z as Hn by apply (co_info _ _ _ _ _ (proj1 Hx)).
  eapply (wp_consumer_local _ _ _ _ _ _ n); [exact Hx| |].
  { unfold sub_usize. rewrite (proj2 (Z.leb_le _ _)) by lia. f_equal. lia. }
  clear x Hx. intros x Hx. rewrite (proj2 (Z.eqb_neq _ _)) by lia. by eapply wp_take_readable.
Qed.

Lemma wp_read_none v c r st Q x :
  consuming v c st None None x -> (forall x', consuming v c st None None x' -> Q (Some None) x') ->
  wp (rely 1) (guar 1) (len ← local (sub_usize r r);
    if (len =? 0)%Z then Ret (Some None) else (_ ← store (set_rip true); Ret (Some (Some (r, len))))) Q x.
Proof.
  intros Hx HQ. eapply (wp_consumer_local _ _ _ _ _ _ 0%Z); [exact Hx|unfold sub_usize; by rewrite Z.leb_refl, Z.sub_diag|].
  clear x Hx. intros x Hx. eapply wp_ret; [apply bip_consuming_stable|exact Hx|done].
Qed.

(** Once the cursors are known: wrap if the upper region is used up, then take
    what is readable. *)
Lemma wp_read_sure v e w r l la n st0 st1 Q x :
  consuming v (Sure e w r l n) (if (n =? 0)%Z then st0 else st1) None None x -> (w < r -> la = l)%Z -> csettled v None ->
  (forall x', consuming v Nothing st0 None None x' -> Q (Some None) x') ->
  (forall r n x', consuming (mkCV (cv_recv v) true (Some (r, n)) None) Nothing st1 None None x' -> Q (Some (Some (r, n))) x') ->
  wp (rely 1) (guar 1)
    (rd ← (if ((w <? r) && (r =? la))%Z then _ ← store (set_read 0); _ ← Notify.signal space_ref; Ret 0%Z else Ret r);
     let avail_end := if (w <? rd)%Z then la else w in
     len ← local (sub_usize avail_end rd);
     if (len =? 0)%Z then Ret (Some None) else (_ ← store (set_rip true); Ret (Some (Some (rd, len))))) Q x.
Proof.
  intros Hx Hla Hset HN HS. destruct (co_info _ _ _ _ _ (proj1 Hx)) as (Hev & Hpos & He & Hr & Hs).
  destruct (w <? r)%Z eqn:E; bool_props; cbn [andb].
  - rewrite (Hla E) in *. destruct Hs as (Hw & Hl & Hrl & Hn & Hw0). destruct (r =? l)%Z eqn:Erl; bool_props.
    + rewrite Erl in *. clear r Erl. assert (n = w) as Hnw by lia. apply wp_bind.
      eapply (wp_consumer_store _ _ _ _ _ v (if (w =? 0)%Z then Nothing else Ready_at 0 w) None (Some Notify.Owes)); [exact Hx| |].
      { intros s g [Ho _]. exists (wrap_ghost g). split; [eapply acts_wrap; [exact Ho|done|apply Hset]|]. intros Hi'.
        destruct (co_info _ _ _ _ _ Ho) as (_ & _ & He' & Hr' & Hs'). rewrite (proj2 (Z.ltb_lt _ _) E) in Hs'. simpl in He', Hr', Hs'.
        cowns_step Ho; [|apply Notify.phase_eq]. destruct (w =? 0)%Z eqn:Ew; bool_props; [done|].
        simpl. unfold contig. rewrite He', (proj2 (Z.ltb_ge (write s) 0)) by lia. split_and!; [done|done|lia|lia]. }
      clear x Hx He Hr Hw Hl. intros x Hx. apply wp_bind. eapply wp_consumer_signal_space; [exact Hx|]. clear x Hx. intros x Hx.
      eapply wp_ret; [apply bip_consuming_stable|exact Hx|]. clear x Hx. intros x Hx. cbn zeta. rewrite (proj2 (Z.ltb_ge w 0)) by lia.
      rewrite Hnw in Hx. destruct (w =? 0)%Z eqn:Ew; bool_props.
      * rewrite Ew. eapply wp_read_none; [exact Hx|done].
      * eapply (wp_read_some v 0 w); [exact Hx|done|lia|]. apply HS.
    + change (wp (rely 1) (guar 1) (let avail_end := if (w <? r)%Z then l else w in len ← local (sub_usize avail_end r);
        if (len =? 0)%Z then Ret (Some None) else (_ ← store (set_rip true); Ret (Some (Some (r, len))))) Q x).
      cbn zeta. rewrite (proj2 (Z.ltb_lt _ _) E). rewrite (proj2 (Z.eqb_neq n 0)) in Hx by lia.
      eapply (wp_read_some v r (l - r)); [|done|lia|apply HS]. eapply consuming_info; [exact Hx|].
      split_and!; [by rewrite He|done|lia|]. rewrite Hr, Hl. unfold contig. rewrite (proj2 (Z.ltb_lt _ _)); lia.
  - destruct Hs as [Hn Hc]. rewrite (proj2 (Z.eqb_neq n 0)) in Hx by lia.
    change (wp (rely 1) (guar 1) (let avail_end := if (w <? r)%Z then la else w in len ← local (sub_usize avail_end r);
        if (len =? 0)%Z then Ret (Some None) else (_ ← store (set_rip true); Ret (Some (Some (r, len))))) Q x).
    cbn zeta. rewrite (proj2 (Z.ltb_ge _ _) E).
    eapply (wp_read_some v r n); [|done|lia|apply HS]. eapply consuming_info; [exact Hx|].
    split_and!; [by rewrite He|done|lia|]. by rewrite Hr.
Qed.

Lemma wp_inner_try_read fuel v held st Q x :
  consuming v Nothing st None None x -> csettled v held ->
  (forall st' x', consuming v Nothing st' None None x' -> Q None x') ->
  (forall x', consuming v Nothing (Notify.rest (Notify.up st)) None None x' -> Q (Some None) x') ->
  (forall r n x', consuming (mkCV (cv_recv v) true (Some (r, n)) None) Nothing (Notify.up st) None None x' -> held = None ->
    Q (Some (Some (r, n))) x') ->
  wp (rely 1) (guar 1) (inner_try_read fuel) Q x.
Proof.
  intros Hx Hset HSp HN HS. unfold inner_try_read. eapply wp_act; [apply bip_consuming_stable|exact Hx|]. clear x Hx. intros s g Hx.
  pose proof (co_rip _ _ _ _ _ (proj1 Hx)) as Hrip. simpl in Hrip. destruct (cv_rip v) eqn:Hr.
  { destruct (consumer_look_rest _ _ _ _ _ _ _ Hx) as (g' & Hg & Hx'); [intros [_ ?]; simpl in *; congruence|].
    exists s, true, g'. split; [by rewrite Hrip|]. split; [exact Hg|]. eapply wp_ret; [apply bip_consuming_stable|exact Hx'|done]. }
  destruct held as [?|]; [destruct Hset as (_ & ? & _); congruence|]. pose proof Hset as (_ & _ & Hng).
  exists s, false, g. split; [by rewrite Hrip|]. split; [intros Hi; by apply bip_consumer_still|]. apply wp_bind.
  eapply (wp_read_cursors fuel v st st); [done|exact Hx| |]; clear s g Hx Hrip.
  { intros st'' x Hx. eapply wp_ret; [apply bip_consuming_stable|exact Hx|]. by apply HSp. }
  intros w r la x [[-> Hx]|(e & l & n & Hla & Hx)].
  { change (wp (rely 1) (guar 1) (rd ← (if ((r <? r) && (r =? la))%Z then _ ← store (set_read 0); _ ← Notify.signal space_ref; Ret 0%Z else Ret r);
      let avail_end := if (r <? rd)%Z then la else r in len ← local (sub_usize avail_end rd);
      if (len =? 0)%Z then Ret (Some None) else (_ ← store (set_rip true); Ret (Some (Some (rd, len))))) Q x).
    rewrite Z.ltb_irrefl. cbn [andb]. apply wp_bind. eapply wp_ret; [apply bip_consuming_stable|exact Hx|]. clear x Hx. intros x Hx.
    cbn zeta. rewrite Z.ltb_irrefl. eapply wp_read_none; [exact Hx|done]. }
  eapply wp_read_sure; [exact Hx|done|done|done|]. intros r' n' x' Hx'. by apply HS.
Qed.
Definition read_view (v : cview) (r n : Z) : cview := mkCV (cv_recv v) true (Some (r, n)) None.

Lemma wp_try_read fuel v held st Q x :
  consuming v Nothing st None None x -> csettled v held ->
  (forall st' x', consuming v Nothing st' None None x' -> Q None x') ->
  (forall x', consuming v Nothing (Notify.rest (Notify.up st)) None None x' -> Q (Some None) x') ->
  (forall r n x', consuming (read_view v r n) Nothing (Notify.up st) None None x' -> held = None ->
    Q (Some (Some (mkRG r n false))) x') ->
  wp (rely 1) (guar 1) (try_read fuel) Q x.
Proof.
  intros Hx Hset HSp HN HS. apply wp_bind. eapply wp_inner_try_read; [exact Hx|exact Hset|..].
  - intros st' x' Hx'. eapply wp_ret; [apply bip_consuming_stable|exact Hx'|]. by apply HSp.
  - intros x' Hx'. eapply wp_ret; [apply bip_consuming_stable|exact Hx'|done].
  - intros r n x' Hx' Hh. eapply wp_ret; [apply bip_consuming_stable|exact Hx'|]. intros x2 Hx2. by apply HS.
Qed.

Lemma wp_poll_read fuel v held k w Q x :
  consuming v Nothing (Notify.Out k) None None x -> csettled v held ->
  (forall st' x', consuming v Nothing st' None None x' -> Q None x') ->
  (forall x', consuming v Nothing (Notify.Resting w k) None None x' -> Q (Some Pending) x') ->
  (forall r n x', consuming (read_view v r n) Nothing (Notify.Out k) None None x' -> held = None ->
    Q (Some (Ready (mkRG r n false))) x') ->
  wp (rely 1) (guar 1) (poll_read fuel w) Q x.
Proof.
  intros Hx Hset HSp HP HR. apply wp_bind. eapply wp_try_read; [exact Hx|exact Hset|..]; cbn [Notify.up Notify.rest].
  - intros st' x' Hx'. eapply wp_ret; [apply bip_consuming_stable|exact Hx'|]. by apply HSp.
  - clear x Hx. intros x Hx. apply wp_bind. eapply wp_consumer_arm; [exact Hx|]. clear x Hx. intros x Hx. apply wp_bind.
    eapply wp_try_read; [exact Hx|exact Hset|..]; cbn [Notify.up Notify.rest].
    + intros st' x' Hx'. eapply wp_ret; [apply bip_consuming_stable|exact Hx'|]. by apply HSp.
    + intros x' Hx'. eapply wp_ret; [apply bip_consuming_stable|exact Hx'|done].
    + clear x Hx. intros r n x Hx Hh. apply wp_bind. eapply wp_consumer_disarm; [exact Hx|]. intros x' Hx'.
      eapply wp_ret; [apply bip_consuming_stable|exact Hx'|]. intros x2 Hx2. by apply HR.
  - intros r n x' Hx' Hh. eapply wp_ret; [apply bip_consuming_stable|exact Hx'|]. intros x2 Hx2. by apply HR.
Qed.

Definition r_parked (st : Notify.Waiting) (pk : r_parking) : Prop :=
  forall w k, pk = Some (w, k) -> st = Notify.Resting w k.

Definition consumer_rests (held : option ReadGrant) (acc : list byte) (pk : r_parking) (x : config) : Prop :=
  exists v st, consuming v Nothing st None None x /\ csettled v held /\ r_parked st pk /\ cv_recv v = acc.

Lemma consumer_rests_stable held acc pk : stable (rely 1) (consumer_rests held acc pk).
Proof.
  intros x x' (v & st & Hx & ?) Hm. exists v, st. split; [|done]. by eapply bip_consuming_stable.
Qed.

Lemma wp_consumer_mark {B} v c st od os (kont : nat -> prog Inner B) Q x :
  consuming v c st od os x ->
  (forall k x', consuming v c (Notify.Out k) od os x' -> wp (rely 1) (guar 1) (kont k) Q x') ->
  wp (rely 1) (guar 1) (k ← load (fun s => length (data_log s)); kont k) Q x.
Proof.
  intros Hx Hk. eapply wp_act; [apply bip_consuming_stable|exact Hx|]. intros s g (Ho & Hw).
  exists s, (length (data_log s)), g. split; [done|]. split; [intros Hi; by apply bip_consumer_still|]. apply Hk.
  split; [done|]. eapply Notify.waiting_out; [apply Ho|exact Hw|done].
Qed.

Lemma wp_drive_read fuel ws held acc pk Q x :
  consumer_rests held acc pk x -> (forall x', Q None x') ->
  (forall held' r pk' x', consumer_rests held' acc pk' x' -> keep_grant held r = Done held' -> Q (Some (r, pk')) x') ->
  wp (rely 1) (guar 1) (drive_read fuel ws pk) Q x.
Proof.
  intros Hx HSp HQ. revert pk x Hx. induction ws as [|w ws IH]; intros pk x Hx; cbn [drive_read].
  { eapply wp_ret; [apply consumer_rests_stable|exact Hx|]. intros x' Hx'. eapply HQ; [exact Hx'|by destruct held]. }
  destruct Hx as (v & st & Hx & Hset & _ & Hacc).
  eapply wp_consumer_mark; [exact Hx|]. clear x Hx. intros k x Hx. apply wp_bind.
  eapply wp_poll_read; [exact Hx|exact Hset|..].
  - intros st' x' Hx'. by intros x2 _.
  - intros x' Hx'. apply IH. exists v, (Notify.Resting w k). split_and!; [done|done| |done]. by intros w' k' [= <- <-].
  - intros r n x' Hx' ->. assert (consumer_rests (Some (mkRG r n false)) acc None x') as Hr.
    { exists (read_view v r n), (Notify.Out k). by split_and!. }
    eapply wp_ret; [apply consumer_rests_stable|exact Hr|]. intros x2 Hx2. by eapply HQ.
Qed.

(** *** The consumer's slice *)
Definition cborrow_view (v : cview) (o : option (Z * Z)) : cview := mkCV (cv_recv v) (cv_rip v) (cv_grant v) o.

(** A consumer step that leaves everything but its borrow alone. *)
Lemma acts_borrow s g o :
  core s g -> (forall r, o = Some r -> rgrant g = Some r) -> consumer_acts s g (set_r_borrow o s) g.
Proof.
  intros [] Hb. split; try done; simpl.
  - left. lia.
  - left. split; [done|]. by right.
  - left. split; [done|]. by right.
Qed.

Lemma read_granted v c od os w s g :
  consumer_owns v c od os (s, g) -> cv_grant v = Some (rg_start w, rg_len w) ->
  core s g /\ rgrant g = Some (rg_start w, rg_len w) /\ rg_start w = read s /\
  (0 < rg_len w <= contig (read s) (write s) (last s))%Z /\ Z.odd (ep g) = false /\
  (contig (read s) (write s) (last s) <= cap)%Z /\
  exists bs, region s (rg_start w) (rg_len w) = Done bs /\ bs `prefix_of` drop (got g) (hist g) /\
    Z.of_nat (length bs) = rg_len w /\
    (forall a n, wgrant g = Some (a, n) -> overlaps (rg_start w, rg_len w) (Some (a, n)) = false).
Proof.
  intros Ho Hg. pose proof (bi_core _ (co_inv _ _ _ _ _ Ho)) as Hc. pose proof (co_grant _ _ _ _ _ Ho) as Hgr. simpl in Hc, Hgr.
  rewrite Hg in Hgr. destruct (c_r _ _ Hc _ _ Hgr) as [Ha Hn].
  assert (Z.odd (ep g) = false) as Hev. { destruct (Z.odd (ep g)) eqn:E; [|done]. destruct (c_odd _ _ Hc E) as (_ & _ & ?). congruence. }
  destruct (c_data _ _ Hc) as (d & Hd & Hlay). destruct (Hlay Hev) as [Hu Hrl]. pose proof (c_geom _ _ Hc) as Hgeo.
  pose proof (Buffer.owns_cap _ _ _ Hd) as Hlen. simpl in Hlen.
  assert (read s + contig (read s) (write s) (last s) <= cap)%Z as Hcap.
  { unfold contig. destruct (_ <? _)%Z; lia. }
  split_and!; try done; try lia. exists (sub (rg_start w) (rg_len w) d). split_and!.
  - apply region_owns; [apply Hc|done|lia..].
  - rewrite Ha, (unread_first _ (write s) (last s)), Hu by lia. apply prefix_take.
  - rewrite length_sub by lia. done.
  - intros a n Hw. rewrite Ha. apply (proj2 (grants_disjoint _ _ _ _ _ _ (c_w _ _ Hc _ _ Hw) (proj2 Hn))).
Qed.

Lemma wp_as_slice v st w Q x :
  consuming v Nothing st None None x -> csettled v (Some w) ->
  (forall bs x', consuming v (Has bs) st None None x' -> Z.of_nat (length bs) = rg_len w -> Q bs x') ->
  wp (rely 1) (guar 1) (as_slice w) Q x.
Proof.
  intros Hx (Hnb & Hr & Hg & _) HQ. unfold as_slice. set (r := (rg_start w, rg_len w)) in *.
  eapply wp_act; [apply bip_consuming_stable|exact Hx|]. clear x Hx. intros s g Hx. pose proof Hx as (Ho & _).
  destruct (read_granted _ _ _ _ _ _ _ Ho Hg) as (Hc & Hgr & _ & _ & _ & _ & bs & -> & _ & _ & Hov). outcome_simpl.
  assert (overlaps r (w_borrow s) = false) as ->.
  { destruct (w_borrow s) as [[a n]|] eqn:Hb; [|done]. by apply Hov, (c_wb _ _ Hc). }
  destruct (consuming_acts _ _ _ _ _ s g (set_r_borrow (Some r) s) g (cborrow_view v (Some r)) Nothing None None Hx) as [Hg1 Hx1];
    [apply acts_borrow; [done|by intros r' [= <-]]|by intros Hi'; cowns_step Ho|].
  eexists _, tt, g. split; [done|]. split; [exact Hg1|].
  eapply wp_act; [apply bip_consuming_stable|exact Hx1|]. clear s g Hx Ho Hc Hgr bs Hov Hg1 Hx1. intros s g Hx. pose proof Hx as (Ho & Hw).
  destruct (read_granted _ _ _ _ _ _ _ Ho Hg) as (Hc & Hgr & _ & _ & _ & _ & bs & -> & Hpre & Hlen & _). outcome_simpl.
  exists s, bs, g. split; [done|]. split; [intros Hi; by apply bip_consumer_still|].
  eapply (wp_consumer_store _ _ _ _ _ v (Has bs) None None); [eapply (consuming_info _ _ _ _ _ (Has bs)); [exact Hx|exact Hpre]| |].
  { clear s g Hx Ho Hw Hc Hgr Hpre. intros s g [Ho _]. exists g. split; [by apply acts_borrow; [apply Ho|]|]. intros Hi'. cowns_step Ho. }
  intros x' Hx'. eapply wp_ret; [apply bip_consuming_stable|exact Hx'|]. intros x2 Hx2. by apply HQ.
Qed.
(** *** Releasing *)
Definition release_ghost (k : nat) (t : bip_ghost) : bip_ghost :=
  mkBG (hist t) (got t + k) (ep t) (wgrant t) None (want t) (dg t) (owes 1 (sg t)).
Definition unrip_ghost (t : bip_ghost) : bip_ghost :=
  mkBG (hist t) (got t) (ep t) (wgrant t) None (want t) (owes 1 (dg t)) (sg t).

Lemma grant_released r w l a n k :
  grant_ok r w a n -> (0 <= k <= contig r w l)%Z -> grant_ok (r + k) w a n.
Proof.
  intros [Hn Hg] Hk. split; [done|]. unfold contig in Hk. destruct (w <? r)%Z eqn:E; bool_props; lia.
Qed.

Lemma acts_release v bs w k s g :
  consumer_owns v (Has bs) None None (s, g) -> csettled v (Some w) -> Z.of_nat (length bs) = rg_len w -> (0 <= k <= rg_len w)%Z ->
  consumer_acts s g (set_read (rg_start w + k) s) (release_ghost (Z.to_nat k) g).
Proof.
  intros Ho (Hnb & Hr & Hg & _) Hlen Hk.
  destruct (read_granted _ _ _ _ _ _ _ Ho Hg) as (Hc & Hgr & Ha & Hn & Hev & _ & _). rewrite Ha.
  destruct (co_info _ _ _ _ _ Ho) as [tl Hpre]. pose proof (co_rip _ _ _ _ _ Ho) as Hrip. pose proof (co_ssig _ _ _ _ _ Ho) as Hss.
  pose proof (co_borrow _ _ _ _ _ Ho) as Hb. simpl in *.
  assert (length bs + length tl = length (hist g) - got g) as Htot by (rewrite <-length_app, <-Hpre, length_drop; done).
  destruct Hc. destruct c_data0 as (d & Hd & Hlay). destruct (Hlay Hev) as [Hu Hrl].
  pose proof (Buffer.owns_cap _ _ _ Hd) as Hdl. simpl in Hdl.
  destruct (release_unread (read s) (write s) (last s) k d) as [HU HI]; [lia|lia|lia|lia|].
  assert (read s + contig (read s) (write s) (last s) <= cap)%Z as Hcap by (unfold contig; destruct (_ <? _)%Z; lia).
  split; try done; simpl.
  - split; try done; simpl; [lia|lia| |by rewrite Hev| |congruence].
    + exists d. split; [done|]. intros _. unfold layout. simpl. rewrite HU, Hu, drop_drop. split; [done|].
      intros Hlt. apply HI in Hlt as Hlt'. unfold contig in *. rewrite (proj2 (Z.ltb_lt _ _) Hlt') in *. lia.
    + intros a n Hw. apply (grant_released _ _ (last s)); [by apply c_w0|lia].
  - left. split; [lia|]. intros Hle. unfold contig in *. rewrite (proj2 (Z.ltb_ge _ _) Hle) in *. lia.
  - by rewrite Hev.
  - left. split; [done|]. right. intros [_ ?]. simpl in *. congruence.
  - right. split; [done|]. by left.
Qed.

Lemma acts_unrip v c os s g :
  consumer_owns v c None os (s, g) -> cv_borrow v = None -> consumer_acts s g (set_rip false s) (unrip_ghost g).
Proof.
  intros Ho Hnb. pose proof (co_dsig _ _ _ _ _ Ho) as Hds. pose proof (co_borrow _ _ _ _ _ Ho) as Hb.
  pose proof (bi_core _ (co_inv _ _ _ _ _ Ho)) as Hc. simpl in *. destruct Hc. split; try done; simpl.
  - split; try done; simpl; [|congruence]. intros Hodd. by destruct (c_odd0 Hodd) as (? & ? & _).
  - left. lia.
  - right. split; [done|]. by left.
  - left. split; [done|]. by right.
Qed.

Lemma wp_consumer_unrip {B} v st os (k : unit -> prog Inner B) Q x :
  consuming v Nothing st None os x -> cv_borrow v = None ->
  (forall x', consuming (mkCV (cv_recv v) false None None) Nothing st (Some Notify.Owes) os x' -> wp (rely 1) (guar 1) (k tt) Q x') ->
  wp (rely 1) (guar 1) (u ← store (set_rip false); k u) Q x.
Proof.
  intros Hx Hnb Hk. eapply wp_consumer_store; [exact Hx| |exact Hk]. intros s g [Ho _]. exists (unrip_ghost g).
  split; [by eapply acts_unrip|]. intros Hi'. cowns_step Ho. apply Notify.phase_eq.
Qed.

Lemma bip_wp_release v st w bs used Q x :
  consuming v (Has bs) st None None x -> csettled v (Some w) -> Z.of_nat (length bs) = rg_len w -> (0 <= used)%Z ->
  (forall x', consuming (mkCV (cv_recv v ++ take (Z.to_nat (Z.min used (rg_len w))) bs) false None None) Nothing st None None x' -> Q tt x') ->
  wp (rely 1) (guar 1) (release w used) Q x.
Proof.
  intros Hx Hset Hlen Hu HQ. pose proof Hset as (Hnb & Hr & Hg & Hhb). unfold release. set (k := Z.min used (rg_len w)) in *.
  cbn zeta. cbn [rg_start rg_len rg_handed_back].
  assert (0 <= k <= rg_len w /\ rg_start w + k <= usize_max)%Z as [Hk Hmax].
  { destruct x as [s g]. destruct Hx as (Ho & _). destruct (read_granted _ _ _ _ _ _ _ Ho Hg) as (Hc & _ & Ha & Hn & _ & _ & _).
    destruct (c_data _ _ Hc) as (d & Hd & _). pose proof (cap_small _ _ Hd). pose proof (c_geom _ _ Hc).
    unfold contig in Hn. destruct (_ <? _)%Z; lia. }
  eapply (wp_consumer_load _ _ _ _ _ _ (rg_start w)); [exact Hx| |].
  { intros s g [Ho _]. by destruct (read_granted _ _ _ _ _ _ _ Ho Hg) as (_ & _ & -> & _). }
  clear x Hx. intros x Hx.
  eapply (wp_consumer_local _ _ _ _ _ _ (rg_start w + k)%Z); [exact Hx|unfold add_usize; by rewrite (proj2 (Z.leb_le _ _) Hmax)|].
  clear x Hx. intros x Hx.
  eapply (wp_consumer_store _ _ _ _ _ (mkCV (cv_recv v ++ take (Z.to_nat k) bs) true None None) Nothing None (Some Notify.Owes)); [exact Hx| |].
  { intros s g [Ho _]. exists (release_ghost (Z.to_nat k) g). split; [by eapply acts_release|]. intros Hi'.
    destruct (co_info _ _ _ _ _ Ho) as [tl Hpre]. simpl in Hpre.
    cowns_step Ho; [|apply Notify.phase_eq]. simpl in *.
    rewrite <-(take_take_drop _ (got g)), co_recv0, Hpre, take_app_le by lia. done. }
  clear x Hx. intros x Hx. eapply wp_consumer_unrip; [exact Hx|done|]. clear x Hx. intros x Hx.
  apply wp_bind. eapply wp_consumer_signal_data; [exact Hx|]. clear x Hx. intros x Hx.
  apply wp_bind. eapply wp_consumer_signal_space; [exact Hx|]. clear x Hx. intros x Hx.
  eapply wp_ret; [apply bip_consuming_stable|exact Hx|done].
Qed.

Lemma wp_drop_read_grant v st w Q x :
  consuming v Nothing st None None x -> csettled v (Some w) ->
  (forall x', consuming (mkCV (cv_recv v) false None None) Nothing st None None x' -> Q tt x') ->
  wp (rely 1) (guar 1) (drop_read_grant w) Q x.
Proof.
  intros Hx (Hnb & Hr & Hg & Hhb) HQ. unfold drop_read_grant. rewrite Hhb. eapply wp_consumer_unrip; [exact Hx|done|].
  intros x' Hx'. by eapply wp_consumer_signal_data.
Qed.

(** *** The consumer's thread *)
Lemma wp_crests_ret {A} held acc pk (a : A) (Q : A -> config -> Prop) x :
  consumer_rests held acc pk x -> (forall x', consumer_rests held acc pk x' -> Q a x') -> wp (rely 1) (guar 1) (Ret a) Q x.
Proof. intros Hx HQ. eapply wp_ret; [apply consumer_rests_stable|exact Hx|exact HQ]. Qed.

Lemma wp_crests_local {A B} held acc pk (r : outcome A) a (k : A -> prog Inner B) Q x :
  consumer_rests held acc pk x -> r = Done a ->
  (forall x', consumer_rests held acc pk x' -> wp (rely 1) (guar 1) (k a) Q x') ->
  wp (rely 1) (guar 1) (b ← local r; k b) Q x.
Proof.
  intros (v & st & Hx & Hrest) -> Hk. eapply wp_consumer_local; [exact Hx|done|]. intros x' Hx'. apply Hk. by exists v, st.
Qed.

Lemma wp_step_try_read fuel held acc pk Q x :
  consumer_rests held acc pk x -> (forall x', Q None x') ->
  (forall held' x', consumer_rests held' acc None x' -> Q (Some (held', [], None)) x') ->
  wp (rely 1) (guar 1) (consumer_step fuel held pk TryRead) Q x.
Proof.
  intros (v & st & Hx & Hset & Hpk & Hacc) HSp HQ. apply wp_bind. eapply wp_try_read; [exact Hx|exact Hset|..].
  - intros st' x' _. by intros x2 _.
  - intros x' Hx'. eapply (wp_crests_local held acc None); [by exists v, (Notify.rest (Notify.up st))|by destruct held|].
    intros x2 Hx2. eapply wp_crests_ret; [exact Hx2|]. apply HQ.
  - intros r n x' Hx' ->. eapply (wp_crests_local (Some (mkRG r n false)) acc None); [|done|].
    + by exists (read_view v r n), (Notify.up st).
    + intros x2 Hx2. eapply wp_crests_ret; [exact Hx2|]. apply HQ.
Qed.

Lemma bip_wp_consumer_step fuel held acc pk op Q x :
  consumer_rests held acc pk x -> (forall x', Q None x') ->
  (forall held' bs pk' x', consumer_rests held' (acc ++ bs) pk' x' -> Q (Some (held', bs, pk')) x') ->
  wp (rely 1) (guar 1) (consumer_step fuel held pk op) Q x.
Proof.
  intros Hx HSp HQ.
  assert (forall held' pk' x', consumer_rests held' acc pk' x' -> Q (Some (held', [], pk')) x') as HQ0.
  { intros held' pk' x' Hx'. apply HQ. by rewrite app_nil_r. }
  destruct op as [|ws| |used|].
  - eapply wp_step_try_read; [exact Hx|done|]. intros held' x'. apply HQ0.
  - cbn [consumer_step]. destruct Hx as (v & st & Hx & Hset & Hpk & Hacc). apply wp_bind.
    eapply (wp_drive_read fuel ws held acc None); [by exists v, st|by intros x' x2 _|].
    intros held' r pk' x' Hx' Hkeep. eapply wp_crests_local; [exact Hx'|exact Hkeep|]. intros x2 Hx2.
    eapply wp_crests_ret; [exact Hx2|]. apply HQ0.
  - destruct held as [w|]; [|eapply wp_crests_ret; [exact Hx|apply HQ0]]. destruct Hx as (v & st & Hx & Hset & Hpk & Hacc).
    apply wp_bind. eapply wp_as_slice; [exact Hx|exact Hset|]. intros bs x' Hx' _.
    eapply (wp_crests_ret (Some w) acc pk); [|apply HQ0]. exists v, st. split_and!; try done. by eapply consuming_info.
  - destruct held as [w|]; [|eapply wp_crests_ret; [exact Hx|apply HQ0]]. destruct Hx as (v & st & Hx & Hset & Hpk & Hacc).
    apply wp_bind. eapply wp_as_slice; [exact Hx|exact Hset|]. clear x Hx. intros bs x Hx Hlen.
    apply wp_bind. eapply bip_wp_release; [exact Hx|exact Hset|done|lia|]. intros x' Hx'.
    eapply (wp_crests_ret None (acc ++ take used bs) pk); [|apply HQ]. eexists _, st. split_and!; [exact Hx'|done..|].
    simpl. rewrite Hacc. f_equal. rewrite <-(firstn_all bs) at 2. rewrite take_take. f_equal. lia.
  - destruct held as [w|]; [|eapply wp_crests_ret; [exact Hx|apply HQ0]]. destruct Hx as (v & st & Hx & Hset & Hpk & Hacc).
    apply wp_bind. eapply wp_drop_read_grant; [exact Hx|exact Hset|]. intros x' Hx'.
    eapply (wp_crests_ret None acc pk); [|apply HQ0]. by exists (mkCV (cv_recv v) false None None), st.
Qed.

Lemma bip_wp_consumer_thread fuel ops held acc pk Q x :
  consumer_rests held acc pk x -> (forall x', Q Spinning x') ->
  (forall held' acc' pk' x', consumer_rests held' acc' pk' x' -> Q (ConsumerEnded acc' pk' held') x') ->
  wp (rely 1) (guar 1) (consumer_thread fuel ops held acc pk) Q x.
Proof.
  intros Hx HSp HQ. revert held acc pk x Hx. induction ops as [|op ops IH]; intros held acc pk x Hx; cbn [consumer_thread].
  - eapply wp_crests_ret; [exact Hx|apply HQ].
  - apply wp_bind. eapply bip_wp_consumer_step; [exact Hx| |].
    + intros x' x2 _. apply HSp.
    + intros held' bs pk' x' Hx'. by apply IH.
Qed.
(** ** Both threads *)

(** The unread bytes, as the cursors delimit them. *)
Definition unread (s : Inner) : list byte :=
  match mem s !! Buffer.ptr (buf s) with
  | Some (_, d) => unread_at (read s) (write s) (last s) d
  | None => []
  end.

Definition ends (i : nat) (e : bended) (x : config) : Prop :=
  match i, e with
  | 0, ProducerEnded sent pk held => producer_rests held sent pk x
  | 1, ConsumerEnded received pk held => consumer_rests held received pk x
  | 1, Spinning => True
  | _, _ => False
  end.

Definition ghost_init : bip_ghost := mkBG [] 0 0 None None 0 Notify.ghost0 Notify.ghost0.

Lemma init_rests h d :
  (0 <= cap)%Z -> Buffer.owns h the_buf d -> delete p h = h0 ->
  let x := (mkInner h the_buf 0 0 cap 0 false false Notify.new Notify.new [] [] None None, ghost_init) in
  producer_rests None [] None x /\ consumer_rests None [] None x.
Proof.
  intros Hcap Hd Hdel x.
  assert (inv x) as Hi.
  { split; simpl.
    - split; simpl; try done. exists d. split; [done|]. intros _. split; [by rewrite unread_met|done].
    - apply Notify.slot_inv_new.
    - apply Notify.slot_inv_new.
    - intros j _. apply lookup_empty.
    - intros j _. apply lookup_empty. }
  split.
  - exists (mkPV [] 0 cap false 0 None [] None 0), (Notify.Out 0), false. split_and!; [|done..].
    split_and!; [by split|by split; [left|]|done].
  - exists (mkCV [] false None None), (Notify.Out 0). split_and!; [|done..]. split; [by split|by split; [left|]].
Qed.

Lemma threads_run sch s0 g0 fuel pops cops :
  (0 <= cap)%Z -> producer_rests None [] None (s0, g0) -> consumer_rests None [] None (s0, g0) -> Forall op_fits pops ->
  exists s ps g, run_sched sch s0 (bip_threads fuel pops cops) = Done (s, ps) /\
    forall i e, ps !! i = Some (Ret e) -> ends i e (s, g).
Proof.
  intros Hcap Hp Hc Hops.
  destruct (wp_sound rely guar ends sch s0 g0 (bip_threads fuel pops cops)) as (s & ps & g & Hrun & Hall & _).
  - intros i j y y'. apply bip_guar_rely.
  - intros [|[|i]] q Hq; simpl in Hq; [injection Hq as <-|injection Hq as <-|done].
    + by eapply bip_wp_producer_thread.
    + by eapply bip_wp_consumer_thread.
  - exists s, ps, g. split; [done|]. intros i e Hi. by eapply all_wp_returned.
Qed.

(** When both are at rest. *)
Lemma rest_epoch held acc pk x : producer_rests held acc pk x -> Z.odd (ep x.2) = false.
Proof. intros (v & st & aw & (Ho & _) & (Hev & _) & _). by rewrite (po_ep _ _ _ _ _ Ho). Qed.

Lemma rest_unread wg sent wp rg received rp s g :
  producer_rests wg sent wp (s, g) -> consumer_rests rg received rp (s, g) ->
  sent = received ++ unread s /\ (Z.of_nat (length (unread s)) <= cap)%Z /\ drop_inner s = Done h0 /\
  unread s = drop (got g) (hist g).
Proof.
  intros Hp Hc. pose proof (rest_epoch _ _ _ _ Hp) as Hev.
  destruct Hp as (v & st & aw & (Ho & _) & _ & _ & <-). destruct Hc as (u & st' & (Hu & _) & _ & _ & <-).
  pose proof (bi_core _ (po_inv _ _ _ _ _ Ho)) as Hcore. destruct (c_data _ _ Hcore) as (d & Hd & Hlay).
  destruct (Hlay Hev) as [Hun Hrl]. simpl in *. pose proof Hd as [(l & _ & Hl) Hlen _ _]. simpl in Hl, Hlen.
  pose proof (c_geom _ _ Hcore) as Hgeo.
  assert (unread s = unread_at (read s) (write s) (last s) d) as Heq.
  { unfold unread. rewrite (c_buf _ _ Hcore). simpl. by rewrite Hl. }
  split_and!.
  - pose proof (po_hist _ _ _ _ _ Ho) as Hh. pose proof (co_recv _ _ _ _ _ Hu) as Hr. simpl in *.
    by rewrite <-Hh, <-Hr, Heq, Hun, take_drop.
  - rewrite Heq, length_unread by lia. destruct (_ <? _)%Z eqn:E; bool_props; lia.
  - unfold drop_inner. rewrite (c_buf _ _ Hcore), (Buffer.drop_buffer_owns _ _ _ Hd). simpl. by rewrite (c_rest _ _ Hcore).
  - congruence.
Qed.

(** *** Spinning needs steps *)
Lemma far_read_cursors fuel : far (fun c => c = None) fuel (read_cursors fuel).
Proof.
  induction fuel as [|fuel IH]; [done|].
  cbn [read_cursors far mbind prog_bind prog_bind_fix load act pred]. intros e1. destruct (Z.land e1 1 =? 1)%Z; [exact IH|].
  cbn [far mbind prog_bind prog_bind_fix load act]. intros w r l e2. destruct (e2 =? e1)%Z; [done|].
  eapply far_le; [|exact IH]. lia.
Qed.

Lemma far_try_read fuel : far (fun c => c = None) fuel (try_read fuel).
Proof.
  apply (far_bind (fun c => c = None)); [apply none_dec| |by intros [o|] Ho].
  apply far_after. intros [|]; [done|]. apply (far_bind (fun c => c = None)); [apply none_dec|apply far_read_cursors|].
  intros [[[w r] la]|] Ho; [|done]. apply far_after. intros rd. cbn zeta. apply far_after. intros len.
  destruct (len =? 0)%Z; [done|]. by apply far_after.
Qed.

Lemma far_drive_read fuel ws pk : far (fun c => c = None) fuel (drive_read fuel ws pk).
Proof.
  revert pk. induction ws as [|w ws IH]; intros pk; cbn [drive_read]; [done|]. apply far_after. intros k.
  apply (far_bind (fun c => c = None)); [apply none_dec| |].
  - apply (far_bind (fun c => c = None)); [apply none_dec|apply far_try_read|]. intros [[g|]|] Ho; [done| |done].
    apply far_after. intros _. apply (far_bind (fun c => c = None)); [apply none_dec|apply far_try_read|].
    intros [[g|]|] Ho'; [|done..]. by apply far_after.
  - intros [[g|]|] Ho; [done|apply IH|done].
Qed.

Lemma far_consumer_step fuel held pk op : far (fun c => c = None) fuel (consumer_step fuel held pk op).
Proof.
  destruct op as [|ws| |used|]; cbn [consumer_step].
  - apply (far_bind (fun c => c = None)); [apply none_dec|apply far_try_read|]. intros [r|] Ho; [|done]. by apply far_after.
  - apply (far_bind (fun c => c = None)); [apply none_dec|apply far_drive_read|]. intros [[r pk']|] Ho; [|done]. by apply far_after.
  - destruct held; [|done]. by apply far_after.
  - destruct held; [|done]. apply far_after. intros d. by apply far_after.
  - destruct held; [|done]. by apply far_after.
Qed.

Lemma far_consumer_thread fuel ops held acc pk : far (fun e => e = Spinning) fuel (consumer_thread fuel ops held acc pk).
Proof.
  revert held acc pk. induction ops as [|op ops IH]; intros held acc pk; cbn [consumer_thread]; [done|].
  apply (far_bind (fun c => c = None)); [apply none_dec|apply far_consumer_step|]. intros [[[h b] q]|] Ho; [apply IH|done].
Qed.

Lemma never_spinning sch s0 s fuel pops cops ps :
  run_sched sch s0 (bip_threads fuel pops cops) = Done (s, ps) -> length sch < fuel -> ps !! 1 <> Some (Ret Spinning).
Proof.
  intros Hrun Hlen Hps.
  destruct (run_far (fun e => e = Spinning) fuel sch s0 s _ ps 1 _ Hrun eq_refl (far_consumer_thread _ _ _ _ _)) as (q & Hq & Hf).
  rewrite Hps in Hq. injection Hq as <-. specialize (Hf eq_refl). lia.
Qed.
(** *** [try_reserve] alone *)
Lemma run_reset rd wr s :
  exists s', run_alone (reset_drained rd wr) s = Done (s', (if rd =? wr then 0 else rd, if rd =? wr then 0 else wr)%Z).
Proof.
  unfold reset_drained. destruct (rd =? wr)%Z eqn:E; bool_props; cbn [andb]; [|by eexists].
  subst rd. destruct (wr =? 0)%Z eqn:E0; bool_props; cbn [negb]; [subst wr|]; by eexists.
Qed.

Lemma run_try_reserve n s :
  (0 <= read s <= cap)%Z -> (0 <= write s <= cap)%Z ->
  exists s', run_alone (try_reserve n) s =
    Done (s', if wip s then None else option_map (fun a => mkWG a n false) (place n (read s) (write s))).
Proof.
  intros Hr Hw. unfold try_reserve. rewrite run_alone_bind.
  assert (exists s', run_alone (inner_try_reserve n) s =
    Done (s', if wip s then None else option_map (fun a => (a, n)) (place n (read s) (write s)))) as (s' & ->).
  { unfold inner_try_reserve. cbn [mbind prog_bind prog_bind_fix load act run_alone outcome_bind].
    destruct (wip s); [by eexists|]. destruct (cap <? n)%Z eqn:Hn; bool_props.
    { rewrite place_oversized by lia. by eexists. }
    cbn [mbind prog_bind prog_bind_fix load act run_alone outcome_bind].
    change (prog_bind_fix ?k ?q) with (q ≫= k). rewrite run_alone_bind.
    destruct (run_reset (read s) (write s) s) as (s1 & ->). outcome_simpl.
    cbn [local mbind prog_bind prog_bind_fix load act run_alone outcome_bind]. rewrite choose_place by lia. outcome_simpl.
    destruct (place n (read s) (write s)); by eexists. }
  outcome_simpl. destruct (wip s); [by eexists|]. destruct (place n (read s) (write s)); by eexists.
Qed.

(** *** Woken *)
Lemma rest_silent wg sent wpk rg received rp s g :
  producer_rests wg sent wpk (s, g) -> consumer_rests rg received rp (s, g) ->
  Notify.signallers (dg g) = ∅ /\ Notify.signallers (sg g) = ∅.
Proof.
  intros (v & st & aw & (Ho & _) & _) (u & st' & (Hu & _) & _). pose proof (po_inv _ _ _ _ _ Ho) as Hi.
  pose proof (po_dsig _ _ _ _ _ Ho) as P1. pose proof (po_ssig _ _ _ _ _ Ho) as P2.
  pose proof (co_dsig _ _ _ _ _ Hu) as C1. pose proof (co_ssig _ _ _ _ _ Hu) as C2. simpl in *.
  split; apply map_eq; intros [|[|j]]; rewrite lookup_empty; try done; [apply (bi_dids _ Hi)|apply (bi_sids _ Hi)]; lia.
Qed.

Lemma bip_producer_woken wg sent n w k rg received rp s g :
  producer_rests wg sent (Some (n, w, k)) (s, g) -> consumer_rests rg received rp (s, g) ->
  wip s = false -> is_Some (place n (read s) (write s)) -> Notify.fired_since w k (space_log s).
Proof.
  intros Hp Hc Hwip Hpl. destruct (rest_silent _ _ _ _ _ _ _ _ Hp Hc) as [_ Hsil].
  destruct Hp as (v & st & aw & (Ho & Hw & _) & _ & Hpk & _). destruct (Hpk _ _ _ eq_refl) as [-> Hwant].
  apply (Notify.parked_told _ _ _ _ w k (bi_sslot _ (po_inv _ _ _ _ _ Ho))); [done|done|].
  split; [done|]. rewrite (po_want _ _ _ _ _ Ho), Hwant. done.
Qed.

Lemma bip_consumer_woken wg sent wpk w k rg received s g :
  producer_rests wg sent wpk (s, g) -> consumer_rests rg received (Some (w, k)) (s, g) ->
  rip s = false -> unread s <> [] -> Notify.fired_since w k (data_log s).
Proof.
  intros Hp Hc Hrip Hun. destruct (rest_silent _ _ _ _ _ _ _ _ Hp Hc) as [Hsil _].
  destruct (rest_unread _ _ _ _ _ _ _ _ Hp Hc) as (_ & _ & _ & Heq).
  destruct Hc as (v & st & (Ho & Hw) & _ & Hpk & _). pose proof (Hpk _ _ eq_refl) as ->.
  apply (Notify.parked_told _ _ _ _ w k (bi_dslot _ (co_inv _ _ _ _ _ Ho))); [done|done|].
  split; [|done]. simpl. destruct (decide (got g < length (hist g))) as [?|Hge]; [done|].
  rewrite drop_ge in Heq by lia. done.
Qed.

Lemma rest_geometry wg sent wpk x :
  producer_rests wg sent wpk x -> (0 <= read x.1 <= cap)%Z /\ (0 <= write x.1 <= cap)%Z.
Proof. intros (v & st & aw & (Ho & _) & _). pose proof (c_geom _ _ (bi_core _ (po_inv _ _ _ _ _ Ho))). tauto. Qed.

(** A drained buffer has its cursors together, or the consumer is about to
    follow a producer that wrapped and committed nothing. *)
Lemma drained_cursors wg sent wpk s g :
  producer_rests wg sent wpk (s, g) -> unread s = [] ->
  read s = write s \/ write s = 0%Z /\ (0 < read s)%Z /\ read s = last s.
Proof.
  intros Hp Hun. pose proof (rest_epoch _ _ _ _ Hp) as Hev. destruct Hp as (v & st & aw & (Ho & _) & _).
  pose proof (bi_core _ (po_inv _ _ _ _ _ Ho)) as Hc. destruct (c_data _ _ Hc) as (d & Hd & Hlay). destruct (Hlay Hev) as [_ Hrl].
  pose proof (c_geom _ _ Hc) as Hgeo. pose proof Hd as [(l & _ & Hl) Hlen _ _]. simpl in *.
  unfold unread in Hun. rewrite (c_buf _ _ Hc) in Hun. simpl in Hun. rewrite Hl in Hun.
  pose proof (length_unread (read s) (write s) (last s) d) as Hlu. rewrite Hun in Hlu. simpl in Hlu.
  destruct (write s <? read s)%Z eqn:E; bool_props; lia.
Qed.
End bip.

Section theorems.
Context `{BM : BuildMode} `{Wk : Wakers} `{AL : Buffer.Allocator byte}.

Lemma bip_run cap al (h0 : gmap Z (Buffer.Layout * list byte)) s0 fuel pops cops sch :
  bip_buffer_aligned cap h0 al = Done s0 -> Forall (op_fits cap) pops ->
  exists p s ps g, run_sched sch s0 (bip_threads cap fuel pops cops) = Done (s, ps) /\
    (forall i e, ps !! i = Some (Ret e) -> ends cap p al h0 i e (s, g)).
Proof.
  intros Hnew Hops. unfold bip_buffer_aligned in Hnew.
  destruct (Buffer.with_alignment h0 cap al) as [[b h]| |] eqn:Hw; outcome_simpl; try done. injection Hnew as <-.
  destruct (Buffer.with_alignment_inv _ _ _ _ _ Hw) as (_ & _ & Hcap & _).
  destruct (Buffer.with_alignment_done _ _ _ _ _ Hw) as (l & _ & Hnn & -> & -> & Hd).
  destruct (init_rests cap (Buffer.alloc_addr h0 l) al h0 _ _ ltac:(lia) Hd) as [Hp Hc];
    [by apply delete_insert_id, Buffer.alloc_fresh|].
  destruct (threads_run cap (Buffer.alloc_addr h0 l) al h0 sch _ _ fuel pops cops ltac:(lia) Hp Hc Hops) as (s & ps & g & Hrun & He).
  by eexists _, s, ps, g.
Qed.

(** C9: the bip buffer is a lossless FIFO of bytes on contiguous regions. A
    producer that reserves (waiting or not), writes, commits or abandons, and a
    consumer that reads, looks, releases or drops its grants, under any
    interleaving of their accesses: nothing panics, no slice leaves the buffer or
    overlaps bytes the other side has borrowed, no second grant is given out
    while one is outstanding; the consumer's seqlock loop is not still spinning
    for want of fuel; and when both are done the bytes committed are those
    released followed by the unread ones the cursors delimit, at most the
    capacity, and dropping the buffer frees exactly its allocation. *)
Theorem bip_fifo (cap al : Z) (h0 : gmap Z (Buffer.Layout * list byte)) (s0 : Inner) (fuel : nat)
    (pops : list producer_op) (cops : list consumer_op) (sch : list nat) :
  bip_buffer_aligned cap h0 al = Done s0 -> Forall (op_fits cap) pops -> length sch < fuel ->
  exists s ps, run_sched sch s0 (bip_threads cap fuel pops cops) = Done (s, ps) /\
    ps !! 1 <> Some (Ret Spinning) /\
    forall sent wpk wg received rpk rg,
      ps = [Ret (ProducerEnded sent wpk wg); Ret (ConsumerEnded received rpk rg)] ->
      sent = received ++ unread s /\ (Z.of_nat (length (unread s)) <= cap)%Z /\ drop_inner s = Done h0.
Proof.
  intros Hnew Hops Hfuel. destruct (bip_run cap al h0 s0 fuel pops cops sch Hnew Hops) as (p & s & ps & g & Hrun & He).
  exists s, ps. split; [done|]. split; [by eapply never_spinning|]. intros sent wpk wg received rpk rg ->.
  destruct (rest_unread _ _ _ _ _ _ _ _ _ _ _ _ (He 0 _ eq_refl) (He 1 _ eq_refl)) as (? & ? & ? & _). done.
Qed.

(** C10: the bip buffer loses no wakeup. When both are done: a [reserve] future
    left pending by its last poll has had a waker of its task fired since that
    poll began if trying again would now succeed, also when what it waited for
    was its own side's grant; and so has a pending [read] future if bytes are
    unread and no read grant is outstanding. *)
Theorem bip_no_lost_wakeup (cap al : Z) (h0 : gmap Z (Buffer.Layout * list byte)) (s0 : Inner) (fuel : nat)
    (pops : list producer_op) (cops : list consumer_op) (sch : list nat) s sent wpk wg received rpk rg :
  bip_buffer_aligned cap h0 al = Done s0 -> Forall (op_fits cap) pops ->
  run_sched sch s0 (bip_threads cap fuel pops cops) =
    Done (s, [Ret (ProducerEnded sent wpk wg); Ret (ConsumerEnded received rpk rg)]) ->
  (forall n w k s' grant, wpk = Some (n, w, k) -> run_alone (try_reserve cap n) s = Done (s', Some grant) ->
    Notify.fired_since w k (space_log s)) /\
  (forall w k, rpk = Some (w, k) -> rip s = false -> unread s <> [] -> Notify.fired_since w k (data_log s)).
Proof.
  intros Hnew Hops Hrun. destruct (bip_run cap al h0 s0 fuel pops cops sch Hnew Hops) as (p & s1 & ps & g & Hrun' & He).
  rewrite Hrun in Hrun'. injection Hrun' as <- <-. pose proof (He 0 _ eq_refl) as Hp. pose proof (He 1 _ eq_refl) as Hc.
  cbn [ends] in Hp, Hc. split.
  - intros n w k s' grant -> Htry. destruct (rest_geometry _ _ _ _ _ _ _ _ Hp) as [Hr Hw].
    destruct (run_try_reserve cap n s Hr Hw) as (s2 & Hrun2). rewrite Htry in Hrun2. injection Hrun2 as _ Hgr.
    destruct (wip s) eqn:Hwip; [done|]. eapply bip_producer_woken; [exact Hp|exact Hc|done|].
    destruct (place cap n (read s) (write s)); [by eexists|done].
  - intros w k -> Hrip Hun. by eapply bip_consumer_woken.
Qed.

(** A drained buffer takes any request up to its capacity: the producer can
    reserve, unless it has just wrapped and committed nothing, in which case the
    space behind the read cursor comes with the consumer's next look. *)
Theorem bip_drained_accepts (cap al : Z) (h0 : gmap Z (Buffer.Layout * list byte)) (s0 : Inner) (fuel : nat)
    (pops : list producer_op) (cops : list consumer_op) (sch : list nat) s sent wpk received rpk rg (n : Z) :
  bip_buffer_aligned cap h0 al = Done s0 -> Forall (op_fits cap) pops ->
  run_sched sch s0 (bip_threads cap fuel pops cops) =
    Done (s, [Ret (ProducerEnded sent wpk None); Ret (ConsumerEnded received rpk rg)]) ->
  sent = received -> (n <= cap)%Z ->
  (exists s' grant, run_alone (try_reserve cap n) s = Done (s', Some grant)) \/
  (write s = 0 /\ 0 < read s <= n /\ read s = last s)%Z.
Proof.
  intros Hnew Hops Hrun -> Hn. destruct (bip_run cap al h0 s0 fuel pops cops sch Hnew Hops) as (p & s1 & ps & g & Hrun' & He).
  rewrite Hrun in Hrun'. injection Hrun' as <- <-. pose proof (He 0 _ eq_refl) as Hp. pose proof (He 1 _ eq_refl) as Hc.
  cbn [ends] in Hp, Hc. destruct (rest_geometry _ _ _ _ _ _ _ _ Hp) as [Hr Hw].
  destruct (rest_unread _ _ _ _ _ _ _ _ _ _ _ _ Hp Hc) as (Hsent & _).
  assert (unread s = []) as Hun. { apply (app_inv_head received). by rewrite <-Hsent, app_nil_r. }
  destruct (run_try_reserve cap n s Hr Hw) as (s2 & Hrun2).
  assert (wip s = false) as Hwip.
  { destruct Hp as (v & st & aw & (Ho & _) & (_ & _ & Hset & _) & _). pose proof (po_wip _ _ _ _ _ _ _ _ _ Ho) as Hwp. simpl in Hwp. congruence. }
  rewrite Hwip in Hrun2. destruct (place cap n (read s) (write s)) as [a|] eqn:Hp'; [left; by eexists _, _|right].
  unfold place in Hp'. destruct (drained_cursors _ _ _ _ _ _ _ _ _ Hp Hun) as [Heq|(H1 & H2 & H3)].
  - rewrite Heq, Z.eqb_refl, (proj2 (Z.leb_le _ _) Hn) in Hp'. done.
  - rewrite (proj2 (Z.eqb_neq _ _)), (proj2 (Z.ltb_lt _ _)) in Hp' by lia.
    destruct (n <? read s - write s)%Z eqn:E; bool_props; [done|]. split_and!; [done|lia|lia|done].
Qed.
End theorems.

#[local] Instance nat_wakers : Wakers := {| waker := nat; will_wake := Nat.eqb |}.
#[local] Existing Instance debug_build.
#[local] Existing Instance Buffer.bump_allocator.

(** Ten bytes through a buffer of eight, the threads alternating; it wraps once
    and is reset. *)
Definition demo_pops : list (producer_op (Wk := nat_wakers)) :=
  [Reserve 5 [50; 50]; Fill [x01; x02; x03; x04; x05]; Commit 5; Reserve 4 [51; 51; 51; 51; 51; 51];
   Fill [x06; x07; x08; x09]; Commit 4; TryReserve 2; Abandon; Reserve 8 [52; 52; 52; 52; 52; 52]; Fill [x0a]; Commit 1].
Definition demo_cops : list (consumer_op (Wk := nat_wakers)) :=
  [Read [60; 60; 60]; Look; Release 3; Read [61; 61]; Release 9; Read [62; 62; 62; 62]; Unread; Read [63]; Release 9; Read [64; 64; 64]].
Definition demo_sch : list nat := concat (replicate 150 [0; 1]).

Lemma bip_fifo_witness : exists s0 s sent wpk wg received rpk rg,
  bip_buffer_aligned (Wk := nat_wakers) 8 ∅ 16 = Done s0 /\
  run_sched demo_sch s0 (bip_threads (Wk := nat_wakers) 8 301 demo_pops demo_cops) =
    Done (s, [Ret (ProducerEnded sent wpk wg); Ret (ConsumerEnded received rpk rg)]) /\
  sent = received ++ unread s /\ length sent = 10 /\ drop_inner s = Done ∅.
Proof.
  destruct (bip_buffer_aligned (Wk := nat_wakers) 8 ∅ 16) as [s0| |] eqn:Hnew; [|vm_compute in Hnew; discriminate..].
  destruct (bip_fifo (Wk := nat_wakers) 8 16 ∅ s0 301 demo_pops demo_cops demo_sch Hnew) as (s & ps & Hrun & _ & Hps).
  - repeat constructor; simpl; lia.
  - apply Nat.ltb_lt. vm_compute. reflexivity.
  - pose proof Hnew as Hnew'. vm_compute in Hnew'. injection Hnew' as <-.
    pose proof Hrun as Hrun'. vm_compute in Hrun'. injection Hrun' as <- <-.
    destruct (Hps _ _ _ _ _ _ eq_refl) as (H1 & H2 & H3). do 8 eexists. split; [reflexivity|]. split; [exact Hrun|].
    split; [exact H1|]. split; [reflexivity|exact H3].
Defined.

(** The producer parks for four bytes, then the consumer releases six. *)
Definition park_pops : list (producer_op (Wk := nat_wakers)) := [Reserve 6 [50]; Fill [x01]; Commit 6; Reserve 4 [51]].
Definition park_cops : list (consumer_op (Wk := nat_wakers)) := [TryRead; Release 6].
Definition park_sch : list nat := replicate 60 0 ++ replicate 60 1.

Lemma bip_no_lost_wakeup_witness : exists s0 s sent wg received rpk rg,
  bip_buffer_aligned (Wk := nat_wakers) 8 ∅ 1 = Done s0 /\
  run_sched park_sch s0 (bip_threads (Wk := nat_wakers) 8 9 park_pops park_cops) =
    Done (s, [Ret (ProducerEnded sent (Some (4%Z, 51, 0)) wg); Ret (ConsumerEnded received rpk rg)]) /\
  Notify.fired_since (H0 := nat_wakers) 51 0 (space_log s).
Proof.
  destruct (bip_buffer_aligned (Wk := nat_wakers) 8 ∅ 1) as [s0| |] eqn:Hnew; [|vm_compute in Hnew; discriminate..].
  destruct (run_sched park_sch s0 (bip_threads (Wk := nat_wakers) 8 9 park_pops park_cops)) as [[s ps]| |] eqn:Hrun;
    pose proof Hnew as Hnew'; vm_compute in Hnew'; injection Hnew' as <-;
    pose proof Hrun as Hrun'; vm_compute in Hrun'; [|discriminate..].
  injection Hrun' as <- <-. do 7 eexists. split; [reflexivity|]. split; [exact Hrun|].
  eapply (proj1 (bip_no_lost_wakeup (Wk := nat_wakers) 8 1 ∅ _ 9 park_pops park_cops park_sch _ _ _ _ _ _ _ Hnew
    ltac:(repeat constructor; simpl; lia) Hrun)); [reflexivity|]. vm_compute. reflexivity.
Defined.

Lemma bip_drained_accepts_witness : exists s0 s sent wpk rpk rg s' grant,
  bip_buffer_aligned (Wk := nat_wakers) 8 ∅ 1 = Done s0 /\
  run_sched park_sch s0 (bip_threads (Wk := nat_wakers) 8 9 park_pops park_cops) =
    Done (s, [Ret (ProducerEnded sent wpk None); Ret (ConsumerEnded sent rpk rg)]) /\
  run_alone (try_reserve 8 8) s = Done (s', Some grant).
Proof.
  destruct (bip_buffer_aligned (Wk := nat_wakers) 8 ∅ 1) as [s0| |] eqn:Hnew; [|vm_compute in Hnew; discriminate..].
  destruct (run_sched park_sch s0 (bip_threads (Wk := nat_wakers) 8 9 park_pops park_cops)) as [[s ps]| |] eqn:Hrun;
    pose proof Hnew as Hnew'; vm_compute in Hnew'; injection Hnew' as <-;
    pose proof Hrun as Hrun'; vm_compute in Hrun'; [|discriminate..].
  injection Hrun' as <- <-.
  destruct (bip_drained_accepts (Wk := nat_wakers) 8 1 ∅ _ 9 park_pops park_cops park_sch _ _ _ _ _ _ 8 Hnew
    ltac:(repeat constructor; simpl; lia) Hrun eq_refl ltac:(lia)) as [(s' & grant & Hs)|(H1 & H2 & H3)]; [|discriminate H1].
  do 8 eexists. split; [reflexivity|]. split; [exact Hrun|exact Hs].
Defined.

(** An empty buffer can keep the producer waiting. The producer fills seven
    of eight bytes, the consumer releases five, the producer reserves two bytes
    at the head and commits none of them, the consumer releases the last two.
    Everything committed is released and no grant is outstanding; yet a request
    for the capacity is not granted, nor its future woken, until the consumer
    looks again. *)
Theorem bip_empty_wrap_waits : exists s0 s s1 s2 sent grant,
  bip_buffer_aligned (Wk := nat_wakers) 8 ∅ 1 = Done s0 /\
  run_sched (replicate 15 0 ++ replicate 18 1 ++ replicate 16 0 ++ replicate 50 1 ++ replicate 50 0) s0
    (bip_threads (Wk := nat_wakers) 8 9 [TryReserve 7; Commit 7; TryReserve 2; Commit 0; Reserve 8 [51]]
      [TryRead; Release 5; TryRead; Release 2]) =
    Done (s, [Ret (ProducerEnded sent (Some (8%Z, 51, 0)) None); Ret (ConsumerEnded sent None None)]) /\
  unread s = [] /\ space_log s = [] /\ run_alone (try_reserve 8 8) s = Done (s, None) /\
  run_alone (try_read 9) s = Done (s1, Some None) /\ space_log s1 = [51] /\
  run_alone (try_reserve 8 8) s1 = Done (s2, Some grant).
Proof. do 6 eexists. repeat (split; [vm_compute; reflexivity|]). vm_compute. reflexivity. Qed.
End Bip.
