(* ===== verification/MpscLight.v ===== *)
(** * [mpsc_light] ([src/site_d/mpsc_light.rs])

    [Module Mpsc]: the multi-producer, single-consumer channel. A queue and a
    list of parked senders are guarded by a spinlock; the consumer steals the
    whole queue into a local staging buffer and parks on a [WaiterSlot]. The
    operations are programs over the shared [Inner] with one step per access;
    an access to guarded data by a thread that does not hold the lock is
    [Undefined]. Spinning on the lock has fuel: an operation returns [None] when
    it is still spinning, which takes more than [fuel] steps
    ([mpsc_never_spinning]). *)
From stdpp Require Import base list gmap numbers relations strings.
From S2P Require Import Prelude WaitList Concurrency Notify.

Module Mpsc.
Section mpsc.
Context `{Bm : BuildMode} `{Wk : Wakers} {T : Type}.
Context (cap : nat) (fuel : nat).

(** [locked] records which thread's exchange set the flag; [q], [next_id] and
    [selected] are the fields of [Waiters], with [q] in the order of its keys.
    [recv_log] and [send_log] are the wakers fired for the receiver and for
    parked senders; [seed] is [jitter]'s static. *)
Record Inner : Type := mkInner {
  locked : option nat;
  nonempty : nat;
  queue : list T;
  q : list (Z * waker);
  next_id : Z;
  selected : gset Z;
  recv : Notify.WaiterSlot;
  senders : Z;
  closed : bool;
  waiters_len : nat;
  recv_log : list waker;
  send_log : list waker;
  seed : Z
}.

Definition set_locked (o : option nat) (s : Inner) : Inner :=
  mkInner o (nonempty s) (queue s) (q s) (next_id s) (selected s) (recv s) (senders s) (closed s)
    (waiters_len s) (recv_log s) (send_log s) (seed s).
Definition set_nonempty (n : nat) (s : Inner) : Inner :=
  mkInner (locked s) n (queue s) (q s) (next_id s) (selected s) (recv s) (senders s) (closed s)
    (waiters_len s) (recv_log s) (send_log s) (seed s).
Definition set_queue (vs : list T) (s : Inner) : Inner :=
  mkInner (locked s) (nonempty s) vs (q s) (next_id s) (selected s) (recv s) (senders s) (closed s)
    (waiters_len s) (recv_log s) (send_log s) (seed s).
Definition set_waiters (m : list (Z * waker)) (id : Z) (sel : gset Z) (s : Inner) : Inner :=
  mkInner (locked s) (nonempty s) (queue s) m id sel (recv s) (senders s) (closed s)
    (waiters_len s) (recv_log s) (send_log s) (seed s).
Definition set_senders (n : Z) (s : Inner) : Inner :=
  mkInner (locked s) (nonempty s) (queue s) (q s) (next_id s) (selected s) (recv s) n (closed s)
    (waiters_len s) (recv_log s) (send_log s) (seed s).
Definition set_closed (b : bool) (s : Inner) : Inner :=
  mkInner (locked s) (nonempty s) (queue s) (q s) (next_id s) (selected s) (recv s) (senders s) b
    (waiters_len s) (recv_log s) (send_log s) (seed s).
Definition set_waiters_len (n : nat) (s : Inner) : Inner :=
  mkInner (locked s) (nonempty s) (queue s) (q s) (next_id s) (selected s) (recv s) (senders s) (closed s)
    n (recv_log s) (send_log s) (seed s).
Definition set_send_log (l : list waker) (s : Inner) : Inner :=
  mkInner (locked s) (nonempty s) (queue s) (q s) (next_id s) (selected s) (recv s) (senders s) (closed s)
    (waiters_len s) (recv_log s) l (seed s).
Definition set_seed (z : Z) (s : Inner) : Inner :=
  mkInner (locked s) (nonempty s) (queue s) (q s) (next_id s) (selected s) (recv s) (senders s) (closed s)
    (waiters_len s) (recv_log s) (send_log s) z.

Definition recv_ref : Notify.SlotRef Inner :=
  Notify.mkSlotRef _ recv
    (fun sl s => mkInner (locked s) (nonempty s) (queue s) (q s) (next_id s) (selected s) sl (senders s)
      (closed s) (waiters_len s) (recv_log s) (send_log s) (seed s))
    recv_log
    (fun l s => mkInner (locked s) (nonempty s) (queue s) (q s) (next_id s) (selected s) (recv s) (senders s)
      (closed s) (waiters_len s) l (send_log s) (seed s)).

(** [bounded], with its first sender; the capacity is [bounded_cap]. *)
Definition bounded_cap (capacity : nat) : nat := capacity `max` 1.
Definition bounded : Inner :=
  mkInner None 0 [] [] 0 ∅ Notify.new 1 false 0 [] [] 2654435769.

(** ** The map of parked senders *)
Fixpoint insert (id : Z) (w : waker) (m : list (Z * waker)) : list (Z * waker) :=
  match m with
  | [] => [(id, w)]
  | (id', w') :: m' =>
      if (id <? id')%Z then (id, w) :: m
      else if (id =? id')%Z then (id, w) :: m'
      else (id', w') :: insert id w m'
  end.
Definition remove (id : Z) (m : list (Z * waker)) : list (Z * waker) :=
  List.filter (fun e => negb (e.1 =? id)%Z) m.

(** [w.q.pop_first().map(|(id, wk)| { w.selected.insert(id); wk })]. *)
Definition pop_first (s : Inner) : Inner * option waker :=
  match q s with
  | [] => (s, None)
  | (id, wk) :: m => (set_waiters m (next_id s) ({[id]} ∪ selected s) s, Some wk)
  end.

(** A program that may still be spinning. *)
Definition spin_bind {A B} (p : prog Inner (option A)) (k : A -> prog Inner (option B)) : prog Inner (option B) :=
  p ≫= fun o => match o with Some a => k a | None => Ret None end.
#[local] Notation "x ←? p ; k" := (spin_bind p (fun x => k)) (at level 20, p at level 100, k at level 200,
  only parsing).
#[local] Notation "' x ←? p ; k" := (spin_bind p (fun x => k)) (at level 20, x pattern, p at level 100,
  k at level 200, only parsing).

(** ** Inner, as thread [me] uses it *)
Section me.
Context (me : nat).

(** [locked.compare_exchange(false, true)]. *)
Definition try_lock : prog Inner bool :=
  act (fun s => match locked s with
                | None => Done (set_locked (Some me) s, true)
                | Some _ => Done (s, false)
                end).

(** How often a contender spins before it tries again. *)
Definition jitter_spins (s : Z) : Z :=
  Z.land (Z.shiftr ((s * 2654435761) `mod` 2 ^ 32) 26) 63.
Fixpoint spin_loops (n : nat) : prog Inner unit :=
  match n with 0 => Ret tt | S n => _ ← load (fun _ => tt); spin_loops n end.
Definition jitter : prog Inner unit :=
  s ← act (fun s => Done (set_seed ((seed s + 1831565813) `mod` 2 ^ 32)%Z s, seed s));
  spin_loops (Z.to_nat (jitter_spins s)).

(** The two loops: spin on a load, exchange when the lock looks free. *)
Fixpoint lock_slow (n : nat) : prog Inner (option unit) :=
  match n with
  | 0 => Ret None
  | S n =>
      l ← load (fun s => bool_decide (locked s <> None));
      if (l : bool) then lock_slow n
      else
        ok ← try_lock;
        if (ok : bool) then Ret (Some tt)
        else _ ← jitter; lock_slow n
  end.

Definition lock : prog Inner (option unit) :=
  ok ← try_lock;
  if (ok : bool) then Ret (Some tt) else lock_slow fuel.

Definition unlock : prog Inner unit := store (set_locked None).

(** An access to the data the lock guards. *)
Definition guarded {B} (f : Inner -> outcome (Inner * B)) : prog Inner B :=
  act (fun s => if decide (locked s = Some me) then f s else Undefined).

Definition queue_len : prog Inner nat := guarded (fun s => Done (s, length (queue s))).

(** [q.push_back(val)], raising the hint when the queue was empty. *)
Definition push_back (v : T) : prog Inner unit :=
  n ← guarded (fun s => Done (set_queue (queue s ++ [v]) s, S (length (queue s))));
  if n =? 1 then store (set_nonempty 1) else Ret tt.

Definition try_push (v : T) : prog Inner (option (result unit T)) :=
  _ ←? lock;
  n ← queue_len;
  if cap <=? n then _ ← unlock; Ret (Some (RErr v))
  else
    _ ← push_back v;
    _ ← unlock;
    Ret (Some (ROk tt)).

(** The number pushed, and the items left. *)
Definition try_push_many (items : list T) : prog Inner (option (nat * list T)) :=
  match items with
  | [] => Ret (Some (0, []))
  | _ =>
      _ ←? lock;
      n ← queue_len;
      room ← act (fun s => r ← sub_usize (Z.of_nat cap) (Z.of_nat n); Done (s, r));
      let k := Z.to_nat room `min` length items in
      _ ← (if 0 <? k then
             _ ← guarded (fun s => Done (set_queue (queue s ++ take k items) s, tt));
             if n =? 0 then store (set_nonempty 1) else Ret tt
           else Ret tt);
      _ ← unlock;
      Ret (Some (k, drop k items))
  end.

Inductive PushParked : Type :=
| Full (v : T) (id : Z)
| PClosed (v : T).

(** Allot an id and insert the waker under it. *)
Definition park_waker (w : waker) (s : Inner) : outcome (Inner * (Z * nat)) :=
  match checked_add (next_id s) 1 with
  | None => Panicked "mpsc waiter id overflow"
  | Some n =>
      let m := insert (next_id s) w (q s) in
      Done (set_waiters m n (selected s) s, (next_id s, length m))
  end.

Definition push_or_park (v : T) (w : waker) : prog Inner (option (result unit PushParked)) :=
  c ← load closed;
  if (c : bool) then Ret (Some (RErr (PClosed v)))
  else
    r ←? try_push v;
    match r with
    | ROk _ => Ret (Some (ROk tt))
    | RErr v =>
        _ ←? lock;
        c ← load closed;
        if (c : bool) then _ ← unlock; Ret (Some (RErr (PClosed v)))
        else
          n ← queue_len;
          if n <? cap then
            _ ← push_back v;
            _ ← unlock;
            Ret (Some (ROk tt))
          else
            '(id, len) ← guarded (park_waker w);
            _ ← store (set_waiters_len len);
            _ ← unlock;
            Ret (Some (RErr (Full v id)))
    end.

Definition forget_waiter (id : Z) (s : Inner) : Inner :=
  set_waiters (remove id (q s)) (next_id s) (selected s ∖ {[id]}) s.

Definition repoll_waiter (id : Z) : prog Inner (option unit) :=
  _ ←? lock;
  len ← guarded (fun s => let s := forget_waiter id s in Done (s, length (q s)));
  _ ← store (set_waiters_len len);
  _ ← unlock;
  Ret (Some tt).

(** [w.q.len()] is read and stored in [waiters_len]. *)
Definition mirror_len : prog Inner unit :=
  guarded (fun s => Done (set_waiters_len (length (q s)) s, tt)).

Definition wake_by_ref (w : waker) : prog Inner unit :=
  store (fun s => set_send_log (send_log s ++ [w]) s).
Definition wake_opt (o : option waker) : prog Inner unit :=
  match o with Some wk => wake_by_ref wk | None => Ret tt end.

(** Remove a waiter; if it was selected, the next one is popped in its place. *)
Definition pass_on (id : Z) (s : Inner) : Inner * option waker :=
  let held := bool_decide (id ∈ selected s) in
  let s := forget_waiter id s in
  if held then pop_first s else (s, None).

Definition cancel_waiter (id : Z) : prog Inner (option unit) :=
  _ ←? lock;
  next ← guarded (fun s => Done (pass_on id s));
  _ ← mirror_len;
  _ ← unlock;
  _ ← wake_opt next;
  Ret (Some tt).

(** The number stolen, and the new staging buffer. *)
Definition steal_into (staging : list T) : prog Inner (option (nat * list T)) :=
  _ ←? lock;
  n ← queue_len;
  if n =? 0 then _ ← unlock; Ret (Some (0, staging))
  else
    stolen ← guarded (fun s => Done (set_queue staging s, queue s));
    _ ← store (set_nonempty 0);
    wk ← guarded (fun s => Done (pop_first s));
    _ ← mirror_len;
    _ ← unlock;
    _ ← wake_opt wk;
    Ret (Some (n, stolen)).

Definition wake_one_waiter : prog Inner (option unit) :=
  _ ←? lock;
  wk ← guarded (fun s => Done (pop_first s));
  _ ← mirror_len;
  _ ← unlock;
  _ ← wake_opt wk;
  Ret (Some tt).

Fixpoint wake_each (ws : list waker) : prog Inner unit :=
  match ws with
  | [] => Ret tt
  | wk :: ws => _ ← wake_by_ref wk; wake_each ws
  end.

Definition wake_all_waiters : prog Inner (option unit) :=
  _ ←? lock;
  ws ← guarded (fun s => Done (set_waiters [] (next_id s) ∅ s, (q s).*2));
  _ ← store (set_waiters_len 0);
  _ ← unlock;
  _ ← wake_each ws;
  Ret (Some tt).

(** ** Sender *)
Inductive TrySendError : Type :=
| TrySendFull (v : T)
| TrySendClosed (v : T).

Definition clone_sender : prog Inner unit := store (fun s => set_senders (wrapping_add (senders s) 1) s).

Definition try_send (v : T) : prog Inner (option (result unit TrySendError)) :=
  c ← load closed;
  if (c : bool) then Ret (Some (RErr (TrySendClosed v)))
  else
    r ←? try_push v;
    match r with
    | ROk _ => _ ← Notify.signal recv_ref; Ret (Some (ROk tt))
    | RErr v =>
        c ← load closed;
        Ret (Some (RErr (if (c : bool) then TrySendClosed v else TrySendFull v)))
    end.

Definition try_send_many (items : list T) : prog Inner (option (nat * list T)) :=
  c ← load closed;
  if (c : bool) then Ret (Some (0, items))
  else
    '(k, rest) ←? try_push_many items;
    _ ← (if 0 <? k then Notify.signal recv_ref else Ret tt);
    Ret (Some (k, rest)).

Definition sender_is_closed : prog Inner bool := load closed.

Definition drop_sender : prog Inner unit :=
  n ← act (fun s => Done (set_senders (wrapping_sub (senders s) 1) s, senders s));
  if (n =? 1)%Z then Notify.signal recv_ref else Ret tt.

(** The future of [send]. *)
Record Send_ : Type := mkSend { val : option T; parked_id : option Z }.
Definition send (v : T) : Send_ := mkSend (Some v) None.

Definition poll_send (f : Send_) (w : waker) : prog Inner (option (Poll (result unit T) * Send_)) :=
  match val f with
  | None => Ret (Some (Ready (ROk tt), f))
  | Some v =>
      _ ←? (match parked_id f with Some id => repoll_waiter id | None => Ret (Some tt) end);
      r ←? push_or_park v w;
      match r with
      | ROk _ => _ ← Notify.signal recv_ref; Ret (Some (Ready (ROk tt), mkSend None None))
      | RErr (PClosed v) => Ret (Some (Ready (RErr v), mkSend None None))
      | RErr (Full v id) => Ret (Some (Pending, mkSend (Some v) (Some id)))
      end
  end.

Definition drop_send (f : Send_) : prog Inner (option unit) :=
  match parked_id f with Some id => cancel_waiter id | None => Ret (Some tt) end.

(** ** Receiver

    Its [staging] buffer is passed in and out. *)
Inductive TryRecvError : Type :=
| TryRecvEmpty
| TryRecvClosed.

Definition next_staged (staging : list T) : prog Inner (option (option T * list T)) :=
  match staging with
  | v :: staging =>
      n ← load waiters_len;
      _ ←? (if 0 <? n then wake_one_waiter else Ret (Some tt));
      Ret (Some (Some v, staging))
  | [] =>
      '(n, staging) ←? steal_into [];
      if 0 <? n then Ret (Some (head staging, tail staging)) else Ret (Some (None, staging))
  end.

Definition try_recv (staging : list T) : prog Inner (option (result T TryRecvError * list T)) :=
  '(o, staging) ←? next_staged staging;
  match o with
  | Some v => Ret (Some (ROk v, staging))
  | None =>
      n ← load senders;
      if (n =? 0)%Z then
        '(o, staging) ←? next_staged staging;
        Ret (Some (match o with Some v => ROk v | None => RErr TryRecvClosed end, staging))
      else Ret (Some (RErr TryRecvEmpty, staging))
  end.

(** The loop of [recv_many]: [max] more items at most. *)
Fixpoint recv_many (max : nat) (out staging : list T) : prog Inner (option (list T * list T)) :=
  match max with
  | 0 => Ret (Some (out, staging))
  | S max =>
      '(o, staging) ←? next_staged staging;
      match o with
      | Some v => recv_many max (out ++ [v]) staging
      | None => Ret (Some (out, staging))
      end
  end.

Definition receiver_is_closed : prog Inner bool := n ← load senders; Ret (n =? 0)%Z.

Definition RECV_SPIN : nat := 192.

(** [recv_hot]'s loop: [Some] when it resolved. *)
Fixpoint spin_recv (n : nat) (staging : list T) : prog Inner (option (option (option T) * list T)) :=
  match n with
  | 0 => Ret (Some (None, staging))
  | S n =>
      ne ← load nonempty;
      '(o, staging) ←? (if 0 <? ne then next_staged staging else Ret (Some (None, staging)));
      match o with
      | Some v => Ret (Some (Some (Some v), staging))
      | None =>
          k ← load senders;
          if (k =? 0)%Z then
            '(o, staging) ←? next_staged staging;
            Ret (Some (Some o, staging))
          else spin_recv n staging
      end
  end.

(** The end of [Recv::poll]: arm, look again, and park. *)
Definition park_recv (w : waker) (staging : list T) : prog Inner (option (Poll (option T) * list T)) :=
  _ ← Notify.arm recv_ref w;
  '(o, staging) ←? next_staged staging;
  match o with
  | Some v => _ ← Notify.disarm recv_ref; Ret (Some (Ready (Some v), staging))
  | None =>
      n ← load senders;
      if (n =? 0)%Z then
        _ ← Notify.disarm recv_ref;
        '(o, staging) ←? next_staged staging;
        Ret (Some (Ready o, staging))
      else
        l ← load waiters_len;
        _ ←? (if 0 <? l then wake_one_waiter else Ret (Some tt));
        Ret (Some (Pending, staging))
  end.

Definition poll_recv (spin : bool) (w : waker) (staging : list T) : prog Inner (option (Poll (option T) * list T)) :=
  '(o, staging) ←? next_staged staging;
  match o with
  | Some v => Ret (Some (Ready (Some v), staging))
  | None =>
      n ← load senders;
      if (n =? 0)%Z then
        '(o, staging) ←? next_staged staging;
        Ret (Some (Ready o, staging))
      else
        '(r, staging) ←? (if spin then spin_recv RECV_SPIN staging else Ret (Some (None, staging)));
        match r with
        | Some o => Ret (Some (Ready o, staging))
        | None => park_recv w staging
        end
  end.

Definition drop_recv : prog Inner unit := Notify.disarm recv_ref.

Definition drop_receiver : prog Inner (option unit) :=
  _ ← store (set_closed true);
  wake_all_waiters.
End me.
(** ** Clients *)

(** A sender's future, and what it was last left pending with: the waker and
    the number of wakers fired for senders before that poll. *)
Abbreviation future := (Send_ * option (waker * nat))%type.

Inductive sender_op : Type :=
| Clone                                (* one more handle for this thread *)
| DropClone                            (* one less, if it is not the last *)
| TrySend (v : T)
| TrySendMany (vs : list T)
| NewSend (v : T)                      (* a future of [send] *)
| PollSend (n : nat) (w : waker)       (* poll the [n]-th future *)
| DropSend (n : nat)                   (* drop the [n]-th future *)
| IsClosed.

(** A sender thread: its handles, its futures (dropped ones are [None]), and
    the values it has sent. *)
Record sender_state : Type := mkSS {
  ss_handles : nat;
  ss_futs : list (option future);
  ss_sent : list T
}.

Definition sender_step (me : nat) (st : sender_state) (op : sender_op) : prog Inner (option sender_state) :=
  match op with
  | Clone => _ ← clone_sender; Ret (Some (mkSS (S (ss_handles st)) (ss_futs st) (ss_sent st)))
  | DropClone =>
      match ss_handles st with
      | S (S n) => _ ← drop_sender; Ret (Some (mkSS (S n) (ss_futs st) (ss_sent st)))
      | _ => Ret (Some st)
      end
  | TrySend v =>
      r ←? try_send me v;
      Ret (Some (mkSS (ss_handles st) (ss_futs st) (ss_sent st ++ match r with ROk _ => [v] | RErr _ => [] end)))
  | TrySendMany vs =>
      '(k, _) ←? try_send_many me vs;
      Ret (Some (mkSS (ss_handles st) (ss_futs st) (ss_sent st ++ take k vs)))
  | NewSend v => Ret (Some (mkSS (ss_handles st) (ss_futs st ++ [Some (send v, None)]) (ss_sent st)))
  | PollSend n w =>
      match ss_futs st !! n with
      | Some (Some (f, _)) =>
          k ← load (fun s => length (send_log s));
          '(r, f') ←? poll_send me f w;
          Ret (Some match r with
                    | Ready (ROk _) => mkSS (ss_handles st) (<[n := Some (f', None)]> (ss_futs st))
                        (ss_sent st ++ option_list (val f))
                    | Ready (RErr _) => mkSS (ss_handles st) (<[n := Some (f', None)]> (ss_futs st)) (ss_sent st)
                    | Pending => mkSS (ss_handles st) (<[n := Some (f', Some (w, k))]> (ss_futs st)) (ss_sent st)
                    end)
      | _ => Ret (Some st)
      end
  | DropSend n =>
      match ss_futs st !! n with
      | Some (Some (f, _)) =>
          _ ←? drop_send me f;
          Ret (Some (mkSS (ss_handles st) (<[n := None]> (ss_futs st)) (ss_sent st)))
      | _ => Ret (Some st)
      end
  | IsClosed => _ ← sender_is_closed; Ret (Some st)
  end.

(** What a thread ended with; for the receiver the values received, those still
    staged, the waker of a poll left pending, whether the channel was reported
    closed, and whether it was dropped. *)
Inductive mended : Type :=
| SenderEnded (st : sender_state)
| ReceiverEnded (got staging : list T) (parked : option (waker * nat)) (over dropped : bool).

Fixpoint drop_futures (me : nat) (fs : list (option future)) : prog Inner (option unit) :=
  match fs with
  | [] => Ret (Some tt)
  | None :: fs => drop_futures me fs
  | Some (f, _) :: fs => _ ←? drop_send me f; drop_futures me fs
  end.

Fixpoint drop_senders (n : nat) : prog Inner unit :=
  match n with 0 => Ret tt | S n => _ ← drop_sender; drop_senders n end.

Fixpoint sender_thread (me : nat) (ops : list sender_op) (drops : bool) (st : sender_state) : prog Inner (option mended) :=
  match ops with
  | op :: ops => st ←? sender_step me st op; sender_thread me ops drops st
  | [] =>
      if drops then
        _ ←? drop_futures me (ss_futs st);
        _ ← drop_senders (ss_handles st);
        Ret (Some (SenderEnded (mkSS 0 [] (ss_sent st))))
      else Ret (Some (SenderEnded st))
  end.

Inductive receiver_op : Type :=
| TryRecv
| RecvMany (max : nat)
| PollRecv (hot : bool) (w : waker)
| DropRecv                             (* drop the pending future *)
| RIsClosed.

Abbreviation parking := (option (waker * nat)).

(** The values received, the staging buffer, the parking, and whether the
    channel was reported closed. *)
Definition receiver_step (me : nat) (staging : list T) (op : receiver_op) :
    prog Inner (option (list T * list T * parking * bool)) :=
  k ← load (fun s => length (recv_log s));
  match op with
  | TryRecv =>
      '(r, staging) ←? try_recv me staging;
      Ret (Some match r with
                | ROk v => ([v], staging, None, false)
                | RErr TryRecvEmpty => ([], staging, None, false)
                | RErr TryRecvClosed => ([], staging, None, true)
                end)
  | RecvMany max =>
      '(out, staging) ←? recv_many me max [] staging;
      Ret (Some (out, staging, None, false))
  | PollRecv hot w =>
      '(r, staging) ←? poll_recv me hot w staging;
      Ret (Some match r with
                | Ready (Some v) => ([v], staging, None, false)
                | Ready None => ([], staging, None, true)
                | Pending => ([], staging, Some (w, k), false)
                end)
  | DropRecv => _ ← drop_recv; Ret (Some ([], staging, None, false))
  | RIsClosed => _ ← receiver_is_closed; Ret (Some ([], staging, None, false))
  end.

Fixpoint receiver_thread (me : nat) (ops : list receiver_op) (drops : bool) (got staging : list T)
    (pk : parking) (over : bool) : prog Inner (option mended) :=
  match ops with
  | op :: ops =>
      '(vs, staging, pk, o) ←? receiver_step me staging op;
      receiver_thread me ops drops (got ++ vs) staging pk (over || o)
  | [] =>
      if drops then _ ←? drop_receiver me; Ret (Some (ReceiverEnded got staging None over true))
      else Ret (Some (ReceiverEnded got staging pk over false))
  end.

(** The receiver is thread 0; every sender thread starts with one handle. *)
Abbreviation script := (list sender_op * bool)%type.
Definition start_sender (me : nat) (sc : script) : prog Inner (option mended) :=
  sender_thread me sc.1 sc.2 (mkSS 1 [] []).
Definition mpsc_threads (rops : list receiver_op) (rdrops : bool) (scs : list script) :
    list (prog Inner (option mended)) :=
  receiver_thread 0 rops rdrops [] [] None false :: imap (fun i sc => start_sender (S i) sc) scs.

(** The channel shared by [n] more senders than the first. *)
Definition shared (n : nat) : Inner :=
  Nat.iter n (fun s => set_senders (wrapping_add (senders s) 1) s) bounded.
(** ** Auxiliary state *)

(** Of a thread: its handles; how many more ids and handles it may ask for; the
    wakers it holds and has yet to fire; and whether it is re-polling a future
    that was parked. *)
Record tinfo : Type := mkTI {
  handles : nat;
  budget : nat;
  hand : list waker;
  redeem : bool
}.

(** [hist]: every value pushed, with its sender. [taken]: the values stolen.
    [pend]: the owner of every parked id, its waker, and the number of wakers
    fired before the poll that parked it. [seen]: the parked receiver has seen a
    sender alive; [slept]: it has seen to the parked senders; [swept]: it has
    been dropped and has emptied the wait list. *)
Record mghost : Type := mkMG {
  hist : list (nat * T);
  taken : list T;
  pend : gmap Z (nat * waker * nat);
  threads : list tinfo;
  seen : bool;
  slept : bool;
  swept : bool;
  sg : Notify.SlotGhost
}.
Abbreviation config := (Inner * mghost)%type.

Definition put_sg (γ : Notify.SlotGhost) (g : mghost) : mghost :=
  mkMG (hist g) (taken g) (pend g) (threads g) (seen g) (slept g) (swept g) γ.
Definition put_thread (i : nat) (t : tinfo) (g : mghost) : mghost :=
  mkMG (hist g) (taken g) (pend g) (<[i := t]> (threads g)) (seen g) (slept g) (swept g) (sg g).
Definition put_pend (m : gmap Z (nat * waker * nat)) (g : mghost) : mghost :=
  mkMG (hist g) (taken g) m (threads g) (seen g) (slept g) (swept g) (sg g).

(** The values that sender [i] pushed. *)
Definition sent_by (i : nat) (h : list (nat * T)) : list T := (List.filter (fun e => e.1 =? i) h).*2.

(** A waker for a parked future has been fired, or somebody is about to. *)
Definition told (s : Inner) (g : mghost) (w : waker) (k : nat) : Prop :=
  w ∈ drop k (send_log s) \/ exists m t, threads g !! m = Some t /\ w ∈ hand t.

Definition total (f : tinfo -> nat) (g : mghost) : Z := Z.of_nat (sum_list (f <$> threads g)).

(** The hints mirror the data they stand for. *)
Definition hint (vs : list T) : nat := match vs with [] => 0 | _ => 1 end.

Record core (s : Inner) (g : mghost) : Prop := {
  c_hist : (hist g).*2 = taken g ++ queue s;
  c_cap : length (queue s) <= cap;
  c_holder i : locked s = Some i -> i < length (threads g);
  c_hints : locked s = None -> nonempty s = hint (queue s) /\ waiters_len s = length (q s);
  c_len : queue s = [] -> length (q s) <= waiters_len s;
  c_q id w : (id, w) ∈ q s -> exists j k, pend g !! id = Some (j, w, k);
  c_sel id : id ∈ selected s -> is_Some (pend g !! id);
  c_pend id j w k : pend g !! id = Some (j, w, k) ->
    (id < next_id s)%Z /\ k <= length (send_log s) /\
    ((id, w) ∈ q s /\ id ∉ selected s \/ told s g w k /\ (swept g = false -> id ∈ selected s));
  c_next : (0 <= next_id s)%Z;
  c_slept : slept g = true -> queue s = [] ->
    q s = [] \/ selected s <> ∅ \/ exists m t, threads g !! m = Some t /\ redeem t = true;
  c_awake : slept g = true -> closed s = false;
  c_swept : swept g = true -> closed s = true /\ q s = [];
  c_senders : senders s = total handles g;
  c_ids : (next_id s + total budget g <= usize_max)%Z;
  c_handles : (senders s + total budget g <= usize_max)%Z;
  c_owner id j w k : pend g !! id = Some (j, w, k) -> 0 < j < length (threads g)
}.

(** What a parked receiver waits for. *)
Definition awaited (x : config) : Prop := queue x.1 <> [] \/ seen x.2 = true /\ senders x.1 = 0%Z.
Abbreviation m_slot := (Notify.islot recv_ref sg awaited).

Record inv (x : config) : Prop := {
  i_core : core x.1 x.2;
  i_slot : m_slot x;
  i_ids j : j = 0 \/ length (threads x.2) <= j -> Notify.signallers (sg x.2) !! j = None
}.

(** Configurations that differ in the slot only. *)
Definition same (x x' : config) : Prop := exists sl l γ,
  x' = (mkInner (locked x.1) (nonempty x.1) (queue x.1) (q x.1) (next_id x.1) (selected x.1) sl (senders x.1)
    (closed x.1) (waiters_len x.1) l (send_log x.1) (seed x.1), put_sg γ x.2).

Lemma m_in : Notify.SlotIn recv_ref sg put_sg same awaited.
Proof.
  split; try done; try (by intros []); try (by intros [[] []]; eexists _, _, _).
  - intros s g sl γ. by eexists _, _, _.
  - intros x x' (sl & l & γ & ->). done.
Qed.

(** The data the lock guards. *)
Record Data : Type := mkData {
  d_queue : list T;
  d_q : list (Z * waker);
  d_next : Z;
  d_sel : gset Z;
  d_ne : nat;
  d_wl : nat
}.
Definition data (s : Inner) : Data :=
  mkData (queue s) (q s) (next_id s) (selected s) (nonempty s) (waiters_len s).

(** What thread [i] sees of a step of another thread. *)
Record seen_by (i : nat) (x x' : config) : Prop := {
  sb_thread : threads x'.2 !! i = threads x.2 !! i;
  sb_length : length (threads x'.2) = length (threads x.2);
  sb_hist : sent_by i (hist x'.2) = sent_by i (hist x.2);
  sb_pend id w k : pend x'.2 !! id = Some (i, w, k) <-> pend x.2 !! id = Some (i, w, k);
  sb_lock : locked x'.1 = Some i <-> locked x.1 = Some i;
  sb_data : locked x.1 = Some i -> data x'.1 = data x.1 /\ swept x'.2 = swept x.2;
  sb_log : length (send_log x.1) <= length (send_log x'.1);
  sb_signal : i <> 0 -> Notify.signallers (sg x'.2) !! i = Notify.signallers (sg x.2) !! i;
  sb_receiver : i = 0 -> taken x'.2 = taken x.2 /\ seen x'.2 = seen x.2 /\ slept x'.2 = slept x.2 /\
    swept x'.2 = swept x.2 /\ closed x'.1 = closed x.1;
  sb_over : i = 0 -> senders x.1 = 0%Z -> senders x'.1 = 0%Z /\ queue x'.1 = queue x.1;
  sb_env : i = 0 -> Notify.waiter_env recv_ref sg x x'
}.

Definition guar (i : nat) (x x' : config) : Prop := inv x -> inv x' /\ forall j, j <> i -> seen_by j x x'.
Definition rely (i : nat) (x x' : config) : Prop := inv x -> inv x' /\ seen_by i x x'.

Lemma mpsc_guar_rely i j x x' : i <> j -> guar i x x' -> rely j x x'.
Proof. intros Hne Hg Hi. destruct (Hg Hi) as [? Hs]. split; [done|]. apply Hs. done. Qed.

Lemma seen_by_refl i x : seen_by i x x.
Proof. by split. Qed.

Lemma mpsc_still i x : guar i x x.
Proof. intros Hi. split; [done|]. intros j _. apply seen_by_refl. Qed.

(** ** What a thread knows *)

(** How far the receiver knows the channel to be finished. *)
Inductive finish : Type := Running | NoSenders | Drained.
Definition knows_finish (f : finish) (s : Inner) : Prop :=
  match f with
  | Running => True
  | NoSenders => senders s = 0%Z
  | Drained => senders s = 0%Z /\ queue s = []
  end.

Record rview : Type := mkRV {
  rv_taken : list T;
  rv_fin : finish;
  rv_seen : bool;
  rv_slept : bool;
  rv_swept : bool;
  rv_closed : bool
}.
Record sview : Type := mkSV {
  sv_sent : list T;
  sv_own : gmap Z (waker * nat);
  sv_mark : nat;                       (* wakers fired before the current poll *)
  sv_phase : option Notify.SignalPhase
}.
Inductive role : Type :=
| Receiving (v : rview) (st : Notify.Waiting)
| Sending (v : sview).

Definition resting (st : Notify.Waiting) (x : config) : Prop :=
  Notify.waiting recv_ref sg st x /\
  match st with Notify.Out _ => Notify.waiter (sg x.2) = Notify.Idle | _ => True end.

(** What a receiver knows apart from its slot. *)
Record receives (v : rview) (x : config) : Prop := {
  rc_taken : taken x.2 = rv_taken v;
  rc_fin : knows_finish (rv_fin v) x.1;
  rc_seen : seen x.2 = rv_seen v;
  rc_slept : slept x.2 = rv_slept v;
  rc_swept : swept x.2 = rv_swept v;
  rc_closed : closed x.1 = rv_closed v
}.
(** What sender [i] knows apart from its phase. *)
Record sends (i : nat) (v : sview) (x : config) : Prop := {
  sd_sent : sent_by i (hist x.2) = sv_sent v;
  sd_own id w k : pend x.2 !! id = Some (i, w, k) <-> sv_own v !! id = Some (w, k);
  sd_mark : sv_mark v <= length (send_log x.1)
}.

Definition plays (i : nat) (r : role) (x : config) : Prop :=
  match r with
  | Receiving v st => i = 0 /\ receives v x /\ resting st x
  | Sending v => i <> 0 /\ sends i v x /\ Notify.signallers (sg x.2) !! i = sv_phase v
  end.

(** Whether thread [i] holds the lock, with which data, and whether it knows
    that the wait list has not been swept. *)
Abbreviation hold := (option (Data * bool)).
Definition holds (i : nat) (l : hold) (x : config) : Prop :=
  match l with
  | None => locked x.1 <> Some i
  | Some (d, o) => locked x.1 = Some i /\ data x.1 = d /\ (o = true -> swept x.2 = false)
  end.

Record at_ (i : nat) (t : tinfo) (l : hold) (r : role) (x : config) : Prop := {
  at_inv : inv x;
  at_thread : threads x.2 !! i = Some t;
  at_hold : holds i l x;
  at_role : plays i r x
}.

Lemma resting_env st x x' : resting st x -> Notify.waiter_env recv_ref sg x x' -> resting st x'.
Proof.
  intros [Hw Ho] He. split; [by eapply Notify.waiting_env|].
  destruct st; [|done..]. by rewrite (Notify.we_waiter _ _ _ _ He).
Qed.

Lemma receives_move v x x' : receives v x -> seen_by 0 x x' -> receives v x'.
Proof.
  intros [Ht Hf Hs Hl Hw Hc] Hb. destruct (sb_receiver _ _ _ Hb) as (? & ? & ? & ? & ?); [done|].
  split; try congruence. pose proof (sb_over _ _ _ Hb eq_refl) as Ho.
  destruct (rv_fin v); cbn [knows_finish] in *; [done|by apply Ho|].
  destruct Hf as [Hf Hq]. destruct (Ho Hf) as [? ->]. done.
Qed.

Lemma sends_move i v x x' : sends i v x -> seen_by i x x' -> sends i v x'.
Proof.
  intros [Hs Ho Hm] Hb. split; [by rewrite (sb_hist _ _ _ Hb)| |].
  - intros id w k. by rewrite (sb_pend _ _ _ Hb), Ho.
  - etrans; [exact Hm|apply Hb].
Qed.

Lemma plays_move i r x x' : plays i r x -> seen_by i x x' -> plays i r x'.
Proof.
  intros Hp Hb. destruct r as [v st|v]; cbn [plays] in *.
  - destruct Hp as (-> & Hr & Hw). split_and!; [done|by eapply receives_move|].
    eapply resting_env; [done|by apply Hb].
  - destruct Hp as (Hi & Hs & Hph). split_and!; [done|by eapply sends_move|]. by rewrite (sb_signal _ _ _ Hb Hi).
Qed.

Lemma holds_move i l x x' : holds i l x -> seen_by i x x' -> holds i l x'.
Proof.
  intros Hh Hb. pose proof (sb_lock _ _ _ Hb) as Hl. destruct l as [[d o]|]; cbn [holds] in *; [|tauto].
  destruct Hh as (Hk & Hd & Ho). destruct (sb_data _ _ _ Hb Hk) as [-> ->]. tauto.
Qed.

Lemma at_stable i t l r : stable (rely i) (at_ i t l r).
Proof.
  intros x x' [Hi Ht Hh Hp] Hr. destruct (Hr Hi) as [Hi' Hb]. split; [done| | |].
  - by rewrite (sb_thread _ _ _ Hb).
  - by eapply holds_move.
  - by eapply plays_move.
Qed.

(** Programs that may still be spinning: nothing is claimed of those. *)
Definition spun {A} (Q : A -> config -> Prop) (o : option A) (x : config) : Prop :=
  match o with Some a => Q a x | None => True end.
Abbreviation wps i p Q x := (wp (rely i) (guar i) p (spun Q) x).
Abbreviation wpi i p Q x := (wp (rely i) (guar i) p Q x).

Lemma wp_none {A} i (Q : A -> config -> Prop) x : wps i (Ret None) Q x.
Proof. by intros x' _. Qed.

Lemma wps_bind {A B} i (p : prog Inner (option A)) (k : A -> prog Inner (option B)) Q x :
  wps i p (fun a y => wps i (k a) Q y) x -> wps i (spin_bind p k) Q x.
Proof.
  intros Hw. apply wp_bind. eapply wp_mono; [|exact Hw]. intros [a|] y Hy; [exact Hy|]. apply wp_none.
Qed.

Lemma wps_ret {A} i t l r (a : A) (Q : A -> config -> Prop) x :
  at_ i t l r x -> (forall y, at_ i t l r y -> Q a y) -> wps i (Ret (Some a)) Q x.
Proof. intros Hx HQ. eapply wp_ret; [apply at_stable|exact Hx|exact HQ]. Qed.

Lemma wpi_ret {A} i t l r (a : A) (Q : A -> config -> Prop) x :
  at_ i t l r x -> (forall y, at_ i t l r y -> Q a y) -> wpi i (Ret a) Q x.
Proof. intros Hx HQ. eapply wp_ret; [apply at_stable|exact Hx|exact HQ]. Qed.

(** One step of thread [i]. *)
Lemma wp_at {A B} i t l r (f : Inner -> outcome (Inner * B)) (k : B -> prog Inner A) Q x :
  at_ i t l r x ->
  (forall s g, at_ i t l r (s, g) -> exists s' b g', f s = Done (s', b) /\
    guar i (s, g) (s', g') /\ wpi i (k b) Q (s', g')) ->
  wpi i (Act f k) Q x.
Proof. intros Hx Hk. eapply wp_act; [apply at_stable|exact Hx|exact Hk]. Qed.

Lemma wp_load_at {A B} i t l r (f : Inner -> B) (k : B -> prog Inner A) Q x :
  at_ i t l r x -> (forall s g, at_ i t l r (s, g) -> wpi i (k (f s)) Q (s, g)) -> wpi i (load f ≫= k) Q x.
Proof.
  intros Hx Hk. eapply wp_at; [exact Hx|]. intros s g Hs. exists s, (f s), g.
  split; [done|]. split; [apply mpsc_still|]. by apply Hk.
Qed.
(** What thread [i] may do to the slot's auxiliary state: the receiver owns its
    phase, a sender may publish. *)
Definition slot_step (i : nat) (s : Inner) (g : mghost) (s' : Inner) (g' : mghost) : Prop :=
  match i with
  | 0 => m_slot (s', g') /\ Notify.signallers (sg g') = Notify.signallers (sg g)
  | _ => Notify.changes i (awaited (s, g)) (awaited (s', g')) (sg g) (sg g')
  end.

(** A step of thread [i] that leaves the slot itself alone. *)
Record acts (i : nat) (s : Inner) (g : mghost) (s' : Inner) (g' : mghost) : Prop := {
  ac_core : core s' g';
  ac_recv : recv s' = recv s;
  ac_rlog : recv_log s' = recv_log s;
  ac_sg : slot_step i s g s' g';
  ac_threads j : j <> i -> threads g' !! j = threads g !! j;
  ac_length : length (threads g') = length (threads g);
  ac_hist j : j <> i -> sent_by j (hist g') = sent_by j (hist g);
  ac_pend j id w k : j <> i -> pend g' !! id = Some (j, w, k) <-> pend g !! id = Some (j, w, k);
  ac_lock j : j <> i -> locked s' = Some j <-> locked s = Some j;
  ac_data j : j <> i -> locked s = Some j -> data s' = data s /\ swept g' = swept g;
  ac_log : length (send_log s) <= length (send_log s');
  ac_receiver : i <> 0 -> taken g' = taken g /\ seen g' = seen g /\ slept g' = slept g /\
    swept g' = swept g /\ closed s' = closed s;
  ac_over : i <> 0 -> senders s = 0%Z -> senders s' = 0%Z /\ queue s' = queue s
}.

Lemma acts_guar i s g s' g' : i < length (threads g) -> acts i s g s' g' -> guar i (s, g) (s', g').
Proof.
  intros Hlt Ha [Hc Hs Hd]. pose proof (ac_sg _ _ _ _ _ Ha) as Hsg. unfold slot_step in Hsg. cbn [fst snd] in *.
  assert (forall j, j <> i -> Notify.signallers (sg g') !! j = Notify.signallers (sg g) !! j) as Hsig.
  { intros j Hj. destruct i; [by destruct Hsg as [_ ->]|]. by eapply Notify.changes_others. }
  split.
  - split; cbn [fst snd]; [apply Ha| |].
    + destruct i; [apply Hsg|]. unfold Notify.islot in *. cbn [fst snd recv_ref Notify.get_slot Notify.get_log] in *.
      rewrite (ac_recv _ _ _ _ _ Ha), (ac_rlog _ _ _ _ _ Ha). by eapply Notify.changes_inv.
    + intros j Hj. rewrite (ac_length _ _ _ _ _ Ha) in Hj. destruct (decide (j = i)) as [->|Hne].
      * destruct Hj as [->|Hj]; [|lia]. destruct Hsg as [_ ->]. apply Hd. by left.
      * rewrite Hsig by done. by apply Hd.
  - intros j Hj. split; cbn [fst snd].
    + by apply Ha.
    + apply Ha.
    + by apply Ha.
    + intros id w k. by apply Ha.
    + by apply Ha.
    + by apply (ac_data _ _ _ _ _ Ha).
    + by apply (ac_log _ _ _ _ _ Ha).
    + intros _. by apply Hsig.
    + intros ->. by apply (ac_receiver _ _ _ _ _ Ha).
    + intros ->. by apply (ac_over _ _ _ _ _ Ha).
    + intros ->. destruct i as [|i]; [done|]. eapply Notify.changes_env; [apply Ha|apply Ha|exact Hsg].
Qed.

Lemma at_lt i t l r x : at_ i t l r x -> i < length (threads x.2).
Proof. intros Hx. eapply lookup_lt_Some, Hx. Qed.

Lemma acts_at i t l r s g s' g' t' l' r' :
  at_ i t l r (s, g) -> acts i s g s' g' -> threads g' !! i = Some t' -> holds i l' (s', g') -> plays i r' (s', g') ->
  guar i (s, g) (s', g') /\ at_ i t' l' r' (s', g').
Proof.
  intros Hx Ha Ht Hl Hr. pose proof (acts_guar i s g s' g' (at_lt _ _ _ _ _ Hx) Ha) as Hg.
  split; [done|]. split; [|done..]. apply Hg, Hx.
Qed.

Lemma wp_acts {A B} i t l r t' l' r' (f : Inner -> outcome (Inner * B)) (k : B -> prog Inner A) Q x :
  at_ i t l r x ->
  (forall s g, at_ i t l r (s, g) -> exists s' b g', f s = Done (s', b) /\ acts i s g s' g' /\
    threads g' !! i = Some t' /\ holds i l' (s', g') /\ plays i r' (s', g') /\
    (at_ i t' l' r' (s', g') -> wpi i (k b) Q (s', g'))) ->
  wpi i (Act f k) Q x.
Proof.
  intros Hx Hk. eapply wp_at; [exact Hx|]. intros s g Hs.
  destruct (Hk s g Hs) as (s' & b & g' & Hf & Ha & Ht & Hl & Hr & Hw). exists s', b, g'. split; [done|].
  destruct (acts_at i t l r s g s' g' t' l' r') as [? ?]; try done. split; [done|]. by apply Hw.
Qed.

(** The same slot, seen by the waiter. *)
Lemma same_resting st s g s' g' :
  resting st (s, g) -> recv s' = recv s -> recv_log s' = recv_log s -> sg g' = sg g -> resting st (s', g').
Proof.
  intros [Hw Ho] Hr Hl Hg. split; [|destruct st; cbn [snd] in *; by rewrite ?Hg].
  eapply Notify.waiting_same; [exact Hw|done..].
Qed.

(** Without a change of the slot's auxiliary state: a step of thread [i] that
    does not make the awaited condition true. *)
Lemma quiet_sg i s g s' g' :
  m_slot (s, g) -> recv s' = recv s -> recv_log s' = recv_log s -> sg g' = sg g ->
  (awaited (s', g') -> awaited (s, g)) ->
  slot_step i s g s' g'.
Proof.
  intros Hs Hr Hl Hg Hc. destruct i as [|i].
  - split; [|by rewrite Hg]. unfold Notify.islot in *. cbn [fst snd recv_ref Notify.get_slot Notify.get_log] in *.
    rewrite Hr, Hl, Hg. eapply Notify.slot_inv_mono; [exact Hc|exact Hs].
  - left. split; [done|]. by right.
Qed.

(** A step that does not touch what a role is about. *)
Lemma plays_same i r s g s' g' :
  plays i r (s, g) -> recv s' = recv s -> recv_log s' = recv_log s -> sg g' = sg g ->
  senders s' = senders s -> queue s' = queue s -> closed s' = closed s ->
  hist g' = hist g -> taken g' = taken g -> pend g' = pend g -> seen g' = seen g -> slept g' = slept g ->
  swept g' = swept g -> length (send_log s) <= length (send_log s') -> plays i r (s', g').
Proof.
  intros Hp H1 H2 H3 H4 H5 H6 H7 H8 H9 H10 H11 H12 H13. destruct r as [v st|v]; cbn [plays] in *.
  - destruct Hp as (Hi & [] & Hw). split_and!; [done| |by eapply same_resting].
    split; cbn [fst snd] in *; try congruence. destruct (rv_fin v); cbn [knows_finish] in *; rewrite ?H4, ?H5; done.
  - destruct Hp as (Hi & [Hs Ho Hm] & Hph). cbn [fst snd] in *. split_and!; [done| |by rewrite <-Hph, <-H3].
    split; cbn [fst snd]; [by rewrite H7|by rewrite H9|by etrans].
Qed.

(** ** The lock *)
Definition hints_ok (d : Data) : Prop := d_ne d = hint (d_queue d) /\ d_wl d = length (d_q d).

Lemma core_lock s g i : core s g -> i < length (threads g) -> core (set_locked (Some i) s) g.
Proof. intros [] Hlt. split; try done. by intros j [= <-]. Qed.

Lemma core_unlock s g : core s g -> hints_ok (data s) -> core (set_locked None s) g.
Proof. intros [] Hh. by split. Qed.

Lemma core_seed s g z : core s g -> core (set_seed z s) g.
Proof. intros []. by split. Qed.

Ltac same_role := eapply plays_same; [eassumption|reflexivity..].
Ltac quiet := apply quiet_sg; [eassumption|done|done|done|done].

Lemma wp_try_lock {A} i t r (k : bool -> prog Inner A) Q x :
  at_ i t None r x ->
  (forall d y, hints_ok d -> at_ i t (Some (d, false)) r y -> wpi i (k true) Q y) ->
  (forall y, at_ i t None r y -> wpi i (k false) Q y) ->
  wpi i (try_lock i ≫= k) Q x.
Proof.
  intros Hx Ht Hf. eapply wp_at; [exact Hx|]. intros s g Hs. pose proof Hs as [[Hc Hsl Hd] Hth Hh Hp].
  cbn [fst snd holds] in *. unfold try_lock. destruct (locked s) as [j|] eqn:Hl.
  - exists s, false, g. split; [done|]. split; [apply mpsc_still|]. by apply Hf.
  - exists (set_locked (Some i) s), true, g. split; [done|].
    destruct (acts_at i t None r s g (set_locked (Some i) s) g t (Some (data s, false)) r) as [Hg Ha]; try done.
    { split; try done.
      - apply core_lock; [done|]. by eapply lookup_lt_Some.
      - quiet.
      - intros j Hj. simpl. rewrite Hl. naive_solver. }
    { same_role. }
    split; [exact Hg|]. eapply Ht; [|exact Ha]. by apply (c_hints _ _ Hc).
Qed.

Lemma wp_spin_loops {A} i t l r n (k : unit -> prog Inner A) Q x :
  at_ i t l r x -> (forall y, at_ i t l r y -> wpi i (k tt) Q y) -> wpi i (spin_loops n ≫= k) Q x.
Proof.
  revert x. induction n as [|n IH]; intros x Hx Hk; cbn [spin_loops].
  { by apply Hk. }
  eapply wp_load_at; [exact Hx|]. intros s g Hs. by apply IH.
Qed.

Lemma wp_jitter {A} i t l r (k : unit -> prog Inner A) Q x :
  at_ i t l r x -> (forall y, at_ i t l r y -> wpi i (k tt) Q y) -> wpi i (jitter ≫= k) Q x.
Proof.
  intros Hx Hk. eapply (wp_acts i t l r t l r); [exact Hx|]. intros s g Hs. pose proof Hs as [[Hc Hsl Hd] Hth Hh Hp].
  eexists _, _, g. split; [done|]. split_and!; [|done|by destruct l as [[]|]|same_role|].
  { split; try done; [by apply core_seed|quiet]. }
  intros Ha. by eapply wp_spin_loops.
Qed.

Lemma wp_lock_slow i t r n Q x :
  at_ i t None r x -> (forall d y, hints_ok d -> at_ i t (Some (d, false)) r y -> Q tt y) ->
  wps i (lock_slow i n) Q x.
Proof.
  revert x. induction n as [|n IH]; intros x Hx HQ; cbn [lock_slow]; [apply wp_none|].
  eapply wp_load_at; [exact Hx|]. intros s g Hs. case_bool_decide; [by apply IH|].
  eapply wp_try_lock; [exact Hs|..].
  - intros d y Hd Hy. eapply wps_ret; [exact Hy|]. intros z Hz. by eapply HQ.
  - intros y Hy. eapply wp_jitter; [exact Hy|]. intros z Hz. by apply IH.
Qed.

Lemma wp_lock i t r Q x :
  at_ i t None r x -> (forall d y, hints_ok d -> at_ i t (Some (d, false)) r y -> Q tt y) ->
  wps i (lock i) Q x.
Proof.
  intros Hx HQ. eapply wp_try_lock; [exact Hx|..].
  - intros d y Hd Hy. eapply wps_ret; [exact Hy|]. intros z Hz. by eapply HQ.
  - intros y Hy. by eapply wp_lock_slow.
Qed.

(** Take the lock, then go on. *)
Lemma wps_lock {A} i t r (k : unit -> prog Inner (option A)) Q x :
  at_ i t None r x ->
  (forall d y, hints_ok d -> at_ i t (Some (d, false)) r y -> wps i (k tt) Q y) ->
  wps i (spin_bind (lock i) k) Q x.
Proof. intros Hx HQ. apply wps_bind. by eapply wp_lock. Qed.

Lemma wp_unlock {A} i t d o r (k : unit -> prog Inner A) Q x :
  at_ i t (Some (d, o)) r x -> hints_ok d -> (forall y, at_ i t None r y -> wpi i (k tt) Q y) ->
  wpi i (unlock ≫= k) Q x.
Proof.
  intros Hx Hd Hk. eapply (wp_acts i t _ r t None r); [exact Hx|]. intros s g Hs.
  pose proof Hs as [[Hc Hsl Hi] Hth (Hl & Hdd & _) Hp]. cbn [fst snd] in *.
  eexists _, tt, g. split; [done|]. split_and!; [|done|done|same_role|by intros Ha; apply Hk].
  split; try done; [apply core_unlock; by rewrite ?Hdd|quiet|..].
  intros j Hj. simpl. rewrite Hl. naive_solver.
Qed.
(** An access to guarded data by the holder. *)
Lemma wp_guarded {A B} i t d o r t' l' r' (f : Inner -> outcome (Inner * B)) (k : B -> prog Inner A) Q x :
  at_ i t (Some (d, o)) r x ->
  (forall s g, at_ i t (Some (d, o)) r (s, g) -> exists s' b g', f s = Done (s', b) /\ acts i s g s' g' /\
    threads g' !! i = Some t' /\ holds i l' (s', g') /\ plays i r' (s', g') /\
    (at_ i t' l' r' (s', g') -> wpi i (k b) Q (s', g'))) ->
  wpi i (guarded i f ≫= k) Q x.
Proof.
  intros Hx Hk. eapply wp_acts; [exact Hx|]. intros s g Hs. pose proof Hs as [_ _ (Hl & _) _]. cbn [fst] in Hl.
  rewrite decide_True by done. by apply Hk.
Qed.

(** The parts of [acts] that hold of a step of the lock's holder [i]. *)
Ltac held_acts :=
  split; try done;
  try (intros ?j ?Hj ?Hlj; congruence);
  try (by intros ?j ?Hj; apply list_lookup_insert_ne);
  try (by apply length_insert).

Lemma wp_queue_len {A} i t d o r (k : nat -> prog Inner A) Q x :
  at_ i t (Some (d, o)) r x ->
  (forall s g, at_ i t (Some (d, o)) r (s, g) -> wpi i (k (length (d_queue d))) Q (s, g)) ->
  wpi i (queue_len i ≫= k) Q x.
Proof.
  intros Hx Hk. eapply wp_at; [exact Hx|]. intros s g Hs. pose proof Hs as [_ _ (Hl & Hd & _) _].
  exists s, (length (queue s)), g. cbn [fst snd] in *. rewrite decide_True by done. split; [done|].
  split; [apply mpsc_still|]. rewrite <-Hd in *. by apply Hk.
Qed.

(** *** Moving one thread *)
Lemma sum_insert {A} (f : A -> nat) i a b (l : list A) :
  l !! i = Some a -> sum_list (f <$> <[i := b]> l) + f a = sum_list (f <$> l) + f b.
Proof.
  unfold fmap. revert i. induction l as [|c l IH]; intros [|i] Hi; try done.
  - injection Hi as ->. simpl. lia.
  - simpl in Hi. specialize (IH i Hi). simpl. lia.
Qed.

Section moves.
Context (i : nat) (t t' : tinfo) (s s' : Inner) (g g' : mghost).
Hypothesis Ht : threads g !! i = Some t.
Hypothesis Hg : threads g' = <[i := t']> (threads g).

Lemma moved : threads g' !! i = Some t'.
Proof. rewrite Hg. apply list_lookup_insert_eq. by eapply lookup_lt_Some. Qed.

Lemma told_move w k :
  send_log s `prefix_of` send_log s' -> (w ∈ hand t -> w ∈ hand t' \/ w ∈ drop k (send_log s')) ->
  told s g w k -> told s' g' w k.
Proof.
  intros [l Hl] Hh [Hw|(m & t0 & Hm & Hw)].
  - left. rewrite Hl, drop_app. set_solver.
  - destruct (decide (m = i)) as [->|Hne].
    + rewrite Ht in Hm. injection Hm as <-. destruct (Hh Hw) as [?|?]; [|by left]. right. exists i, t'. by split; [apply moved|].
    + right. exists m, t0. split; [|done]. by rewrite Hg, list_lookup_insert_ne.
Qed.

Lemma total_move f : total f g' = (total f g - Z.of_nat (f t) + Z.of_nat (f t'))%Z.
Proof.
  unfold total. rewrite Hg. pose proof (sum_insert f i t t' (threads g) Ht). lia.
Qed.

Lemma redeem_move :
  (redeem t = true -> redeem t' = true) ->
  (exists m u, threads g !! m = Some u /\ redeem u = true) -> exists m u, threads g' !! m = Some u /\ redeem u = true.
Proof.
  intros Hr (m & u & Hm & Hu). destruct (decide (m = i)) as [->|Hne].
  - rewrite Ht in Hm. injection Hm as <-. exists i, t'. split; [apply moved|by apply Hr].
  - exists m, u. by rewrite Hg, list_lookup_insert_ne.
Qed.
End moves.

Lemma total_ge f i t g : threads g !! i = Some t -> (Z.of_nat (f t) <= total f g)%Z.
Proof.
  unfold total. intros Ht. pose proof (sum_insert f i t t (threads g) Ht).
  assert (f t <= sum_list (f <$> threads g)); [|lia]. clear -Ht. revert i Ht. unfold fmap.
  induction (threads g) as [|u l IH]; intros [|i] Hi; try done; simpl in Hi |- *.
  - injection Hi as ->. lia.
  - specialize (IH i Hi). lia.
Qed.

(** *** Pushing *)
Definition set_redeem (b : bool) (t : tinfo) : tinfo := mkTI (handles t) (budget t) (hand t) b.
Definition push_ghost (i : nat) (t : tinfo) (vs : list T) (g : mghost) : mghost :=
  mkMG (hist g ++ ((fun v => (i, v)) <$> vs)) (taken g) (pend g) (<[i := t]> (threads g)) (seen g) (slept g)
    (swept g) (Notify.set_phase i (Some Notify.Owes) (Notify.holder (sg g)) (sg g)).

Lemma sent_by_app i h h' : sent_by i (h ++ h') = sent_by i h ++ sent_by i h'.
Proof. unfold sent_by. by rewrite List.filter_app, fmap_app. Qed.

Lemma sent_by_self i vs : sent_by i ((fun v => (i, v)) <$> vs) = vs.
Proof. induction vs as [|v vs IH]; [done|]. unfold sent_by in *. cbn. rewrite Nat.eqb_refl. cbn. by rewrite IH. Qed.

Lemma sent_by_other i j vs : j <> i -> sent_by j ((fun v => (i, v)) <$> vs) = [].
Proof.
  intros Hne. induction vs as [|v vs IH]; [done|]. unfold sent_by in *. cbn.
  by rewrite (proj2 (Nat.eqb_neq i j)) by done.
Qed.

Lemma core_push i t b vs s g :
  core s g -> threads g !! i = Some t -> locked s = Some i -> vs <> [] -> length (queue s) + length vs <= cap ->
  core (set_queue (queue s ++ vs) s) (push_ghost i (set_redeem b t) vs g).
Proof.
  intros Hc Ht Hl Hv Hcap. pose proof Hc as [Ihist Icap Ihold Ihint Ilen Iq Isel Ipend Inext Islept Iaw Isw Isnd Iid Ihd Iown].
  assert (queue s ++ vs <> []) as Hne by (by intros [_ ?]%app_eq_nil).
  assert (forall f, f (set_redeem b t) = f t -> total f (push_ghost i (set_redeem b t) vs g) = total f g) as Htot.
  { intros f Hf. rewrite (total_move i t (set_redeem b t) g (push_ghost i (set_redeem b t) vs g) Ht eq_refl f), Hf. lia. }
  split; try done; cbn [set_queue queue push_ghost hist taken threads].
  - rewrite fmap_app, Ihist, <-app_assoc. f_equal. f_equal. rewrite <-list_fmap_compose. apply list_fmap_id.
  - rewrite length_app. lia.
  - rewrite length_insert. apply Ihold.
  - intros H. cbn in H. congruence.
  - intros id j w k Hp. destruct (Ipend id j w k Hp) as (? & ? & Hcase). split_and!; [done..|].
    destruct Hcase as [?|[Htd Hs]]; [by left|right]. split; [|done]. by eapply told_move; eauto.
  - by rewrite Htot.
  - by rewrite Htot.
  - by rewrite Htot.
  - rewrite length_insert. apply Iown.
Qed.

(** What a sender knows after pushing [vs]. *)
Definition pushed (vs : list T) (v : sview) : sview := mkSV (sv_sent v ++ vs) (sv_own v) (sv_mark v) (Some Notify.Owes).

Lemma push_acts i t b vs s g :
  inv (s, g) -> threads g !! i = Some t -> locked s = Some i -> i <> 0 -> vs <> [] -> 0 < handles t ->
  length (queue s) + length vs <= cap -> Notify.undecided (Notify.signallers (sg g) !! i) ->
  acts i s g (set_queue (queue s ++ vs) s) (push_ghost i (set_redeem b t) vs g).
Proof.
  intros [Hc Hsl Hid] Ht Hl Hi Hv Hh Hcap Hu. cbn [fst snd] in *. held_acts.
  - by apply core_push.
  - destruct i; [done|]. by right.
  - intros j Hj. cbn [hist push_ghost]. rewrite sent_by_app, sent_by_other by done. apply app_nil_r.
  - intros _ Hs. pose proof (total_ge handles i t g Ht). rewrite (c_senders _ _ Hc) in Hs. lia.
Qed.

Lemma plays_push i t v vs s g :
  plays i (Sending v) (s, g) ->
  plays i (Sending (pushed vs v)) (set_queue (queue s ++ vs) s, push_ghost i t vs g).
Proof.
  intros (Hi & [Hs Ho Hm] & Hp). cbn [fst snd] in *. split_and!; [done| |apply Notify.phase_eq].
  split; cbn [fst snd hist push_ghost]; [|done..]. by rewrite sent_by_app, Hs, sent_by_self.
Qed.
Definition with_queue (vs : list T) (d : Data) : Data := mkData vs (d_q d) (d_next d) (d_sel d) (d_ne d) (d_wl d).
Definition with_waiters (m : list (Z * waker)) (id : Z) (sel : gset Z) (d : Data) : Data :=
  mkData (d_queue d) m id sel (d_ne d) (d_wl d).
Definition with_ne (n : nat) (d : Data) : Data := mkData (d_queue d) (d_q d) (d_next d) (d_sel d) n (d_wl d).
Definition with_wl (n : nat) (d : Data) : Data := mkData (d_queue d) (d_q d) (d_next d) (d_sel d) (d_ne d) n.

Lemma core_nonempty i n s g : core s g -> locked s = Some i -> core (set_nonempty n s) g.
Proof. intros [] Hl. split; try done. simpl. congruence. Qed.

Lemma core_waiters_len i n s g :
  core s g -> locked s = Some i -> (queue s = [] -> length (q s) <= n) -> core (set_waiters_len n s) g.
Proof. intros [] Hl Hn. split; try done. simpl. congruence. Qed.

Lemma wp_set_nonempty {A} i t d o r n (k : unit -> prog Inner A) Q x :
  at_ i t (Some (d, o)) r x -> (forall y, at_ i t (Some (with_ne n d, o)) r y -> wpi i (k tt) Q y) ->
  wpi i (store (set_nonempty n) ≫= k) Q x.
Proof.
  intros Hx Hk. eapply (wp_acts i t _ r t (Some (with_ne n d, o)) r); [exact Hx|]. intros s g Hs.
  pose proof Hs as [[Hc Hsl Hi] Hth (Hl & Hd & Ho) Hp]. cbn [fst snd] in *. rewrite <-Hd in Hk |- *.
  eexists _, tt, g. split; [done|]. split_and!; [|done|by split_and!|same_role|by intros Ha; apply Hk].
  held_acts; [by eapply core_nonempty|quiet].
Qed.

Lemma wp_store_len {A} i t d o r n (k : unit -> prog Inner A) Q x :
  at_ i t (Some (d, o)) r x -> (d_queue d = [] -> length (d_q d) <= n) ->
  (forall y, at_ i t (Some (with_wl n d, o)) r y -> wpi i (k tt) Q y) ->
  wpi i (store (set_waiters_len n) ≫= k) Q x.
Proof.
  intros Hx Hn Hk. eapply (wp_acts i t _ r t (Some (with_wl n d, o)) r); [exact Hx|]. intros s g Hs.
  pose proof Hs as [[Hc Hsl Hi] Hth (Hl & Hd & Ho) Hp]. cbn [fst snd] in *. rewrite <-Hd in Hk, Hn |- *.
  eexists _, tt, g. split; [done|]. split_and!; [|done|by split_and!|same_role|by intros Ha; apply Hk].
  held_acts; [by eapply core_waiters_len|quiet].
Qed.

Lemma wp_mirror_len {A} i t d o r (k : unit -> prog Inner A) Q x :
  at_ i t (Some (d, o)) r x ->
  (forall y, at_ i t (Some (with_wl (length (d_q d)) d, o)) r y -> wpi i (k tt) Q y) ->
  wpi i (mirror_len i ≫= k) Q x.
Proof.
  intros Hx Hk. eapply (wp_guarded i t d o r t (Some (with_wl (length (d_q d)) d, o)) r); [exact Hx|]. intros s g Hs.
  pose proof Hs as [[Hc Hsl Hi] Hth (Hl & Hd & Ho) Hp]. cbn [fst snd] in *. rewrite <-Hd in Hk |- *.
  eexists _, tt, g. split; [done|]. split_and!; [|done|by split_and!|same_role|by intros Ha; apply Hk].
  held_acts; [by eapply core_waiters_len|quiet].
Qed.

(** Push [vs] under the lock. *)
Lemma wp_extend {A B} i t d o v b vs (f : Inner -> outcome (Inner * B)) c (k : B -> prog Inner A) Q x :
  at_ i t (Some (d, o)) (Sending v) x -> sv_phase v = None -> 0 < handles t -> vs <> [] ->
  length (d_queue d) + length vs <= cap -> (forall s, data s = d -> f s = Done (set_queue (queue s ++ vs) s, c)) ->
  (forall y, at_ i (set_redeem b t) (Some (with_queue (d_queue d ++ vs) d, o)) (Sending (pushed vs v)) y ->
    wpi i (k c) Q y) ->
  wpi i (guarded i f ≫= k) Q x.
Proof.
  intros Hx Hph Hh Hv Hcap Hf Hk. 
  eapply (wp_guarded i t d o _ (set_redeem b t) (Some (with_queue (d_queue d ++ vs) d, o)) (Sending (pushed vs v))); [exact Hx|].
  intros s g Hs. pose proof Hs as [Hi Hth (Hl & Hd & Ho) Hp]. cbn [fst snd] in *.
  exists (set_queue (queue s ++ vs) s), c, (push_ghost i (set_redeem b t) vs g). rewrite Hf by done. rewrite <-Hd in Hk, Hcap |- *.
  split; [done|]. split_and!; [| |by split_and!|by apply plays_push|by intros Ha; apply Hk].
  - apply push_acts; try done; [by destruct Hp|]. left. destruct Hp as (_ & _ & Hp). cbn [snd] in Hp. by rewrite Hp.
  - by eapply moved.
Qed.

Definition pushed_data (vs : list T) (d : Data) : Data := with_ne 1 (with_queue (d_queue d ++ vs) d).

(** After the hint is raised on the first push, the hints are right again. *)
Lemma wp_raise_hint {A} i t d o r vs (k : unit -> prog Inner A) Q x :
  at_ i t (Some (with_queue (d_queue d ++ vs) d, o)) r x -> hints_ok d -> vs <> [] ->
  (forall y, at_ i t (Some (pushed_data vs d, o)) r y -> wpi i (k tt) Q y) ->
  wpi i ((if length (d_queue d) =? 0 then store (set_nonempty 1) else Ret tt) ≫= k) Q x.
Proof.
  intros Hx [Hne _] Hv Hk. destruct (length (d_queue d) =? 0) eqn:Hz; bool_props.
  - eapply wp_set_nonempty; [exact Hx|]. intros y Hy. by apply Hk.
  - apply Hk. destruct d as [dq dm dn ds de dw]. cbn in *. destruct dq; [done|]. subst de. done.
Qed.

Lemma hints_pushed vs d : hints_ok d -> vs <> [] -> hints_ok (pushed_data vs d).
Proof. intros [_ Hw] Hv. split; [|done]. cbn. by destruct (d_queue d), vs. Qed.

Lemma wp_push_back {A} i t d o v b a (k : unit -> prog Inner A) Q x :
  at_ i t (Some (d, o)) (Sending v) x -> hints_ok d -> sv_phase v = None -> 0 < handles t -> length (d_queue d) < cap ->
  (forall y, at_ i (set_redeem b t) (Some (pushed_data [a] d, o)) (Sending (pushed [a] v)) y -> wpi i (k tt) Q y) ->
  wpi i (push_back i a ≫= k) Q x.
Proof.
  intros Hx Hd Hph Hh Hcap Hk.
  change (wpi i (guarded i (fun s => Done (set_queue (queue s ++ [a]) s, S (length (queue s)))) ≫=
    fun n => (if n =? 1 then store (set_nonempty 1) else Ret tt) ≫= k) Q x).
  eapply (wp_extend i t d o v b [a] _ (S (length (d_queue d)))); [exact Hx|done|done|done|simpl; lia|by intros s <-|].
  intros y Hy. change (S (length (d_queue d)) =? 1) with (length (d_queue d) =? 0).
  by eapply wp_raise_hint.
Qed.
Lemma mpsc_wp_try_push i t v b a Q x :
  at_ i t None (Sending v) x -> sv_phase v = None -> 0 < handles t ->
  (forall y, at_ i (set_redeem b t) None (Sending (pushed [a] v)) y -> Q (ROk tt) y) ->
  (forall y, at_ i t None (Sending v) y -> Q (RErr a) y) ->
  wps i (try_push i a) Q x.
Proof.
  intros Hx Hph Hh Hok Herr. eapply wps_lock; [exact Hx|]. clear x Hx. intros d x Hd Hx.
  eapply wp_queue_len; [exact Hx|]. clear x Hx. intros s g Hx. destruct (cap <=? length (d_queue d)) eqn:Hc; bool_props.
  - eapply wp_unlock; [exact Hx|done|]. intros y Hy. by eapply wps_ret.
  - eapply (wp_push_back i t d false v b); [exact Hx|done..|]. intros y Hy.
    eapply wp_unlock; [exact Hy|by apply hints_pushed|]. intros z Hz. by eapply wps_ret.
Qed.

Lemma wp_try_push_many i t v vs Q x :
  at_ i t None (Sending v) x -> sv_phase v = None -> 0 < handles t ->
  (forall y, at_ i t None (Sending v) y -> Q (0, vs) y) ->
  (forall k y, 0 < k <= length vs ->
    at_ i (set_redeem false t) None (Sending (pushed (take k vs) v)) y -> Q (k, drop k vs) y) ->
  wps i (try_push_many i vs) Q x.
Proof.
  intros Hx Hph Hh Hnone Hsome. unfold try_push_many. destruct vs as [|a vs']; [by eapply wps_ret|].
  set (vs := a :: vs') in *. eapply wps_lock; [exact Hx|]. clear x Hx. intros d x Hd Hx.
  eapply wp_queue_len; [exact Hx|]. clear x Hx. intros s g Hx.
  eapply wp_at; [exact Hx|]. clear s g Hx. intros s g Hx. exists s, (Z.of_nat cap - Z.of_nat (length (d_queue d)))%Z, g.
  assert (length (d_queue d) <= cap) as Hcap.
  { destruct Hx as [[Hc _ _] _ (_ & <- & _) _]. apply Hc. }
  unfold sub_usize. rewrite (proj2 (Z.leb_le _ _)) by lia. outcome_simpl. split; [done|]. split; [apply mpsc_still|].
  rewrite <-Nat2Z.inj_sub, Nat2Z.id by done. cbn zeta. set (k := (cap - length (d_queue d)) `min` length vs).
  destruct (0 <? k) eqn:Hk; bool_props.
  - assert (length (take k vs) = k) as Hlen by (rewrite length_take; lia).
    assert (take k vs <> []) as Hne by (intros Hz; rewrite Hz in Hlen; simpl in Hlen; lia).
    change (wps i (guarded i (fun s0 => Done (set_queue (queue s0 ++ take k vs) s0, tt)) ≫= fun _ =>
      (if length (d_queue d) =? 0 then store (set_nonempty 1) else Ret tt) ≫= fun _ =>
      unlock ≫= fun _ => Ret (Some (k, drop k vs))) Q (s, g)).
    eapply (wp_extend i t d false v false (take k vs)); [exact Hx|done|done|done|lia|done|]. intros y Hy.
    eapply wp_raise_hint; [exact Hy|done|done|]. clear y Hy. intros y Hy.
    eapply wp_unlock; [exact Hy|by apply hints_pushed|]. intros z Hz. eapply wps_ret; [exact Hz|]. intros u Hu.
    apply Hsome; [lia|done].
  - change (wps i (unlock ≫= fun _ => Ret (Some (k, drop k vs))) Q (s, g)). assert (k = 0) as -> by lia.
    eapply wp_unlock; [exact Hx|done|]. intros z Hz. by eapply wps_ret.
Qed.

(** *** Steps on the slot *)
Lemma core_same x x' : same x x' -> core x.1 x.2 -> core x'.1 x'.2.
Proof. intros (sl & l & γ & ->) []. by split. Qed.

Lemma mpsc_inv_same x x' :
  same x x' -> inv x -> m_slot x' ->
  (forall j, j = 0 \/ length (threads x.2) <= j -> Notify.signallers (sg x'.2) !! j = None) -> inv x'.
Proof.
  intros Hs [Hc _ _] Hsl Hid. split; [by eapply core_same|done|]. destruct Hs as (sl & l & γ & ->). apply Hid.
Qed.

(** What another thread sees of a step on the slot. *)
Lemma same_seen j x x' :
  same x x' -> (j <> 0 -> Notify.signallers (sg x'.2) !! j = Notify.signallers (sg x.2) !! j) ->
  (j = 0 -> Notify.waiter_env recv_ref sg x x') -> seen_by j x x'.
Proof. intros (sl & l & γ & ->) Hsig He. by split. Qed.

Lemma signal_guar i x x' :
  Notify.signaller_move recv_ref sg same i x x' -> 0 < i < length (threads x.2) -> inv x ->
  inv x' /\ forall j, j <> i -> seen_by j x x'.
Proof.
  intros Hm Hlt Hi. pose proof Hm as [Hs Hst]. split.
  - eapply mpsc_inv_same; [exact Hs|done| |].
    + eapply (Notify.signaller_move_inv _ _ _ _ _ m_in); [exact Hm|apply Hi].
    + intros j Hj. rewrite (Notify.ss_others _ _ _ _ _ _ _ Hst) by lia. by apply Hi.
  - intros j Hj. eapply same_seen; [done| |].
    + intros _. by apply (Notify.ss_others _ _ _ _ _ _ _ Hst).
    + intros _. eapply Notify.signaller_move_env; [exact Hm|apply Hi].
Qed.

Lemma wait_guar x x' :
  Notify.waiter_move recv_ref sg same x x' -> inv x -> inv x' /\ forall j, j <> 0 -> seen_by j x x'.
Proof.
  intros Hm Hi. pose proof Hm as [Hs Hst]. split.
  - eapply mpsc_inv_same; [exact Hs|done| |].
    + eapply (Notify.waiter_move_inv _ _ _ _ _ m_in); [exact Hm|apply Hi].
    + intros j Hj. rewrite (Notify.ws_signallers _ _ _ _ _ _ Hst). by apply Hi.
  - intros j Hj. eapply same_seen; [done| |done]. intros _. by rewrite (Notify.ws_signallers _ _ _ _ _ _ Hst).
Qed.

Lemma same_holds i l x x' : same x x' -> holds i l x -> holds i l x'.
Proof. intros (sl & l' & γ & ->). by destruct l as [[d o]|]. Qed.

Lemma same_thread x x' : same x x' -> threads x'.2 = threads x.2.
Proof. by intros (sl & l & γ & ->). Qed.

(** A sender, apart from its phase. *)
Definition sender_at (i : nat) (t : tinfo) (v : sview) (x : config) : Prop :=
  inv x /\ threads x.2 !! i = Some t /\ holds i None x /\ i <> 0 /\ sends i v x.

Definition with_phase (o : option Notify.SignalPhase) (v : sview) : sview := mkSV (sv_sent v) (sv_own v) (sv_mark v) o.

Lemma mpsc_wp_signal i t v o Q x :
  at_ i t None (Sending (with_phase o v)) x -> Notify.undecided o ->
  (forall y, at_ i t None (Sending (with_phase None v)) y -> Q tt y) ->
  wpi i (Notify.signal recv_ref) Q x.
Proof.
  intros [Hi Ht Hl (Hi0 & [Hs Ho Hm] & Hp)] Hu HQ. cbn [with_phase sv_phase sv_sent sv_own sv_mark] in *.
  apply (Notify.wp_signal _ _ _ _ _ m_in i (rely i) (guar i) (sender_at i t v)).
  - intros y y' Hr _ (Hiy & Hty & Hly & _ & Hsy). destruct (Hr Hiy) as [Hi' Hb]. split_and!; [apply Hi'| |by apply Hb].
    split_and!; [done|by rewrite (sb_thread _ _ _ Hb)|by eapply holds_move|done|by eapply sends_move].
  - intros y y' Hmv _ (Hiy & Hty & _) _. apply signal_guar; [done| |done].
    apply lookup_lt_Some in Hty. lia.
  - intros y y' Hmv _ (Hiy & Hty & Hly & _ & [Hsy Hoy Hmy]). pose proof Hmv as [Hsame _].
    assert (i < length (threads y.2)) by by eapply lookup_lt_Some.
    split_and!; [apply (signal_guar i y y' Hmv); [lia|done]|by rewrite (same_thread _ _ Hsame)|by eapply same_holds|done|].
    by destruct Hsame as (sl & l & γ & ->).
  - apply Hi.
  - by split_and!.
  - by rewrite Hp.
  - intros y (_ & (Hiy & Hty & Hly & _ & Hsy) & Hpy). apply HQ. split; [done..|]. split_and!; [done| |done]. by destruct Hsy.
Qed.

Lemma wp_try_send i t v a Q x :
  at_ i t None (Sending v) x -> sv_phase v = None -> 0 < handles t ->
  (forall y, at_ i (set_redeem false t) None (Sending (with_phase None (pushed [a] v))) y -> Q (ROk tt) y) ->
  (forall e y, at_ i t None (Sending v) y -> Q (RErr e) y) ->
  wps i (try_send i a) Q x.
Proof.
  intros Hx Hph Hh Hok Herr. eapply wp_load_at; [exact Hx|]. clear x Hx. intros s g Hx.
  destruct (closed s); [by eapply wps_ret; [exact Hx|]; intros; apply Herr|].
  apply wps_bind. eapply (mpsc_wp_try_push i t v false); [exact Hx|done|done|..].
  - intros y Hy. apply wp_bind. eapply (mpsc_wp_signal i _ (pushed [a] v)); [exact Hy|by right|]. intros z Hz. by eapply wps_ret.
  - intros y Hy. eapply wp_load_at; [exact Hy|]. intros s' g' Hz. eapply wps_ret; [exact Hz|]. intros; by apply Herr.
Qed.

Lemma wp_try_send_many i t v vs Q x :
  at_ i t None (Sending v) x -> sv_phase v = None -> 0 < handles t ->
  (forall y, at_ i t None (Sending v) y -> Q (0, vs) y) ->
  (forall k y, 0 < k <= length vs ->
    at_ i (set_redeem false t) None (Sending (with_phase None (pushed (take k vs) v))) y -> Q (k, drop k vs) y) ->
  wps i (try_send_many i vs) Q x.
Proof.
  intros Hx Hph Hh Hnone Hsome. eapply wp_load_at; [exact Hx|]. clear x Hx. intros s g Hx.
  destruct (closed s); [by eapply wps_ret|]. apply wps_bind. eapply wp_try_push_many; [exact Hx|done|done|..].
  - intros y Hy. cbn [Nat.ltb Nat.leb]. by eapply wps_ret.
  - intros k y Hk Hy. rewrite (proj2 (Nat.ltb_lt 0 k)) by lia. apply wp_bind.
    eapply (mpsc_wp_signal i _ (pushed (take k vs) v)); [exact Hy|by right|]. intros z Hz. eapply wps_ret; [exact Hz|].
    intros u Hu. by apply Hsome.
Qed.
(** ** Parked senders *)
Lemma insert_last id w m : Forall (fun e => (e.1 < id)%Z) m -> insert id w m = m ++ [(id, w)].
Proof.
  induction 1 as [|[id' w'] m Hlt Hm IH]; [done|]. cbn [fst] in Hlt. simpl.
  rewrite (proj2 (Z.ltb_ge _ _)), (proj2 (Z.eqb_neq _ _)) by lia. by rewrite IH.
Qed.

Lemma elem_of_remove id e m : e ∈ remove id m <-> e.1 <> id /\ e ∈ m.
Proof.
  unfold remove. rewrite !list_elem_of_In, List.filter_In, negb_true_iff, Z.eqb_neq. tauto.
Qed.

Lemma length_remove id m : length (remove id m) <= length m.
Proof. apply List.filter_length_le. Qed.

Lemma q_fresh s g : core s g -> Forall (fun e => (e.1 < next_id s)%Z) (q s).
Proof.
  intros Hc. apply Forall_forall. intros [id w] He. destruct (c_q _ _ Hc _ _ He) as (j & k & Hp).
  apply (c_pend _ _ Hc _ _ _ _ Hp).
Qed.

Lemma pend_fresh s g : core s g -> pend g !! next_id s = None.
Proof.
  intros Hc. apply eq_None_not_Some. intros [[[j w] k] Hp]. destruct (c_pend _ _ Hc _ _ _ _ Hp). lia.
Qed.

(** The waiter's auxiliary state: [m] parked ids, thread [i] in state [t]. *)
Definition wait_ghost (i : nat) (t : tinfo) (m : gmap Z (nat * waker * nat)) (sl : bool) (g : mghost) : mghost :=
  mkMG (hist g) (taken g) m (<[i := t]> (threads g)) (seen g) sl (swept g) (sg g).

Definition spend (t : tinfo) : tinfo := mkTI (handles t) (pred (budget t)) (hand t) false.
Definition set_hand (ws : list waker) (t : tinfo) : tinfo := mkTI (handles t) (budget t) ws (redeem t).

Lemma core_park i t w k s g :
  core s g -> threads g !! i = Some t -> i <> 0 -> locked s = Some i -> 0 < budget t -> queue s <> [] -> swept g = false ->
  k <= length (send_log s) ->
  core (set_waiters (insert (next_id s) w (q s)) (next_id s + 1) (selected s) s)
    (wait_ghost i (spend t) (<[next_id s := (i, w, k)]> (pend g)) (slept g) g).
Proof.
  intros Hc Ht Hi0 Hl Hb Hq Hsw Hk. rewrite (insert_last _ _ _ (q_fresh _ _ Hc)). pose proof (pend_fresh _ _ Hc) as Hfr.
  pose proof Hc as [Ihist Icap Ihold Ihint Ilen Iq Isel Ipend Inext Islept Iaw Isw Isnd Iid Ihd Iown].
  match goal with |- core ?a ?b => set (s' := a); set (g' := b) end.
  pose proof (fun f => total_move i t (spend t) g g' Ht eq_refl f) as Htot.
  assert (next_id s ∉ selected s) as Hns by (intros Hin; destruct (Isel _ Hin); congruence).
  split; cbn [s' g' set_waiters wait_ghost queue hist taken locked threads q selected next_id pend senders closed swept
    send_log slept]; try done.
  - rewrite length_insert. apply Ihold.
  - congruence.
  - intros id w' [Hin|[= -> ->]%list_elem_of_singleton]%elem_of_app.
    + destruct (Iq _ _ Hin) as (j & k' & Hp). exists j, k'. rewrite lookup_insert_ne; [done|]. congruence.
    + exists i, k. apply lookup_insert_eq.
  - intros id Hin. rewrite lookup_insert_ne by congruence. by apply Isel.
  - intros id j w' k' Hp. destruct (decide (id = next_id s)) as [->|Hne].
    + rewrite lookup_insert_eq in Hp. injection Hp as <- <- <-. split_and!; [lia|done|].
      left. split; [|done]. apply elem_of_app. right. by left.
    + rewrite lookup_insert_ne in Hp by done. destruct (Ipend _ _ _ _ Hp) as (? & ? & Hcase). split_and!; [lia|done|].
      destruct Hcase as [[? ?]|[Htd ?]]; [left|right]; (split; [|done]).
      * apply elem_of_app. by left.
      * by eapply (told_move i t (spend t)); eauto.
  - lia.
  - congruence.
  - rewrite (Htot handles). cbn [spend handles]. lia.
  - rewrite (Htot budget). cbn [spend budget]. lia.
  - rewrite (Htot budget). cbn [spend budget]. lia.
  - intros id j w' k' Hp. rewrite length_insert. apply lookup_insert_Some in Hp as [[_ [= <- _ _]]|[_ Hp]]; [|by eapply Iown].
    split; [lia|by eapply lookup_lt_Some].
Qed.

(** Deregistering an id of thread [i]. *)
Lemma core_forget i t b id e s g :
  core s g -> threads g !! i = Some t -> locked s = Some i -> pend g !! id = Some e ->
  (b = true \/ b = redeem t /\ id ∉ selected s) ->
  core (forget_waiter id s) (wait_ghost i (set_redeem b t) (delete id (pend g)) (slept g) g).
Proof.
  intros Hc Ht Hl He Hb. pose proof Hc as [Ihist Icap Ihold Ihint Ilen Iq Isel Ipend Inext Islept Iaw Isw Isnd Iid Ihd Iown].
  match goal with |- core ?a ?b => set (s' := a); set (g' := b) end.
  pose proof (fun f => total_move i t (set_redeem b t) g g' Ht eq_refl f) as Htot.
  split; cbn [s' g' forget_waiter set_waiters wait_ghost queue hist taken locked threads q selected next_id pend senders closed swept
    send_log slept]; try done.
  - rewrite length_insert. apply Ihold.
  - congruence.
  - intros Hq. etrans; [apply length_remove|by apply Ilen].
  - intros id' w [Hne Hin]%elem_of_remove. cbn [fst] in Hne. rewrite lookup_delete_ne by done. by apply Iq.
  - intros id' [Hin Hne]%elem_of_difference. rewrite lookup_delete_ne by (clear -Hne; set_solver). by apply Isel.
  - intros id' j w k [Hne Hp]%lookup_delete_Some. destruct (Ipend _ _ _ _ Hp) as (? & ? & Hcase). split_and!; [done..|].
    destruct Hcase as [[? ?]|[Htd Hs]]; [left|right].
    + split; [by apply elem_of_remove|]. rewrite elem_of_difference. tauto.
    + split; [by eapply (told_move i t (set_redeem b t)); eauto|]. intros Hw. specialize (Hs Hw). clear -Hs Hne. set_solver.
  - intros Hsl Hq. destruct Hb as [->|[-> Hns]].
    { right. right. exists i, (set_redeem true t). split; [by apply (moved i t _ g g')|done]. }
    destruct (Islept Hsl Hq) as [->|[Hs|Hr]]; [by left|right; left; clear -Hs Hns; set_solver|right; right].
    by apply (redeem_move i t (set_redeem (redeem t) t) g g').
  - intros Hw. destruct (Isw Hw) as [? ->]. done.
  - rewrite (Htot handles). cbn [set_redeem handles]. lia.
  - rewrite (Htot budget). cbn [set_redeem budget]. lia.
  - rewrite (Htot budget). cbn [set_redeem budget]. lia.
  - intros id' j' w' k' Hp'. unfold g'. cbn. rewrite length_insert. apply lookup_delete_Some in Hp' as [_ Hp']. by eapply Iown.
Qed.

(** Popping the first waiter. *)
Lemma core_pop i t ws b sl s g :
  core s g -> threads g !! i = Some t -> locked s = Some i -> ws = hand t ++ option_list (pop_first s).2 ->
  (sl = true -> closed s = false) ->
  core (pop_first s).1 (wait_ghost i (set_redeem b (set_hand ws t)) (pend g) sl g).
Proof.
  intros Hc Ht Hl Hws Hsl. pose proof Hc as [Ihist Icap Ihold Ihint Ilen Iq Isel Ipend Inext Islept Iaw Isw Isnd Iid Ihd Iown].
  set (t' := set_redeem b (set_hand ws t)). set (g' := wait_ghost i t' (pend g) sl g).
  pose proof (fun f => total_move i t t' g g' Ht eq_refl f) as Htot.
  assert (forall s' w k, send_log s' = send_log s -> told s g w k -> told s' g' w k) as Htold.
  { intros s' w k Hs'. apply (told_move i t t'); [done|done|by rewrite Hs'|]. subst t' ws. cbn. rewrite elem_of_app. tauto. }
  unfold pop_first in *. destruct (q s) as [|[id wk] m] eqn:Hq; cbn [fst snd] in *.
  - split; cbn [g' wait_ghost hist taken threads pend seen slept swept]; rewrite ?Hq; try done.
    + rewrite length_insert. apply Ihold.
    + intros id j w k Hp. destruct (Ipend _ _ _ _ Hp) as (? & ? & [[Hin _]|[Htd ?]]); [by apply elem_of_nil in Hin|]. split_and!; [done..|].
      right. split; [by apply Htold|done].
    + by left.
    + rewrite (Htot handles). cbn. lia.
    + rewrite (Htot budget). cbn. lia.
    + rewrite (Htot budget). cbn. lia.
    + rewrite length_insert. apply Iown.
  - assert (swept g = false) as Hsw by (destruct (swept g); [by destruct (Isw eq_refl)|done]).
    destruct (Iq id wk) as (j0 & k0 & Hp0); [by left|].
    split; cbn [g' set_waiters wait_ghost queue hist taken locked threads q selected next_id pend senders closed swept
      send_log slept]; try done.
    + rewrite length_insert. apply Ihold.
    + congruence.
    + intros Hz. specialize (Ilen Hz). simpl in Ilen. cbn. lia.
    + intros id' w' Hin. apply Iq. by right.
    + intros id' [->%elem_of_singleton|Hin]%elem_of_union; [by eexists|by apply Isel].
    + intros id' j w k Hp. destruct (Ipend _ _ _ _ Hp) as (? & ? & Hcase). split_and!; [done..|].
      destruct (decide (id' = id)) as [->|Hne].
      * right. rewrite Hp0 in Hp. injection Hp as <- <- <-. split; [|intros _; apply elem_of_union_l, elem_of_singleton_2; done].
        right. exists i, t'. split; [by apply (moved i t _ g g')|]. subst t' ws. cbn. apply elem_of_app. right. by left.
      * destruct Hcase as [[Hin ?]|[Htd Hs]]; [left|right].
        -- split; [|rewrite elem_of_union, elem_of_singleton; tauto]. apply elem_of_cons in Hin as [[= ??]|?]; done.
        -- split; [by apply Htold|]. intros Hw. specialize (Hs Hw). by apply elem_of_union_r.
    + intros _ _. right. left. clear. set_solver.
    + congruence.
    + rewrite (Htot handles). cbn. lia.
    + rewrite (Htot budget). cbn. lia.
    + rewrite (Htot budget). cbn. lia.
    + rewrite length_insert. apply Iown.
Qed.

(** Firing a waker in hand. *)
Lemma core_fire i t w ws s g :
  core s g -> threads g !! i = Some t -> hand t = w :: ws ->
  core (set_send_log (send_log s ++ [w]) s) (put_thread i (set_hand ws t) g).
Proof.
  intros Hc Ht Hh. pose proof Hc as [Ihist Icap Ihold Ihint Ilen Iq Isel Ipend Inext Islept Iaw Isw Isnd Iid Ihd Iown].
  set (g' := put_thread i (set_hand ws t) g).
  pose proof (fun f => total_move i t (set_hand ws t) g g' Ht eq_refl f) as Htot.
  split; try done.
  - cbn [g' put_thread threads]. rewrite length_insert. apply Ihold.
  - intros id j w' k Hp. destruct (Ipend _ _ _ _ Hp) as (? & Hk & Hcase). split_and!; [done|cbn; rewrite length_app; lia|].
    destruct Hcase as [?|[Htd ?]]; [by left|right]. split; [|done].
    eapply (told_move i t (set_hand ws t)); [done|done|by eexists| |exact Htd].
    rewrite Hh. intros [->|?]%elem_of_cons; [|by left]. right. cbn. rewrite drop_app_le by done. apply elem_of_app. right. by left.
  - intros Hs Hq. destruct (Islept Hs Hq) as [?|[?|?]]; [by left|right; by left|right; right].
    by apply (redeem_move i t (set_hand ws t) g g').
  - rewrite (Htot handles). cbn. lia.
  - rewrite (Htot budget). cbn. lia.
  - rewrite (Htot budget). cbn. lia.
  - intros id' j' w' k' Hp'. unfold g'. cbn. rewrite length_insert. by eapply Iown.
Qed.
Definition with_own (m : gmap Z (waker * nat)) (v : sview) : sview := mkSV (sv_sent v) m (sv_mark v) (sv_phase v).

Lemma lookup_park i j w k id0 id w' k' (m : gmap Z (nat * waker * nat)) :
  m !! id0 = None -> j <> i -> <[id0 := (i, w, k)]> m !! id = Some (j, w', k') <-> m !! id = Some (j, w', k').
Proof.
  intros Hn Hj. destruct (decide (id = id0)) as [->|Hne]; [|by rewrite lookup_insert_ne].
  rewrite lookup_insert_eq, Hn. split; congruence.
Qed.

Lemma lookup_forget i j w k id0 id w' k' (m : gmap Z (nat * waker * nat)) :
  m !! id0 = Some (i, w, k) -> j <> i -> delete id0 m !! id = Some (j, w', k') <-> m !! id = Some (j, w', k').
Proof.
  intros Hn Hj. destruct (decide (id = id0)) as [->|Hne]; [|by rewrite lookup_delete_ne].
  rewrite lookup_delete_eq, Hn. split; congruence.
Qed.

(** Allotting an id and parking. *)
Lemma wp_park {A} i t d o v w (k : Z * nat -> prog Inner A) Q x :
  at_ i t (Some (d, o)) (Sending v) x -> 0 < budget t -> d_queue d <> [] -> o = true ->
  (forall y, sv_own v !! d_next d = None ->
    at_ i (spend t) (Some (with_waiters (insert (d_next d) w (d_q d)) (d_next d + 1) (d_sel d) d, o))
      (Sending (with_own (<[d_next d := (w, sv_mark v)]> (sv_own v)) v)) y ->
    wpi i (k (d_next d, length (insert (d_next d) w (d_q d)))) Q y) ->
  wpi i (guarded i (park_waker w) ≫= k) Q x.
Proof.
  intros Hx Hb Hq Hopen Hk. eapply (wp_guarded i t d o _ (spend t)
    (Some (with_waiters (insert (d_next d) w (d_q d)) (d_next d + 1) (d_sel d) d, o))
    (Sending (with_own (<[d_next d := (w, sv_mark v)]> (sv_own v)) v))); [exact Hx|]. clear x Hx.
  intros s g Hx. pose proof Hx as [[Hc Hsl Hid] Ht (Hl & Hd & Ho) (Hi & [Hs Hown Hm] & Hp)]. cbn [fst snd] in *.
  rewrite <-Hd in Hk, Hq |- *. pose proof (pend_fresh _ _ Hc) as Hfr. specialize (Ho Hopen).
  pose proof (total_ge budget i t g Ht) as Htot. pose proof (c_ids _ _ Hc) as Hids.
  unfold park_waker, checked_add. rewrite (proj2 (Z.leb_le _ _)) by lia.
  eexists _, _, (wait_ghost i (spend t) (<[next_id s := (i, w, sv_mark v)]> (pend g)) (slept g) g).
  split; [done|]. split_and!; [| |by split_and!| |].
  - held_acts.
    + by apply core_park.
    + quiet.
    + intros j id w' k' Hj. by apply lookup_park.
  - by eapply (moved i t).
  - split_and!; [done| |done]. split; try done. intros id w' k'. cbn [snd wait_ghost pend with_own sv_own d_next data].
    destruct (decide (id = next_id s)) as [->|Hne].
    + rewrite !lookup_insert_eq. split; congruence.
    + by rewrite !lookup_insert_ne.
  - intros Ha. apply Hk; [|done]. cbn [d_next data]. apply eq_None_not_Some. intros [[w' k'] Hn]. apply Hown in Hn. congruence.
Qed.

(** Deregistering. *)
Lemma plays_forget i t v id w k sl s s' g :
  plays i (Sending v) (s, g) -> sv_own v !! id = Some (w, k) -> length (send_log s) <= length (send_log s') ->
  plays i (Sending (with_own (delete id (sv_own v)) v)) (s', wait_ghost i t (delete id (pend g)) sl g).
Proof.
  intros (Hi & [Hs Ho Hm] & Hp) Hid Hl. cbn [fst snd] in *. split_and!; [done| |done].
  split; cbn [fst snd wait_ghost hist pend with_own sv_own sv_mark]; [done| |lia].
  intros id' w' k'. destruct (decide (id' = id)) as [->|Hne]; [by rewrite !lookup_delete_eq|].
  by rewrite !lookup_delete_ne.
Qed.

Definition forgotten (id : Z) (d : Data) : Data := with_waiters (remove id (d_q d)) (d_next d) (d_sel d ∖ {[id]}) d.

Lemma wp_forget {A} i t d o v id w k0 (k : nat -> prog Inner A) Q x :
  at_ i t (Some (d, o)) (Sending v) x -> sv_own v !! id = Some (w, k0) ->
  (forall y, at_ i (set_redeem true t) (Some (forgotten id d, o)) (Sending (with_own (delete id (sv_own v)) v)) y ->
    wpi i (k (length (d_q (forgotten id d)))) Q y) ->
  wpi i (guarded i (fun s => let s := forget_waiter id s in Done (s, length (q s))) ≫= k) Q x.
Proof.
  intros Hx Hid Hk. eapply (wp_guarded i t d o _ (set_redeem true t) (Some (forgotten id d, o))
    (Sending (with_own (delete id (sv_own v)) v))); [exact Hx|]. clear x Hx.
  intros s g Hx. pose proof Hx as [[Hc Hsl Hids] Ht (Hl & Hd & Ho) Hpl].
  pose proof Hpl as (Hi & [Hs Hown Hm] & Hp). cbn [fst snd] in *. rewrite <-Hd in Hk |- *. pose proof (proj2 (Hown _ _ _) Hid) as Hpend.
  eexists _, _, (wait_ghost i (set_redeem true t) (delete id (pend g)) (slept g) g).
  split; [done|]. split_and!; [| |by split_and!|by eapply plays_forget|by intros Ha; apply Hk].
  - held_acts; [eapply core_forget; eauto|quiet|].
    intros j id' w' k' Hj. by eapply lookup_forget.
  - by eapply (moved i t).
Qed.

(** What popping does to the data. *)
Definition popped (d : Data) : Data :=
  match d_q d with [] => d | (id, _) :: m => with_waiters m (d_next d) ({[id]} ∪ d_sel d) d end.
Definition first_waker (d : Data) : option waker := snd <$> head (d_q d).

Lemma pop_first_data s :
  data (pop_first s).1 = popped (data s) /\ (pop_first s).2 = first_waker (data s) /\
  locked (pop_first s).1 = locked s /\ recv (pop_first s).1 = recv s /\ recv_log (pop_first s).1 = recv_log s /\
  queue (pop_first s).1 = queue s /\ senders (pop_first s).1 = senders s /\ closed (pop_first s).1 = closed s /\
  send_log (pop_first s).1 = send_log s.
Proof. unfold pop_first, popped, first_waker. destruct s as [? ? ? m]; cbn. by destruct m as [|[]]. Qed.

Definition passed (id : Z) (d : Data) : Data :=
  if bool_decide (id ∈ d_sel d) then popped (forgotten id d) else forgotten id d.
Definition next_waker (id : Z) (d : Data) : option waker :=
  if bool_decide (id ∈ d_sel d) then first_waker (forgotten id d) else None.

Lemma pass_on_data id s :
  data (pass_on id s).1 = passed id (data s) /\ (pass_on id s).2 = next_waker id (data s) /\
  locked (pass_on id s).1 = locked s /\ recv (pass_on id s).1 = recv s /\ recv_log (pass_on id s).1 = recv_log s /\
  queue (pass_on id s).1 = queue s /\ senders (pass_on id s).1 = senders s /\ closed (pass_on id s).1 = closed s /\
  send_log (pass_on id s).1 = send_log s.
Proof.
  unfold pass_on, passed, next_waker. cbn [d_sel data]. case_bool_decide; [|done].
  destruct (pop_first_data (forget_waiter id s)) as (? & ? & ? & ? & ? & ? & ? & ? & ?). by split_and!.
Qed.

Lemma core_pass i t id e s g :
  core s g -> threads g !! i = Some t -> locked s = Some i -> pend g !! id = Some e -> hand t = [] ->
  core (pass_on id s).1 (wait_ghost i (set_hand (option_list (pass_on id s).2) t) (delete id (pend g)) (slept g) g).
Proof.
  intros Hc Ht Hl He Hh. unfold pass_on. case_bool_decide as Hsel.
  - pose proof (core_forget i t true id e s g Hc Ht Hl He (or_introl eq_refl)) as Hc1.
    set (g1 := wait_ghost i (set_redeem true t) (delete id (pend g)) (slept g) g) in *.
    assert (threads g1 !! i = Some (set_redeem true t)) as Ht1 by (by eapply (moved i t)).
    pose proof (core_pop i (set_redeem true t) _ (redeem t) (slept g) _ g1 Hc1 Ht1 Hl eq_refl) as Hc2.
    cbn [hand set_redeem] in Hc2. rewrite Hh in Hc2. cbn [app] in Hc2.
    replace (wait_ghost i (set_hand _ t) _ _ g) with
      (wait_ghost i (set_redeem (redeem t) (set_hand (option_list (pop_first (forget_waiter id s)).2) (set_redeem true t)))
        (pend g1) (slept g) g1); [apply Hc2, (c_awake _ _ Hc)|].
    unfold wait_ghost, g1. cbn. by rewrite list_insert_insert_eq.
  - cbn [snd fst]. replace (set_hand (option_list None) t) with (set_redeem (redeem t) t).
    2:{ destruct t. cbn in *. by subst. }
    eapply core_forget; eauto.
Qed.

Lemma wp_pass_on {A} i t d o v id w k0 (k : option waker -> prog Inner A) Q x :
  at_ i t (Some (d, o)) (Sending v) x -> sv_own v !! id = Some (w, k0) -> hand t = [] ->
  (forall y, at_ i (set_hand (option_list (next_waker id d)) t) (Some (passed id d, o))
      (Sending (with_own (delete id (sv_own v)) v)) y -> wpi i (k (next_waker id d)) Q y) ->
  wpi i (guarded i (fun s => Done (pass_on id s)) ≫= k) Q x.
Proof.
  intros Hx Hid Hh Hk. eapply (wp_guarded i t d o _ (set_hand (option_list (next_waker id d)) t) (Some (passed id d, o))
    (Sending (with_own (delete id (sv_own v)) v))); [exact Hx|]. clear x Hx.
  intros s g Hx. pose proof Hx as [[Hc Hsl Hids] Ht (Hl & Hd & Ho) Hpl].
  pose proof Hpl as (Hi & [Hs Hown Hm] & Hp). cbn [fst snd] in *. rewrite <-Hd in Hk |- *. pose proof (proj2 (Hown _ _ _) Hid) as Hpend.
  destruct (pass_on_data id s) as (Ed & Ew & El & Er & Erl & Eq & Es & Ec & Esl).
  eexists (pass_on id s).1, (pass_on id s).2, (wait_ghost i (set_hand (option_list (pass_on id s).2) t) (delete id (pend g)) (slept g) g).
  split; [by destruct (pass_on id s)|]. rewrite Ew. split_and!.
  - held_acts.
    + rewrite <-Ew. by eapply core_pass.
    + apply quiet_sg; try done. unfold awaited. cbn. by rewrite Eq, Es.
    + intros j id' w' k' Hj. by eapply lookup_forget.
    + intros j Hj. by rewrite El.
    + rewrite Esl. done.
    + by rewrite Es, Eq.
  - by eapply (moved i t).
  - split_and!; [by cbn; rewrite El|done|done].
  - eapply plays_forget; [exact Hpl|exact Hid|]. by rewrite Esl.
  - intros Ha. by apply Hk.
Qed.

(** Popping by the receiver. *)
Definition with_slept (b : bool) (v : rview) : rview :=
  mkRV (rv_taken v) (rv_fin v) (rv_seen v) b (rv_swept v) (rv_closed v).

Lemma mpsc_wp_pop {A} t d o v st (k : option waker -> prog Inner A) Q x :
  at_ 0 t (Some (d, o)) (Receiving v st) x -> hand t = [] -> rv_closed v = false ->
  (forall y, at_ 0 (set_hand (option_list (first_waker d)) t) (Some (popped d, o)) (Receiving (with_slept true v) st) y ->
    wpi 0 (k (first_waker d)) Q y) ->
  wpi 0 (guarded 0 (fun s => Done (pop_first s)) ≫= k) Q x.
Proof.
  intros Hx Hh Hcl Hk. eapply (wp_guarded 0 t d o _ (set_hand (option_list (first_waker d)) t) (Some (popped d, o))
    (Receiving (with_slept true v) st)); [exact Hx|]. clear x Hx.
  intros s g Hx. pose proof Hx as [[Hc Hsl Hids] Ht (Hl & Hd & Ho) (_ & Hr & Hst)]. pose proof Hr as [Rt Rf Rs Rl Rw Rc].
  cbn [fst snd] in *. rewrite <-Hd in Hk |- *.
  destruct (pop_first_data s) as (Ed & Ew & El & Er & Erl & Eq & Es & Ec & Esl).
  eexists (pop_first s).1, (pop_first s).2, (wait_ghost 0 (set_hand (option_list (pop_first s).2) t) (pend g) true g).
  split; [by destruct (pop_first s)|]. rewrite Ew. split_and!.
  - held_acts.
    + pose proof (core_pop 0 t (option_list (first_waker (data s))) (redeem t) true s g Hc Ht Hl) as Hcp.
      apply Hcp; [by rewrite Hh, Ew|congruence].
    + apply quiet_sg; try done. unfold awaited. cbn. by rewrite Eq, Es.
    + intros j Hj. by rewrite El.
    + rewrite Esl. done.
  - by eapply (moved 0 t).
  - split_and!; [by cbn; rewrite El|done|done].
  - split_and!; [done| |by eapply same_resting].
    split; cbn [with_slept rv_taken rv_fin rv_seen rv_slept rv_swept rv_closed fst snd]; try done; [|congruence].
    destruct (rv_fin v); cbn in *; rewrite ?Es, ?Eq; done.
  - intros Ha. by apply Hk.
Qed.
(** *** Firing the wakers in hand *)
Lemma wp_fire {A} i t l r w ws (k : unit -> prog Inner A) Q x :
  at_ i t l r x -> hand t = w :: ws ->
  (forall y, at_ i (set_hand ws t) l r y -> wpi i (k tt) Q y) -> wpi i (wake_by_ref w ≫= k) Q x.
Proof.
  intros Hx Hh Hk. eapply (wp_acts i t l r (set_hand ws t) l r); [exact Hx|]. clear x Hx. intros s g Hx.
  pose proof Hx as [[Hc Hsl Hids] Ht Hl Hp]. cbn [fst snd] in *.
  eexists _, tt, (put_thread i (set_hand ws t) g). split; [done|]. split_and!.
  - held_acts; [by apply core_fire|quiet|]. cbn. rewrite length_app. lia.
  - by eapply (moved i t).
  - by destruct l as [[]|].
  - eapply plays_same; [exact Hp|reflexivity..|]. cbn. rewrite length_app. lia.
  - intros Ha. by apply Hk.
Qed.

Lemma set_hand_self t : set_hand (hand t) t = t.
Proof. by destruct t. Qed.

Lemma set_hand_twice ws ws' t : set_hand ws (set_hand ws' t) = set_hand ws t.
Proof. done. Qed.

Lemma wp_wake_opt {A} i t l r o (k : unit -> prog Inner A) Q x :
  at_ i (set_hand (option_list o) t) l r x -> hand t = [] ->
  (forall y, at_ i t l r y -> wpi i (k tt) Q y) -> wpi i (wake_opt o ≫= k) Q x.
Proof.
  intros Hx Hh Hk. assert (set_hand [] t = t) as Ht by (rewrite <-Hh; apply set_hand_self).
  destruct o as [w|]; cbn [wake_opt].
  - eapply wp_fire; [exact Hx|done|]. rewrite set_hand_twice, Ht. done.
  - apply Hk. change (at_ i (set_hand [] t) l r x) in Hx. by rewrite Ht in Hx.
Qed.

Lemma wp_wake_each {A} i t l r ws (k : unit -> prog Inner A) Q x :
  at_ i (set_hand ws t) l r x -> hand t = [] ->
  (forall y, at_ i t l r y -> wpi i (k tt) Q y) -> wpi i (wake_each ws ≫= k) Q x.
Proof.
  intros Hx Hh Hk. revert x Hx. induction ws as [|w ws IH]; intros x Hx; cbn [wake_each].
  - apply Hk. rewrite <-Hh, set_hand_self in Hx. done.
  - eapply (wp_fire (A := A) i _ l r w ws (fun _ => wake_each ws ≫= k)); [exact Hx|done|].
    intros y Hy. by apply IH.
Qed.

(** ** The wait list operations *)
Lemma hints_mirror d : d_ne d = hint (d_queue d) -> hints_ok (with_wl (length (d_q d)) d).
Proof. by split. Qed.

Lemma popped_ne d : d_ne (popped d) = d_ne d /\ d_queue (popped d) = d_queue d.
Proof. unfold popped. by destruct (d_q d) as [|[]]. Qed.

Lemma passed_ne id d : d_ne (passed id d) = d_ne d /\ d_queue (passed id d) = d_queue d.
Proof. unfold passed. case_bool_decide; [|done]. by destruct (popped_ne (forgotten id d)). Qed.

Lemma wp_repoll i t v id w k0 Q x :
  at_ i t None (Sending v) x -> sv_own v !! id = Some (w, k0) ->
  (forall y, at_ i (set_redeem true t) None (Sending (with_own (delete id (sv_own v)) v)) y -> Q tt y) ->
  wps i (repoll_waiter i id) Q x.
Proof.
  intros Hx Hid HQ. eapply wps_lock; [exact Hx|]. clear x Hx. intros d x Hd Hx.
  eapply wp_forget; [exact Hx|exact Hid|]. clear x Hx. intros x Hx.
  eapply wp_store_len; [exact Hx|done|]. clear x Hx. intros x Hx.
  eapply wp_unlock; [exact Hx|apply hints_mirror, Hd|]. intros y Hy. by eapply wps_ret.
Qed.

Lemma wp_cancel i t v id w k0 Q x :
  at_ i t None (Sending v) x -> sv_own v !! id = Some (w, k0) -> hand t = [] ->
  (forall y, at_ i t None (Sending (with_own (delete id (sv_own v)) v)) y -> Q tt y) ->
  wps i (cancel_waiter i id) Q x.
Proof.
  intros Hx Hid Hh HQ. eapply wps_lock; [exact Hx|]. clear x Hx. intros d x Hd Hx.
  eapply wp_pass_on; [exact Hx|exact Hid|done|]. clear x Hx. intros x Hx.
  eapply wp_mirror_len; [exact Hx|]. clear x Hx. intros x Hx.
  eapply wp_unlock; [exact Hx|apply hints_mirror|].
  { destruct (passed_ne id d) as [-> ->]. apply Hd. }
  clear x Hx. intros x Hx. eapply wp_wake_opt; [exact Hx|done|]. intros y Hy. by eapply wps_ret.
Qed.

Lemma wp_wake_one t v st Q x :
  at_ 0 t None (Receiving v st) x -> hand t = [] -> rv_closed v = false ->
  (forall y, at_ 0 t None (Receiving (with_slept true v) st) y -> Q tt y) -> wps 0 (wake_one_waiter 0) Q x.
Proof.
  intros Hx Hh Hcl HQ. eapply wps_lock; [exact Hx|]. clear x Hx. intros d x Hd Hx.
  eapply mpsc_wp_pop; [exact Hx|done|done|]. clear x Hx. intros x Hx.
  eapply wp_mirror_len; [exact Hx|]. clear x Hx. intros x Hx.
  eapply wp_unlock; [exact Hx|apply hints_mirror|].
  { destruct (popped_ne d) as [-> ->]. apply Hd. }
  clear x Hx. intros x Hx. eapply wp_wake_opt; [exact Hx|done|]. intros y Hy. by eapply wps_ret.
Qed.

(** ** Sending *)

(** With the channel closed nobody waits for a re-polled sender. *)
Lemma core_unredeem i t s g :
  core s g -> threads g !! i = Some t -> slept g = false -> core s (put_thread i (set_redeem false t) g).
Proof.
  intros Hc Ht Hs. pose proof Hc as [Ihist Icap Ihold Ihint Ilen Iq Isel Ipend Inext Islept Iaw Isw Isnd Iid Ihd Iown].
  set (g' := put_thread i (set_redeem false t) g).
  pose proof (fun f => total_move i t (set_redeem false t) g g' Ht eq_refl f) as Htot. split; try done.
  - cbn [g' put_thread threads]. rewrite length_insert. apply Ihold.
  - intros id j w k Hp. destruct (Ipend _ _ _ _ Hp) as (? & ? & Hcase). split_and!; [done..|].
    destruct Hcase as [?|[Htd ?]]; [by left|right]. split; [|done]. by eapply (told_move i t (set_redeem false t)); eauto.
  - cbn. congruence.
  - rewrite (Htot handles). cbn. lia.
  - rewrite (Htot budget). cbn. lia.
  - rewrite (Htot budget). cbn. lia.
  - intros id' j' w' k' Hp'. unfold g'. cbn. rewrite length_insert. by eapply Iown.
Qed.

Lemma wp_load_closed {A} i t l r (k : bool -> prog Inner A) Q x :
  at_ i t l r x -> i <> 0 ->
  (forall y, at_ i (set_redeem false t) l r y -> wpi i (k true) Q y) ->
  (forall y, at_ i t (option_map (fun e => (e.1, true)) l) r y -> wpi i (k false) Q y) ->
  wpi i (load closed ≫= k) Q x.
Proof.
  intros Hx Hi Ht Hf. eapply wp_at; [exact Hx|]. clear x Hx. intros s g Hx.
  pose proof Hx as [[Hc Hsl Hids] Hth Hl Hp]. cbn [fst snd] in *. exists s. destruct (closed s) eqn:Hcl.
  - exists true, (put_thread i (set_redeem false t) g). split; [done|].
    assert (slept g = false) as Hs. { destruct (slept g) eqn:Hs; [|done]. apply (c_awake _ _ Hc) in Hs. congruence. }
    destruct (acts_at i t l r s g s (put_thread i (set_redeem false t) g) (set_redeem false t) l r) as [Hg Ha]; try done.
    + held_acts; [by apply core_unredeem|quiet].
    + by eapply (moved i t).
    + same_role.
    + split; [exact Hg|by apply Ht].
  - exists false, g. split; [done|]. split; [apply mpsc_still|]. apply Hf. split; try done.
    destruct l as [[d o]|]; [|done]. destruct Hl as (? & ? & _). split_and!; [done..|]. intros _.
    destruct (swept g) eqn:Hs; [|done]. apply (c_swept _ _ Hc) in Hs as [? _]. cbn [fst] in *. congruence.
Qed.

Hypothesis cap_pos : 0 < cap.

Lemma wp_push_or_park i t v a w Q x :
  at_ i t None (Sending v) x -> sv_phase v = None -> 0 < handles t -> 0 < budget t ->
  (forall y, at_ i (set_redeem false t) None (Sending (pushed [a] v)) y -> Q (ROk tt) y) ->
  (forall y, at_ i (set_redeem false t) None (Sending v) y -> Q (RErr (PClosed a)) y) ->
  (forall id y, sv_own v !! id = None ->
    at_ i (spend t) None (Sending (with_own (<[id := (w, sv_mark v)]> (sv_own v)) v)) y -> Q (RErr (Full a id)) y) ->
  wps i (push_or_park i a w) Q x.
Proof.
  intros Hx Hph Hh Hb Hok Hcl Hfull. assert (i <> 0) as Hi by apply Hx.
  eapply wp_load_closed; [exact Hx|done|by intros y Hy; eapply wps_ret|]. cbn [option_map]. clear x Hx. intros x Hx.
  apply wps_bind. eapply (mpsc_wp_try_push i t v false); [exact Hx|done|done|by intros y Hy; eapply wps_ret|].
  clear x Hx. intros x Hx. eapply wps_lock; [exact Hx|]. clear x Hx. intros d x Hd Hx.
  eapply wp_load_closed; [exact Hx|done|..].
  { intros y Hy. eapply wp_unlock; [exact Hy|done|]. intros z Hz. by eapply wps_ret. }
  cbn [option_map fst]. clear x Hx. intros x Hx. eapply wp_queue_len; [exact Hx|]. clear x Hx. intros s g Hx.
  destruct (length (d_queue d) <? cap) eqn:Hlt; bool_props.
  - eapply (wp_push_back i t d true v false); [exact Hx|done..|]. intros y Hy.
    eapply wp_unlock; [exact Hy|by apply hints_pushed|]. intros z Hz. by eapply wps_ret.
  - assert (d_queue d <> []) as Hq by (intros Hq; rewrite Hq in Hlt; simpl in Hlt; lia).
    eapply wp_park; [exact Hx|done|done|done|]. clear s g Hx. intros x Hfr Hx.
    eapply wp_store_len; [exact Hx|done|]. clear x Hx. intros x Hx.
    eapply wp_unlock; [exact Hx|apply hints_mirror, Hd|]. intros y Hy. eapply wps_ret; [exact Hy|]. intros z Hz. by eapply Hfull.
Qed.
(** The ids left after a future's registration is dropped. *)
Definition unpark_own (f : Send_) (m : gmap Z (waker * nat)) : gmap Z (waker * nat) :=
  match parked_id f with Some id => delete id m | None => m end.

Lemma unredeemed t b : redeem t = false -> set_redeem false (set_redeem b t) = t.
Proof. destruct t. cbn. by intros ->. Qed.

Lemma wp_poll_send i t v f w Q x :
  at_ i t None (Sending v) x -> sv_phase v = None -> 0 < handles t -> 0 < budget t -> redeem t = false ->
  (forall id, parked_id f = Some id -> is_Some (sv_own v !! id)) ->
  (forall y, val f = None -> at_ i t None (Sending v) y -> Q (Ready (ROk tt), f) y) ->
  (forall a y, val f = Some a ->
    at_ i t None (Sending (with_phase None (pushed [a] (with_own (unpark_own f (sv_own v)) v)))) y ->
    Q (Ready (ROk tt), mkSend None None) y) ->
  (forall a y, val f = Some a -> at_ i t None (Sending (with_own (unpark_own f (sv_own v)) v)) y ->
    Q (Ready (RErr a), mkSend None None) y) ->
  (forall a id y, val f = Some a -> unpark_own f (sv_own v) !! id = None ->
    at_ i (spend t) None (Sending (with_own (<[id := (w, sv_mark v)]> (unpark_own f (sv_own v))) v)) y ->
    Q (Pending, mkSend (Some a) (Some id)) y) ->
  wps i (poll_send i f w) Q x.
Proof.
  intros Hx Hph Hh Hb Hr Hid Hdone Hok Herr Hpend. unfold poll_send. destruct (val f) as [a|].
  2:{ eapply wps_ret; [exact Hx|]. intros y Hy. by apply Hdone. }
  assert (forall b x, at_ i (set_redeem b t) None (Sending (with_own (unpark_own f (sv_own v)) v)) x ->
    wps i (spin_bind (push_or_park i a w) (fun r => match r with
      | ROk _ => Notify.signal recv_ref ≫= fun _ => Ret (Some (Ready (ROk tt), mkSend None None))
      | RErr (PClosed v) => Ret (Some (Ready (RErr v), mkSend None None))
      | RErr (Full v id) => Ret (Some (Pending, mkSend (Some v) (Some id)))
      end)) Q x) as Hrest.
  { clear x Hx. intros b x Hx. apply wps_bind. eapply wp_push_or_park; [exact Hx|done|done|done|..]; rewrite ?unredeemed by done.
    - intros y Hy. apply wp_bind.
      eapply (mpsc_wp_signal i t (pushed [a] (with_own (unpark_own f (sv_own v)) v))); [exact Hy|by right|].
      intros z Hz. eapply wps_ret; [exact Hz|]. intros u Hu. by eapply Hok.
    - intros y Hy. eapply wps_ret; [exact Hy|]. intros z Hz. by apply Herr.
    - intros id y Hfr Hy. eapply wps_ret; [exact Hy|]. intros z Hz. by eapply Hpend. }
  apply wps_bind. unfold unpark_own in *. destruct (parked_id f) as [id|].
  - destruct (Hid id eq_refl) as [[w0 k0] Hown]. eapply wp_repoll; [exact Hx|exact Hown|]. intros y Hy. by eapply Hrest.
  - eapply wps_ret; [exact Hx|]. intros y Hy. apply (Hrest false).
    replace (set_redeem false t) with t by (destruct t; cbn in *; by subst). by destruct v.
Qed.

Lemma wp_drop_send i t v f Q x :
  at_ i t None (Sending v) x -> hand t = [] -> (forall id, parked_id f = Some id -> is_Some (sv_own v !! id)) ->
  (forall y, at_ i t None (Sending (with_own (unpark_own f (sv_own v)) v)) y -> Q tt y) ->
  wps i (drop_send i f) Q x.
Proof.
  intros Hx Hh Hid HQ. unfold drop_send, unpark_own in *. destruct (parked_id f) as [id|].
  - destruct (Hid id eq_refl) as [[w0 k0] Hown]. by eapply wp_cancel.
  - eapply wps_ret; [exact Hx|]. intros y Hy. apply HQ. by destruct v.
Qed.

(** ** Handles *)
Definition with_handles (n b : nat) (t : tinfo) : tinfo := mkTI n b (hand t) (redeem t).

Lemma core_handles i t n b z s g :
  core s g -> threads g !! i = Some t -> z = (senders s - Z.of_nat (handles t) + Z.of_nat n)%Z ->
  b + n <= budget t + handles t -> b <= budget t ->
  core (set_senders z s) (put_thread i (with_handles n b t) g).
Proof.
  intros Hc Ht Hz Hn Hb. pose proof Hc as [Ihist Icap Ihold Ihint Ilen Iq Isel Ipend Inext Islept Iaw Isw Isnd Iid Ihd Iown].
  set (g' := put_thread i (with_handles n b t) g).
  pose proof (fun f => total_move i t (with_handles n b t) g g' Ht eq_refl f) as Htot. split; try done.
  - cbn [g' put_thread threads]. rewrite length_insert. apply Ihold.
  - intros id j w k Hp. destruct (Ipend _ _ _ _ Hp) as (? & ? & Hcase). split_and!; [done..|].
    destruct Hcase as [?|[Htd ?]]; [by left|right]. split; [|done]. by eapply (told_move i t (with_handles n b t)); eauto.
  - intros Hs Hq. destruct (Islept Hs Hq) as [?|[?|?]]; [by left|right; by left|right; right].
    by apply (redeem_move i t (with_handles n b t) g g').
  - rewrite (Htot handles). cbn. lia.
  - rewrite (Htot budget). cbn. lia.
  - rewrite (Htot budget). cbn. lia.
  - intros id' j' w' k' Hp'. unfold g'. cbn. rewrite length_insert. by eapply Iown.
Qed.

Lemma wp_clone {A} i t v (k : unit -> prog Inner A) Q x :
  at_ i t None (Sending v) x -> 0 < handles t -> 0 < budget t ->
  (forall y, at_ i (with_handles (S (handles t)) (pred (budget t)) t) None (Sending v) y -> wpi i (k tt) Q y) ->
  wpi i (clone_sender ≫= k) Q x.
Proof.
  intros Hx Hh Hb Hk. set (t' := with_handles (S (handles t)) (pred (budget t)) t).
  eapply (wp_acts i t None _ t' None (Sending v)); [exact Hx|]. clear x Hx. intros s g Hx.
  pose proof Hx as [[Hc Hsl Hids] Ht Hl Hp]. cbn [fst snd] in *.
  pose proof (total_ge handles i t g Ht) as H1. pose proof (total_ge budget i t g Ht) as H2.
  pose proof (c_senders _ _ Hc) as H3. pose proof (c_handles _ _ Hc) as H4.
  eexists _, tt, (put_thread i t' g). split; [done|].
  assert (wrapping_add (senders s) 1 = (senders s + 1)%Z) as ->.
  { unfold wrapping_add, wrap. apply Z.mod_small. unfold usize_max in H4. lia. }
  split_and!; [|by eapply (moved i t)|done| |by intros Ha; apply Hk].
  - held_acts.
    + eapply core_handles; eauto; lia.
    + apply quiet_sg; try done. intros [?|[_ Hz]]; [by left|]. cbn in Hz. lia.
    + intros _ Hz. lia.
  - destruct Hp as (? & [] & ?). by split_and!.
Qed.

(** Dropping a handle; the last one publishes the closure. *)
Lemma mpsc_wp_drop_sender i t v n Q x :
  at_ i t None (Sending v) x -> sv_phase v = None -> handles t = S n ->
  (forall y, at_ i (with_handles n (budget t) t) None (Sending v) y -> Q tt y) -> wpi i drop_sender Q x.
Proof.
  intros Hx Hph Hh HQ. set (t' := with_handles n (budget t) t).
  eapply wp_at; [exact Hx|]. clear x Hx. intros s g Hx.
  pose proof Hx as [[Hc Hsl Hids] Ht Hl Hp]. cbn [fst snd] in *. pose proof Hp as (Hi & [Hs Ho Hm] & Hph'). cbn [fst snd] in *.
  pose proof (total_ge handles i t g Ht) as H1. pose proof (total_ge budget i t g Ht) as H2.
  pose proof (c_senders _ _ Hc) as H3. pose proof (c_handles _ _ Hc) as H4.
  assert (wrapping_sub (senders s) 1 = (senders s - 1)%Z) as Hz.
  { unfold wrapping_sub, wrap. apply Z.mod_small. unfold usize_max in H4. lia. }
  set (last := (senders s =? 1)%Z). set (γ := if last then Notify.set_phase i (Some Notify.Owes) (Notify.holder (sg g)) (sg g) else sg g).
  assert (core (set_senders (senders s - 1) s) (put_thread i t' g)) as Hc' by (eapply core_handles; eauto; lia).
  destruct (acts_at i t None (Sending v) s g (set_senders (senders s - 1) s) (put_sg γ (put_thread i t' g)) t' None
    (Sending (with_phase (if last then Some Notify.Owes else None) v))) as [Hg Ha]; [exact Hx| | |done| |].
  - held_acts.
    + by destruct Hc'.
    + destruct i as [|i]; [done|]. subst last γ. destruct (senders s =? 1)%Z eqn:He; bool_props.
      * right. split; [done|]. left. by rewrite Hph', Hph.
      * left. split; [done|]. right. intros [?|[? Hz']]; [by left|]. cbn in Hz'. lia.
    + intros _ Hz'. lia.
  - by eapply (moved i t).
  - split_and!; [done|by split|]. cbn [snd put_sg sg with_phase sv_phase]. subst γ. destruct last; [apply Notify.phase_eq|].
    by rewrite Hph', Hph.
  - eexists _, _, _. split; [done|]. rewrite Hz. split; [exact Hg|]. fold last. destruct last.
    + eapply mpsc_wp_signal; [exact Ha|by right|]. intros y Hy. apply HQ. by destruct v; cbn in *; subst.
    + eapply wpi_ret; [exact Ha|]. intros y Hy. apply HQ. by destruct v; cbn in *; subst.
Qed.

Lemma wp_drop_senders i t v n Q x :
  at_ i t None (Sending v) x -> sv_phase v = None -> handles t = n ->
  (forall y, at_ i (with_handles 0 (budget t) t) None (Sending v) y -> Q tt y) -> wpi i (drop_senders n) Q x.
Proof.
  revert t x. induction n as [|n IH]; intros t x Hx Hph Hh HQ; cbn [drop_senders].
  - eapply wpi_ret; [exact Hx|]. intros y Hy. apply HQ. destruct t. cbn in *. by subst.
  - apply wp_bind. eapply mpsc_wp_drop_sender; [exact Hx|done|exact Hh|]. intros y Hy. by eapply IH.
Qed.
(** ** A sender thread *)

(** Its futures and the ids it owns. *)
Record futs_ok (fs : list (option future)) (m : gmap Z (waker * nat)) : Prop := {
  fo_note n f p : fs !! n = Some (Some (f, p)) ->
    match parked_id f with
    | Some id => exists wk, p = Some wk /\ m !! id = Some wk /\ is_Some (val f)
    | None => p = None
    end;
  fo_own id wk : m !! id = Some wk -> exists n f, fs !! n = Some (Some (f, Some wk)) /\ parked_id f = Some id;
  fo_inj n1 n2 f1 f2 p1 p2 id : fs !! n1 = Some (Some (f1, p1)) -> fs !! n2 = Some (Some (f2, p2)) ->
    parked_id f1 = Some id -> parked_id f2 = Some id -> n1 = n2
}.

Lemma futs_new fs m v : futs_ok fs m -> futs_ok (fs ++ [Some (send v, None)]) m.
Proof.
  intros [Hn Ho Hj].
  assert (forall n f p, (fs ++ [Some (send v, None)]) !! n = Some (Some (f, p)) ->
    fs !! n = Some (Some (f, p)) \/ parked_id f = None /\ p = None) as Hcase.
  { intros n f p. rewrite list_lookup_snoc. case_decide; [|by left]. intros [= <- <-]. by right. }
  split.
  - intros n f p [Hl|[-> ->]]%Hcase; [by eapply Hn|done].
  - intros id wk Hid. destruct (Ho id wk Hid) as (n & f & Hl & Hp). exists n, f.
    split; [|done]. apply lookup_app_l_Some. done.
  - intros n1 n2 f1 f2 p1 p2 id [H1|[? _]]%Hcase [H2|[? _]]%Hcase ? ?; try congruence. by eapply Hj.
Qed.

(** Dropping the registration of the [n]-th future. *)
Lemma futs_clear fs m n f p o :
  fs !! n = Some (Some (f, p)) -> futs_ok fs m -> (forall f' p', o = Some (f', p') -> parked_id f' = None /\ p' = None) ->
  futs_ok (<[n := o]> fs) (unpark_own f m).
Proof.
  intros Hf [Hn Ho Hj] Hnew. pose proof (lookup_lt_Some _ _ _ Hf) as Hlt.
  assert (forall n' f' p' id, n' <> n -> fs !! n' = Some (Some (f', p')) -> parked_id f' = Some id -> parked_id f <> Some id) as Hne.
  { intros n' f' p' id Hn' Hf' Hp' Hpf. apply Hn'. by eapply Hj. }
  assert (forall n' f' p', <[n := o]> fs !! n' = Some (Some (f', p')) ->
    n' <> n /\ fs !! n' = Some (Some (f', p')) \/ parked_id f' = None /\ p' = None) as Hcase.
  { intros n' f' p' [(-> & Hq & _)|[? ?]]%list_lookup_insert_Some; [right|by left]. by apply Hnew. }
  assert (forall id, parked_id f <> Some id -> unpark_own f m !! id = m !! id) as Hkeep.
  { intros id Hid. unfold unpark_own. destruct (parked_id f) as [id'|]; [|done].
    rewrite lookup_delete_ne; [done|]. congruence. }
  split.
  - intros n' f' p' [[Hn' Hl]|[-> ->]]%Hcase; [|done]. pose proof (Hn _ _ _ Hl) as Hnote.
    destruct (parked_id f') as [id|] eqn:Hp'; [|done]. rewrite Hkeep by (by eapply Hne). done.
  - intros id wk Hid. assert (parked_id f <> Some id /\ m !! id = Some wk) as [Hpf Hm].
    { unfold unpark_own in Hid. destruct (parked_id f) as [id'|]; [|done].
      apply lookup_delete_Some in Hid as [? ?]. split; congruence. }
    destruct (Ho id wk Hm) as (n' & f' & Hl & Hp'). exists n', f'. split; [|done].
    rewrite list_lookup_insert_ne; [done|]. intros <-. rewrite Hf in Hl. congruence.
  - intros n1 n2 f1 f2 p1 p2 id [[? H1]|[? _]]%Hcase [[? H2]|[? _]]%Hcase ? ?; try congruence. by eapply Hj.
Qed.

(** Parking a future that has no registration. *)
Lemma futs_park fs m n f p f' id wk :
  fs !! n = Some (Some (f, p)) -> parked_id f = None -> futs_ok fs m -> m !! id = None -> parked_id f' = Some id ->
  is_Some (val f') -> futs_ok (<[n := Some (f', Some wk)]> fs) (<[id := wk]> m).
Proof.
  intros Hf Hpf [Hn Ho Hj] Hid Hp' Hv. pose proof (lookup_lt_Some _ _ _ Hf) as Hlt.
  assert (forall n1 f1 p1, <[n := Some (f', Some wk)]> fs !! n1 = Some (Some (f1, p1)) ->
    n1 <> n /\ fs !! n1 = Some (Some (f1, p1)) /\ parked_id f1 <> Some id \/ n1 = n /\ f1 = f' /\ p1 = Some wk) as Hcase.
  { intros n1 f1 p1 [(<- & [= <- <-] & _)|[? Hl]]%list_lookup_insert_Some; [by right|left].
    split_and!; [done..|]. intros Hp1. pose proof (Hn _ _ _ Hl) as Hnote. rewrite Hp1 in Hnote.
    destruct Hnote as (? & _ & ? & _). congruence. }
  split.
  - intros n1 f1 p1 [(Hn1 & Hl & Hp1)|(-> & -> & ->)]%Hcase.
    + pose proof (Hn _ _ _ Hl) as Hnote. destruct (parked_id f1) as [id1|]; [|done].
      rewrite lookup_insert_ne by congruence. done.
    + rewrite Hp'. exists wk. split_and!; [done|apply lookup_insert_eq|done].
  - intros id1 wk1. destruct (decide (id1 = id)) as [->|Hne].
    + rewrite lookup_insert_eq. intros [= ->]. exists n, f'. split; [by apply list_lookup_insert_eq|done].
    + rewrite lookup_insert_ne by done. intros Hm. destruct (Ho _ _ Hm) as (n1 & f1 & Hl & Hp1). exists n1, f1.
      split; [|done]. rewrite list_lookup_insert_ne; [done|]. intros <-. rewrite Hf in Hl. congruence.
  - intros n1 n2 f1 f2 p1 p2 id1 [(? & H1 & ?)|(-> & -> & ->)]%Hcase [(? & H2 & ?)|(-> & -> & ->)]%Hcase ? ?;
      try congruence. by eapply Hj.
Qed.

Lemma futs_repark fs m n f p f' id wk :
  fs !! n = Some (Some (f, p)) -> futs_ok fs m -> unpark_own f m !! id = None -> parked_id f' = Some id ->
  is_Some (val f') -> futs_ok (<[n := Some (f', Some wk)]> fs) (<[id := wk]> (unpark_own f m)).
Proof.
  intros Hf Hok Hid Hp Hv. rewrite <-(list_insert_insert_eq fs n _ (Some (mkSend None None, None))).
  eapply futs_park; [by apply list_lookup_insert_eq; eapply lookup_lt_Some|done| |done|done|done].
  eapply futs_clear; [exact Hf|done|]. by intros ? ? [= <- <-].
Qed.

Lemma futs_parked fs m n f p : futs_ok fs m -> fs !! n = Some (Some (f, p)) ->
  forall id, parked_id f = Some id -> is_Some (m !! id).
Proof. intros Hok Hf id Hp. pose proof (fo_note _ _ Hok _ _ _ Hf) as Hn. rewrite Hp in Hn. destruct Hn as (? & _ & -> & _). by eexists. Qed.

(** A sender between two operations, with [n] operations to go. *)
Definition sender_rests (i n : nat) (st : sender_state) (x : config) : Prop := exists t v,
  at_ i t None (Sending v) x /\ handles t = ss_handles st /\ n <= budget t /\ hand t = [] /\ redeem t = false /\
  sv_phase v = None /\ sv_sent v = ss_sent st /\ futs_ok (ss_futs st) (sv_own v).

Lemma sender_rests_stable i n st : stable (rely i) (sender_rests i n st).
Proof. intros x x' (t & v & Hx & Hr) Hm. exists t, v. split; [by eapply at_stable|done]. Qed.

Lemma wps_srest {A} i n st (a : A) (Q : A -> config -> Prop) x :
  sender_rests i n st x -> (forall y, sender_rests i n st y -> Q a y) -> wps i (Ret (Some a)) Q x.
Proof. intros Hx HQ. eapply wp_ret; [apply sender_rests_stable|exact Hx|exact HQ]. Qed.

(** A poll starts: the wakers fired so far are counted. *)
Lemma wp_mark {A} i t l v (k : nat -> prog Inner A) Q x :
  at_ i t l (Sending v) x ->
  (forall n y, at_ i t l (Sending (mkSV (sv_sent v) (sv_own v) n (sv_phase v))) y -> wpi i (k n) Q y) ->
  wpi i (load (fun s => length (send_log s)) ≫= k) Q x.
Proof.
  intros Hx Hk. eapply wp_load_at; [exact Hx|]. intros s g [Hi Ht Hl (Hne & [Hs Ho Hm] & Hp)]. apply Hk.
  split; [done..|]. split_and!; [done| |done]. by split.
Qed.

Lemma wp_step_poll i n st m w Q x :
  sender_rests i (S n) st x -> 0 < ss_handles st ->
  (forall st' y, ss_handles st' = ss_handles st -> sender_rests i n st' y -> Q st' y) ->
  wps i (sender_step i st (PollSend m w)) Q x.
Proof.
  intros (t & v & Hx & Hh & Hb & Hhd & Hrd & Hph & Hsent & Hfs) Hpos HQ. cbn [sender_step].
  destruct (ss_futs st !! m) as [[[f p]|]|] eqn:Hf.
  2,3: eapply (wps_srest i n st); [exists t, v; split_and!; eauto; lia|]; intros y Hy; by apply HQ.
  eapply wp_mark; [exact Hx|]. clear x Hx. intros k x Hx.
  set (v1 := mkSV (sv_sent v) (sv_own v) k (sv_phase v)) in *.
  apply wps_bind. eapply wp_poll_send; [exact Hx|done|lia|lia|done|by eapply futs_parked|..].
  - intros y Hv Hy. rewrite Hv. eapply wps_srest; [|intros z Hz; by eapply HQ].
    exists t, v1. assert (p = None /\ parked_id f = None) as [-> Hpf].
    { pose proof (fo_note _ _ Hfs _ _ _ Hf) as Hn. destruct (parked_id f); [|done].
      destruct Hn as (? & _ & _ & Hsome). rewrite Hv in Hsome. by destruct Hsome. }
    split_and!; try done; [lia|cbn; by rewrite app_nil_r|]. cbn. by rewrite list_insert_id.
  - intros a y Hv Hy. rewrite Hv. eapply wps_srest; [|intros z Hz; by eapply HQ]. exists t. eexists. split; [exact Hy|].
    split_and!; try done; [lia|cbn; by rewrite Hsent|]. eapply futs_clear; [exact Hf|done|]. by intros ? ? [= <- <-].
  - intros a y Hv Hy. eapply wps_srest; [|intros z Hz; by eapply HQ]. exists t. eexists. split; [exact Hy|].
    split_and!; try done; [lia|]. eapply futs_clear; [exact Hf|done|]. by intros ? ? [= <- <-].
  - intros a id y Hv Hfr Hy. eapply wps_srest; [|intros z Hz; by eapply HQ]. exists (spend t). eexists. split; [exact Hy|].
    split_and!; try done; [cbn; lia|]. eapply futs_repark; [exact Hf|done|done|done|by eexists].
Qed.

Lemma wp_sender_step i n st op Q x :
  sender_rests i (S n) st x -> 0 < ss_handles st ->
  (forall st' y, 0 < ss_handles st' -> sender_rests i n st' y -> Q st' y) -> wps i (sender_step i st op) Q x.
Proof.
  intros Hr Hpos HQ. destruct op as [| |a|vs|a|m w|m|];
    [..|eapply wp_step_poll; [exact Hr|done|]; intros st' y He Hy; apply HQ; [lia|done]| |]; cbn [sender_step].
  all: pose proof Hr as (t & v & Hx & Hh & Hb & Hhd & Hrd & Hph & Hsent & Hfs).
  - eapply wp_clone; [exact Hx|lia|lia|]. intros y Hy. eapply wps_srest; [|intros z Hz; apply HQ; [|exact Hz]; simpl; lia].
    eexists _, v. split; [exact Hy|]. split_and!; try done; cbn; lia.
  - assert (sender_rests i n st x) as Hr'. { exists t, v. split_and!; eauto. lia. }
    destruct (ss_handles st) as [|[|h]] eqn:Hh'; [lia|by eapply wps_srest; [exact Hr'|]; intros y; apply HQ; lia|].
    apply wp_bind. eapply mpsc_wp_drop_sender; [exact Hx|done|exact Hh|]. intros y Hy.
    eapply wps_srest; [|intros z Hz; apply HQ; [|exact Hz]; simpl; lia].
    eexists _, v. split; [exact Hy|]. split_and!; try done; cbn; lia.
  - apply wps_bind. eapply wp_try_send; [exact Hx|done|lia|..].
    + intros y Hy. eapply wps_srest; [|intros z Hz; by apply HQ]. eexists _, _. split; [exact Hy|].
      split_and!; try done; cbn; [lia|by rewrite Hsent].
    + intros e y Hy. eapply wps_srest; [|intros z Hz; by apply HQ]. eexists _, _. split; [exact Hy|].
      split_and!; try done; cbn; [lia|by rewrite app_nil_r].
  - apply wps_bind. eapply wp_try_send_many; [exact Hx|done|lia|..].
    + intros y Hy. eapply wps_srest; [|intros z Hz; by apply HQ]. eexists _, _. split; [exact Hy|].
      split_and!; try done; cbn; [lia|by rewrite app_nil_r].
    + intros k y Hk Hy. eapply wps_srest; [|intros z Hz; by apply HQ]. eexists _, _. split; [exact Hy|].
      split_and!; try done; cbn; [lia|by rewrite Hsent].
  - eapply wps_srest; [|intros z Hz; by apply HQ]. exists t, v. split_and!; try done; [lia|]. by apply futs_new.
  - destruct (ss_futs st !! m) as [[[f p]|]|] eqn:Hf.
    2,3: eapply (wps_srest i n st); [exists t, v; split_and!; eauto; lia|]; intros y Hy; by apply HQ.
    apply wps_bind. eapply wp_drop_send; [exact Hx|done|by eapply futs_parked|]. intros y Hy.
    eapply wps_srest; [|intros z Hz; by apply HQ]. eexists _, _. split; [exact Hy|].
    split_and!; try done; [lia|]. by eapply futs_clear.
  - eapply wp_load_at; [exact Hx|]. intros s g Hs. eapply wps_srest; [|intros z Hz; by apply HQ].
    exists t, v. split_and!; try done. lia.
Qed.

Lemma wp_drop_futures i t v pre fs Q x :
  at_ i t None (Sending v) x -> hand t = [] -> Forall (eq None) pre -> futs_ok (pre ++ fs) (sv_own v) ->
  (forall y, at_ i t None (Sending (with_own ∅ v)) y -> Q tt y) -> wps i (drop_futures i fs) Q x.
Proof.
  revert v pre x. induction fs as [|[[f p]|] fs IH]; intros v pre x Hx Hh Hpre Hfs HQ; cbn [drop_futures].
  - eapply wps_ret; [exact Hx|]. intros y Hy. apply HQ. replace (with_own ∅ v) with v; [done|].
    assert (sv_own v = ∅) as <-; [|by destruct v]. apply map_empty. intros id. apply eq_None_not_Some. intros [wk Hid].
    destruct (fo_own _ _ Hfs _ _ Hid) as (n & f & Hn & _). rewrite app_nil_r in Hn.
    by pose proof (Forall_lookup_1 _ _ _ _ Hpre Hn).
  - assert ((pre ++ Some (f, p) :: fs) !! length pre = Some (Some (f, p))) as Hl by by apply list_lookup_middle.
    apply wps_bind. eapply wp_drop_send; [exact Hx|done|by eapply futs_parked|]. intros y Hy.
    eapply (IH _ (pre ++ [None])); [exact Hy|done| | |done].
    + apply Forall_app. split; [done|]. by constructor.
    + rewrite <-app_assoc. pose proof (futs_clear _ _ _ _ _ None Hl Hfs ltac:(done)) as Hc.
      rewrite insert_app_r_alt, Nat.sub_diag in Hc by done. exact Hc.
  - eapply (IH v (pre ++ [None])); [exact Hx|done| | |done].
    + apply Forall_app. split; [done|]. by constructor.
    + by rewrite <-app_assoc.
Qed.

(** What a sender thread ends with. *)
Definition sender_ends (i : nat) (e : mended) (x : config) : Prop :=
  match e with SenderEnded st => sender_rests i 0 st x | ReceiverEnded _ _ _ _ _ => False end.

Lemma mpsc_wp_sender_thread i ops drops st Q x :
  sender_rests i (length ops) st x -> 0 < ss_handles st ->
  (forall e y, sender_ends i e y -> Q e y) -> wps i (sender_thread i ops drops st) Q x.
Proof.
  revert st x. induction ops as [|op ops IH]; intros st x Hx Hpos HQ; cbn [sender_thread].
  - destruct drops.
    2:{ eapply wps_srest; [exact Hx|]. intros y Hy. by apply HQ. }
    destruct Hx as (t & v & Hx & Hh & Hb & Hhd & Hrd & Hph & Hsent & Hfs).
    apply wps_bind. eapply (wp_drop_futures i t v []); [exact Hx|done|done|done|]. clear x Hx. intros x Hx.
    apply wp_bind. eapply wp_drop_senders; [exact Hx|done|exact Hh|]. clear x Hx. intros x Hx.
    eapply (wps_srest i 0 (mkSS 0 [] (ss_sent st))); [|intros y Hy; by apply HQ].
    eexists _, _. split; [exact Hx|]. by split_and!.
  - apply wps_bind. eapply wp_sender_step; [exact Hx|done|]. intros st' y Hpos' Hy. by apply IH.
Qed.
(** ** The receiver *)

(** The receiver's thread has no handle and holds no waker between its steps. *)
Definition rt : tinfo := mkTI 0 0 [] false.

(** In the middle of an operation: what it has taken, how far it knows the
    channel to be finished, and where it stands with its slot. *)
Definition recv_at (tk : list T) (fin : finish) (st : Notify.Waiting) (x : config) : Prop :=
  exists b, at_ 0 rt None (Receiving (mkRV tk fin false b false false) st) x.

Lemma recv_at_stable tk fin st : stable (rely 0) (recv_at tk fin st).
Proof. intros x x' [b Hx] Hm. exists b. by eapply at_stable. Qed.

Lemma wps_recv {A} tk fin st (a : A) (Q : A -> config -> Prop) x :
  recv_at tk fin st x -> (forall y, recv_at tk fin st y -> Q a y) -> wps 0 (Ret (Some a)) Q x.
Proof. intros Hx HQ. eapply wp_ret; [apply recv_at_stable|exact Hx|exact HQ]. Qed.

Lemma wp_recv_load {A B} tk fin st (f : Inner -> B) (k : B -> prog Inner A) Q x :
  recv_at tk fin st x -> (forall s g, recv_at tk fin st (s, g) -> wpi 0 (k (f s)) Q (s, g)) ->
  wpi 0 (load f ≫= k) Q x.
Proof. intros [b Hx] Hk. eapply wp_load_at; [exact Hx|]. intros s g Hs. apply Hk. by exists b. Qed.

(** A step of the receiver on its slot's auxiliary state alone. *)
Definition sees (γ : Notify.SlotGhost) (se sl : bool) (g : mghost) : mghost :=
  mkMG (hist g) (taken g) (pend g) (threads g) se sl (swept g) γ.

Lemma core_sees γ se sl s g :
  core s g -> (sl = true -> slept g = true \/ closed s = false /\ (queue s = [] -> q s = [])) -> core s (sees γ se sl g).
Proof.
  intros Hc Hsl. pose proof Hc as [Ihist Icap Ihold Ihint Ilen Iq Isel Ipend Inext Islept Iaw Isw Isnd Iid Ihd Iown].
  split; try done; cbn [slept sees].
  - intros Hs Hq. destruct (Hsl Hs) as [?|[_ Hq']]; [by apply Islept|]. left. by apply Hq'.
  - intros Hs. destruct (Hsl Hs) as [?|[? _]]; [by apply Iaw|done].
Qed.

Lemma recv_sees t l v st γ se sl fin st' s g :
  at_ 0 t l (Receiving v st) (s, g) ->
  (sl = true -> rv_slept v = true \/ closed s = false /\ (queue s = [] -> q s = [])) ->
  m_slot (s, sees γ se sl g) -> Notify.signallers γ = Notify.signallers (sg g) ->
  knows_finish fin s -> resting st' (s, sees γ se sl g) ->
  guar 0 (s, g) (s, sees γ se sl g) /\
  at_ 0 t l (Receiving (mkRV (rv_taken v) fin se sl (rv_swept v) (rv_closed v)) st') (s, sees γ se sl g).
Proof.
  intros Hx Hsl Hslot Hsig Hfin Hst. pose proof Hx as [[Hc Hs Hids] Ht Hl (_ & [Rt Rf Rs Rl Rw Rc] & Hr)]. cbn [fst snd] in *.
  apply (acts_at 0 t l (Receiving v st) s g s (sees γ se sl g) t l); try done.
  split; try done. apply core_sees; [done|]. by rewrite Rl.
Qed.

(** Queue found empty: an armed receiver rests. *)
Definition advance (f : finish) : finish := match f with NoSenders => Drained | _ => f end.

Lemma knows_advance f s : knows_finish f s -> queue s = [] -> knows_finish (advance f) s.
Proof. by destruct f. Qed.

Lemma recv_rest t l tk fin b st s g :
  at_ 0 t l (Receiving (mkRV tk fin false b false false) st) (s, g) -> queue s = [] -> Notify.up st = st -> exists g',
    guar 0 (s, g) (s, g') /\ at_ 0 t l (Receiving (mkRV tk (advance fin) false b false false) (Notify.rest st)) (s, g').
Proof.
  intros Hx Hq Hup. pose proof Hx as [[Hc Hs Hids] Ht Hl (_ & [Rt Rf Rs Rl Rw Rc] & [Hw Ho])].
  cbn [fst snd rv_taken rv_fin rv_seen rv_slept rv_swept rv_closed] in *.
  destruct (Notify.waiting_rest _ _ _ _ _ m_in st s g Hs Hw) as [[Hs' Hw'] Hg'].
  { intros g'. unfold awaited. cbn. rewrite Hq, Rs. naive_solver. }
  assert (Notify.rest_ghost sg put_sg st g = sees (sg (Notify.rest_ghost sg put_sg st g)) (seen g) (slept g) g) as Hgg.
  { destruct Hg' as [->|[p ->]]; by destruct g. }
  assert (Notify.signallers (sg (Notify.rest_ghost sg put_sg st g)) = Notify.signallers (sg g)) as Hsig.
  { destruct Hg' as [->|[p ->]]; done. }
  set (γ := sg (Notify.rest_ghost sg put_sg st g)) in *. rewrite Hgg in Hs', Hw'. rewrite Rs, Rl in Hs', Hw'.
  exists (sees γ false b g). apply (recv_sees t l (mkRV tk fin false b false false) st); try done.
  - intros ->. by left.
  - by apply knows_advance.
  - split; [done|]. by destruct st.
Qed.

(** Looking again: the receiver leaves its parked state. *)
Lemma recv_up t l v st se sl s g :
  at_ 0 t l (Receiving v st) (s, g) -> sl = false \/ sl = rv_slept v -> exists g',
    guar 0 (s, g) (s, g') /\
    at_ 0 t l (Receiving (mkRV (rv_taken v) (rv_fin v) se sl (rv_swept v) (rv_closed v)) (Notify.up st)) (s, g') /\
    Notify.waiter (sg g') = Notify.Idle.
Proof.
  intros Hx Hsl. pose proof Hx as [[Hc Hs Hids] Ht Hl (_ & [Rt Rf Rs Rl Rw Rc] & [Hw Ho])]. cbn [fst snd] in *.
  destruct (Notify.waiting_up _ _ _ _ _ m_in st s g Hs Hw) as [Hs' [Hw' Hid]].
  set (γ := sg (Notify.up_ghost sg put_sg g)) in *. exists (sees γ se sl g).
  destruct (recv_sees t l v st γ se sl (rv_fin v) (Notify.up st) s g) as [Hg Ha]; try done.
  - intros ->. left. by destruct Hsl.
  - unfold Notify.islot in *. eapply Notify.slot_inv_idle; [exact Hid|exact Hs'].
  - split; [|by destruct st].
    eapply Notify.waiting_same; [exact Hw'|done..].
Qed.

(** *** Stealing *)
Definition steal_ghost (g : mghost) (vs : list T) : mghost :=
  mkMG (hist g) (taken g ++ vs) (pend g) (<[0 := rt]> (threads g)) (seen g) false (swept g) (sg g).

Lemma core_steal s g :
  core s g -> threads g !! 0 = Some rt -> locked s = Some 0 -> length (q s) <= waiters_len s ->
  core (set_queue [] s) (steal_ghost g (queue s)).
Proof.
  intros Hc Ht Hl Hn. pose proof Hc as [Ihist Icap Ihold Ihint Ilen Iq Isel Ipend Inext Islept Iaw Isw Isnd Iid Ihd Iown].
  assert (<[0 := rt]> (threads g) = threads g) as Hth by by apply list_insert_id.
  assert (forall f, total f (steal_ghost g (queue s)) = total f g) as Htot.
  { intros f. unfold total. cbn [steal_ghost threads]. by rewrite Hth. }
  split; rewrite ?Htot; try done; cbn [steal_ghost threads hist taken set_queue queue locked]; rewrite ?Hth; try done.
  - by rewrite Ihist, app_nil_r.
  - simpl. lia.
  - congruence.
  - intros id j w k Hp. destruct (Ipend _ _ _ _ Hp) as (? & ? & Hcase). split_and!; [done..|].
    unfold told. cbn [steal_ghost threads]. rewrite Hth. exact Hcase.
Qed.

Lemma wp_swap {A} d o tk fin b st (k : list T -> prog Inner A) Q x :
  at_ 0 rt (Some (d, o)) (Receiving (mkRV tk fin false b false false) st) x -> hints_ok d -> d_queue d <> [] ->
  (forall y, at_ 0 rt (Some (with_queue [] d, o)) (Receiving (mkRV (tk ++ d_queue d) fin false false false false) st) y ->
    wpi 0 (k (d_queue d)) Q y) ->
  wpi 0 (guarded 0 (fun s => Done (set_queue [] s, queue s)) ≫= k) Q x.
Proof.
  intros Hx Hd Hq Hk. eapply (wp_guarded 0 rt d o _ rt (Some (with_queue [] d, o))
    (Receiving (mkRV (tk ++ d_queue d) fin false false false false) st)); [exact Hx|]. clear x Hx.
  intros s g Hx. pose proof Hx as [[Hc Hs Hids] Ht (Hl & Hdd & Ho) (_ & [Rt Rf Rs Rl Rw Rc] & Hst)].
  cbn [fst snd rv_taken rv_fin rv_seen rv_slept rv_swept rv_closed] in *. rewrite <-Hdd in Hk, Hd, Hq |- *.
  exists (set_queue [] s), (queue s), (steal_ghost g (queue s)). split; [done|]. split_and!.
  - held_acts.
    + apply core_steal; try done. destruct Hd as [_ Hw]. cbn in Hw. lia.
    + apply quiet_sg; try done. intros [?|?]; [done|by right].
  - by eapply (moved 0 rt).
  - by split_and!.
  - split_and!; [done| |by eapply same_resting].
    split; cbn; try done; [by rewrite Rt|]. destruct fin; cbn in *; [done|done|]. by destruct Rf.
  - intros Ha. by apply Hk.
Qed.

Lemma wp_steal tk fin st Q x :
  recv_at tk fin st x -> Notify.up st = st ->
  (forall y, recv_at tk (advance fin) (Notify.rest st) y -> Q (0, []) y) ->
  (forall a vs y, fin <> Drained -> recv_at (tk ++ a :: vs) fin st y -> Q (S (length vs), a :: vs) y) ->
  wps 0 (steal_into 0 []) Q x.
Proof.
  intros [b Hx] Hup Hnone Hsome. eapply wps_lock; [exact Hx|]. clear x Hx. intros d x Hd Hx.
  eapply wp_at; [exact Hx|]. clear x Hx. intros s g Hx. pose proof Hx as [_ _ (Hl & Hdd & _) _]. cbn [fst snd] in *.
  exists s, (length (d_queue d)). rewrite decide_True by done. rewrite <-Hdd.
  change (d_queue (data s)) with (queue s). destruct (queue s) as [|a vs] eqn:Hq.
  - destruct (recv_rest _ _ _ _ _ _ s g Hx Hq Hup) as (g' & Hg & Ha). exists g'. split; [done|]. split; [exact Hg|].
    cbn [length Nat.eqb]. eapply wp_unlock; [exact Ha|done|]. intros y Hy. eapply wps_recv; [by exists b|]. done.
  - assert (fin <> Drained) as Hfin.
    { intros ->. destruct Hx as [_ _ _ (_ & [_ [_ Hf] _ _ _ _] & _)]. cbn [fst] in Hf. congruence. }
    exists g. split; [done|]. split; [apply mpsc_still|]. cbn [length Nat.eqb].
    eapply wp_swap; [exact Hx|done|by rewrite <-Hdd; cbn; rewrite Hq|]. rewrite <-Hdd. cbn [d_queue data]. rewrite Hq.
    clear Hx. intros x Hx. eapply wp_set_nonempty; [exact Hx|]. clear x Hx. intros x Hx.
    eapply mpsc_wp_pop; [exact Hx|done|done|]. clear x Hx. intros x Hx.
    eapply wp_mirror_len; [exact Hx|]. clear x Hx. intros x Hx.
    eapply wp_unlock; [exact Hx|apply hints_mirror|].
    { match goal with |- context [popped ?e] => destruct (popped_ne e) as [-> ->] end. done. }
    clear x Hx. intros x Hx. eapply wp_wake_opt; [exact Hx|done|]. intros y Hy. eapply wps_recv; [by eexists|].
    intros z Hz. by apply Hsome.
Qed.

Lemma wp_recv_wake_one tk fin st Q x :
  recv_at tk fin st x -> (forall y, recv_at tk fin st y -> Q tt y) -> wps 0 (wake_one_waiter 0) Q x.
Proof. intros [b Hx] HQ. eapply wp_wake_one; [exact Hx|done|done|]. intros y Hy. apply HQ. by exists true. Qed.

Lemma wp_next_staged tk fin st staging Q x :
  recv_at tk fin st x -> Notify.up st = st ->
  (forall y, staging = [] -> recv_at tk (advance fin) (Notify.rest st) y -> Q (None, []) y) ->
  (forall a rest vs y, staging ++ vs = a :: rest -> (staging = [] -> fin <> Drained) ->
    recv_at (tk ++ vs) fin st y -> Q (Some a, rest) y) ->
  wps 0 (next_staged 0 staging) Q x.
Proof.
  intros Hx Hup Hnone Hsome. destruct staging as [|a rest]; cbn [next_staged].
  - apply wps_bind. eapply wp_steal; [exact Hx|done|..].
    + intros y Hy. eapply wps_recv; [exact Hy|]. intros z Hz. by apply Hnone.
    + intros a vs y Hf Hy. eapply wps_recv; [exact Hy|]. intros z Hz. by apply (Hsome a vs (a :: vs)).
  - assert (forall y, recv_at tk fin st y -> Q (Some a, rest) y) as HQ.
    { intros y Hy. apply (Hsome a rest []); [by rewrite app_nil_r|done|by rewrite app_nil_r]. }
    eapply wp_recv_load; [exact Hx|]. intros s g Hs. apply wps_bind. destruct (0 <? waiters_len s).
    + eapply wp_recv_wake_one; [exact Hs|]. intros y Hy. by eapply wps_recv.
    + eapply wps_recv; [exact Hs|]. intros y Hy. by eapply wps_recv.
Qed.

(** *** The count of senders *)
Definition finished (f : finish) : finish := match f with Running => NoSenders | _ => f end.

Lemma wp_load_senders {A} tk fin st (k : Z -> prog Inner A) Q x :
  recv_at tk fin st x ->
  (forall y, recv_at tk (finished fin) (Notify.up st) y -> wpi 0 (k 0%Z) Q y) ->
  (forall s g, senders s <> 0%Z -> recv_at tk fin st (s, g) -> wpi 0 (k (senders s)) Q (s, g)) ->
  wpi 0 (load senders ≫= k) Q x.
Proof.
  intros [b Hx] Hz Hn. eapply wp_at; [exact Hx|]. clear x Hx. intros s g Hx. exists s, (senders s).
  destruct (decide (senders s = 0%Z)) as [He|He].
  - assert (at_ 0 rt None (Receiving (mkRV tk (finished fin) false b false false) st) (s, g)) as Hx'.
    { destruct Hx as [? ? ? (_ & [] & ?)]. split; [done..|]. split_and!; [done| |done]. split; try done. by destruct fin. }
    destruct (recv_up _ _ _ _ false b s g Hx' ltac:(by right)) as (g' & Hg & Ha & _).
    exists g'. split; [done|]. split; [exact Hg|]. rewrite He. apply Hz. by exists b.
  - exists g. split; [done|]. split; [apply mpsc_still|]. apply Hn; [done|]. by exists b.
Qed.
(** *** The slot, by the receiver *)
Definition recv_frame (v : rview) (x : config) : Prop :=
  inv x /\ threads x.2 !! 0 = Some rt /\ holds 0 None x /\ receives v x.

Lemma recv_frame_env v x x' : rely 0 x x' -> m_slot x -> recv_frame v x ->
  m_slot x' /\ recv_frame v x' /\ Notify.waiter_env recv_ref sg x x'.
Proof.
  intros Hr _ (Hi & Ht & Hl & Hv). destruct (Hr Hi) as [Hi' Hb]. split_and!; [apply Hi'| |by apply Hb].
  split_and!; [done|by rewrite (sb_thread _ _ _ Hb)|by eapply holds_move|by eapply receives_move].
Qed.

Lemma recv_frame_guar v x x' : Notify.waiter_move recv_ref sg same x x' -> m_slot x -> recv_frame v x -> guar 0 x x'.
Proof. intros Hm _ _ Hi. by apply wait_guar. Qed.

Lemma recv_frame_move v x x' : Notify.waiter_move recv_ref sg same x x' -> m_slot x -> recv_frame v x -> recv_frame v x'.
Proof.
  intros Hm _ (Hi & Ht & Hl & [Rt Rf Rs Rl Rw Rc]). destruct (wait_guar x x' Hm Hi) as [Hi' _].
  destruct Hm as [Hsame _]. split_and!; [done|by rewrite (same_thread _ _ Hsame)|by eapply same_holds|].
  by destruct Hsame as (sl & l & γ & ->).
Qed.

Lemma wp_recv_arm tk fin k w Q x :
  recv_at tk fin (Notify.Out k) x -> (forall y, recv_at tk fin (Notify.Armed w k) y -> Q tt y) ->
  wpi 0 (Notify.arm recv_ref w) Q x.
Proof.
  intros [b [Hi Ht Hl (_ & Hr & [Hw _])]] HQ. set (v := mkRV tk fin false b false false) in *.
  apply (Notify.wp_arm_waiting _ _ _ _ _ m_in (rely 0) (guar 0) (recv_frame v) (recv_frame_env v) (recv_frame_guar v)
    (recv_frame_move v) k w); [apply Hi|by split_and!|done|].
  intros y Hs (Hiy & Hty & Hly & Hry) Hwy. apply HQ. exists b. split; [done..|]. by split_and!.
Qed.

Lemma wp_recv_disarm tk fin k st Q x :
  recv_at tk fin st x -> st = Notify.Out k \/ (exists w, st = Notify.Armed w k) ->
  (forall y, recv_at tk fin (Notify.Out k) y -> Q tt y) -> wpi 0 (Notify.disarm recv_ref) Q x.
Proof.
  intros [b [Hi Ht Hl (_ & Hr & [Hw Ho])]] Hst HQ. set (v := mkRV tk fin false b false false) in *.
  apply (Notify.wp_disarm _ _ _ _ _ m_in (rely 0) (guar 0) (recv_frame v) (recv_frame_env v) (recv_frame_guar v)
    (recv_frame_move v) k).
  - split; [apply Hi|]. split; [by split_and!|]. destruct Hst as [->|[w ->]]; cbn [Notify.waiting] in *; naive_solver.
  - intros y (Hs & (Hiy & Hty & Hly & Hry) & Hph & Hk). apply HQ. exists b. split; [done..|].
    split_and!; [done..|]. split; [|done]. split; [by left|done].
Qed.
(** *** Receiving *)

(** Between two steps of an operation that started when [k] wakers had been
    fired: [got] is delivered, [staging] is taken and not delivered. *)
Definition ready (k : nat) (got staging : list T) (fin : finish) (x : config) : Prop :=
  recv_at (got ++ staging) fin (Notify.Out k) x.

(** Parked by an operation that started when [k] wakers had been fired. *)
Definition asleep (w : waker) (k : nat) (got staging : list T) (fin : finish) (x : config) : Prop :=
  at_ 0 rt None (Receiving (mkRV (got ++ staging) fin true true false false) (Notify.Resting w k)) x.

(** Once everything has been delivered it stays so. *)
Definition spent (e : list T * finish) : Prop := e.1 = [] /\ e.2 = Drained.
Definition later (e e' : list T * finish) : Prop := spent e -> spent e'.

Lemma later_refl e : later e e.
Proof. by unfold later. Qed.
Lemma later_trans e e' e'' : later e e' -> later e' e'' -> later e e''.
Proof. unfold later. auto. Qed.
Lemma later_finished vs f e : later (vs, finished f) e -> later (vs, f) e.
Proof. unfold later, spent. destruct f; cbn; [intros _ [_ [=]]..|done]. Qed.
Lemma later_advance vs f e : later ([], advance f) e -> later (vs, f) e.
Proof. unfold later, spent. destruct f; cbn; [intros _ [_ [=]]..|auto]. Qed.
Lemma later_some vs f e : ~ spent (vs, f) -> later (vs, f) e.
Proof. unfold later. tauto. Qed.
Hint Resolve later_refl later_finished later_advance later_some : cyn.

Lemma taken_next (got staging vs rest : list T) a :
  staging ++ vs = a :: rest -> (got ++ staging) ++ vs = (got ++ [a]) ++ rest.
Proof. intros He. by rewrite <-!app_assoc, He. Qed.

Lemma wp_next k got staging fin Q x :
  ready k got staging fin x ->
  (forall y, ready k got [] (advance fin) y -> Q (None, []) y) ->
  (forall a rest y, ~ spent (staging, fin) -> ready k (got ++ [a]) rest fin y -> Q (Some a, rest) y) ->
  wps 0 (next_staged 0 staging) Q x.
Proof.
  intros Hx Hnone Hsome. eapply wp_next_staged; [exact Hx|done|..].
  - intros y -> Hy. by apply Hnone.
  - intros a rest vs y He Hf Hy. apply Hsome; [by intros [? ?]; apply Hf|]. unfold ready. by rewrite <-(taken_next _ _ _ _ _ He).
Qed.

Lemma wp_ready_senders {A} k got staging fin (kont : Z -> prog Inner A) Q x :
  ready k got staging fin x ->
  (forall y, ready k got staging (finished fin) y -> wpi 0 (kont 0%Z) Q y) ->
  (forall n y, n <> 0%Z -> ready k got staging fin y -> wpi 0 (kont n) Q y) ->
  wpi 0 (load senders ≫= kont) Q x.
Proof.
  intros Hx Hz Hn. eapply wp_load_senders; [exact Hx|exact Hz|]. intros s g Hs Hy. by apply Hn.
Qed.

Lemma wps_ready {A} k got staging fin (a : A) (Q : A -> config -> Prop) x :
  ready k got staging fin x -> (forall y, ready k got staging fin y -> Q a y) -> wps 0 (Ret (Some a)) Q x.
Proof. intros Hx HQ. by eapply wps_recv. Qed.

(** The last look, with no sender left. *)
Lemma wp_last_look k got staging fin Q x :
  ready k got staging (finished fin) x ->
  (forall y, ready k got [] Drained y -> Q (None, []) y) ->
  (forall a rest fin' y, later (staging, fin) (rest, fin') -> ready k (got ++ [a]) rest fin' y -> Q (Some a, rest) y) ->
  wps 0 (next_staged 0 staging) Q x.
Proof.
  intros Hx Hnone Hsome. eapply wp_next; [exact Hx|..].
  - intros y Hy. apply Hnone. by destruct fin.
  - intros a rest y Hn Hy. eapply Hsome; [|exact Hy]. eauto with cyn.
Qed.

Lemma mpsc_wp_try_recv k got staging fin Q x :
  ready k got staging fin x ->
  (forall fin' y, later (staging, fin) ([], fin') -> ready k got [] fin' y -> Q (RErr TryRecvEmpty, []) y) ->
  (forall y, ready k got [] Drained y -> Q (RErr TryRecvClosed, []) y) ->
  (forall a rest fin' y, later (staging, fin) (rest, fin') -> ready k (got ++ [a]) rest fin' y -> Q (ROk a, rest) y) ->
  wps 0 (try_recv 0 staging) Q x.
Proof.
  intros Hx Hempty Hclosed Hok. apply wps_bind. eapply wp_next; [exact Hx|..]; clear x Hx.
  2:{ intros a rest y Hn Hy. eapply wps_ready; [exact Hy|]. intros z Hz. eapply Hok; [by apply later_some|exact Hz]. }
  intros x Hx. eapply wp_ready_senders; [exact Hx|..]; clear x Hx.
  - intros x Hx. apply wps_bind. eapply wp_last_look; [exact Hx|..].
    + intros y Hy. eapply wps_ready; [exact Hy|done].
    + intros a rest fin' y Hl Hy. eapply wps_ready; [exact Hy|]. intros z Hz. eapply Hok; [|exact Hz]. eauto with cyn.
  - intros n x Hn Hx. rewrite (proj2 (Z.eqb_neq _ _)) by done. eapply wps_ready; [exact Hx|]. intros y Hy.
    eapply Hempty; [|exact Hy]. eauto with cyn.
Qed.

Lemma wp_recv_many k max got out staging fin Q x :
  ready k (got ++ out) staging fin x ->
  (forall out' rest fin' y, later (staging, fin) (rest, fin') -> ready k (got ++ out') rest fin' y -> Q (out', rest) y) ->
  wps 0 (recv_many 0 max out staging) Q x.
Proof.
  revert out staging fin x. induction max as [|max IH]; intros out staging fin x Hx HQ; cbn [recv_many].
  { eapply wps_ready; [exact Hx|]. intros y Hy. eapply HQ; [apply later_refl|exact Hy]. }
  apply wps_bind. eapply wp_next; [exact Hx|..]; clear x Hx.
  - intros y Hy. eapply wps_ready; [exact Hy|]. intros z Hz. eapply HQ; [|exact Hz]. eauto with cyn.
  - intros a rest y Hn Hy. rewrite <-app_assoc in Hy. eapply IH; [exact Hy|]. intros out' rest' fin' z _ Hz.
    eapply HQ; [|exact Hz]. by apply later_some.
Qed.

Lemma wp_spin_recv k n got staging fin Q x :
  ready k got staging fin x ->
  (forall rest fin' y, later (staging, fin) (rest, fin') -> ready k got rest fin' y -> Q (None, rest) y) ->
  (forall y, ready k got [] Drained y -> Q (Some None, []) y) ->
  (forall a rest fin' y, later (staging, fin) (rest, fin') -> ready k (got ++ [a]) rest fin' y -> Q (Some (Some a), rest) y) ->
  wps 0 (spin_recv 0 n staging) Q x.
Proof.
  revert staging fin x. induction n as [|n IH]; intros staging fin x Hx Hnone Hend Hsome; cbn [spin_recv].
  { eapply wps_ready; [exact Hx|]. intros y Hy. eapply Hnone; [apply later_refl|exact Hy]. }
  eapply wp_recv_load; [exact Hx|]. clear x Hx. intros s g Hx. apply wps_bind.
  assert (forall staging1 fin1 x, later (staging, fin) (staging1, fin1) -> ready k got staging1 fin1 x ->
    wps 0 (load senders ≫= fun k0 => if (k0 =? 0)%Z then
      spin_bind (next_staged 0 staging1) (fun '(o, staging) => Ret (Some (Some o, staging)))
      else spin_recv 0 n staging1) Q x) as Htail.
  { clear s g Hx. intros staging1 fin1 x Hl Hx. eapply wp_ready_senders; [exact Hx|..]; clear x Hx.
    - intros x Hx. apply wps_bind. eapply wp_last_look; [exact Hx|..].
      + intros y Hy. eapply wps_ready; [exact Hy|done].
      + intros a rest fin' y Hl' Hy. eapply wps_ready; [exact Hy|]. intros z Hz. eapply Hsome; [|exact Hz].
        eauto using later_trans with cyn.
    - intros m x Hm Hx. rewrite (proj2 (Z.eqb_neq _ _)) by done. eapply IH; [exact Hx|..]; try done.
      + intros rest fin' y Hl' Hy. eapply Hnone; [|exact Hy]. eauto using later_trans with cyn.
      + intros a rest fin' y Hl' Hy. eapply Hsome; [|exact Hy]. eauto using later_trans with cyn. }
  destruct (0 <? nonempty s).
  - eapply wp_next; [exact Hx|..].
    + intros y Hy. eapply Htail; [|exact Hy]. eauto with cyn.
    + intros a rest y Hn Hy. eapply wps_ready; [exact Hy|]. intros z Hz. eapply Hsome; [by apply later_some|exact Hz].
  - eapply wps_ready; [exact Hx|]. intros y Hy. eapply Htail; [apply later_refl|exact Hy].
Qed.

(** Parked, the receiver sees a sender alive, or looks again. *)
Lemma wp_senders_alive {A} tk fin w k (kont : Z -> prog Inner A) Q x :
  recv_at tk fin (Notify.Resting w k) x ->
  (forall y, recv_at tk (finished fin) (Notify.Armed w k) y -> wpi 0 (kont 0%Z) Q y) ->
  (forall n b y, n <> 0%Z -> at_ 0 rt None (Receiving (mkRV tk fin true b false false) (Notify.Resting w k)) y ->
    wpi 0 (kont n) Q y) ->
  wpi 0 (load senders ≫= kont) Q x.
Proof.
  intros [b Hx] Hz Hn. eapply wp_at; [exact Hx|]. clear x Hx. intros s g Hx. exists s, (senders s).
  pose proof Hx as [[Hc Hs Hids] Ht Hl (_ & [Rt Rf Rs Rl Rw Rc] & Hst)].
  cbn [fst snd rv_taken rv_fin rv_seen rv_slept rv_swept rv_closed] in *.
  destruct (decide (senders s = 0%Z)) as [He|He].
  - assert (at_ 0 rt None (Receiving (mkRV tk (finished fin) false b false false) (Notify.Resting w k)) (s, g)) as Hx'.
    { destruct Hx as [? ? ? (_ & [] & ?)]. split; [done..|]. split_and!; [done| |done]. split; try done. by destruct fin. }
    destruct (recv_up _ _ _ _ false b s g Hx' ltac:(by right)) as (g' & Hg & Ha & _).
    exists g'. split; [done|]. split; [exact Hg|]. rewrite He. apply Hz. by exists b.
  - exists (sees (sg g) true b g). split; [done|].
    destruct (recv_sees rt None (mkRV tk fin false b false false) (Notify.Resting w k) (sg g) true b fin (Notify.Resting w k) s g)
      as [Hg Ha]; [exact Hx|intros ->; by left| |done|done| |].
    + unfold Notify.islot in *. eapply Notify.slot_inv_mono; [|exact Hs]. intros [?|[_ ?]]; [by left|done].
    + by eapply same_resting.
    + split; [exact Hg|]. by eapply Hn.
Qed.

(** Before it sleeps it has seen to the parked senders. *)
Lemma wp_see_to_senders k w got staging fin b (Q : unit -> config -> Prop) x :
  at_ 0 rt None (Receiving (mkRV (got ++ staging) fin true b false false) (Notify.Resting w k)) x ->
  (forall y, asleep w k got staging fin y -> Q tt y) ->
  wps 0 (load waiters_len ≫= fun l => if 0 <? l then wake_one_waiter 0 else Ret (Some tt)) Q x.
Proof.
  intros Hx HQ. eapply wp_at; [exact Hx|]. clear x Hx. intros s g Hx. exists s, (waiters_len s).
  pose proof Hx as [[Hc Hs Hids] Ht Hl (_ & [Rt Rf Rs Rl Rw Rc] & Hst)].
  cbn [fst snd rv_taken rv_fin rv_seen rv_slept rv_swept rv_closed] in *.
  destruct (0 <? waiters_len s) eqn:Hlen; bool_props.
  - exists g. split; [done|]. split; [apply mpsc_still|].
    eapply wp_wake_one; [exact Hx|done|done|exact HQ].
  - exists (sees (sg g) true true g). split; [done|].
    destruct (recv_sees rt None (mkRV (got ++ staging) fin true b false false) (Notify.Resting w k) (sg g) true true fin
      (Notify.Resting w k) s g) as [Hg Ha]; [exact Hx| | |done|done| |].
    + intros _. right. split; [done|]. intros Hq. apply (c_len _ _ Hc) in Hq. destruct (q s); [done|]. simpl in Hq. lia.
    + unfold Notify.islot in *. eapply Notify.slot_inv_mono; [|exact Hs]. intros [?|[_ ?]]; [by left|by right].
    + by eapply same_resting.
    + split; [exact Hg|]. by eapply wps_ret.
Qed.

Lemma wp_park_recv k w got staging fin Q x :
  ready k got staging fin x ->
  (forall y, ready k got [] Drained y -> Q (Ready None, []) y) ->
  (forall a rest fin' y, later (staging, fin) (rest, fin') -> ready k (got ++ [a]) rest fin' y -> Q (Ready (Some a), rest) y) ->
  (forall fin' y, later (staging, fin) ([], fin') -> asleep w k got [] fin' y -> Q (Pending, []) y) ->
  wps 0 (park_recv 0 w staging) Q x.
Proof.
  intros Hx Hend Hsome Hpend. apply wp_bind. eapply wp_recv_arm; [exact Hx|]. clear x Hx. intros x Hx.
  apply wps_bind. eapply wp_next_staged; [exact Hx|done|..]; clear x Hx.
  - intros x -> Hx. eapply wp_senders_alive; [exact Hx|..]; clear x Hx.
    + intros x Hx. apply wp_bind. eapply wp_recv_disarm; [exact Hx|right; by exists w|]. clear x Hx. intros x Hx.
      apply wps_bind. eapply (wp_last_look k got [] (advance fin)); [exact Hx|..].
      * intros y Hy. eapply wps_ready; [exact Hy|done].
      * intros a rest fin' y Hl Hy. eapply wps_ready; [exact Hy|]. intros z Hz. eapply Hsome; [|exact Hz]. eauto with cyn.
    + intros n b x Hn Hx. rewrite (proj2 (Z.eqb_neq _ _)) by done.
      change (wps 0 (spin_bind (load waiters_len ≫= fun l => if 0 <? l then wake_one_waiter 0 else Ret (Some tt))
        (fun _ => Ret (Some (Pending, [])))) Q x).
      apply wps_bind. eapply (wp_see_to_senders k w got [] _ b); [exact Hx|]. intros y Hy.
      eapply wps_ret; [exact Hy|]. intros z Hz. eapply Hpend; [|exact Hz]. eauto with cyn.
  - intros a rest vs x He Hf Hx. apply wp_bind. eapply wp_recv_disarm; [exact Hx|right; by exists w|]. intros y Hy.
    rewrite (taken_next _ _ _ _ _ He) in Hy. eapply (wps_ready k (got ++ [a]) rest); [exact Hy|]. intros z Hz.
    eapply Hsome; [|exact Hz]. apply later_some. by intros [? ?]; apply Hf.
Qed.
Lemma wp_poll_recv k hot w got staging fin Q x :
  ready k got staging fin x ->
  (forall y, ready k got [] Drained y -> Q (Ready None, []) y) ->
  (forall a rest fin' y, later (staging, fin) (rest, fin') -> ready k (got ++ [a]) rest fin' y -> Q (Ready (Some a), rest) y) ->
  (forall fin' y, later (staging, fin) ([], fin') -> asleep w k got [] fin' y -> Q (Pending, []) y) ->
  wps 0 (poll_recv 0 hot w staging) Q x.
Proof.
  intros Hx Hend Hsome Hpend. apply wps_bind. eapply wp_next; [exact Hx|..]; clear x Hx.
  2:{ intros a rest y Hn Hy. eapply wps_ready; [exact Hy|]. intros z Hz. eapply Hsome; [by apply later_some|exact Hz]. }
  intros x Hx. eapply wp_ready_senders; [exact Hx|..]; clear x Hx.
  - intros x Hx. apply wps_bind. eapply wp_last_look; [exact Hx|..].
    + intros y Hy. eapply wps_ready; [exact Hy|done].
    + intros a rest fin' y Hl Hy. eapply wps_ready; [exact Hy|]. intros z Hz. eapply Hsome; [|exact Hz]. eauto with cyn.
  - intros n x Hn Hx. rewrite (proj2 (Z.eqb_neq _ _)) by done. apply wps_bind.
    assert (forall rest fin' y, later (staging, fin) (rest, fin') -> ready k got rest fin' y -> wps 0 (park_recv 0 w rest) Q y) as Hpark.
    { intros rest fin' y Hl Hy. eapply wp_park_recv; [exact Hy|exact Hend|..].
      - intros a rest' fin'' z Hl' Hz. eapply Hsome; [|exact Hz]. eauto using later_trans with cyn.
      - intros fin'' z Hl' Hz. eapply Hpend; [|exact Hz]. eauto using later_trans with cyn. }
    destruct hot.
    + eapply wp_spin_recv; [exact Hx|..]; clear x Hx.
      * intros rest fin' y Hl Hy. eapply Hpark; [|exact Hy]. eauto with cyn.
      * intros y Hy. eapply wps_ready; [exact Hy|done].
      * intros a rest fin' y Hl Hy. eapply wps_ready; [exact Hy|]. intros z Hz. eapply Hsome; [|exact Hz]. eauto with cyn.
    + eapply wps_ready; [exact Hx|]. intros y Hy. eapply Hpark; [|exact Hy]. eauto with cyn.
Qed.

(** ** The receiver's thread *)

(** Between two operations. *)
Definition receiver_rests (got staging : list T) (pk : parking) (over : bool) (x : config) : Prop :=
  exists fin, (over = true -> spent (staging, fin)) /\
    match pk with
    | None => exists k se b, at_ 0 rt None (Receiving (mkRV (got ++ staging) fin se b false false) (Notify.Out k)) x
    | Some (w, k) => asleep w k got staging fin x
    end.

Lemma receiver_rests_stable got staging pk over : stable (rely 0) (receiver_rests got staging pk over).
Proof.
  intros x x' (fin & Ho & Hx) Hm. exists fin. split; [done|]. destruct pk as [[w k]|].
  - by eapply at_stable.
  - destruct Hx as (k & se & b & Hx). exists k, se, b. by eapply at_stable.
Qed.

Lemma wps_rrest {A} got staging pk over (a : A) (Q : A -> config -> Prop) x :
  receiver_rests got staging pk over x -> (forall y, receiver_rests got staging pk over y -> Q a y) ->
  wps 0 (Ret (Some a)) Q x.
Proof. intros Hx HQ. eapply wp_ret; [apply receiver_rests_stable|exact Hx|exact HQ]. Qed.

Lemma ready_rests k got staging fin over x :
  ready k got staging fin x -> (over = true -> spent (staging, fin)) -> receiver_rests got staging None over x.
Proof. intros [b Hx] Ho. exists fin. split; [done|]. by exists k, false, b. Qed.

(** An operation starts: the receiver is up, and the wakers fired are counted. *)
Lemma recv_start t v st s g :
  at_ 0 t None (Receiving v st) (s, g) -> exists g', guar 0 (s, g) (s, g') /\
  at_ 0 t None (Receiving (mkRV (rv_taken v) (rv_fin v) false (rv_slept v) (rv_swept v) (rv_closed v))
    (Notify.Out (length (recv_log s)))) (s, g').
Proof.
  intros Hx. destruct (recv_up t None v st false (rv_slept v) s g Hx) as (g' & Hg & Ha & Hid); [by right|].
  exists g'. split; [done|]. destruct Ha as [Hi Ht Hl (_ & Hr & [Hw _])]. split; [done..|]. split_and!; [done..|].
  split; [|done]. eapply (Notify.waiting_out recv_ref sg awaited); [apply Hi|exact Hw|done].
Qed.

Lemma wp_receiver_start {A} got staging pk over (kont : nat -> prog Inner A) Q x :
  receiver_rests got staging pk over x ->
  (forall k fin y, (over = true -> spent (staging, fin)) -> ready k got staging fin y -> wpi 0 (kont k) Q y) ->
  wpi 0 (load (fun s => length (recv_log s)) ≫= kont) Q x.
Proof.
  intros Hx Hk. eapply wp_act; [apply receiver_rests_stable|exact Hx|]. clear x Hx. intros s g (fin & Ho & Hx).
  assert (exists v st, at_ 0 rt None (Receiving v st) (s, g) /\ rv_taken v = got ++ staging /\ rv_fin v = fin /\
    rv_swept v = false /\ rv_closed v = false) as (v & st & Hv & H1 & H2 & H3 & H4).
  { destruct pk as [[w k]|]; [by eexists _, _|]. destruct Hx as (k & se & b & Hx). by eexists _, _. }
  destruct (recv_start rt v st s g Hv) as (g' & Hg & Ha). exists s, (length (recv_log s)), g'.
  split; [done|]. split; [exact Hg|]. apply (Hk _ fin); [done|]. exists (rv_slept v). by rewrite H1, H2, H3, H4 in Ha.
Qed.

Lemma mpsc_wp_receiver_step got staging pk over op Q x :
  receiver_rests got staging pk over x ->
  (forall vs staging' pk' o y, receiver_rests (got ++ vs) staging' pk' (over || o) y -> Q (vs, staging', pk', o) y) ->
  wps 0 (receiver_step 0 staging op) Q x.
Proof.
  intros Hx HQ. eapply wp_receiver_start; [exact Hx|]. clear x Hx. intros k fin x Ho Hx.
  assert (forall vs rest fin' y, later (staging, fin) (rest, fin') -> ready k (got ++ vs) rest fin' y ->
    wps 0 (Ret (Some (vs, rest, None, false))) Q y) as Hres.
  { intros vs rest fin' y Hl Hy. eapply wps_ready; [exact Hy|]. intros z Hz. apply HQ. eapply ready_rests; [exact Hz|].
    rewrite orb_false_r. auto. }
  assert (forall y, ready k got [] Drained y -> wps 0 (Ret (Some ([], [], None, true))) Q y) as Hend.
  { intros y Hy. eapply wps_ready; [exact Hy|]. intros z Hz. apply HQ. rewrite app_nil_r. by eapply ready_rests. }
  destruct op as [|max|hot w| |].
  - apply wps_bind. eapply mpsc_wp_try_recv; [exact Hx|..]; [|exact Hend|intros a rest fin' y; apply (Hres [a])].
    intros fin' y Hl Hy. eapply Hres; [exact Hl|]. by rewrite app_nil_r.
  - apply wps_bind. eapply (wp_recv_many k max got []); [by rewrite app_nil_r|].
    intros out rest fin' y Hl Hy. by eapply Hres.
  - apply wps_bind. eapply wp_poll_recv; [exact Hx|exact Hend|intros a rest fin' y; apply (Hres [a])|].
    intros fin' y Hl Hy. eapply (wps_ret (A := list T * list T * parking * bool)); [exact Hy|]. intros z Hz. apply HQ.
    exists fin'. rewrite app_nil_r, orb_false_r. split; [auto|exact Hz].
  - apply wp_bind. eapply wp_recv_disarm; [exact Hx|by left|]. intros y Hy. eapply Hres; [apply later_refl|].
    rewrite app_nil_r. exact Hy.
  - eapply (wp_recv_load (A := option (list T * list T * parking * bool)) _ _ _ senders); [exact Hx|]. intros s g Hy.
    eapply Hres; [apply later_refl|]. by rewrite app_nil_r.
Qed.
(** ** Closing *)
Definition slept_ghost (b : bool) (g : mghost) : mghost :=
  mkMG (hist g) (taken g) (pend g) (threads g) (seen g) b (swept g) (sg g).

Lemma core_close s g : core s g -> core (set_closed true s) (slept_ghost false g).
Proof. intros []. split; try done. intros Hw. by destruct (c_swept0 Hw). Qed.

Lemma wp_close {A} v st (kont : unit -> prog Inner A) Q x :
  at_ 0 rt None (Receiving v st) x ->
  (forall y, at_ 0 rt None (Receiving (mkRV (rv_taken v) (rv_fin v) (rv_seen v) false (rv_swept v) true) st) y ->
    wpi 0 (kont tt) Q y) ->
  wpi 0 (store (set_closed true) ≫= kont) Q x.
Proof.
  intros Hx Hk. eapply (wp_acts 0 rt None _ rt None
    (Receiving (mkRV (rv_taken v) (rv_fin v) (rv_seen v) false (rv_swept v) true) st)); [exact Hx|]. clear x Hx.
  intros s g Hx. pose proof Hx as [[Hc Hs Hids] Ht Hl (_ & [Rt Rf Rs Rl Rw Rc] & Hst)]. cbn [fst snd] in *.
  eexists _, tt, (slept_ghost false g). split; [done|].
  split_and!; [|done|done|split_and!; [done|by split|by eapply same_resting]|by intros Ha; apply Hk].
  held_acts. by apply core_close.
Qed.

(** The parked senders are all taken out to be woken. *)
Definition sweep_ghost (ws : list waker) (g : mghost) : mghost :=
  mkMG (hist g) (taken g) (pend g) (<[0 := set_hand ws rt]> (threads g)) (seen g) false true (sg g).

Lemma core_sweep s g :
  core s g -> threads g !! 0 = Some rt -> locked s = Some 0 -> closed s = true -> slept g = false ->
  core (set_waiters [] (next_id s) ∅ s) (sweep_ghost (q s).*2 g).
Proof.
  intros Hc Ht Hl Hcl Hsl. pose proof Hc as [Ihist Icap Ihold Ihint Ilen Iq Isel Ipend Inext Islept Iaw Isw Isnd Iid Ihd Iown].
  set (g' := sweep_ghost (q s).*2 g).
  pose proof (fun f => total_move 0 rt (set_hand (q s).*2 rt) g g' Ht eq_refl f) as Htot.
  split; cbn [set_waiters queue locked q selected next_id closed send_log senders waiters_len]; try done.
  - cbn [g' sweep_ghost threads]. rewrite length_insert. apply Ihold.
  - congruence.
  - intros _. simpl. lia.
  - intros id w Hin. by apply elem_of_nil in Hin.
  - intros id j w k Hp. destruct (Ipend _ _ _ _ Hp) as (? & ? & Hcase). split_and!; [done..|]. right. split; [|done].
    destruct Hcase as [[Hin _]|[Htd _]].
    + right. exists 0, (set_hand (q s).*2 rt). split; [by apply (moved 0 rt _ g g')|].
      apply list_elem_of_fmap. by exists (id, w).
    + eapply (told_move 0 rt (set_hand (q s).*2 rt) s _ g g'); try done. by intros Hw%elem_of_nil.
  - rewrite (Htot handles). cbn. lia.
  - rewrite (Htot budget). cbn. lia.
  - rewrite (Htot budget). cbn. lia.
  - intros id' j' w' k' Hp'. unfold g'. cbn. rewrite length_insert. by eapply Iown.
Qed.
Definition swept_view (v : rview) : rview := mkRV (rv_taken v) (rv_fin v) (rv_seen v) false true true.

Lemma wp_sweep {A} d o v st (kont : list waker -> prog Inner A) Q x :
  at_ 0 rt (Some (d, o)) (Receiving v st) x -> rv_closed v = true -> rv_slept v = false -> o = false ->
  (forall y, at_ 0 (set_hand (d_q d).*2 rt) (Some (with_waiters [] (d_next d) ∅ d, o)) (Receiving (swept_view v) st) y ->
    wpi 0 (kont (d_q d).*2) Q y) ->
  wpi 0 (guarded 0 (fun s => Done (set_waiters [] (next_id s) ∅ s, (q s).*2)) ≫= kont) Q x.
Proof.
  intros Hx Hcl Hsl Hof Hk. eapply (wp_guarded 0 rt d o _ (set_hand (d_q d).*2 rt)
    (Some (with_waiters [] (d_next d) ∅ d, o)) (Receiving (swept_view v) st)); [exact Hx|]. clear x Hx.
  intros s g Hx. pose proof Hx as [[Hc Hs Hids] Ht (Hl & Hd & _) (_ & [Rt Rf Rs Rl Rw Rc] & Hst)]. cbn [fst snd] in *.
  rewrite <-Hd in Hk |- *. eexists _, _, (sweep_ghost (q s).*2 g). split; [done|]. split_and!.
  - held_acts. apply core_sweep; congruence.
  - by eapply (moved 0 rt).
  - split_and!; [done|done|by rewrite Hof].
  - split_and!; [done| |by eapply same_resting]. split; try done. cbn [fst set_waiters closed swept_view rv_closed]. congruence.
  - intros Ha. by apply Hk.
Qed.

Lemma mpsc_wp_drop_receiver v st Q x :
  at_ 0 rt None (Receiving v st) x ->
  (forall y, at_ 0 rt None (Receiving (swept_view v) st) y -> Q tt y) -> wps 0 (drop_receiver 0) Q x.
Proof.
  intros Hx HQ. eapply wp_close; [exact Hx|]. clear x Hx. intros x Hx.
  eapply wps_lock; [exact Hx|]. clear x Hx. intros d x Hd Hx.
  eapply wp_sweep; [exact Hx|done|done|done|]. clear x Hx. intros x Hx.
  eapply wp_store_len; [exact Hx|done|]. clear x Hx. intros x Hx.
  eapply wp_unlock; [exact Hx|split; [apply Hd|done]|]. clear x Hx. intros x Hx.
  eapply wp_wake_each; [exact Hx|done|]. intros y Hy. by eapply wps_ret.
Qed.

(** What the receiver's thread ends with. *)
Definition receiver_ends (e : mended) (x : config) : Prop :=
  match e with
  | ReceiverEnded got staging pk over false => receiver_rests got staging pk over x
  | ReceiverEnded got staging _ over true => exists v st, at_ 0 rt None (Receiving v st) x /\
      rv_taken v = got ++ staging /\ rv_swept v = true /\ (over = true -> spent (staging, rv_fin v))
  | SenderEnded _ => False
  end.

Lemma mpsc_wp_receiver_thread ops drops got staging pk over Q x :
  receiver_rests got staging pk over x -> (forall e y, receiver_ends e y -> Q e y) ->
  wps 0 (receiver_thread 0 ops drops got staging pk over) Q x.
Proof.
  revert got staging pk over x. induction ops as [|op ops IH]; intros got staging pk over x Hx HQ; cbn [receiver_thread].
  - destruct drops; [|by eapply wps_rrest; [exact Hx|]; intros y Hy; apply HQ].
    destruct Hx as (fin & Ho & Hx).
    assert (exists v st, at_ 0 rt None (Receiving v st) x /\ rv_taken v = got ++ staging /\ rv_fin v = fin) as (v & st & Hv & H1 & H2).
    { destruct pk as [[w k]|]; [by eexists _, _|]. destruct Hx as (k & se & b & Hx). by eexists _, _. }
    apply wps_bind. eapply mpsc_wp_drop_receiver; [exact Hv|]. intros y Hy. eapply wps_ret; [exact Hy|]. intros z Hz. apply HQ.
    exists (swept_view v), st. split_and!; try done. intros Hov. simpl. rewrite H2. by apply Ho.
  - apply wps_bind. eapply mpsc_wp_receiver_step; [exact Hx|]. intros vs staging' pk' o y Hy. by apply IH.
Qed.

(** ** All threads *)
Definition ends (i : nat) (o : option mended) (x : config) : Prop :=
  match o with
  | None => True
  | Some e => match i with 0 => receiver_ends e x | _ => sender_ends i e x end
  end.

(** The initial auxiliary state: every sender thread may ask for as many ids and
    handles as it has operations. *)
Definition start_thread (sc : script) : tinfo := mkTI 1 (length sc.1) [] false.
Definition ghost_init (scs : list script) : mghost :=
  mkMG [] [] ∅ (rt :: (start_thread <$> scs)) false false false Notify.ghost0.

Definition script_ops (scs : list script) : nat := sum_list ((fun sc => S (length sc.1)) <$> scs).

Lemma shared_eq n : (Z.of_nat n < usize_max)%Z ->
  shared n = mkInner None 0 [] [] 0 ∅ Notify.new (1 + Z.of_nat n) false 0 [] [] 2654435769.
Proof.
  induction n as [|n IH]; intros Hn; [done|]. change (shared (S n)) with
    (set_senders (wrapping_add (senders (shared n)) 1) (shared n)).
  rewrite IH by lia. unfold set_senders. cbn [senders locked nonempty queue q next_id selected recv closed waiters_len
    recv_log send_log seed]. f_equal. unfold wrapping_add, wrap. rewrite Z.mod_small; unfold usize_max in Hn; lia.
Qed.

Lemma script_totals scs :
  sum_list (handles <$> (start_thread <$> scs)) = length scs /\
  script_ops scs = length scs + sum_list (budget <$> (start_thread <$> scs)).
Proof.
  unfold script_ops. induction scs as [|sc scs [IH1 IH2]]; [done|]. rewrite !fmap_cons. simpl.
  unfold fmap in *. simpl in *. lia.
Qed.

Lemma inv_init sc scs :
  (Z.of_nat (script_ops (sc :: scs)) <= usize_max)%Z -> inv (shared (length scs), ghost_init (sc :: scs)).
Proof.
  intros Hb. destruct (script_totals (sc :: scs)) as [Hh Ho]. rewrite Ho in Hb. cbn [length] in Hb.
  assert (total handles (ghost_init (sc :: scs)) = Z.of_nat (S (length scs))) as Hth.
  { unfold total. cbn [ghost_init threads]. rewrite fmap_cons. simpl. simpl in Hh. lia. }
  assert (total budget (ghost_init (sc :: scs)) =
    Z.of_nat (sum_list (budget <$> (start_thread <$> sc :: scs)))) as Htb by done.
  rewrite shared_eq by lia. split.
  - split; rewrite ?Hth, ?Htb; cbn [fst snd next_id senders locked]; try done; try lia.
    + simpl. lia.
    + intros id w Hin. by apply elem_of_nil in Hin.
  - apply Notify.slot_inv_new.
  - done.
Qed.
(** ** Spinning takes more than [fuel] steps *)
Section fuel.
Context {A B : Type}.

Lemma far_spin_bind n (p : prog Inner (option A)) (k : A -> prog Inner (option B)) :
  far (fun o => o = None) n p -> (forall a, far (fun o => o = None) n (k a)) ->
  far (fun o => o = None) n (spin_bind p k).
Proof.
  intros Hp Hk. eapply far_bind; [apply none_dec|exact Hp|]. intros [a|] Ho; [apply Hk|done].
Qed.

Lemma far_some n (a : A) : far (S := Inner) (fun o => o = None) n (Ret (Some a)).
Proof. done. Qed.
End fuel.

Lemma far_lock_slow i n : far (fun o => o = None) n (lock_slow i n).
Proof.
  induction n as [|n IH]; [apply far_zero|]. cbn [lock_slow]. intros [].
  - exact IH.
  - intros []; [done|]. apply far_after. intros _. eapply far_le; [|exact IH]. simpl. lia.
Qed.

Lemma far_lock i : far (fun o => o = None) fuel (lock i).
Proof. intros []; [done|]. eapply far_le; [|apply far_lock_slow]. lia. Qed.

(** Unfold [p] down to the lock. *)
Ltac far_tac :=
  repeat match goal with
  | |- far _ _ (spin_bind _ _) => apply far_spin_bind; [|intros ?]
  | |- far _ _ (lock _) => apply far_lock
  | |- far _ _ (Ret (Some _)) => apply far_some
  | |- far _ _ (match ?x with _ => _ end) => destruct x
  | |- far _ _ (mbind _ _) => apply far_after; intros ?
  | |- far _ _ (let _ := _ in _) => cbv zeta
  | |- far _ _ _ => solve [auto with far_db]
  end.
Create HintDb far_db.

Lemma far_try_push i v : far (fun o => o = None) fuel (try_push i v).
Proof. unfold try_push. far_tac. Qed.
Lemma far_try_push_many i vs : far (fun o => o = None) fuel (try_push_many i vs).
Proof. unfold try_push_many. far_tac. Qed.
Hint Resolve far_try_push far_try_push_many : far_db.
Lemma far_push_or_park i v w : far (fun o => o = None) fuel (push_or_park i v w).
Proof. unfold push_or_park. far_tac. Qed.
Lemma far_repoll i id : far (fun o => o = None) fuel (repoll_waiter i id).
Proof. unfold repoll_waiter. far_tac. Qed.
Lemma far_cancel i id : far (fun o => o = None) fuel (cancel_waiter i id).
Proof. unfold cancel_waiter. far_tac. Qed.
Lemma far_steal i vs : far (fun o => o = None) fuel (steal_into i vs).
Proof. unfold steal_into. far_tac. Qed.
Lemma far_wake_one i : far (fun o => o = None) fuel (wake_one_waiter i).
Proof. unfold wake_one_waiter. far_tac. Qed.
Lemma far_wake_all i : far (fun o => o = None) fuel (wake_all_waiters i).
Proof. unfold wake_all_waiters. far_tac. Qed.
Hint Resolve far_push_or_park far_repoll far_cancel far_steal far_wake_one far_wake_all : far_db.

Lemma far_poll_send i f w : far (fun o => o = None) fuel (poll_send i f w).
Proof. unfold poll_send. far_tac. Qed.
Lemma far_drop_send i f : far (fun o => o = None) fuel (drop_send i f).
Proof. unfold drop_send. far_tac. Qed.
Lemma far_try_send i v : far (fun o => o = None) fuel (try_send i v).
Proof. unfold try_send. far_tac. Qed.
Lemma far_try_send_many i vs : far (fun o => o = None) fuel (try_send_many i vs).
Proof. unfold try_send_many. far_tac. Qed.
Lemma far_next_staged i vs : far (fun o => o = None) fuel (next_staged i vs).
Proof. unfold next_staged. far_tac. Qed.
Hint Resolve far_poll_send far_drop_send far_try_send far_try_send_many far_next_staged : far_db.

Lemma far_try_recv i vs : far (fun o => o = None) fuel (try_recv i vs).
Proof. unfold try_recv. far_tac. Qed.
Lemma far_recv_many i n out vs : far (fun o => o = None) fuel (recv_many i n out vs).
Proof. revert out vs. induction n as [|n IH]; intros out vs; cbn [recv_many]; far_tac. Qed.
Lemma far_spin_recv i n vs : far (fun o => o = None) fuel (spin_recv i n vs).
Proof. revert vs. induction n as [|n IH]; intros vs; cbn [spin_recv]; far_tac. Qed.
Lemma far_park_recv i w vs : far (fun o => o = None) fuel (park_recv i w vs).
Proof. unfold park_recv. far_tac. Qed.
Lemma far_drop_receiver i : far (fun o => o = None) fuel (drop_receiver i).
Proof. unfold drop_receiver. far_tac. Qed.
Hint Resolve far_try_recv far_recv_many far_spin_recv far_park_recv far_drop_receiver : far_db.

Lemma far_poll_recv i hot w vs : far (fun o => o = None) fuel (poll_recv i hot w vs).
Proof. unfold poll_recv. far_tac. Qed.
Hint Resolve far_poll_recv : far_db.

Lemma far_sender_step i st op : far (fun o => o = None) fuel (sender_step i st op).
Proof. destruct op; cbn [sender_step]; far_tac. Qed.
Lemma far_drop_futures i fs : far (fun o => o = None) fuel (drop_futures i fs).
Proof. induction fs as [|[[]|] fs IH]; cbn [drop_futures]; far_tac. Qed.
Lemma far_receiver_step i vs op : far (fun o => o = None) fuel (receiver_step i vs op).
Proof. destruct op; unfold receiver_step; far_tac. Qed.
Hint Resolve far_sender_step far_drop_futures far_receiver_step : far_db.

Lemma far_sender_thread i ops drops st : far (fun o => o = None) fuel (sender_thread i ops drops st).
Proof. revert st. induction ops as [|op ops IH]; intros st; cbn [sender_thread]; far_tac. Qed.
Lemma far_receiver_thread i ops drops got vs pk over :
  far (fun o => o = None) fuel (receiver_thread i ops drops got vs pk over).
Proof. revert got vs pk over. induction ops as [|op ops IH]; intros got vs pk over; cbn [receiver_thread]; far_tac. Qed.

(** A thread of [mpsc_threads]. *)
Lemma thread_cases rops rdrops scs i p :
  mpsc_threads rops rdrops scs !! i = Some p ->
  i = 0 /\ p = receiver_thread 0 rops rdrops [] [] None false \/
  exists j sc, i = S j /\ scs !! j = Some sc /\ p = start_sender i sc.
Proof.
  unfold mpsc_threads. destruct i as [|i].
  - intros [= <-]. by left.
  - rewrite lookup_tail_S, list_lookup_imap. destruct (scs !! i) as [sc|] eqn:Hsc; [|done].
    intros [= <-]. right. by exists i, sc.
Qed.

Lemma mpsc_never_spinning sch s0 s rops rdrops scs ps i :
  run_sched sch s0 (mpsc_threads rops rdrops scs) = Done (s, ps) -> length ps = length (mpsc_threads rops rdrops scs) ->
  length sch < fuel -> ps !! i <> Some (Ret None).
Proof.
  intros Hrun Hlen Hlt Hi.
  destruct (lookup_lt_is_Some_2 (mpsc_threads rops rdrops scs) i) as [p Hp].
  { rewrite <-Hlen. by eapply lookup_lt_Some. }
  assert (far (fun o => o = None) fuel p) as Hf.
  { destruct (thread_cases _ _ _ _ _ Hp) as [[_ ->]|(j & sc & _ & _ & ->)];
      [apply far_receiver_thread|apply far_sender_thread]. }
  destruct (run_far _ _ _ _ _ _ _ _ _ Hrun Hp Hf) as (p' & Hp' & Hf'). rewrite Hi in Hp'. injection Hp' as <-.
  specialize (Hf' eq_refl). lia.
Qed.
(** ** Runs *)
Lemma threads_wp rops rdrops sc scs :
  (Z.of_nat (script_ops (sc :: scs)) <= usize_max)%Z ->
  all_wp rely guar ends (mpsc_threads rops rdrops (sc :: scs)) (shared (length scs), ghost_init (sc :: scs)).
Proof.
  intros Hb i p Hp. pose proof (inv_init sc scs Hb) as Hi.
  assert (locked (shared (length scs)) = None) as Hl.
  { destruct (script_totals (sc :: scs)) as [_ Ho]. rewrite Ho in Hb. cbn [length] in Hb. by rewrite shared_eq by lia. }
  destruct (thread_cases _ _ _ _ _ Hp) as [[-> ->]|(j & sc' & -> & Hsc & ->)].
  - eapply (wp_mono _ _ _ (spun receiver_ends)); [by intros [e|] y|]. eapply mpsc_wp_receiver_thread; [|done].
    exists Running. split; [done|]. exists 0, false, false. split; [done|done|by cbn; rewrite Hl|].
    destruct (script_totals (sc :: scs)) as [_ Ho]. rewrite Ho in Hb. cbn [length] in Hb.
    split_and!; [done|split; try done; by rewrite shared_eq by lia|]. split; [|done]. split; [by left|]. cbn. lia.
  - eapply (wp_mono _ _ _ (spun (sender_ends (S j)))); [by intros [e|] y|].
    apply (mpsc_wp_sender_thread (S j) sc'.1 sc'.2 (mkSS 1 [] [])); [|simpl; lia|done].
    exists (start_thread sc'), (mkSV [] ∅ 0 None). split; [|split_and!; try done].
    split; [done| |by cbn; rewrite Hl|].
    + cbn [snd ghost_init threads]. rewrite lookup_tail_S, list_lookup_fmap, Hsc. done.
    + split_and!; [done| |done]. split; cbn; [done| |lia]. intros id w k. rewrite !lookup_empty. by split.
Qed.

Lemma mpsc_run rops rdrops sc scs sch :
  (Z.of_nat (script_ops (sc :: scs)) <= usize_max)%Z ->
  exists s ps g, run_sched sch (shared (length scs)) (mpsc_threads rops rdrops (sc :: scs)) = Done (s, ps) /\
    length ps = S (S (length scs)) /\ inv (s, g) /\ length (threads g) = S (S (length scs)) /\
    (forall i o, ps !! i = Some (Ret o) -> ends i o (s, g)) /\
    (length sch < fuel -> forall i, ps !! i <> Some (Ret None)).
Proof.
  intros Hb. assert (length (mpsc_threads rops rdrops (sc :: scs)) = S (S (length scs))) as Hn.
  { unfold mpsc_threads. cbn [length]. by rewrite length_imap. }
  destruct (wp_sound_inv rely guar ends (fun x => inv x /\ length (threads x.2) = S (S (length scs))) sch
    (shared (length scs)) (ghost_init (sc :: scs)) (mpsc_threads rops rdrops (sc :: scs)))
    as (s & ps & g & Hrun & Hall & Hlen & Hi & Hth).
  - apply mpsc_guar_rely.
  - intros i y y' Hg [Hi Hl]. destruct (Hg Hi) as [Hi' Hs]. split; [done|].
    by rewrite (sb_length _ _ _ (Hs (S i) ltac:(lia))).
  - by apply threads_wp.
  - split; [by apply inv_init|]. cbn. by rewrite length_fmap.
  - exists s, ps, g. split_and!; [done|congruence|done|done| |].
    + intros i o Ho. by apply (all_wp_returned _ _ _ _ _ i o Hall).
    + intros Hf i. by eapply mpsc_never_spinning.
Qed.

(** ** What the ends say *)
Lemma ended_sender i st x : sender_rests i 0 st x -> sent_by i (hist x.2) = ss_sent st.
Proof. intros (t & v & [_ _ _ (_ & [Hs _ _] & _)] & _ & _ & _ & _ & _ & Hst & _). by rewrite Hs. Qed.

Lemma ended_receiver got staging pk over dropped s g :
  receiver_ends (ReceiverEnded got staging pk over dropped) (s, g) ->
  taken g = got ++ staging /\ (over = true -> staging = [] /\ queue s = [] /\ senders s = 0%Z).
Proof.
  intros He. assert (exists v st, at_ 0 rt None (Receiving v st) (s, g) /\ rv_taken v = got ++ staging /\
    (over = true -> spent (staging, rv_fin v))) as (v & st & [_ _ _ (_ & [Rt Rf _ _ _ _] & _)] & Hv & Ho).
  { destruct dropped; cbn in He; [naive_solver|]. destruct He as (fin & Ho & Hx). destruct pk as [[w k]|].
    - by eexists _, _.
    - destruct Hx as (k & se & b & Hx). by eexists _, _. }
  cbn [fst snd] in *. split; [congruence|]. intros Hov. destruct (Ho Hov) as [Hst Hf]. cbn [fst snd] in *.
  rewrite Hf in Rf. by destruct Rf.
Qed.

(** Every thread has ended. *)
Definition all_ended (ps : list (prog Inner (option mended))) : Prop :=
  forall i p, ps !! i = Some p -> exists e, p = Ret (Some e).

(** Nobody is in the middle of anything. *)
Lemma ended_idle ps s g :
  all_ended ps -> inv (s, g) -> length ps = length (threads g) -> (forall i o, ps !! i = Some (Ret o) -> ends i o (s, g)) ->
  Notify.signallers (sg g) = ∅ /\ locked s = None /\
  forall i t, threads g !! i = Some t -> hand t = [] /\ redeem t = false.
Proof.
  intros Hall [Hc Hsl Hids] Hlen Hends. cbn [fst snd] in *.
  assert (forall i, i < length (threads g) -> exists t r, at_ i t None r (s, g) /\ hand t = [] /\ redeem t = false /\
    match r with Sending v => sv_phase v = None | _ => True end) as Hat.
  { intros i Hi. rewrite <-Hlen in Hi. destruct (lookup_lt_is_Some_2 _ _ Hi) as [p Hp].
    destruct (Hall i p Hp) as [e ->]. specialize (Hends i _ Hp). destruct i as [|i]; cbn [ends] in Hends.
    - destruct e as [|got staging pk over []]; [done|..]; cbn in Hends.
      + destruct Hends as (v & st & Hx & _). by eexists _, _.
      + destruct Hends as (fin & _ & Hx). destruct pk as [[w k]|]; [by eexists _, _|].
        destruct Hx as (k & se & b & Hx). by eexists _, _.
    - destruct e as [st|]; [|done]. destruct Hends as (t & v & Hx & _ & _ & ? & ? & ? & _). by exists t, (Sending v). }
  split_and!.
  - apply map_eq. intros j. rewrite lookup_empty. destruct (decide (j = 0 \/ length (threads g) <= j)) as [Hj|Hj]; [by apply Hids|].
    destruct (Hat j) as (t & r & [_ _ _ Hp] & _ & _ & Hr); [lia|]. destruct r as [v st|v]; cbn [plays] in Hp.
    + lia.
    + destruct Hp as (_ & _ & Hp). cbn [snd] in Hp. congruence.
  - destruct (locked s) as [j|] eqn:Hl; [|done]. pose proof (c_holder _ _ Hc j Hl) as Hj.
    destruct (Hat j Hj) as (t & r & [_ _ Hh _] & _). by destruct Hh.
  - intros i t Ht. destruct (Hat i) as (t' & r & [_ Ht' _ _] & ? & ? & _); [by eapply lookup_lt_Some|].
    cbn [snd] in Ht'. rewrite Ht in Ht'. by injection Ht' as ->.
Qed.
(** A future that a sender thread ended with, still pending since the poll with
    waker [w] that started when [k] wakers had been fired for senders. *)
Definition left_pending (ps : list (prog Inner (option mended))) (i : nat) (f : Send_) (w : waker) (k : nat) : Prop :=
  exists st n, ps !! S i = Some (Ret (Some (SenderEnded st))) /\ ss_futs st !! n = Some (Some (f, Some (w, k))).

(** Such a future is registered, and what it is registered with. *)
Lemma pending_registered ps s g i f w k :
  (forall i o, ps !! i = Some (Ret o) -> ends i o (s, g)) -> left_pending ps i f w k ->
  exists id v, parked_id f = Some id /\ val f = Some v /\ pend g !! id = Some (S i, w, k).
Proof.
  intros Hends (st & n & Hp & Hf). destruct (Hends _ _ Hp) as (t & v & [_ _ _ (_ & [_ Ho _] & _)] & _ & _ & _ & _ & _ & _ & Hfs).
  pose proof (fo_note _ _ Hfs _ _ _ Hf) as Hn. destruct (parked_id f) as [id|]; [|done].
  destruct Hn as ([w' k'] & [= <- <-] & Hm & [a Ha]). exists id, a. split_and!; [done..|]. by apply Ho.
Qed.

Lemma registered_pending ps s g j id w k :
  all_ended ps -> length ps = length (threads g) ->
  (forall i o, ps !! i = Some (Ret o) -> ends i o (s, g)) -> inv (s, g) ->
  pend g !! id = Some (j, w, k) -> exists i f, left_pending ps i f w k /\ parked_id f = Some id.
Proof.
  intros Hall Hlen Hends Hi Hp. destruct (c_owner _ _ (i_core _ Hi) _ _ _ _ Hp) as [Hj Hlt]. cbn [snd] in Hlt. rewrite <-Hlen in Hlt.
  destruct (lookup_lt_is_Some_2 _ _ Hlt) as [p Hpj].
  destruct (Hall j p Hpj) as [e ->]. pose proof (Hends _ _ Hpj) as He. destruct j as [|j]; [lia|]. cbn [ends] in He.
  destruct e as [st|]; [|done]. destruct He as (t & v & [_ _ _ (_ & [_ Ho _] & _)] & _ & _ & _ & _ & _ & _ & Hfs).
  apply Ho in Hp. destruct (fo_own _ _ Hfs _ _ Hp) as (n & f & Hf & Hpf). exists j, f. split; [|done]. by exists st, n.
Qed.

(** With nobody in the middle of anything, what is told has been fired. *)
Lemma told_fired s g w k : (forall i t, threads g !! i = Some t -> hand t = [] /\ redeem t = false) ->
  told s g w k -> w ∈ drop k (send_log s).
Proof.
  intros Hidle [?|(m & t & Hm & Hw)]; [done|]. destruct (Hidle m t Hm) as [Hh _]. rewrite Hh in Hw. by apply elem_of_nil in Hw.
Qed.

(** ** Operations alone, on a channel whose lock is free *)
Lemma run_lock {A} i (k : unit -> prog Inner (option A)) s :
  locked s = None -> run_alone (spin_bind (lock i) k) s = run_alone (k tt) (set_locked (Some i) s).
Proof. intros Hl. cbn. rewrite Hl. reflexivity. Qed.

Lemma run_repoll i id s :
  locked s = None ->
  run_alone (repoll_waiter i id) s =
    Done (set_locked None (set_waiters_len (length (remove id (q s))) (forget_waiter id (set_locked (Some i) s))), Some tt).
Proof.
  intros Hl. unfold repoll_waiter. rewrite run_lock by done. cbn. by rewrite decide_True.
Qed.
Lemma run_spin {A B} (p : prog Inner (option A)) (k : A -> prog Inner (option B)) s s' a :
  run_alone p s = Done (s', Some a) -> run_alone (spin_bind p k) s = run_alone (k a) s'.
Proof. intros Hp. unfold spin_bind. by rewrite run_alone_bind, Hp. Qed.

Lemma run_signal s : exists s', run_alone (Notify.signal recv_ref) s = Done (s', tt) /\ queue s' = queue s.
Proof.
  unfold Notify.signal. cbn. destruct (Notify.armed (recv s)) eqn:Ha; [|by eexists]. cbn. rewrite Ha. cbn.
  destruct (Notify.state (Notify.aw (recv s)) =? Notify.WAITING)%Z; [|by eexists]. cbn.
  destruct (Notify.cell (Notify.aw (recv s))); by eexists.
Qed.

Lemma run_try_push i v s :
  locked s = None -> length (queue s) < cap -> exists s',
    run_alone (try_push i v) s = Done (s', Some (ROk tt)) /\ queue s' = queue s ++ [v].
Proof.
  intros Hl Hq. unfold try_push. rewrite run_lock by done. cbn -[Nat.leb]. rewrite decide_True by done. outcome_simpl.
  rewrite (proj2 (Nat.leb_gt _ _)) by done. cbn. rewrite decide_True by done. outcome_simpl.
  destruct (length (queue s)); by eexists.
Qed.

(** Polling a registered future once the channel is closed. *)
Lemma run_poll_closed i f w v id s :
  locked s = None -> closed s = true -> val f = Some v -> parked_id f = Some id -> exists s',
    run_alone (poll_send i f w) s = Done (s', Some (Ready (RErr v), mkSend None None)).
Proof.
  intros Hl Hc Hv Hp. unfold poll_send. rewrite Hv, Hp. erewrite run_spin by by apply run_repoll.
  unfold push_or_park. eexists. cbn. rewrite Hc. cbn. reflexivity.
Qed.

(** Polling it while there is room. *)
Lemma run_poll_room i f w v id s :
  locked s = None -> closed s = false -> length (queue s) < cap -> val f = Some v -> parked_id f = Some id -> exists s',
    run_alone (poll_send i f w) s = Done (s', Some (Ready (ROk tt), mkSend None None)) /\ queue s' = queue s ++ [v].
Proof.
  intros Hl Hc Hq Hv Hp. unfold poll_send. rewrite Hv, Hp. erewrite run_spin by by apply run_repoll.
  set (s1 := set_locked None _). destruct (run_try_push i v s1) as (s2 & Hpush & Hq2); [done|done|].
  assert (run_alone (push_or_park i v w) s1 = Done (s2, Some (ROk tt))) as Hpp.
  { unfold push_or_park. change (run_alone (load closed ≫= ?k) s1) with (run_alone (k (closed s1)) s1).
    change (closed s1) with (closed s). rewrite Hc. cbn iota. by erewrite run_spin by exact Hpush. }
  erewrite run_spin by exact Hpp. cbn iota. destruct (run_signal s2) as (s3 & Hs & Hq3). exists s3.
  rewrite run_alone_bind, Hs. split; [done|]. by rewrite Hq3, Hq2.
Qed.

(** ** Batches *)

(** [try_push] for each item until one does not fit. *)
Fixpoint push_each (i : nat) (items : list T) : prog Inner (option (nat * list T)) :=
  match items with
  | [] => Ret (Some (0, []))
  | v :: vs =>
      spin_bind (try_push i v) (fun r =>
        match r with
        | ROk _ => spin_bind (push_each i vs) (fun '(k, rest) => Ret (Some (S k, rest)))
        | RErr _ => Ret (Some (0, v :: vs))
        end)
  end.

(** The state after pushing [vs] on a channel whose lock is free. *)
Definition after_push (vs : list T) (s : Inner) : Inner :=
  match vs with
  | [] => s
  | _ => set_nonempty (match queue s with [] => 1 | _ => nonempty s end) (set_queue (queue s ++ vs) s)
  end.

Lemma relock i s : locked s = None -> set_locked None (set_locked (Some i) s) = s.
Proof. intros Hl. destruct s. cbn in *. by subst. Qed.

Lemma run_push i v s :
  locked s = None -> run_alone (try_push i v) s =
    if cap <=? length (queue s) then Done (s, Some (RErr v)) else Done (after_push [v] s, Some (ROk tt)).
Proof.
  clear cap_pos.
  intros Hl. unfold try_push. rewrite run_lock by done. cbn -[Nat.leb]. rewrite decide_True by done. outcome_simpl.
  cbn [queue set_locked]. destruct (cap <=? length (queue s)); cbn -[Nat.leb].
  - by rewrite relock.
  - rewrite decide_True by done. outcome_simpl. unfold after_push, set_nonempty, set_queue. destruct s. cbn in *. subst.
    destruct queue0; reflexivity.
Qed.

Lemma run_push_many i vs s :
  locked s = None -> length (queue s) <= cap -> run_alone (try_push_many i vs) s =
    let k := (cap - length (queue s)) `min` length vs in Done (after_push (take k vs) s, Some (k, drop k vs)).
Proof.
  clear cap_pos.
  intros Hl Hq. unfold try_push_many. destruct vs as [|v vs']; [by rewrite Nat.min_0_r|]. set (vs := v :: vs').
  rewrite run_lock by done. cbn -[Nat.leb Nat.ltb]. rewrite decide_True by done. outcome_simpl. cbn [queue set_locked].
  unfold sub_usize. rewrite (proj2 (Z.leb_le _ _)) by lia. outcome_simpl. rewrite <-Nat2Z.inj_sub, Nat2Z.id by done.
  cbn zeta. fold vs. change (S (length vs')) with (length vs). set (k := (cap - length (queue s)) `min` length vs).
  destruct (0 <? k) eqn:Hk; bool_props.
  - cbn. rewrite decide_True by done. outcome_simpl. assert (exists a l, take k vs = a :: l) as (a & l & Ht).
    { destruct (take k vs) as [|a l] eqn:Ht; [|by exists a, l].
      assert (length (take k vs) = k) as Hlk by (rewrite length_take; lia). rewrite Ht in Hlk. simpl in Hlk. lia. }
    rewrite Ht. unfold after_push, set_nonempty, set_queue. destruct s. cbn in *. subst. destruct queue0; reflexivity.
  - cbn. rewrite relock by done. by replace k with 0 by lia.
Qed.

Lemma run_push_each i vs s :
  locked s = None -> length (queue s) <= cap -> run_alone (push_each i vs) s =
    let k := (cap - length (queue s)) `min` length vs in Done (after_push (take k vs) s, Some (k, drop k vs)).
Proof.
  clear cap_pos.
  revert s. induction vs as [|v vs IH]; intros s Hl Hq; cbn [push_each]; [by rewrite Nat.min_0_r|].
  unfold spin_bind at 1. rewrite run_alone_bind, run_push by done. destruct (cap <=? length (queue s)) eqn:Hc; bool_props; outcome_simpl.
  - cbn. by replace (cap - length (queue s)) with 0 by lia.
  - assert (length (queue (after_push [v] s)) = S (length (queue s))) as Hlen by (cbn; rewrite length_app; simpl; lia).
    unfold spin_bind. rewrite run_alone_bind, IH by (done || lia). cbn zeta. rewrite Hlen. outcome_simpl.
    destruct (cap - length (queue s)) as [|m] eqn:Hm; [lia|]. replace (cap - S (length (queue s))) with m by lia.
    cbn [length Nat.min take drop run_alone]. do 2 f_equal. set (l := take (m `min` length vs) vs).
    destruct s. unfold after_push. destruct l as [|b l']; [done|]. cbn. rewrite <-app_assoc. by destruct queue0.
Qed.

(** A parked receiver whose condition holds, with nobody in the middle of
    anything, has been woken. *)
Lemma woken_receiver got staging w k over s g :
  inv (s, g) -> Notify.signallers (sg g) = ∅ -> receiver_ends (ReceiverEnded got staging (Some (w, k)) over false) (s, g) ->
  queue s <> [] \/ senders s = 0%Z -> Notify.fired_since w k (recv_log s).
Proof.
  intros Hi Hsig (fin & _ & [_ _ _ (_ & [_ _ Rs _ _ _] & [Hw _])]) Hc. cbn in Rs, Hw.
  eapply Notify.parked_told; [apply (i_slot _ Hi)|exact Hsig|exact Hw|]. cbn. unfold awaited. cbn. tauto.
Qed.

(** A parked receiver has seen to the senders before it slept. *)
Lemma asleep_facts got staging w k over s g :
  receiver_ends (ReceiverEnded got staging (Some (w, k)) over false) (s, g) -> slept g = true /\ closed s = false.
Proof. by intros (fin & _ & [_ _ _ (_ & [_ _ _ Rl _ Rc] & _)]). Qed.

(** While it sleeps on an empty queue with somebody registered, a sender has
    been woken. *)
Lemma asleep_selected s g :
  core s g -> (forall i t, threads g !! i = Some t -> hand t = [] /\ redeem t = false) -> slept g = true ->
  queue s = [] -> closed s = false -> forall id e, pend g !! id = Some e ->
  exists id1 j1 w1 k1, pend g !! id1 = Some (j1, w1, k1) /\ w1 ∈ drop k1 (send_log s).
Proof.
  intros Hc Hidle Hsl Hq Hcl id [[j w] k] Hp.
  assert (swept g = false) as Hsw. { destruct (swept g) eqn:Hsw; [|done]. destruct (c_swept _ _ Hc Hsw). congruence. }
  destruct (c_pend _ _ Hc _ _ _ _ Hp) as (_ & _ & [[Hin _]|[Htd _]]).
  2:{ exists id, j, w, k. split; [done|]. by eapply told_fired. }
  destruct (c_slept _ _ Hc Hsl Hq) as [Hn|[Hs|(m & t & Hm & Hr)]].
  - rewrite Hn in Hin. by apply elem_of_nil in Hin.
  - apply set_choose_L in Hs as [id1 Hs]. destruct (c_sel _ _ Hc _ Hs) as [[[j1 w1] k1] Hp1].
    exists id1, j1, w1, k1. split; [done|]. destruct (c_pend _ _ Hc _ _ _ _ Hp1) as (_ & _ & [[_ ?]|[? _]]); [done|].
    by eapply told_fired.
  - destruct (Hidle m t Hm). congruence.
Qed.
End mpsc.

Section theorems.
Context `{Bm : BuildMode} `{Wk : Wakers} {T : Type}.

(** C11: under any interleaving of the senders' and the receiver's operations on a
    channel of any capacity, nothing panics, the guarded data is only accessed by
    the lock's holder, and the queue never exceeds the capacity; there is one
    order [hist] of the values sent such that each sender's values are in it in
    the order in which its operations accepted them, and the receiver has
    received, once and in order, exactly its first values: the rest is staged or
    queued. If a receive reported the channel closed, everything sent has been
    received and no sender is left. No operation is still spinning on the lock
    after fewer than [fuel] steps. *)
Theorem mpsc_fifo (capacity fuel : nat) (rops : list receiver_op) (rdrops : bool) (sc : list (sender_op (T := T)) * bool)
    (scs : list (list (sender_op (T := T)) * bool)) (sch : list nat) :
  (Z.of_nat (script_ops (sc :: scs)) <= usize_max)%Z ->
  exists s ps hist,
    run_sched sch (shared (length scs)) (mpsc_threads (bounded_cap capacity) fuel rops rdrops (sc :: scs)) = Done (s, ps) /\
    length (queue s) <= bounded_cap capacity /\
    (length sch < fuel -> forall i, ps !! i <> Some (Ret None)) /\
    (forall i st, ps !! S i = Some (Ret (Some (SenderEnded st))) -> sent_by (S i) hist = ss_sent st) /\
    (forall got staging pk over dropped, ps !! 0 = Some (Ret (Some (ReceiverEnded got staging pk over dropped))) ->
      hist.*2 = got ++ staging ++ queue s /\ (over = true -> hist.*2 = got /\ senders s = 0%Z)).
Proof.
  intros Hb. assert (0 < bounded_cap capacity) as Hcap by (unfold bounded_cap; lia).
  destruct (mpsc_run _ fuel Hcap rops rdrops sc scs sch Hb) as (s & ps & g & Hrun & Hlen & [Hc _ _] & _ & He & Hf).
  cbn [fst snd] in Hc. exists s, ps, (hist g). split_and!; [done|apply Hc|done| |].
  - intros i st Hp. by apply (ended_sender _ _ _ _ (He _ _ Hp)).
  - intros got staging pk over dropped Hp. destruct (ended_receiver _ _ _ _ _ _ _ _ (He _ _ Hp)) as [Ht Ho].
    pose proof (c_hist _ _ _ Hc) as Hh. rewrite Ht, <-app_assoc in Hh. split; [done|]. intros Hov.
    destruct (Ho Hov) as (-> & Hq & Hs). rewrite Hq, !app_nil_r in Hh. done.
Qed.

(** C12: the receiver loses no wakeup. When all threads are done with the
    receiver's last poll pending, and a value is queued or the last sender is
    gone, a waker of its task has been fired since that poll began. *)
Theorem mpsc_no_lost_wakeup (capacity fuel : nat) (rops : list receiver_op) (rdrops : bool) (sc : list (sender_op (T := T)) * bool)
    (scs : list (list (sender_op (T := T)) * bool)) (sch : list nat) s ps got staging (w : waker) (k : nat) over :
  (Z.of_nat (script_ops (sc :: scs)) <= usize_max)%Z ->
  run_sched sch (shared (length scs)) (mpsc_threads (bounded_cap capacity) fuel rops rdrops (sc :: scs)) = Done (s, ps) ->
  all_ended ps -> ps !! 0 = Some (Ret (Some (ReceiverEnded got staging (Some (w, k)) over false))) ->
  queue s <> [] \/ senders s = 0%Z -> Notify.fired_since w k (recv_log s).
Proof.
  intros Hb Hrun Hall Hp Hc. assert (0 < bounded_cap capacity) as Hcap by (unfold bounded_cap; lia).
  destruct (mpsc_run _ fuel Hcap rops rdrops sc scs sch Hb) as (s' & ps' & g & Hrun' & Hlen & Hi & Hth & He & _).
  rewrite Hrun in Hrun'. injection Hrun' as <- <-.
  destruct (ended_idle _ Hcap ps s g Hall Hi) as (Hsig & _ & _); [congruence|done|].
  eapply woken_receiver; [exact Hi|exact Hsig|exact (He _ _ Hp)|exact Hc].
Qed.
(** C13: parked senders are not stranded. When all threads are done with the
    receiver parked, not woken since its last poll began, and some sender's
    future is still pending, then the queue has room and a pending sender has
    been told: its waker has been fired since its own last poll began. Whichever
    pending future is polled, it pushes its value and resolves. *)
Theorem mpsc_no_stranded_sender (capacity fuel : nat) (rops : list receiver_op) (rdrops : bool)
    (sc : list (sender_op (T := T)) * bool) (scs : list (list (sender_op (T := T)) * bool)) (sch : list nat)
    s ps got staging (w : waker) (k : nat) over i f w' k' :
  (Z.of_nat (script_ops (sc :: scs)) <= usize_max)%Z ->
  run_sched sch (shared (length scs)) (mpsc_threads (bounded_cap capacity) fuel rops rdrops (sc :: scs)) = Done (s, ps) ->
  all_ended ps -> ps !! 0 = Some (Ret (Some (ReceiverEnded got staging (Some (w, k)) over false))) ->
  ~ Notify.fired_since w k (recv_log s) -> left_pending ps i f w' k' ->
  queue s = [] /\
  (exists i1 f1 w1 k1, left_pending ps i1 f1 w1 k1 /\ w1 ∈ drop k1 (send_log s)) /\
  exists s' v, val f = Some v /\
    run_alone (poll_send (bounded_cap capacity) fuel (S i) f w') s = Done (s', Some (Ready (ROk tt), mkSend None None)) /\
    queue s' = [v].
Proof.
  intros Hb Hrun Hall Hp Hnf Hpd. assert (0 < bounded_cap capacity) as Hcap by (unfold bounded_cap; lia).
  destruct (mpsc_run _ fuel Hcap rops rdrops sc scs sch Hb) as (s1 & ps1 & g & Hrun' & Hlen & Hi & Hth & He & _).
  rewrite Hrun in Hrun'. injection Hrun' as <- <-.
  destruct (ended_idle _ Hcap ps s g Hall Hi) as (Hsig & Hl & Hidle); [congruence|done|].
  destruct (queue s) as [|v0 vs] eqn:Hq.
  2:{ destruct Hnf. eapply woken_receiver; [exact Hi|exact Hsig|exact (He _ _ Hp)|]. left. by rewrite Hq. }
  split; [done|]. destruct (asleep_facts _ _ _ _ _ _ _ _ (He _ _ Hp)) as [Hsl Hcl].
  destruct (pending_registered _ ps s g i f w' k' He Hpd) as (id & v & Hpid & Hval & Hpend). split.
  - destruct (asleep_selected _ s g (i_core _ _ Hi) Hidle Hsl Hq Hcl _ _ Hpend) as (id1 & j1 & w1 & k1 & Hp1 & Hf1).
    destruct (registered_pending _ Hcap ps s g j1 id1 w1 k1 Hall) as (i1 & f1 & Hl1 & _); [congruence|done|done|done|].
    by exists i1, f1, w1, k1.
  - destruct (run_poll_room (bounded_cap capacity) fuel (S i) f w' v id s Hl Hcl) as (s' & Hpoll & Hq'); [by rewrite Hq|done|done|].
    exists s', v. by rewrite Hq in Hq'.
Qed.

(** C29: dropping the receiver strands nobody. When all threads are done and the
    receiver has been dropped, every future still pending has had its waker fired
    since its last poll began, and polling it again hands its value back in
    [SendError]. *)
Theorem mpsc_close_wakes (capacity fuel : nat) (rops : list receiver_op) (rdrops : bool)
    (sc : list (sender_op (T := T)) * bool) (scs : list (list (sender_op (T := T)) * bool)) (sch : list nat)
    s ps got staging pk over i f (w : waker) k :
  (Z.of_nat (script_ops (sc :: scs)) <= usize_max)%Z ->
  run_sched sch (shared (length scs)) (mpsc_threads (bounded_cap capacity) fuel rops rdrops (sc :: scs)) = Done (s, ps) ->
  all_ended ps -> ps !! 0 = Some (Ret (Some (ReceiverEnded got staging pk over true))) -> left_pending ps i f w k ->
  w ∈ drop k (send_log s) /\
  exists s' v, val f = Some v /\
    run_alone (poll_send (bounded_cap capacity) fuel (S i) f w) s = Done (s', Some (Ready (RErr v), mkSend None None)).
Proof.
  intros Hb Hrun Hall Hp Hpd. assert (0 < bounded_cap capacity) as Hcap by (unfold bounded_cap; lia).
  destruct (mpsc_run _ fuel Hcap rops rdrops sc scs sch Hb) as (s1 & ps1 & g & Hrun' & Hlen & Hi & Hth & He & _).
  rewrite Hrun in Hrun'. injection Hrun' as <- <-.
  destruct (ended_idle _ Hcap ps s g Hall Hi) as (Hsig & Hl & Hidle); [congruence|done|].
  destruct (pending_registered _ ps s g i f w k He Hpd) as (id & v & Hpid & Hval & Hpend).
  destruct (He _ _ Hp) as (rv & st & [_ _ _ (_ & [_ _ _ _ Rw _] & _)] & _ & Hsw & _). cbn [snd] in Rw. rewrite Hsw in Rw.
  destruct (c_swept _ _ _ (i_core _ _ Hi) Rw) as [Hcl Hq]. cbn [fst snd] in *. split.
  - destruct (c_pend _ _ _ (i_core _ _ Hi) _ _ _ _ Hpend) as (_ & _ & [[Hin _]|[Htd _]]); cbn [fst snd] in *.
    + rewrite Hq in Hin. by apply elem_of_nil in Hin.
    + by eapply told_fired.
  - destruct (run_poll_closed (bounded_cap capacity) fuel (S i) f w v id s Hl Hcl Hval Hpid) as (s' & Hpoll). by exists s', v.
Qed.

(** C38: the lock and its hints. When all threads are done the lock is free, the
    lock-free hints are exact, and the parked senders are those whose futures
    are pending. *)
Theorem mpsc_rest_state (capacity fuel : nat) (rops : list receiver_op) (rdrops : bool)
    (sc : list (sender_op (T := T)) * bool) (scs : list (list (sender_op (T := T)) * bool)) (sch : list nat) s ps :
  (Z.of_nat (script_ops (sc :: scs)) <= usize_max)%Z ->
  run_sched sch (shared (length scs)) (mpsc_threads (bounded_cap capacity) fuel rops rdrops (sc :: scs)) = Done (s, ps) ->
  all_ended ps ->
  locked s = None /\ nonempty s = hint (queue s) /\ waiters_len s = length (q s) /\
  (forall id w, (id, w) ∈ q s -> exists i f k, left_pending ps i f w k /\ parked_id f = Some id) /\
  (forall id, id ∈ selected s -> exists i f w k, left_pending ps i f w k /\ parked_id f = Some id /\ w ∈ drop k (send_log s)).
Proof.
  intros Hb Hrun Hall. assert (0 < bounded_cap capacity) as Hcap by (unfold bounded_cap; lia).
  destruct (mpsc_run _ fuel Hcap rops rdrops sc scs sch Hb) as (s1 & ps1 & g & Hrun' & Hlen & Hi & Hth & He & _).
  rewrite Hrun in Hrun'. injection Hrun' as <- <-.
  destruct (ended_idle _ Hcap ps s g Hall Hi) as (Hsig & Hl & Hidle); [congruence|done|].
  pose proof (i_core _ _ Hi) as Hc. cbn [fst snd] in Hc. destruct (c_hints _ _ _ Hc Hl) as [Hne Hw].
  assert (forall id j w k, pend g !! id = Some (j, w, k) -> exists i f, left_pending ps i f w k /\ parked_id f = Some id) as Hreg.
  { intros id j w k Hp. eapply registered_pending; try done. congruence. }
  split_and!; [done..| |].
  - intros id w Hin. destruct (c_q _ _ _ Hc _ _ Hin) as (j & k & Hp). destruct (Hreg _ _ _ _ Hp) as (i & f & ? & ?). by exists i, f, k.
  - intros id Hin. destruct (c_sel _ _ _ Hc _ Hin) as [[[j w] k] Hp]. destruct (Hreg _ _ _ _ Hp) as (i & f & ? & ?).
    exists i, f, w, k. split_and!; [done..|]. eapply told_fired; [exact Hidle|].
    destruct (c_pend _ _ _ Hc _ _ _ _ Hp) as (_ & _ & [[_ ?]|[? _]]); done.
Qed.
(** C30: a batch is its items sent one by one: on a channel whose lock is free,
    [try_push_many] has the effect and the answer of [try_push] on each item
    until one does not fit, for one acquisition of the lock. *)
Theorem mpsc_batch_is_each (cap fuel i : nat) (items : list T) (s : Inner) :
  locked s = None -> length (queue s) <= cap ->
  run_alone (try_push_many cap fuel i items) s = run_alone (push_each cap fuel i items) s.
Proof. intros Hl Hq. rewrite run_push_many, run_push_each by done. done. Qed.

Lemma all_ended_forall ps :
  Forall (fun p => match p with Ret (Some _) => True | _ => False end) ps -> all_ended (T := T) ps.
Proof.
  intros Hf i p Hp. pose proof (Forall_lookup_1 _ _ _ _ Hf Hp) as He. destruct p as [[e|]|]; [by exists e|done..].
Qed.
End theorems.

#[local] Instance nat_wakers : Wakers := {| waker := nat; will_wake := Nat.eqb |}.
#[local] Existing Instance debug_build.

Abbreviation r_ops := (list (receiver_op (Wk := nat_wakers))).
Abbreviation s_script := (list (sender_op (Wk := nat_wakers) (T := nat)) * bool)%type.

(** Two senders and a receiver take turns on a channel of two. *)
Definition demo_rops : r_ops := [PollRecv false 7; PollRecv true 8; RecvMany 3; PollRecv false 9].
Definition demo_sender1 : s_script := ([TrySend 1; TrySendMany [2; 3]; Clone; DropClone], true).
Definition demo_sender2 : s_script := ([NewSend 10; PollSend 0 42; PollSend 0 43], false).
Definition demo_sch : list nat := concat (replicate 150 [0; 1; 2]).

Lemma mpsc_fifo_witness : exists s ps hist,
  run_sched demo_sch (shared 1) (mpsc_threads (bounded_cap 2) 500 demo_rops false [demo_sender1; demo_sender2]) = Done (s, ps) /\
  sent_by 1 hist = [1; 2; 3] /\ sent_by 2 hist = [10] /\ hist.*2 = [1; 2; 3; 10].
Proof.
  destruct (mpsc_fifo (Wk := nat_wakers) (T := nat) 2 500 demo_rops false demo_sender1 [demo_sender2] demo_sch)
    as (s & ps & hist & Hrun & Hcap & Hspin & Hsent & Hgot).
  { apply Z.leb_le. vm_compute. reflexivity. }
  pose proof Hrun as Hrun'. vm_compute in Hrun'. injection Hrun' as <- <-.
  do 2 eexists. exists hist. split; [exact Hrun|]. split; [exact (Hsent 0 _ eq_refl)|]. split; [exact (Hsent 1 _ eq_refl)|].
  exact (proj1 (Hgot _ _ _ _ _ eq_refl)).
Defined.

(** The receiver parks, then the only sender sends. *)
Definition wake_rops : r_ops := [PollRecv false 9].
Definition one_send : s_script := ([TrySend 1], false).
Definition wake_sch : list nat := replicate 40 0 ++ replicate 40 1.

Lemma mpsc_no_lost_wakeup_witness : exists s ps,
  run_sched wake_sch (shared 0) (mpsc_threads (bounded_cap 1) 100 wake_rops false [one_send]) = Done (s, ps) /\
  queue s = [1] /\ Notify.fired_since (H0 := nat_wakers) 9 0 (recv_log s).
Proof.
  destruct (run_sched wake_sch (shared 0) (mpsc_threads (bounded_cap 1) 100 wake_rops false [one_send]))
    as [[s ps]| |] eqn:Hrun; pose proof Hrun as Hrun'; vm_compute in Hrun'; [|discriminate..].
  injection Hrun' as <- <-. do 2 eexists. split; [reflexivity|]. split; [reflexivity|].
  eapply (mpsc_no_lost_wakeup (Wk := nat_wakers) 1 100 wake_rops false one_send [] wake_sch _ _ _ _ 9 0);
    [apply Z.leb_le; vm_compute; reflexivity|exact Hrun|apply all_ended_forall; repeat constructor|reflexivity|left; discriminate].
Defined.

(** A full channel with two parked senders; then the receiver takes the value and
    parks, or is dropped. *)
Definition parked1 : s_script := ([NewSend 10; PollSend 0 42], false).
Definition parked2 : s_script := ([NewSend 20; PollSend 0 52], false).
Definition stuck_rops : r_ops := [TryRecv; PollRecv false 9].
Definition stuck_sch : list nat := replicate 20 1 ++ replicate 30 2 ++ replicate 30 3 ++ replicate 60 0.

Lemma mpsc_no_stranded_sender_witness : exists s ps,
  run_sched stuck_sch (shared 2) (mpsc_threads (bounded_cap 1) 200 stuck_rops false [one_send; parked1; parked2]) = Done (s, ps) /\
  exists i f w k, left_pending ps i f w k /\ w ∈ drop k (send_log s).
Proof.
  destruct (run_sched stuck_sch (shared 2) (mpsc_threads (bounded_cap 1) 200 stuck_rops false [one_send; parked1; parked2]))
    as [[s ps]| |] eqn:Hrun; pose proof Hrun as Hrun'; vm_compute in Hrun'; [|discriminate..].
  injection Hrun' as <- <-. do 2 eexists. split; [reflexivity|].
  eapply (mpsc_no_stranded_sender (Wk := nat_wakers) 1 200 stuck_rops false one_send [parked1; parked2] stuck_sch
    _ _ _ _ 9 0 _ 1 (mkSend (Some 10) (Some 0%Z)) 42 0);
    [apply Z.leb_le; vm_compute; reflexivity|exact Hrun|apply all_ended_forall; repeat constructor|reflexivity| |].
  - intros (y & Hy & _). cbn in Hy. by apply elem_of_nil in Hy.
  - eexists _, 0. split; reflexivity.
Defined.

Lemma mpsc_close_wakes_witness : exists s ps,
  run_sched stuck_sch (shared 2) (mpsc_threads (bounded_cap 1) 200 [] true [one_send; parked1; parked2]) = Done (s, ps) /\
  52 ∈ drop 0 (send_log s) /\
  exists s', run_alone (poll_send (bounded_cap 1) 200 3 (mkSend (Some 20) (Some 1%Z)) 52) s =
    Done (s', Some (Ready (RErr 20), mkSend None None)).
Proof.
  destruct (run_sched stuck_sch (shared 2) (mpsc_threads (bounded_cap 1) 200 [] true [one_send; parked1; parked2]))
    as [[s ps]| |] eqn:Hrun; pose proof Hrun as Hrun'; vm_compute in Hrun'; [|discriminate..].
  injection Hrun' as <- <-. do 2 eexists. split; [reflexivity|].
  pose proof (mpsc_close_wakes (Wk := nat_wakers) 1 200 [] true one_send [parked1; parked2] stuck_sch
    _ _ [] [] None false 2 (mkSend (Some 20) (Some 1%Z)) 52 0 ltac:(apply Z.leb_le; vm_compute; reflexivity) Hrun
    ltac:(apply all_ended_forall; repeat constructor) eq_refl) as Hcw.
  destruct Hcw as (Hw & s' & v & [= <-] & Hpoll); [eexists _, 0; split; reflexivity|].
  split; [exact Hw|]. exists s'. exact Hpoll.
Defined.

Lemma mpsc_rest_state_witness : exists s ps,
  run_sched stuck_sch (shared 2) (mpsc_threads (bounded_cap 1) 200 [] false [one_send; parked1; parked2]) = Done (s, ps) /\
  waiters_len s = 2 /\ length (q s) = 2.
Proof.
  destruct (run_sched stuck_sch (shared 2) (mpsc_threads (bounded_cap 1) 200 [] false [one_send; parked1; parked2]))
    as [[s ps]| |] eqn:Hrun; pose proof Hrun as Hrun'; vm_compute in Hrun'; [|discriminate..].
  injection Hrun' as <- <-. do 2 eexists. split; [reflexivity|]. split; [reflexivity|].
  pose proof (mpsc_rest_state (Wk := nat_wakers) 1 200 [] false one_send [parked1; parked2] stuck_sch
    _ _ ltac:(apply Z.leb_le; vm_compute; reflexivity) Hrun ltac:(apply all_ended_forall; repeat constructor))
    as (_ & _ & Hw & _).
  rewrite <-Hw. reflexivity.
Defined.

Lemma mpsc_batch_is_each_witness :
  run_alone (try_push_many (Wk := nat_wakers) 2 9 1 [5; 6; 7]) (shared 0) =
    run_alone (push_each (Wk := nat_wakers) 2 9 1 [5; 6; 7]) (shared 0) /\
  match run_alone (push_each (Wk := nat_wakers) 2 9 1 [5; 6; 7]) (shared 0) with
  | Done (s, o) => queue s = [5; 6] /\ o = Some (2, [7])
  | _ => False
  end.
Proof.
  split; [|vm_compute; split; reflexivity].
  apply (mpsc_batch_is_each (Wk := nat_wakers) 2 9 1 [5; 6; 7] (shared 0)); [reflexivity|vm_compute; repeat constructor].
Defined.
End Mpsc.
