(* ===== verification/Text.v ===== *)
(** * Text, as the chart generator uses it

    Rust strings are lists of Unicode scalar values; the methods of [str] the
    generator calls, the ordered map [BTreeMap] keyed by strings, and the stable
    sort of a slice. These model Rust's standard library. *)
From stdpp Require Import base list numbers sorting sets strings.
From S2P Require Import Prelude.

Abbreviation str := (list N).

(** A literal; the backtick stands for the double quote. *)
Definition lit_char (a : Ascii.ascii) : N := let n := Ascii.N_of_ascii a in if (n =? 96)%N then 34%N else n.
Definition lit (s : string) : str := lit_char <$> String.list_ascii_of_string s.
Arguments lit s%_string.

Module Text.
Open Scope N_scope.

(** [char::is_whitespace], [is_ascii_digit], [is_ascii_alphanumeric],
    [to_ascii_lowercase]. *)
Definition is_whitespace (c : N) : bool :=
  (9 <=? c) && (c <=? 13) || (c =? 32) || (c =? 133) || (c =? 160) || (c =? 5760) ||
  (8192 <=? c) && (c <=? 8202) || (c =? 8232) || (c =? 8233) || (c =? 8239) || (c =? 8287) || (c =? 12288).
Definition is_digit (c : N) : bool := (48 <=? c) && (c <=? 57).
Definition is_upper (c : N) : bool := (65 <=? c) && (c <=? 90).
Definition is_lower (c : N) : bool := (97 <=? c) && (c <=? 122).
Definition is_ascii_alphanumeric (c : N) : bool := is_digit c || is_upper c || is_lower c.
Definition to_ascii_lowercase (c : N) : N := if is_upper c then c + 32 else c.

Definition eqb (a b : str) : bool := bool_decide (a = b).
Definition eq_ignore_ascii_case (a b : str) : bool := eqb (to_ascii_lowercase <$> a) (to_ascii_lowercase <$> b).

(** [trim_start], [trim_end], [trim], [trim_end_matches(char)]. *)
Fixpoint trim_start_by (f : N -> bool) (s : str) : str :=
  match s with
  | [] => []
  | c :: t => if f c then trim_start_by f t else s
  end.
Definition trim_end_by (f : N -> bool) (s : str) : str := reverse (trim_start_by f (reverse s)).
Definition trim (s : str) : str := trim_end_by is_whitespace (trim_start_by is_whitespace s).
Definition trim_end_matches (c : N) (s : str) : str := trim_end_by (N.eqb c) s.

(** [split(char)] and [splitn(3, char)]. *)
Fixpoint split (c : N) (s : str) : list str :=
  match s with
  | [] => [[]]
  | x :: s =>
      if x =? c then [] :: split c s
      else match split c s with [] => [[x]] | p :: ps => (x :: p) :: ps end
  end.
Fixpoint split_once (c : N) (s : str) : option (str * str) :=
  match s with
  | [] => None
  | x :: s => if x =? c then Some ([], s) else '(p, q) ← split_once c s; Some (x :: p, q)
  end.
Definition splitn3 (c : N) (s : str) : option (str * str * str) :=
  '(a, r) ← split_once c s; '(b, r) ← split_once c r; Some (a, b, r).

(** [lines]: terminated by a line feed, with a carriage return before it dropped. *)
Fixpoint lines (s : str) : list str :=
  match s with
  | [] => []
  | x :: t =>
      if x =? 10 then [] :: lines t
      else if (x =? 13) && (match t with y :: _ => y =? 10 | [] => false end) then lines t
      else match lines t with [] => [[x]] | l :: ls => (x :: l) :: ls end
  end.

Definition strip_prefix (c : N) (s : str) : option str :=
  match s with x :: t => if x =? c then Some t else None | [] => None end.
Fixpoint starts_with (p s : str) : bool :=
  match p, s with
  | [], _ => true
  | a :: p, b :: s => (a =? b) && starts_with p s
  | _, [] => false
  end.
Definition ends_with (p s : str) : bool := starts_with (reverse p) (reverse s).

(** [replace(char, str)]. *)
Definition replace (c : N) (by_ : str) (s : str) : str := x ← s; if x =? c then by_ else [x].

(** The order of strings. *)
Fixpoint ltb (a b : str) : bool :=
  match a, b with
  | _, [] => false
  | [], _ => true
  | x :: a, y :: b => (x <? y) || (x =? y) && ltb a b
  end.

Lemma ltb_irrefl a : ltb a a = false.
Proof. induction a as [|x a IH]; [done|]. cbn [ltb]. by rewrite N.ltb_irrefl, N.eqb_refl, IH. Qed.

Lemma ltb_trans a b c : ltb a b = true -> ltb b c = true -> ltb a c = true.
Proof.
  revert b c. induction a as [|x a IH]; intros [|y b] [|z c]; try done. cbn [ltb].
  rewrite !orb_true_iff, !andb_true_iff, !N.ltb_lt, !N.eqb_eq. intros [?|[-> ?]] [?|[-> ?]]; [left; lia|by left|by left|].
  right. split; [done|]. by eapply IH.
Qed.

Lemma ltb_total a b : ltb a b = false -> a <> b -> ltb b a = true.
Proof.
  revert b. induction a as [|x a IH]; intros [|y b]; try done. cbn [ltb].
  rewrite orb_false_iff, andb_false_iff, orb_true_iff, andb_true_iff, N.ltb_ge, N.ltb_lt, N.eqb_neq, N.eqb_eq.
  intros [Hle Hor] Hne. destruct (decide (x = y)) as [->|Hxy]; [|left; lia]. right. split; [done|].
  destruct Hor as [?|Hor]; [done|]. apply IH; [done|congruence].
Qed.

(** ** Writing what these functions read *)

(** A text that [trim] leaves alone. *)
Definition edges (s : str) : Prop :=
  (forall c, head s = Some c -> is_whitespace c = false) /\ (forall c, last s = Some c -> is_whitespace c = false).

Lemma trim_start_edge (f : N -> bool) s : (forall c, head s = Some c -> f c = false) -> trim_start_by f s = s.
Proof. destruct s as [|c s]; [done|]. intros H. cbn. by rewrite H. Qed.

Lemma trim_edges s : edges s -> trim s = s.
Proof.
  intros [Hh Hl]. unfold trim, trim_end_by. rewrite (trim_start_edge _ s) by done.
  rewrite trim_start_edge; [apply reverse_involutive|]. intros c. rewrite head_reverse. apply Hl.
Qed.

Lemma edges_nil : edges [].
Proof. done. Qed.

(** Joined pieces. *)
Lemma edges_app a b : edges a -> edges b -> a <> [] -> b <> [] -> edges (a ++ b).
Proof.
  intros [Ha _] [_ Hb] Hna Hnb. split; intros c.
  - destruct a; [done|]. apply Ha.
  - rewrite last_app. destruct (last b) as [d|] eqn:Hd; [intros [= <-]; by apply Hb|]. by apply last_None in Hd.
Qed.

Fixpoint join (c : N) (l : list str) : str :=
  match l with
  | [] => []
  | [p] => p
  | p :: l => p ++ c :: join c l
  end.

Lemma split_app c p s : c ∉ p -> split c (p ++ c :: s) = p :: split c s.
Proof.
  induction p as [|x p IH]; intros Hc; cbn [app split]; [by rewrite N.eqb_refl|]. apply not_elem_of_cons in Hc as [Hx Hc].
  rewrite (proj2 (N.eqb_neq x c)) by done. by rewrite IH.
Qed.

Lemma split_end c p : c ∉ p -> split c p = [p].
Proof.
  induction p as [|x p IH]; intros Hc; [done|]. apply not_elem_of_cons in Hc as [Hx Hc]. cbn [split].
  rewrite (proj2 (N.eqb_neq x c)) by done. by rewrite IH.
Qed.

Lemma split_join c l : l <> [] -> Forall (fun p => c ∉ p) l -> split c (join c l) = l.
Proof.
  intros Hl. induction l as [|p l IH]; [done|]. intros [Hp Hps]%Forall_cons. destruct l as [|q l]; [by apply split_end|].
  change (join c (p :: q :: l)) with (p ++ c :: join c (q :: l)). rewrite split_app by done. by rewrite IH.
Qed.

Lemma split_once_app c p s : c ∉ p -> split_once c (p ++ c :: s) = Some (p, s).
Proof.
  induction p as [|x p IH]; intros Hc; cbn [app split_once]; [by rewrite N.eqb_refl|].
  apply not_elem_of_cons in Hc as [Hx Hc]. rewrite (proj2 (N.eqb_neq x c)) by done. by rewrite IH.
Qed.

Lemma lines_app l s : 10 ∉ l -> last l <> Some 13 -> lines (l ++ 10 :: s) = l :: lines s.
Proof.
  induction l as [|x l IH]; intros Hn Hl; [done|]. apply not_elem_of_cons in Hn as [Hx Hn]. cbn [app lines].
  rewrite (proj2 (N.eqb_neq x 10)) by done. destruct l as [|y l].
  - cbn [app]. destruct (x =? 13) eqn:Hcr; [by apply N.eqb_eq in Hcr as ->|]. done.
  - apply not_elem_of_cons in Hn as [Hy Hn]. cbn [app]. rewrite (proj2 (N.eqb_neq y 10)) by done. rewrite andb_false_r.
    change (y :: l ++ 10 :: s) with ((y :: l) ++ 10 :: s). rewrite IH; [done|by apply not_elem_of_cons|done].
Qed.

Lemma edges_line l : edges l -> last l <> Some 13.
Proof. intros [_ Hl] H. by specialize (Hl 13 H). Qed.
End Text.

(** ** [BTreeMap<String, V>]: its entries in the order of the keys *)
Module BTree.
Section btree.
Context {V : Type}.
Abbreviation btree := (list (str * V)).

Fixpoint get (k : str) (m : btree) : option V :=
  match m with
  | [] => None
  | (k', v) :: m => if decide (k = k') then Some v else get k m
  end.

(** [m.entry(k).or_insert(d)] followed by an update in place. *)
Fixpoint entry_or (k : str) (d : V) (f : V -> V) (m : btree) : btree :=
  match m with
  | [] => [(k, f d)]
  | (k', v) :: m' =>
      if decide (k = k') then (k, f v) :: m'
      else if Text.ltb k k' then (k, f d) :: m
      else (k', v) :: entry_or k d f m'
  end.
Definition insert (k : str) (v : V) (m : btree) : btree := entry_or k v (fun _ => v) m.
Definition extend (m m' : btree) : btree := foldl (fun m kv => insert kv.1 kv.2 m) m m'.

(** The keys ascend. *)
Definition ok (m : btree) : Prop := StronglySorted (fun a b => Text.ltb a b = true) m.*1.

Lemma ok_cons k v m : ok ((k, v) :: m) <-> Forall (fun k' => Text.ltb k k' = true) m.*1 /\ ok m.
Proof. unfold ok. cbn. split; [by inversion 1|intros [? ?]; by constructor]. Qed.

Lemma get_above k m : Forall (fun k' => Text.ltb k k' = true) m.*1 -> get k m = None.
Proof.
  induction m as [|[k' v] m IH]; [done|]. cbn. intros [Hlt Hm]%Forall_cons. destruct (decide (k = k')) as [->|]; [|by apply IH].
  by rewrite Text.ltb_irrefl in Hlt.
Qed.

Lemma above_trans k k' (m : btree) :
  Text.ltb k k' = true -> Forall (fun j => Text.ltb k' j = true) m.*1 -> Forall (fun j => Text.ltb k j = true) m.*1.
Proof. intros Hk Hm. eapply Forall_impl; [exact Hm|]. intros j. by apply Text.ltb_trans. Qed.

Lemma entry_or_keys k d f m : forall j, j ∈ (entry_or k d f m).*1 <-> j = k \/ j ∈ m.*1.
Proof.
  intros j. induction m as [|[k' v] m IH]; cbn; [set_solver|]. repeat case_decide; [subst; cbn; set_solver|].
  destruct (Text.ltb k k'); cbn; [set_solver|]. rewrite !elem_of_cons, IH. tauto.
Qed.

Lemma entry_or_ok k d f m : ok m -> ok (entry_or k d f m).
Proof.
  induction m as [|[k' v] m IH]; intros Hm; [by apply ok_cons; split; [apply Forall_nil|]|]. cbn [entry_or].
  apply ok_cons in Hm as [Ha Hm]. destruct (decide (k = k')) as [->|Hne]; [by apply ok_cons|].
  destruct (Text.ltb k k') eqn:Hlt; apply ok_cons; split.
  - cbn. apply Forall_cons. split; [done|]. by eapply above_trans.
  - by apply ok_cons.
  - apply Forall_forall. intros j. rewrite entry_or_keys. intros [-> |Hj]; [by apply Text.ltb_total|].
    by apply (proj1 (Forall_forall _ _) Ha).
  - by apply IH.
Qed.

Lemma get_entry_or k d f m : ok m -> get k (entry_or k d f m) = Some (f (default d (get k m))).
Proof.
  induction m as [|[k' v] m IH]; intros Hm; cbn [get entry_or]; [by rewrite decide_True|]. apply ok_cons in Hm as [Ha Hm].
  destruct (decide (k = k')) as [->|Hk]; [by cbn [get]; rewrite decide_True|].
  destruct (Text.ltb k k') eqn:Hlt; cbn [get]; [|by rewrite decide_False, IH]. rewrite decide_True by done.
  rewrite (get_above k); [done|]. by eapply above_trans.
Qed.

Lemma get_entry_or_ne k j d f m : j <> k -> get j (entry_or k d f m) = get j m.
Proof.
  intros Hj. induction m as [|[k' v] m IH]; cbn [get entry_or]; [by rewrite decide_False|].
  destruct (decide (k = k')) as [->|Hk]; [cbn [get]; by rewrite !decide_False|].
  destruct (Text.ltb k k'); cbn [get]; [by rewrite decide_False|]. by rewrite IH.
Qed.

Lemma ok_nodup m : ok m -> NoDup m.*1.
Proof.
  induction m as [|[k v] m IH]; cbn; [constructor|]. intros [Ha Hm]%ok_cons. constructor; [|by apply IH].
  intros Hk. apply (proj1 (Forall_forall _ _) Ha) in Hk. by rewrite Text.ltb_irrefl in Hk.
Qed.

Lemma get_elem k v m : ok m -> get k m = Some v <-> (k, v) ∈ m.
Proof.
  induction m as [|[k' v'] m IH]; cbn [get]; [by split; [|inversion 1]|]. intros [Ha Hm]%ok_cons. rewrite elem_of_cons.
  destruct (decide (k = k')) as [->|Hk].
  - split; [intros [= ->]; by left|]. intros [[= ->]|Hin]; [done|]. apply (list_elem_of_fmap_2 fst) in Hin.
    apply (proj1 (Forall_forall _ _) Ha) in Hin. by rewrite Text.ltb_irrefl in Hin.
  - rewrite IH by done. split; [by right|]. by intros [[= -> ->]|].
Qed.

(** Keys above all others go to the end. *)
Lemma entry_or_above k d f m : Forall (fun j => Text.ltb j k = true) m.*1 -> entry_or k d f m = m ++ [(k, f d)].
Proof.
  induction m as [|[k' v] m IH]; [done|]. cbn. intros [Hlt Hm]%Forall_cons. rewrite decide_False.
  - destruct (Text.ltb k k') eqn:Hlt'; [|by rewrite IH]. pose proof (Text.ltb_trans _ _ _ Hlt Hlt') as H.
    by rewrite Text.ltb_irrefl in H.
  - intros ->. by rewrite Text.ltb_irrefl in Hlt.
Qed.

Lemma entry_or_last k d f v m : Forall (fun j => Text.ltb j k = true) m.*1 -> entry_or k d f (m ++ [(k, v)]) = m ++ [(k, f v)].
Proof.
  induction m as [|[k' v'] m IH]; cbn; [by rewrite decide_True|]. intros [Hlt Hm]%Forall_cons. rewrite decide_False.
  - destruct (Text.ltb k k') eqn:Hlt'; [|by rewrite IH]. pose proof (Text.ltb_trans _ _ _ Hlt Hlt') as H.
    by rewrite Text.ltb_irrefl in H.
  - intros ->. by rewrite Text.ltb_irrefl in Hlt.
Qed.
End btree.
End BTree.

(** ** [slice::sort_by] with a total order: the stable sort *)
Module SortBy.
Section sort.
Context {A : Type} (le : A -> A -> bool).

Fixpoint insert (x : A) (l : list A) : list A :=
  match l with
  | [] => [x]
  | y :: t => if le x y then x :: l else y :: insert x t
  end.
Definition sort_by (l : list A) : list A := foldr insert [] l.

Lemma insert_sorted_perm x l : insert x l ≡ₚ x :: l.
Proof. induction l as [|y l IH]; [done|]. cbn. destruct (le x y); [done|]. rewrite IH. apply Permutation_swap. Qed.

Lemma sort_by_perm l : sort_by l ≡ₚ l.
Proof. induction l as [|x l IH]; [done|]. cbn. by rewrite insert_sorted_perm, IH. Qed.

Context (Htotal : forall x y, le x y = false -> le y x = true).

Lemma insert_sorted x l : Sorted (fun a b => le a b = true) l -> Sorted (fun a b => le a b = true) (insert x l).
Proof.
  induction 1 as [|y l Hl IH Hy]; cbn; [by repeat constructor|]. destruct (le x y) eqn:Hxy; [by repeat constructor|].
  constructor; [done|]. destruct l as [|z l]; cbn; [constructor; by apply Htotal|].
  destruct (le x z); constructor; [by apply Htotal|by inversion Hy].
Qed.

Lemma sort_by_sorted l : Sorted (fun a b => le a b = true) (sort_by l).
Proof. induction l; [constructor|]. by apply insert_sorted. Qed.
End sort.
End SortBy.
