(* ===== verification/Float64.v ===== *)
(** * [f64], as the chart generator uses it

    IEEE-754 binary64 by the Standard Library's [SpecFloat] (a NaN has no sign or
    payload), with the methods of Rust's [f64] the generator calls: conversions,
    [total_cmp], rounding to integers, parsing and fixed-precision formatting.
    Both conversions of text round the exact value to nearest, ties to even. *)
From stdpp Require Import base list numbers strings.
From Stdlib Require Import SpecFloat.
From Stdlib Require DecimalPos.
From S2P Require Import Prelude Text.

Abbreviation f64 := spec_float.

Module F64.
Open Scope Z_scope.
Definition prec : Z := 53.
Definition emax : Z := 1024.

Definition add : f64 -> f64 -> f64 := SFadd prec emax.
Definition sub : f64 -> f64 -> f64 := SFsub prec emax.
Definition mul : f64 -> f64 -> f64 := SFmul prec emax.
Definition div : f64 -> f64 -> f64 := SFdiv prec emax.
Definition lt : f64 -> f64 -> bool := SFltb.
Definition le : f64 -> f64 -> bool := SFleb.
Definition is_nan (x : f64) : bool := match x with S754_nan => true | _ => false end.
Definition is_finite (x : f64) : bool :=
  match x with S754_zero _ | S754_finite _ _ _ => true | _ => false end.

(** An integer, and [m / 10^k]. *)
Definition of_Z (z : Z) : f64 := binary_normalize prec emax z 0 false.
Definition of_decimal (s : bool) (m k : Z) : f64 :=
  if m =? 0 then S754_zero s
  else if k <=? 0 then binary_round prec emax s (Z.to_pos (m * 10 ^ (-k))) 0
  else
    let d := 10 ^ k in
    let shift := Z.max 0 (Zdigits2 d - Zdigits2 m + 66) in
    let '(q, r) := Z.div_eucl (Z.shiftl m shift) d in
    binary_round_aux prec emax s q (- shift) (new_location d r).
Definition dec (m k : Z) : f64 := of_decimal false m k.

(** [f64::MAX], [f64::MIN]. *)
Definition MAX : f64 := SFmax_float prec emax.
Definition MIN : f64 := SFopp MAX.

(** [max] and [min]: a NaN is ignored. *)
Definition max (a b : f64) : f64 := if is_nan a then b else if is_nan b then a else if lt a b then b else a.
Definition min (a b : f64) : f64 := if is_nan a then b else if is_nan b then a else if lt b a then b else a.

(** [a.total_cmp(b)] is not [Greater]. *)
Definition total_le (a b : f64) : bool :=
  match a, b with
  | _, S754_nan => true
  | S754_nan, _ => false
  | S754_zero s, S754_zero t => s || negb t
  | _, _ => SFleb a b
  end.

(** Rounding to an integer; [m * 2^e] with [e < 0] is split at the point. *)
Definition to_integral (f : bool -> Z -> Z -> Z) (x : f64) : f64 :=
  match x with
  | S754_finite s m e =>
      if 0 <=? e then x
      else binary_normalize prec emax (f s (Zpos m) (2 ^ (- e))) 0 s
  | _ => x
  end.
Definition floor : f64 -> f64 := to_integral (fun s m d => if (s : bool) then (- m) / d else m / d).
Definition ceil : f64 -> f64 := to_integral (fun s m d => if (s : bool) then - (m / d) else - ((- m) / d)).
Definition round : f64 -> f64 :=
  to_integral (fun s m d => if (s : bool) then - ((2 * m + d) / (2 * d)) else (2 * m + d) / (2 * d)).

(** [as i32]: truncated, saturating, a NaN is 0. *)
Definition to_i32 (x : f64) : Z :=
  let clamp z := Z.max (- 2 ^ 31) (Z.min (2 ^ 31 - 1) z) in
  match x with
  | S754_nan | S754_zero _ => 0
  | S754_infinity s => clamp (if s then - 2 ^ 31 else 2 ^ 31)
  | S754_finite s m e =>
      let t := if 0 <=? e then Zpos m * 2 ^ e else Zpos m / 2 ^ (- e) in
      clamp (if s then - t else t)
  end.

(** ** Formatting: [format!("{x:.p$}")] *)
Fixpoint uint_chars (d : Decimal.uint) : str :=
  match d with
  | Decimal.Nil => []
  | Decimal.D0 d => 48%N :: uint_chars d | Decimal.D1 d => 49%N :: uint_chars d
  | Decimal.D2 d => 50%N :: uint_chars d | Decimal.D3 d => 51%N :: uint_chars d
  | Decimal.D4 d => 52%N :: uint_chars d | Decimal.D5 d => 53%N :: uint_chars d
  | Decimal.D6 d => 54%N :: uint_chars d | Decimal.D7 d => 55%N :: uint_chars d
  | Decimal.D8 d => 56%N :: uint_chars d | Decimal.D9 d => 57%N :: uint_chars d
  end.
Definition digits (n : N) : str := uint_chars (N.to_uint n).

(** [n / d], ties to even. *)
Definition div_even (n d : Z) : Z :=
  let '(q, r) := Z.div_eucl n d in
  match Z.compare (2 * r) d with
  | Lt => q
  | Gt => q + 1
  | Eq => if Z.even q then q else q + 1
  end.

(** [n / 10^p] in decimal. *)
Definition fixed (p : nat) (n : Z) : str :=
  let ds := digits (Z.to_N n) in
  let ds := replicate (S p - length ds) 48%N ++ ds in
  let i := (length ds - p)%nat in
  take i ds ++ match p with O => [] | _ => lit "." ++ drop i ds end.

Definition fmt (p : nat) (x : f64) : str :=
  let sign (s : bool) := if s then lit "-" else [] in
  match x with
  | S754_nan => lit "NaN"
  | S754_infinity s => sign s ++ lit "inf"
  | S754_zero s => sign s ++ fixed p 0
  | S754_finite s m e =>
      let t := Zpos m * 10 ^ Z.of_nat p in
      sign s ++ fixed p (if 0 <=? e then t * 2 ^ e else div_even t (2 ^ (- e)))
  end.

(** ** Parsing: [str::parse::<f64>] *)
Fixpoint take_digits (s : str) : str * str :=
  match s with
  | c :: t => if Text.is_digit c then let '(d, r) := take_digits t in (c :: d, r) else ([], s)
  | [] => ([], [])
  end.
Definition value (ds : str) : Z := foldl (fun v c => 10 * v + (Z.of_N c - 48)) 0 ds.

Definition parse_sign (s : str) : bool * str :=
  match s with
  | c :: t => if (c =? 45)%N then (true, t) else if (c =? 43)%N then (false, t) else (false, s)
  | [] => (false, s)
  end.

(** The exponent: absent, or [e], a sign and digits to the end. *)
Definition parse_exponent (s : str) : option Z :=
  match s with
  | [] => Some 0
  | c :: t =>
      if (Text.to_ascii_lowercase c =? 101)%N then
        let '(neg, t) := parse_sign t in
        let '(ds, r) := take_digits t in
        match ds, r with
        | _ :: _, [] => Some (if (neg : bool) then - value ds else value ds)
        | _, _ => None
        end
      else None
  end.

Definition parse_number (neg : bool) (s : str) : option f64 :=
  let '(int, r) := take_digits s in
  let '(frac, r) := match r with c :: t => if (c =? 46)%N then take_digits t else ([], r) | [] => ([], r) end in
  match int ++ frac with
  | [] => None
  | ds => exp ← parse_exponent r; Some (of_decimal neg (value ds) (Z.of_nat (length frac) - exp))
  end.

Definition parse (s : str) : option f64 :=
  let '(neg, t) := parse_sign s in
  if Text.eq_ignore_ascii_case t (lit "nan") then Some S754_nan
  else if Text.eq_ignore_ascii_case t (lit "inf") || Text.eq_ignore_ascii_case t (lit "infinity")
  then Some (S754_infinity neg)
  else parse_number neg t.

(** ** Lemmas *)
Lemma lt_irrefl x : lt x x = false.
Proof.
  unfold lt, SFltb. destruct x as [s|s| |s m e]; try done; [by destruct s|]. cbn.
  rewrite Z.compare_refl. change (Pos.compare_cont Eq m m) with (Pos.compare m m). rewrite Pos.compare_refl. by destruct s.
Qed.

Lemma compare_flip x y : SFcompare y x = CompOpp <$> SFcompare x y.
Proof.
  destruct x as [s|s| |s m e], y as [t|t| |t n f]; try destruct s; try destruct t; try done; cbn; f_equal;
    rewrite (Z.compare_antisym e f); destruct (e ?= f)%Z; try done; cbn;
    change (Pos.compare_cont Eq) with Pos.compare; rewrite (Pos.compare_antisym m n); by destruct (m ?= n)%positive.
Qed.

Lemma compare_ordered x y : is_nan x = false -> is_nan y = false -> exists c, SFcompare x y = Some c.
Proof. destruct x as [s|s| |s m e], y as [t|t| |t n f]; try done; intros _ _; cbn; eauto. Qed.

Lemma total_le_total x y : total_le x y = false -> total_le y x = true.
Proof.
  destruct (is_nan x) eqn:Hx; [by destruct x, y|]. destruct (is_nan y) eqn:Hy; [by destruct x, y|].
  destruct (compare_ordered x y Hx Hy) as [c Hc]. pose proof (compare_flip x y) as Hf. rewrite Hc in Hf.
  destruct x as [s|s| |s m e], y as [t|t| |t n f]; try done; cbn [total_le]; unfold SFleb; rewrite ?Hc, ?Hf; try (by destruct c);
    by destruct s, t.
Qed.

(** A formatted number consists of digits, letters, points and signs. *)
Definition plain (c : N) : bool := Text.is_ascii_alphanumeric c || (c =? 45)%N || (c =? 46)%N.

Lemma uint_chars_plain d : Forall (fun c => plain c = true) (uint_chars d).
Proof. induction d; cbn; [constructor|by constructor..]. Qed.

Lemma fixed_plain p n : Forall (fun c => plain c = true) (fixed p n).
Proof.
  unfold fixed. set (ds := replicate _ _ ++ _). assert (Forall (fun c => plain c = true) ds) as Hds.
  { apply Forall_app. split; [by apply Forall_replicate|apply uint_chars_plain]. }
  generalize (length ds - p)%nat. intros i. apply Forall_app. split; [by apply Forall_take|].
  destruct p; [constructor|]. constructor; [done|]. by apply Forall_drop.
Qed.

Lemma fmt_plain p x : Forall (fun c => plain c = true) (fmt p x).
Proof.
  destruct x as [s|s| |s m e]; cbn [fmt]; [| |by repeat constructor|]; apply Forall_app; (split; [by destruct s; repeat constructor|]).
  - apply fixed_plain.
  - by repeat constructor.
  - apply fixed_plain.
Qed.

Lemma digits_nonnil n : digits n <> [].
Proof.
  unfold digits. destruct n as [|p]; [done|]. cbn [N.to_uint].
  pose proof (DecimalPos.Unsigned.to_uint_nonnil p). by destruct (Pos.to_uint p).
Qed.
End F64.
