(* ===== verification/Svg.v ===== *)
(** * The SVG builder ([tools/chartgen/src/svg.rs], [theme.rs])

    [Module Xml]: a grammar and a reader for the part of XML the builder writes;
    what the reader accepts is well-formed XML. [Module Svg]: the builder, whose
    document reads back as the marks that were drawn, whatever their text. *)
From stdpp Require Import base list numbers strings.
From S2P Require Import Prelude Text Float64.

Module Xml.
(** An element with an empty-element tag is a [Leaf]. *)
Inductive xml : Type :=
| Leaf (name : str) (attrs : list (str * str))
| Node (name : str) (attrs : list (str * str)) (kids : list xml)
| Chars (s : str).

(** ** Characters and names *)
Open Scope N_scope.
Definition xml_char (c : N) : bool :=
  (c =? 9) || (c =? 10) || (32 <=? c) && (c <=? 55295) || (57344 <=? c) && (c <=? 65533) ||
  (65536 <=? c) && (c <=? 1114111).
(** Character data and attribute values as written. *)
Definition raw_char (c : N) : bool := xml_char c && negb (c =? 60) && negb (c =? 62).
Definition value_char (c : N) : bool := xml_char c && (32 <=? c) && negb (c =? 60) && negb (c =? 34).
Definition letter (c : N) : bool := Text.is_upper c || Text.is_lower c.
Definition name_char (c : N) : bool := letter c || Text.is_digit c || (c =? 45) || (c =? 46) || (c =? 58) || (c =? 95).
Definition name_ok (s : str) : bool :=
  forallb name_char s && match s with c :: _ => letter c | [] => false end.
Close Scope N_scope.

Definition tag_ok (name : str) (attrs : list (str * str)) : bool :=
  name_ok name && forallb (fun kv => name_ok kv.1) attrs && bool_decide (NoDup attrs.*1).

(** The predefined entities. *)
Definition entity (e : str) : option N :=
  if Text.eqb e (lit "amp") then Some 38%N else if Text.eqb e (lit "lt") then Some 60%N
  else if Text.eqb e (lit "gt") then Some 62%N else if Text.eqb e (lit "quot") then Some 34%N
  else if Text.eqb e (lit "apos") then Some 39%N else None.

(** Text as written to text; [p] is the entity being read, reversed. *)
Fixpoint unesc (p : option str) (s : str) : option str :=
  match s, p with
  | [], None => Some []
  | [], Some _ => None
  | c :: t, None => if (c =? 38)%N then unesc (Some []) t else x ← unesc None t; Some (c :: x)
  | c :: t, Some e =>
      if (c =? 59)%N then ch ← entity (reverse e); x ← unesc None t; Some (ch :: x)
      else unesc (Some (c :: e)) t
  end.

(** ** Grammar *)
Definition is_chars (l : list xml) : bool := match l with Chars _ :: _ => true | _ => false end.

Inductive write_attrs : list (str * str) -> str -> Prop :=
| wa_nil : write_attrs [] []
| wa_cons k v raw attrs s :
    Forall (fun c => value_char c = true) raw -> unesc None raw = Some v -> write_attrs attrs s ->
    write_attrs ((k, v) :: attrs) (32%N :: k ++ 61%N :: 34%N :: raw ++ 34%N :: s).

Inductive write : xml -> str -> Prop :=
| w_leaf name attrs a :
    tag_ok name attrs = true -> write_attrs attrs a -> write (Leaf name attrs) (60%N :: name ++ a ++ [47; 62]%N)
| w_node name attrs a kids s :
    tag_ok name attrs = true -> write_attrs attrs a -> write_kids kids s ->
    write (Node name attrs kids) (60%N :: name ++ a ++ 62%N :: s ++ 60%N :: 47%N :: name ++ [62%N])
with write_kids : list xml -> str -> Prop :=
| wk_nil : write_kids [] []
| wk_elem t s kids r : write t s -> write_kids kids r -> write_kids (t :: kids) (s ++ r)
| wk_chars x raw kids r :
    raw <> [] -> Forall (fun c => raw_char c = true) raw -> unesc None raw = Some x -> is_chars kids = false ->
    write_kids kids r -> write_kids (Chars x :: kids) (raw ++ r).

Scheme write_ind2 := Minimality for write Sort Prop
with write_kids_ind2 := Minimality for write_kids Sort Prop.
Combined Scheme write_mutind from write_ind2, write_kids_ind2.

(** ** Reader

    One character at a time; the stack holds the open elements with the children
    read so far, the document itself at the bottom. *)
Record frame : Type := mkFrame { f_name : str; f_attrs : list (str * str); f_kids : list xml }.
Definition add (x : list xml) (f : frame) : frame := mkFrame (f_name f) (f_attrs f) (f_kids f ++ x).

Inductive mode : Type :=
| InText (acc : str)
| Lt
| OpenName (acc : str)
| Gap (name : str) (attrs : list (str * str))
| AttrName (name : str) (attrs : list (str * str)) (acc : str)
| Quote (name : str) (attrs : list (str * str)) (k : str)
| Value (name : str) (attrs : list (str * str)) (k acc : str)
| AfterValue (name : str) (attrs : list (str * str))
| Slash (name : str) (attrs : list (str * str))
| CloseName (acc : str).

(** The character data before a tag, reversed. *)
Definition flush (acc : str) (f : frame) : option frame :=
  match acc with
  | [] => Some f
  | _ => x ← unesc None (reverse acc); Some (add [Chars x] f)
  end.

(** After a name or an attribute. *)
Definition in_tag (name : str) (attrs : list (str * str)) (st : list frame) (c : N) : option (mode * list frame) :=
  if (c =? 32)%N then Some (Gap name attrs, st)
  else if (c =? 47)%N then Some (Slash name attrs, st)
  else if (c =? 62)%N then
    if tag_ok name attrs then Some (InText [], mkFrame name attrs [] :: st) else None
  else None.

Definition step (s : mode * list frame) (c : N) : option (mode * list frame) :=
  let '(m, st) := s in
  match m, st with
  | InText acc, f :: st' =>
      if (c =? 60)%N then f ← flush acc f; Some (Lt, f :: st')
      else if raw_char c then Some (InText (c :: acc), st) else None
  | Lt, _ =>
      if (c =? 47)%N then Some (CloseName [], st) else if name_char c then Some (OpenName [c], st) else None
  | OpenName acc, _ => if name_char c then Some (OpenName (c :: acc), st) else in_tag (reverse acc) [] st c
  | Gap name attrs, _ => if name_char c then Some (AttrName name attrs [c], st) else None
  | AttrName name attrs acc, _ =>
      if name_char c then Some (AttrName name attrs (c :: acc), st)
      else if (c =? 61)%N then Some (Quote name attrs (reverse acc), st) else None
  | Quote name attrs k, _ => if (c =? 34)%N then Some (Value name attrs k [], st) else None
  | Value name attrs k acc, _ =>
      if (c =? 34)%N then v ← unesc None (reverse acc); Some (AfterValue name (attrs ++ [(k, v)]), st)
      else if value_char c then Some (Value name attrs k (c :: acc), st) else None
  | AfterValue name attrs, _ => in_tag name attrs st c
  | Slash name attrs, f :: st' =>
      if (c =? 62)%N && tag_ok name attrs then Some (InText [], add [Leaf name attrs] f :: st') else None
  | CloseName acc, f :: g :: st' =>
      if name_char c then Some (CloseName (c :: acc), st)
      else if (c =? 62)%N && Text.eqb (reverse acc) (f_name f)
      then Some (InText [], add [Node (f_name f) (f_attrs f) (f_kids f)] g :: st') else None
  | _, _ => None
  end.

Fixpoint run (s : str) (x : mode * list frame) : option (mode * list frame) :=
  match s with
  | [] => Some x
  | c :: s => y ← step x c; run s y
  end.

(** A document is one element, and white space around it. *)
Definition blank (x : xml) : bool :=
  match x with Chars s => forallb (fun c => (c =? 9) || (c =? 10) || (c =? 32))%N s | _ => false end.
Definition read (s : str) : option xml :=
  match run s (InText [], [mkFrame [] [] []]) with
  | Some (InText acc, [f]) =>
      f ← flush acc f;
      match filter (fun x => blank x = false) (f_kids f) with
      | [Node name attrs kids] => Some (Node name attrs kids)
      | [Leaf name attrs] => Some (Leaf name attrs)
      | _ => None
      end
  | _ => None
  end.

(** ** The reader follows the grammar *)
Ltac opt_simpl := cbn [mbind mret option_bind option_ret].

Lemma run_app a b x : run (a ++ b) x = y ← run a x; run b y.
Proof.
  revert x. induction a as [|c a IH]; intros x; [done|]. cbn. destruct (step x c) as [y|]; [|done]. cbn. apply IH.
Qed.

Lemma run_text s acc f st :
  Forall (fun c => raw_char c = true) s -> run s (InText acc, f :: st) = Some (InText (reverse s ++ acc), f :: st).
Proof.
  intros Hs. revert acc. induction Hs as [|c s Hc Hs IH]; intros acc; [done|]. cbn [run step].
  destruct (c =? 60)%N eqn:Hlt.
  { apply N.eqb_eq in Hlt as ->. done. }
  rewrite Hc. opt_simpl. by rewrite IH, reverse_cons, <-app_assoc.
Qed.

Lemma run_value s name attrs k acc st :
  Forall (fun c => value_char c = true) s ->
  run s (Value name attrs k acc, st) = Some (Value name attrs k (reverse s ++ acc), st).
Proof.
  intros Hs. revert acc. induction Hs as [|c s Hc Hs IH]; intros acc; [done|]. cbn [run step].
  destruct (c =? 34)%N eqn:Hq.
  { apply N.eqb_eq in Hq as ->. done. }
  rewrite Hc. opt_simpl. by rewrite IH, reverse_cons, <-app_assoc.
Qed.

(** Names are read to their end in the three places they occur. *)
Lemma run_name (m : str -> mode) s acc st :
  (forall acc c, name_char c = true -> step (m acc, st) c = Some (m (c :: acc), st)) ->
  Forall (fun c => name_char c = true) s -> run s (m acc, st) = Some (m (reverse s ++ acc), st).
Proof.
  intros Hstep Hs. revert acc. induction Hs as [|c s Hc Hs IH]; intros acc; [done|]. cbn [run]. rewrite Hstep by done. opt_simpl.
  by rewrite IH, reverse_cons, <-app_assoc.
Qed.

Lemma name_ok_cons s : name_ok s = true -> exists c t, s = c :: t /\ name_char c = true /\ Forall (fun c => name_char c = true) t.
Proof.
  unfold name_ok. rewrite andb_true_iff, <-(Is_true_true (forallb _ _)), forallb_True. destruct s as [|c t]; [by intros [_ ?]|].
  intros [[Hc Ht]%Forall_cons _]. exists c, t. split; [done|]. split; [by apply Is_true_true|].
  eapply Forall_impl; [done|]. intros x. apply Is_true_true.
Qed.

Lemma run_open name st :
  name_ok name = true -> run name (Lt, st) = Some (OpenName (reverse name), st).
Proof.
  intros (c & t & -> & Hc & Ht)%name_ok_cons. cbn [run step]. destruct (c =? 47)%N eqn:Hs.
  { by apply N.eqb_eq in Hs as ->. }
  rewrite Hc. opt_simpl. rewrite (run_name OpenName) by (done || intros ? ? Hn; cbn; by rewrite Hn). by rewrite reverse_cons.
Qed.

Lemma run_attr_name name attrs k st :
  name_ok k = true -> run k (Gap name attrs, st) = Some (AttrName name attrs (reverse k), st).
Proof.
  intros (c & t & -> & Hc & Ht)%name_ok_cons. cbn [run step]. rewrite Hc. opt_simpl.
  rewrite (run_name (AttrName name attrs)) by (done || intros ? ? Hn; cbn; by rewrite Hn). by rewrite reverse_cons.
Qed.

Lemma run_close_name name f g st :
  name_ok name = true -> run name (CloseName [], f :: g :: st) = Some (CloseName (reverse name), f :: g :: st).
Proof.
  intros (c & t & -> & Hc & Ht)%name_ok_cons.
  rewrite (run_name CloseName); [by rewrite app_nil_r|intros ? ? Hn; cbn; by rewrite Hn|by constructor].
Qed.

(** A tag up to the point where [in_tag] applies: a name or a list of attributes. *)
Definition at_tag (name : str) (attrs : list (str * str)) (m : mode) : Prop :=
  forall st c, name_char c = false -> step (m, st) c = in_tag name attrs st c.

Lemma run_attrs attrs a : write_attrs attrs a -> forall name done m st,
  forallb (fun kv => name_ok kv.1) attrs = true -> at_tag name done m ->
  exists m', run a (m, st) = Some (m', st) /\ at_tag name (done ++ attrs) m'.
Proof.
  induction 1 as [|k v raw attrs a Hraw Hv Ha IH]; intros name done m st Hok Hm.
  { exists m. by rewrite app_nil_r. }
  cbn [forallb] in Hok. apply andb_true_iff in Hok as [Hk Hok].
  cbn [run]. rewrite Hm by done. cbn [in_tag N.eqb Pos.eqb option_bind mbind]. rewrite run_app, run_attr_name by done.
  cbn [mbind option_bind run step name_char]. cbn. rewrite reverse_involutive.
  rewrite run_app, run_value by done. cbn. rewrite app_nil_r, reverse_involutive, Hv. cbn.
  destruct (IH name (done ++ [(k, v)]) (AfterValue name (done ++ [(k, v)])) st Hok) as (m' & Hrun & Hm'); [done|].
  exists m'. split; [done|]. by rewrite <-app_assoc in Hm'.
Qed.

Lemma run_tag name attrs a acc f f1 st :
  tag_ok name attrs = true -> write_attrs attrs a -> flush acc f = Some f1 ->
  exists m, run (60%N :: name ++ a) (InText acc, f :: st) = Some (m, f1 :: st) /\ at_tag name attrs m.
Proof.
  intros Htag Ha Hf. unfold tag_ok in Htag. apply andb_true_iff in Htag as [[Hn Hk]%andb_true_iff _].
  cbn [run step N.eqb Pos.eqb]. rewrite Hf. cbn. rewrite run_app, run_open by done. cbn.
  destruct (run_attrs attrs a Ha name [] (OpenName (reverse name)) (f1 :: st) Hk) as (m & Hrun & Hm); [|by exists m].
  intros st' c Hc. cbn. by rewrite Hc, reverse_involutive.
Qed.

Lemma add_app x y f : add y (add x f) = add (x ++ y) f.
Proof. unfold add. cbn. by rewrite <-app_assoc. Qed.

Lemma add_nil f : add [] f = f.
Proof. destruct f. unfold add. cbn. by rewrite app_nil_r. Qed.

Lemma flush_nonnil acc f x :
  acc <> [] -> unesc None (reverse acc) = Some x -> flush acc f = Some (add [Chars x] f).
Proof. destruct acc as [|c acc]; [done|]. intros _ Hx. unfold flush. by rewrite Hx. Qed.

(** Reading what the grammar writes gives it back. *)
Lemma run_write :
  (forall t s, write t s -> forall acc f f1 st, flush acc f = Some f1 ->
    run s (InText acc, f :: st) = Some (InText [], add [t] f1 :: st)) /\
  (forall kids s, write_kids kids s -> forall acc f f1 st, (is_chars kids = true -> acc = []) -> flush acc f = Some f1 ->
    exists acc' f', run s (InText acc, f :: st) = Some (InText acc', f' :: st) /\ flush acc' f' = Some (add kids f1)).
Proof.
  apply write_mutind.
  - intros name attrs a Htag Ha acc f f1 st Hf. destruct (run_tag name attrs a acc f f1 st Htag Ha Hf) as (m & Hrun & Hm).
    rewrite app_comm_cons, app_assoc, <-app_comm_cons.
    rewrite run_app, Hrun. cbn [mbind option_bind run]. rewrite Hm by done. cbn. by rewrite Htag.
  - intros name attrs a kids s Htag Ha _ IH acc f f1 st Hf.
    destruct (run_tag name attrs a acc f f1 st Htag Ha Hf) as (m & Hrun & Hm).
    rewrite app_comm_cons, app_assoc, <-app_comm_cons, run_app, Hrun. cbn [mbind option_bind run]. rewrite Hm by done.
    cbn. rewrite Htag. cbn. rewrite run_app.
    destruct (IH [] (mkFrame name attrs []) (mkFrame name attrs []) (f1 :: st)) as (acc' & f' & -> & Hf'); [done|done|].
    cbn. rewrite Hf'. cbn. rewrite run_app, run_close_name; [|by apply andb_true_iff in Htag as [[? ?]%andb_true_iff _]].
    cbn. rewrite reverse_involutive. unfold Text.eqb. by rewrite bool_decide_true.
  - intros acc f f1 st _ Hf. exists acc, f. by rewrite add_nil.
  - intros t s kids r _ IHt _ IHk acc f f1 st _ Hf.
    destruct (IHk [] (add [t] f1) (add [t] f1) st) as (acc' & f' & Hrun & Hf'); [done|done|].
    exists acc', f'. rewrite run_app, (IHt acc f f1 st Hf). cbn. split; [done|]. by rewrite Hf', add_app.
  - intros x raw kids r Hne Hraw Hx Hkids _ IH acc f f1 st Hacc Hf. rewrite Hacc in * by done. injection Hf as <-.
    destruct (IH (reverse raw) f (add [Chars x] f) st) as (acc' & f' & Hrun & Hf').
    + by rewrite Hkids.
    + apply flush_nonnil; [by intros ?%(f_equal length); destruct raw; rewrite length_reverse in *|by rewrite reverse_involutive].
    + exists acc', f'. rewrite run_app, run_text, app_nil_r by done. cbn. split; [done|]. by rewrite Hf', add_app.
Qed.

Lemma read_write name attrs kids s :
  write (Node name attrs kids) s -> read (s ++ [10%N]) = Some (Node name attrs kids).
Proof.
  intros Hs. unfold read. rewrite run_app, (proj1 run_write _ _ Hs [] _ (mkFrame [] [] []) []) by done. done.
Qed.
End Xml.

(** ** [theme.rs] *)
Module Theme.
Definition BG : str := lit "#101010".
Definition TEXT : str := lit "#f2f4f8".
Definition MUTED : str := lit "#b6b8bb".
Definition FAINT : str := lit "#838383".
Definition BORDER : str := lit "#2a2a2a".
Definition BORDER_STRONG : str := lit "#3a3a3a".
Definition HERO : str := lit "#1fae61".
Definition NEUTRAL : str := lit "#3a3a3a".
Definition NEUTRAL_EDGE : str := lit "#4a4a4a".
Definition SERIES : list str := [HERO; lit "#e8630f"; lit "#4589ff"; lit "#d02670"; lit "#a56eff"].
Definition FONT : str := lit "'Berkeley Mono', ui-monospace, 'SF Mono', Menlo, monospace".
Definition WEIGHT : N := 400.
Definition FONT_FEATURES : str := lit "font-feature-settings:'liga' 1,'calt' 1".
Definition RADIUS : f64 := F64.of_Z 3.
End Theme.

Module Svg.
Record Svg : Type := mkSvg { body : str; w : f64; h : f64 }.

(** Escape the five XML metacharacters. *)
Definition esc (s : str) : str :=
  Text.replace 39 (lit "&apos;") (Text.replace 34 (lit "&quot;") (Text.replace 62 (lit "&gt;")
    (Text.replace 60 (lit "&lt;") (Text.replace 38 (lit "&amp;") s)))).

(** Trim trailing zeros. *)
Definition n (v : f64) : str :=
  let s := Text.trim_end_matches 46 (Text.trim_end_matches 48 (F64.fmt 2 v)) in
  if Text.eqb s [] || Text.eqb s (lit "-0") then lit "0" else s.

Inductive Anchor : Type := Start | Middle | End_.
Definition as_str (a : Anchor) : str :=
  match a with Start => lit "start" | Middle => lit "middle" | End_ => lit "end" end.

Definition new (w h : f64) : Svg := mkSvg [] w h.
Definition push_str (s : Svg) (t : str) : Svg := mkSvg (body s ++ t) (w s) (h s).

Definition two : f64 := F64.of_Z 2.
Definition rect (s : Svg) (x y w h : f64) (fill : str) (rx : f64) : Svg :=
  if F64.le w (F64.of_Z 0) || F64.le h (F64.of_Z 0) then s
  else push_str s (lit "<rect x=`" ++ n x ++ lit "` y=`" ++ n y ++ lit "` width=`" ++ n w ++ lit "` height=`" ++ n h ++
    lit "` rx=`" ++ n (F64.min (F64.min rx (F64.div w two)) (F64.div h two)) ++ lit "` fill=`" ++ fill ++ lit "`/>").

Definition line (s : Svg) (x1 y1 x2 y2 : f64) (stroke : str) (w : f64) : Svg :=
  push_str s (lit "<line x1=`" ++ n x1 ++ lit "` y1=`" ++ n y1 ++ lit "` x2=`" ++ n x2 ++ lit "` y2=`" ++ n y2 ++
    lit "` stroke=`" ++ stroke ++ lit "` stroke-width=`" ++ n w ++ lit "`/>").

(** The points of a path; the first is moved to. *)
Fixpoint path_data (first : bool) (pts : list (f64 * f64)) : str :=
  match pts with
  | [] => []
  | (x, y) :: pts =>
      (if first then lit "M" else lit "L") ++ n x ++ lit " " ++ n y ++
      match pts with [] => [] | _ => lit " " ++ path_data false pts end
  end.
Definition path (s : Svg) (pts : list (f64 * f64)) (stroke : str) (w : f64) : Svg :=
  if length pts <? 2 then s
  else push_str s (lit "<path d=`" ++ path_data true pts ++ lit "` fill=`none` stroke=`" ++ stroke ++
    lit "` stroke-width=`" ++ n w ++ lit "` stroke-linejoin=`round` stroke-linecap=`round`/>").

Definition marker (s : Svg) (x y r : f64) (fill ring : str) : Svg :=
  push_str s (lit "<circle cx=`" ++ n x ++ lit "` cy=`" ++ n y ++ lit "` r=`" ++ n r ++ lit "` fill=`" ++ fill ++
    lit "` stroke=`" ++ ring ++ lit "` stroke-width=`2`/>").

Definition text (s : Svg) (x y : f64) (t fill : str) (size : f64) (anchor : Anchor) (weight : N) : Svg :=
  push_str s (lit "<text x=`" ++ n x ++ lit "` y=`" ++ n y ++ lit "` fill=`" ++ fill ++ lit "` font-size=`" ++ n size ++
    lit "` font-weight=`" ++ F64.digits weight ++ lit "` font-style=`normal` text-anchor=`" ++ as_str anchor ++ lit "`>" ++
    esc t ++ lit "</text>").

Definition finish (s : Svg) (title desc : str) : str :=
  lit "<svg xmlns=`http://www.w3.org/2000/svg` width=`" ++ n (w s) ++ lit "` height=`" ++ n (h s) ++
  lit "` viewBox=`0 0 " ++ n (w s) ++ lit " " ++ n (h s) ++ lit "` role=`img` aria-labelledby=`t d`>" ++ [10%N] ++
  lit "<title id=`t`>" ++ esc title ++ lit "</title><desc id=`d`>" ++ esc desc ++ lit "</desc>" ++ [10%N] ++
  lit "<style>text{font-family:" ++ Theme.FONT ++ lit ";" ++ Theme.FONT_FEATURES ++
  lit ";font-style:normal;dominant-baseline:auto}</style>" ++ [10%N] ++
  lit "<rect width=`" ++ n (w s) ++ lit "` height=`" ++ n (h s) ++ lit "` fill=`" ++ Theme.BG ++ lit "`/>" ++ [10%N] ++
  body s ++ [10%N] ++ lit "</svg>" ++ [10%N].

(** ** What a drawing is

    The marks, the calls that draw them, and the elements they stand for; a bar
    without extent and a path without a segment stand for none. *)
Inductive mark : Type :=
| Rect (x y w h : f64) (fill : str) (rx : f64)
| Line (x1 y1 x2 y2 : f64) (stroke : str) (w : f64)
| Path (pts : list (f64 * f64)) (stroke : str) (w : f64)
| Marker (x y r : f64) (fill ring : str)
| Text (x y : f64) (t fill : str) (size : f64) (anchor : Anchor) (weight : N).

Definition draw (s : Svg) (m : mark) : Svg :=
  match m with
  | Rect x y w h fill rx => rect s x y w h fill rx
  | Line x1 y1 x2 y2 stroke w => line s x1 y1 x2 y2 stroke w
  | Path pts stroke w => path s pts stroke w
  | Marker x y r fill ring => marker s x y r fill ring
  | Text x y t fill size anchor weight => text s x y t fill size anchor weight
  end.

Definition text_kids (t : str) : list Xml.xml := match t with [] => [] | _ => [Xml.Chars t] end.

Definition mark_xml (m : mark) : option Xml.xml :=
  match m with
  | Rect x y w h fill rx =>
      if F64.le w (F64.of_Z 0) || F64.le h (F64.of_Z 0) then None
      else Some (Xml.Leaf (lit "rect") [(lit "x", n x); (lit "y", n y); (lit "width", n w); (lit "height", n h);
        (lit "rx", n (F64.min (F64.min rx (F64.div w two)) (F64.div h two))); (lit "fill", fill)])
  | Line x1 y1 x2 y2 stroke w =>
      Some (Xml.Leaf (lit "line") [(lit "x1", n x1); (lit "y1", n y1); (lit "x2", n x2); (lit "y2", n y2);
        (lit "stroke", stroke); (lit "stroke-width", n w)])
  | Path pts stroke w =>
      if length pts <? 2 then None
      else Some (Xml.Leaf (lit "path") [(lit "d", path_data true pts); (lit "fill", lit "none"); (lit "stroke", stroke);
        (lit "stroke-width", n w); (lit "stroke-linejoin", lit "round"); (lit "stroke-linecap", lit "round")])
  | Marker x y r fill ring =>
      Some (Xml.Leaf (lit "circle") [(lit "cx", n x); (lit "cy", n y); (lit "r", n r); (lit "fill", fill);
        (lit "stroke", ring); (lit "stroke-width", lit "2")])
  | Text x y t fill size anchor weight =>
      Some (Xml.Node (lit "text") [(lit "x", n x); (lit "y", n y); (lit "fill", fill); (lit "font-size", n size);
        (lit "font-weight", F64.digits weight); (lit "font-style", lit "normal"); (lit "text-anchor", as_str anchor)]
        (text_kids t))
  end.

Definition newline : Xml.xml := Xml.Chars [10%N].
Definition css : str :=
  lit "text{font-family:" ++ Theme.FONT ++ lit ";" ++ Theme.FONT_FEATURES ++ lit ";font-style:normal;dominant-baseline:auto}".

Definition document (w h : f64) (title desc : str) (marks : list Xml.xml) : Xml.xml :=
  Xml.Node (lit "svg") [(lit "xmlns", lit "http://www.w3.org/2000/svg"); (lit "width", n w); (lit "height", n h);
      (lit "viewBox", lit "0 0 " ++ n w ++ lit " " ++ n h); (lit "role", lit "img"); (lit "aria-labelledby", lit "t d")]
    ([newline; Xml.Node (lit "title") [(lit "id", lit "t")] (text_kids title);
      Xml.Node (lit "desc") [(lit "id", lit "d")] (text_kids desc); newline;
      Xml.Node (lit "style") [] [Xml.Chars css]; newline;
      Xml.Leaf (lit "rect") [(lit "width", n w); (lit "height", n h); (lit "fill", Theme.BG)]] ++
     match marks with [] => [Xml.Chars [10; 10]%N] | _ => newline :: marks ++ [newline] end).

(** Text that XML can carry, and attribute values that need no escaping. *)
Definition text_ok (s : str) : Prop := Forall (fun c => Xml.xml_char c = true) s.
Definition verbatim (c : N) : bool := Xml.value_char c && negb (c =? 38)%N.
Definition colour_ok (s : str) : Prop := Forall (fun c => verbatim c = true) s.
Definition mark_ok (m : mark) : Prop :=
  match m with
  | Rect _ _ _ _ fill _ => colour_ok fill
  | Line _ _ _ _ stroke _ | Path _ stroke _ => colour_ok stroke
  | Marker _ _ _ fill ring => colour_ok fill /\ colour_ok ring
  | Text _ _ t fill _ _ _ => text_ok t /\ colour_ok fill
  end.

(** ** Escaping *)
Definition esc_char (c : N) : str :=
  if (c =? 38)%N then lit "&amp;" else if (c =? 60)%N then lit "&lt;" else if (c =? 62)%N then lit "&gt;"
  else if (c =? 34)%N then lit "&quot;" else if (c =? 39)%N then lit "&apos;" else [c].

Lemma replace_bind c b f (s : str) : Text.replace c b (x ← s; f x) = x ← s; Text.replace c b (f x).
Proof. unfold Text.replace. induction s as [|x s IH]; [done|]. cbn. by rewrite bind_app, IH. Qed.

(** The five passes over the text are one. *)
Lemma esc_map s : esc s = s ≫= esc_char.
Proof.
  unfold esc. unfold Text.replace at 5. rewrite !replace_bind. apply list_bind_ext; [|done]. intros c. unfold esc_char.
  destruct (c =? 38)%N eqn:H1; [done|]. unfold Text.replace. cbn [mbind list_bind app]. rewrite ?app_nil_r.
  destruct (c =? 60)%N eqn:H2; [done|]. cbn. destruct (c =? 62)%N eqn:H3; [done|]. cbn.
  destruct (c =? 34)%N eqn:H4; [done|]. cbn. by destruct (c =? 39)%N.
Qed.

Lemma unesc_verbatim s : Forall (fun c => (c =? 38)%N = false) s -> Xml.unesc None s = Some s.
Proof. induction 1 as [|c s Hc Hs IH]; [done|]. cbn. by rewrite Hc, IH. Qed.

(** Escaped text reads back. *)
Lemma unesc_esc s : Xml.unesc None (esc s) = Some s.
Proof.
  rewrite esc_map. induction s as [|c s IH]; [done|]. cbn. unfold esc_char at 1.
  destruct (c =? 38)%N eqn:H1; [apply N.eqb_eq in H1 as ->; cbn; by rewrite IH|].
  destruct (c =? 60)%N eqn:H2; [apply N.eqb_eq in H2 as ->; cbn; by rewrite IH|].
  destruct (c =? 62)%N eqn:H3; [apply N.eqb_eq in H3 as ->; cbn; by rewrite IH|].
  destruct (c =? 34)%N eqn:H4; [apply N.eqb_eq in H4 as ->; cbn; by rewrite IH|].
  destruct (c =? 39)%N eqn:H5; [apply N.eqb_eq in H5 as ->; cbn; by rewrite IH|].
  cbn. by rewrite H1, IH.
Qed.

Lemma esc_raw s : text_ok s -> Forall (fun c => Xml.raw_char c = true) (esc s).
Proof.
  intros Hs. rewrite esc_map. induction Hs as [|c s Hc Hs IH]; [constructor|]. cbn. apply Forall_app. split; [|exact IH].
  unfold esc_char. repeat (case_match; [by repeat constructor|]). constructor; [|done].
  unfold Xml.raw_char. rewrite Hc. by repeat match goal with H : _ = false |- _ => rewrite H; clear H end.
Qed.

Lemma esc_nil s : esc s = [] -> s = [].
Proof. intros H. pose proof (unesc_esc s) as Hs. rewrite H in Hs. by injection Hs. Qed.

Lemma write_text t : text_ok t -> Xml.write_kids (text_kids t) (esc t).
Proof.
  intros Ht. destruct t as [|c t]; [constructor|]. rewrite <-(app_nil_r (esc _)). cbn [text_kids].
  apply Xml.wk_chars; [by intros ?%esc_nil|by apply esc_raw|apply unesc_esc|done|constructor].
Qed.

(** ** Numbers and colours are written verbatim *)
Lemma trim_start_by_sub (f : N -> bool) s (P : N -> Prop) : Forall P s -> Forall P (Text.trim_start_by f s).
Proof. induction 1 as [|c s Hc Hs IH]; [constructor|]. cbn. destruct (f c); [done|by constructor]. Qed.

Lemma trim_end_matches_sub c s (P : N -> Prop) : Forall P s -> Forall P (Text.trim_end_matches c s).
Proof. intros Hs. apply Forall_reverse, trim_start_by_sub, Forall_reverse, Hs. Qed.

Lemma plain_verbatim c : F64.plain c = true -> verbatim c = true.
Proof.
  intros H. assert (45 <= c <= 122)%N as Hc.
  { unfold F64.plain, Text.is_ascii_alphanumeric, Text.is_digit, Text.is_upper, Text.is_lower in H.
    rewrite !orb_true_iff, !andb_true_iff, !N.leb_le, !N.eqb_eq in H. lia. }
  assert (Forall (fun c => implb (F64.plain c) (verbatim c) = true) (N.of_nat <$> seq 0 123)) as Hall.
  { by repeat constructor. }
  rewrite Forall_forall in Hall. specialize (Hall c). rewrite H in Hall. apply Hall, list_elem_of_fmap.
  exists (N.to_nat c). split; [lia|]. apply elem_of_seq. lia.
Qed.

Lemma n_colour v : colour_ok (n v).
Proof.
  unfold n. destruct (_ || _); [by repeat constructor|]. do 2 apply trim_end_matches_sub.
  eapply Forall_impl; [apply F64.fmt_plain|]. apply plain_verbatim.
Qed.

Lemma digits_colour k : colour_ok (F64.digits k).
Proof. eapply Forall_impl; [apply F64.uint_chars_plain|]. apply plain_verbatim. Qed.

Lemma path_data_colour b pts : colour_ok (path_data b pts).
Proof.
  unfold colour_ok. revert b. induction pts as [|[x y] pts IH]; intros b; [constructor|]. cbn [path_data].
  rewrite !Forall_app. split_and!; [by destruct b; repeat constructor|apply n_colour|by repeat constructor|apply n_colour|].
  destruct pts as [|p pts]; [constructor|]. apply Forall_app. split; [by repeat constructor|apply IH].
Qed.

Lemma as_str_colour a : colour_ok (as_str a).
Proof. destruct a; by repeat constructor. Qed.

Lemma view_box_colour w h : colour_ok (lit "0 0 " ++ n w ++ lit " " ++ n h).
Proof. unfold colour_ok. rewrite !Forall_app. split_and!; try apply n_colour; by repeat constructor. Qed.

Lemma write_attr k v attrs s :
  colour_ok v -> Xml.write_attrs attrs s -> Xml.write_attrs ((k, v) :: attrs) (32%N :: k ++ 61%N :: 34%N :: v ++ 34%N :: s).
Proof.
  intros Hv Hs. apply Xml.wa_cons; [..|exact Hs].
  - eapply Forall_impl; [exact Hv|]. intros c Hc. by apply andb_true_iff in Hc as [??].
  - apply unesc_verbatim. eapply Forall_impl; [exact Hv|]. intros c Hc. apply andb_true_iff in Hc as [_ Hc].
    by apply negb_true_iff.
Qed.

(** ** The document of a drawing *)
Lemma write_eq t r r' : Xml.write t r -> r = r' -> Xml.write t r'.
Proof. by intros ? <-. Qed.

(** Attributes one by one, and the two ways to write a tag. *)
Ltac write_attrs :=
  repeat first [apply Xml.wa_nil | apply write_attr;
    [first [done | apply n_colour | apply digits_colour | apply path_data_colour | apply as_str_colour | apply view_box_colour | by repeat constructor]|]].
Ltac app_normal := rewrite <-?app_assoc; repeat (rewrite <-?app_comm_cons; rewrite <-?app_assoc).
Ltac write_leaf := eapply write_eq; [eapply Xml.w_leaf; [vm_compute; reflexivity|write_attrs]|app_normal; reflexivity].
Ltac write_node := eapply write_eq; [eapply Xml.w_node; [vm_compute; reflexivity|write_attrs|]|app_normal; reflexivity].

Lemma draw_mark s m : mark_ok m ->
  match mark_xml m with
  | None => draw s m = s
  | Some t => Xml.is_chars [t] = false /\ exists r, Xml.write t r /\ draw s m = push_str s r
  end.
Proof.
  destruct m as [x y w h fill rx|x1 y1 x2 y2 stroke w|pts stroke w|x y r fill ring|x y t fill size anchor weight]; intros Hm;
    cbn [mark_xml draw].
  - unfold rect. destruct (_ || _); [done|]. split; [done|]. eexists. split; [|reflexivity]. write_leaf.
  - split; [done|]. eexists. split; [|reflexivity]. write_leaf.
  - unfold path. destruct (length pts <? 2); [done|]. split; [done|]. eexists. split; [|reflexivity]. write_leaf.
  - destruct Hm. split; [done|]. eexists. split; [|reflexivity]. write_leaf.
  - destruct Hm as [Ht Hf]. split; [done|]. eexists. split; [|reflexivity].
    eapply write_eq; [eapply Xml.w_node; [vm_compute; reflexivity|write_attrs|by apply write_text]|].
    app_normal. reflexivity.
Qed.

Lemma draw_all ms s : Forall mark_ok ms ->
  exists b, foldl draw s ms = push_str s b /\ (omap mark_xml ms = [] -> b = []) /\
    Xml.is_chars (omap mark_xml ms) = false /\
    forall kids r, Xml.write_kids kids r -> Xml.write_kids (omap mark_xml ms ++ kids) (b ++ r).
Proof.
  intros Hms. revert s. induction Hms as [|m ms Hm Hms IH]; intros s.
  { exists []. split; [destruct s; unfold push_str; cbn; by rewrite app_nil_r|done]. }
  pose proof (draw_mark s m Hm) as Hd. cbn [foldl]. destruct (IH (draw s m)) as (b & Hb & Hnil & Hc & Hw). rewrite Hb.
  cbn [omap list_omap] in *. destruct (mark_xml m) as [t|]; [|rewrite Hd; by exists b].
  destruct Hd as (Ht & r & Hr & ->). exists (r ++ b). split; [unfold push_str; cbn; by rewrite <-app_assoc|].
  split; [done|]. split; [exact Ht|]. intros kids q Hq. rewrite <-app_assoc. cbn. apply Xml.wk_elem; [done|by apply Hw].
Qed.

Lemma wk_newline kids r : Xml.is_chars kids = false -> Xml.write_kids kids r -> Xml.write_kids (newline :: kids) (10%N :: r).
Proof. intros Hk Hr. by apply (Xml.wk_chars [10%N] [10%N]); [|repeat constructor|..]. Qed.

(** The marks, with the line feeds around them. *)
Lemma write_marks kids b :
  (kids = [] -> b = []) -> Xml.is_chars kids = false ->
  (forall ks r, Xml.write_kids ks r -> Xml.write_kids (kids ++ ks) (b ++ r)) ->
  Xml.write_kids (match kids with [] => [Xml.Chars [10; 10]%N] | _ => newline :: kids ++ [newline] end) (10%N :: b ++ [10%N]).
Proof.
  intros Hnil Hc Hw. destruct kids as [|t kids].
  - rewrite Hnil by done. apply (Xml.wk_chars [10; 10]%N [10; 10]%N [] []); [done|by repeat constructor|done..|constructor].
  - apply wk_newline; [done|]. apply Hw. apply wk_newline; [done|constructor].
Qed.

Lemma write_css : Xml.write_kids [Xml.Chars css] css.
Proof.
  rewrite <-(app_nil_r css) at 2. apply Xml.wk_chars; [intros H; by vm_compute in H| |by vm_compute|done|constructor].
  by repeat constructor.
Qed.

Lemma write_document w h title desc kids b :
  text_ok title -> text_ok desc -> Xml.write_kids (match kids with [] => [Xml.Chars [10; 10]%N] | _ => newline :: kids ++ [newline] end) (10%N :: b ++ [10%N]) ->
  exists r, Xml.write (document w h title desc kids) r /\ finish (mkSvg b w h) title desc = r ++ [10%N].
Proof.
  intros Ht Hd Hb. eexists. split.
  - apply Xml.w_node; [vm_compute; reflexivity|write_attrs|].
    apply wk_newline; [done|]. apply Xml.wk_elem; [apply Xml.w_node; [vm_compute; reflexivity|write_attrs|by apply write_text]|].
    apply Xml.wk_elem; [apply Xml.w_node; [vm_compute; reflexivity|write_attrs|by apply write_text]|].
    apply wk_newline; [done|]. apply Xml.wk_elem.
    { apply Xml.w_node; [vm_compute; reflexivity|write_attrs|]. exact write_css. }
    apply wk_newline; [done|]. apply Xml.wk_elem; [apply Xml.w_leaf; [vm_compute; reflexivity|write_attrs]|exact Hb].
  - unfold finish. cbn [body Svg.w Svg.h]. app_normal. reflexivity.
Qed.

Lemma read_finish w h title desc ms :
  text_ok title -> text_ok desc -> Forall mark_ok ms ->
  Xml.read (finish (foldl draw (new w h) ms) title desc) = Some (document w h title desc (omap mark_xml ms)).
Proof.
  intros Ht Hd Hms. destruct (draw_all ms (new w h) Hms) as (b & -> & Hnil & Hc & Hw).
  destruct (write_document w h title desc (omap mark_xml ms) b Ht Hd) as (r & Hr & Hf); [by apply write_marks|].
  change (push_str (new w h) b) with (mkSvg b w h). rewrite Hf. by apply Xml.read_write.
Qed.

(** C31: the document of a drawing reads back as exactly the marks drawn. Whatever
    the title, the description and the texts say, the file is well-formed XML: it
    reads as one [svg] element holding them unchanged, and one element per mark,
    in order; a bar without extent and a path without a segment leave none. *)
Theorem svg_reads_back (w h : f64) (title desc : str) (ms : list mark) :
  text_ok title -> text_ok desc -> Forall mark_ok ms ->
  Xml.read (finish (foldl draw (new w h) ms) title desc) = Some (document w h title desc (omap mark_xml ms)).
Proof. apply read_finish. Qed.

(** A hostile title and label, a bar without extent. *)
Definition demo_marks : list mark :=
  [Text two two (lit "</text>]]>&") Theme.TEXT two Start Theme.WEIGHT; Rect two two (F64.of_Z 0) two Theme.HERO two;
   Line two two two two Theme.BORDER two].

Lemma svg_reads_back_witness :
  Xml.read (finish (foldl draw (new two two) demo_marks) (lit "a<b & `c'") []) =
    Some (document two two (lit "a<b & `c'") [] (omap mark_xml demo_marks)) /\ length (omap mark_xml demo_marks) = 2.
Proof. split; [|reflexivity]. apply svg_reads_back; repeat constructor. Defined.
End Svg.
