(* ===== verification/Charts.v ===== *)
(** * The two chart forms ([tools/chartgen/src/charts.rs])

    A chart is the list of calls it makes on the SVG builder. [f64::log10],
    [powf] and [powi], whose precision Rust leaves unspecified, are parameters. *)
From stdpp Require Import base list numbers sorting strings.
From S2P Require Import Prelude Text Float64 Svg.

Module Charts.
Import Svg.
Section charts.
Context (log10 : f64 -> f64) (powf : f64 -> f64 -> f64) (powi : f64 -> Z -> f64).
Abbreviation int := F64.of_Z.
Infix "+." := F64.add (at level 50, left associativity).
Infix "-." := F64.sub (at level 50, left associativity).
Infix "*." := F64.mul (at level 40, left associativity).
Infix "/." := F64.div (at level 40, left associativity).

Definition CANVAS_W : f64 := int 820.
(** Monospace advance at 11px. *)
Definition ADV11 : f64 := int 11 *. F64.dec 6 1.

Definition fmt_ns (ns : f64) : str :=
  if F64.le (int 1000000) ns then F64.fmt 1 (ns /. int 1000000) ++ lit " ms"
  else if F64.le (int 1000) ns then F64.fmt 1 (ns /. int 1000) ++ lit " " ++ [181%N] ++ lit "s"
  else if F64.le (int 1) ns then F64.fmt 0 ns ++ lit " ns"
  else F64.fmt 2 ns ++ lit " ns".

Definition fmt_val (v : f64) : str :=
  if F64.le (int 100) v then F64.fmt 0 v
  else if F64.le (int 10) v then F64.fmt 1 v
  else F64.fmt 2 v.

(** "Nice" axis maximum: the first of the steps that reaches [v]. *)
Fixpoint nice_step (mag v : f64) (ms : list f64) : f64 :=
  match ms with
  | [] => mag *. int 10
  | m :: ms => if F64.le v (mag *. m) then mag *. m else nice_step mag v ms
  end.
Definition nice_max (v : f64) : f64 :=
  if F64.le v (int 0) then int 1
  else nice_step (powf (int 10) (F64.floor (log10 v))) v [int 1; int 2; F64.dec 25 1; int 5; int 10].

Record Bar : Type := mkBar { label : str; value : f64; hero : bool }.
Inductive Better : Type := Higher | Lower.

(** The longest of some texts, in characters. *)
Definition widest (ts : list str) : f64 := int (Z.of_nat (max_list (length <$> ts))).

Definition heading (title subtitle : str) : list mark :=
  [Text (int 24) (int 30) title Theme.TEXT (int 15) Start Theme.WEIGHT;
   Text (int 24) (int 46) subtitle Theme.FAINT (int 11) Start Theme.WEIGHT].

(** *** Bars *)
Section bars.
Context (pad_l plot_w max : f64).
Definition row : f64 := int 26.
Definition gap : f64 := int 10.
Definition bar_y (pad_t : f64) (i : nat) : f64 := pad_t +. int (Z.of_nat i) *. (row +. gap).
Definition bar_width (b : Bar) : f64 := value b /. max *. plot_w.

(** A gridline and its value. *)
Definition bar_grid (pad_t h : f64) (i : nat) : list mark :=
  let f := int (Z.of_nat i) /. int 4 in
  let x := pad_l +. plot_w *. f in
  [Line x (pad_t -. int 8) x (h -. int 30) Theme.BORDER (int 1);
   Text x (h -. int 14) (fmt_val (max *. f)) Theme.FAINT (int 10) Middle 400].

Definition bar_marks (pad_t : f64) (i : nat) (b : Bar) : list mark :=
  let y := bar_y pad_t i in
  let bw := bar_width b in
  let fill := if hero b then Theme.HERO else Theme.NEUTRAL in
  let ink := if hero b then Theme.TEXT else Theme.MUTED in
  [Text (pad_l -. int 14) (y +. row /. int 2 +. int 4) (label b) ink (int 11) End_ Theme.WEIGHT;
   Rect pad_l y bw row fill Theme.RADIUS] ++
  (if negb (hero b) then [Line pad_l y pad_l (y +. row) Theme.NEUTRAL_EDGE (int 1)] else []) ++
  [Text (pad_l +. bw +. int 10) (y +. row /. int 2 +. int 4) (fmt_val (value b)) ink (int 11) Start Theme.WEIGHT].
End bars.

(** The gutters, the height and the axis maximum. *)
Definition bars_pad_l (bars : list Bar) : f64 := F64.max (widest (label <$> bars) *. ADV11 +. int 24) (int 96).
Definition bars_pad_r (bars : list Bar) : f64 :=
  F64.max (widest (fmt_val ∘ value <$> bars) *. ADV11 +. int 24) (int 56).
Definition bars_plot_w (bars : list Bar) : f64 :=
  F64.max (CANVAS_W -. bars_pad_l bars -. bars_pad_r bars) (int 200).
Definition bars_h (bars : list Bar) : f64 :=
  int 68 +. int (Z.of_nat (length bars)) *. (row +. gap) +. int 34.
Definition bars_max (bars : list Bar) : f64 := nice_max (foldl F64.max (int 0) (value <$> bars)).

Definition bars_marks (title subtitle unit : str) (bars : list Bar) : list mark :=
  let pad_l := bars_pad_l bars in
  let plot_w := bars_plot_w bars in
  let h := bars_h bars in
  let max := bars_max bars in
  let pad_t := int 68 in
  heading title subtitle ++
  concat (bar_grid pad_l plot_w max pad_t h <$> seq 0 5) ++
  [Text (pad_l +. plot_w /. int 2) (h -. int 2) unit Theme.FAINT (int 10) Middle 400] ++
  concat (imap (bar_marks pad_l plot_w max pad_t) bars) ++
  [Line pad_l (pad_t -. int 8) pad_l (h -. int 30) Theme.BORDER_STRONG (int 1)].

Definition bars_chart (title subtitle unit : str) (bars : list Bar) (_better : Better) : str :=
  finish (foldl draw (new CANVAS_W (bars_h bars)) (bars_marks title subtitle unit bars)) title subtitle.

(** *** Latency percentiles *)
Record Series : Type := mkSeries { name : str; points : list (f64 * f64) }.

Section latency.
Context (series : list Series).
Definition lat_pad_l : f64 := int 74.
Definition lat_pad_t : f64 := int 70.
Definition plot_h : f64 := int 260.
Definition lat_pad_r : f64 := F64.max (widest (name <$> series) *. ADV11 +. int 28) (int 96).
Definition lat_plot_w : f64 := F64.max (CANVAS_W -. lat_pad_l -. lat_pad_r) (int 200).
Definition lat_h : f64 := lat_pad_t +. plot_h +. int 56.

(** The x axis: [log10 (1 / (1 - p))], up to the deepest percentile present. *)
Definition vx (p : f64) : f64 := log10 (int 1 /. (int 1 -. p)).
Definition v0 : f64 := vx (F64.dec 5 1).
Definition all_points : list (f64 * f64) := series ≫= points.
Definition vmax : f64 := foldl F64.max (vx (F64.dec 99 2)) (vx ∘ fst <$> all_points).
Definition xpos (p : f64) : f64 := lat_pad_l +. (vx p -. v0) /. (vmax -. v0) *. lat_plot_w.

(** The y axis: [log10] of the latency between the decades around the data. *)
Definition FLOOR : f64 := F64.dec 1 2.
Definition lo : f64 :=
  powf (int 10) (F64.floor (log10 (F64.max (foldl F64.min F64.MAX (snd <$> all_points)) FLOOR))).
Definition hi : f64 :=
  powf (int 10) (F64.ceil (log10 (F64.max (foldl F64.max F64.MIN (snd <$> all_points)) (lo *. int 10)))).
Definition ypos (ns : f64) : f64 :=
  lat_pad_t +. plot_h -. log10 (F64.max ns FLOOR /. lo) /. log10 (hi /. lo) *. plot_h.

Definition decades : Z := Z.max 0 (Z.min 64 (F64.to_i32 (F64.round (log10 (hi /. lo))))).
Definition y_grid (d : nat) : list mark :=
  let ns := lo *. powi (int 10) (Z.of_nat d) in
  let y := ypos ns in
  [Line lat_pad_l y (lat_pad_l +. lat_plot_w) y Theme.BORDER (int 1);
   Text (lat_pad_l -. int 10) (y +. int 4) (fmt_ns ns) Theme.FAINT (int 10) End_ Theme.WEIGHT].

Definition quoted : list (f64 * str) :=
  [(F64.dec 5 1, lit "p50"); (F64.dec 9 1, lit "p90"); (F64.dec 99 2, lit "p99");
   (F64.dec 999 3, lit "p99.9"); (F64.dec 9999 4, lit "p99.99")].
Definition x_grid (q : f64 * str) : list mark :=
  let x := xpos q.1 in
  if F64.lt (lat_pad_l +. lat_plot_w +. int 1) x then []
  else [Line x lat_pad_t x (lat_pad_t +. plot_h) Theme.BORDER (int 1);
        Text x (lat_pad_t +. plot_h +. int 18) q.2 Theme.FAINT (int 10) Middle Theme.WEIGHT].

Definition axis_note : str := lit "percentile (log scale " ++ [8212%N] ++ lit " the tail gets the room)".

(** A curve and its markers, and where its direct label wants to sit. *)
Definition colour_of (i : nat) : str := default [] (Theme.SERIES !! (i mod length Theme.SERIES)).
Definition curve (s : Series) : list (f64 * f64) := (fun q => (xpos q.1, ypos q.2)) <$> points s.
Definition curve_marks (i : nat) (s : Series) : list mark :=
  Path (curve s) (colour_of i) (int 2) ::
  ((fun q => Marker q.1 q.2 (int 4) (colour_of i) Theme.BG) <$> curve s).
Definition Label : Type := f64 * f64 * str * str.
Definition label_y (l : Label) : f64 := l.1.1.2.
Definition set_label_y (y : f64) (l : Label) : Label := (l.1.1.1, y, l.1.2, l.2).
Definition wanted_labels : list Label :=
  omap id (imap (fun i s => q ← last (curve s); Some (q.1, q.2, name s, colour_of i)) series).

(** Sort by y, push each label below the one before, then shift the whole stack
    back up if it overflows the canvas. *)
Definition LINE_H : f64 := int 15.
Definition sort_labels : list Label -> list Label := SortBy.sort_by (fun a b => F64.total_le (label_y a) (label_y b)).
Fixpoint push_down (prev : option f64) (ls : list Label) : list Label :=
  match ls with
  | [] => []
  | l :: ls =>
      let y := match prev with
               | Some p => if F64.lt (label_y l) (p +. LINE_H) then p +. LINE_H else label_y l
               | None => label_y l
               end in
      set_label_y y l :: push_down (Some y) ls
  end.
Definition shift_up (ls : list Label) : list Label :=
  match last ls with
  | Some l =>
      let overflow := label_y l -. (lat_h -. int 8) in
      if F64.lt (int 0) overflow then (fun l => set_label_y (label_y l -. overflow) l) <$> ls else ls
  | None => ls
  end.
Definition placed_labels : list Label := shift_up (push_down None (sort_labels wanted_labels)).
Definition label_mark (l : Label) : mark :=
  Text (l.1.1.1 +. int 12) (label_y l +. int 4) l.1.2 l.2 (int 11) Start Theme.WEIGHT.

Definition latency_marks (title subtitle : str) : list mark :=
  heading title subtitle ++
  concat (y_grid <$> seq 0 (S (Z.to_nat decades))) ++
  concat (x_grid <$> quoted) ++
  [Text (lat_pad_l +. lat_plot_w /. int 2) (lat_h -. int 12) axis_note Theme.FAINT (int 10) Middle 400] ++
  concat (imap curve_marks series) ++
  (label_mark <$> placed_labels) ++
  [Line lat_pad_l lat_pad_t lat_pad_l (lat_pad_t +. plot_h) Theme.BORDER_STRONG (int 1);
   Line lat_pad_l (lat_pad_t +. plot_h) (lat_pad_l +. lat_plot_w) (lat_pad_t +. plot_h) Theme.BORDER_STRONG (int 1)].

Definition latency_percentiles (title subtitle : str) : str :=
  finish (foldl draw (new CANVAS_W lat_h) (latency_marks title subtitle)) title subtitle.
End latency.
(** ** What a chart says *)

(** The content of the [text] elements, and the widths of the [rect]s. *)
Definition chars_of (x : Xml.xml) : str := match x with Xml.Chars s => s | _ => [] end.
Definition text_of (x : Xml.xml) : option str :=
  match x with
  | Xml.Node name _ kids => if Text.eqb name (lit "text") then Some (concat (chars_of <$> kids)) else None
  | _ => None
  end.
Definition width_of (x : Xml.xml) : option str :=
  match x with
  | Xml.Leaf name attrs => if Text.eqb name (lit "rect") then BTree.get (lit "width") attrs else None
  | _ => None
  end.
Definition kids_of (x : Xml.xml) : list Xml.xml := match x with Xml.Node _ _ kids => kids | _ => [] end.
Definition svg_texts (doc : Xml.xml) : list str := omap text_of (kids_of doc).
Definition svg_widths (doc : Xml.xml) : list str := omap width_of (kids_of doc).

(** The same of the marks. *)
Definition mark_text (m : mark) : option str := match m with Text _ _ t _ _ _ _ => Some t | _ => None end.
Definition mark_width (m : mark) : option str :=
  match m with
  | Rect _ _ w h _ _ => if F64.le w (int 0) || F64.le h (int 0) then None else Some (n w)
  | _ => None
  end.

Lemma text_of_mark m : (mark_xml m ≫= text_of) = mark_text m.
Proof.
  destruct m as [? ? ? ?|? ?|pts ? ?|? ?|? ? t ? ? ?]; cbn [mark_xml mark_text]; [by case_match|done|by case_match|done|].
  cbn. destruct t; [done|]. cbn. by rewrite app_nil_r.
Qed.

Lemma width_of_mark m : (mark_xml m ≫= width_of) = mark_width m.
Proof. destruct m as [? ? ? ?|? ?|pts ? ?|? ?|? ? t ? ? ?]; cbn [mark_xml mark_width]; [by case_match|done|by case_match|done|done]. Qed.

Lemma omap_omap {A B C} (f : A -> option B) (g : B -> option C) (l : list A) :
  omap g (omap f l) = omap (fun x => f x ≫= g) l.
Proof. induction l as [|x l IH]; [done|]. cbn. destruct (f x) as [y|]; cbn; [|done]. by destruct (g y); rewrite IH. Qed.

Lemma omap_ext' {A B} (f g : A -> option B) (l : list A) : (forall x, f x = g x) -> omap f l = omap g l.
Proof. intros Hfg. induction l as [|x l IH]; [done|]. cbn. by rewrite Hfg, IH. Qed.

(** Around the marks there is no text and one rectangle, the background. *)
Lemma document_kids {B} (f : Xml.xml -> option B) w h title desc ms :
  f newline = None -> f (Xml.Chars [10; 10]%N) = None ->
  omap f (kids_of (document w h title desc ms)) =
    omap f [newline; Xml.Node (lit "title") [(lit "id", lit "t")] (text_kids title);
      Xml.Node (lit "desc") [(lit "id", lit "d")] (text_kids desc); newline; Xml.Node (lit "style") [] [Xml.Chars css]; newline;
      Xml.Leaf (lit "rect") [(lit "width", n w); (lit "height", n h); (lit "fill", Theme.BG)]] ++ omap f ms.
Proof.
  intros Hn Hnn. unfold document. cbn [kids_of]. rewrite omap_app. f_equal. destruct ms as [|m ms]; cbn [omap list_omap].
  - by rewrite Hnn.
  - rewrite Hn. change (omap f ((m :: ms) ++ [newline]) = omap f (m :: ms)). rewrite omap_app. cbn [omap list_omap].
    by rewrite Hn, app_nil_r.
Qed.

Lemma svg_texts_document w h title desc ms : svg_texts (document w h title desc (omap mark_xml ms)) = omap mark_text ms.
Proof.
  unfold svg_texts. rewrite document_kids by done. rewrite omap_omap, (omap_ext' _ mark_text) by apply text_of_mark. done.
Qed.

Lemma svg_widths_document w h title desc ms :
  svg_widths (document w h title desc (omap mark_xml ms)) = n w :: omap mark_width ms.
Proof.
  unfold svg_widths. rewrite document_kids by done. rewrite omap_omap, (omap_ext' _ mark_width) by apply width_of_mark. done.
Qed.
Lemma omap_imap {A B C} (f : B -> option C) (F : nat -> A -> list B) (g : A -> list C) (l : list A) :
  (forall i a, omap f (F i a) = g a) -> omap f (concat (imap F l)) = concat (g <$> l).
Proof.
  intros Hg. revert F Hg. induction l as [|a l IH]; intros F Hg; [done|]. rewrite imap_cons. cbn [concat fmap list_fmap].
  rewrite omap_app, Hg. f_equal. apply IH. intros i b. apply Hg.
Qed.

Lemma Forall_imap {A B} (P : B -> Prop) (F : nat -> A -> list B) (l : list A) :
  (forall i a, a ∈ l -> Forall P (F i a)) -> Forall P (concat (imap F l)).
Proof.
  revert F. induction l as [|a l IH]; intros F HF; [constructor|]. rewrite imap_cons. cbn [concat]. apply Forall_app.
  split; [apply HF; by left|]. apply IH. intros i b Hb. apply HF. by right.
Qed.

Lemma Forall_concat_fmap {A B} (P : B -> Prop) (F : A -> list B) (l : list A) :
  (forall a, Forall P (F a)) -> Forall P (concat (F <$> l)).
Proof. intros HF. induction l as [|a l IH]; [constructor|]. cbn. by apply Forall_app. Qed.

Lemma fmt_ok p x : text_ok (F64.fmt p x).
Proof.
  eapply Forall_impl; [apply F64.fmt_plain|]. intros c Hc. apply plain_verbatim in Hc.
  unfold verbatim, Xml.value_char in Hc. by repeat apply andb_true_iff in Hc as [Hc _].
Qed.

Lemma fmt_val_ok v : text_ok (fmt_val v).
Proof. unfold fmt_val. repeat case_match; apply fmt_ok. Qed.

Lemma text_ok_app a b : text_ok a -> text_ok b -> text_ok (a ++ b).
Proof. intros ??. by apply Forall_app. Qed.

Lemma fmt_ns_ok v : text_ok (fmt_ns v).
Proof. unfold fmt_ns. repeat case_match; repeat apply text_ok_app; first [apply fmt_ok|by repeat constructor]. Qed.

Lemma heading_ok title subtitle : text_ok title -> text_ok subtitle -> Forall mark_ok (heading title subtitle).
Proof. intros Ht Hs. repeat constructor; done. Qed.

Lemma bar_marks_ok pad_l plot_w max pad_t i b : text_ok (label b) -> Forall mark_ok (bar_marks pad_l plot_w max pad_t i b).
Proof.
  intros Hb. unfold bar_marks. pose proof (fmt_val_ok (value b)). destruct (hero b); repeat constructor; done.
Qed.

Lemma bars_marks_ok title subtitle unit bars :
  text_ok title -> text_ok subtitle -> text_ok unit -> Forall (fun b => text_ok (label b)) bars ->
  Forall mark_ok (bars_marks title subtitle unit bars).
Proof.
  intros Ht Hs Hu Hb. unfold bars_marks. rewrite !Forall_app. split_and!.
  - by apply heading_ok.
  - apply Forall_concat_fmap. intros i. constructor; [by repeat constructor|]. constructor; [|constructor].
    split; [apply fmt_val_ok|by repeat constructor].
  - constructor; [|constructor]. split; [done|by repeat constructor].
  - apply Forall_imap. intros i b Hi. apply bar_marks_ok. by apply (proj1 (Forall_forall _ _) Hb).
  - by repeat constructor.
Qed.

Lemma bar_marks_text pad_l plot_w max pad_t i b :
  omap mark_text (bar_marks pad_l plot_w max pad_t i b) = [label b; fmt_val (value b)].
Proof. unfold bar_marks. by destruct (hero b). Qed.

Lemma bar_marks_width pad_l plot_w max pad_t i b :
  omap mark_width (bar_marks pad_l plot_w max pad_t i b) =
    if F64.le (bar_width plot_w max b) (int 0) then [] else [n (bar_width plot_w max b)].
Proof.
  unfold bar_marks, mark_width. cbn [omap list_omap app]. change (F64.le row (int 0)) with false. rewrite orb_false_r.
  by destruct (F64.le _ _), (hero b).
Qed.

(** The five gridlines of a bar chart. *)
Definition grid_values (max : f64) : list str := (fun i => fmt_val (max *. (int (Z.of_nat i) /. int 4))) <$> seq 0 5.

(** ** The direct labels of a latency chart *)
Definition label_name (l : Label) : str := l.1.2.
Definition label_key (l : Label) : str * str := (l.1.2, l.2).

Lemma push_down_length prev ls : length (push_down prev ls) = length ls.
Proof. revert prev. induction ls as [|l ls IH]; intros prev; [done|]. cbn. by rewrite IH. Qed.

Lemma push_down_keys prev ls : label_key <$> push_down prev ls = label_key <$> ls.
Proof. revert prev. induction ls as [|l ls IH]; intros prev; [done|]. cbn [push_down fmap list_fmap]. by rewrite IH. Qed.

Lemma shift_up_cases ls :
  shift_up ls = ls \/
  exists d, F64.lt (int 0) d = true /\ shift_up ls = (fun l => set_label_y (label_y l -. d) l) <$> ls.
Proof.
  unfold shift_up. destruct (last ls) as [l|]; [|by left]. destruct (F64.lt _ _) eqn:Hlt; [|by left]. right. by eexists.
Qed.

Lemma shift_up_none ls : ls = [] -> shift_up ls = [].
Proof. by intros ->. Qed.

Lemma shift_up_some ls lowest :
  last ls = Some lowest ->
  let overflow := label_y lowest -. (lat_h -. int 8) in
  (F64.lt (int 0) overflow = true -> shift_up ls = (fun l => set_label_y (label_y l -. overflow) l) <$> ls) /\
  (F64.lt (int 0) overflow = false -> shift_up ls = ls).
Proof. intros Hl overflow. unfold shift_up. rewrite Hl. fold overflow. by split; intros ->. Qed.

Lemma shift_up_keys ls : label_key <$> shift_up ls = label_key <$> ls.
Proof.
  destruct (shift_up_cases ls) as [->|(d & _ & ->)]; [done|]. rewrite <-list_fmap_compose. by apply list_fmap_ext.
Qed.

(** A label is where it wants to be, or right below the one before. *)
Lemma push_down_place ls prev i l l' :
  ls !! i = Some l -> push_down prev ls !! i = Some l' ->
  l' = set_label_y (label_y l') l /\
  (label_y l' = label_y l \/
   exists p, (match i with 0 => prev | S j => label_y <$> push_down prev ls !! j end) = Some p /\ label_y l' = p +. LINE_H).
Proof.
  revert prev i. induction ls as [|m ls IH]; intros prev i; [done|]. destruct i as [|i]; cbn [push_down lookup list_lookup].
  - intros [= ->] [= <-]. split; [done|]. destruct prev as [p|]; [|by left]. cbn.
    destruct (F64.lt _ _); [right; by exists p|by left].
  - intros Hl Hl'. destruct (IH _ i Hl Hl') as [Heq Hor]. split; [done|]. destruct Hor as [?|(p & Hp & Hy)]; [by left|].
    right. exists p. split; [|done]. by destruct i.
Qed.

Lemma push_down_apart ls prev i l' :
  push_down prev ls !! i = Some l' ->
  forall p, (match i with 0 => prev | S j => label_y <$> push_down prev ls !! j end) = Some p ->
  F64.lt (label_y l') (p +. LINE_H) = false.
Proof.
  revert prev i. induction ls as [|m ls IH]; intros prev i; [done|]. destruct i as [|i]; cbn [push_down lookup list_lookup].
  - intros [= <-] p ->. cbn. destruct (F64.lt (label_y m) _) eqn:Hlt; [apply F64.lt_irrefl|done].
  - intros Hl' p Hp. apply (IH _ i Hl' p). by destruct i.
Qed.

(** C35: the direct labels of a latency chart do not collide. They are the labels
    the curves want, sorted by height and then moved: each stays where it wants to
    be or sits exactly one line below the one above it, none is less than a line
    below the one above it; and if the lowest label lies more than zero below the
    last line the canvas has room for, eight units above its lower edge, all of them
    are shifted up by exactly that overflow, else none is moved. *)
Theorem latency_labels_apart (series : list Series) :
  let wanted := sort_labels (wanted_labels series) in
  let stack := push_down None wanted in
  wanted ≡ₚ wanted_labels series /\
  Sorted (fun a b => F64.total_le (label_y a) (label_y b) = true) wanted /\
  length stack = length wanted /\
  (forall i l l', wanted !! i = Some l -> stack !! i = Some l' ->
    l' = set_label_y (label_y l') l /\
    (label_y l' = label_y l \/ exists j above, i = S j /\ stack !! j = Some above /\ label_y l' = label_y above +. LINE_H)) /\
  (forall i above l, stack !! i = Some above -> stack !! S i = Some l -> F64.lt (label_y l) (label_y above +. LINE_H) = false) /\
  (stack = [] -> placed_labels series = []) /\
  (forall lowest, last stack = Some lowest ->
    let overflow := label_y lowest -. (lat_h -. int 8) in
    (F64.lt (int 0) overflow = true ->
      placed_labels series = (fun l => set_label_y (label_y l -. overflow) l) <$> stack) /\
    (F64.lt (int 0) overflow = false -> placed_labels series = stack)).
Proof.
  intros wanted stack. split_and!.
  - apply SortBy.sort_by_perm.
  - apply SortBy.sort_by_sorted. intros a b. apply F64.total_le_total.
  - apply push_down_length.
  - intros i l l' Hl Hl'. destruct (push_down_place wanted None i l l' Hl Hl') as [Heq Hor]. split; [done|].
    destruct Hor as [?|(p & Hp & Hy)]; [by left|right]. destruct i as [|j]; [done|].
    apply fmap_Some in Hp as (above & Habove & ->). by exists j, above.
  - intros i above l Ha Hl. apply (push_down_apart wanted None (S i) l Hl). fold stack. by rewrite Ha.
  - apply shift_up_none.
  - apply shift_up_some.
Qed.

(** The series that have a label. *)
Definition labelled (series : list Series) : list str :=
  omap (fun s => match points s with [] => None | _ => Some (name s) end) series.

Lemma last_nonnil {A} (x : A) l : exists y, last (x :: l) = Some y.
Proof. revert x. induction l as [|z l IH]; intros x; [by exists x|]. destruct (IH z) as [y Hy]. by exists y. Qed.

Lemma wanted_names series ss (colour : nat -> str) :
  label_name <$> omap id (imap (fun i s => q ← last (curve series s); Some (q.1, q.2, name s, colour i)) ss) = labelled ss.
Proof.
  revert colour. induction ss as [|s ss IH]; intros colour; [done|]. rewrite imap_cons. cbn [omap list_omap labelled].
  specialize (IH (colour ∘ S)). unfold curve at 1. destruct (points s) as [|q qs]; [exact IH|].
  destruct (last_nonnil (xpos series q.1, ypos series q.2) ((fun q => (xpos series q.1, ypos series q.2)) <$> qs)) as [y Hy].
  cbn [fmap list_fmap]. rewrite Hy. cbn. f_equal. exact IH.
Qed.

Lemma placed_keys series : label_key <$> placed_labels series ≡ₚ label_key <$> wanted_labels series.
Proof.
  unfold placed_labels. rewrite shift_up_keys, push_down_keys. unfold sort_labels. by rewrite SortBy.sort_by_perm.
Qed.

Lemma placed_names series : label_name <$> placed_labels series ≡ₚ labelled series.
Proof.
  change label_name with (fst ∘ label_key). rewrite list_fmap_compose, placed_keys, <-list_fmap_compose.
  unfold wanted_labels. by rewrite wanted_names.
Qed.

(** ** What a latency chart says *)
Definition visible (series : list Series) : list (f64 * str) :=
  filter (fun q => F64.lt (lat_pad_l +. lat_plot_w series +. int 1) (xpos series q.1) = false) quoted.

Lemma colour_of_ok i : colour_ok (colour_of i).
Proof.
  unfold colour_of. assert (Forall colour_ok Theme.SERIES) as Hall by (repeat constructor; done).
  destruct (Theme.SERIES !! _) as [c|] eqn:Hc; [|constructor]. by apply (Forall_lookup_1 _ _ _ _ Hall Hc).
Qed.

Lemma wanted_ok series : Forall (fun s => text_ok (name s)) series ->
  Forall (fun k => text_ok k.1 /\ colour_ok k.2) (label_key <$> wanted_labels series).
Proof.
  intros Hn. unfold wanted_labels. apply Forall_fmap, Forall_forall. intros l Hl.
  apply list_elem_of_omap in Hl as (o & Ho & Hl). cbn in Hl. subst o. apply elem_of_lookup_imap in Ho as (i & s & Heq & Hs).
  symmetry in Heq. apply bind_Some in Heq as (q & _ & [= <-]). cbn. split; [|apply colour_of_ok].
  by apply (Forall_lookup_1 _ _ _ _ Hn Hs).
Qed.

Lemma curve_marks_ok series i s : Forall mark_ok (curve_marks series i s).
Proof.
  unfold curve_marks. constructor; [apply colour_of_ok|]. apply Forall_fmap, Forall_true. intros q.
  split; [apply colour_of_ok|by repeat constructor].
Qed.

Lemma latency_marks_ok series title subtitle :
  text_ok title -> text_ok subtitle -> Forall (fun s => text_ok (name s)) series ->
  Forall mark_ok (latency_marks series title subtitle).
Proof.
  intros Ht Hs Hn. unfold latency_marks. rewrite !Forall_app. split_and!.
  - by apply heading_ok.
  - apply Forall_concat_fmap. intros d. constructor; [by repeat constructor|]. constructor; [|constructor].
    split; [apply fmt_ns_ok|by repeat constructor].
  - unfold quoted, x_grid. cbn [fmap list_fmap concat]. rewrite !Forall_app. split_and!; try done; case_match; by repeat constructor.
  - by repeat constructor.
  - apply Forall_imap. intros i s _. apply curve_marks_ok.
  - apply Forall_fmap. pose proof (wanted_ok series Hn) as Hw. rewrite <-placed_keys in Hw. apply Forall_fmap in Hw.
    eapply Forall_impl; [exact Hw|]. intros l Hl. exact Hl.
  - by repeat constructor.
Qed.

Lemma x_grid_texts series qs :
  omap mark_text (concat (x_grid series <$> qs)) =
    snd <$> filter (fun q => F64.lt (lat_pad_l +. lat_plot_w series +. int 1) (xpos series q.1) = false) qs.
Proof.
  induction qs as [|q qs IH]; [done|]. cbn [fmap list_fmap concat]. rewrite omap_app, IH, filter_cons. unfold x_grid.
  destruct (F64.lt _ _); by case_decide.
Qed.

Lemma curve_texts series i s : omap mark_text (curve_marks series i s) = [].
Proof. unfold curve_marks. cbn. by induction (curve series s). Qed.

(** A latency chart names its data. For any titles and names, the file is
    well-formed; its texts are the title, the subtitle, one latency per decade, the
    percentiles inside the plot, the note on the axis and the direct labels, which
    name every series that has points exactly once. *)
Theorem latency_chart_names (series : list Series) (title subtitle : str) :
  text_ok title -> text_ok subtitle -> Forall (fun s => text_ok (name s)) series ->
  exists doc names, Xml.read (latency_percentiles series title subtitle) = Some doc /\
    svg_texts doc = [title; subtitle] ++ ((fun d => fmt_ns (lo series *. powi (int 10) (Z.of_nat d))) <$> seq 0 (S (Z.to_nat (decades series)))) ++
      (snd <$> visible series) ++ [axis_note] ++ names /\
    names ≡ₚ labelled series.
Proof.
  intros Ht Hs Hn. eexists _, (label_name <$> placed_labels series).
  split; [by apply read_finish, latency_marks_ok|]. split; [|apply placed_names].
  rewrite svg_texts_document. unfold latency_marks. rewrite !omap_app, x_grid_texts.
  rewrite (omap_imap _ _ (fun _ => [])) by (intros; apply curve_texts).
  change (omap mark_text (heading title subtitle)) with [title; subtitle].
  assert (forall ds : list nat, omap mark_text (concat (y_grid series <$> ds)) =
    (fun d => fmt_ns (lo series *. powi (int 10) (Z.of_nat d))) <$> ds) as ->.
  { intros ds. induction ds as [|d ds IH]; [done|]. cbn [fmap list_fmap concat]. rewrite omap_app, IH. done. }
  assert (forall ls : list Label, omap mark_text (label_mark <$> ls) = label_name <$> ls) as ->.
  { intros ls. induction ls as [|l ls IH]; [done|]. cbn [fmap list_fmap omap list_omap label_mark mark_text]. by rewrite <-IH. }
  assert (forall ss : list Series, concat ((fun _ => []) <$> ss) = @nil str) as -> by (intros ss; by induction ss).
  cbn [omap list_omap mark_text app]. by rewrite app_nil_r.
Qed.
End charts.

(** Stand-ins for [log10] and [powf], exact on the powers of ten in the demo. *)
Definition demo_log10 (x : f64) : f64 :=
  F64.of_Z (if F64.le (F64.of_Z 100) x then 2 else if F64.le (F64.of_Z 10) x then 1 else 0).
Definition demo_powf (_ x : f64) : f64 := F64.of_Z (10 ^ F64.to_i32 x).
Definition demo_bars : list Bar :=
  [mkBar (lit "cynosure <RingBuf>") (F64.of_Z 450) true; mkBar (lit "none & `zero'") (F64.of_Z 0) false;
   mkBar (lit "rtrb") (F64.dec 4005 1) false].

End Charts.
