(* ===== verification/ChartGen.v ===== *)
(** * The chart generator ([tools/chartgen/src/main.rs], [render.rs])

    [Module ChartGen]: reading the benchmark tables, grouping their rows into
    charts, and writing one file per chart. The file system is a parameter: what
    the data directory holds, which paths are symbolic links, and which writes
    fail. So are the rasteriser [resvg] and the functions on floats that
    [Charts.v] takes as parameters. *)
From stdpp Require Import base list numbers sorting strings.
From Stdlib Require Import SpecFloat.
From S2P Require Import Prelude Text Float64 Svg Charts.

Module ChartGen.
(** ** Tables *)
Record Meta : Type := mkMeta { title : str; subtitle : str; unit_ : str; lower_is_better : bool }.
Definition default_meta : Meta := mkMeta [] [] [] false.

(** A CSV line, each field trimmed. *)
Definition fields (line : str) : list str := Text.trim <$> Text.split 44 line.

Definition set_directive (key val : str) (m : Meta) : Meta :=
  let v := Text.trim val in
  if Text.eqb key (lit "title") then mkMeta v (subtitle m) (unit_ m) (lower_is_better m)
  else if Text.eqb key (lit "subtitle") then mkMeta (title m) v (unit_ m) (lower_is_better m)
  else if Text.eqb key (lit "unit") then mkMeta (title m) (subtitle m) v (lower_is_better m)
  else if Text.eqb key (lit "better") then
    mkMeta (title m) (subtitle m) (unit_ m) (Text.eq_ignore_ascii_case v (lit "lower"))
  else m.

Definition table : Type := list (str * Meta) * list (list str).

Definition load_line (t : table) (line : str) : table :=
  let '(meta, rows) := t in
  match Text.trim line with
  | [] => t
  | line =>
      match Text.strip_prefix 35 line with
      | Some rest =>
          match Text.splitn3 58 rest with
          | Some (key, chart, val) =>
              (BTree.entry_or (Text.trim chart) default_meta (set_directive (Text.trim key) val) meta, rows)
          | None => t
          end
      | None => (meta, rows ++ [fields line])
      end
  end.
Definition parse_table (raw : str) : table := foldl load_line ([], []) (Text.lines raw).

(** A chart without directives still renders with its id. *)
Definition cloned_or_default (m : option Meta) (chart : str) : Meta :=
  match m with
  | Some m => mkMeta (match title m with [] => chart | t => t end) (subtitle m) (unit_ m) (lower_is_better m)
  | None => mkMeta chart [] [] false
  end.

(** A chart id as a file name. *)
Definition slug_char (c : N) : N :=
  if Text.is_ascii_alphanumeric c || (c =? 45)%N || (c =? 95)%N || (c =? 46)%N then c else 95%N.
Definition slug (chart : str) : str :=
  match Text.trim_start_by (N.eqb 46) (slug_char <$> chart) with
  | [] => lit "chart"
  | out => out
  end.

(** ** Rows to charts *)
Definition assert_len (r : list str) (msg : string) : outcome (str * str * str * str) :=
  match r with
  | a :: b :: c :: d :: _ => Done (a, b, c, d)
  | _ => Panicked msg
  end.
Definition parse_or_panic (s : str) : outcome f64 :=
  match F64.parse s with Some v => Done v | None => Panicked "invalid float literal" end.

Definition add_bar (m : list (str * list Charts.Bar)) (r : list str) : outcome (list (str * list Charts.Bar)) :=
  '(chart, label, v, hero) ← assert_len r "throughput csv: expected 4 fields";
  value ← parse_or_panic v;
  _ ← assert_or (F64.is_finite value) "throughput csv: value must be finite";
  let bar := Charts.mkBar label value (Text.eqb hero (lit "1") || Text.eq_ignore_ascii_case hero (lit "true")) in
  Done (BTree.entry_or chart [] (fun bars => bars ++ [bar]) m).

(** The points of a series; series in the order they are first seen. *)
Fixpoint add_to_series (name : str) (q : f64 * f64) (l : list Charts.Series) : list Charts.Series :=
  match l with
  | [] => [Charts.mkSeries name [q]]
  | s :: l =>
      if Text.eqb (Charts.name s) name then Charts.mkSeries (Charts.name s) (Charts.points s ++ [q]) :: l
      else s :: add_to_series name q l
  end.

Definition add_point (m : list (str * list Charts.Series)) (r : list str) : outcome (list (str * list Charts.Series)) :=
  '(chart, name, p, ns) ← assert_len r "latency csv: expected 4 fields";
  p ← parse_or_panic p;
  ns ← parse_or_panic ns;
  _ ← assert_or (F64.is_finite p && F64.le (F64.of_Z 0) p && F64.lt p (F64.of_Z 1)) "latency csv: percentile must be in [0, 1)";
  _ ← assert_or (F64.is_finite ns && F64.lt (F64.of_Z 0) ns) "latency csv: latency must be finite and positive";
  Done (BTree.entry_or chart [] (add_to_series name (p, ns)) m).

Fixpoint foldM {A B} (f : B -> A -> outcome B) (b : B) (l : list A) : outcome B :=
  match l with
  | [] => Done b
  | a :: l => b ← f b a; foldM f b l
  end.

(** Best first, whichever direction "best" runs in. *)
Definition sort_bars (lower : bool) : list Charts.Bar -> list Charts.Bar :=
  SortBy.sort_by (fun a b =>
    if lower then F64.total_le (Charts.value a) (Charts.value b) else F64.total_le (Charts.value b) (Charts.value a)).
Definition sort_points (s : Charts.Series) : Charts.Series :=
  Charts.mkSeries (Charts.name s) (SortBy.sort_by (fun a b : f64 * f64 => F64.total_le a.1 b.1) (Charts.points s)).

(** ** The program *)
Section program.
Context (log10 : f64 -> f64) (powf : f64 -> f64 -> f64) (powi : f64 -> Z -> f64).

(** [resvg]: parsing an SVG, the size of the tree (in [f32]), allocating a pixmap,
    rendering at a scale, and encoding it as a file. *)
Context {Tree Pixmap Png : Type} (from_str : str -> option Tree) (size : Tree -> spec_float * spec_float)
  (pixmap_new : Z -> Z -> option Pixmap) (render : Tree -> Pixmap -> Pixmap) (encode_png : Pixmap -> option Png).

Definition SCALE : spec_float := binary_normalize 24 128 4 0 false.
(** [(x * SCALE).round() as u32]. *)
Definition scaled (x : spec_float) : Z :=
  let clamp z := Z.max 0 (Z.min (2 ^ 32 - 1) z) in
  match SFmul 24 128 x SCALE with
  | S754_nan | S754_zero _ => 0
  | S754_infinity s => if s then 0 else 2 ^ 32 - 1
  | S754_finite s m e =>
      if s then 0
      else clamp (if 0 <=? e then Zpos m * 2 ^ e else (2 * Zpos m + 2 ^ (- e)) / (2 * 2 ^ (- e)))
  end%Z.

(** The picture of [svg], with its size; [None] is an error. *)
Definition png (svg : str) : option (Png * (Z * Z)) :=
  tree ← from_str svg;
  let '(w, h) := (scaled (size tree).1, scaled (size tree).2) in
  pixmap ← pixmap_new w h;
  p ← encode_png (render tree pixmap);
  Some (p, (w, h)).

(** The files under [docs/bench-data], [None] when it cannot be listed, their
    contents, whether [docs/charts] can be made, and the paths in it that are
    symbolic links or cannot be written. *)
Context (create_dir_ok : bool) (names : option (list str)) (read_to_string : str -> option str) (is_symlink write_fails : str -> bool).

Inductive content : Type := SvgFile (s : str) | PngFile (p : Png).
Record Out : Type := mkOut { written : list str; files : list (str * content) }.

Definition load (path : str) : outcome table :=
  match read_to_string path with
  | Some raw => Done (parse_table raw)
  | None => Panicked "cannot read the table"
  end.

Definition emit (chart svg : str) (o : Out) : outcome Out :=
  let name := slug chart in
  _ ← assert_or (negb (bool_decide (name ∈ written o))) "two chart ids map to the same output name";
  let svg_path := name ++ lit ".svg" in
  let png_path := name ++ lit ".png" in
  _ ← assert_or (negb (is_symlink svg_path)) "refusing to write through symlink";
  _ ← assert_or (negb (is_symlink png_path)) "refusing to write through symlink";
  _ ← assert_or (negb (write_fails svg_path)) "write svg";
  let o := mkOut (name :: written o) (files o ++ [(svg_path, SvgFile svg)]) in
  match png svg with
  | Some (p, _) => Done (if write_fails png_path then o else mkOut (written o) (files o ++ [(png_path, PngFile p)]))
  | None => Done o
  end.

Definition sources (prefix : str) : list str :=
  SortBy.sort_by (fun a b => negb (Text.ltb b a))
    (filter (fun n => Text.starts_with prefix n && Text.ends_with (lit ".csv") n) (default [] names)).

(** The tables of several files: later directives win, rows are appended. *)
Definition merge (t : table) (path : str) : outcome table :=
  '(m, r) ← load path;
  Done (BTree.extend t.1 m, t.2 ++ r).

Definition emit_bars (meta : list (str * Meta)) (o : Out) (c : str * list Charts.Bar) : outcome Out :=
  let '(chart, bars) := c in
  let m := cloned_or_default (BTree.get chart meta) chart in
  let bars := sort_bars (lower_is_better m) bars in
  let better := if lower_is_better m then Charts.Lower else Charts.Higher in
  emit chart (Charts.bars_chart log10 powf (title m) (subtitle m) (unit_ m) bars better) o.

Definition emit_latency (meta : list (str * Meta)) (o : Out) (c : str * list Charts.Series) : outcome Out :=
  let '(chart, series) := c in
  let series := sort_points <$> series in
  let m := cloned_or_default (BTree.get chart meta) chart in
  emit chart (Charts.latency_percentiles log10 powf powi series (title m) (subtitle m)) o.

Definition throughput (o : Out) : outcome Out :=
  '(meta, rows) ← foldM merge ([], []) (sources (lit "throughput"));
  per_chart ← foldM add_bar [] rows;
  foldM (emit_bars meta) o per_chart.

Definition latency (o : Out) : outcome Out :=
  '(meta, rows) ← foldM merge ([], []) (sources (lit "latency"));
  per_chart ← foldM add_point [] rows;
  foldM (emit_latency meta) o per_chart.

(** [main], and whether it exits with an error because there was no input. *)
Definition main : outcome (Out * bool) :=
  _ ← assert_or create_dir_ok "create docs/charts";
  o ← throughput (mkOut [] []);
  o ← latency o;
  Done (o, match written o with [] => true | _ => false end).
End program.

(** ** Tables written and read

    The writer of the benches: four directives per chart, one line per row. *)
Definition directive (key chart val : str) : str := 35%N :: key ++ 58%N :: chart ++ 58%N :: val.
Definition meta_lines (c : str * Meta) : list str :=
  [directive (lit "title") c.1 (title c.2); directive (lit "subtitle") c.1 (subtitle c.2);
   directive (lit "unit") c.1 (unit_ c.2);
   directive (lit "better") c.1 (if lower_is_better c.2 then lit "lower" else lit "higher")].
Definition table_lines (t : table) : list str := (t.1 ≫= meta_lines) ++ (Text.join 44 <$> t.2).
Definition write_table (t : table) : str := table_lines t ≫= (fun l => l ++ [10%N]).

(** Values without line feeds and outer white space, chart ids without a colon,
    fields without a comma; a row is not blank and does not start like a directive. *)
Definition value_ok (s : str) : Prop := Text.edges s /\ (10 ∉ s)%N.
Definition meta_ok (c : str * Meta) : Prop :=
  value_ok c.1 /\ (58 ∉ c.1)%N /\ value_ok (title c.2) /\ value_ok (subtitle c.2) /\ value_ok (unit_ c.2).
Definition row_ok (r : list str) : Prop :=
  Forall (fun f => value_ok f /\ (44 ∉ f)%N) r /\ Text.join 44 r <> [] /\ head (Text.join 44 r) <> Some 35%N.
Definition table_ok (t : table) : Prop := BTree.ok t.1 /\ Forall meta_ok t.1 /\ Forall row_ok t.2.

Lemma lines_write ls : Forall value_ok ls -> Text.lines (ls ≫= (fun l => l ++ [10%N])) = ls.
Proof.
  induction 1 as [|l ls [He Hn] Hls IH]; [done|]. cbn [mbind list_bind]. rewrite <-app_assoc. cbn [app].
  rewrite Text.lines_app by first [done | by apply Text.edges_line]. by rewrite IH.
Qed.

Lemma value_ok_app a b : value_ok a -> value_ok b -> a <> [] -> b <> [] -> value_ok (a ++ b).
Proof. intros [??] [??] ??. split; [by apply Text.edges_app|]. rewrite elem_of_app. tauto. Qed.

(** A separator that is not white space keeps a line trimmed. *)
Lemma value_ok_sep c s : Text.is_whitespace c = false -> (c <> 10)%N -> value_ok s -> value_ok (c :: s).
Proof.
  intros Hc Hn [He Hs]. split; [|by rewrite not_elem_of_cons]. split; [by intros ? [= <-]|]. intros d. rewrite last_cons.
  destruct (last s) eqn:Hl; [|by intros [= <-]]. intros [= <-]. by apply He.
Qed.

Lemma value_ok_glue a c s : Text.is_whitespace c = false -> (c <> 10)%N -> value_ok a -> value_ok s -> value_ok (a ++ c :: s).
Proof.
  intros Hc Hn Ha Hs. destruct a as [|x a]; [by apply value_ok_sep|]. apply value_ok_app; [done|by apply value_ok_sep|done..].
Qed.

Lemma directive_ok key chart val : value_ok key -> value_ok chart -> value_ok val -> value_ok (directive key chart val).
Proof. intros. apply value_ok_sep; [done..|]. apply value_ok_glue; [done..|]. by apply value_ok_glue. Qed.

Lemma join_ok r : Forall (fun f => value_ok f /\ (44 ∉ f)%N) r -> value_ok (Text.join 44 r).
Proof.
  induction 1 as [|f r [Hf _] Hr IH]; [by split; [|apply not_elem_of_nil]|]. destruct r as [|g r]; [done|].
  change (value_ok (f ++ 44%N :: Text.join 44 (g :: r))). by apply value_ok_glue.
Qed.

Lemma load_directive m rows key chart val :
  value_ok key -> value_ok chart -> value_ok val -> (58 ∉ key)%N -> (58 ∉ chart)%N ->
  load_line (m, rows) (directive key chart val) = (BTree.entry_or chart default_meta (set_directive key val) m, rows).
Proof.
  intros Hk Hc Hv Hnk Hnc. unfold load_line. rewrite Text.trim_edges by by apply directive_ok. cbn [directive Text.strip_prefix].
  rewrite N.eqb_refl. unfold Text.splitn3. rewrite Text.split_once_app by done. cbn [mbind option_bind].
  rewrite Text.split_once_app by done. cbn [mbind option_bind].
  by rewrite (Text.trim_edges chart), (Text.trim_edges key) by (apply Hc || apply Hk).
Qed.

Lemma load_row m rows r : row_ok r -> load_line (m, rows) (Text.join 44 r) = (m, rows ++ [r]).
Proof.
  intros (Hr & Hne & Hh). unfold load_line. rewrite Text.trim_edges by by apply join_ok.
  assert (fields (Text.join 44 r) = r) as Hf.
  { unfold fields. rewrite Text.split_join; [|by intros ->|eapply Forall_impl; [exact Hr|by intros ? [_ ?]]].
    rewrite <-(list_fmap_id r) at 2. apply list_fmap_ext. intros i f Hi. apply Text.trim_edges.
    apply (Forall_lookup_1 _ _ _ _ Hr Hi). }
  destruct (Text.join 44 r) as [|c l] eqn:Hl; [done|]. cbn [Text.strip_prefix]. destruct (c =? 35)%N eqn:Hc; [|by rewrite Hf].
  apply N.eqb_eq in Hc as ->. done.
Qed.

Lemma value_ok_lit s : forallb (fun c => negb (Text.is_whitespace c)) (lit s) = true -> value_ok (lit s).
Proof.
  generalize (lit s). intros l. rewrite <-Is_true_true, forallb_True, Forall_forall. intros Hl. split.
  - split; intros c Hc; [apply head_Some_elem_of in Hc|apply last_Some_elem_of in Hc]; apply Hl in Hc; by destruct (Text.is_whitespace c).
  - intros Hin. by apply Hl in Hin.
Qed.

Lemma load_meta m c :
  meta_ok c -> Forall (fun j => Text.ltb j c.1 = true) m.*1 -> foldl load_line (m, []) (meta_lines c) = (m ++ [c], []).
Proof.
  destruct c as [chart [ti su un lo]]. intros (Hc & Hn & Ht & Hs & Hu) Hm. cbn [fst snd title subtitle unit_ lower_is_better] in *.
  cbn [meta_lines foldl fst snd title subtitle unit_ lower_is_better].
  assert (forall key : string, forallb (fun c => negb (c =? 58)%N) (lit key) = true -> (58 ∉ lit key)%N) as Hkey.
  { intros key Hk Hin. apply list_elem_of_In, (proj1 (forallb_forall _ _) Hk) in Hin. done. }
  rewrite !load_directive by (done || by apply Hkey || by apply value_ok_lit || by destruct lo; apply value_ok_lit).
  rewrite (BTree.entry_or_above _ _ _ m), !BTree.entry_or_last by done. unfold set_directive.
  rewrite (Text.trim_edges ti), (Text.trim_edges su), (Text.trim_edges un) by (apply Ht || apply Hs || apply Hu). by destruct lo.
Qed.

Lemma load_metas m cs :
  BTree.ok (m ++ cs) -> Forall meta_ok cs -> foldl load_line (m, []) (cs ≫= meta_lines) = (m ++ cs, []).
Proof.
  revert m. induction cs as [|c cs IH]; intros m Hok Hcs; [by rewrite app_nil_r|]. apply Forall_cons in Hcs as [Hc Hcs].
  cbn [mbind list_bind]. rewrite foldl_app, load_meta; [|done|].
  - rewrite (cons_middle c m cs), app_assoc in Hok |- *. by rewrite IH.
  - unfold BTree.ok in Hok. rewrite fmap_app in Hok. cbn in Hok. apply StronglySorted_app in Hok as (Hlt & _ & _).
    apply Forall_forall. intros j Hj. apply (Hlt j c.1 Hj). by left.
Qed.

Lemma load_rows m rows rs : Forall row_ok rs -> foldl load_line (m, rows) (Text.join 44 <$> rs) = (m, rows ++ rs).
Proof.
  intros Hrs. revert rows. induction Hrs as [|r rs Hr Hrs IH]; intros rows; [by rewrite app_nil_r|].
  cbn [fmap list_fmap foldl]. rewrite load_row by done. by rewrite IH, <-app_assoc.
Qed.

Lemma meta_lines_ok c : meta_ok c -> Forall value_ok (meta_lines c).
Proof.
  intros (Hc & _ & Ht & Hs & Hu). unfold meta_lines. repeat (constructor; [apply directive_ok; try done|]); try by apply value_ok_lit.
  - by destruct (lower_is_better c.2); apply value_ok_lit.
  - constructor.
Qed.

Lemma table_lines_ok t : table_ok t -> Forall value_ok (table_lines t).
Proof.
  intros (_ & Hm & Hr). apply Forall_app. split.
  - induction Hm as [|c m Hc Hm IH]; [constructor|]. apply Forall_app. split; [by apply meta_lines_ok|done].
  - apply Forall_fmap. eapply Forall_impl; [exact Hr|]. intros r (Hr' & _). by apply join_ok.
Qed.

(** C32: a table written is the table read. Titles, subtitles, units and directions
    of any charts and any rows, as the benches write them, come back unchanged. *)
Theorem csv_roundtrip (t : table) : table_ok t -> parse_table (write_table t) = t.
Proof.
  intros Ht. unfold parse_table, write_table. rewrite lines_write by by apply table_lines_ok. unfold table_lines.
  destruct t as [m rs], Ht as (Hok & Hm & Hr). cbn [fst snd] in *. rewrite foldl_app, (load_metas []) by done. by apply load_rows.
Qed.

(** ** Grouping *)

(** The bar a row stands for, and the bars of a chart. *)
Definition row_bar (r : list str) : option (str * Charts.Bar) :=
  match r with
  | chart :: label :: v :: hero :: _ =>
      value ← F64.parse v;
      if F64.is_finite value
      then Some (chart, Charts.mkBar label value (Text.eqb hero (lit "1") || Text.eq_ignore_ascii_case hero (lit "true")))
      else None
  | _ => None
  end.
Definition bars_of (rows : list (list str)) (chart : str) : list Charts.Bar :=
  omap (fun r => '(c, b) ← row_bar r; if decide (c = chart) then Some b else None) rows.
Definition nonempty {A} (l : list A) : option (list A) := match l with [] => None | _ => Some l end.

Lemma add_bar_row m r :
  match row_bar r with
  | Some (c, b) => add_bar m r = Done (BTree.entry_or c [] (fun bars => bars ++ [b]) m)
  | None => exists msg, add_bar m r = Panicked msg
  end.
Proof.
  destruct r as [|c [|l [|v [|h r]]]]; try (by eexists). cbn [row_bar]. unfold add_bar, assert_len, parse_or_panic. outcome_simpl.
  destruct (F64.parse v) as [x|]; cbn [mbind option_bind]; outcome_simpl; [|by eexists].
  destruct (F64.is_finite x); unfold assert_or; outcome_simpl; [done|by eexists].
Qed.

Lemma bars_of_cons r rows chart :
  bars_of (r :: rows) chart = match row_bar r with Some (c, b) => if decide (c = chart) then [b] else [] | None => [] end ++ bars_of rows chart.
Proof. unfold bars_of. cbn [omap list_omap]. destruct (row_bar r) as [[c b]|]; [|done]. cbn [mbind option_bind]. by case_decide. Qed.

(** What was grouped before the rows, and with them. *)
Lemma add_bars m rows : BTree.ok m ->
  match foldM add_bar m rows with
  | Done m' => Forall (fun r => is_Some (row_bar r)) rows /\ BTree.ok m' /\
      forall chart, default [] (BTree.get chart m') = default [] (BTree.get chart m) ++ bars_of rows chart /\
        (is_Some (BTree.get chart m') <-> is_Some (BTree.get chart m) \/ bars_of rows chart <> [])
  | Panicked _ => Exists (fun r => row_bar r = None) rows
  | Undefined => False
  end.
Proof.
  revert m. induction rows as [|r rows IH]; intros m Hm; cbn [foldM].
  { split_and!; [constructor|done|]. intros chart. rewrite app_nil_r. unfold bars_of. cbn. tauto. }
  pose proof (add_bar_row m r) as Hr. destruct (row_bar r) as [[c b]|] eqn:Hrow.
  - rewrite Hr. outcome_simpl. specialize (IH _ (BTree.entry_or_ok c [] (fun bars => bars ++ [b]) m Hm)).
    destruct (foldM _ _ rows) as [m'|msg|]; [|by right|done]. destruct IH as (Hall & Hok & Hget).
    split_and!; [by constructor|done|]. intros chart. destruct (Hget chart) as [Hg Hs]. rewrite bars_of_cons, Hrow.
    destruct (decide (c = chart)) as [->|Hne].
    + rewrite BTree.get_entry_or in Hg, Hs by done. simpl in Hg. rewrite Hg, <-app_assoc. split; [done|].
      rewrite Hs. split; [intros _; by right|intros _; by left].
    + rewrite BTree.get_entry_or_ne in Hg, Hs by done. done.
  - destruct Hr as [msg ->]. outcome_simpl. by left.
Qed.

(** C36: the rows of a throughput table are checked and grouped. If every row has
    a chart, a label, a finite value and a mark, each chart gets exactly the bars of
    its rows, in their order, and no chart is made up; otherwise the generator
    panics and draws nothing from the table. *)
Theorem rows_grouped (rows : list (list str)) :
  match foldM add_bar [] rows with
  | Done m => Forall (fun r => is_Some (row_bar r)) rows /\ BTree.ok m /\
      forall chart, BTree.get chart m = nonempty (bars_of rows chart)
  | Panicked _ => Exists (fun r => row_bar r = None) rows
  | Undefined => False
  end.
Proof.
  pose proof (add_bars [] rows) as H. destruct (foldM add_bar [] rows) as [m|msg|]; [|by apply H; constructor..].
  destruct H as (Hall & Hok & Hget); [constructor|]. split_and!; [done..|]. intros chart. destruct (Hget chart) as [Hg Hs].
  cbn in Hg, Hs. destruct (BTree.get chart m) as [bs|]; cbn in Hg.
  - subst bs. destruct (bars_of rows chart) as [|b bs]; [|done]. by destruct (proj1 Hs) as [[? ?]|?].
  - by rewrite <-Hg.
Qed.

(** ** Files *)

(** A single path component that is neither hidden nor a directory of the path. *)
Definition safe_name (name : str) : Prop :=
  name <> [] /\ head name <> Some 46%N /\ Forall (fun c => slug_char c = c) name.

Lemma slug_char_idem c : slug_char (slug_char c) = slug_char c.
Proof.
  unfold slug_char. destruct (Text.is_ascii_alphanumeric c || (c =? 45)%N || (c =? 95)%N || (c =? 46)%N) eqn:H; [by rewrite H|done].
Qed.

Lemma trim_start_dot s : head (Text.trim_start_by (N.eqb 46) s) <> Some 46%N.
Proof. induction s as [|c s IH]; [done|]. cbn [Text.trim_start_by]. destruct (46 =? c)%N eqn:Hc; [exact IH|]. intros [= ->]. done. Qed.

Lemma slug_safe chart : safe_name (slug chart).
Proof.
  unfold slug. pose proof (trim_start_dot (slug_char <$> chart)) as Hdot.
  pose proof (Svg.trim_start_by_sub (N.eqb 46) (slug_char <$> chart) (fun c => slug_char c = c)) as Hsub.
  destruct (Text.trim_start_by _ _) as [|c out]; [split_and!; [done|by intros [=]|by repeat constructor]|]. split_and!; [done|done|].
  apply Hsub, Forall_fmap, Forall_true. apply slug_char_idem.
Qed.

Section files.
Context (log10 : f64 -> f64) (powf : f64 -> f64 -> f64) (powi : f64 -> Z -> f64).
Context {Tree Pixmap Png : Type} (from_str : str -> option Tree) (size : Tree -> spec_float * spec_float)
  (pixmap_new : Z -> Z -> option Pixmap) (render : Tree -> Pixmap -> Pixmap) (encode_png : Pixmap -> option Png).
Context (create_dir_ok : bool) (names : option (list str)) (read_to_string : str -> option str)
  (is_symlink write_fails : str -> bool).
Abbreviation emit := (emit from_str size pixmap_new render encode_png is_symlink write_fails).
Abbreviation main := (main log10 powf powi from_str size pixmap_new render encode_png create_dir_ok names read_to_string
  is_symlink write_fails).
Abbreviation merged := (foldM (merge read_to_string) ([], [])).

Definition extension (c : content (Png := Png)) : str := match c with SvgFile _ => lit ".svg" | PngFile _ => lit ".png" end.
Definition file_ok (f : str * content) : Prop :=
  (exists name, safe_name name /\ f.1 = name ++ extension f.2) /\ is_symlink f.1 = false /\ write_fails f.1 = false.

(** The files written so far; each belongs to a name written. *)
Record out_ok (o : Out (Png := Png)) : Prop := {
  oo_nodup : NoDup (files o).*1;
  oo_files : Forall file_ok (files o);
  oo_names f : f ∈ files o -> exists name, name ∈ written o /\ f.1 = name ++ extension f.2;
  oo_some : written o = [] <-> files o = []
}.

Definition svg_files (o : Out (Png := Png)) : list (str * str) :=
  omap (fun f => match f.2 with SvgFile s => Some (f.1, s) | PngFile _ => None end) (files o).

Lemma extension_inj name name' (c c' : content (Png := Png)) :
  name ++ extension c = name' ++ extension c' -> name = name' /\ extension c = extension c'.
Proof. intros H. apply app_inj_2 in H; [done|]. by destruct c, c'. Qed.

Lemma add_file o f name :
  out_ok o -> name ∈ written o -> f.1 = name ++ extension f.2 -> file_ok f -> (forall g, g ∈ files o -> g.1 <> f.1) ->
  out_ok (mkOut (written o) (files o ++ [f])).
Proof.
  intros [Hn Hf Hw Hs] Hname Heq Hok Hnew. split; cbn.
  - rewrite fmap_app. apply NoDup_app. split_and!; [done| |by apply NoDup_singleton]. intros p Hp.
    apply list_elem_of_fmap in Hp as (g & -> & Hg). cbn. intros Hin%list_elem_of_singleton. by apply (Hnew g).
  - apply Forall_app. by split; [|constructor].
  - intros g [Hg|Hg]%elem_of_app; [by apply Hw|]. apply list_elem_of_singleton in Hg as ->. by exists name.
  - split; [intros Hnil; by rewrite Hnil in Hname; apply elem_of_nil in Hname|by destruct (files o)].
Qed.

(** One chart: its name is new, and its files are added. *)
Lemma emit_done chart svg o o' :
  out_ok o -> emit chart svg o = Done o' ->
  out_ok o' /\ svg_files o' = svg_files o ++ [(slug chart ++ lit ".svg", svg)].
Proof.
  intros Ho. unfold ChartGen.emit. destruct (bool_decide _) eqn:Hnew; cbn [negb assert_or]; outcome_simpl; [done|].
  apply bool_decide_eq_false in Hnew. unfold assert_or.
  destruct (is_symlink (slug chart ++ lit ".svg")) eqn:H1; cbn [negb]; outcome_simpl; [done|].
  destruct (is_symlink (slug chart ++ lit ".png")) eqn:H2; cbn [negb]; outcome_simpl; [done|].
  destruct (write_fails (slug chart ++ lit ".svg")) eqn:H3; cbn [negb]; outcome_simpl; [done|].
  assert (forall g, g ∈ files o -> forall c, g.1 <> slug chart ++ extension c) as Hfresh.
  { intros g Hg c Heq. destruct (oo_names _ Ho g Hg) as (name & Hname & Hg1). rewrite Hg1 in Heq.
    apply extension_inj in Heq as [-> _]. done. }
  set (o1 := mkOut (slug chart :: written o) (files o ++ [(slug chart ++ lit ".svg", SvgFile svg)])).
  assert (out_ok o1) as Ho1.
  { split; cbn.
    - rewrite fmap_app. apply NoDup_app. split_and!; [apply Ho| |by apply NoDup_singleton]. intros p Hp.
      apply list_elem_of_fmap in Hp as (g & -> & Hg). cbn. intros Hin%list_elem_of_singleton.
      by apply (Hfresh g Hg (SvgFile svg)).
    - apply Forall_app. split; [apply Ho|]. constructor; [|constructor]. split; [|done]. exists (slug chart).
      split; [apply slug_safe|done].
    - intros g [Hg|Hg]%elem_of_app.
      + destruct (oo_names _ Ho g Hg) as (name & ? & ?). exists name. split; [by right|done].
      + apply list_elem_of_singleton in Hg as ->. exists (slug chart). split; [by left|done].
    - split; [done|by destruct (files o)]. }
  assert (svg_files o1 = svg_files o ++ [(slug chart ++ lit ".svg", svg)]) as Hs by (unfold svg_files; cbn; by rewrite omap_app).
  destruct (png _ _ _ _ _ svg) as [[p wh]|]; [|by intros [= <-]]. destruct (write_fails (slug chart ++ lit ".png")) eqn:H4; intros [= <-]; [done|].
  split; [|unfold svg_files in *; cbn in *; rewrite !omap_app; cbn; by rewrite app_nil_r].
  apply (add_file o1 (slug chart ++ lit ".png", PngFile p) (slug chart)); [done|by left|done| |].
  - split; [|done]. exists (slug chart). split; [apply slug_safe|done].
  - intros g [Hg|Hg]%elem_of_app; [by apply (Hfresh g Hg (PngFile p))|]. apply list_elem_of_singleton in Hg as ->. cbn.
    intros Heq. by apply (extension_inj _ _ (SvgFile svg) (PngFile p)) in Heq as [_ ?].
Qed.

(** All charts of a group. *)
Lemma emit_all {A} (draw : str * A -> str) (step : Out -> str * A -> outcome Out) cs o o' :
  (forall o c, step o c = emit c.1 (draw c) o) -> out_ok o -> foldM step o cs = Done o' ->
  out_ok o' /\ svg_files o' = svg_files o ++ ((fun c => (slug c.1 ++ lit ".svg", draw c)) <$> cs).
Proof.
  intros Hstep. revert o. induction cs as [|c cs IH]; intros o Ho; cbn [foldM].
  { intros [= <-]. cbn. by rewrite app_nil_r. }
  rewrite Hstep. destruct (emit c.1 (draw c) o) as [o1|msg|] eqn:He; outcome_simpl; [|done..]. intros Hrun.
  destruct (emit_done _ _ _ _ Ho He) as [Ho1 Hs1]. destruct (IH o1 Ho1 Hrun) as [Ho' Hs']. split; [done|].
  by rewrite Hs', Hs1, <-app_assoc.
Qed.

(** The chart of some bars, and of some series. *)
Definition bars_svg (meta : list (str * Meta)) (c : str * list Charts.Bar) : str :=
  let m := cloned_or_default (BTree.get c.1 meta) c.1 in
  Charts.bars_chart log10 powf (title m) (subtitle m) (unit_ m) (sort_bars (lower_is_better m) c.2)
    (if lower_is_better m then Charts.Lower else Charts.Higher).
Definition latency_svg (meta : list (str * Meta)) (c : str * list Charts.Series) : str :=
  let m := cloned_or_default (BTree.get c.1 meta) c.1 in
  Charts.latency_percentiles log10 powf powi (sort_points <$> c.2) (title m) (subtitle m).

Lemma emit_bars_step meta o c :
  emit_bars log10 powf from_str size pixmap_new render encode_png is_symlink write_fails meta o c = emit c.1 (bars_svg meta c) o.
Proof. by destruct c. Qed.

Lemma emit_latency_step meta o c :
  emit_latency log10 powf powi from_str size pixmap_new render encode_png is_symlink write_fails meta o c =
    emit c.1 (latency_svg meta c) o.
Proof. by destruct c. Qed.

(** C33: the generator writes the charts of its tables and nothing else. When it
    returns, every file lies directly in the output directory under a name made of
    letters, digits, [-], [_] and [.] that does not start with a dot, no path is
    written twice, none goes through a symbolic link, and it reports an error
    exactly when nothing was written; and the SVG files are, in order, the bar
    charts of the throughput tables and the curves of the latency tables, one per
    chart id, under the id's name. *)
Theorem chartgen_writes (o : Out) (failed : bool) :
  main = Done (o, failed) ->
  NoDup (files o).*1 /\ Forall file_ok (files o) /\ (failed = true <-> files o = []) /\
  exists t bars u curves,
    merged (sources names (lit "throughput")) = Done t /\ foldM add_bar [] t.2 = Done bars /\
    merged (sources names (lit "latency")) = Done u /\ foldM add_point [] u.2 = Done curves /\
    svg_files o = ((fun c => (slug c.1 ++ lit ".svg", bars_svg t.1 c)) <$> bars) ++
      ((fun c => (slug c.1 ++ lit ".svg", latency_svg u.1 c)) <$> curves).
Proof.
  unfold ChartGen.main, throughput, latency, assert_or. destruct create_dir_ok; outcome_simpl; [|done].
  destruct (merged (sources names (lit "throughput"))) as [[tm rows]|msg|]; outcome_simpl; [|done..].
  destruct (foldM add_bar [] rows) as [bars|msg|] eqn:Hbars; outcome_simpl; [|done..].
  destruct (foldM _ _ bars) as [o1|msg|] eqn:H1; outcome_simpl; [|done..].
  destruct (merged (sources names (lit "latency"))) as [[um lrows]|msg|]; outcome_simpl; [|done..].
  destruct (foldM add_point [] lrows) as [curves|msg|] eqn:Hcurves; outcome_simpl; [|done..].
  destruct (foldM _ _ curves) as [o2|msg|] eqn:H2; outcome_simpl; [|done..]. intros [= <- <-].
  assert (out_ok (mkOut [] [])) as H0 by (split; cbn; [constructor|constructor|by intros ? ?%elem_of_nil|done]).
  destruct (emit_all _ _ bars _ _ (emit_bars_step tm) H0 H1) as [Ho1 Hs1].
  destruct (emit_all _ _ curves _ _ (emit_latency_step um) Ho1 H2) as [Ho2 Hs2].
  split_and!; [apply Ho2|apply Ho2| |].
  - rewrite <-(oo_some _ Ho2). by destruct (written o2).
  - exists (tm, rows), bars, (um, lrows), curves. split_and!; [done..|]. by rewrite Hs2, Hs1.
Qed.
End files.

(** A table with two charts, one of them with a hostile id. *)
Definition demo_table : table :=
  ([(lit "../a/b", mkMeta (lit "T") [] (lit "Mops/s") true); (lit "ring", mkMeta (lit "R: x") (lit "s, t") [] false)],
   [[lit "ring"; lit "rtrb"; lit "40.5"; lit "0"]; [lit "ring"; lit "cynosure"; lit "1e2"; lit "TRUE"];
    [lit "../a/b"; []; lit "7"; lit "1"]]).

Lemma csv_roundtrip_witness : table_ok demo_table /\ parse_table (write_table demo_table) = demo_table.
Proof.
  assert (forall (c : N) (s : str), forallb (fun x => negb (x =? c)%N) s = true -> c ∉ s) as Hnot.
  { intros c s Hs Hin. apply list_elem_of_In, (proj1 (forallb_forall _ _) Hs) in Hin. by rewrite N.eqb_refl in Hin. }
  assert (table_ok demo_table) as Hok; [|split; [exact Hok|by apply csv_roundtrip]].
  split_and!; [by repeat constructor|..];
    repeat match goal with
    | |- Forall _ _ => constructor
    | |- _ /\ _ => split
    | |- _ ∉ _ => by apply Hnot
    | |- meta_ok _ => unfold meta_ok
    | |- row_ok _ => unfold row_ok
    | |- value_ok _ => split
    | |- Text.edges _ => split; by intros ? [= <-]
    | |- _ <> _ => by intros [=]
    end.
Defined.

(** A directory with that table: the picture library fails on every chart. *)
Definition demo_main : outcome (Out (Png := unit) * bool) :=
  main Charts.demo_log10 Charts.demo_powf (fun x _ => x) (fun _ : str => @None unit) (fun _ => (S754_nan, S754_nan))
    (fun _ _ => @None unit) (fun _ p => p) (fun _ => None) true (Some [lit "throughput.csv"; lit "notes.txt"])
    (fun n => if Text.eqb n (lit "throughput.csv") then Some (write_table demo_table) else None)
    (fun _ => false) (fun _ => false).

Lemma chartgen_writes_witness :
  exists o, demo_main = Done (o, false) /\ (files o).*1 = [lit "_a_b.svg"; lit "ring.svg"] /\ NoDup (files o).*1.
Proof.
  assert (match demo_main with
          | Done (o, failed) => failed = false /\ (files o).*1 = [lit "_a_b.svg"; lit "ring.svg"]
          | _ => False
          end) as Hdemo by (vm_compute; by split).
  destruct demo_main as [[o failed]|msg|] eqn:Hmain; [|done..]. destruct Hdemo as [-> Hf].
  destruct (chartgen_writes _ _ _ _ _ _ _ _ _ _ _ _ _ o false Hmain) as (Hn & _ & _ & _). by exists o.
Defined.
End ChartGen.
